(* ===== verification/_CoqProject ===== *)
-Q . S2P
Prelude.v
Varint.v
Checksum.v
Vfs.v
VfsLaws.v
FileNames.v
TestKit.v
LinuxFile.v
LinuxVfs.v
LinuxLaws.v
WalBatch.v
WalFormat.v
UnitCodec.v
WalLayout.v
WalWriter.v
WalReader.v
Bloom.v
Probe.v
SstFormat.v
Block.v
Crypto.v
UnitFilter.v
SstWriter.v
SstReader.v
Fuzz.v
Frames.v
UnitLog.v
InternalKey.v
Arena.v
RawMem.v
AlignedBuf.v
DirectFile.v
Mmap.v
Uring.v
SkipList.v
RawList.v
Merger.v
Versions.v
History.v
SstTable.v
Compact.v
UnitTable.v
UnitMerge.v
UnitMemtable.v
RangeIter.v
Engine.v
UnitEngine.v
UnitIo.v
EngineSteps.v
EngineInv.v
EngineDisk.v
EngineReads.v
EngineWrites.v
EngineFlush.v
EngineCompact.v
EngineOpen.v
EngineRun.v
EngineIters.v
EngineFaults.v
EngineLimits.v
EngineRaces.v
Server.v
Production.v
