(* ===== verification/Prelude.v ===== *)
(** * A verification of PaddockKV

    PaddockKV ([src/crates/paddock-core], with the front end
    [src/crates/paddock-server]) is a key-value store built as a log-structured
    merge tree.  A write is encoded as a batch, appended to a write-ahead log
    and synced, then applied to an in-memory skip list (the memtable).  A full
    memtable is queued and a new log segment started; flushing writes a queued
    memtable as an immutable sorted table and unlinks its segment; compaction
    merges all tables into one.  Opening a directory opens its tables and
    replays its segments.  Reads take a snapshot, a sequence number, and see the
    newest version of each key at or below it.

    This development translates that code into Rocq functions, one definition per
    function or method of the source, and proves theorems about them.

    ** How the code is translated

    - Fallible code returns [outcome]: a value, an error of the source's error
      enums, a panic, or the end of the fuel of a loop that is not structural.
      An out-of-bounds access, a failed [expect], [debug_assert!] and arithmetic
      overflow are panics; so is an access through a bad pointer in [unsafe]
      code, so a theorem that an operation returns shows the access is in bounds.
    - Overflow is checked, as in the development profile; the release profile
      wraps.  The theorems show that within the stated limits no check fails, and
      then the two agree.
    - Stateful code runs in the state and error monad [st]; [wp] is its program
      logic: [wp m E Q s] says that [m] started in [s] returns, with [Q] of a
      result and [E] of an error.
    - Machine integers are [Z] with the wrap-around written out where it matters.
      Bytes are [Z] below 256 ([bytes_ok]).
    - Third-party code is a class of functions with the laws its documentation
      states: CRC32C and xxh3 ([Checksum]), AES-GCM and HKDF ([Crypto]), base64
      ([Server]), the kernel ([LinuxFile], [LinuxVfs], [LinuxLaws], [DirectFile],
      [Mmap]), the allocator ([AlignedBuf], [RawMem]), the [io-uring] crate
      ([Uring]).  Each has an instance that
      shows the laws can hold, and the witnesses of the theorems run on it.
    - File systems are the classes [VfsFile] and [Vfs] with [FileLaws] and
      [VfsLaws], which [MemVfs] and [LinuxVfs] satisfy.  I/O errors are allowed everywhere
      unless a theorem asks for [ReliableReads] or [ReliableWrites].

    ** The files, and the code each models

    - [Prelude]: outcomes, the monad and its logic, machine integers, list facts;
      [error.rs].
    - [Varint], [Checksum]: [encoding/varint.rs], [checksum/].
    - [Vfs], [VfsLaws]: the traits and [MemVfs] of [io/vfs.rs], and their laws.
    - [LinuxFile], [LinuxVfs]: [io/linux_vfs.rs].  [LinuxLaws] shows that it is a file
      system in the sense of [VfsLaws].
    - [AlignedBuf], [DirectFile], [Mmap], [Uring]: [io/aligned_buf.rs],
      [io/direct.rs], [io/mmap.rs], [io/uring.rs].
    - [WalBatch], [WalFormat], [WalLayout], [WalWriter], [WalReader]: the log,
      [wal/].  [WalLayout] is the reference layout of records in blocks.
    - [Bloom]: [filter/blocked_bloom.rs].  [Probe] is its process-wide cache of the
      probe to use, under threads.
    - [SstFormat], [Block], [SstWriter], [SstReader]: the tables, [sstable/].
      [Frames] shows that the writers touch no file but their own.
    - [Crypto]: [crypto/].
    - [FileNames]: file names, from [engine.rs].
    - [InternalKey], [Arena], [SkipList]: the memtable, [memtable/].  [RawMem] and
      [RawList] are the same code on the cells of memory that its pointers reach.
    - [Merger], [Compact]: [compaction/].  [SstTable] is a table as its clients see
      it: a reader with the records it stands for.
    - [Versions], [History]: the specification.  A history is the list of versions
      committed so far; [represents] says when several sources hold it together.
    - [RangeIter], [Engine]: [engine.rs].  [EngineInv] states what the engine
      maintains, [EngineDisk], [EngineReads], [EngineWrites], [EngineFlush],
      [EngineCompact] and [EngineOpen] prove it of each operation.  [EngineSteps]
      has the rules for what an operation leaves alone, also when it fails.
    - [EngineRun]: scripts of operations against a plain map.
    - [EngineIters]: range iterators that stay open while the database goes on, and
      which files each operation touches.
    - [EngineFaults]: operations that report an error, on a disk that fails.
    - [EngineLimits]: the memory of the memtables, what flush and compaction achieve.
    - [EngineRaces]: schedules in which steps of two operations interleave.
    - [Server], [Production]: [paddock-server/src/main.rs], the handlers and the
      start-up on a [LinuxVfs].
    - [Fuzz]: [paddock-fuzz/], the targets and their file.
    - [TestKit] and the [Unit...] files: the project's own tests, the [#[cfg(test)]]
      modules and part of [tests/].  [UnitCodec] has those of the codecs, [UnitFilter]
      of the filter and the ciphers, [UnitLog], [UnitTable], [UnitMerge],
      [UnitMemtable], [UnitEngine] and [UnitIo] of the parts their names say.

    ** What is proved

    - The database is a map ([EngineRun]): any script of batches, flushes,
      compactions and reopenings leaves a database whose scans return exactly the
      map that the batches build; a snapshot keeps showing the map of its moment;
      an iterator that stays open returns the map of its moment, whatever is
      written, merged and unlinked between its calls ([EngineIters]);
      a crash that cuts off a commit anywhere while it goes to the log leaves a
      directory that opens to the map before that commit or after it.  Point
      lookups never return a version that the history does not have, and agree
      with the map where the code allows it: they stop at the first source with a
      hit, so the statement asks that no segment was replayed over a newer table
      and that tables hold one version per key.
    - Failures ([EngineFaults], [EngineLimits]): a command that reports an error
      leaves the map as it was, or for a write with its whole batch; what writes put
      into the memtables' arenas is bounded by the threshold, on top of what replay
      put there at opening; on a disk that works a flush empties the queue and a
      compaction leaves at most one table.
    - The server ([Server]) answers a list of requests, status and body, as that map
      does, GETs under the condition above ([lookup_room]); where it fails a GET
      still returns nothing but values that were put under its key.  As it is
      deployed ([Production]) the server does so across restarts, on the system
      calls of a POSIX kernel.  There the condition can fail: a replayed segment
      that is left behind revives an old value ([EngineRaces]).
    - The log: what was written is read back, a torn tail is found and cut,
      recovery of arbitrary bytes ends without a panic.
    - The tables: what was written is scanned back, plain or encrypted; lookups
      return visible versions; reading arbitrary bytes, in one piece or as a stream,
      ends without a panic.
    - The memtable: insertion and lookup refine a sorted list; after any number of
      the stores that link a node readers find the old list or the new one;
      allocations do not overlap.  The bytes in memory simulate it ([RawList]): no access leaves a live
      block or reads a cell that was not written, every pointer points at a node of
      the height its level needs, copies survive later allocations, and dropping the
      arena gives every block back once ([RawMem]).
    - The merge is a sorted interleaving, and compaction keeps every record.
    - The codecs: round trips, exact acceptance, totality on arbitrary input.
    - The filter has no false negatives and its two probes agree; threads that race
      for the cached choice agree on it.
    - The production file is a sparse byte array however the kernel splits transfers,
      and agrees with the in-memory one as long as no write goes past the end.  The
      paths handed to the system are below the root, but for the directory above it
      that opening the root itself creates.
      A direct file refuses misaligned lengths and offsets, and otherwise transfers
      everything or fails for one of the reasons listed; a pool's buffers never
      overlap, leak or lose their alignment; a memory map shows its file and is
      unmapped once, if advice is a hint; the linked write and sync are queued
      together or not at all.
    - No input makes a fuzz target panic ([Fuzz]).
    - The project's tests pass on the model ([Unit...]), property tests for every
      input.  This is evidence that the definitions are the code's, too.
    - Where the code does something else than it means to, a theorem shows it on a
      concrete input: [EngineRaces], and the theorems at the end of [Block],
      [SstReader], [SkipList], [Merger], [WalBatch], [LinuxFile], [LinuxVfs],
      [AlignedBuf], [DirectFile], [Mmap], [Uring] and [Server].

    ** Fuel and limits

    Loops that end because a cursor advances take the length of what they read as
    fuel, and are shown never to run out: [replay_loop], [next_record_loop], the
    block iterators, [write_all_at] and [read_exact_at], the skip list's searches
    ([search_fuel]).  The merge, compaction and scans over many tables take their
    fuel as an argument; the theorems ask that it exceeds the number of records
    ([compact_room], [scan_room]) or say that every larger number works
    ([reads_at]).  [script_room], [requests_room] and [sessions_room] compute, on the state that a
    step starts in, that the step stays within the widths of the formats: 64-bit
    counters, files of at most [2 ^ 63 - 1] bytes, 32-bit block lengths, the filter's size.  They say
    nothing of steps that fail, so the theorems still have to show that none does.

    ** What is not modelled

    - Threads.  Operations run one at a time; the linking loop of the skip list's
      insertion is split into its single stores, and [engine.rs] where it releases its
      lock, so that schedules can be written down.  A reader runs between two stores,
      not between two of its own loads ([skiplist_get_race] is the exception), and
      stores become visible in program order.
    - Memory that runs out: allocation returns a block, except that sizes beyond what
      a type can hold panic ([bloom_new], [pool_new]).
    - The zeroing of keys in memory when they are dropped, and [Debug] output, which
      hides them.
    - Of [paddock-server/src/main.rs] the start of the log subscriber, the TCP
      listener with its graceful shutdown, the layers of [tower] and the routing
      table of [axum]: calls into those crates, whose behaviour the sources do not
      say.  The build for hosts other than Linux, which is one error message.
    - [Uring::inner_mut], which hands out the crate's ring.
    - Subdirectories of a [LinuxVfs] root as data directories: its laws are proved for
      the directory [.], the only one that the server opens.
    - Tests of third-party code (how evenly xxh3 spreads, published vectors of AES-GCM
      and HKDF, the rejection of what was tampered with), the test that needs threads,
      and the end-to-end tests with many thousands of keys, whose claims the theorems
      on scripts make for every script.
    - Benchmarks, and the module roots, which only re-export. *)

From stdpp Require Export base numbers list strings gmap sorting.
From Stdlib Require Export ZArith Lia.

Open Scope Z_scope.

(** * Outcomes of fallible Rust code *)

(** [crates/paddock-core/src/error.rs]: [DecodeError]. *)
Inductive DecodeError :=
| UnexpectedEof (needed : Z)
| VarintOverflow (max_bytes : Z)
| NonCanonicalVarint.

(** The [std::io::ErrorKind]s the code constructs. *)
Inductive IoErrorKind :=
| IoNotFound
| IoInvalidInput
| IoUnexpectedEof
| IoWriteZero
| IoWouldBlock
| IoInterrupted
| IoUnsupported
| IoOther.

(** A diagnostic text: the format string and the numbers it interpolates. *)
Record Reason := Fmt { template : string; fmt_args : list Z }.

(** [crates/paddock-core/src/error.rs]: [Error]. *)
Inductive Error :=
| Io (kind : IoErrorKind)
| Decode (e : DecodeError)
| ChecksumMismatch (context : string) (expected found : Z)
| InvalidFormat (context : string) (reason : Reason)
| Corruption (context : string) (reason : Reason)
| InvalidArgument (what : string)
| Shutdown.

Definition invalid_format_static (context reason : string) : Error :=
  InvalidFormat context (Fmt reason []).

Definition corruption_static (context reason : string) : Error :=
  Corruption context (Fmt reason []).

(** What running a piece of Rust code gives: a value, an [Err], a panic
    (failed [expect], [assert!] or slice bound), or, in the model only, an
    exhausted iteration budget. *)
Inductive outcome (A : Type) :=
| Ok (a : A)
| Err (e : Error)
| Panic
| OutOfFuel.
Arguments Ok {A} a.
Arguments Err {A} e.
Arguments Panic {A}.
Arguments OutOfFuel {A}.

#[global] Instance outcome_ret : MRet outcome := @Ok.
#[global] Instance outcome_bind : MBind outcome := λ A B f m,
  match m with
  | Ok a => f a
  | Err e => Err e
  | Panic => Panic
  | OutOfFuel => OutOfFuel
  end.

#[global] Instance DecodeError_eq_dec : EqDecision DecodeError.
Proof. solve_decision. Defined.
#[global] Instance IoErrorKind_eq_dec : EqDecision IoErrorKind.
Proof. solve_decision. Defined.
#[global] Instance Reason_eq_dec : EqDecision Reason.
Proof. solve_decision. Defined.
#[global] Instance Error_eq_dec : EqDecision Error.
Proof. solve_decision. Defined.
#[global] Instance outcome_eq_dec `{EqDecision A} : EqDecision (outcome A).
Proof. solve_decision. Defined.

(** [Option::expect] and [Result::ok]. *)
Definition expect {A} (o : option A) : outcome A :=
  match o with Some a => Ok a | None => Panic end.

Definition ok_or {A} (o : option A) (e : Error) : outcome A :=
  match o with Some a => Ok a | None => Err e end.

(** Neither a panic nor an exhausted budget: what "never panics" and
    "terminates" mean for a value of the model. *)
Definition returns {A} (m : outcome A) : Prop :=
  match m with Ok _ | Err _ => True | Panic | OutOfFuel => False end.

(** * Stateful code: a state and error monad *)

(** A method that takes [&mut self]: the state survives an [Err]. *)
Definition st (S A : Type) : Type := S → outcome A * S.

#[global] Instance st_ret {S} : MRet (st S) := λ A a s, (Ok a, s).
#[global] Instance st_bind {S} : MBind (st S) := λ A B f m s,
  match m s with
  | (Ok a, s') => f a s'
  | (Err e, s') => (Err e, s')
  | (Panic, s') => (Panic, s')
  | (OutOfFuel, s') => (OutOfFuel, s')
  end.

Definition st_lift {S A} (m : outcome A) : st S A := λ s, (m, s).
Definition st_get {S} : st S S := λ s, (Ok s, s).
Definition st_modify {S} (f : S → S) : st S () := λ s, (Ok tt, f s).

(** Run code that touches only one half of a pair of states. *)
Definition on_fst {S T A} (m : st S A) : st (S * T) A :=
  λ '(s, t), let '(r, s') := m s in (r, (s', t)).
Definition on_snd {S T A} (m : st T A) : st (S * T) A :=
  λ '(s, t), let '(r, t') := m t in (r, (s, t')).

(** [debug_assert!], and subtraction on [usize]: a violation is a panic, so a
    proof that the code returns rules out a wrap-around as well. *)
Definition debug_assert (b : bool) : outcome () := if b then Ok tt else Panic.
Definition usize_sub (a b : Z) : outcome Z := if b <=? a then Ok (a - b) else Panic.

(** A small program logic: running [m] from [s] neither panics nor runs out
    of its budget, a result satisfies [Q] and an error [E]. *)
Definition wp {S A} (m : st S A) (E : Error → S → Prop) (Q : A → S → Prop) (s : S) : Prop :=
  match m s with
  | (Ok a, s') => Q a s'
  | (Err e, s') => E e s'
  | (Panic, _) | (OutOfFuel, _) => False
  end.

(** What holds of a step's value and state whenever it gives a value. *)
Definition wlp {S A} (m : st S A) (Q : A → S → Prop) (s : S) : Prop :=
  ∀ a s', m s = (Ok a, s') → Q a s'.

(** * Byte strings and machine integers *)

(** A byte is a [Z] in [0, 256); [bytes_ok] states it where it matters. *)
Abbreviation bytes := (list Z).
Abbreviation len l := (Z.of_nat (length l)).

Definition byte_ok (b : Z) : Prop := 0 ≤ b < 256.
Abbreviation bytes_ok := (Forall byte_ok).

#[global] Instance byte_ok_dec b : Decision (byte_ok b).
Proof. unfold byte_ok. apply _. Defined.

(** [as u8], [as u16], [as u32] and wrapping [u64] arithmetic. *)
Definition u8 (z : Z) : Z := z mod 2 ^ 8.
Definition u16 (z : Z) : Z := z mod 2 ^ 16.
Definition u32 (z : Z) : Z := z mod 2 ^ 32.
Definition u64 (z : Z) : Z := z mod 2 ^ 64.

Definition is_u8 (z : Z) : Prop := 0 ≤ z < 2 ^ 8.
Definition is_u16 (z : Z) : Prop := 0 ≤ z < 2 ^ 16.
Definition is_u32 (z : Z) : Prop := 0 ≤ z < 2 ^ 32.
Definition is_u64 (z : Z) : Prop := 0 ≤ z < 2 ^ 64.

(** [u64::MAX]. *)
Definition U64_MAX : Z := 2 ^ 64 - 1.

(** [u32::try_from(usize)]: a checked narrowing. *)
Definition try_u32 (z : Z) : option Z := if z <? 2 ^ 32 then Some z else None.

(** [checked_add] on [u64] and [usize]. *)
Definition checked_add (a b : Z) : option Z := if a + b <? 2 ^ 64 then Some (a + b) else None.

(** Rust slicing panics out of range. *)
Definition slice_from {A} (l : list A) (a : Z) : outcome (list A) :=
  if (0 <=? a) && (a <=? len l) then Ok (drop (Z.to_nat a) l) else Panic.

Definition slice_to {A} (l : list A) (b : Z) : outcome (list A) :=
  if (0 <=? b) && (b <=? len l) then Ok (take (Z.to_nat b) l) else Panic.

Definition slice {A} (l : list A) (a b : Z) : outcome (list A) :=
  if (0 <=? a) && (a <=? b) && (b <=? len l)
  then Ok (take (Z.to_nat (b - a)) (drop (Z.to_nat a) l)) else Panic.

Definition index {A} (l : list A) (i : Z) : outcome A :=
  if 0 <=? i then expect (l !! Z.to_nat i) else Panic.

(** [vec![0u8; n]]. *)
Definition zeros (n : Z) : bytes := replicate (Z.to_nat n) 0.

(** [to_le_bytes] and [from_le_bytes]. *)
Fixpoint le_bytes (n : nat) (v : Z) : bytes :=
  match n with
  | O => []
  | S n => v mod 256 :: le_bytes n (v / 256)
  end.

Fixpoint le_val (bs : bytes) : Z :=
  match bs with
  | [] => 0
  | b :: bs => b + 256 * le_val bs
  end.

(** The little-endian field of [n] bytes at offset [off]. *)
Definition le_field (b : bytes) (off n : nat) : Z := le_val (take n (drop off b)).

(** [Ord for [u8]]: lexicographic comparison. *)
Fixpoint bytes_cmp (a b : bytes) : comparison :=
  match a, b with
  | [], [] => Eq
  | [], _ :: _ => Lt
  | _ :: _, [] => Gt
  | x :: a, y :: b =>
      match x ?= y with
      | Eq => bytes_cmp a b
      | c => c
      end
  end.

Definition bytes_ltb (a b : bytes) : bool :=
  match bytes_cmp a b with Lt => true | _ => false end.
Definition bytes_leb (a b : bytes) : bool :=
  match bytes_cmp a b with Gt => false | _ => true end.
Definition bytes_eqb (a b : bytes) : bool :=
  match bytes_cmp a b with Eq => true | _ => false end.

(** * Automation *)

Create Rewrite HintDb len.
Create HintDb paddock discriminated.

Lemma length_cons {A} (x : A) l : length (x :: l) = S (length l).
Proof. reflexivity. Qed.
Lemma length_nil {A} : length (@nil A) = 0%nat.
Proof. reflexivity. Qed.

#[export] Hint Rewrite @length_app @length_drop @length_take @length_replicate
  @length_fmap @length_insert @length_reverse @length_cons @length_nil : len.

(** Normalise the lengths in the goal (or everywhere) and call [lia]. *)
Ltac len_simpl := autorewrite with len in *; cbn [length] in *.
Ltac len_lia := autorewrite with len in *; cbn [length] in *; lia.

(** Case analysis on a [Z] (or [nat]) comparison used as a boolean. *)
Ltac case_bool :=
  match goal with
  | |- context [Z.ltb ?a ?b] => destruct (Z.ltb_spec a b)
  | |- context [Z.leb ?a ?b] => destruct (Z.leb_spec a b)
  | |- context [Z.eqb ?a ?b] => destruct (Z.eqb_spec a b)
  | H : context [Z.ltb ?a ?b] |- _ => destruct (Z.ltb_spec a b)
  | H : context [Z.leb ?a ?b] |- _ => destruct (Z.leb_spec a b)
  | H : context [Z.eqb ?a ?b] |- _ => destruct (Z.eqb_spec a b)
  end.

(** Choose the branch of a [Z] comparison that [lia] can justify. *)
Ltac decide_bool :=
  repeat match goal with
  | |- context [Z.ltb ?a ?b] =>
      first [ rewrite (proj2 (Z.ltb_lt a b)) by lia
            | rewrite (proj2 (Z.ltb_ge a b)) by lia ]
  | |- context [Z.leb ?a ?b] =>
      first [ rewrite (proj2 (Z.leb_le a b)) by lia
            | rewrite (proj2 (Z.leb_gt a b)) by lia ]
  | |- context [Z.eqb ?a ?b] =>
      first [ rewrite (proj2 (Z.eqb_eq a b)) by lia
            | rewrite (proj2 (Z.eqb_neq a b)) by lia ]
  end; cbn [andb orb negb].

(** Unfold a chain of binds in a hypothesis [_ = Ok _], naming the values. *)
Ltac inv_ok H :=
  cbn [mbind outcome_bind mret outcome_ret] in H;
  repeat match type of H with
  | (match ?m with Ok _ => _ | Err _ => _ | Panic => _ | OutOfFuel => _ end) = _ =>
      let E := fresh "E" in destruct m eqn:E; try discriminate H;
      cbn [mbind outcome_bind mret outcome_ret] in H
  | (let '(_, _) := ?p in _) = _ => destruct p
  | (if ?b then _ else _) = _ =>
      let E := fresh "E" in destruct b eqn:E; try discriminate H
  end.

Ltac simpl_bind := cbn [mbind outcome_bind mret outcome_ret st_bind st_ret] in *.

(** * Shared lemmas *)

Lemma bind_Ok {A B} (m : outcome A) (f : A → outcome B) b :
  m ≫= f = Ok b ↔ ∃ a, m = Ok a ∧ f a = Ok b.
Proof.
  split; [destruct m; cbn; intros; simplify_eq; eauto | intros (a & -> & H); exact H].
Qed.

Lemma returns_bind {A B} (m : outcome A) (f : A → outcome B) :
  returns m → (∀ a, m = Ok a → returns (f a)) → returns (m ≫= f).
Proof. destruct m; cbn; eauto. Qed.

Lemma returns_ok_or {A} (o : option A) e : returns (ok_or o e).
Proof. by destruct o. Qed.

(** ** The program logic *)

Section Wp.
Context {S T : Type}.

Lemma wp_ret {A} (a : A) E Q (s : S) : Q a s → wp (mret a) E Q s.
Proof. done. Qed.

Lemma wp_bind {A B} (m : st S A) (f : A → st S B) E Q s :
  wp m E (λ a, wp (f a) E Q) s → wp (m ≫= f) E Q s.
Proof. unfold wp, mbind, st_bind. by destruct (m s) as [[] s']. Qed.

Lemma wp_mono {A} (m : st S A) (E E' : Error → S → Prop) (Q Q' : A → S → Prop) s :
  wp m E Q s → (∀ e s', E e s' → E' e s') → (∀ a s', Q a s' → Q' a s') → wp m E' Q' s.
Proof. unfold wp. destruct (m s) as [[] s']; eauto. Qed.

Lemma wp_get E Q (s : S) : Q s s → wp st_get E Q s.
Proof. done. Qed.

Lemma wp_modify f E Q (s : S) : Q tt (f s) → wp (st_modify f) E Q s.
Proof. done. Qed.

Lemma wp_lift_Ok {A} (m : outcome A) a E Q (s : S) : m = Ok a → Q a s → wp (st_lift m) E Q s.
Proof. by intros ->. Qed.

Lemma wp_lift {A} (m : outcome A) E Q (s : S) :
  returns m → (∀ a, m = Ok a → Q a s) → (∀ e, m = Err e → E e s) → wp (st_lift m) E Q s.
Proof. unfold wp, st_lift. destruct m; eauto. Qed.

Lemma wp_on_fst {A} (m : st S A) E Q (s : S) (t : T) :
  wp m (λ e s', E e (s', t)) (λ a s', Q a (s', t)) s → wp (on_fst m) E Q (s, t).
Proof. unfold wp, on_fst. cbn. by destruct (m s) as [[] s']. Qed.

Lemma wp_on_snd {A} (m : st T A) E Q (s : S) (t : T) :
  wp m (λ e t', E e (s, t')) (λ a t', Q a (s, t')) t → wp (on_snd m) E Q (s, t).
Proof. unfold wp, on_snd. cbn. by destruct (m t) as [[] t']. Qed.

(** Running a step on one half of a state. *)
Lemma on_fst_run {A} (m : st S A) (s : S) (t : T) a s' :
  m s = (a, s') → on_fst m (s, t) = (a, (s', t)).
Proof. intros E. unfold on_fst. by rewrite E. Qed.

Lemma on_snd_run {A} (m : st T A) (s : S) (t : T) a t' :
  m t = (a, t') → on_snd m (s, t) = (a, (s, t')).
Proof. intros E. unfold on_snd. by rewrite E. Qed.

Lemma wp_assoc {A B C} (m : st S A) (f : A → st S B) (g : B → st S C) E Q s :
  wp ((m ≫= f) ≫= g) E Q s → wp (m ≫= λ a, f a ≫= g) E Q s.
Proof. unfold wp, mbind, st_bind. by destruct (m s) as [[] s']. Qed.

(** Running one step of a [do] block. *)
Lemma run_bind {A B} (m : st S A) (f : A → st S B) s a s' :
  m s = (Ok a, s') → (m ≫= f) s = f a s'.
Proof. intros E. unfold mbind, st_bind. by rewrite E. Qed.

Lemma run_bind_Err {A B} (m : st S A) (f : A → st S B) s e s' :
  m s = (Err e, s') → (m ≫= f) s = (Err e, s').
Proof. intros E. unfold mbind, st_bind. by rewrite E. Qed.

Lemma run_assoc {A B C} (m : st S A) (f : A → st S B) (g : B → st S C) s :
  (m ≫= λ a, f a ≫= g) s = ((m ≫= f) ≫= g) s.
Proof. unfold mbind, st_bind. by destruct (m s) as [[] ?]. Qed.

Lemma run_get {B} (f : S → st S B) s : (st_get ≫= f) s = f s s.
Proof. done. Qed.

Lemma run_modify {B} (g : S → S) (f : () → st S B) s : (st_modify g ≫= f) s = f tt (g s).
Proof. done. Qed.

Lemma run_lift {A B} (m : outcome A) (f : A → st S B) s a :
  m = Ok a → (st_lift m ≫= f) s = f a s.
Proof. by intros ->. Qed.

(** What a triple says about a run. *)
Lemma wp_Ok {A} (m : st S A) E Q s a s' : wp m E Q s → m s = (Ok a, s') → Q a s'.
Proof. unfold wp. intros H E0. by rewrite E0 in H. Qed.

Lemma wp_Err {A} (m : st S A) E Q s e s' : wp m E Q s → m s = (Err e, s') → E e s'.
Proof. unfold wp. intros H E0. by rewrite E0 in H. Qed.

Lemma wp_total {A} (m : st S A) (Q : A → S → Prop) s :
  wp m (λ _ _, False) Q s → ∃ a s', m s = (Ok a, s') ∧ Q a s'.
Proof. unfold wp. destruct (m s) as [[]]; naive_solver. Qed.

Lemma wp_returns {A} (m : st S A) E Q s : wp m E Q s → returns (m s).1.
Proof. unfold wp. by destruct (m s) as [[] ?]. Qed.

(** ** Runs that succeed *)

Lemma wlp_ret {A} (a : A) Q (s : S) : Q a s → wlp (mret a) Q s.
Proof. by intros HQ ? ? [= <- <-]. Qed.

Lemma wlp_bind {A B} (m : st S A) (f : A → st S B) Q s :
  wlp m (λ a, wlp (f a) Q) s → wlp (m ≫= f) Q s.
Proof.
  intros Hm b s' E. unfold mbind, st_bind in E. destruct (m s) as [[a|e| |] s1] eqn:Em; try done.
  by eapply Hm.
Qed.

Lemma wlp_mono {A} (m : st S A) (Q Q' : A → S → Prop) s :
  wlp m Q s → (∀ a s', Q a s' → Q' a s') → wlp m Q' s.
Proof. intros Hm HQ a s' E. by apply HQ, Hm. Qed.

Lemma wlp_get Q (s : S) : Q s s → wlp st_get Q s.
Proof. by intros HQ ? ? [= <- <-]. Qed.

Lemma wlp_modify f Q (s : S) : Q tt (f s) → wlp (st_modify f) Q s.
Proof. by intros HQ ? ? [= <- <-]. Qed.

Lemma wlp_lift {A} (m : outcome A) Q (s : S) : (∀ a, m = Ok a → Q a s) → wlp (st_lift m) Q s.
Proof. intros HQ a s' [= E <-]. by apply HQ. Qed.

Lemma wlp_on_fst {A} (m : st S A) Q (s : S) (t : T) :
  wlp m (λ a s', Q a (s', t)) s → wlp (on_fst m) Q (s, t).
Proof. intros Hm a s' E. unfold on_fst in E. destruct (m s) as [r s1] eqn:Em. simplify_eq. by apply Hm. Qed.

Lemma wlp_on_snd {A} (m : st T A) Q (s : S) (t : T) :
  wlp m (λ a t', Q a (s, t')) t → wlp (on_snd m) Q (s, t).
Proof. intros Hm a s' E. unfold on_snd in E. destruct (m t) as [r t1] eqn:Em. simplify_eq. by apply Hm. Qed.

Lemma wlp_any {A} (m : st S A) (Q : A → S → Prop) s : (∀ a s', Q a s') → wlp m Q s.
Proof. intros HQ a s' _. apply HQ. Qed.
End Wp.

(** ** Slices *)

Lemma slice_from_ok {A} (l : list A) a :
  0 ≤ a ≤ len l → slice_from l a = Ok (drop (Z.to_nat a) l).
Proof. intros. unfold slice_from. by decide_bool. Qed.

Lemma slice_to_ok {A} (l : list A) b :
  0 ≤ b ≤ len l → slice_to l b = Ok (take (Z.to_nat b) l).
Proof. intros. unfold slice_to. by decide_bool. Qed.

Lemma slice_ok {A} (l : list A) a b :
  0 ≤ a ≤ b → b ≤ len l →
  slice l a b = Ok (take (Z.to_nat (b - a)) (drop (Z.to_nat a) l)).
Proof. intros. unfold slice. by decide_bool. Qed.

Lemma slice_from_Ok {A} (l r : list A) a :
  slice_from l a = Ok r → 0 ≤ a ≤ len l ∧ r = drop (Z.to_nat a) l.
Proof. unfold slice_from. repeat case_bool; cbn; intros; simplify_eq. auto with lia. Qed.

Lemma slice_Ok {A} (l r : list A) a b :
  slice l a b = Ok r → 0 ≤ a ≤ b ∧ b ≤ len l ∧ len r = b - a.
Proof.
  unfold slice. repeat case_bool; cbn; intros; simplify_eq. len_simpl. lia.
Qed.

(** The slice at the boundary between two concatenated strings. *)
Lemma slice_app_mid {A} (p m s : list A) a b :
  a = len p → b = a + len m → slice (p ++ m ++ s) a b = Ok m.
Proof.
  intros -> ->. rewrite slice_ok by len_lia. f_equal.
  rewrite Nat2Z.id, drop_app_length.
  replace (Z.to_nat _) with (length m) by lia. apply take_app_length.
Qed.

Lemma slice_mid {A} (p m s l : list A) a b :
  l = p ++ m ++ s → a = len p → b = a + len m → slice l a b = Ok m.
Proof. intros ->. apply slice_app_mid. Qed.

Lemma drop_app_len {A} (p s : list A) n : n = len p → drop (Z.to_nat n) (p ++ s) = s.
Proof. intros ->. rewrite Nat2Z.id. apply drop_app_length. Qed.

Lemma take_app_len {A} (p s : list A) n : n = len p → take (Z.to_nat n) (p ++ s) = p.
Proof. intros ->. rewrite Nat2Z.id. apply take_app_length. Qed.

Lemma slice_from_app {A} (p s : list A) n : n = len p → slice_from (p ++ s) n = Ok s.
Proof. intros ->. rewrite slice_from_ok by len_lia. by rewrite drop_app_len. Qed.

Lemma slice_to_app {A} (p s : list A) n : n = len p → slice_to (p ++ s) n = Ok p.
Proof. intros ->. rewrite slice_to_ok by len_lia. by rewrite take_app_len. Qed.

Lemma index_app_last {A} (p : list A) x s n :
  n = len p → index ((p ++ [x]) ++ s) n = Ok x.
Proof.
  intros ->. unfold index. decide_bool. rewrite Nat2Z.id, lookup_app_l by len_lia.
  by rewrite list_lookup_middle.
Qed.

(** A prefix of a concatenation that covers the first part, and one that does
    not. *)
Lemma prefix_app_cover {A} (q a b : list A) :
  q `prefix_of` a ++ b → (length a ≤ length q)%nat → ∃ q', q = a ++ q' ∧ q' `prefix_of` b.
Proof.
  intros [rest E] Hlen. exists (drop (length a) q).
  assert (take (length a) q = a) as Ea.
  { rewrite <-(take_app_le q rest), <-E by done. apply take_app_length. }
  split; [by rewrite <-Ea at 1; rewrite take_drop|].
  exists rest. apply (f_equal (drop (length a))) in E.
  by rewrite drop_app_length, drop_app_le in E by done.
Qed.

Lemma prefix_app_short {A} (q a b : list A) :
  q `prefix_of` a ++ b → (length q ≤ length a)%nat → q `prefix_of` a.
Proof.
  intros [rest E] Hlen. exists (drop (length q) a).
  rewrite <-(take_drop (length q) a) at 1. f_equal.
  rewrite <-(take_app_le a b), E by done. apply take_app_length.
Qed.

Lemma try_u32_ok n : is_u32 n → try_u32 n = Some n.
Proof. unfold is_u32, try_u32. intros. by decide_bool. Qed.

Lemma u32_small z : is_u32 z → u32 z = z.
Proof. apply Z.mod_small. Qed.

Lemma len_zeros n : 0 ≤ n → len (zeros n) = n.
Proof. intros. unfold zeros. len_simpl. lia. Qed.

Lemma zeros_ok n : bytes_ok (zeros n).
Proof. apply Forall_replicate. unfold byte_ok. lia. Qed.

(** ** Little-endian integers *)

Lemma length_le_bytes n v : length (le_bytes n v) = n.
Proof. revert v. induction n; intros; cbn; auto. Qed.
#[export] Hint Rewrite length_le_bytes : len.

Lemma le_bytes_ok n v : bytes_ok (le_bytes n v).
Proof.
  revert v. induction n; intros; cbn; constructor; auto.
  unfold byte_ok. apply Z.mod_pos_bound. lia.
Qed.

Lemma pow256_S n : 256 ^ Z.of_nat (S n) = 256 * 256 ^ Z.of_nat n.
Proof. rewrite Nat2Z.inj_succ. apply Z.pow_succ_r. lia. Qed.

Lemma le_val_bytes n v : 0 ≤ v < 256 ^ Z.of_nat n → le_val (le_bytes n v) = v.
Proof.
  revert v. induction n as [|n IH]; intros v Hv.
  { cbn in *. lia. }
  rewrite pow256_S in Hv. cbn [le_bytes le_val]. rewrite IH.
  - pose proof (Z.div_mod v 256). lia.
  - split; [apply Z.div_pos; lia | apply Z.div_lt_upper_bound; lia].
Qed.

Lemma le_val_bound bs : bytes_ok bs → 0 ≤ le_val bs < 256 ^ len bs.
Proof.
  induction 1 as [|b bs Hb _ IH]; cbn [le_val length].
  { cbn. lia. }
  rewrite pow256_S. unfold byte_ok in Hb. lia.
Qed.

Lemma le_bytes_val bs n : bytes_ok bs → length bs = n → le_bytes n (le_val bs) = bs.
Proof.
  intros Hbs <-. induction Hbs as [|b bs Hb _ IH]; cbn [le_val length le_bytes]; auto.
  unfold byte_ok in Hb. rewrite (Z.mul_comm 256), Z.mod_add, Z.div_add by lia.
  rewrite Z.mod_small, Z.div_small, Z.add_0_l by lia. by rewrite IH.
Qed.

Lemma le_bytes_inj n v w :
  0 ≤ v < 256 ^ Z.of_nat n → 0 ≤ w < 256 ^ Z.of_nat n →
  le_bytes n v = le_bytes n w → v = w.
Proof. intros Hv Hw E. by rewrite <-(le_val_bytes n v), <-(le_val_bytes n w), E. Qed.

#[global] Arguments le_bytes : simpl never.

(** ** Fields of packed structs *)

(** A field followed by the rest of the struct. *)
Lemma le_field_here n v rest :
  0 ≤ v < 256 ^ Z.of_nat n → le_field (le_bytes n v ++ rest) 0 n = v.
Proof.
  intros Hv. unfold le_field. rewrite drop_0, take_app_le by len_lia.
  rewrite firstn_all2 by len_lia. by apply le_val_bytes.
Qed.

Lemma le_field_skip n v rest off k :
  (n ≤ off)%nat → le_field (le_bytes n v ++ rest) off k = le_field rest (off - n) k.
Proof. intros Hoff. unfold le_field. by rewrite drop_app_ge, length_le_bytes by len_lia. Qed.

Lemma le_field_last n v : 0 ≤ v < 256 ^ Z.of_nat n → le_field (le_bytes n v) 0 n = v.
Proof. intros Hv. rewrite <-(app_nil_r (le_bytes n v)). by apply le_field_here. Qed.

(** Reading the fields of a packed struct off its bytes, field by field. *)
Ltac le_fields :=
  repeat first [ rewrite le_field_here by (cbn; lia)
               | rewrite le_field_last by (cbn; lia)
               | rewrite le_field_skip by lia; cbn [Nat.sub] ].

Lemma le_field_bytes b off n :
  bytes_ok b → (off + n ≤ length b)%nat → le_bytes n (le_field b off n) = take n (drop off b).
Proof.
  intros Hok Hlen. apply le_bytes_val; [by apply Forall_take, Forall_drop|len_lia].
Qed.

Lemma le_field_range b off n :
  bytes_ok b → 0 ≤ le_field b off n < 256 ^ Z.of_nat n.
Proof.
  intros Hok. unfold le_field.
  pose proof (le_val_bound (take n (drop off b))) as H.
  assert (256 ^ len (take n (drop off b)) ≤ 256 ^ Z.of_nat n)
    by (apply Z.pow_le_mono_r; len_lia).
  specialize (H ltac:(by apply Forall_take, Forall_drop)). lia.
Qed.

(** Cutting a byte string at consecutive offsets and gluing the pieces. *)
Lemma take_drop_all {A} (b : list A) off n :
  length b = (off + n)%nat → take n (drop off b) = drop off b.
Proof. intros. apply firstn_all2. len_lia. Qed.

Lemma take_drop_next {A} (b : list A) off n off' :
  off' = (off + n)%nat → take n (drop off b) ++ drop off' b = drop off b.
Proof. intros ->. rewrite <-drop_drop. apply take_drop. Qed.

(** ** Lexicographic order *)

Lemma bytes_cmp_refl a : bytes_cmp a a = Eq.
Proof. induction a; cbn; [done|]. by rewrite Z.compare_refl. Qed.

Lemma bytes_cmp_eq a b : bytes_cmp a b = Eq ↔ a = b.
Proof.
  split; [|intros ->; apply bytes_cmp_refl].
  revert b. induction a as [|x a IH]; intros [|y b]; cbn; try done.
  destruct (Z.compare_spec x y); intros; try done. subst. f_equal. auto.
Qed.

Lemma bytes_cmp_antisym a b : bytes_cmp b a = CompOpp (bytes_cmp a b).
Proof.
  revert b. induction a as [|x a IH]; intros [|y b]; cbn; try done.
  rewrite (Z.compare_antisym x y). destruct (x ?= y); cbn; auto.
Qed.

Lemma bytes_cmp_lt_trans a b c :
  bytes_cmp a b = Lt → bytes_cmp b c = Lt → bytes_cmp a c = Lt.
Proof.
  revert b c. induction a as [|x a IH]; intros [|y b] [|z c]; cbn; try done.
  destruct (Z.compare_spec x y), (Z.compare_spec y z); intros; try done; subst;
    repeat match goal with |- context [?u ?= ?v] => destruct (Z.compare_spec u v) end;
    try done; try lia; eauto.
Qed.

Lemma bytes_cmp_gt_lt a b : bytes_cmp a b = Gt ↔ bytes_cmp b a = Lt.
Proof. rewrite (bytes_cmp_antisym a b). by destruct (bytes_cmp a b). Qed.

Lemma bytes_eqb_eq a b : bytes_eqb a b = true ↔ a = b.
Proof. unfold bytes_eqb. rewrite <-bytes_cmp_eq. by destruct (bytes_cmp a b). Qed.

(** ** Filters *)

Lemma filter_comm {A} (P Q : A → Prop) `{!∀ x, Decision (P x)} `{!∀ x, Decision (Q x)} (l : list A) :
  filter P (filter Q l) = filter Q (filter P l).
Proof. rewrite !list_filter_filter. apply list_filter_iff. tauto. Qed.

Lemma filter_none {A} (P : A → Prop) `{!∀ x, Decision (P x)} (l : list A) :
  (∀ x, x ∈ l → ¬ P x) → filter P l = [].
Proof.
  induction l as [|x l IH]; intros Hl; [done|]. rewrite filter_cons, decide_False by (apply Hl; left).
  apply IH. intros y Hy. apply Hl. by right.
Qed.

Lemma filter_sublist {A} (P : A → Prop) `{!∀ x, Decision (P x)} (l k : list A) :
  l `sublist_of` k → filter P l `sublist_of` filter P k.
Proof.
  induction 1 as [|x l k _ IH|x l k _ IH]; [done| |]; rewrite !filter_cons; destruct (decide (P x)); try done.
  - by apply sublist_skip.
  - by apply sublist_cons.
Qed.

Lemma filter_all {A} (P : A → Prop) `{!∀ x, Decision (P x)} (l : list A) :
  (∀ x, x ∈ l → P x) → filter P l = l.
Proof.
  induction l as [|x l IH]; intros Hl; [done|]. rewrite filter_cons, decide_True by (apply Hl; left).
  f_equal. apply IH. intros y Hy. apply Hl. by right.
Qed.

Lemma StronglySorted_filter {A} (R : A → A → Prop) (P : A → Prop) `{!∀ x, Decision (P x)} (l : list A) :
  StronglySorted R l → StronglySorted R (filter P l).
Proof.
  induction 1 as [|x l _ IH Hx]; [constructor|]. rewrite filter_cons. destruct (decide (P x)); [|done].
  constructor; [done|]. rewrite Forall_forall in Hx |- *. intros y [_ Hy]%list_elem_of_filter. by apply Hx.
Qed.
