(* ===== verification/Varint.v ===== *)
(** LEB128 variable-length integers: [crates/paddock-core/src/encoding/varint.rs].

    [encode_u64] and the decoders follow the source's loops; [varint] is the
    reference encoding the theorems relate them to. *)

From S2P Require Import Prelude.

(** * The codec *)

Definition MAX_VARINT_U32_BYTES : Z := 5.
Definition MAX_VARINT_U64_BYTES : Z := 10.

(** [u64::leading_zeros]. *)
Definition leading_zeros_u64 (value : Z) : Z :=
  if value =? 0 then 64 else 63 - Z.log2 value.

(** [usize::div_ceil]. *)
Definition div_ceil (a b : Z) : Z := (a + b - 1) / b.

Definition varint_u64_len (value : Z) : Z :=
  let bits := 64 - leading_zeros_u64 value in
  if bits =? 0 then 1 else div_ceil bits 7.

(** The loop of [encode_u64]: [written] is [buf[..i]], [rest] is [buf[i..]];
    the buffer is mutated even when it turns out to be too short. *)
Fixpoint encode_u64_loop (value : Z) (written rest : bytes) : option Z * bytes :=
  match rest with
  | [] => (None, written)
  | _ :: rest =>
      if 0x80 <=? value
      then encode_u64_loop (Z.shiftr value 7)
             (written ++ [Z.lor (u8 value) 0x80]) rest
      else (Some (len written + 1), written ++ u8 value :: rest)
  end.

Definition encode_u64 (value : Z) (buf : bytes) : option Z * bytes :=
  encode_u64_loop value [] buf.

Definition encode_u32 (value : Z) (buf : bytes) : option Z * bytes :=
  encode_u64 value buf.

(** The loop shared by the two decoders: [width] is the integer's width,
    [last_max] the largest legal payload of byte number [max_bytes], [after]
    the error for an input that ends inside the varint. *)
Fixpoint decode_loop (width max_bytes last_max : Z) (after : Error)
    (input : bytes) (i shift result : Z) : outcome (Z * Z) :=
  match input with
  | [] => Err after
  | byte :: input =>
      let payload := Z.land byte 0x7F in
      if (i =? max_bytes - 1) && (last_max <? payload)
      then Err (Decode (VarintOverflow max_bytes))
      else
        let result := Z.lor result (Z.shiftl payload shift mod 2 ^ width) in
        if Z.land byte 0x80 =? 0 then Ok (result, i + 1)
        else decode_loop width max_bytes last_max after input (i + 1) (shift + 7) result
  end.

Definition decode_after (max_bytes : Z) (input : bytes) : Error :=
  if len input <? max_bytes
  then Decode (UnexpectedEof (max_bytes - len input))
  else Decode (VarintOverflow max_bytes).

Definition decode_u64 (input : bytes) : outcome (Z * Z) :=
  decode_loop 64 MAX_VARINT_U64_BYTES 0x01 (decode_after MAX_VARINT_U64_BYTES input)
    (take (Z.to_nat MAX_VARINT_U64_BYTES) input) 0 0 0.

Definition decode_u32 (input : bytes) : outcome (Z * Z) :=
  decode_loop 32 MAX_VARINT_U32_BYTES 0x0F (decode_after MAX_VARINT_U32_BYTES input)
    (take (Z.to_nat MAX_VARINT_U32_BYTES) input) 0 0 0.

Definition decode_u64_canonical (input : bytes) : outcome (Z * Z) :=
  '(value, consumed) ← decode_u64 input;
  if 1 <? consumed
  then last ← index input (consumed - 1);
       if last =? 0 then Err (Decode NonCanonicalVarint) else Ok (value, consumed)
  else Ok (value, consumed).

(** * The reference encoding *)

(** Base-128 digits, least significant first, every digit but the last with
    its top bit set. *)
Fixpoint varint_fuel (n : nat) (v : Z) : bytes :=
  match n with
  | O => []
  | S n => if v <? 128 then [v] else (v mod 128 + 128) :: varint_fuel n (v / 128)
  end.

Definition varint (v : Z) : bytes := varint_fuel 10 v.

(** The value of a byte string read as base-128 digits. *)
Fixpoint base128 (bs : bytes) : Z :=
  match bs with
  | [] => 0
  | b :: bs => b mod 128 + 128 * base128 bs
  end.

(** [buf[..n]] after a successful [encode_u32] into a scratch buffer, as every
    caller in the WAL and the SSTable code uses it:
    [encode_u32(v, &mut scratch).expect(..)]. *)
Definition put_varint_u32 (v : Z) : outcome bytes :=
  match encode_u32 v (zeros MAX_VARINT_U32_BYTES) with
  | (Some n, scratch) => slice_to scratch n
  | (None, _) => Panic
  end.

(** * Arithmetic of one digit *)

Lemma land_127 b : Z.land b 0x7F = b mod 128.
Proof. change 0x7F with (Z.ones 7). rewrite Z.land_ones by lia. reflexivity. Qed.

Lemma land_128 b : byte_ok b → Z.land b 0x80 = (b / 128) * 128.
Proof.
  intros [H0 H1].
  assert (∀ k, 0 ≤ k < 256 → Z.land k 0x80 = (k / 128) * 128) as Hall; [|auto].
  assert (Forall (λ k, Z.land k 0x80 = (k / 128) * 128) (seqZ 0 256)) as HF.
  { apply (bool_decide_unpack _). vm_compute. exact I. }
  intros k Hk. rewrite Forall_forall in HF. apply HF, elem_of_seqZ. lia.
Qed.

Lemma lor_128_small d : 0 ≤ d < 128 → Z.lor d 0x80 = d + 128.
Proof.
  intros H. assert (Forall (λ d, Z.lor d 0x80 = d + 128) (seqZ 0 128)) as HF.
  { apply (bool_decide_unpack _). vm_compute. exact I. }
  rewrite Forall_forall in HF. apply HF, elem_of_seqZ. lia.
Qed.

Lemma lor_shiftl_add r p s :
  0 ≤ s → 0 ≤ r < 2 ^ s → 0 ≤ p → Z.lor r (Z.shiftl p s) = r + p * 2 ^ s.
Proof.
  intros Hs Hr Hp. pose proof (Z.add_lor_land r (Z.shiftl p s)) as E.
  assert (Z.land r (Z.shiftl p s) = 0) as E0; [|rewrite Z.shiftl_mul_pow2 in * by lia; lia].
  apply Z.bits_inj'. intros n Hn. rewrite Z.land_spec, Z.bits_0.
  destruct (Z.lt_ge_cases n s).
  - by rewrite Z.shiftl_spec_low, andb_false_r.
  - destruct (Z.eq_dec r 0) as [->|]; [by rewrite Z.bits_0|].
    rewrite (Z.bits_above_log2 r n); [done|lia|].
    assert (Z.log2 r < s) by (apply Z.log2_lt_pow2; lia). lia.
Qed.

(** * The encoder writes the reference encoding *)

Lemma length_varint_fuel n v : (length (varint_fuel n v) ≤ n)%nat.
Proof.
  revert v. induction n as [|n IH]; intros v; cbn; [lia|].
  case_bool; cbn; [lia|]. specialize (IH (v / 128)). lia.
Qed.

Lemma varint_fuel_nonempty n v : (1 ≤ length (varint_fuel (S n) v))%nat.
Proof. cbn. case_bool; cbn; lia. Qed.

Lemma varint_fuel_ok n v : 0 ≤ v → bytes_ok (varint_fuel n v).
Proof.
  revert v. induction n as [|n IH]; intros v Hv; cbn; [constructor|].
  pose proof (Z.mod_pos_bound v 128).
  case_bool; repeat constructor; try lia.
  apply IH. apply Z.div_pos; lia.
Qed.

(** Dropping one digit leaves a value that needs one digit less. *)
Lemma div128_bound n v :
  0 ≤ v < 128 ^ Z.of_nat (S n) → 128 ≤ v → 0 ≤ v / 128 < 128 ^ Z.of_nat n ∧ (1 ≤ n)%nat.
Proof.
  intros Hv Hge. rewrite Nat2Z.inj_succ, Z.pow_succ_r in Hv by lia. split.
  - split; [apply Z.div_pos; lia | apply Z.div_lt_upper_bound; lia].
  - destruct n; [cbn in Hv; lia | lia].
Qed.

(** Once the fuel covers the value, more fuel does not change the encoding. *)
Lemma varint_fuel_enough n m v :
  0 ≤ v < 128 ^ Z.of_nat n → (1 ≤ n ≤ m)%nat → varint_fuel m v = varint_fuel n v.
Proof.
  revert m v. induction n as [|n IH]; intros [|m] v Hv Hm; try lia.
  cbn [varint_fuel]. case_bool; [done|]. f_equal.
  destruct (div128_bound n v Hv) as [? ?]; [done|]. apply IH; [done|lia].
Qed.

Lemma lor_u8_128 v : Z.lor (u8 v) 0x80 = v mod 128 + 128.
Proof.
  unfold u8. assert (Forall (λ b, Z.lor b 0x80 = b mod 128 + 128) (seqZ 0 256)) as HF.
  { apply (bool_decide_unpack _). vm_compute. exact I. }
  rewrite Forall_forall in HF. rewrite HF.
  - rewrite Z.mod_mod_divide; [done | by exists 2].
  - apply elem_of_seqZ. pose proof (Z.mod_pos_bound v (2 ^ 8)). lia.
Qed.

Lemma encode_u64_loop_spec n v written rest :
  0 ≤ v < 128 ^ Z.of_nat n → (1 ≤ n)%nat →
  let e := varint_fuel n v in
  ((length e ≤ length rest)%nat →
   encode_u64_loop v written rest
     = (Some (len written + len e), written ++ e ++ drop (length e) rest)) ∧
  ((length rest < length e)%nat →
   (encode_u64_loop v written rest).1 = None).
Proof.
  revert v written rest. induction n as [|n IH]; intros v written rest Hv Hn; [lia|].
  cbn zeta. cbn [varint_fuel].
  destruct rest as [|r rest]; cbn [encode_u64_loop].
  { split; intros Hlen; [|done]. case_bool; cbn in Hlen; lia. }
  destruct (Z.leb_spec 0x80 v), (Z.ltb_spec v 128); try lia.
  - destruct (div128_bound n v Hv) as [Hdiv Hn']; [lia|].
    rewrite Z.shiftr_div_pow2, lor_u8_128 by lia. change (2 ^ 7) with 128.
    specialize (IH (v / 128) (written ++ [v mod 128 + 128]) rest Hdiv Hn') as [IH1 IH2].
    split; intros Hlen; cbn in Hlen.
    + rewrite IH1 by lia. rewrite <-app_assoc. cbn. do 2 f_equal. len_lia.
    + apply IH2. lia.
  - split; intros Hlen; cbn in Hlen; [|lia]. unfold u8. rewrite Z.mod_small by lia. done.
Qed.

(** * Decoding the reference encoding *)

(** Reading the digits of [v] at byte position [i] adds [v * 2^(7 i)]. *)
Lemma decode_loop_varint width max_bytes last_max after n v tail i r :
  0 ≤ i → i + Z.of_nat n = max_bytes → (1 ≤ n)%nat →
  last_max + 1 = 2 ^ (width - 7 * (max_bytes - 1)) → 7 * (max_bytes - 1) ≤ width →
  last_max < 128 →
  0 ≤ v → v * 2 ^ (7 * i) < 2 ^ width → 0 ≤ r < 2 ^ (7 * i) →
  decode_loop width max_bytes last_max after (varint_fuel n v ++ tail) i (7 * i) r
    = Ok (r + v * 2 ^ (7 * i), i + len (varint_fuel n v)).
Proof.
  intros Hi Hn Hn1 Hlast Hw Hl128. revert v i r Hi Hn Hn1.
  induction n as [|n IH]; intros v i r Hi Hn Hn1 Hv Hvw Hr; [lia|].
  pose proof (Z.pow_pos_nonneg 2 (7 * i)) as Hpow.
  assert (Hlastv : i = max_bytes - 1 → v ≤ last_max).
  { intros ->. replace (2 ^ width) with ((last_max + 1) * 2 ^ (7 * (max_bytes - 1))) in Hvw.
    - nia.
    - rewrite Hlast, <-Z.pow_add_r by lia. f_equal. lia. }
  pose proof (Z.div_mod v 128) as Hdm. pose proof (Z.mod_pos_bound v 128) as Hmb.
  assert (Hdig : ∀ d, 0 ≤ d ≤ v →
            Z.lor r (Z.shiftl d (7 * i) mod 2 ^ width) = r + d * 2 ^ (7 * i)).
  { intros d Hd. rewrite Z.mod_small; [apply lor_shiftl_add; lia|].
    rewrite Z.shiftl_mul_pow2 by lia. nia. }
  cbn [varint_fuel]. case_bool; cbn [app decode_loop].
  - rewrite land_127, land_128 by (unfold byte_ok; lia).
    rewrite Z.mod_small, Z.div_small by lia. rewrite Hdig by lia.
    destruct (Z.eqb_spec i (max_bytes - 1)); decide_bool; done.
  - assert (i ≠ max_bytes - 1) by (intros ->; specialize (Hlastv eq_refl); lia).
    rewrite land_127, land_128 by (unfold byte_ok; lia).
    replace ((v mod 128 + 128) mod 128) with (v mod 128)
      by (rewrite <-Z.add_mod_idemp_r, Z.mod_same, Z.add_0_r, Z.mod_mod by lia; done).
    replace ((v mod 128 + 128) / 128) with 1
      by (apply Z.div_unique with (v mod 128); lia).
    rewrite Hdig by lia. decide_bool.
    replace (7 * i + 7) with (7 * (i + 1)) by lia.
    assert (E : 2 ^ (7 * (i + 1)) = 128 * 2 ^ (7 * i)).
    { replace (7 * (i + 1)) with (7 + 7 * i) by lia. by rewrite Z.pow_add_r by lia. }
    rewrite IH; [f_equal; f_equal|..]; try lia.
    + len_lia.
    + rewrite E. nia.
Qed.

(** * What a successful decode says about its input *)

(** The shape of a varint on the wire: continuation bytes, then a terminator. *)
Definition varint_shape (ds : bytes) (d : Z) : Prop :=
  Forall (λ b, 128 ≤ b < 256) ds ∧ 0 ≤ d < 128.

Lemma decode_loop_sound width max_bytes last_max after input i r v n :
  last_max + 1 = 2 ^ (width - 7 * (max_bytes - 1)) → 7 * (max_bytes - 1) ≤ width →
  bytes_ok input → 0 ≤ i → i + len input ≤ max_bytes → 0 ≤ r < 2 ^ (7 * i) →
  decode_loop width max_bytes last_max after input i (7 * i) r = Ok (v, n) →
  ∃ ds d tail, input = ds ++ d :: tail ∧ varint_shape ds d ∧ n = i + len ds + 1 ∧
    v = r + base128 (ds ++ [d]) * 2 ^ (7 * i) ∧ 0 ≤ v < 2 ^ width.
Proof.
  intros Hlast Hw Hok. revert i r.
  induction Hok as [|b input Hb Hok IH]; intros i r Hi Hlen Hr; cbn [decode_loop]; [done|].
  cbn in Hlen. pose proof (Z.pow_pos_nonneg 2 (7 * i)) as Hpow.
  assert (E : 2 ^ (7 * (i + 1)) = 128 * 2 ^ (7 * i)).
  { replace (7 * (i + 1)) with (7 + 7 * i) by lia. by rewrite Z.pow_add_r by lia. }
  rewrite land_127, land_128 by done.
  destruct ((i =? max_bytes - 1) && (last_max <? b mod 128)) eqn:Hguard; [done|].
  assert (Hfit : b mod 128 * 2 ^ (7 * i) + 2 ^ (7 * i) ≤ 2 ^ width).
  { pose proof (Z.mod_pos_bound b 128). apply andb_false_iff in Hguard.
    destruct (Z.eq_dec i (max_bytes - 1)) as [Ei|].
    - destruct Hguard as [?%Z.eqb_neq|Hg%Z.ltb_ge]; [lia|].
      replace (2 ^ width) with ((last_max + 1) * 2 ^ (7 * i)); [nia|].
      rewrite Hlast, <-Z.pow_add_r by lia. f_equal. lia.
    - assert (2 ^ (7 * (i + 1)) ≤ 2 ^ width) by (apply Z.pow_le_mono_r; lia). nia. }
  unfold byte_ok in Hb. pose proof (Z.mod_pos_bound b 128) as Hm.
  pose proof (Z.div_mod b 128) as Hdm.
  rewrite (Z.mod_small (Z.shiftl _ _)), lor_shiftl_add
    by (rewrite ?Z.shiftl_mul_pow2 by lia; nia).
  destruct (Z.eqb_spec (b / 128 * 128) 0) as [Hterm|Hcont].
  - intros [= <- <-]. exists [], b, input. cbn [app length base128].
    assert (b mod 128 = b) as Eb by (apply Z.mod_small; lia). rewrite Eb in *.
    split_and!; [done|split; [constructor|lia]|lia|lia|nia|nia].
  - replace (7 * i + 7) with (7 * (i + 1)) by lia. intros Hdec.
    apply IH in Hdec as (ds & d & tail & -> & [Hds Hd] & -> & -> & Hv);
      [|lia|lia|rewrite E; nia].
    exists (b :: ds), d, tail. cbn [app length base128]. rewrite E in *.
    assert (b / 128 = 1) by lia.
    split_and!; [done|split; [constructor; [lia|done]|done]|lia|nia|lia|lia].
Qed.

(** A shape without a wasted final digit is the reference encoding. *)
Lemma varint_fuel_base128 ds d n :
  varint_shape ds d → (ds = [] ∨ d ≠ 0) → (length ds < n)%nat →
  varint_fuel n (base128 (ds ++ [d])) = ds ++ [d] ∧ (d ≠ 0 → 0 < base128 (ds ++ [d])).
Proof.
  intros [Hds Hd] Hcanon. revert n.
  induction Hds as [|b ds Hb Hds IH]; intros [|n] Hn; cbn in Hn; try lia.
  - cbn [app base128 varint_fuel]. rewrite Z.mod_small by lia. decide_bool.
    split; [f_equal|]; lia.
  - destruct Hcanon as [?|Hd0]; [done|].
    destruct (IH (or_intror Hd0) n) as [IH1 IH2]; [lia|]. specialize (IH2 Hd0).
    pose proof (Z.mod_pos_bound b 128). pose proof (Z.div_mod b 128).
    assert (b / 128 = 1) by (symmetry; apply Z.div_unique with (b - 128); lia).
    cbn [app base128 varint_fuel]. decide_bool. split; [|lia].
    rewrite (Z.mul_comm 128), Z.mod_add, Z.div_add by lia.
    rewrite Z.mod_mod, (Z.div_small (b mod 128)), Z.add_0_l, IH1 by lia.
    f_equal. lia.
Qed.

(** * The length function *)

Lemma varint_fuel_length n v :
  0 ≤ v < 128 ^ Z.of_nat n → (1 ≤ n)%nat →
  let k := len (varint_fuel n v) in
  1 ≤ k ∧ v < 128 ^ k ∧ (k = 1 ∨ 128 ^ (k - 1) ≤ v).
Proof.
  revert v. induction n as [|n IH]; intros v Hv Hn; [lia|].
  cbn zeta. cbn [varint_fuel]. case_bool; [cbn; lia|].
  destruct (div128_bound n v Hv) as [Hd Hn']; [lia|].
  destruct (IH _ Hd Hn') as (Hk & Hlt & Hge). len_simpl.
  set (k := len (varint_fuel n (v / 128))) in *.
  replace (Z.of_nat (S (length (varint_fuel n (v / 128))))) with (k + 1) by lia.
  pose proof (Z.div_mod v 128). pose proof (Z.mod_pos_bound v 128).
  split_and!; [lia|rewrite Z.pow_add_r by lia; lia|right].
  replace (k + 1 - 1) with k by lia. destruct Hge as [->|Hge]; [lia|].
  replace k with ((k - 1) + 1) by lia. rewrite Z.pow_add_r by lia. lia.
Qed.

Lemma u64_fits v : is_u64 v → 0 ≤ v < 128 ^ Z.of_nat 10.
Proof. unfold is_u64. cbn. lia. Qed.

Lemma u32_fits v : is_u32 v → 0 ≤ v < 128 ^ Z.of_nat 5.
Proof. unfold is_u32. cbn. lia. Qed.

Lemma varint_u32 v : is_u32 v → varint v = varint_fuel 5 v.
Proof. intros. apply varint_fuel_enough; [by apply u32_fits|lia]. Qed.

Lemma varint_ok v : 0 ≤ v → bytes_ok (varint v).
Proof. apply varint_fuel_ok. Qed.

Lemma len_varint v : 1 ≤ len (varint v) ≤ 10.
Proof.
  pose proof (length_varint_fuel 10 v). pose proof (varint_fuel_nonempty 9 v).
  unfold varint. lia.
Qed.

Lemma len_varint_u32 v : is_u32 v → 1 ≤ len (varint v) ≤ 5.
Proof.
  intros H. rewrite (varint_u32 v H). pose proof (length_varint_fuel 5 v).
  pose proof (varint_fuel_nonempty 4 v). lia.
Qed.

Lemma varint_u64_len_spec v : is_u64 v → varint_u64_len v = len (varint v).
Proof.
  intros Hv. pose proof (u64_fits v Hv) as Hf.
  destruct (varint_fuel_length 10 v Hf) as (Hk & Hlt & Hge); [lia|].
  unfold varint. set (k := len (varint_fuel 10 v)) in *.
  unfold varint_u64_len, leading_zeros_u64, div_ceil. unfold is_u64 in Hv.
  destruct (Z.eqb_spec v 0) as [->|Hv0].
  { destruct Hge as [->|Hge]; [done|]. pose proof (Z.pow_pos_nonneg 128 (k - 1)). lia. }
  assert (E : ∀ j, 0 ≤ j → 128 ^ j = 2 ^ (7 * j)).
  { intros j Hj. change 128 with (2 ^ 7). by rewrite <-Z.pow_mul_r by lia. }
  pose proof (Z.log2_nonneg v). rewrite E in Hlt by lia.
  assert (Z.log2 v < 7 * k) by (apply Z.log2_lt_pow2; lia).
  assert (7 * (k - 1) ≤ Z.log2 v).
  { destruct Hge as [->|Hge]; [lia|]. rewrite E in Hge by lia.
    apply Z.log2_le_pow2; lia. }
  decide_bool. symmetry. apply Z.div_unique with (Z.log2 v - 7 * (k - 1)); lia.
Qed.

(** * Decoding the output of the encoder *)

Lemma decode_u64_varint v tail :
  is_u64 v → decode_u64 (varint v ++ tail) = Ok (v, len (varint v)).
Proof.
  intros Hv. unfold decode_u64. rewrite take_app_ge by (pose proof (len_varint v); unfold MAX_VARINT_U64_BYTES; lia).
  rewrite (decode_loop_varint 64 10 1 _ 10 v _ 0 0); unfold is_u64 in Hv; try (cbn; lia).
  f_equal. f_equal; lia.
Qed.

Lemma decode_u32_varint v tail :
  is_u32 v → decode_u32 (varint v ++ tail) = Ok (v, len (varint v)).
Proof.
  intros Hv. pose proof (len_varint_u32 v Hv). unfold decode_u32.
  rewrite take_app_ge by (unfold MAX_VARINT_U32_BYTES; lia). rewrite (varint_u32 v Hv) in *.
  rewrite (decode_loop_varint 32 5 15 _ 5 v _ 0 0); unfold is_u32 in Hv; try (cbn; lia).
  f_equal. f_equal; lia.
Qed.

Lemma encode_u64_fits v buf :
  is_u64 v → len (varint v) ≤ len buf →
  encode_u64 v buf = (Some (len (varint v)), varint v ++ drop (length (varint v)) buf).
Proof.
  intros Hv Hlen. destruct (encode_u64_loop_spec 10 v [] buf (u64_fits v Hv)) as [H _]; [lia|].
  unfold encode_u64. rewrite H; [done|]. unfold varint in Hlen. lia.
Qed.

(** What every caller's [expect("u32 always fits")] relies on. *)
Lemma put_varint_u32_ok v : is_u32 v → put_varint_u32 v = Ok (varint v).
Proof.
  intros Hv. pose proof (len_varint_u32 v Hv). unfold put_varint_u32, encode_u32.
  rewrite encode_u64_fits; [|unfold is_u32, is_u64 in *; lia|rewrite len_zeros; unfold MAX_VARINT_U32_BYTES; lia].
  by apply slice_to_app.
Qed.
#[export] Hint Resolve put_varint_u32_ok : paddock.

Lemma decode_u32_sound input v n :
  bytes_ok input → decode_u32 input = Ok (v, n) →
  is_u32 v ∧ 1 ≤ n ≤ 5 ∧ n ≤ len input.
Proof.
  intros Hok Hd.
  apply (decode_loop_sound 32 5 15 _ _ 0) in Hd as (ds & d & tail & E & _ & -> & _ & Hv);
    [|done|done|by apply Forall_take|lia|unfold MAX_VARINT_U32_BYTES; len_lia|lia].
  assert (len (take (Z.to_nat MAX_VARINT_U32_BYTES) input) ≤ 5 ∧
          len (take (Z.to_nat MAX_VARINT_U32_BYTES) input) ≤ len input) as [? ?]
    by (len_simpl; unfold MAX_VARINT_U32_BYTES; lia).
  rewrite E in *. len_simpl. unfold is_u32. lia.
Qed.

(** The bound on [consumed] holds whatever the input's bytes are. *)
Lemma decode_loop_consumed width max_bytes last_max after input i shift r v n :
  decode_loop width max_bytes last_max after input i shift r = Ok (v, n) →
  i + 1 ≤ n ≤ i + len input.
Proof.
  revert i shift r. induction input as [|b input IH]; intros i shift r; cbn [decode_loop]; [done|].
  destruct (_ && _); [done|]. case_bool.
  - intros [= _ <-]. cbn [length]. lia.
  - intros H'%IH. cbn [length]. lia.
Qed.

Lemma decode_u32_consumed input v n :
  decode_u32 input = Ok (v, n) → 1 ≤ n ≤ len input.
Proof. intros H%decode_loop_consumed. len_simpl. lia. Qed.

Lemma decode_u64_consumed input v n :
  decode_u64 input = Ok (v, n) → 1 ≤ n ≤ len input.
Proof. intros H%decode_loop_consumed. len_simpl. lia. Qed.

Lemma decode_loop_returns width max_bytes last_max after input i shift r :
  returns (decode_loop width max_bytes last_max after input i shift r).
Proof.
  revert i shift r. induction input as [|b input IH]; intros i shift r; cbn [decode_loop]; [done|].
  destruct (_ && _); [done|]. case_bool; [done|auto].
Qed.

Lemma decode_u32_returns input : returns (decode_u32 input).
Proof. apply decode_loop_returns. Qed.
#[export] Hint Resolve decode_u32_returns decode_loop_returns : paddock.

Lemma decode_u64_sound input v n :
  bytes_ok input → decode_u64 input = Ok (v, n) →
  ∃ ds d tail, input = (ds ++ [d]) ++ tail ∧ varint_shape ds d ∧ n = len ds + 1 ∧
    (length ds < 10)%nat ∧ v = base128 (ds ++ [d]) ∧ is_u64 v.
Proof.
  intros Hok H. unfold decode_u64 in H.
  apply (decode_loop_sound 64 10 1 _ _ 0) in H as (ds & d & tail & E & Hsh & -> & -> & Hv);
    [|done|done|by apply Forall_take|lia|unfold MAX_VARINT_U64_BYTES; len_lia|lia].
  exists ds, d, (tail ++ drop (Z.to_nat MAX_VARINT_U64_BYTES) input).
  assert (length (take (Z.to_nat MAX_VARINT_U64_BYTES) input) ≤ 10)%nat
    by (len_simpl; unfold MAX_VARINT_U64_BYTES; lia).
  change (7 * 0) with 0 in *. rewrite Z.pow_0_r, Z.mul_1_r, Z.add_0_l in *.
  split_and!; [|done|lia|rewrite E in *; len_lia|done|unfold is_u64; lia].
  rewrite <-(take_drop (Z.to_nat MAX_VARINT_U64_BYTES) input) at 1.
  rewrite E, <-!app_assoc. done.
Qed.

(** The reference encoding never wastes its last digit. *)
Lemma varint_fuel_last n v :
  0 ≤ v < 128 ^ Z.of_nat n → (1 ≤ n)%nat →
  ∃ ds d, varint_fuel n v = ds ++ [d] ∧ (ds = [] ∨ d ≠ 0).
Proof.
  revert v. induction n as [|n IH]; intros v Hv Hn; [lia|].
  cbn [varint_fuel]. case_bool; [exists [], v; auto|].
  destruct (div128_bound n v Hv) as [Hd Hn']; [lia|].
  destruct (IH _ Hd Hn') as (ds & d & E & Hc). rewrite E.
  exists ((v mod 128 + 128) :: ds), d. split; [done|right].
  destruct Hc as [->|?]; [|done]. cbn in E. intros ->.
  destruct n; [lia|]. cbn [varint_fuel] in E. revert E. case_bool; intros [= E].
  - assert (1 ≤ v / 128) by (apply Z.div_le_lower_bound; lia). lia.
  - pose proof (Z.mod_pos_bound (v / 128) 128). lia.
Qed.

(** * Properties *)

(** Encoding a [u64] succeeds exactly when the buffer has room for
    [varint_u64_len] bytes, never changes the buffer's length, and leaves at
    its front bytes that [decode_u64] reads back as the same value, consuming
    exactly what was written, whatever follows them. *)
Theorem encode_decode_u64 (v : Z) (buf : bytes) (Hv : is_u64 v) :
  (varint_u64_len v ≤ len buf →
   ∃ out, encode_u64 v buf = (Some (varint_u64_len v), out) ∧ length out = length buf ∧
     ∀ tail, decode_u64 (take (Z.to_nat (varint_u64_len v)) out ++ tail)
             = Ok (v, varint_u64_len v)) ∧
  (len buf < varint_u64_len v → (encode_u64 v buf).1 = None).
Proof.
  rewrite varint_u64_len_spec by done. split; intros Hlen.
  - eexists. split; [by apply encode_u64_fits|]. split; [len_lia|].
    intros tail. rewrite take_app_len by done. by apply decode_u64_varint.
  - destruct (encode_u64_loop_spec 10 v [] buf (u64_fits v Hv)) as [_ H]; [lia|].
    apply H. unfold varint in Hlen. lia.
Qed.

Lemma encode_decode_u64_witness :
  is_u64 624485 ∧ decode_u64 ([0xE5; 0x8E; 0x26] ++ [7]) = Ok (624485, 3).
Proof.
  split; [unfold is_u64; lia|].
  destruct (encode_decode_u64 624485 (zeros 10)) as [H _]; [unfold is_u64; lia|].
  destruct H as (out & Henc & _ & Hdec); [vm_compute; discriminate|].
  vm_compute in Henc. injection Henc as <-. exact (Hdec [7]).
Defined.

(** The canonical decoder accepts exactly the encoder's output: on any byte
    string it succeeds with [(v, n)] if and only if [v] is a [u64] and the
    input starts with the [n]-byte encoding of [v]; in particular two distinct
    byte strings never decode canonically to the same value. *)
Theorem decode_u64_canonical_iff (input : bytes) (v n : Z) (Hok : bytes_ok input) :
  decode_u64_canonical input = Ok (v, n)
  ↔ is_u64 v ∧ n = varint_u64_len v ∧ ∃ tail, input = varint v ++ tail.
Proof.
  unfold decode_u64_canonical. split.
  - intros H. apply bind_Ok in H as ([v' n'] & Hdec & H).
    apply decode_u64_sound in Hdec as (ds & d & tail & -> & Hsh & -> & Hlen & -> & Hv); [|done].
    assert (Hcanon : (ds = [] ∨ d ≠ 0) ∧ v = base128 (ds ++ [d]) ∧ n = len ds + 1).
    { destruct ds as [|b ds].
      { injection H as <- <-. auto. }
      revert H. rewrite (proj2 (Z.ltb_lt _ _)), index_app_last by len_lia.
      cbn. case_bool; intros; simplify_eq. cbn [length app]. auto with lia. }
    destruct Hcanon as (Hc & -> & ->).
    destruct (varint_fuel_base128 ds d 10 Hsh Hc Hlen) as [Evar _].
    rewrite varint_u64_len_spec by done. unfold varint. rewrite Evar.
    split_and!; [done|len_lia|eauto].
  - intros (Hv & -> & tail & ->). rewrite varint_u64_len_spec by done.
    rewrite decode_u64_varint by done. rewrite bind_Ok. eexists (_, _). split; [done|].
    destruct (varint_fuel_last 10 v (u64_fits v Hv)) as (ds & d & E & Hc); [lia|].
    unfold varint. rewrite E. case_bool; [|done].
    rewrite index_app_last by len_lia. destruct Hc as [->|Hd]; [cbn in *; lia|].
    cbn. by decide_bool.
Qed.

Lemma decode_u64_canonical_iff_witness :
  bytes_ok [0xAC; 0x02; 9] ∧ decode_u64_canonical [0xAC; 0x02; 9] = Ok (300, 2) ∧
  decode_u64_canonical [0x80; 0x00] = Err (Decode NonCanonicalVarint).
Proof.
  assert (bytes_ok [0xAC; 0x02; 9]) as H
    by (apply (bool_decide_unpack _); vm_compute; exact I).
  split_and!; [exact H| |vm_compute; reflexivity].
  apply (decode_u64_canonical_iff [0xAC; 0x02; 9] 300 2 H).
  split_and!; [unfold is_u64; lia|vm_compute; reflexivity|exists [9]; vm_compute; reflexivity].
Defined.
