(* ===== verification/Checksum.v ===== *)
(** Checksums: [crates/paddock-core/src/checksum/].

    The [crc32c] and [xxhash-rust] crates are third-party code: they are
    classes of functions here, with the documented laws the engine relies on.
    The bitwise CRC32C and a toy 64-bit hash are instances that show the laws
    can hold. *)

From S2P Require Import Prelude.

(** * The crates *)

(** The [crc32c] crate. *)
Class Crc32c := {
  crc32c : bytes → Z;
  crc32c_append : Z → bytes → Z
}.

(** [crc32c_append] continues a checksum; results are [u32]s. *)
Class Crc32cLaws `{Crc32c} := {
  crc32c_append_app c a b : crc32c_append c (a ++ b) = crc32c_append (crc32c_append c a) b;
  crc32c_append_zero a : crc32c_append 0 a = crc32c a;
  crc32c_nil : crc32c [] = 0;
  crc32c_u32 a : is_u32 (crc32c a)
}.

(** The [xxhash-rust] crate's [xxh3_64]. *)
Class Xxh3 := { xxh3_64 : bytes → Z }.
Class Xxh3Laws `{Xxh3} := { xxh3_64_u64 a : is_u64 (xxh3_64 a) }.

(** Its streaming state [Xxh3]: the digest is the hash of what was fed in. *)
Class Xxh3Stream (X : Type) := { x_new : X; x_update : X → bytes → X; x_digest : X → Z }.
Class Xxh3StreamLaws (X : Type) `{Xxh3} `{!Xxh3Stream X} := {
  x_digest_chunks chunks : x_digest (foldl x_update x_new chunks) = xxh3_64 (concat chunks)
}.

(** * [checksum/crc32c.rs], [checksum/xxh3.rs] and [checksum/mod.rs] *)

(** The streaming hasher is its running state. *)
Record Hasher := { state : Z }.

Section Crc.
Context `{Crc32c}.

Definition crc_hash (data : bytes) : Z := crc32c data.

Definition hasher_new : Hasher := {| state := 0 |}.

Definition hasher_update (h : Hasher) (data : bytes) : Hasher :=
  {| state := crc32c_append (state h) data |}.

Definition hasher_finalize (h : Hasher) : Z := state h.

Definition hasher_state (h : Hasher) : Z := state h.
End Crc.

Definition xxh_hash `{Xxh3} (data : bytes) : Z := xxh3_64 data.

Record XxhHasher (X : Type) := { xxh_state : X }.
Arguments xxh_state {X} _.
Arguments Build_XxhHasher {X} _.

Section Xxh.
Context {X : Type} `{Xxh3Stream X}.

Definition xxh_hasher_new : XxhHasher X := {| xxh_state := x_new |}.

Definition xxh_hasher_update (h : XxhHasher X) (data : bytes) : XxhHasher X :=
  {| xxh_state := x_update (xxh_state h) data |}.

Definition xxh_hasher_digest (h : XxhHasher X) : Z := x_digest (xxh_state h).

Definition xxh_hasher_finalize (h : XxhHasher X) : Z := x_digest (xxh_state h).
End Xxh.

Inductive Algorithm := AlgCrc32c | AlgXxh3.

#[global] Instance Algorithm_eq_dec : EqDecision Algorithm.
Proof. solve_decision. Defined.

Definition algorithm_hash `{Crc32c, Xxh3} (a : Algorithm) (data : bytes) : Z :=
  match a with
  | AlgCrc32c => crc_hash data
  | AlgXxh3 => xxh_hash data
  end.

Definition algorithm_from_tag (tag : Z) : option Algorithm :=
  if tag =? 0 then Some AlgCrc32c else if tag =? 1 then Some AlgXxh3 else None.

Definition algorithm_tag (a : Algorithm) : Z :=
  match a with AlgCrc32c => 0 | AlgXxh3 => 1 end.

(** * A concrete CRC32C *)

(** Reflected Castagnoli polynomial, one bit at a time. *)
Definition crc_bit (c : Z) : Z :=
  if Z.testbit c 0 then Z.lxor (Z.shiftr c 1) 0x82F63B78 else Z.shiftr c 1.

Definition crc_byte (c b : Z) : Z := Nat.iter 8 crc_bit (Z.lxor c b).

Definition crc_not (c : Z) : Z := 0xFFFFFFFF - c mod 2 ^ 32.

(** The 256 remainders of a byte, by its bits from the lowest. *)
Inductive crc_tree := CrcLeaf (r : Z) | CrcNode (even odd : crc_tree).

Fixpoint crc_build (depth : nat) (i weight : Z) : crc_tree :=
  match depth with
  | O => CrcLeaf (Nat.iter 8 crc_bit i)
  | S depth => CrcNode (crc_build depth i (2 * weight)) (crc_build depth (i + weight) (2 * weight))
  end.

Definition crc_table : crc_tree := crc_build 8 0 1.

Fixpoint crc_lookup (t : crc_tree) (i : Z) : Z :=
  match t with
  | CrcLeaf r => r
  | CrcNode even odd => crc_lookup (if Z.odd i then odd else even) (Z.div2 i)
  end.

(** The same a byte at a time. *)
Definition crc_step (c b : Z) : Z := Z.lxor (Z.shiftr c 8) (crc_lookup crc_table (Z.lxor c b)).

Definition bitwise_append (c : Z) (data : bytes) : Z := crc_not (foldl crc_step (crc_not c) data).

#[global] Instance bitwise_crc32c : Crc32c :=
  {| crc32c := bitwise_append 0; crc32c_append := bitwise_append |}.

#[global] Instance sum_xxh3 : Xxh3 :=
  {| xxh3_64 := λ data, u64 (foldl (λ h b, u64 (h * 0x9E3779B185EBCA87 + b + 1)) 7 data) |}.

(** A state that keeps what it was fed. *)
#[global] Instance sum_stream : Xxh3Stream bytes := {| x_new := []; x_update := app; x_digest := xxh3_64 |}.

(** * Lemmas *)

Lemma crc_not_range c : is_u32 (crc_not c).
Proof. unfold crc_not, is_u32. pose proof (Z.mod_pos_bound c (2 ^ 32)). lia. Qed.

Lemma crc_not_not c : crc_not (crc_not c) = c mod 2 ^ 32.
Proof.
  pose proof (crc_not_range c). unfold crc_not at 1. rewrite (Z.mod_small (crc_not c)) by done.
  unfold crc_not. lia.
Qed.

Lemma lxor_range a b : is_u32 a → is_u32 b → is_u32 (Z.lxor a b).
Proof.
  unfold is_u32. intros [Ha Ha'] [Hb Hb']. split; [by apply Z.lxor_nonneg|].
  destruct (Z.eq_dec (Z.lxor a b) 0) as [->|Hne]; [lia|]. apply Z.log2_lt_pow2.
  { pose proof (proj2 (Z.lxor_nonneg a b) (conj (λ _, Hb) (λ _, Ha))). lia. }
  pose proof (Z.log2_lxor a b Ha Hb).
  assert (∀ x, 0 ≤ x < 2 ^ 32 → Z.log2 x < 32) as Hl.
  { intros x [Hx Hx']. destruct (Z.eq_dec x 0) as [->|]; [cbn; lia|]. apply Z.log2_lt_pow2; lia. }
  pose proof (Hl a). pose proof (Hl b). lia.
Qed.

Lemma crc_lookup_build depth : ∀ i w z,
  crc_lookup (crc_build depth i w) z = Nat.iter 8 crc_bit (i + w * (z mod 2 ^ Z.of_nat depth)).
Proof.
  induction depth as [|depth IH]; intros i w z; cbn [crc_build crc_lookup].
  - by rewrite Z.mod_1_r, Z.mul_0_r, Z.add_0_r.
  - rewrite Nat2Z.inj_succ, Z.pow_succ_r by lia.
    assert (z mod (2 * 2 ^ Z.of_nat depth) = z mod 2 + 2 * (Z.div2 z mod 2 ^ Z.of_nat depth)) as ->
      by (rewrite Z.div2_div; apply Z.rem_mul_r; lia).
    rewrite Zmod_odd. destruct (Z.odd z); rewrite IH; f_equal; lia.
Qed.

Lemma crc_bit_lxor a b : crc_bit (Z.lxor a b) = Z.lxor (crc_bit a) (crc_bit b).
Proof.
  unfold crc_bit. rewrite Z.lxor_spec, Z.shiftr_lxor.
  destruct (Z.testbit a 0), (Z.testbit b 0); cbn [xorb]; apply Z.bits_inj'; intros n Hn;
    rewrite !Z.lxor_spec; by repeat destruct (Z.testbit _ n).
Qed.

Lemma crc_bits_lxor n a b : Nat.iter n crc_bit (Z.lxor a b) = Z.lxor (Nat.iter n crc_bit a) (Nat.iter n crc_bit b).
Proof.
  induction n as [|n IH]; [done|]. rewrite !Nat.iter_succ, IH. apply crc_bit_lxor.
Qed.

Lemma crc_bits_shift n y : Nat.iter n crc_bit (Z.shiftl y (Z.of_nat n)) = y.
Proof.
  revert y. induction n as [|n IH]; intros y; [apply Z.shiftl_0_r|].
  rewrite Nat.iter_succ_r. rewrite Nat2Z.inj_succ, <-Z.add_1_r, <-Z.shiftl_shiftl by lia.
  unfold crc_bit at 2. rewrite Z.shiftl_spec_low by lia. by rewrite Z.shiftr_shiftl_l, Z.shiftl_0_r by lia.
Qed.

(** The table gives what the bits give. *)
Lemma crc_step_byte c b : is_u8 b → crc_step c b = crc_byte c b.
Proof.
  intros Hb. unfold crc_step, crc_table, crc_byte. rewrite crc_lookup_build. cbn [Z.of_nat].
  set (x := Z.lxor c b). assert (Z.shiftr c 8 = Z.shiftr x 8) as ->.
  { unfold x. rewrite Z.shiftr_lxor. rewrite (Z.shiftr_div_pow2 b) by lia. unfold is_u8 in Hb. rewrite (Z.div_small b) by lia.
    by rewrite Z.lxor_0_r. }
  assert (x = Z.lxor (Z.shiftl (Z.shiftr x 8) (Z.of_nat 8)) (x mod 2 ^ 8)) as E.
  { apply Z.bits_inj'. intros n Hn. rewrite Z.lxor_spec, Z.shiftl_spec by lia. cbn [Z.of_nat].
    destruct (Z.lt_ge_cases n 8).
    - rewrite (Z.testbit_neg_r _ (n - _)), Z.mod_pow2_bits_low by lia. by destruct (Z.testbit x n).
    - rewrite Z.shiftr_spec, Z.mod_pow2_bits_high, xorb_false_r by lia. f_equal. lia. }
  rewrite E at 3. rewrite crc_bits_lxor, crc_bits_shift. do 2 f_equal. by rewrite Z.mul_1_l, Z.add_0_l.
Qed.

Lemma crc_bit_range c : is_u32 c → is_u32 (crc_bit c).
Proof.
  intros Hc. unfold crc_bit, is_u32 in *. assert (0 ≤ Z.shiftr c 1 < 2 ^ 32).
  { rewrite Z.shiftr_div_pow2 by lia. split; [apply Z.div_pos; lia|apply Z.div_lt_upper_bound; lia]. }
  destruct (Z.testbit c 0); [|done]. by apply lxor_range.
Qed.

Lemma crc_step_range c b : is_u32 c → is_u32 (crc_step c b).
Proof.
  intros Hc. unfold crc_step, crc_table. rewrite crc_lookup_build. apply lxor_range.
  - rewrite Z.shiftr_div_pow2 by lia. unfold is_u32 in Hc. split; [apply Z.div_pos; lia|apply Z.div_lt_upper_bound; lia].
  - pose proof (Z.mod_pos_bound (Z.lxor c b) (2 ^ Z.of_nat 8) ltac:(lia)) as Hm.
    assert (is_u32 (0 + 1 * (Z.lxor c b mod 2 ^ Z.of_nat 8))) as H by (unfold is_u32; cbn [Z.of_nat] in *; lia).
    revert H. generalize (0 + 1 * (Z.lxor c b mod 2 ^ Z.of_nat 8)). intros z Hz.
    by do 8 apply crc_bit_range.
Qed.

Lemma foldl_crc_range data c : is_u32 c → is_u32 (foldl crc_step c data).
Proof. revert c. induction data as [|b data IH]; intros c Hc; [done|]. cbn [foldl]. by apply IH, crc_step_range. Qed.

#[global] Instance bitwise_crc32c_laws : Crc32cLaws.
Proof.
  split; cbn [crc32c crc32c_append bitwise_crc32c].
  - intros c a b. unfold bitwise_append. rewrite foldl_app, crc_not_not.
    rewrite (Z.mod_small (foldl _ _ a)); [done|]. apply foldl_crc_range, crc_not_range.
  - done.
  - vm_compute. reflexivity.
  - intros a. apply crc_not_range.
Qed.

#[global] Instance sum_xxh3_laws : Xxh3Laws.
Proof. split. intros a. unfold is_u64. cbn. apply Z.mod_pos_bound. lia. Qed.

#[global] Instance sum_stream_laws : Xxh3StreamLaws bytes.
Proof.
  split. intros chunks. cbn [x_digest sum_stream x_new x_update]. f_equal.
  induction chunks as [|c chunks IH] using rev_ind; [done|]. rewrite foldl_snoc, concat_app, IH. cbn. by rewrite app_nil_r.
Qed.

(** The check value of the algorithm: the digits "123456789". *)
Example crc32c_check_value :
  crc_hash [49; 50; 51; 52; 53; 54; 55; 56; 57] = 0xE3069283.
Proof. vm_compute. reflexivity. Qed.

(** The laws of the crate, as the code uses them. *)
Section Laws.
Context `{Crc32cLaws}.

(** Streaming over the pieces is hashing the concatenation in one go. *)
Lemma hasher_streaming chunks :
  hasher_finalize (foldl hasher_update hasher_new chunks) = crc_hash (concat chunks).
Proof.
  unfold crc_hash, hasher_finalize.
  induction chunks as [|c chunks IH] using rev_ind; cbn; [by rewrite crc32c_nil|].
  rewrite foldl_snoc, concat_app. cbn [concat hasher_update state]. rewrite IH, app_nil_r.
  by rewrite <-!crc32c_append_zero, crc32c_append_app.
Qed.

Lemma crc_hash_u32 data : is_u32 (crc_hash data).
Proof. apply crc32c_u32. Qed.
End Laws.

(** Streaming over the pieces, and the digest in between. *)
Lemma xxh_streaming `{Xxh3StreamLaws X} chunks :
  let h := foldl xxh_hasher_update xxh_hasher_new chunks in
  xxh_hasher_digest h = xxh_hash (concat chunks) ∧ xxh_hasher_finalize h = xxh_hash (concat chunks).
Proof.
  intros h. assert (∀ h0 : XxhHasher X,
    xxh_state (foldl xxh_hasher_update h0 chunks) = foldl x_update (xxh_state h0) chunks) as Hg.
  { clear h. induction chunks as [|c chunks IH]; intros h0; [done|]. cbn. by rewrite IH. }
  pose proof (Hg xxh_hasher_new) as E. fold h in E. cbn [xxh_state xxh_hasher_new] in E.
  unfold xxh_hasher_digest, xxh_hasher_finalize, xxh_hash. rewrite E, x_digest_chunks. done.
Qed.

Lemma algorithm_tag_from_tag t a : algorithm_from_tag t = Some a ↔ t = algorithm_tag a.
Proof.
  unfold algorithm_from_tag, algorithm_tag.
  destruct (Z.eqb_spec t 0), (Z.eqb_spec t 1), a; naive_solver.
Qed.
