(* ===== verification/Vfs.v ===== *)
(** The file-system abstraction: [crates/paddock-core/src/io/vfs.rs].

    The traits [VfsFile] and [Vfs] are the classes of the same name, over a
    type [F] of open files and a type [W] of file systems: several handles
    share one store, as several [Arc]s or descriptors do.  [FileLaws] is what
    the trait's documentation promises; I/O errors are allowed, and a failed
    append may have written any prefix of its data.  [MemVfs] is the in-memory
    implementation and discharges the laws. *)

From S2P Require Import Prelude.

(** * The traits *)

Class VfsFile (F W : Type) := {
  vf_append : F → bytes → st W Z;
  vf_write_at : F → bytes → Z → st W ();
  vf_sync : F → st W ();
  vf_read_at : F → Z → Z → W → outcome bytes;
  vf_size : F → W → outcome Z
}.

Class Vfs (F W : Type) := {
  vfs_file :: VfsFile F W;
  open_writable : string → st W F;
  open_readonly : string → W → outcome F;
  rename : string → string → st W ();
  remove : string → st W ();
  list_dir : string → W → outcome (list string)
}.

(** Replace [len d] bytes of [b] from offset [off] on. *)
Definition overwrite (b d : bytes) (off : Z) : bytes :=
  take (Z.to_nat off) b ++ d ++ drop (Z.to_nat (off + len d)) b.

(** Offsets in a file are signed: no file is longer than this. *)
Definition MAX_FILE_SIZE : Z := 2 ^ 63 - 1.

Class FileLaws (F W : Type) `{VfsFile F W} := {
  contents : F → W → bytes;
  write_faults : Prop;
  read_faults : Prop;
  append_Ok f d w w' off :
    vf_append f d w = (Ok off, w') →
    contents f w' = contents f w ++ d ∧ off = len (contents f w);
  append_Err f d w w' e :
    vf_append f d w = (Err e, w') →
    (write_faults ∨ MAX_FILE_SIZE < len (contents f w) + len d) ∧
    ∃ p, p `prefix_of` d ∧ contents f w' = contents f w ++ p;
  append_returns f d w : returns (vf_append f d w).1;
  append_frame f g d w : f ≠ g → contents g (vf_append f d w).2 = contents g w;
  write_at_Ok f d off w w' :
    vf_write_at f d off w = (Ok tt, w') → 0 ≤ off → off + len d ≤ len (contents f w) →
    contents f w' = overwrite (contents f w) d off;
  write_at_Err f d off w w' e :
    vf_write_at f d off w = (Err e, w') → is_u64 off → is_u64 (len (contents f w)) →
    write_faults ∨ len (contents f w) < off + len d;
  write_at_returns f d off w : 0 ≤ off → returns (vf_write_at f d off w).1;
  write_at_frame f g d off w : f ≠ g → contents g (vf_write_at f d off w).2 = contents g w;
  sync_contents f g w : contents g (vf_sync f w).2 = contents g w;
  sync_Err f w w' e : vf_sync f w = (Err e, w') → write_faults;
  sync_returns f w : returns (vf_sync f w).1;
  read_at_Ok f n off w b :
    vf_read_at f n off w = Ok b →
    0 ≤ n → is_u64 off → (n = 0 ∨ off + n ≤ len (contents f w)) ∧
    b = take (Z.to_nat n) (drop (Z.to_nat off) (contents f w));
  read_at_sub f n off w b : vf_read_at f n off w = Ok b → b ⊆ contents f w;
  read_at_Err f n off w e :
    vf_read_at f n off w = Err e → 0 ≤ n → is_u64 off → is_u64 (len (contents f w)) →
    read_faults ∨ len (contents f w) < off + n;
  read_at_returns f n off w : 0 ≤ n → 0 ≤ off → returns (vf_read_at f n off w);
  size_Ok f w n : vf_size f w = Ok n → n = len (contents f w);
  size_Err f w e : vf_size f w = Err e → read_faults;
  size_returns f w : returns (vf_size f w)
}.

Arguments write_faults F W {_ _}.
Arguments read_faults F W {_ _}.

(** A store whose reads inside the file do not fail, and one whose writes do
    not fail. *)
Class ReliableReads (F W : Type) `{FileLaws F W} := { no_read_faults : ¬ read_faults F W }.
Class ReliableWrites (F W : Type) `{FileLaws F W} := { no_write_faults : ¬ write_faults F W }.

Lemma read_at_reliable `{ReliableReads F W} (f : F) n off (w : W) :
  0 ≤ n → 0 ≤ off → off + n ≤ len (contents f w) → is_u64 (len (contents f w)) →
  vf_read_at f n off w = Ok (take (Z.to_nat n) (drop (Z.to_nat off) (contents f w))).
Proof.
  intros Hn Hoff Hlen Hu. pose proof (read_at_returns f n off w Hn Hoff) as Hret.
  assert (is_u64 off) by (unfold is_u64 in *; lia). destruct (vf_read_at f n off w) eqn:E; try done.
  - by apply read_at_Ok in E as [_ ->].
  - apply read_at_Err in E as [E|E]; try done; [by apply no_read_faults in E|lia].
Qed.

Lemma size_reliable `{ReliableReads F W} (f : F) (w : W) : vf_size f w = Ok (len (contents f w)).
Proof.
  pose proof (size_returns f w) as Hret. destruct (vf_size f w) eqn:E; try done.
  - by apply size_Ok in E as ->.
  - by apply size_Err, no_read_faults in E.
Qed.

(** The rules of the program logic for a file's operations. *)
Lemma wp_append `{FileLaws F W} (f : F) d (w : W) E Q :
  len (contents f w) + len d ≤ MAX_FILE_SIZE →
  (∀ w', contents f w' = contents f w ++ d →
         (∀ g, f ≠ g → contents g w' = contents g w) → Q (len (contents f w)) w') →
  (∀ e w' p, write_faults F W → p `prefix_of` d → contents f w' = contents f w ++ p →
         (∀ g, f ≠ g → contents g w' = contents g w) → E e w') →
  wp (vf_append f d) E Q w.
Proof.
  intros Hfit HQ HE. unfold wp. pose proof (append_returns f d w) as Hret.
  destruct (vf_append f d w) as [r w'] eqn:Happ.
  assert (∀ g, f ≠ g → contents g w' = contents g w) as Hframe.
  { intros g Hne. rewrite <-(append_frame f g d w Hne). by rewrite Happ. }
  destruct r; try done.
  - apply append_Ok in Happ as [Hc ->]. auto.
  - apply append_Err in Happ as ([?|?] & p & Hp & Hc); [eauto|lia].
Qed.

Lemma wp_write_at `{FileLaws F W} (f : F) d off (w : W) (E : Error → W → Prop) (Q : () → W → Prop) :
  0 ≤ off → off + len d ≤ len (contents f w) → is_u64 (len (contents f w)) →
  (∀ w', contents f w' = overwrite (contents f w) d off →
         (∀ g, f ≠ g → contents g w' = contents g w) → Q tt w') →
  (∀ e w', write_faults F W → (∀ g, f ≠ g → contents g w' = contents g w) → E e w') →
  wp (vf_write_at f d off) E Q w.
Proof.
  intros Hoff Hlen Hu HQ HE. unfold wp. pose proof (write_at_returns f d off w Hoff) as Hret.
  destruct (vf_write_at f d off w) as [r w'] eqn:Hw.
  assert (∀ g, f ≠ g → contents g w' = contents g w) as Hframe.
  { intros g Hne. rewrite <-(write_at_frame f g d off w Hne). by rewrite Hw. }
  destruct r as [[]|e| |]; try done.
  - apply write_at_Ok in Hw; auto.
  - apply write_at_Err in Hw as [Hw|Hw]; [eauto|lia|unfold is_u64 in *; lia|done].
Qed.

Lemma wp_sync `{FileLaws F W} (f : F) (w : W) (E : Error → W → Prop) (Q : () → W → Prop) :
  (∀ w', (∀ g, contents g w' = contents g w) → Q tt w') →
  (∀ e w', write_faults F W → (∀ g, contents g w' = contents g w) → E e w') →
  wp (vf_sync f) E Q w.
Proof.
  intros HQ HE. unfold wp. pose proof (sync_returns f w) as Hret.
  pose proof (λ g, sync_contents f g w) as Hc.
  destruct (vf_sync f w) as [[[]|e| |] w'] eqn:Hs; cbn in *; eauto using sync_Err.
Qed.

(** * [MemVfs] *)

(** A [MemFile] is an [Arc] to a byte vector: the address of the vector in the
    store.  A removed or replaced name leaves the vector to its open handles. *)
Abbreviation MemFile := Z (only parsing).

Record MemVfs := {
  mv_files : gmap string MemFile;
  mv_inodes : gmap MemFile bytes;
  mv_next : MemFile
}.

Definition mem_new : MemVfs := {| mv_files := ∅; mv_inodes := ∅; mv_next := 0 |}.

Definition mem_contents (f : MemFile) (w : MemVfs) : bytes :=
  default [] (mv_inodes w !! f).

Definition mem_set (f : MemFile) (b : bytes) (w : MemVfs) : MemVfs :=
  {| mv_files := mv_files w; mv_inodes := <[f := b]> (mv_inodes w); mv_next := mv_next w |}.

Definition mem_open_writable (path : string) : st MemVfs MemFile := λ w,
  match mv_files w !! path with
  | Some f => (Ok f, w)
  | None =>
      let f := mv_next w in
      (Ok f, {| mv_files := <[path := f]> (mv_files w);
                mv_inodes := <[f := []]> (mv_inodes w);
                mv_next := f + 1 |})
  end.

Definition mem_open_readonly (path : string) (w : MemVfs) : outcome MemFile :=
  ok_or (mv_files w !! path) (Io IoNotFound).

Definition mem_rename (from to : string) : st MemVfs () := λ w,
  match mv_files w !! from with
  | Some f =>
      (Ok tt, {| mv_files := <[to := f]> (delete from (mv_files w));
                 mv_inodes := mv_inodes w; mv_next := mv_next w |})
  | None => (Err (Io IoNotFound), w)
  end.

Definition mem_remove (path : string) : st MemVfs () := λ w,
  (Ok tt, {| mv_files := delete path (mv_files w);
             mv_inodes := mv_inodes w; mv_next := mv_next w |}).

(** The bytes of a path, and the order [BTreeMap<String, _>] iterates in. *)
Definition string_bytes (s : string) : bytes :=
  (λ c, Z.of_nat (Ascii.nat_of_ascii c)) <$> String.list_ascii_of_string s.

Definition string_le (s t : string) : Prop := bytes_leb (string_bytes s) (string_bytes t) = true.

#[global] Instance string_le_dec : RelDecision string_le.
Proof. unfold string_le. intros s t. apply _. Defined.

Definition slash : Ascii.ascii := Ascii.ascii_of_nat 47.

(** [str::ends_with('/')], [str::contains('/')] and [str::strip_prefix]. *)
Definition ends_with_slash (s : string) : bool :=
  match last (String.list_ascii_of_string s) with
  | Some c => Ascii.eqb c slash
  | None => false
  end.

Definition contains_slash (s : string) : bool :=
  existsb (Ascii.eqb slash) (String.list_ascii_of_string s).

Fixpoint strip_prefix (prefix s : string) : option string :=
  match prefix, s with
  | EmptyString, _ => Some s
  | String c prefix, String d s => if Ascii.eqb c d then strip_prefix prefix s else None
  | String _ _, EmptyString => None
  end.

Definition mem_list (dir : string) (w : MemVfs) : outcome (list string) :=
  let prefix := if ends_with_slash dir then dir else (dir +:+ String slash EmptyString) in
  let keys := merge_sort string_le (map_to_list (mv_files w)).*1 in
  Ok (filter (λ k, contains_slash k = false) (omap (strip_prefix prefix) keys)).

(** ** The operations of [MemFile] *)

Definition mem_append (f : MemFile) (data : bytes) : st MemVfs Z := λ w,
  let bytes := mem_contents f w in
  (Ok (len bytes), mem_set f (bytes ++ data) w).

Definition mem_write_at (f : MemFile) (data : bytes) (offset : Z) : st MemVfs () := λ w,
  let bytes := mem_contents f w in
  match checked_add offset (len data) with
  | None => (Err (Io IoInvalidInput), w)
  | Some end_ =>
      if len bytes <? end_ then (Err (Io IoInvalidInput), w)
      else if (0 <=? offset) && (offset <=? end_)
      then (Ok tt, mem_set f (overwrite bytes data offset) w)
      else (Panic, w)
  end.

Definition mem_sync (f : MemFile) : st MemVfs () := λ w, (Ok tt, w).

(** The bounds checks of a read of [n] bytes from a vector. *)
Definition read_slice (bytes : bytes) (n offset : Z) : outcome (list Z) :=
  end_ ← ok_or (checked_add offset n) (Io IoInvalidInput);
  if len bytes <? end_ then Err (Io IoUnexpectedEof)
  else slice bytes offset end_.

Definition mem_read_at (f : MemFile) (n offset : Z) (w : MemVfs) : outcome bytes :=
  read_slice (mem_contents f w) n offset.

Definition mem_size (f : MemFile) (w : MemVfs) : outcome Z := Ok (len (mem_contents f w)).

#[global] Instance mem_vfs_file : VfsFile MemFile MemVfs := {|
  vf_append := mem_append; vf_write_at := mem_write_at; vf_sync := mem_sync;
  vf_read_at := mem_read_at; vf_size := mem_size |}.

#[global] Instance mem_vfs : Vfs MemFile MemVfs := {|
  open_writable := mem_open_writable; open_readonly := mem_open_readonly;
  rename := mem_rename; remove := mem_remove; list_dir := mem_list |}.

(** * [MemVfs] implements the traits *)

Lemma mem_contents_set f g b w :
  mem_contents g (mem_set f b w) = if decide (f = g) then b else mem_contents g w.
Proof.
  unfold mem_contents, mem_set. cbn. destruct (decide (f = g)) as [->|Hne].
  - by rewrite lookup_insert_eq.
  - by rewrite lookup_insert_ne.
Qed.

Lemma mem_contents_set_eq f b w : mem_contents f (mem_set f b w) = b.
Proof. rewrite mem_contents_set. by destruct (decide (f = f)). Qed.

Lemma mem_contents_set_ne f g b w : f ≠ g → mem_contents g (mem_set f b w) = mem_contents g w.
Proof. rewrite mem_contents_set. by destruct (decide (f = g)). Qed.

Lemma read_slice_Ok c n off b :
  read_slice c n off = Ok b → 0 ≤ n → is_u64 off →
  off + n ≤ len c ∧ b = take (Z.to_nat n) (drop (Z.to_nat off) c).
Proof.
  unfold read_slice, checked_add. case_bool; cbn; [|done]. case_bool; [done|].
  intros Hs Hn [Hoff _]. rewrite slice_ok in Hs by lia. injection Hs as <-. split; [lia|]. do 2 f_equal. lia.
Qed.

Lemma read_slice_sub c n off b : read_slice c n off = Ok b → b ⊆ c.
Proof.
  unfold read_slice, checked_add, slice. case_bool; cbn; [|done]. case_bool; [done|].
  destruct (_ && _); [|done]. intros [= <-] x Hx. apply elem_of_take in Hx as (i & Hx & _).
  rewrite lookup_drop in Hx. by eapply list_elem_of_lookup_2.
Qed.

Lemma read_slice_Err c n off e :
  read_slice c n off = Err e → 0 ≤ n → is_u64 off → is_u64 (len c) → len c < off + n.
Proof.
  unfold read_slice, checked_add, is_u64. case_bool; cbn; [|lia]. case_bool; cbn; [lia|].
  intros Hs Hn Hoff. by rewrite slice_ok in Hs by lia.
Qed.

Lemma read_slice_returns c n off : 0 ≤ n → 0 ≤ off → returns (read_slice c n off).
Proof.
  intros Hn Hoff. unfold read_slice, checked_add. case_bool; cbn; [|done]. case_bool; [done|]. by rewrite slice_ok by lia.
Qed.

#[global] Instance mem_file_laws : FileLaws MemFile MemVfs.
Proof.
  refine {| contents := mem_contents; write_faults := False; read_faults := False |};
    cbn -[mem_contents].
  - intros f d w w' off [= <- <-]. by rewrite mem_contents_set_eq.
  - intros f d w w' e [=].
  - done.
  - intros f g d w Hne. by apply mem_contents_set_ne.
  - intros f d off w w'. unfold mem_write_at, checked_add. repeat case_bool; cbn; try done.
    intros [= <-] _ _. by rewrite mem_contents_set_eq.
  - intros f d off w w' e. unfold mem_write_at, checked_add, is_u64.
    repeat case_bool; cbn; try done; intros [= _ <-] ? ?; right; lia.
  - intros f d off w Hoff. unfold mem_write_at, checked_add. repeat case_bool; cbn; try done; lia.
  - intros f g d off w Hne. unfold mem_write_at, checked_add.
    repeat case_bool; cbn; try done. by apply mem_contents_set_ne.
  - done.
  - intros f w w' e [=].
  - done.
  - intros f n off w b E Hn Hoff. destruct (read_slice_Ok _ _ _ _ E Hn Hoff). auto.
  - intros f n off w b. apply read_slice_sub.
  - intros f n off w e E Hn Hoff Hu. right. by eapply read_slice_Err.
  - intros f n off w. apply read_slice_returns.
  - by intros f w n [= <-].
  - intros f w e [=].
  - done.
Defined.

#[global] Instance mem_reliable_reads : ReliableReads MemFile MemVfs.
Proof. split. cbn. tauto. Qed.

#[global] Instance mem_reliable_writes : ReliableWrites MemFile MemVfs.
Proof. split. cbn. tauto. Qed.
