(* ===== verification/VfsLaws.v ===== *)
(** What the engine relies on from a whole file system: the [Vfs] trait of
    [crates/paddock-core/src/io/vfs.rs].

    A path names at most one file; opening a path for writing makes an empty
    file the first time and returns the same file afterwards; writing to one
    file leaves names and other files alone; a removed file stays readable
    through the handles that are open.  [MemVfs] discharges the laws here, and
    [LinuxVfs] in [LinuxLaws]. *)

From S2P Require Import Prelude Vfs.

(** * The laws *)

Definition plain_char (c : Ascii.ascii) : bool :=
  negb (Ascii.eqb slash c) && (Z.of_nat (Ascii.nat_of_ascii c) <? 128).

(** [NAME_MAX]. *)
Definition MAX_NAME_LEN : Z := 255.

(** A name that a file system takes as it is: ASCII, not too long, not empty,
    no slash, no dots. *)
Definition plain_name (name : string) : bool :=
  forallb plain_char (String.list_ascii_of_string name) &&
  (len (String.list_ascii_of_string name) <=? MAX_NAME_LEN) && negb (bool_decide (name = EmptyString)) &&
  negb (bool_decide (name = ".")) && negb (bool_decide (name = "..")).

(** [named] is the file behind a path.  The laws of the operations on names are
    about the paths with [path_ok], of which no two spell one file; they include
    the plain names in a directory with [dir_ok]. *)
Class VfsState (F W : Type) := {
  vfs_ok : W → Prop;
  path_ok : string → Prop;
  dir_ok : string → Prop;
  named : W → string → option F;
  live : W → F → Prop
}.

(** [w'] differs from [w] at most in what the file [f] holds. *)
Record only_writes `{FileLaws F W} `{!VfsState F W} (f : F) (w w' : W) : Prop := {
  ow_ok : vfs_ok w → vfs_ok w';
  ow_named p : named w' p = named w p;
  ow_live g : live w g → live w' g;
  ow_frame g : f ≠ g → contents g w' = contents g w
}.

(** [w'] has every file of [w], unchanged, and the same names but for [p]. *)
Record only_names `{FileLaws F W} `{!VfsState F W} (p : string) (w w' : W) : Prop := {
  on_ok : vfs_ok w → vfs_ok w';
  on_named q : q ≠ p → named w' q = named w q;
  on_live g : live w g → live w' g;
  on_contents g : live w g → contents g w' = contents g w
}.

Class VfsLaws (F W : Type) `{!Vfs F W} `{!FileLaws F W} `{!VfsState F W} := {
  path_ok_in dir name : dir_ok dir → plain_name name = true → path_ok (dir +:+ "/" +:+ name);
  named_path w p f : named w p = Some f → path_ok p;
  named_live w p f : vfs_ok w → named w p = Some f → live w f;
  named_inj w p q f : vfs_ok w → named w p = Some f → named w q = Some f → p = q;
  append_only f d w : only_writes f w (vf_append f d w).2;
  write_at_only f d off w : only_writes f w (vf_write_at f d off w).2;
  sync_only f w : only_writes f w (vf_sync f w).2;
  open_writable_only p w : path_ok p → only_names p w (open_writable p w).2;
  open_writable_returns p w : returns (open_writable p w).1;
  open_writable_Err p w w' e : open_writable p w = (Err e, w') → path_ok p → write_faults F W;
  open_writable_Ok p w w' f :
    open_writable p w = (Ok f, w') → path_ok p → vfs_ok w → named w' p = Some f ∧ live w' f;
  open_writable_new p w w' f :
    open_writable p w = (Ok f, w') → path_ok p → vfs_ok w → named w p = None → ¬ live w f ∧ contents f w' = [];
  open_writable_old p w w' f g :
    open_writable p w = (Ok f, w') → vfs_ok w → named w p = Some g → f = g;
  open_readonly_Ok p w f : open_readonly p w = Ok f → path_ok p → vfs_ok w → named w p = Some f;
  open_readonly_Err p w e : open_readonly p w = Err e → read_faults F W ∨ named w p = None;
  open_readonly_returns p w : returns (open_readonly p w);
  remove_only p w : path_ok p → only_names p w (remove p w).2;
  remove_Ok p w w' : remove p w = (Ok tt, w') → path_ok p → named w' p = None;
  remove_Err p w w' e : remove p w = (Err e, w') → path_ok p → named w' p = None ∨ named w' p = named w p;
  remove_returns p w : returns (remove p w).1;
  list_dir_Ok dir w names :
    list_dir dir w = Ok names → dir_ok dir → vfs_ok w →
    NoDup names ∧ ∀ name, name ∈ names ↔ contains_slash name = false ∧ is_Some (named w (dir +:+ "/" +:+ name));
  list_dir_Err dir w e : list_dir dir w = Err e → dir_ok dir →
    read_faults F W ∨ ∀ name, named w (dir +:+ "/" +:+ name) = None;
  list_dir_returns dir w : returns (list_dir dir w)
}.

Arguments path_ok F W {_} _.
Arguments dir_ok F W {_} _.

(** * Frames *)

Lemma plain_no_slash name : plain_name name = true → contains_slash name = false.
Proof.
  unfold plain_name, contains_slash. intros [[[[Hc _]%andb_prop _]%andb_prop _]%andb_prop _]%andb_prop. revert Hc.
  generalize (String.list_ascii_of_string name) as cs. induction cs as [|c cs IH]; [done|].
  cbn. unfold plain_char. intros [[Hc _]%andb_prop ->%IH]%andb_prop. apply negb_true_iff in Hc. by rewrite Hc.
Qed.

Section Frames.
Context {F W : Type} `{VfsLaws F W}.

#[global] Instance only_writes_refl f : Reflexive (only_writes (F := F) (W := W) f).
Proof. by split. Qed.

#[global] Instance only_writes_trans f : Transitive (only_writes (F := F) (W := W) f).
Proof.
  intros w1 w2 w3 H12 H23. split.
  - intros Hok. by apply H23, H12.
  - intros p. by rewrite (ow_named _ _ _ H23), (ow_named _ _ _ H12).
  - intros g Hg. by apply H23, H12.
  - intros g Hg. by rewrite (ow_frame _ _ _ H23 g Hg), (ow_frame _ _ _ H12 g Hg).
Qed.

#[global] Instance only_names_refl p : Reflexive (only_names (F := F) (W := W) p).
Proof. by split. Qed.

#[global] Instance only_names_trans p : Transitive (only_names (F := F) (W := W) p).
Proof.
  intros w1 w2 w3 H12 H23. split.
  - intros Hok. by apply H23, H12.
  - intros q Hq. by rewrite (on_named _ _ _ H23 q Hq), (on_named _ _ _ H12 q Hq).
  - intros g Hg. by apply H23, H12.
  - intros g Hg. rewrite (on_contents _ _ _ H23); [by apply H12|by apply H12].
Qed.

(** Writing to a file that is new since [w]. *)
Lemma only_names_new p f (w w1 w2 : W) :
  only_names p w w1 → ¬ live w f → only_writes f w1 w2 → only_names p w w2.
Proof.
  intros Hn Hf Hw. split.
  - intros Hok. by apply Hw, Hn.
  - intros q Hq. by rewrite (ow_named _ _ _ Hw), (on_named _ _ _ Hn q Hq).
  - intros g Hg. by apply Hw, Hn.
  - intros g Hg. rewrite (ow_frame _ _ _ Hw) by congruence. by apply Hn.
Qed.

(** A writer with a file of its own ([file_of]) that only writes there. *)
Definition framed {S A} (file_of : S → F) (m : st (S * W) A) (s : S * W) : Prop :=
  file_of (m s).2.1 = file_of s.1 ∧ only_writes (file_of s.1) s.2 (m s).2.2.

Context {S : Type} (file_of : S → F).

Lemma framed_ret {A} (a : A) s : framed file_of (mret a) s.
Proof. split; [done|cbn; reflexivity]. Qed.

Lemma framed_lift {A} (o : outcome A) s : framed file_of (st_lift o) s.
Proof. split; [done|cbn; reflexivity]. Qed.

Lemma framed_get s : framed file_of st_get s.
Proof. split; [done|cbn; reflexivity]. Qed.

Lemma framed_bind {A B} (m : st (S * W) A) (f : A → st (S * W) B) s :
  framed file_of m s → (∀ a s', file_of s'.1 = file_of s.1 → framed file_of (f a) s') → framed file_of (m ≫= f) s.
Proof.
  intros [Hf Hw] Hcont. unfold framed, mbind, st_bind in *.
  destruct (m s) as [[a|e| |] s'] eqn:E; cbn in *; try done.
  destruct (Hcont a s' Hf) as [Hf' Hw']. rewrite Hf', Hf. split; [done|].
  etrans; [done|]. by rewrite <-Hf.
Qed.

Lemma framed_get_bind {B} (f : S * W → st (S * W) B) s :
  framed file_of (f s) s → framed file_of (st_get ≫= f) s.
Proof. done. Qed.

Lemma framed_modify g s : (∀ x, file_of (g x) = file_of x) → framed file_of (on_fst (st_modify g)) s.
Proof. intros Hg. destruct s as [x w]. split; [apply Hg|cbn; reflexivity]. Qed.

Lemma framed_on_snd {A} (m : st W A) f s :
  only_writes f s.2 (m s.2).2 → file_of s.1 = f → framed file_of (on_snd m) s.
Proof. intros Hm <-. destruct s as [x w]. unfold framed, on_snd. cbn in *. by destruct (m w). Qed.

Lemma open_readonly_named `{!ReliableReads F W} p (w : W) f :
  vfs_ok w → named w p = Some f → open_readonly p w = Ok f.
Proof.
  intros Hok Hp. pose proof (open_readonly_returns p w) as Hret. destruct (open_readonly p w) eqn:E; try done.
  - apply open_readonly_Ok in E; [congruence|by eapply named_path|done].
  - apply open_readonly_Err in E as [E|E]; [by apply no_read_faults in E|congruence].
Qed.
End Frames.

(** Runs the frame rules through a [do] block; what is left are the calls. *)
Ltac frame_step :=
  match goal with
  | |- framed _ (let '(_, _) := ?x in _) _ => destruct x
  | |- framed _ (if ?x then _ else _) _ => destruct x
  | |- framed _ (match ?x with _ => _ end) _ => destruct x
  | |- framed _ (st_get ≫= _) _ => apply framed_get_bind
  | |- framed _ (_ ≫= _) _ => apply framed_bind; [|intros ? [? ?] ?]
  | |- framed _ (mret _) _ => apply framed_ret
  | |- framed _ (st_lift _) _ => apply framed_lift
  | |- framed _ (on_fst (st_modify _)) _ => apply framed_modify; intros []; reflexivity
  | |- framed _ (on_snd _) _ =>
      eapply framed_on_snd; cbn [fst snd] in *;
      [first [apply append_only | apply write_at_only | apply sync_only]|congruence]
  end.

(** * [MemVfs] *)

#[global] Instance mem_vfs_state : VfsState MemFile MemVfs := {|
  vfs_ok := λ w, (∀ p f, mv_files w !! p = Some f → f < mv_next w) ∧
    ∀ p q f, mv_files w !! p = Some f → mv_files w !! q = Some f → p = q;
  path_ok := λ _, True;
  dir_ok := λ dir, ends_with_slash dir = false;
  named := λ w p, mv_files w !! p;
  live := λ w f, f < mv_next w |}.

Lemma mem_set_only f b w : only_writes (F := MemFile) (W := MemVfs) f w (mem_set f b w).
Proof. split; cbn; try done. intros g Hg. by apply mem_contents_set_ne. Qed.

Lemma strip_prefix_Some p s t : strip_prefix p s = Some t ↔ s = p +:+ t.
Proof.
  revert s. induction p as [|c p IH]; intros s; [by split; [intros [= ->]|intros ->]|].
  destruct s as [|d s]; [done|]. cbn [strip_prefix]. change (String c p +:+ t) with (String c (p +:+ t)).
  destruct (Ascii.eqb_spec c d) as [->|Hne]; [rewrite IH|]; split; congruence.
Qed.

Lemma mem_list_spec dir w names :
  mem_list dir w = Ok names → ends_with_slash dir = false →
  NoDup names ∧ ∀ name, name ∈ names ↔ contains_slash name = false ∧ is_Some (mv_files w !! (dir +:+ "/" +:+ name)).
Proof.
  unfold mem_list. intros [= <-] ->. set (keys := merge_sort _ _).
  assert (keys ≡ₚ (map_to_list (mv_files w)).*1) as Hkeys by apply merge_sort_Permutation.
  assert (∀ k, k ∈ keys ↔ is_Some (mv_files w !! k)) as Hin.
  { intros k. rewrite Hkeys, list_elem_of_fmap. split.
    - intros ([k' f] & -> & Hf%elem_of_map_to_list). by exists f.
    - intros [f Hf]. exists (k, f). split; [done|]. by apply elem_of_map_to_list. }
  assert (∀ k t, strip_prefix (dir +:+ String slash EmptyString) k = Some t ↔ k = dir +:+ "/" +:+ t) as Hpre.
  { intros k t. rewrite strip_prefix_Some. enough ((dir +:+ String slash EmptyString) +:+ t = dir +:+ "/" +:+ t) as -> by done.
    induction dir as [|c dir IH]; [done|]. exact (f_equal (String c) IH). }
  split.
  - apply NoDup_filter. assert (NoDup keys) as Hnd by (rewrite Hkeys; apply NoDup_fst_map_to_list).
    clear Hin Hkeys. induction Hnd as [|k keys' Hk _ IH]; [constructor|]. cbn.
    destruct (strip_prefix _ k) as [t|] eqn:Et; [|done]. constructor; [|done].
    intros (k' & Hk' & Et')%list_elem_of_omap. apply Hpre in Et, Et'. congruence.
  - intros name. rewrite list_elem_of_filter, list_elem_of_omap. split.
    + intros [Hs (k & Hk%Hin & ->%Hpre)]. done.
    + intros [Hs Hsome]. split; [done|]. eexists. rewrite Hpre. split; [by apply Hin|done].
Qed.

#[global] Instance mem_vfs_laws : VfsLaws MemFile MemVfs.
Proof.
  split; cbn.
  - done.
  - done.
  - intros w p f [Hok _] Hp. by eapply Hok.
  - intros w p q f [_ Hinj]. apply Hinj.
  - intros f d w. apply mem_set_only.
  - intros f d off w. unfold mem_write_at. repeat case_match; cbn; first [apply mem_set_only|done].
  - intros f w. by split.
  - intros p w _. unfold mem_open_writable. destruct (mv_files w !! p) as [f|] eqn:E; [by split|].
    split; cbn.
    + intros [Hok Hinj]. split.
      * intros q f [[<- <-]|[Hq Hf%Hok]]%lookup_insert_Some; lia.
      * intros q q' f [[<- <-]|[Hq Hf]]%lookup_insert_Some [[<- Ef]|[Hq' Hf']]%lookup_insert_Some; try done.
        -- apply Hok in Hf'. lia.
        -- apply Hok in Hf. lia.
        -- by eapply Hinj.
    + intros q Hq. by rewrite lookup_insert_ne.
    + intros g Hg. lia.
    + intros g Hg. unfold mem_contents. cbn. by rewrite lookup_insert_ne by lia.
  - intros p w. unfold mem_open_writable. by case_match.
  - intros p w w' e. unfold mem_open_writable. by case_match.
  - intros p w w' f. unfold mem_open_writable. destruct (mv_files w !! p) as [g|] eqn:E.
    + intros [= <- <-] _ [Hok _]. split; [done|by eapply Hok].
    + intros [= <- <-] _ Hok. cbn. rewrite lookup_insert_eq. split; [done|lia].
  - intros p w w' f. unfold mem_open_writable. intros E _ Hok Hp. rewrite Hp in E. injection E as <- <-.
    unfold mem_contents. cbn. rewrite lookup_insert_eq. split; [lia|done].
  - intros p w w' f g. unfold mem_open_writable. intros E Hok Hp. rewrite Hp in E. congruence.
  - intros p w f. unfold mem_open_readonly. destruct (mv_files w !! p); cbn; congruence.
  - intros p w e. unfold mem_open_readonly. destruct (mv_files w !! p); cbn; [done|]. by right.
  - intros p w. unfold mem_open_readonly. by destruct (mv_files w !! p).
  - intros p w _. split; cbn; try done.
    + intros [Hok Hinj]. split; [intros q f [_ Hf]%lookup_delete_Some; by eapply Hok|].
      intros q q' f [_ Hf]%lookup_delete_Some [_ Hf']%lookup_delete_Some. by eapply Hinj.
    + intros q Hq. by rewrite lookup_delete_ne.
  - intros p w w' [= <-] _. cbn. apply lookup_delete_eq.
  - done.
  - done.
  - intros dir w names E Hdir _. by apply mem_list_spec.
  - done.
  - done.
Qed.

Lemma mem_new_ok : vfs_ok (F := MemFile) mem_new.
Proof. split; [intros p f|intros p q f]; cbn; by rewrite lookup_empty. Qed.
