(* ===== verification/FileNames.v ===== *)
(** The names of the engine's files: [wal_segment_path], [sst_path],
    [parse_wal_segment_name] and [parse_sst_name] of
    [crates/paddock-core/src/engine.rs], with the standard library's decimal
    formatting and parsing of [u64]. *)

From S2P Require Import Prelude Vfs VfsLaws.

(** * Decimal numbers *)

(** The digits of [n], most significant first, before [acc]: a [u64] has at
    most twenty. *)
Fixpoint digits (fuel : nat) (n : Z) (acc : list Z) : list Z :=
  match fuel with
  | O => acc
  | S fuel => if n <? 10 then n :: acc else digits fuel (n / 10) (n mod 10 :: acc)
  end.

(** [format!("{n:08}")]. *)
Definition format_08 (n : Z) : list Z :=
  let ds := digits 20 n [] in replicate (8 - length ds) 0 ++ ds.

Definition ascii_of_digit (d : Z) : Ascii.ascii := Ascii.ascii_of_nat (48 + Z.to_nat d).

Definition string_of_digits (ds : list Z) : string :=
  String.string_of_list_ascii (ascii_of_digit <$> ds).

Definition digit_of_ascii (c : Ascii.ascii) : option Z :=
  let n := Z.of_nat (Ascii.nat_of_ascii c) in
  if (48 <=? n) && (n <=? 57) then Some (n - 48) else None.

(** [checked_mul(10)] and [checked_add(digit)] for each digit. *)
Fixpoint parse_digits (acc : Z) (cs : list Ascii.ascii) : option Z :=
  match cs with
  | [] => Some acc
  | c :: cs =>
      d ← digit_of_ascii c;
      if acc * 10 + d <? 2 ^ 64 then parse_digits (acc * 10 + d) cs else None
  end.

(** [str::parse::<u64>().ok()]: a leading plus sign is accepted. *)
Definition parse_u64 (s : string) : option Z :=
  match String.list_ascii_of_string s with
  | [] => None
  | c :: cs =>
      if Ascii.eqb c (Ascii.ascii_of_nat 43)
      then match cs with [] => None | _ => parse_digits 0 cs end
      else parse_digits 0 (c :: cs)
  end.

Definition strip_suffix (suffix s : string) : option string :=
  let l := String.list_ascii_of_string s in
  let sfx := String.list_ascii_of_string suffix in
  let n := (length l - length sfx)%nat in
  if bool_decide (length sfx ≤ length l)%nat && bool_decide (drop n l = sfx)
  then Some (String.string_of_list_ascii (take n l)) else None.

(** * Names *)

Definition wal_segment_name (id : Z) : string := "wal-" +:+ string_of_digits (format_08 id) +:+ ".log".
Definition sst_name (id : Z) : string := string_of_digits (format_08 id) +:+ ".sst".

Definition wal_segment_path (dir : string) (id : Z) : string := dir +:+ "/" +:+ wal_segment_name id.
Definition sst_path (dir : string) (id : Z) : string := dir +:+ "/" +:+ sst_name id.

Definition parse_wal_segment_name (name : string) : option Z :=
  rest ← strip_prefix "wal-" name;
  num ← strip_suffix ".log" rest;
  parse_u64 num.

Definition parse_sst_name (name : string) : option Z :=
  num ← strip_suffix ".sst" name;
  parse_u64 num.

(** * Lemmas *)

Lemma list_ascii_app a b :
  String.list_ascii_of_string (a +:+ b) = String.list_ascii_of_string a ++ String.list_ascii_of_string b.
Proof. induction a as [|c a IH]; [done|]. exact (f_equal (cons c) IH). Qed.

Lemma strip_prefix_app p s : strip_prefix p (p +:+ s) = Some s.
Proof.
  induction p as [|c p IH]; [done|]. change (String c p +:+ s) with (String c (p +:+ s)).
  cbn [strip_prefix]. by rewrite Ascii.eqb_refl.
Qed.

Lemma strip_suffix_app p s : strip_suffix s (p +:+ s) = Some p.
Proof.
  unfold strip_suffix. rewrite list_ascii_app, length_app, Nat.add_sub, drop_app_length, take_app_length.
  rewrite !bool_decide_eq_true_2 by (done || lia). cbn. by rewrite String.string_of_list_ascii_of_string.
Qed.

Lemma list_ascii_inj a b : String.list_ascii_of_string a = String.list_ascii_of_string b → a = b.
Proof. intros E. rewrite <-(String.string_of_list_ascii_of_string a), E. apply String.string_of_list_ascii_of_string. Qed.

Definition digit (d : Z) : Prop := 0 ≤ d < 10.

Lemma digit_roundtrip d : digit d → digit_of_ascii (ascii_of_digit d) = Some d.
Proof.
  unfold digit, digit_of_ascii, ascii_of_digit. intros Hd.
  rewrite Ascii.nat_ascii_embedding by lia. decide_bool. f_equal. lia.
Qed.

Lemma digits_ok fuel n acc :
  0 ≤ n → Forall digit acc → Forall digit (digits fuel n acc).
Proof.
  revert n acc. induction fuel as [|fuel IH]; intros n acc Hn Hacc; [done|]. cbn [digits].
  case_bool; [constructor; [unfold digit; lia|done]|].
  apply IH; [apply Z.div_pos; lia|]. constructor; [|done]. unfold digit. pose proof (Z.mod_pos_bound n 10). lia.
Qed.

(** The value of digits, and of digits after a number. *)
Definition value (acc : Z) (ds : list Z) : Z := foldl (λ a d, a * 10 + d) acc ds.

Lemma value_digits fuel n acc : 0 ≤ n < 10 ^ Z.of_nat fuel → value 0 (digits fuel n acc) = value n acc.
Proof.
  revert n acc. induction fuel as [|fuel IH]; intros n acc Hn.
  { cbn in Hn. assert (n = 0) as -> by lia. done. }
  cbn [digits]. case_bool; [done|]. rewrite Nat2Z.inj_succ, Z.pow_succ_r in Hn by lia. rewrite IH.
  - unfold value. cbn [foldl]. f_equal. pose proof (Z.div_mod n 10). lia.
  - split; [apply Z.div_pos; lia|apply Z.div_lt_upper_bound; lia].
Qed.

Lemma value_ge acc ds : 0 ≤ acc → Forall digit ds → acc ≤ value acc ds.
Proof.
  intros Ha Hds. revert acc Ha. induction Hds as [|d ds Hd _ IH]; intros acc Ha; [done|].
  unfold digit in Hd. unfold value in *. cbn [foldl]. specialize (IH (acc * 10 + d)). lia.
Qed.

Lemma parse_digits_value acc ds :
  0 ≤ acc → Forall digit ds → value acc ds < 2 ^ 64 →
  parse_digits acc (ascii_of_digit <$> ds) = Some (value acc ds).
Proof.
  intros Ha Hds. revert acc Ha. induction Hds as [|d ds Hd Hds IH]; intros acc Ha Hv; [done|].
  rewrite fmap_cons. cbn [parse_digits]. rewrite digit_roundtrip by done. cbn [mbind option_bind].
  unfold value in Hv. cbn [foldl] in Hv. fold (value (acc * 10 + d) ds) in Hv. unfold digit in Hd.
  pose proof (value_ge (acc * 10 + d) ds ltac:(lia) Hds). decide_bool. by rewrite IH by lia.
Qed.

Lemma value_zeros k ds : value 0 (replicate k 0 ++ ds) = value 0 ds.
Proof. induction k as [|k IH]; [done|]. exact IH. Qed.

Lemma digits_ne fuel n acc : digits (S fuel) n acc ≠ [].
Proof.
  revert n acc. induction fuel as [|fuel IH]; intros n acc.
  - cbn [digits]. by case_bool.
  - change (digits (S (S fuel)) n acc)
      with (if n <? 10 then n :: acc else digits (S fuel) (n / 10) (n mod 10 :: acc)).
    case_bool; [done|apply IH].
Qed.

Lemma format_08_spec n :
  is_u64 n → Forall digit (format_08 n) ∧ value 0 (format_08 n) = n ∧ format_08 n ≠ [].
Proof.
  intros Hn. unfold is_u64 in Hn. unfold format_08. split_and!.
  - apply Forall_app. split; [|apply digits_ok; [lia|done]]. apply Forall_replicate. done.
  - rewrite value_zeros, value_digits; [done|]. change (10 ^ Z.of_nat 20) with 100000000000000000000. lia.
  - intros [_ Hd]%app_nil. by apply (digits_ne 19 n) in Hd.
Qed.

Lemma parse_format n : is_u64 n → parse_u64 (string_of_digits (format_08 n)) = Some n.
Proof.
  intros Hn. destruct (format_08_spec n Hn) as (Hds & Hv & Hne). unfold parse_u64, string_of_digits.
  rewrite String.list_ascii_of_string_of_list_ascii.
  assert (parse_digits 0 (ascii_of_digit <$> format_08 n) = Some n) as Hp.
  { rewrite parse_digits_value; rewrite ?Hv; (done || unfold is_u64 in Hn; lia). }
  destruct (format_08 n) as [|d ds]; [done|]. rewrite fmap_cons in *.
  destruct (Ascii.eqb_spec (ascii_of_digit d) (Ascii.ascii_of_nat 43)) as [E|_]; [|done].
  apply Forall_cons in Hds as [Hd _]. apply digit_roundtrip in Hd. rewrite E in Hd. done.
Qed.

Lemma parse_sst_roundtrip id : is_u64 id → parse_sst_name (sst_name id) = Some id.
Proof.
  intros Hid. unfold parse_sst_name, sst_name. rewrite strip_suffix_app. cbn [mbind option_bind].
  by apply parse_format.
Qed.

Lemma parse_wal_roundtrip id : is_u64 id → parse_wal_segment_name (wal_segment_name id) = Some id.
Proof.
  intros Hid. unfold parse_wal_segment_name, wal_segment_name. rewrite strip_prefix_app.
  cbn [mbind option_bind]. rewrite strip_suffix_app. cbn [mbind option_bind]. by apply parse_format.
Qed.

Lemma strip_suffix_other p s t :
  String.length s = String.length t → s ≠ t → strip_suffix s (p +:+ t) = None.
Proof.
  intros Hlen Hne. unfold strip_suffix.
  assert (∀ x, length (String.list_ascii_of_string x) = String.length x) as Hl
    by (induction x as [|c x IH]; [done|exact (f_equal S IH)]).
  rewrite list_ascii_app, length_app, (Hl s), Hlen, <-(Hl t), Nat.add_sub, drop_app_length.
  rewrite (bool_decide_eq_false_2 (String.list_ascii_of_string t = _)); [by rewrite andb_false_r|].
  intros E. apply Hne. symmetry. by apply list_ascii_inj.
Qed.

Lemma wal_not_sst id : parse_sst_name (wal_segment_name id) = None.
Proof.
  unfold parse_sst_name, wal_segment_name.
  replace ("wal-" +:+ string_of_digits (format_08 id) +:+ ".log")
    with (("wal-" +:+ string_of_digits (format_08 id)) +:+ ".log").
  - by rewrite strip_suffix_other by done.
  - apply list_ascii_inj. by rewrite !list_ascii_app, app_assoc.
Qed.

Lemma sst_not_wal id : is_u64 id → parse_wal_segment_name (sst_name id) = None.
Proof.
  intros Hid. destruct (format_08_spec id Hid) as (Hds & _ & Hne). unfold parse_wal_segment_name, sst_name.
  destruct (format_08 id) as [|d ds]; [done|]. apply Forall_cons in Hds as [Hd _].
  assert (∃ c s, string_of_digits (d :: ds) +:+ ".sst" = String c s ∧ c = ascii_of_digit d) as (c & s & -> & ->)
    by (by eexists _, _).
  cbn [strip_prefix]. match goal with |- context [Ascii.eqb ?c _] => destruct (Ascii.eqb_spec c (ascii_of_digit d)) as [E|_] end; [|done].
  apply digit_roundtrip in Hd. rewrite <-E in Hd. done.
Qed.

(** ** Plain names *)

Lemma digits_plain ds : Forall digit ds → forallb plain_char (ascii_of_digit <$> ds) = true.
Proof.
  induction 1 as [|d ds Hd _ IH]; [done|]. rewrite fmap_cons. cbn [forallb]. rewrite IH, andb_true_r.
  unfold plain_char. destruct (Ascii.eqb_spec slash (ascii_of_digit d)) as [E|_].
  - apply digit_roundtrip in Hd. rewrite <-E in Hd. done.
  - unfold ascii_of_digit, digit in *. rewrite Ascii.nat_ascii_embedding by lia. cbn [negb andb]. apply Z.ltb_lt. lia.
Qed.

Lemma length_digits fuel n acc : (length (digits fuel n acc) ≤ fuel + length acc)%nat.
Proof.
  revert n acc. induction fuel as [|fuel IH]; intros n acc; cbn [digits]; [lia|].
  case_bool; [cbn; lia|]. specialize (IH (n / 10) (n mod 10 :: acc)). cbn in IH. lia.
Qed.

Lemma length_format_08 n : (length (format_08 n) ≤ 28)%nat.
Proof.
  unfold format_08. rewrite length_app, length_replicate. pose proof (length_digits 20 n []) as Hl. cbn [length] in Hl. lia.
Qed.

Lemma plain_long name c d e s :
  name = String c (String d (String e s)) → forallb plain_char (String.list_ascii_of_string name) = true →
  len (String.list_ascii_of_string name) ≤ MAX_NAME_LEN → plain_name name = true.
Proof. intros -> Hc Hl%Z.leb_le. unfold plain_name. by rewrite Hc, Hl, !bool_decide_eq_false_2. Qed.

Lemma wal_name_plain id : is_u64 id → plain_name (wal_segment_name id) = true.
Proof.
  intros Hid. destruct (format_08_spec id Hid) as (Hds & _ & _). pose proof (length_format_08 id) as Hl.
  eapply plain_long; [reflexivity|..]; unfold wal_segment_name, string_of_digits;
    rewrite !list_ascii_app, String.list_ascii_of_string_of_list_ascii.
  - by rewrite !forallb_app, digits_plain.
  - rewrite !length_app, length_fmap. unfold MAX_NAME_LEN. cbn [length String.list_ascii_of_string]. lia.
Qed.

Lemma sst_name_plain id : is_u64 id → plain_name (sst_name id) = true.
Proof.
  intros Hid. destruct (format_08_spec id Hid) as (Hds & _ & Hne).
  assert (forallb plain_char (String.list_ascii_of_string (sst_name id)) = true) as Hs.
  { unfold sst_name, string_of_digits.
    by rewrite list_ascii_app, String.list_ascii_of_string_of_list_ascii, forallb_app, digits_plain. }
  assert (len (String.list_ascii_of_string (sst_name id)) ≤ MAX_NAME_LEN) as Hlen.
  { pose proof (length_format_08 id) as Hl. unfold sst_name, string_of_digits.
    rewrite list_ascii_app, String.list_ascii_of_string_of_list_ascii, length_app, length_fmap.
    unfold MAX_NAME_LEN. cbn [length String.list_ascii_of_string]. lia. }
  unfold sst_name in *. destruct (format_08 id) as [|d [|d' [|d'' ds]]]; [done|..]; by eapply plain_long; [reflexivity|..].
Qed.

Lemma wal_path_ok `{VfsLaws F W} dir id : is_u64 id → dir_ok F W dir → path_ok F W (wal_segment_path dir id).
Proof. intros Hid Hdir. by apply path_ok_in, wal_name_plain. Qed.

Lemma sst_path_ok `{VfsLaws F W} dir id : is_u64 id → dir_ok F W dir → path_ok F W (sst_path dir id).
Proof. intros Hid Hdir. by apply path_ok_in, sst_name_plain. Qed.

(** ** Paths *)

Lemma path_inj dir s t : dir +:+ "/" +:+ s = dir +:+ "/" +:+ t → s = t.
Proof.
  intros E%(f_equal String.list_ascii_of_string). rewrite !list_ascii_app in E.
  apply app_inv_head, app_inv_head in E. by apply list_ascii_inj.
Qed.

Lemma sst_path_inj dir i j : is_u64 i → is_u64 j → sst_path dir i = sst_path dir j → i = j.
Proof.
  intros Hi Hj E%path_inj. apply parse_sst_roundtrip in Hi, Hj. rewrite E in Hi. congruence.
Qed.

Lemma wal_path_inj dir i j : is_u64 i → is_u64 j → wal_segment_path dir i = wal_segment_path dir j → i = j.
Proof.
  intros Hi Hj E%path_inj. apply parse_wal_roundtrip in Hi, Hj. rewrite E in Hi. congruence.
Qed.

Lemma sst_wal_path_ne dir i j : is_u64 i → sst_path dir i ≠ wal_segment_path dir j.
Proof. intros Hi E%path_inj. apply parse_sst_roundtrip in Hi. by rewrite E, wal_not_sst in Hi. Qed.

(** * Properties *)

(** C38. The names of the engine's files are unambiguous: for every [u64] id the
    name of a table parses back to that id and is not taken for a log segment,
    the name of a log segment parses back to that id and is not taken for a
    table, and in one directory different files have different paths. *)
Theorem file_names_unambiguous (dir : string) (i j : Z) (Hi : is_u64 i) (Hj : is_u64 j) :
  parse_sst_name (sst_name i) = Some i ∧ parse_wal_segment_name (sst_name i) = None ∧
  parse_wal_segment_name (wal_segment_name i) = Some i ∧ parse_sst_name (wal_segment_name i) = None ∧
  (sst_path dir i = sst_path dir j → i = j) ∧
  (wal_segment_path dir i = wal_segment_path dir j → i = j) ∧
  sst_path dir i ≠ wal_segment_path dir j.
Proof.
  split_and!; [by apply parse_sst_roundtrip|by apply sst_not_wal|by apply parse_wal_roundtrip|apply wal_not_sst| | |].
  - by apply sst_path_inj.
  - by apply wal_path_inj.
  - by apply sst_wal_path_ne.
Qed.

Lemma file_names_unambiguous_witness :
  sst_path "/db" 7 = "/db/00000007.sst" ∧ wal_segment_path "/db" 123456789 = "/db/wal-123456789.log" ∧
  parse_sst_name (sst_name 7) = Some 7.
Proof.
  split; [reflexivity|]. split; [reflexivity|].
  apply (file_names_unambiguous "/db" 7 123456789); unfold is_u64; lia.
Defined.
