(* ===== verification/TestKit.v ===== *)
(** How the project's own tests are written down.

    A [#[test]] function is an [outcome ()]: the assertions of [assert!],
    [assert_eq!] and [unwrap] are panics when they fail, and the test passes
    when its body returns.  A property test is a function of its random inputs,
    and is proved to return on all of them.  The [Unit...] files hold the tests
    of each group of components, run on the definitions of the model. *)

From S2P Require Import Prelude Vfs VfsLaws FileNames.

(** A byte string literal. *)
Definition lit (s : string) : bytes :=
  (λ c, Z.of_nat (Ascii.nat_of_ascii c)) <$> String.list_ascii_of_string s.

(** [format!("{n:0w$}")] as bytes. *)
Definition padded (w : nat) (n : Z) : bytes :=
  let ds := digits 20 n [] in (λ d, 48 + d) <$> (replicate (w - length ds) 0 ++ ds).

(** [format!("key-{n:05}")], the keys of most tests. *)
Definition numbered_key (n : Z) : bytes := lit "key-" ++ padded 5 n.

(** [0..n]. *)
Definition upto (n : nat) : list Z := Z.of_nat <$> seq 0 n.

Record test := Test { test_name : string; test_body : outcome () }.

Definition assert_that (b : bool) : outcome () := if b then Ok tt else Panic.

Definition assert_eq {A} `{EqDecision A} (x y : A) : outcome () := assert_that (bool_decide (x = y)).

Definition assert_ne {A} `{EqDecision A} (x y : A) : outcome () := assert_that (bool_decide (x ≠ y)).

(** [Result::unwrap], [Result::expect] and [Result::unwrap_err]. *)
Definition unwrap {A} (r : outcome A) : outcome A :=
  match r with Err _ => Panic | r => r end.

Definition unwrap_err {A} (r : outcome A) : outcome Error :=
  match r with Ok _ => Panic | Err e => Ok e | Panic => Panic | OutOfFuel => OutOfFuel end.

(** [let _ = r]. *)
Definition ignore {A} (r : outcome A) : outcome () :=
  match r with Ok _ | Err _ => Ok tt | Panic => Panic | OutOfFuel => OutOfFuel end.

(** [#[should_panic]]. *)
Definition should_panic {A} (r : outcome A) : outcome () :=
  match r with Panic => Ok tt | _ => Panic end.

Fixpoint each {A} (l : list A) (body : A → outcome ()) : outcome () :=
  match l with
  | [] => Ok tt
  | x :: l => _ ← body x; each l body
  end.

(** The same over a state. *)
Fixpoint st_each {S A} (l : list A) (body : A → st S ()) : st S () :=
  match l with
  | [] => mret tt
  | x :: l => _ ← body x; st_each l body
  end.

Definition st_unwrap {S A} (m : st S A) : st S A := λ s, let '(r, s) := m s in (unwrap r, s).

(** Running an operation of an object the test owns, on the state around it. *)
Definition owning {O S A} (x : O) (m : st (O * S) A) : st S (A * O) := λ s,
  let '(r, (x, s)) := m (x, s) in (v ← r; Ok (v, x), s).

Definition run {S A} (m : st S A) (s : S) : outcome A := (m s).1.

(** The [matches!] patterns on errors. *)
Definition is_eof (e : Error) : bool := match e with Decode (UnexpectedEof _) => true | _ => false end.
Definition is_overflow (e : Error) : bool := match e with Decode (VarintOverflow _) => true | _ => false end.
Definition is_non_canonical (e : Error) : bool := match e with Decode NonCanonicalVarint => true | _ => false end.
Definition is_invalid_format (e : Error) : bool := match e with InvalidFormat _ _ => true | _ => false end.
Definition is_corruption (e : Error) : bool := match e with Corruption _ _ => true | _ => false end.

Definition passed (t : test) : bool := match test_body t with Ok tt => true | _ => false end.

Definition all_pass (ts : list test) : bool := forallb passed ts.

(** Keys in strictly ascending order. *)
Fixpoint increasing (keys : list bytes) : bool :=
  match keys with
  | a :: (b :: _) as rest => bytes_ltb a b && increasing rest
  | _ => true
  end.

(** * Lemmas *)

Lemma assert_eq_refl {A} `{EqDecision A} (x : A) : assert_eq x x = Ok tt.
Proof. unfold assert_eq. by rewrite bool_decide_true. Qed.

Lemma assert_true b : b = true → assert_that b = Ok tt.
Proof. by intros ->. Qed.

Lemma ignore_returns {A} (r : outcome A) : returns r → ignore r = Ok tt.
Proof. by destruct r. Qed.

Lemma each_ok {A} (l : list A) (body : A → outcome ()) :
  (∀ x, x ∈ l → body x = Ok tt) → each l body = Ok tt.
Proof.
  induction l as [|x l IH]; intros Hb; cbn; [done|]. rewrite (Hb x) by apply list_elem_of_here. cbn.
  apply IH. intros y Hy. apply Hb. by apply list_elem_of_further.
Qed.

Lemma all_pass_spec ts : all_pass ts = true ↔ Forall (λ t, test_body t = Ok tt) ts.
Proof.
  unfold all_pass. rewrite forallb_forall, Forall_forall. split; intros Hall t Ht.
  - specialize (Hall t (proj1 (list_elem_of_In _ _) Ht)). unfold passed in Hall. by destruct (test_body t) as [[]| | |].
  - unfold passed. by rewrite (Hall t (proj2 (list_elem_of_In _ _) Ht)).
Qed.

Lemma increasing_sorted keys :
  increasing keys = true → StronglySorted (λ a b, bytes_cmp a b = Lt) keys.
Proof.
  intros Hi. apply Sorted_StronglySorted; [intros a b c; apply bytes_cmp_lt_trans|].
  induction keys as [|a [|b rest] IH]; [constructor|repeat constructor|].
  cbn [increasing] in Hi. apply andb_true_iff in Hi as [Hab Hi]. constructor; [by apply IH|constructor].
  unfold bytes_ltb in Hab. by destruct (bytes_cmp a b).
Qed.

Lemma sorted_lt_nodup keys : StronglySorted (λ a b, bytes_cmp a b = Lt) keys → NoDup keys.
Proof.
  induction 1 as [|a keys _ IH Hall]; constructor; [|done]. intros Ha.
  rewrite Forall_forall in Hall. specialize (Hall a Ha). by rewrite bytes_cmp_refl in Hall.
Qed.

Lemma padded_length w n : len (padded w n) ≤ Z.of_nat w + 20.
Proof.
  unfold padded. rewrite length_fmap, length_app, length_replicate. pose proof (length_digits 20 n []). cbn [length] in *. lia.
Qed.

(** * Tactics *)

Ltac evaluate := vm_compute; reflexivity.

(** One goal per test of the list. *)
Ltac each_test := apply all_pass_spec; repeat (apply Forall_cons_2); [..|by apply Forall_nil_2]; cbn [test_body].
