(* ===== verification/LinuxFile.v ===== *)
(** Files of the production file system: [LinuxFile] in
    [crates/paddock-core/src/io/linux_vfs.rs].

    File operations are loops over positional system calls.  The kernel is a
    parameter ([Kernel]) with what POSIX promises ([KernelLaws]): a call may
    transfer less than was asked for, and an offset is below [2 ^ 63].
    [LinuxFile] satisfies the laws that the log and table proofs ask of a file.
    Where the disk does not fail its operations are those of a sparse byte
    array, and those of the in-memory file as long as the script does not write
    past the end, which the in-memory file refuses. *)

From S2P Require Import Prelude Vfs.

(** * The kernel *)

(** System calls on an open file; [F] is the file a descriptor refers to. *)
Class Kernel (F W : Type) := {
  k_pread : F → Z → Z → W → outcome bytes;
  k_pwrite : F → bytes → Z → st W Z;
  k_len : F → W → outcome Z;
  k_fdatasync : F → st W ()
}.

(** [as i64] of an offset. *)
Definition to_i64 (x : Z) : Z := if x <? 2 ^ 63 then x else x - 2 ^ 64.

(** The contents after a write at [off], with a hole filled with zeros. *)
Definition written (c d : bytes) (off : Z) : bytes :=
  match d with
  | [] => c
  | _ => take (Z.to_nat off) (c ++ zeros (off - len c)) ++ d ++ drop (Z.to_nat (off + len d)) c
  end.

Class KernelLaws (F W : Type) `{!Kernel F W} := {
  k_contents : F → W → bytes;
  k_write_faults : Prop;
  k_read_faults : Prop;
  k_size f w : len (k_contents f w) < 2 ^ 63;
  pread_Ok f n off w b :
    k_pread f n off w = Ok b → 0 ≤ n →
    0 ≤ off ∧ b = take (length b) (drop (Z.to_nat off) (k_contents f w)) ∧ len b ≤ n ∧
    (b = [] → n = 0 ∨ len (k_contents f w) ≤ off);
  pread_Err f n off w e :
    k_pread f n off w = Err e → (k_read_faults ∨ off < 0) ∧ e ≠ Io IoInterrupted;
  pread_returns f n off w : returns (k_pread f n off w);
  pwrite_Ok f d off w w' n :
    k_pwrite f d off w = (Ok n, w') →
    0 ≤ off ∧ 0 ≤ n ≤ len d ∧ k_contents f w' = written (k_contents f w) (take (Z.to_nat n) d) off;
  pwrite_short f d off w w' : k_pwrite f d off w = (Ok 0, w') → d = [] ∨ k_write_faults;
  pwrite_Err f d off w w' e :
    k_pwrite f d off w = (Err e, w') →
    (k_write_faults ∨ off < 0 ∨ 2 ^ 63 ≤ off + len d) ∧
    k_contents f w' = k_contents f w ∧ e ≠ Io IoInterrupted;
  pwrite_returns f d off w : returns (k_pwrite f d off w).1;
  pwrite_frame f g d off w : f ≠ g → k_contents g (k_pwrite f d off w).2 = k_contents g w;
  len_Ok f w n : k_len f w = Ok n → n = len (k_contents f w);
  len_Err f w e : k_len f w = Err e → k_read_faults;
  len_returns f w : returns (k_len f w);
  fdatasync_contents f g w : k_contents g (k_fdatasync f w).2 = k_contents g w;
  fdatasync_Err f w w' e : k_fdatasync f w = (Err e, w') → k_write_faults;
  fdatasync_returns f w : returns (k_fdatasync f w).1
}.

Arguments k_write_faults F W {_ _}.
Arguments k_read_faults F W {_ _}.

(** * Files *)

Section File.
Context {F W : Type} `{Kernel F W}.

(** [FileExt::write_all_at] of the standard library. *)
Fixpoint write_all_at (fuel : nat) (f : F) (buf : bytes) (offset : Z) : st W () := λ w,
  match buf with
  | [] => (Ok tt, w)
  | _ =>
      match fuel with
      | O => (OutOfFuel, w)
      | S fuel =>
          match k_pwrite f buf (to_i64 offset) w with
          | (Ok n, w) =>
              if n =? 0 then (Err (Io IoWriteZero), w)
              else write_all_at fuel f (drop (Z.to_nat n) buf) (u64 (offset + n)) w
          | (Err (Io IoInterrupted), w) => write_all_at fuel f buf offset w
          | (Err e, w) => (Err e, w)
          | (Panic, w) => (Panic, w)
          | (OutOfFuel, w) => (OutOfFuel, w)
          end
      end
  end.

(** [FileExt::read_exact_at]: [got] is the filled part of the buffer, [n] what
    is left of it. *)
Fixpoint read_exact_at (fuel : nat) (f : F) (n offset : Z) (got : bytes) (w : W) : outcome bytes :=
  if n =? 0 then Ok got
  else
    match fuel with
    | O => OutOfFuel
    | S fuel =>
        match k_pread f n (to_i64 offset) w with
        | Ok [] => Err (Io IoUnexpectedEof)
        | Ok b => read_exact_at fuel f (n - len b) (u64 (offset + len b)) (got ++ b) w
        | Err (Io IoInterrupted) => read_exact_at fuel f n offset got w
        | Err e => Err e
        | Panic => Panic
        | OutOfFuel => OutOfFuel
        end
    end.
End File.

Record LinuxFile (F : Type) := { lx_inner : F }.
Arguments lx_inner {F} _.
Arguments Build_LinuxFile {F} _.

Section LinuxFile.
Context {F W : Type} `{Kernel F W}.

Definition linux_append (f : LinuxFile F) (data : bytes) : st W Z :=
  w ← st_get;
  offset ← st_lift (k_len (lx_inner f) w);
  _ ← write_all_at (length data) (lx_inner f) data offset;
  mret offset.

Definition linux_write_at (f : LinuxFile F) (data : bytes) (offset : Z) : st W () :=
  write_all_at (length data) (lx_inner f) data offset.

Definition linux_sync (f : LinuxFile F) : st W () := k_fdatasync (lx_inner f).

Definition linux_read_at (f : LinuxFile F) (n offset : Z) (w : W) : outcome bytes :=
  read_exact_at (Z.to_nat n) (lx_inner f) n offset [] w.

Definition linux_size (f : LinuxFile F) (w : W) : outcome Z := k_len (lx_inner f) w.

#[global] Instance linux_vfs_file : VfsFile (LinuxFile F) W := {|
  vf_append := linux_append; vf_write_at := linux_write_at; vf_sync := linux_sync;
  vf_read_at := linux_read_at; vf_size := linux_size |}.
End LinuxFile.

(** * Scripts of file operations *)

Inductive file_op :=
  | FileAppend (d : bytes)
  | FileWriteAt (d : bytes) (off : Z)
  | FileSync
  | FileReadAt (n off : Z)
  | FileSize.

Inductive file_answer := Offset (off : Z) | Done | Data (d : bytes).

Definition run_file_op `{VfsFile F W} (f : F) (op : file_op) : st W file_answer :=
  match op with
  | FileAppend d => off ← vf_append f d; mret (Offset off)
  | FileWriteAt d off => _ ← vf_write_at f d off; mret Done
  | FileSync => _ ← vf_sync f; mret Done
  | FileReadAt n off => w ← st_get; d ← st_lift (vf_read_at f n off w); mret (Data d)
  | FileSize => w ← st_get; n ← st_lift (vf_size f w); mret (Offset n)
  end.

Fixpoint run_file_ops `{VfsFile F W} (f : F) (ops : list file_op) (w : W) : list (outcome file_answer) * W :=
  match ops with
  | [] => ([], w)
  | op :: ops =>
      let (a, w) := run_file_op f op w in
      let (rest, w) := run_file_ops f ops w in (a :: rest, w)
  end.

(** What an operation does to a file that holds [c]: a write past the end
    extends the file. *)
Definition spec_file_op (op : file_op) (c : bytes) : outcome file_answer * bytes :=
  match op with
  | FileAppend d => (Ok (Offset (len c)), c ++ d)
  | FileWriteAt d off => (Ok Done, written c d off)
  | FileSync => (Ok Done, c)
  | FileReadAt n off =>
      (if (n =? 0) || (off + n <=? len c) then Ok (Data (take (Z.to_nat n) (drop (Z.to_nat off) c)))
       else Err (Io IoUnexpectedEof), c)
  | FileSize => (Ok (Offset (len c)), c)
  end.

Fixpoint spec_file_ops (ops : list file_op) (c : bytes) : list (outcome file_answer) * bytes :=
  match ops with
  | [] => ([], c)
  | op :: ops =>
      let (a, c) := spec_file_op op c in
      let (rest, c) := spec_file_ops ops c in (a :: rest, c)
  end.

(** Sizes fit a file offset. *)
Definition op_sized (op : file_op) (c : bytes) : Prop :=
  match op with
  | FileAppend d => len c + len d < 2 ^ 63
  | FileWriteAt d off => 0 ≤ off ∧ off + len d < 2 ^ 63
  | FileReadAt n off => 0 ≤ n ∧ 0 ≤ off ∧ off + n < 2 ^ 63
  | FileSync | FileSize => True
  end.

(** Overwriting stays inside the file, and a read of nothing is not beyond its
    end: [MemFile] refuses both. *)
Definition op_inside (op : file_op) (c : bytes) : Prop :=
  match op with
  | FileWriteAt d off => off + len d ≤ len c
  | FileReadAt n off => n = 0 → off ≤ len c
  | FileAppend _ | FileSync | FileSize => True
  end.

(** [P] holds of every operation and the bytes the file has when it runs. *)
Fixpoint along (P : file_op → bytes → Prop) (ops : list file_op) (c : bytes) : Prop :=
  match ops with
  | [] => True
  | op :: ops => P op c ∧ along P ops (spec_file_op op c).2
  end.

(** How much of [n] bytes one call moves: a word of a short request, a page of
    a long one. *)
Definition slow_step (n : Z) : Z := Z.min n (if n <? 64 then 4 else 4096).

(** A disk that splits transfers like that and refuses only what exceeds the
    largest offset: numbered files, and the names of one directory. *)
Definition slow_file : Type := dsig (λ c : bytes, len c < 2 ^ 63).

Record slow_disk := { sd_files : gmap Z slow_file; sd_names : gmap string Z; sd_next : Z }.

Definition slow_contents (f : Z) (w : slow_disk) : bytes :=
  match sd_files w !! f with Some c => `c | None => [] end.

Definition slow_set (f : Z) (c : slow_file) (w : slow_disk) : slow_disk :=
  {| sd_files := <[f := c]> (sd_files w); sd_names := sd_names w; sd_next := sd_next w |}.

Definition slow_pread (f : Z) (n off : Z) (w : slow_disk) : outcome bytes :=
  if off <? 0 then Err (Io IoInvalidInput)
  else Ok (take (Z.to_nat (slow_step n)) (drop (Z.to_nat off) (slow_contents f w))).

Definition slow_pwrite (f : Z) (d : bytes) (off : Z) : st slow_disk Z := λ w,
  if off <? 0 then (Err (Io IoInvalidInput), w)
  else
    let d := take (Z.to_nat (slow_step (len d))) d in
    match decide (len (written (slow_contents f w) d off) < 2 ^ 63) with
    | left p => (Ok (len d), slow_set f (dexist (P := λ c, len c < 2 ^ 63) _ p) w)
    | right _ => (Err (Io IoOther), w)
    end.

#[global] Instance slow_kernel : Kernel Z slow_disk := {|
  k_pread := slow_pread; k_pwrite := slow_pwrite;
  k_len := λ f w, Ok (len (slow_contents f w)); k_fdatasync := λ _ w, (Ok tt, w) |}.

(** * The file's laws *)

Lemma to_i64_small x : 0 ≤ x < 2 ^ 63 → to_i64 x = x.
Proof. intros Hx. unfold to_i64. by decide_bool. Qed.

Lemma to_i64_neg x : 2 ^ 63 ≤ x < 2 ^ 64 → to_i64 x < 0.
Proof. intros Hx. unfold to_i64. decide_bool. lia. Qed.

Lemma written_overwrite c d off : 0 ≤ off ≤ len c → written c d off = overwrite c d off.
Proof.
  intros Hoff. unfold written, overwrite. destruct d as [|x d].
  - cbn [length]. rewrite Z.add_0_r, app_nil_l. by rewrite take_drop.
  - f_equal. unfold zeros. replace (Z.to_nat (off - len c)) with 0%nat by lia. by rewrite app_nil_r.
Qed.

Lemma overwrite_nil c off : overwrite c [] off = c.
Proof. unfold overwrite. cbn. by rewrite Z.add_0_r, take_drop. Qed.

Lemma overwrite_length c d off : 0 ≤ off ≤ len c → len (overwrite c d off) = Z.max (len c) (off + len d).
Proof. intros Hoff. unfold overwrite. rewrite !length_app, length_take, length_drop. lia. Qed.

Lemma overwrite_twice c d1 d2 off :
  0 ≤ off ≤ len c → overwrite (overwrite c d1 off) d2 (off + len d1) = overwrite c (d1 ++ d2) off.
Proof.
  intros Hoff. unfold overwrite. rewrite (app_assoc (take (Z.to_nat off) c) d1).
  set (a := take (Z.to_nat off) c ++ d1).
  assert (length a = Z.to_nat (off + len d1)) as Ha by (unfold a; rewrite length_app, length_take; lia).
  rewrite take_app_length' by done. rewrite drop_app, (drop_ge a) by lia. rewrite app_nil_l, drop_drop, Ha.
  unfold a. rewrite <-!app_assoc. do 4 f_equal. rewrite length_app. lia.
Qed.

Lemma overwrite_end c d : overwrite c d (len c) = c ++ d.
Proof.
  unfold overwrite. rewrite Nat2Z.id, take_ge by lia. f_equal. rewrite drop_ge by lia. by rewrite app_nil_r.
Qed.

(** A write is an overwrite of the file with its hole filled. *)
Lemma written_padded c d off :
  0 ≤ off → d ≠ [] → written c d off = overwrite (c ++ zeros (off - len c)) d off.
Proof.
  intros Hoff Hd. unfold written, overwrite. destruct d as [|x d]; [done|]. do 2 f_equal.
  unfold zeros. destruct (Z.le_gt_cases off (len c)).
  - replace (Z.to_nat (off - len c)) with 0%nat by lia. by rewrite app_nil_r.
  - rewrite !drop_ge; [done|rewrite length_app, length_replicate; lia|lia].
Qed.

Lemma written_twice c d1 d2 off :
  0 ≤ off → d1 ≠ [] → written (written c d1 off) d2 (off + len d1) = written c (d1 ++ d2) off.
Proof.
  intros Hoff Hd. rewrite (written_padded c d1), (written_padded c (d1 ++ d2)) by (done || by destruct d1). set (c' := c ++ _).
  assert (off ≤ len c') by (unfold c', zeros; rewrite length_app, length_replicate; lia).
  rewrite written_overwrite by (rewrite overwrite_length; lia). apply overwrite_twice. lia.
Qed.

Lemma written_length c d off :
  0 ≤ off → off + len d ≤ len (written c d off) ≤ Z.max (len c) (off + len d) ∨ d = [] ∧ written c d off = c.
Proof.
  intros Hoff. unfold written. destruct d; [auto|]. left. unfold zeros.
  rewrite !length_app, length_take, length_app, length_replicate, length_drop. lia.
Qed.

Section Laws.
Context {F W : Type} `{KernelLaws F W}.

Lemma write_all_written fuel (f : F) d off (w : W) :
  (length d ≤ fuel)%nat → is_u64 off →
  wp (write_all_at fuel f d off)
    (λ _ w', (k_write_faults F W ∨ 2 ^ 63 ≤ off + len d) ∧
      ∃ p, p `prefix_of` d ∧ k_contents f w' = written (k_contents f w) p off)
    (λ _ w', k_contents f w' = written (k_contents f w) d off) w.
Proof.
  revert d off w. induction fuel as [|fuel IH]; intros d off w Hfuel Hoff.
  { by destruct d; [|cbn in Hfuel; lia]. }
  destruct d as [|x d]; [done|]. cbn [write_all_at]. unfold wp, is_u64 in *.
  pose proof (pwrite_returns f (x :: d) (to_i64 off) w) as Hret.
  destruct (k_pwrite f (x :: d) (to_i64 off) w) as [[n|e| |] w1] eqn:E; try done.
  - destruct (pwrite_Ok _ _ _ _ _ _ E) as (Hpos & Hn & Hc).
    destruct (Z.lt_ge_cases off (2 ^ 63)) as [Hlt|Hge]; [|pose proof (to_i64_neg off); lia].
    rewrite to_i64_small in * by lia. destruct (Z.eqb_spec n 0) as [->|Hn0].
    { split; [left; by destruct (pwrite_short _ _ _ _ _ E)|]. exists []. split; [apply prefix_nil|done]. }
    assert (len (take (Z.to_nat n) (x :: d)) = n) as Hln by (rewrite length_take; lia).
    assert (take (Z.to_nat n) (x :: d) ≠ []) as Hne by (intros E0; rewrite E0 in Hln; cbn in Hln; lia).
    pose proof (k_size f w1) as Hsz1. rewrite Hc in Hsz1.
    destruct (written_length (k_contents f w) (take (Z.to_nat n) (x :: d)) off) as [Hl|[? _]]; [lia| |done].
    assert (u64 (off + n) = off + n) as -> by (unfold u64; apply Z.mod_small; lia).
    set (rest := drop (Z.to_nat n) (x :: d)).
    assert (len rest = len (x :: d) - n) as Hrest by (unfold rest; rewrite length_drop; lia).
    assert (∀ p, written (k_contents f w1) p (off + n) = written (k_contents f w) (take (Z.to_nat n) (x :: d) ++ p) off)
      as Hjoin.
    { intros p. pose proof (written_twice (k_contents f w) (take (Z.to_nat n) (x :: d)) p off) as Hw.
      rewrite Hln in Hw. rewrite Hc. apply Hw; [lia|done]. }
    apply (wp_mono (write_all_at fuel f rest (off + n)) (λ _ w', (k_write_faults F W ∨ 2 ^ 63 ≤ off + n + len rest) ∧
      ∃ p, p `prefix_of` rest ∧ k_contents f w' = written (k_contents f w1) p (off + n))
      _ (λ _ w', k_contents f w' = written (k_contents f w1) rest (off + n))).
    + apply IH; [cbn [length] in *; lia|lia].
    + intros e w2 (Hf & p & Hp & Hw2). split; [destruct Hf; [by left|right; lia]|].
      exists (take (Z.to_nat n) (x :: d) ++ p). split; [|by rewrite Hw2, Hjoin].
      rewrite <-(take_drop (Z.to_nat n) (x :: d)) at 2. by apply prefix_app.
    + intros _ w2 ->. rewrite Hjoin. unfold rest. by rewrite take_drop.
  - destruct (pwrite_Err _ _ _ _ _ _ E) as (Hf & Hc & He).
    assert ((k_write_faults F W ∨ 2 ^ 63 ≤ off + len (x :: d)) ∧
      ∃ p, p `prefix_of` x :: d ∧ k_contents f w1 = written (k_contents f w) p off) as Hend.
    { split; [|exists []; split; [apply prefix_nil|done]]. destruct (Z.lt_ge_cases off (2 ^ 63)); [|right; lia].
      rewrite to_i64_small in Hf by lia. destruct Hf as [Hf|[Hf|Hf]]; [by left|lia|by right]. }
    destruct e as [[]| | | | | |]; done.
Qed.

Lemma write_all_spec fuel (f : F) d off (w : W) :
  (length d ≤ fuel)%nat → 0 ≤ off ≤ len (k_contents f w) →
  wp (write_all_at fuel f d off)
    (λ _ w', (k_write_faults F W ∨ 2 ^ 63 ≤ off + len d) ∧
      ∃ p, p `prefix_of` d ∧ k_contents f w' = overwrite (k_contents f w) p off)
    (λ _ w', k_contents f w' = overwrite (k_contents f w) d off) w.
Proof.
  intros Hfuel Hoff. pose proof (k_size f w) as Hsz. eapply wp_mono; [apply write_all_written; [done|unfold is_u64; lia]|..].
  - intros e w' (Hf & p & Hp & Hc). rewrite written_overwrite in Hc by done. eauto.
  - intros [] w' Hc. by rewrite written_overwrite in Hc.
Qed.

Lemma write_all_returns fuel (f : F) d off (w : W) :
  (length d ≤ fuel)%nat → returns (write_all_at fuel f d off w).1.
Proof.
  revert d off w. induction fuel as [|fuel IH]; intros [|x d] off w Hfuel; try done; [cbn in Hfuel; lia|].
  cbn [write_all_at]. pose proof (pwrite_returns f (x :: d) (to_i64 off) w) as Hret.
  destruct (k_pwrite f (x :: d) (to_i64 off) w) as [[n|e| |] w1] eqn:E; try done.
  - destruct (pwrite_Ok _ _ _ _ _ _ E) as (_ & Hn & _). destruct (Z.eqb_spec n 0); [done|].
    apply IH. rewrite length_drop. cbn [length] in *. lia.
  - destruct (pwrite_Err _ _ _ _ _ _ E) as (_ & _ & He). by destruct e as [[]| | | | | |].
Qed.

Lemma write_all_frame fuel (f g : F) d off (w : W) :
  f ≠ g → k_contents g (write_all_at fuel f d off w).2 = k_contents g w.
Proof.
  intros Hne. revert d off w. induction fuel as [|fuel IH]; intros [|x d] off w; try done.
  cbn [write_all_at]. pose proof (pwrite_frame f g (x :: d) (to_i64 off) w Hne) as Hf.
  destruct (k_pwrite f (x :: d) (to_i64 off) w) as [[n|e| |] w1] eqn:E; cbn in Hf; try done.
  - case_match; [done|]. by rewrite IH.
  - destruct e as [[]| | | | | |]; cbn; try done. by rewrite IH.
Qed.

Lemma read_exact_spec fuel (f : F) n off got (w : W) :
  (Z.to_nat n ≤ fuel)%nat → 0 ≤ n → is_u64 off →
  match read_exact_at fuel f n off got w with
  | Ok b => (n = 0 ∨ off + n ≤ len (k_contents f w)) ∧
      b = got ++ take (Z.to_nat n) (drop (Z.to_nat off) (k_contents f w))
  | Err e => k_read_faults F W ∨
      len (k_contents f w) < off + n ∧ (off < 2 ^ 63 → e = Io IoUnexpectedEof)
  | _ => False
  end.
Proof.
  revert n off got. induction fuel as [|fuel IH]; intros n off got Hfuel Hn Hoff.
  { assert (n = 0) as -> by lia. cbn. rewrite app_nil_r. auto. }
  cbn [read_exact_at]. destruct (Z.eqb_spec n 0) as [->|Hn0]; [cbn; rewrite app_nil_r; auto|].
  pose proof (k_size f w) as Hsz. unfold is_u64 in Hoff.
  pose proof (pread_returns f n (to_i64 off) w) as Hret.
  destruct (k_pread f n (to_i64 off) w) as [b|e| |] eqn:E; try done.
  - destruct (pread_Ok _ _ _ _ _ E Hn) as (Hp & Hb & Hl & Hend).
    destruct (Z.lt_ge_cases off (2 ^ 63)) as [Hlt|Hge]; [|pose proof (to_i64_neg off); lia].
    rewrite to_i64_small in * by lia. destruct b as [|x b].
    { right. split; [destruct Hend; [done|lia..]|done]. }
    set (k := length (x :: b)) in *. assert (0 < Z.of_nat k) as Hk by (unfold k; cbn; lia).
    assert (off + Z.of_nat k ≤ len (k_contents f w)) as Hin.
    { pose proof (f_equal length Hb) as Hl'. rewrite length_take, length_drop in Hl'. fold k in Hl'. lia. }
    assert (u64 (off + Z.of_nat k) = off + Z.of_nat k) as -> by (unfold u64; apply Z.mod_small; lia).
    specialize (IH (n - Z.of_nat k) (off + Z.of_nat k) (got ++ x :: b)). unfold is_u64 in IH.
    destruct read_exact_at as [b'|e| |].
    + destruct IH as [Hr ->]; [lia..|]. split; [lia|]. rewrite <-app_assoc. f_equal. rewrite Hb at 1.
      replace (Z.to_nat (off + Z.of_nat k)) with (Z.to_nat off + k)%nat by lia. rewrite <-drop_drop.
      rewrite take_take_drop. f_equal. lia.
    + destruct IH as [Hf|[Hlen He]]; [lia..|by left|]. right. split; [lia|]. intros _. apply He. lia.
    + apply IH; lia.
    + apply IH; lia.
  - destruct (pread_Err _ _ _ _ _ E) as [[Hf|Hf] He].
    { by destruct e as [[]| | | | | |]; first [left|done]. }
    assert (2 ^ 63 ≤ off).
    { destruct (Z.lt_ge_cases off (2 ^ 63)); [|done]. rewrite to_i64_small in Hf; lia. }
    destruct e as [[]| | | | | |]; try done; right; split; lia.
Qed.

Lemma read_exact_returns fuel (f : F) n off got (w : W) :
  (Z.to_nat n ≤ fuel)%nat → 0 ≤ n → returns (read_exact_at fuel f n off got w).
Proof.
  revert n off got. induction fuel as [|fuel IH]; intros n off got Hfuel Hn; cbn [read_exact_at].
  { destruct (Z.eqb_spec n 0); [done|lia]. }
  case_match; [done|]. pose proof (pread_returns f n (to_i64 off) w) as Hret.
  destruct (k_pread f n (to_i64 off) w) as [[|x c]|e| |] eqn:E; try done.
  - destruct (pread_Ok _ _ _ _ _ E Hn) as (_ & _ & Hl & _). apply IH; cbn [length] in *; lia.
  - destruct (pread_Err _ _ _ _ _ E) as [_ He]. by destruct e as [[]| | | | | |].
Qed.

Lemma read_exact_sub fuel (f : F) n off got (w : W) b :
  0 ≤ n → read_exact_at fuel f n off got w = Ok b → b ⊆ got ++ k_contents f w.
Proof.
  revert n off got. induction fuel as [|fuel IH]; intros n off got Hn; cbn [read_exact_at].
  { case_match; [|done]. intros [= <-]. set_solver. }
  case_match; [intros [= <-]; set_solver|].
  destruct (k_pread f n (to_i64 off) w) as [[|x c]|e| |] eqn:E; try done.
  - destruct (pread_Ok _ _ _ _ _ E Hn) as (_ & Hb & Hl & _). intros Hr%IH; [|lia]. etrans; [exact Hr|].
    intros y. rewrite !elem_of_app. intros [[?|Hy]|?]; [by left|right|by right].
    rewrite Hb in Hy. apply elem_of_take in Hy as (i & Hy & _). rewrite lookup_drop in Hy.
    by eapply list_elem_of_lookup_2.
  - destruct (pread_Err _ _ _ _ _ E) as [_ He]. by destruct e as [[]| | | | | |].
Qed.

(** An append is a write at the end. *)
Lemma linux_append_spec (f : LinuxFile F) d (w : W) :
  wp (linux_append f d)
    (λ _ w', (k_write_faults F W ∨ k_read_faults F W ∨ 2 ^ 63 ≤ len (k_contents (lx_inner f) w) + len d) ∧
      ∃ p, p `prefix_of` d ∧ k_contents (lx_inner f) w' = k_contents (lx_inner f) w ++ p)
    (λ off w', off = len (k_contents (lx_inner f) w) ∧
      k_contents (lx_inner f) w' = k_contents (lx_inner f) w ++ d) w.
Proof.
  unfold linux_append. apply wp_bind, wp_get, wp_bind. unfold wp at 1, st_lift.
  pose proof (len_returns (lx_inner f) w) as Hret. destruct (k_len (lx_inner f) w) as [n|e| |] eqn:E; try done.
  - apply len_Ok in E as ->. apply wp_bind. eapply wp_mono; [apply write_all_spec; lia|..].
    + intros e w' (Hf & p & Hp & Hc). rewrite overwrite_end in Hc. split; [tauto|eauto].
    + intros [] w' Hc. rewrite overwrite_end in Hc. by apply wp_ret.
  - apply len_Err in E. split; [tauto|]. exists []. split; [apply prefix_nil|by rewrite app_nil_r].
Qed.

Lemma linux_append_frame (f : LinuxFile F) g d (w : W) :
  lx_inner f ≠ g → k_contents g (linux_append f d w).2 = k_contents g w.
Proof.
  intros Hne. unfold linux_append, mbind, st_bind, st_get, st_lift.
  destruct (k_len (lx_inner f) w) as [n|e| |]; try done.
  rewrite <-(write_all_frame (length d) (lx_inner f) g d n w Hne).
  by destruct (write_all_at (length d) (lx_inner f) d n w) as [[] w'].
Qed.
End Laws.

Lemma lx_inner_ne {F} (f g : LinuxFile F) : f ≠ g → lx_inner f ≠ lx_inner g.
Proof. destruct f, g. cbn. congruence. Qed.

(** An append asks for the size of the file first. *)
#[global] Instance linux_file_laws {F W : Type} `{KernelLaws F W} : FileLaws (LinuxFile F) W.
Proof.
  refine {| contents := λ f w, k_contents (lx_inner f) w;
            write_faults := k_write_faults F W ∨ k_read_faults F W; read_faults := k_read_faults F W |}; cbn.
  - intros f d w w' off E. by destruct (wp_Ok _ _ _ _ _ _ (linux_append_spec f d w) E).
  - intros f d w w' e E. destruct (wp_Err _ _ _ _ _ _ (linux_append_spec f d w) E) as [Hf Hp].
    split; [unfold MAX_FILE_SIZE; destruct Hf as [?|[?|?]]; auto with lia|done].
  - intros f d w. exact (wp_returns _ _ _ _ (linux_append_spec f d w)).
  - intros f g d w Hne. by apply linux_append_frame, lx_inner_ne.
  - intros f d off w w' E Hoff Hlen.
    assert (0 ≤ off ≤ len (k_contents (lx_inner f) w)) as Ho by lia.
    exact (wp_Ok _ _ _ _ _ _ (write_all_spec (length d) (lx_inner f) d off w (le_n _) Ho) E).
  - intros f d off w w' e E Ho _. unfold is_u64 in Ho. pose proof (k_size (lx_inner f) w) as Hsz.
    destruct (Z.lt_ge_cases (len (k_contents (lx_inner f) w)) (off + len d)) as [Hlt|Hge]; [by right|].
    assert (0 ≤ off ≤ len (k_contents (lx_inner f) w)) as Hin by lia.
    destruct (wp_Err _ _ _ _ _ _ (write_all_spec (length d) (lx_inner f) d off w (le_n _) Hin) E) as [[?|?] _];
      [auto|lia].
  - intros f d off w _. by apply write_all_returns.
  - intros f g d off w Hne. by apply write_all_frame, lx_inner_ne.
  - intros f g w. apply fdatasync_contents.
  - intros f w w' e E. left. by eapply fdatasync_Err.
  - intros f w. apply fdatasync_returns.
  - intros f n off w b E Hn Hoff. unfold linux_read_at in E.
    pose proof (read_exact_spec (Z.to_nat n) (lx_inner f) n off [] w (le_n _) Hn Hoff) as Hr. by rewrite E in Hr.
  - intros f n off w b E. unfold linux_read_at in E.
    destruct (Z.lt_ge_cases n 0); [|by apply read_exact_sub in E].
    destruct (Z.to_nat n) eqn:En; [|lia]. cbn in E. case_match; [lia|done].
  - intros f n off w e E Hn Hoff _. unfold linux_read_at in E.
    pose proof (read_exact_spec (Z.to_nat n) (lx_inner f) n off [] w (le_n _) Hn Hoff) as Hr. rewrite E in Hr. tauto.
  - intros f n off w Hn Hoff. by apply read_exact_returns.
  - intros f w n. apply len_Ok.
  - intros f w e. apply len_Err.
  - intros f w. apply len_returns.
Defined.

Lemma take_length_take {A} k (l : list A) : take (length (take k l)) l = take k l.
Proof. by rewrite length_take, <-take_take, firstn_all. Qed.

Lemma slow_contents_small f w : len (slow_contents f w) < 2 ^ 63.
Proof. unfold slow_contents. destruct (sd_files w !! f) as [c|]; [apply (proj2_dsig c)|done]. Qed.

Lemma slow_contents_set f g c w : slow_contents g (slow_set f c w) = if decide (f = g) then `c else slow_contents g w.
Proof.
  unfold slow_contents. cbn. case_decide as E; [by rewrite E, lookup_insert_eq|by rewrite lookup_insert_ne].
Qed.

Lemma slow_step_range n : 0 ≤ n → 0 ≤ slow_step n ≤ n ∧ (slow_step n = 0 → n = 0).
Proof. intros Hn. unfold slow_step. case_bool; lia. Qed.

#[global] Instance slow_kernel_laws : KernelLaws Z slow_disk.
Proof.
  refine {| k_contents := slow_contents; k_write_faults := False; k_read_faults := False |}; cbn.
  - intros f w. apply slow_contents_small.
  - intros f n off w b. unfold slow_pread. case_bool; [done|]. intros [= <-] Hn. pose proof (slow_step_range n Hn).
    split_and!; [done|..].
    + by rewrite take_length_take.
    + rewrite length_take. lia.
    + intros Hb%(f_equal length). rewrite length_take, length_drop in Hb. cbn [length] in Hb. lia.
  - intros f n off w e. unfold slow_pread. case_bool; [|done]. intros [= <-]. auto.
  - intros f n off w. unfold slow_pread. by case_bool.
  - intros f d off w w' n. unfold slow_pwrite. case_bool; [done|]. cbn zeta. case_decide as Hd; [|done].
    intros [= <- <-]. split_and!; [done|lia|rewrite length_take; lia|].
    rewrite slow_contents_set, decide_True by done. rewrite Nat2Z.id, take_length_take. done.
  - intros f d off w w'. unfold slow_pwrite. case_bool; [done|]. cbn zeta. case_decide; [|done].
    intros [= Hl _]. left. rewrite length_take in Hl. pose proof (slow_step_range (len d) ltac:(lia)).
    destruct d; [done|cbn [length] in *; lia].
  - intros f d off w w' e. unfold slow_pwrite. case_bool; [intros [= <- <-]; auto with lia|].
    cbn zeta. case_decide as Hd; [done|]. intros [= <- <-]. split_and!; [|done..]. right. right.
    pose proof (slow_contents_small f w) as Hw.
    destruct (written_length (slow_contents f w) (take (Z.to_nat (slow_step (len d))) d) off) as [Hl|[_ Hl]]; [lia| |rewrite Hl in Hd; lia].
    rewrite length_take in Hl. lia.
  - intros f d off w. unfold slow_pwrite. case_bool; [done|]. cbn zeta. by case_decide.
  - intros f g d off w Hne. unfold slow_pwrite. case_bool; [done|]. cbn zeta. case_decide; [|done].
    cbn [snd]. by rewrite slow_contents_set, decide_False.
  - by intros f w n [= <-].
  - done.
  - done.
  - done.
  - done.
  - done.
Defined.

(** * A file on a disk that does not fail *)

Lemma mem_op_spec op (g : MemFile) (m : MemVfs) :
  op_sized op (mem_contents g m) → op_inside op (mem_contents g m) → len (mem_contents g m) < 2 ^ 63 →
  (run_file_op g op m).1 = (spec_file_op op (mem_contents g m)).1 ∧
  mem_contents g (run_file_op g op m).2 = (spec_file_op op (mem_contents g m)).2.
Proof.
  intros Hfit Hin Hlen. set (c := mem_contents g m) in *. destruct op as [d|d off| |n off|]; cbn -[mem_contents] in *.
  - unfold mem_append, mbind, st_bind. cbn. by rewrite mem_contents_set_eq.
  - unfold mem_write_at, checked_add, mbind, st_bind. fold c. decide_bool. decide_bool. cbn.
    by rewrite mem_contents_set_eq, written_overwrite by lia.
  - done.
  - unfold mbind, st_bind, st_get, st_lift, mem_read_at, read_slice, checked_add. fold c. decide_bool. cbn.
    destruct (Z.ltb_spec (len c) (off + n)) as [Hlt|Hge].
    + rewrite (proj2 (Z.leb_gt _ _)) by lia. destruct (Z.eqb_spec n 0); [lia|done].
    + rewrite (proj2 (Z.leb_le _ _)), orb_true_r by lia. rewrite slice_ok by lia. cbn.
      split; [do 3 f_equal; lia|done].
  - done.
Qed.

Section Refinement.
Context {F W : Type} `{KernelLaws F W}.
Context (Hwrites : ¬ k_write_faults F W) (Hreads : ¬ k_read_faults F W).

Lemma linux_op_spec op (f : LinuxFile F) (w : W) :
  op_sized op (k_contents (lx_inner f) w) →
  (run_file_op f op w).1 = (spec_file_op op (k_contents (lx_inner f) w)).1 ∧
  k_contents (lx_inner f) (run_file_op f op w).2 = (spec_file_op op (k_contents (lx_inner f) w)).2.
Proof using Hwrites Hreads.
  intros Hfit. pose proof (k_size (lx_inner f) w) as Hsz. set (c := k_contents (lx_inner f) w) in *.
  destruct op as [d|d off| |n off|]; cbn -[linux_append] in *; unfold mbind, st_bind, st_get, st_lift.
  - pose proof (linux_append_spec f d w) as Hs. unfold wp in Hs. fold c in Hs.
    destruct (linux_append f d w) as [[] w']; cbn; try tauto; [by destruct Hs as [-> ->]|].
    destruct Hs as [[?|[?|?]] _]; [done..|lia].
  - pose proof (write_all_written (length d) (lx_inner f) d off w) as Hs. unfold wp, is_u64 in Hs. fold c in Hs.
    unfold linux_write_at. destruct (write_all_at _ _ d off w) as [[] w']; cbn.
    + split; [done|apply Hs; lia].
    + destruct Hs as [[?|?] _]; [lia..|done|lia].
    + destruct Hs; lia.
    + destruct Hs; lia.
  - unfold linux_sync. pose proof (fdatasync_contents (lx_inner f) (lx_inner f) w) as Hc.
    pose proof (fdatasync_returns (lx_inner f) w) as Hr.
    destruct (k_fdatasync (lx_inner f) w) as [[] w'] eqn:E; try done; by apply fdatasync_Err in E.
  - unfold linux_read_at. pose proof (read_exact_spec (Z.to_nat n) (lx_inner f) n off [] w) as Hs. fold c in Hs.
    unfold is_u64 in Hs. destruct (Z.eqb_spec n 0) as [->|Hn]; [by cbn|]. cbn [orb]. destruct read_exact_at as [b|e| |].
    + destruct Hs as [Hs ->]; [lia..|]. rewrite (proj2 (Z.leb_le _ _)) by lia. done.
    + destruct Hs as [?|[Hs He]]; [lia..|done|]. rewrite (proj2 (Z.leb_gt _ _)) by lia. by rewrite He by lia.
    + destruct Hs; lia.
    + destruct Hs; lia.
  - unfold linux_size. pose proof (len_returns (lx_inner f) w) as Hr.
    destruct (k_len (lx_inner f) w) eqn:E; try done; [by apply len_Ok in E as ->|by apply len_Err in E].
Qed.

Lemma linux_ops_spec ops (f : LinuxFile F) (w : W) :
  along op_sized ops (k_contents (lx_inner f) w) →
  (run_file_ops f ops w).1 = (spec_file_ops ops (k_contents (lx_inner f) w)).1 ∧
  k_contents (lx_inner f) (run_file_ops f ops w).2 = (spec_file_ops ops (k_contents (lx_inner f) w)).2.
Proof using Hwrites Hreads.
  revert w. induction ops as [|op ops IH]; intros w; [done|]. intros [Hop Hops]. cbn [run_file_ops spec_file_ops].
  destruct (linux_op_spec op f w Hop) as [Hl1 Hl2].
  destruct (run_file_op f op w) as [a w1], (spec_file_op op _) as [b c1]. cbn in *. subst b c1.
  destruct (IH w1 Hops) as [Ha Hw]. destruct (run_file_ops f ops w1), (spec_file_ops ops _). cbn in *. by subst.
Qed.
End Refinement.

Lemma mem_ops_spec ops (g : MemFile) (m : MemVfs) :
  along op_sized ops (mem_contents g m) → along op_inside ops (mem_contents g m) → len (mem_contents g m) < 2 ^ 63 →
  (run_file_ops g ops m).1 = (spec_file_ops ops (mem_contents g m)).1 ∧
  mem_contents g (run_file_ops g ops m).2 = (spec_file_ops ops (mem_contents g m)).2.
Proof.
  revert m. induction ops as [|op ops IH]; intros m; [done|]. intros [Hop Hops] [Hin Hins] Hlen.
  cbn [run_file_ops spec_file_ops]. destruct (mem_op_spec op g m Hop Hin Hlen) as [Hm1 Hm2].
  assert (len (spec_file_op op (mem_contents g m)).2 < 2 ^ 63) as Hlen'.
  { destruct op as [d|d off| |n off|]; cbn in Hop, Hin |- *; try done; [rewrite length_app; lia|].
    rewrite written_overwrite, overwrite_length; lia. }
  destruct (run_file_op g op m) as [a m1], (spec_file_op op _) as [b c1]. cbn in *. subst b c1.
  destruct (IH m1 Hops Hins Hlen') as [Ha Hw]. destruct (run_file_ops g ops m1), (spec_file_ops ops _). cbn in *. by subst.
Qed.

(** C29. On a kernel that reports no fault, whatever parts it splits transfers
    into, a script of appends, positional writes, syncs, reads and size queries
    on a [LinuxFile] gives the answers of a sparse byte array and leaves its
    bytes: a write past the end extends the file, with zeros in the hole, and a
    read past the end is the end-of-file error.  If no write of the script goes
    past the end of the file (and no empty read starts there), a [MemFile] with
    the same bytes gives the same answers and ends with the same bytes.  The
    script's sizes stay below the largest file offset. *)
Theorem linux_file_refines_mem `{KernelLaws F W} ops (f : LinuxFile F) (w : W)
    (Hwrites : ¬ k_write_faults F W) (Hreads : ¬ k_read_faults F W)
    (Hsized : along op_sized ops (k_contents (lx_inner f) w)) :
  (run_file_ops f ops w).1 = (spec_file_ops ops (k_contents (lx_inner f) w)).1 ∧
  k_contents (lx_inner f) (run_file_ops f ops w).2 = (spec_file_ops ops (k_contents (lx_inner f) w)).2 ∧
  ∀ (g : MemFile) (m : MemVfs),
    mem_contents g m = k_contents (lx_inner f) w → along op_inside ops (mem_contents g m) →
    (run_file_ops f ops w).1 = (run_file_ops g ops m).1 ∧
    k_contents (lx_inner f) (run_file_ops f ops w).2 = mem_contents g (run_file_ops g ops m).2.
Proof.
  destruct (linux_ops_spec Hwrites Hreads ops f w Hsized) as [Ha Hc]. split; [done|]. split; [done|].
  intros g m Hm Hin. pose proof (k_size (lx_inner f) w) as Hsz. rewrite <-Hm in *.
  destruct (mem_ops_spec ops g m Hsized Hin Hsz) as [-> ->]. done.
Qed.

Definition demo_ops : list file_op :=
  [FileAppend [1; 2; 3; 4; 5; 6; 7; 8]; FileSize; FileWriteAt [9; 9; 9; 9] 2; FileSync; FileReadAt 7 1; FileReadAt 4 6].

Definition slow_empty : slow_disk := {| sd_files := ∅; sd_names := ∅; sd_next := 0 |}.

(** The script inside the file in memory, and one more write beyond its end. *)
Lemma linux_file_refines_mem_witness :
  (run_file_ops (Build_LinuxFile 0) demo_ops slow_empty).1 = (run_file_ops (0 : MemFile) demo_ops mem_new).1 ∧
  (run_file_ops (Build_LinuxFile 0) (demo_ops ++ [FileWriteAt [7] 10; FileReadAt 4 7]) slow_empty).1 =
    [Ok (Offset 0); Ok (Offset 8); Ok Done; Ok Done; Ok (Data [2; 9; 9; 9; 9; 7; 8]); Err (Io IoUnexpectedEof);
     Ok Done; Ok (Data [8; 0; 0; 7])].
Proof.
  split.
  - destruct (linux_file_refines_mem (W := slow_disk) demo_ops (Build_LinuxFile 0) slow_empty) as (_ & _ & Hm).
    + by intros [].
    + by intros [].
    + vm_compute. by split_and!.
    + apply (Hm 0 mem_new); [done|]. vm_compute. by split_and!.
  - destruct (linux_file_refines_mem (W := slow_disk) (demo_ops ++ [FileWriteAt [7] 10; FileReadAt 4 7])
      (Build_LinuxFile 0) slow_empty) as (Ha & _ & _).
    + by intros [].
    + by intros [].
    + vm_compute. by split_and!.
    + rewrite Ha. by vm_compute.
Defined.

(** The trait's documentation says that [write_at] never extends the file; on
    a [LinuxFile] it does, where a [MemFile] refuses. *)
Theorem linux_write_at_extends :
  (run_file_ops (Build_LinuxFile 0) [FileWriteAt [7; 7] 0; FileSize] slow_empty).1 = [Ok Done; Ok (Offset 2)] ∧
  (run_file_ops (0 : MemFile) [FileWriteAt [7; 7] 0; FileSize] mem_new).1 =
    [Err (Io IoInvalidInput); Ok (Offset 0)].
Proof. by vm_compute. Qed.
