(* ===== verification/LinuxVfs.v ===== *)
(** The production file system: [LinuxVfs] in
    [crates/paddock-core/src/io/linux_vfs.rs].

    Paths are checked, joined to the root and handed to the system calls of
    [PathCalls].  The theorem says which call of which operation gets which
    path: the root and the names of the caller's path, and one exception. *)

From S2P Require Import Prelude Vfs LinuxFile.

(** * Paths of the standard library *)

Abbreviation path := (list Ascii.ascii) (only parsing).

(** [std::path::Component] on Unix. *)
Inductive Component :=
  | RootDir
  | CurDir
  | ParentDir
  | Normal (name : path).

#[global] Instance Component_eq_dec : EqDecision Component.
Proof. solve_decision. Defined.

(** The pieces between slashes. *)
Fixpoint segments (p : path) : list path :=
  match p with
  | [] => [[]]
  | c :: p =>
      if Ascii.eqb c slash then [] :: segments p
      else match segments p with s :: rest => (c :: s) :: rest | [] => [[c]] end
  end.

Fixpoint join_segments (l : list path) : path :=
  match l with
  | [] => []
  | [s] => s
  | s :: l => s ++ slash :: join_segments l
  end.

Definition dot : path := [Ascii.ascii_of_nat 46].
Definition dotdot : path := dot ++ dot.

(** Empty pieces and dots say nothing. *)
Definition inert (s : path) : bool := bool_decide (s = []) || bool_decide (s = dot).

Definition segment_component (s : path) : option Component :=
  if inert s then None else if bool_decide (s = dotdot) then Some ParentDir else Some (Normal s).

Definition is_absolute (p : path) : bool :=
  match p with c :: _ => Ascii.eqb c slash | [] => false end.

(** [Path::components]: a dot is kept at the very start only. *)
Definition lead (p : path) : list Component :=
  if is_absolute p then [RootDir]
  else if bool_decide (head (segments p) = Some dot) then [CurDir] else [].

Definition components (p : path) : list Component := lead p ++ omap segment_component (segments p).

(** [Path::join] of a relative path. *)
Definition path_join (root p : path) : path :=
  match last root with
  | None => p
  | Some c => if Ascii.eqb c slash then root ++ p else root ++ slash :: p
  end.

(** Pieces in reverse without the ones at the end that say nothing; the first
    piece of a path stays. *)
Fixpoint trim_right (l : list path) : list path :=
  match l with
  | s :: ((_ :: _) as rest) => if inert s then trim_right rest else l
  | _ => l
  end.

(** The path of reversed pieces. *)
Definition rejoin (l : list path) : path :=
  match l with [[]] => [slash] | _ => join_segments (reverse l) end.

(** [Path::parent]. *)
Definition parent (p : path) : option path :=
  match trim_right (reverse (segments p)) with
  | [] | [[]] => None
  | [_] => Some []
  | _ :: rest => Some (rejoin (trim_right rest))
  end.

(** [OsStr::to_str] succeeds on the well-formed UTF-8 sequences. *)
Definition between (lo b hi : Z) : bool := (lo <=? b) && (b <=? hi).
Definition continuation (b : Z) : bool := between 128 b 191.

Definition three_bytes (a b : Z) : bool :=
  (a =? 224) && between 160 b 191 || between 225 a 236 && continuation b ||
  (a =? 237) && between 128 b 159 || between 238 a 239 && continuation b.

Definition four_bytes (a b : Z) : bool :=
  (a =? 240) && between 144 b 191 || between 241 a 243 && continuation b || (a =? 244) && between 128 b 143.

Fixpoint valid_utf8 (s : bytes) : bool :=
  match s with
  | [] => true
  | a :: s1 =>
      if a <? 128 then valid_utf8 s1
      else
        match s1 with
        | b :: s2 =>
            if between 194 a 223 then continuation b && valid_utf8 s2
            else
              match s2 with
              | c :: s3 =>
                  if between 224 a 239 then three_bytes a b && continuation c && valid_utf8 s3
                  else
                    match s3 with
                    | d :: s4 => four_bytes a b && continuation c && continuation d && valid_utf8 s4
                    | [] => false
                    end
              | [] => false
              end
        | [] => false
        end
  end.

Definition path_bytes (p : path) : bytes := (λ c, Z.of_nat (Ascii.nat_of_ascii c)) <$> p.

(** * [LinuxVfs] *)

(** The calls on paths: [create_dir_all], [OpenOptions::open], [rename],
    [remove_file] and [read_dir] of [std::fs]. *)
Class PathCalls (F W : Type) := {
  p_create_dir_all : path → st W ();
  p_open_create : path → st W F;
  p_open_read : path → st W F;
  p_rename : path → path → st W ();
  p_remove_file : path → st W ();
  p_read_dir : path → st W (list (outcome path))
}.

Record LinuxVfs := { lv_root : path }.

Definition inside (c : Component) : bool :=
  match c with Normal _ | CurDir => true | ParentDir | RootDir => false end.

Definition resolve (vfs : LinuxVfs) (p : path) : outcome path :=
  if bool_decide (p = []) then Err (invalid_format_static "LinuxVfs" "empty path")
  else if is_absolute p
  then Err (invalid_format_static "LinuxVfs" "absolute paths are not permitted; pass a relative name")
  else if forallb inside (components p) then Ok (path_join (lv_root vfs) p)
  else Err (invalid_format_static "LinuxVfs" "path component outside the root is not permitted").

(** [match r { Err(e) if e.kind() == NotFound => Ok(default), ... }] *)
Definition or_missing {S A} (m : st S A) (a : A) : st S A := λ s,
  match m s with
  | (Err (Io IoNotFound), s) => (Ok a, s)
  | r => r
  end.

(** The loop of [list]: names that are not UTF-8 are passed over. *)
Fixpoint utf8_names (entries : list (outcome path)) : outcome (list path) :=
  match entries with
  | [] => Ok []
  | entry :: entries =>
      name ← entry; names ← utf8_names entries;
      Ok (if valid_utf8 (path_bytes name) then name :: names else names)
  end.

Section LinuxVfs.
Context {F W : Type} `{PathCalls F W}.

Definition create_at (root : path) : st W LinuxVfs :=
  _ ← p_create_dir_all root; mret {| lv_root := root |}.

Definition linux_open_writable (vfs : LinuxVfs) (p : path) : st W (LinuxFile F) :=
  full ← st_lift (resolve vfs p);
  _ ← (match parent full with
       | Some dir =>
           if negb (bool_decide (dir = [])) && negb (bool_decide (components dir = components (lv_root vfs)))
           then p_create_dir_all dir else mret tt
       | None => mret tt
       end);
  file ← p_open_create full;
  mret (Build_LinuxFile file).

Definition linux_open_readonly (vfs : LinuxVfs) (p : path) : st W (LinuxFile F) :=
  full ← st_lift (resolve vfs p);
  file ← p_open_read full;
  mret (Build_LinuxFile file).

Definition linux_rename (vfs : LinuxVfs) (from to : path) : st W () :=
  from ← st_lift (resolve vfs from);
  to ← st_lift (resolve vfs to);
  p_rename from to.

Definition linux_remove (vfs : LinuxVfs) (p : path) : st W () :=
  full ← st_lift (resolve vfs p);
  or_missing (p_remove_file full) tt.

Definition linux_list (vfs : LinuxVfs) (dir : path) : st W (list path) :=
  target ← (if bool_decide (dir = []) || bool_decide (dir = dot) then mret (lv_root vfs)
            else st_lift (resolve vfs dir));
  read ← or_missing (p_read_dir target) [];
  st_lift (utf8_names read).
End LinuxVfs.

(** * Calls on record *)

Inductive path_call :=
  | CreateDirAll (p : path)
  | OpenCreate (p : path)
  | OpenRead (p : path)
  | RenameFile (from to : path)
  | RemoveFile (p : path)
  | ReadDir (p : path).

Definition logged {W A} (c : path_call) (m : st W A) : st (W * list path_call) A := λ s,
  let (r, w) := m s.1 in (r, (w, s.2 ++ [c])).

(** The same calls, each written down. *)
Definition recording {F W} (calls : PathCalls F W) : PathCalls F (W * list path_call) := {|
  p_create_dir_all p := logged (CreateDirAll p) (p_create_dir_all p);
  p_open_create p := logged (OpenCreate p) (p_open_create p);
  p_open_read p := logged (OpenRead p) (p_open_read p);
  p_rename p q := logged (RenameFile p q) (p_rename p q);
  p_remove_file p := logged (RemoveFile p) (p_remove_file p);
  p_read_dir p := logged (ReadDir p) (p_read_dir p) |}.

Inductive vfs_op :=
  | OpenWritable (p : path)
  | OpenReadonly (p : path)
  | Rename (from to : path)
  | Remove (p : path)
  | ListDir (dir : path).

Definition run_vfs_op {F W} `{PathCalls F W} (vfs : LinuxVfs) (op : vfs_op) : st W () :=
  match op with
  | OpenWritable p => _ ← linux_open_writable vfs p; mret tt
  | OpenReadonly p => _ ← linux_open_readonly vfs p; mret tt
  | Rename from to => linux_rename vfs from to
  | Remove p => linux_remove vfs p
  | ListDir dir => _ ← linux_list vfs dir; mret tt
  end.

(** The names in a relative path that has nothing but names and dots. *)
Definition has_names (p : path) (names : list path) : Prop :=
  is_absolute p = false ∧ omap segment_component (segments p) = Normal <$> names.

(** [full] is the root followed by the names of [p]: no [..] and nothing of an
    absolute path. *)
Definition resolves (root p full : path) : Prop :=
  ∃ names, has_names p names ∧ components full = components root ++ (Normal <$> names).

(** [dir] is one component above [root]. *)
Definition just_above (dir root : path) : Prop := ∃ c, components root = components dir ++ [c].

(** The calls each operation may make.  The directory created before an open
    for writing is the root and all names but the last; for a path without
    names, which is the root itself, it is the directory above the root. *)
Definition permitted (root : path) (op : vfs_op) (call : path_call) : Prop :=
  match op, call with
  | OpenWritable p, CreateDirAll dir =>
      ∃ names, has_names p names ∧
        match names with
        | [] => just_above dir root
        | _ :: _ => components dir = components root ++ (Normal <$> removelast names)
        end
  | OpenWritable p, OpenCreate full => resolves root p full
  | OpenReadonly p, OpenRead full => resolves root p full
  | Rename from to, RenameFile from' to' => resolves root from from' ∧ resolves root to to'
  | Remove p, RemoveFile full => resolves root p full
  | ListDir dir, ReadDir full => resolves root dir full
  | _, _ => False
  end.

(** * Lexical facts *)

Lemma segments_cons p : ∃ s rest, segments p = s :: rest.
Proof. destruct p as [|c p]; cbn; [eauto|]. case_match; [eauto|]. case_match; eauto. Qed.

Lemma segments_app p q : segments (p ++ slash :: q) = segments p ++ segments q.
Proof.
  induction p as [|c p IH]; [done|]. cbn. case_match; [by rewrite IH|]. rewrite IH.
  destruct (segments_cons p) as (s & rest & ->). done.
Qed.

Lemma segments_plain p : Forall (λ s, slash ∉ s) (segments p).
Proof.
  induction p as [|c p IH]; cbn; [repeat constructor; set_solver|].
  destruct (Ascii.eqb_spec c slash); [constructor; [set_solver|done]|].
  destruct (segments_cons p) as (s & rest & Hs). rewrite Hs in *. apply Forall_cons in IH as [Hh Ht].
  constructor; [|done]. by apply not_elem_of_cons.
Qed.

Lemma segments_one s : slash ∉ s → segments s = [s].
Proof.
  induction s as [|c s IH]; [done|]. intros [Hc Hs]%not_elem_of_cons. cbn.
  destruct (Ascii.eqb_spec c slash); [congruence|]. by rewrite IH.
Qed.

Lemma segments_join l : l ≠ [] → Forall (λ s, slash ∉ s) l → segments (join_segments l) = l.
Proof.
  induction l as [|s [|t l] IH]; [done|..]; intros _ Hl; apply Forall_cons in Hl as [Hs Hl].
  - by apply segments_one.
  - change (join_segments (s :: t :: l)) with (s ++ slash :: join_segments (t :: l)).
    by rewrite segments_app, IH, segments_one.
Qed.

(** The components of pieces, of an absolute path or not. *)
Definition comps (absolute : bool) (l : list path) : list Component :=
  (if absolute then [RootDir] else if bool_decide (head l = Some dot) then [CurDir] else []) ++
  omap segment_component l.

Definition starts_empty (l : list path) : bool := match l with [] :: _ :: _ => true | _ => false end.

Lemma is_absolute_segments p : is_absolute p = starts_empty (segments p).
Proof.
  destruct p as [|c p]; [done|]. cbn. destruct (segments_cons p) as (s & rest & ->). by case_match.
Qed.

Lemma components_comps p : components p = comps (starts_empty (segments p)) (segments p).
Proof. unfold components, lead. by rewrite is_absolute_segments. Qed.

Lemma comps_app a l l' : l ≠ [] → comps a (l ++ l') = comps a l ++ omap segment_component l'.
Proof. intros Hl. unfold comps. rewrite omap_app. destruct l; [done|]. cbn. by rewrite <-app_assoc. Qed.

Lemma starts_empty_app l l1 l2 :
  l ≠ [] → l1 ≠ [] → l2 ≠ [] → starts_empty (l ++ l1) = starts_empty (l ++ l2).
Proof. destruct l as [|[] [|]], l1, l2; done. Qed.

Lemma starts_empty_more l l' : l ≠ [] → l ≠ [[]] → starts_empty (l ++ l') = starts_empty l.
Proof. destruct l as [|[] [|]]; done. Qed.

Lemma segments_empty p : segments p = [[]] → p = [].
Proof.
  destruct p as [|c p]; [done|]. cbn. destruct (segments_cons p) as (s & rest & ->). by case_match.
Qed.

Lemma segments_ne p : segments p ≠ [].
Proof. by destruct (segments_cons p) as (s & rest & ->). Qed.

#[local] Hint Resolve segments_ne : core.

(** Joining appends what the path names. *)
Lemma components_join root p :
  root ≠ [] → components (path_join root p) = components root ++ omap segment_component (segments p).
Proof.
  intros Hr. unfold path_join. destruct (last root) as [c|] eqn:El; [|by apply last_None in El].
  rewrite !components_comps. destruct (Ascii.eqb_spec c slash) as [->|Hc].
  - apply last_Some in El as [r ->]. rewrite <-app_assoc. cbn [app]. rewrite !segments_app.
    rewrite (starts_empty_app _ _ (segments [])) by done. rewrite !comps_app by done. cbn. by rewrite app_nil_r.
  - rewrite segments_app, comps_app by done. rewrite starts_empty_more; [done..|].
    intros Hs%segments_empty. done.
Qed.

Lemma inside_names p :
  forallb inside (components p) = true → ∃ names, omap segment_component (segments p) = Normal <$> names.
Proof.
  unfold components. rewrite forallb_app. intros [_ Hin]%andb_prop. revert Hin. generalize (segments p) as l.
  induction l as [|s l IH]; cbn; [by exists []|]. destruct (segment_component s) as [c|] eqn:Hs; [|done].
  cbn. intros [Hc (names & Hn)%IH]%andb_prop. exists (s :: names). cbn. rewrite Hn. f_equal.
  unfold segment_component in Hs. repeat case_match; simplify_eq; done.
Qed.

Lemma resolve_under vfs p full :
  lv_root vfs ≠ [] → resolve vfs p = Ok full →
  resolves (lv_root vfs) p full.
Proof.
  intros Hr. unfold resolve. case_match; [done|]. case_match; [done|]. destruct forallb eqn:Hi; [|done].
  intros [= <-]. destruct (inside_names p Hi) as [names Hn]. exists names. by rewrite components_join, Hn.
Qed.

(** * The parent directory *)

Lemma reverse_ne {A} (l : list A) : l ≠ [] → reverse l ≠ [].
Proof. intros Hl Hr. apply Hl. by rewrite <-(reverse_involutive l), Hr. Qed.

Lemma trim_right_cons s t l : trim_right (s :: t :: l) = if inert s then trim_right (t :: l) else s :: t :: l.
Proof. done. Qed.

Lemma trim_right_ne l : l ≠ [] → trim_right l ≠ [].
Proof. induction l as [|s [|t l] IH]; [done..|]. intros _. rewrite trim_right_cons. case_match; auto. Qed.

Lemma trim_right_last l : last (trim_right l) = last l.
Proof. induction l as [|s [|t l] IH]; [done..|]. rewrite trim_right_cons. by case_match. Qed.

Lemma trim_right_sub l : trim_right l ⊆ l.
Proof. induction l as [|s [|t l] IH]; [done..|]. rewrite trim_right_cons. case_match; [set_solver|done]. Qed.

Lemma trim_right_length l : (length (trim_right l) ≤ length l)%nat.
Proof. induction l as [|s [|t l] IH]; [done..|]. rewrite trim_right_cons. case_match; cbn in *; lia. Qed.

Lemma trim_right_inert l s t l' : trim_right l = s :: t :: l' → inert s = false.
Proof.
  induction l as [|s0 [|t0 l] IH]; [done..|]. rewrite trim_right_cons. case_match; [done|]. by intros [= <- _ _].
Qed.

Lemma trim_right_comps a l : l ≠ [] → comps a (reverse (trim_right l)) = comps a (reverse l).
Proof.
  induction l as [|s [|t l] IH]; [done..|]. intros _. rewrite trim_right_cons. destruct (inert s) eqn:Hs; [|done].
  rewrite IH by done. rewrite (reverse_cons _ s), comps_app by (by apply reverse_ne).
  cbn. unfold segment_component. rewrite Hs. by rewrite app_nil_r.
Qed.

(** The parent has the same components but for the last. *)
Lemma parent_components p dir :
  parent p = Some dir → dir ≠ [] → ∃ c, components p = components dir ++ [c].
Proof.
  unfold parent. intros Hp Hdir. rewrite components_comps. set (a := starts_empty (segments p)).
  rewrite <-(reverse_involutive (segments p)), <-trim_right_comps by (by apply reverse_ne).
  pose proof (trim_right_last (reverse (segments p))) as Hlast.
  pose proof (trim_right_sub (reverse (segments p))) as Hsub. rewrite last_reverse in Hlast.
  destruct (trim_right (reverse (segments p))) as [|s [|t l]] eqn:Et; [done|by destruct s; simplify_eq|].
  pose proof (trim_right_inert _ _ _ _ Et) as Hs.
  assert (segment_component s = Some (if bool_decide (s = dotdot) then ParentDir else Normal s)) as Hc.
  { unfold segment_component. rewrite Hs. by destruct (bool_decide _). }
  eexists. rewrite reverse_cons, comps_app by (by apply reverse_ne). 
  change (omap segment_component [s]) with (match segment_component s with Some c => [c] | None => [] end).
  rewrite Hc. f_equal.
  rewrite <-trim_right_comps by done. set (u := trim_right (t :: l)) in *.
  assert (head (reverse u) = head (segments p)) as Hhead.
  { rewrite head_reverse. unfold u. rewrite trim_right_last. rewrite <-Hlast. done. }
  assert (u ≠ []) as Hu by (by apply trim_right_ne).
  assert (1 < length (segments p))%nat as Hlong.
  { pose proof (trim_right_length (reverse (segments p))) as Hlen. rewrite Et, length_reverse in Hlen. cbn in Hlen. lia. }
  assert (a = bool_decide (head (reverse u) = Some [])) as ->.
  { unfold a. rewrite Hhead. destruct (segments p) as [|[|x y] [|]]; cbn in *; try done; lia. }
  assert (dir = rejoin u) as -> by (destruct s; by injection Hp as <-).
  rewrite components_comps. destruct (decide (u = [[]])) as [->|Hne]; [done|].
  assert (segments (rejoin u) = reverse u) as Hseg.
  { transitivity (segments (join_segments (reverse u))); [by destruct u as [|[] []]|].
    apply segments_join; [by apply reverse_ne|]. apply Forall_reverse, Forall_forall. intros x Hx.
    pose proof (segments_plain p) as Hplain. rewrite Forall_forall in Hplain. apply Hplain.
    apply elem_of_reverse, Hsub. right. by apply trim_right_sub. }
  rewrite Hseg. f_equal. destruct (reverse u) as [|[|x y] [|]] eqn:Er; cbn; try done.
  exfalso. apply Hne. by rewrite <-(reverse_involutive u), Er.
Qed.

(** * Confinement *)

Section Confined.
Context {W : Type} (P : path_call → Prop).

(** [m] adds only calls with [P] to the record. *)
Definition logs {A} (m : st (W * list path_call) A) : Prop := ∀ s, Forall P s.2 → Forall P (m s).2.2.

Lemma logs_ret {A} (a : A) : logs (mret a).
Proof. by intros s. Qed.

Lemma logs_lift {A} (o : outcome A) : logs (st_lift o).
Proof. by intros s. Qed.

Lemma logs_bind {A B} (m : st _ A) (k : A → st _ B) : logs m → (∀ a, logs (k a)) → logs (m ≫= k).
Proof.
  intros Hm Hk s Hs. specialize (Hm s Hs). unfold mbind, st_bind. destruct (m s) as [[a|e| |] s']; [|done..].
  by apply Hk.
Qed.

Lemma logs_lift_bind {A B} (o : outcome A) (k : A → st _ B) :
  (∀ a, o = Ok a → logs (k a)) → logs (st_lift o ≫= k).
Proof. intros Hk s Hs. unfold mbind, st_bind, st_lift. destruct o; [by apply Hk|done..]. Qed.

Lemma logs_logged {A} c (m : st W A) : P c → logs (logged c m).
Proof.
  intros Hc [w l] Hl. unfold logged. cbn in *. destruct (m w). by apply Forall_app_2; [|apply Forall_singleton].
Qed.

Lemma logs_or_missing {A} (m : st _ A) a : logs m → logs (or_missing m a).
Proof.
  intros Hm s Hs. specialize (Hm s Hs). unfold or_missing.
  by destruct (m s) as [[|[[]| | | | | |]| |] s'].
Qed.
End Confined.

(** The directory [open_writable] creates. *)
Lemma permitted_parent root p full dir :
  resolves root p full → parent full = Some dir → dir ≠ [] → permitted root (OpenWritable p) (CreateDirAll dir).
Proof.
  intros (names & Hn & Hf) Hp Hd. destruct (parent_components _ _ Hp Hd) as [c Hc]. exists names. split; [done|].
  destruct names as [|n0 names']; [exists c; by rewrite <-Hc, Hf, app_nil_r|].
  destruct (exists_last (l := n0 :: names')) as (init & n & E); [done|]. rewrite E in *.
  rewrite removelast_last. rewrite fmap_app, app_assoc, Hc in Hf. by apply app_inj_tail in Hf as [Hf _].
Qed.

Lemma run_vfs_op_logs {F W} (calls : PathCalls F W) vfs op :
  lv_root vfs ≠ [] → logs (permitted (lv_root vfs) op) (run_vfs_op (H := recording calls) vfs op).
Proof.
  intros Hr. pose proof (λ p full, resolve_under vfs p full Hr) as Hres.
  destruct op as [p|p|from to|p|dir]; cbn [run_vfs_op].
  - apply logs_bind; [|intros; apply logs_ret]. apply logs_lift_bind. intros full Hp. apply logs_bind.
    + destruct (parent full) as [d|] eqn:Hd; [|apply logs_ret].
      destruct (decide (d = [])) as [->|Hne]; [apply logs_ret|].
      case_match; [|apply logs_ret]. apply logs_logged. by eapply permitted_parent; eauto.
    + intros []. apply logs_bind; [|intros; apply logs_ret]. apply logs_logged. by apply Hres.
  - apply logs_bind; [|intros; apply logs_ret]. apply logs_lift_bind. intros full Hp.
    apply logs_bind; [|intros; apply logs_ret]. apply logs_logged. by apply Hres.
  - apply logs_lift_bind. intros f Hf. apply logs_lift_bind. intros t Ht.
    apply logs_logged. split; by apply Hres.
  - apply logs_lift_bind. intros full Hp. apply logs_or_missing, logs_logged. by apply Hres.
  - apply logs_bind; [|intros; apply logs_ret]. intros s Hs.
    assert (∀ target, resolves (lv_root vfs) dir target →
      logs (permitted (lv_root vfs) (ListDir dir))
        (read ← or_missing (p_read_dir (PathCalls := recording calls) target) []; st_lift (utf8_names read))) as Hread.
    { intros t Ht. apply logs_bind; [|intros; apply logs_lift]. by apply logs_or_missing, logs_logged. }
    unfold linux_list. case_match eqn:Hroot.
    + apply Hread; [|done]. exists []. rewrite app_nil_r. split; [|done].
      by apply orb_prop in Hroot as [->%bool_decide_eq_true| ->%bool_decide_eq_true].
    + revert Hs. apply logs_lift_bind. eauto.
Qed.

(** C30. Which paths reach the system.  Whatever path a caller passes to a
    [LinuxVfs] with a non-empty root, the calls that open, rename, remove or
    list get the root followed by exactly the names of the caller's path, and a
    path with [..] or an absolute one reaches no call.  The [create_dir_all]
    that precedes an open for writing gets the root followed by all those names
    but the last, with one exception: if the caller's path names nothing (it is
    the root itself) it gets the directory just above the root. *)
Theorem linux_vfs_confined {F W} (calls : PathCalls F W) vfs op (w : W) (Hroot : lv_root vfs ≠ []) :
  Forall (permitted (lv_root vfs) op) (run_vfs_op (H := recording calls) vfs op (w, [])).2.2.
Proof. by apply run_vfs_op_logs. Qed.

(** Calls that all succeed and do nothing. *)
Definition quiet_calls : PathCalls () () := {|
  p_create_dir_all _ := mret tt; p_open_create _ := mret tt; p_open_read _ := mret tt;
  p_rename _ _ := mret tt; p_remove_file _ := mret tt; p_read_dir _ := mret [] |}.

Definition demo_vfs : LinuxVfs := {| lv_root := String.list_ascii_of_string "/var/data" |}.

Definition demo_open : vfs_op := OpenWritable (String.list_ascii_of_string "./db/000001.wal").

Lemma linux_vfs_confined_witness :
  (run_vfs_op (H := recording quiet_calls) demo_vfs demo_open (tt, [])).2.2 =
    [CreateDirAll (String.list_ascii_of_string "/var/data/./db");
     OpenCreate (String.list_ascii_of_string "/var/data/./db/000001.wal")] ∧
  Forall (permitted (lv_root demo_vfs) demo_open) (run_vfs_op (H := recording quiet_calls) demo_vfs demo_open (tt, [])).2.2.
Proof. split; [by vm_compute|]. by apply (linux_vfs_confined quiet_calls demo_vfs demo_open tt). Defined.

(** The exception at work: opening the root itself for writing asks for the
    directory above it to be created. *)
Theorem open_dot_leaves_root :
  (run_vfs_op (H := recording quiet_calls) demo_vfs (OpenWritable dot) (tt, [])).2.2 =
    [CreateDirAll (String.list_ascii_of_string "/var"); OpenCreate (String.list_ascii_of_string "/var/data/.")].
Proof. by vm_compute. Qed.
