(* ===== verification/LinuxLaws.v ===== *)
(** [LinuxVfs] as a file system for the engine: the [impl Vfs for LinuxVfs] of
    [crates/paddock-core/src/io/linux_vfs.rs] satisfies [VfsLaws].

    The system calls on paths are parameters; [DirLaws] is what POSIX promises
    of them about the files of one directory, the root of the [LinuxVfs].  The
    engine's data directory is [.], as [paddock-server] passes it. *)

From S2P Require Import Prelude Vfs VfsLaws LinuxFile LinuxVfs.

(** * The calls on the files of a directory *)

(** [p] spells the entry [name] of [root]. *)
Definition spells (root p name : path) : Prop := components p = components root ++ [Normal name].

(** [d_entry] is the file behind a name in the root, [d_ok] that the root holds
    only regular files, each under one name. *)
Class DirState (F W : Type) := {
  d_ok : W → Prop;
  d_entry : W → path → option F;
  d_live : W → F → Prop
}.

Section Frames.
Context {F W : Type} `{DirState F W}.

(** The same files under the same names. *)
Record same_dir (w w' : W) : Prop := {
  sm_ok : d_ok w → d_ok w';
  sm_entry name : d_entry w' name = d_entry w name;
  sm_live g : d_live w g → d_live w' g
}.

(** The same names but for [name]; no file changes. *)
Record entry_frame `{!Kernel F W} `{!KernelLaws F W} (name : path) (w w' : W) : Prop := {
  ef_ok : d_ok w → d_ok w';
  ef_entry other : other ≠ name → d_entry w' other = d_entry w other;
  ef_live g : d_live w g → d_live w' g;
  ef_contents g : d_live w g → k_contents g w' = k_contents g w
}.
End Frames.

Class DirLaws (F W : Type) `{!Kernel F W} `{!KernelLaws F W} `{!PathCalls F W} `{!DirState F W} (root : path) := {
  entry_name w name f :
    d_ok w → d_entry w name = Some f →
    (slash ∉ name) ∧ segment_component name = Some (Normal name) ∧ len name ≤ MAX_NAME_LEN;
  entry_live w name f : d_ok w → d_entry w name = Some f → d_live w f;
  entry_inj w a b f : d_ok w → d_entry w a = Some f → d_entry w b = Some f → a = b;
  pwrite_dir f d off w : same_dir w (k_pwrite f d off w).2;
  fdatasync_dir f w : same_dir w (k_fdatasync f w).2;
  create_root_dir w : same_dir w (p_create_dir_all root w).2;
  create_root_contents g w : k_contents g (p_create_dir_all root w).2 = k_contents g w;
  create_root_Err w w' e : p_create_dir_all root w = (Err e, w') → k_write_faults F W;
  create_dir_all_returns p w : returns (p_create_dir_all p w).1;
  open_create_returns p w : returns (p_open_create p w).1;
  open_create_frame p name w : spells root p name → entry_frame name w (p_open_create p w).2;
  open_create_Ok p name w w' f :
    p_open_create p w = (Ok f, w') → spells root p name → d_ok w →
    d_entry w' name = Some f ∧ d_live w' f ∧ (d_entry w name = None → ¬ d_live w f ∧ k_contents f w' = []) ∧
    (∀ g, d_entry w name = Some g → f = g);
  open_create_Err p name w w' e :
    p_open_create p w = (Err e, w') → spells root p name → len name ≤ MAX_NAME_LEN → k_write_faults F W;
  open_read_pure p w : (p_open_read p w).2 = w;
  open_read_returns p w : returns (p_open_read p w).1;
  open_read_Ok p name w f :
    (p_open_read p w).1 = Ok f → spells root p name → d_ok w → d_entry w name = Some f;
  open_read_Err p name w e :
    (p_open_read p w).1 = Err e → spells root p name → k_read_faults F W ∨ d_entry w name = None;
  remove_file_returns p w : returns (p_remove_file p w).1;
  remove_file_frame p name w : spells root p name → entry_frame name w (p_remove_file p w).2;
  remove_file_Ok p name w w' : p_remove_file p w = (Ok tt, w') → spells root p name → d_entry w' name = None;
  remove_file_Err p name w w' e :
    p_remove_file p w = (Err e, w') → spells root p name →
    d_entry w' name = None ∨ e ≠ Io IoNotFound ∧ d_entry w' name = d_entry w name;
  read_dir_pure p w : (p_read_dir p w).2 = w;
  read_dir_returns p w : returns (p_read_dir p w).1;
  read_dir_entries p w es :
    (p_read_dir p w).1 = Ok es → Forall (λ e, match e with Ok _ => True | Err _ => k_read_faults F W | _ => False end) es;
  read_dir_Ok w names :
    (p_read_dir root w).1 = Ok (Ok <$> names) → d_ok w →
    NoDup names ∧ ∀ name, name ∈ names ↔ is_Some (d_entry w name);
  read_dir_Err w e :
    (p_read_dir root w).1 = Err e →
    (∀ name, d_entry w name = None) ∨ e ≠ Io IoNotFound ∧ k_read_faults F W
}.

(** * The engine's view *)

Definition of_string (s : string) : path := String.list_ascii_of_string s.

(** The name of a file in the root. *)
Definition file_name (name : string) : bool :=
  negb (contains_slash name) && negb (bool_decide (name = EmptyString)) && negb (bool_decide (name = ".")) &&
  negb (bool_decide (name = "..")) && (len (of_string name) <=? MAX_NAME_LEN) &&
  valid_utf8 (path_bytes (of_string name)).

(** The name that a path of the engine spells. *)
Definition root_entry (p : string) : option path :=
  name ← strip_prefix "./" p;
  if file_name name then Some (of_string name) else None.

Section Instances.
Context {F W : Type} `{!Kernel F W} `{!PathCalls F W} (vfs : LinuxVfs).

Definition linux_list_dir (dir : string) (w : W) : outcome (list string) :=
  match (linux_list (F := F) vfs (of_string dir) w).1 with
  | Ok names => Ok (String.string_of_list_ascii <$> names)
  | Err e => Err e
  | Panic => Panic
  | OutOfFuel => OutOfFuel
  end.

(** [impl Vfs for LinuxVfs]. *)
Definition linux_vfs : Vfs (LinuxFile F) W := {|
  vfs_file := linux_vfs_file;
  open_writable := λ p, linux_open_writable vfs (of_string p);
  open_readonly := λ p w, (linux_open_readonly vfs (of_string p) w).1;
  rename := λ from to, linux_rename (F := F) vfs (of_string from) (of_string to);
  remove := λ p, linux_remove (F := F) vfs (of_string p);
  list_dir := linux_list_dir |}.

Definition linux_vfs_state `{!DirState F W} : VfsState (LinuxFile F) W := {|
  vfs_ok := d_ok;
  path_ok := λ p, is_Some (root_entry p);
  dir_ok := λ dir, dir = ".";
  named := λ w p, name ← root_entry p; Build_LinuxFile <$> d_entry w name;
  live := λ w f, d_live w (lx_inner f) |}.
End Instances.

(** * Names *)

Lemma of_to_string l : of_string (String.string_of_list_ascii l) = l.
Proof. apply String.list_ascii_of_string_of_list_ascii. Qed.

Lemma to_of_string s : String.string_of_list_ascii (of_string s) = s.
Proof. apply String.string_of_list_ascii_of_string. Qed.

Lemma valid_utf8_ascii s : Forall (λ b, b < 128) s → valid_utf8 s = true.
Proof. induction 1 as [|b s Hb _ IH]; [done|]. cbn. by rewrite (proj2 (Z.ltb_lt _ _)). Qed.

Lemma plain_file_name name : plain_name name = true → file_name name = true.
Proof.
  intros Hp. pose proof (plain_no_slash _ Hp) as Hs. unfold plain_name in Hp. unfold file_name. rewrite Hs.
  fold (of_string name) in Hp.
  apply andb_prop in Hp as [[[[Hc ->]%andb_prop ->]%andb_prop ->]%andb_prop ->]. cbn [negb andb].
  apply valid_utf8_ascii, Forall_fmap, Forall_forall. intros c Hin. rewrite forallb_forall in Hc.
  apply list_elem_of_In, Hc in Hin. unfold plain_char in Hin. apply andb_prop in Hin as [_ Hlt]. cbn. lia.
Qed.

Lemma root_entry_in name : root_entry ("." +:+ "/" +:+ name) = if file_name name then Some (of_string name) else None.
Proof. done. Qed.

Lemma root_entry_Some p n :
  root_entry p = Some n → ∃ name, p = "./" +:+ name ∧ n = of_string name ∧ file_name name = true.
Proof.
  unfold root_entry. destruct (strip_prefix "./" p) as [name|] eqn:E; [|done]. cbn. destruct (file_name name) eqn:Hn; [|done].
  intros [= <-]. apply strip_prefix_Some in E. eauto.
Qed.

Lemma root_entry_inj p q n : root_entry p = Some n → root_entry q = Some n → p = q.
Proof.
  intros (a & -> & Ha & _)%root_entry_Some (b & -> & Hb & _)%root_entry_Some. f_equal.
  rewrite <-(to_of_string a), <-(to_of_string b). congruence.
Qed.

(** The pieces of such a path. *)
Lemma file_name_segment name :
  file_name name = true → segments (of_string name) = [of_string name] ∧
    segment_component (of_string name) = Some (Normal (of_string name)).
Proof.
  unfold file_name. intros [[[[[Hs He]%andb_prop Hd]%andb_prop Hdd]%andb_prop _]%andb_prop _]%andb_prop. split.
  - apply segments_one. intros Hin. apply negb_true_iff in Hs. unfold contains_slash in Hs.
    apply not_true_iff_false in Hs. apply Hs, existsb_exists. exists slash. split; [by apply list_elem_of_In|].
    apply Ascii.eqb_refl.
  - rewrite !negb_true_iff, !bool_decide_eq_false in He, Hd, Hdd.
    assert (∀ s, name ≠ s → of_string name ≠ of_string s) as Hne.
    { intros s Hns E. apply Hns. by rewrite <-(to_of_string name), E, to_of_string. }
    unfold segment_component, inert. rewrite (bool_decide_eq_false_2 (of_string name = [])) by (by apply (Hne EmptyString)).
    rewrite (bool_decide_eq_false_2 (of_string name = dot)) by (by apply (Hne ".")).
    by rewrite (bool_decide_eq_false_2 (of_string name = dotdot)) by (by apply (Hne "..")).
Qed.

Lemma entry_segments p n : root_entry p = Some n → segments (of_string p) = [dot; n] ∧ segment_component n = Some (Normal n).
Proof.
  intros (name & -> & -> & [Hs Hc]%file_name_segment)%root_entry_Some. split; [|done].
  change (of_string ("./" +:+ name)) with (dot ++ slash :: of_string name). by rewrite segments_app, Hs.
Qed.

Section Resolve.
Context (vfs : LinuxVfs) (Hroot : lv_root vfs ≠ []).

Lemma resolve_entry p n :
  root_entry p = Some n →
  let full := path_join (lv_root vfs) (of_string p) in
  resolve vfs (of_string p) = Ok full ∧ spells (lv_root vfs) full n.
Proof using Hroot.
  intros He. pose proof (entry_segments _ _ He) as [Hs Hc]. apply root_entry_Some in He as (name & Ep & _).
  assert (is_absolute (of_string p) = false) as Ha by (by rewrite Ep).
  assert (components (of_string p) = [CurDir; Normal n]) as Hcs.
  { unfold components, lead. rewrite Ha, Hs. cbn. by rewrite Hc. }
  split.
  - unfold resolve. rewrite Ha, Hcs. rewrite bool_decide_eq_false_2; [done|]. by rewrite Ep.
  - unfold spells. rewrite components_join, Hs by done. cbn. by rewrite Hc.
Qed.

Lemma spells_parent p n dir :
  spells (lv_root vfs) p n → parent p = Some dir → dir ≠ [] → components dir = components (lv_root vfs).
Proof.
  intros Hp Hd Hne. destruct (parent_components _ _ Hd Hne) as [c Hc]. unfold spells in Hp. rewrite Hc in Hp.
  by apply app_inj_tail in Hp as [-> _].
Qed.

(** Opening a file of the root for writing makes no directory. *)
Lemma open_writable_entry {F W} `{PathCalls F W} p n :
  root_entry p = Some n → ∃ full, spells (lv_root vfs) full n ∧
    ∀ w : W, linux_open_writable (F := F) vfs (of_string p) w = (file ← p_open_create full; mret (Build_LinuxFile file)) w.
Proof using Hroot.
  intros He. destruct (resolve_entry p n He) as [Hr Hs]. eexists. split; [exact Hs|]. intros w.
  unfold linux_open_writable. rewrite (run_lift _ _ _ _ Hr).
  destruct (parent _) as [dir|] eqn:Hd; [|done]. destruct (decide (dir = [])) as [->|Hne]; [done|].
  rewrite (bool_decide_eq_true_2 (components dir = _)) by (by eapply spells_parent). by rewrite andb_false_r.
Qed.
End Resolve.

(** * The laws *)

Section SameDir.
Context {F W : Type} `{DirState F W}.

#[global] Instance same_dir_refl : Reflexive (same_dir (F := F) (W := W)).
Proof. by split. Qed.

#[global] Instance same_dir_trans : Transitive (same_dir (F := F) (W := W)).
Proof.
  intros w1 w2 w3 [Ho He Hl] [Ho' He' Hl']. split; [by auto|intros name; by rewrite He'|by auto].
Qed.
End SameDir.

Lemma returns_st_bind {S A B} (m : st S A) (k : A → st S B) s :
  returns (m s).1 → (∀ a s', returns (k a s').1) → returns ((m ≫= k) s).1.
Proof. unfold mbind, st_bind. by destruct (m s) as [[a| | |] s']. Qed.

Section Laws.
Context {F W : Type} (vfs : LinuxVfs) `{!Kernel F W} `{!KernelLaws F W} `{!PathCalls F W} `{!DirState F W}
  `{!DirLaws F W (lv_root vfs)} (Hroot : lv_root vfs ≠ []).

#[local] Existing Instance linux_vfs_state.
#[local] Instance here : Vfs (LinuxFile F) W := linux_vfs vfs.

Lemma write_all_dir fuel (f : F) d off (w : W) : same_dir w (write_all_at fuel f d off w).2.
Proof.
  revert d off w. induction fuel as [|fuel IH]; intros [|x d] off w; cbn [write_all_at]; try done.
  pose proof (pwrite_dir f (x :: d) (to_i64 off) w) as Hs.
  destruct (k_pwrite f (x :: d) (to_i64 off) w) as [[n|e| |] w1]; cbn [snd] in Hs; try done.
  - case_match; [done|]. etrans; [exact Hs|apply IH].
  - destruct e as [[]| | | | | |]; try done. etrans; [exact Hs|apply IH].
Qed.

Lemma named_entry (w : W) p :
  named w p = match root_entry p with Some n => Build_LinuxFile <$> d_entry w n | None => None end.
Proof. done. Qed.

Lemma same_dir_only f (w w' : W) :
  same_dir w w' → (∀ g : LinuxFile F, f ≠ g → contents g w' = contents g w) → only_writes f w w'.
Proof.
  intros [Ho He Hl] Hc. split; [done| |intros g; apply Hl|done].
  intros p. rewrite !named_entry. destruct (root_entry p); [|done]. cbn. by rewrite He.
Qed.

Lemma linux_append_only f d (w : W) : only_writes f w (linux_append f d w).2.
Proof.
  apply same_dir_only; [|intros g Hne; exact (append_frame f g d w Hne)].
  unfold linux_append, mbind, st_bind, st_get, st_lift. destruct (k_len (lx_inner f) w) as [n| | |]; try done.
  pose proof (write_all_dir (length d) (lx_inner f) d n w) as Hs.
  by destruct (write_all_at (length d) (lx_inner f) d n w) as [[] w'].
Qed.

(** A call that touches one name. *)
Lemma frame_only p n (w w' : W) : root_entry p = Some n → entry_frame n w w' → only_names p w w'.
Proof.
  intros He [Ho Hn Hl Hc]. split; [done| |intros g; apply Hl|intros g; apply Hc].
  intros q Hq. rewrite !named_entry. destruct (root_entry q) as [m|] eqn:Em; [|done]. cbn. rewrite Hn; [done|].
  intros ->. apply Hq. by eapply root_entry_inj.
Qed.

Lemma linux_open_writable_frame p n (w : W) :
  root_entry p = Some n → entry_frame n w (linux_open_writable (F := F) vfs (of_string p) w).2.
Proof using All.
  intros He. destruct (open_writable_entry vfs Hroot p n He) as (full & Hs & E). rewrite E.
  pose proof (open_create_frame full n w Hs) as Hf. unfold mbind, st_bind.
  by destruct (p_open_create full w) as [[] w'].
Qed.

Lemma linux_open_writable_Ok p n (w w' : W) (f : LinuxFile F) :
  linux_open_writable vfs (of_string p) w = (Ok f, w') → root_entry p = Some n → d_ok w →
  d_entry w' n = Some (lx_inner f) ∧ d_live w' (lx_inner f) ∧
  (d_entry w n = None → ¬ d_live w (lx_inner f) ∧ k_contents (lx_inner f) w' = []) ∧
  (∀ g, d_entry w n = Some g → lx_inner f = g).
Proof using All.
  intros E He Hok. destruct (open_writable_entry (F := F) (W := W) vfs Hroot p n He) as (full & Hs & Ew). rewrite Ew in E.
  unfold mbind, st_bind in E. destruct (p_open_create full w) as [[g|e| |] w1] eqn:Ec; try done.
  injection E as <- <-. cbn. by eapply open_create_Ok.
Qed.

Lemma linux_open_writable_Err p n (w w' : W) e :
  linux_open_writable (F := F) vfs (of_string p) w = (Err e, w') → root_entry p = Some n → k_write_faults F W.
Proof using All.
  intros E He. destruct (open_writable_entry (F := F) (W := W) vfs Hroot p n He) as (full & Hs & Ew). rewrite Ew in E.
  unfold mbind, st_bind in E. destruct (p_open_create full w) as [[g|e'| |] w1] eqn:Ec; try done.
  apply root_entry_Some in He as (name & _ & -> & Hn). eapply open_create_Err; [exact Ec|exact Hs|].
  unfold file_name in Hn. apply andb_prop in Hn as [[_ Hl]%andb_prop _]. lia.
Qed.

Lemma resolve_returns p : returns (resolve vfs p).
Proof. unfold resolve. by repeat case_match. Qed.

Lemma linux_open_writable_returns p (w : W) : returns (linux_open_writable (F := F) vfs p w).1.
Proof using All.
  apply returns_st_bind; [apply resolve_returns|]. intros full w1. apply returns_st_bind.
  - destruct (parent full); [|done]. case_match; [apply create_dir_all_returns|done].
  - intros [] w2. apply returns_st_bind; [apply open_create_returns|done].
Qed.

Lemma linux_open_readonly_run p n (w : W) :
  root_entry p = Some n → ∃ full, spells (lv_root vfs) full n ∧
    open_readonly p w = match (p_open_read full w).1 with
      | Ok f => Ok (Build_LinuxFile f) | Err e => Err e | Panic => Panic | OutOfFuel => OutOfFuel end.
Proof using Hroot.
  intros He. destruct (resolve_entry vfs Hroot p n He) as [Hr Hs]. eexists. split; [exact Hs|].
  unfold open_readonly. cbn -[linux_open_readonly]. unfold linux_open_readonly. rewrite (run_lift _ _ _ _ Hr).
  unfold mbind, st_bind. by destruct (p_open_read _ w) as [[] w'].
Qed.

Lemma linux_remove_run p n (w : W) :
  root_entry p = Some n → ∃ full, spells (lv_root vfs) full n ∧ remove p w = or_missing (p_remove_file full) tt w.
Proof using Hroot.
  intros He. destruct (resolve_entry vfs Hroot p n He) as [Hr Hs]. eexists. split; [exact Hs|].
  unfold remove. cbn -[linux_remove]. unfold linux_remove. by rewrite (run_lift _ _ _ _ Hr).
Qed.

Lemma or_missing_state {A} (m : st W A) a (w : W) : (or_missing m a w).2 = (m w).2.
Proof. unfold or_missing. by destruct (m w) as [[|[[]| | | | | |]| |] w']. Qed.

Lemma or_missing_returns {A} (m : st W A) a (w : W) : returns (m w).1 → returns (or_missing m a w).1.
Proof. unfold or_missing. by destruct (m w) as [[|[[]| | | | | |]| |] w']. Qed.

Lemma or_missing_Ok {A} (m : st W A) a b (w w' : W) :
  or_missing m a w = (Ok b, w') → m w = (Ok b, w') ∨ m w = (Err (Io IoNotFound), w') ∧ b = a.
Proof. unfold or_missing. destruct (m w) as [[|[[]| | | | | |]| |] w1]; intros [= <- <-]; auto. Qed.

Lemma or_missing_Err {A} (m : st W A) a e (w w' : W) : or_missing m a w = (Err e, w') → m w = (Err e, w').
Proof. unfold or_missing. by destruct (m w) as [[|[[]| | | | | |]| |] w1]. Qed.

Lemma linux_list_run (w : W) :
  list_dir "." w = match (or_missing (p_read_dir (F := F) (lv_root vfs)) [] w).1 with
    | Ok es => match utf8_names es with
        | Ok l => Ok (String.string_of_list_ascii <$> l) | Err e => Err e | Panic => Panic | OutOfFuel => OutOfFuel end
    | Err e => Err e | Panic => Panic | OutOfFuel => OutOfFuel end.
Proof.
  change (list_dir "." w) with (linux_list_dir (F := F) vfs "." w). unfold linux_list_dir.
  change (linux_list (F := F) vfs (of_string ".") w) with
    ((read ← or_missing (p_read_dir (F := F) (lv_root vfs)) []; st_lift (utf8_names read)) w).
  unfold mbind, st_bind, st_lift. destruct (or_missing _ _ w) as [[es| | |] w']; try done.
Qed.

Lemma utf8_names_Ok es l :
  utf8_names es = Ok l → ∃ all, es = Ok <$> all ∧ l = filter (λ n, valid_utf8 (path_bytes n) = true) all.
Proof.
  revert l. induction es as [|e es IH]; intros l; cbn; [intros [= <-]; by exists []|].
  destruct e as [n|e| |]; try done. cbn. destruct (utf8_names es) as [names|e| |]; try done. cbn.
  destruct (IH names eq_refl) as (all & -> & ->). intros [= <-]. exists (n :: all). split; [done|].
  rewrite filter_cons. by destruct (valid_utf8 (path_bytes n)).
Qed.

Lemma utf8_names_Err es :
  Forall (λ e, match e with Ok _ => True | Err _ => k_read_faults F W | _ => False end) es →
  match utf8_names es with Ok _ => True | Err _ => k_read_faults F W | _ => False end.
Proof.
  induction 1 as [|e es He _ IH]; [done|]. cbn. destruct e; try done. cbn. by destruct (utf8_names es).
Qed.

Lemma entry_file_name (w : W) n f :
  d_ok w → d_entry w n = Some f →
  file_name (String.string_of_list_ascii n) = valid_utf8 (path_bytes n).
Proof using DirLaws0.
  intros Hok Hn. destruct (entry_name _ _ _ Hok Hn) as (Hs & Hc & Hl). unfold file_name. rewrite of_to_string.
  assert (contains_slash (String.string_of_list_ascii n) = false) as ->.
  { apply not_true_is_false. unfold contains_slash. rewrite String.list_ascii_of_string_of_list_ascii.
    intros (c & Hin & <-%Ascii.eqb_eq)%existsb_exists. by apply Hs, list_elem_of_In. }
  assert (∀ s, segment_component (of_string s) ≠ Some (Normal (of_string s)) → String.string_of_list_ascii n ≠ s) as Hne.
  { intros s Hs' <-. rewrite of_to_string in Hs'. done. }
  rewrite (proj2 (Z.leb_le _ _) Hl). by rewrite !bool_decide_eq_false_2 by (by apply Hne).
Qed.

Lemma linux_list_Ok (w : W) names :
  list_dir "." w = Ok names → d_ok w →
  NoDup names ∧ ∀ name, name ∈ names ↔ contains_slash name = false ∧ is_Some (named w ("." +:+ "/" +:+ name)).
Proof using DirLaws0.
  rewrite linux_list_run. destruct (or_missing _ _ w) as [[es|e| |] w'] eqn:E; try done. cbn [fst].
  destruct (utf8_names es) as [l|e| |] eqn:El; try done. intros [= <-] Hok.
  assert (∀ name, is_Some (named w ("." +:+ "/" +:+ name)) ↔
    file_name name = true ∧ is_Some (d_entry w (of_string name))) as Hnamed.
  { intros name. rewrite named_entry, root_entry_in. destruct (file_name name); [|split; [intros []|intros []]; done].
    rewrite fmap_is_Some. tauto. }
  apply or_missing_Ok in E as [E|[E ->]].
  - destruct (utf8_names_Ok _ _ El) as (all & -> & ->).
    destruct (read_dir_Ok w all) as [Hnd Hall]; [by rewrite E|done|]. split.
    + apply NoDup_fmap; [|by apply NoDup_filter]. intros a b Hab. by rewrite <-(of_to_string a), Hab, of_to_string.
    + intros name. rewrite Hnamed, list_elem_of_fmap. split.
      * intros (n & -> & [Hv Hin]%list_elem_of_filter). apply Hall in Hin as [f Hf]. rewrite of_to_string, Hf.
        rewrite (entry_file_name _ _ _ Hok Hf). split_and!; [|done|done].
        destruct (entry_name _ _ _ Hok Hf) as [Hs _]. apply not_true_is_false. unfold contains_slash.
        rewrite String.list_ascii_of_string_of_list_ascii.
        intros (c & Hin & <-%Ascii.eqb_eq)%existsb_exists. by apply Hs, list_elem_of_In.
      * intros (_ & Hn & Hf). exists (of_string name). rewrite to_of_string. split; [done|].
        apply list_elem_of_filter. split; [|by apply Hall]. destruct Hf as [f Hf].
        by rewrite <-(entry_file_name _ _ _ Hok Hf), to_of_string.
  - injection El as <-. split; [constructor|]. intros name. rewrite Hnamed.
    destruct (read_dir_Err w (Io IoNotFound)) as [Hnone|[Hne _]]; [by rewrite E| |done]. rewrite Hnone.
    split; [intros []%elem_of_nil|intros (_ & _ & [])]; done.
Qed.

Lemma linux_list_Err (w : W) e :
  list_dir "." w = Err e → k_read_faults F W ∨ ∀ name, named w ("." +:+ "/" +:+ name) = None.
Proof using DirLaws0.
  rewrite linux_list_run. destruct (or_missing _ _ w) as [[es|e'| |] w'] eqn:E; try done; cbn [fst].
  - intros Hu. left. apply or_missing_Ok in E as [E|[_ ->]]; [|done].
    pose proof (utf8_names_Err es) as He. destruct (utf8_names es); try done.
    apply He. eapply read_dir_entries. by rewrite E.
  - intros [= <-]. apply or_missing_Err in E. destruct (read_dir_Err w e') as [Hn|[_ Hf]]; [by rewrite E| |by left].
    right. intros name. rewrite named_entry. destruct (root_entry _); [|done]. by rewrite Hn.
Qed.

Lemma linux_list_returns dir (w : W) : returns (list_dir dir w).
Proof using DirLaws0.
  change (list_dir dir w) with (linux_list_dir (F := F) vfs dir w). unfold linux_list_dir.
  enough (returns (linux_list (F := F) vfs (of_string dir) w).1) as Hr by (by destruct (linux_list _ _ w) as [[] ?]).
  apply returns_st_bind; [case_match; [done|apply resolve_returns]|]. intros target w1.
  unfold mbind, st_bind. pose proof (read_dir_returns (F := F) target w1) as Hret.
  destruct (or_missing _ _ w1) as [[es|e| |] w2] eqn:E; try done.
  - pose proof (utf8_names_Err es) as He. unfold st_lift. cbn [fst]. apply or_missing_Ok in E as [E|[_ ->]]; [|done].
    destruct (utf8_names es); try done; apply He; eapply read_dir_entries; by rewrite E.
  - by apply (or_missing_returns _ []) in Hret; rewrite E in Hret.
  - by apply (or_missing_returns _ []) in Hret; rewrite E in Hret.
Qed.

(** Opening for reading and listing leave the state as it was. *)
Lemma linux_reads_pure (w : W) p dir :
  (linux_open_readonly (F := F) vfs p w).2 = w ∧ (linux_list (F := F) vfs dir w).2 = w.
Proof using DirLaws0.
  unfold linux_open_readonly, linux_list, mbind, st_bind, st_lift. split.
  - destruct (resolve vfs p) as [full| | |]; try done. pose proof (open_read_pure full w) as Hp.
    by destruct (p_open_read full w) as [[] w'].
  - assert (∀ t, (or_missing (p_read_dir (F := F) t) [] w).2 = w) as Hp by (intros t; rewrite or_missing_state; apply read_dir_pure).
    destruct (bool_decide (dir = []) || bool_decide (dir = dot)).
    + cbn [mret st_ret]. specialize (Hp (lv_root vfs)). by destruct (or_missing _ _ w) as [[] w'].
    + destruct (resolve vfs dir) as [t| | |]; try done. specialize (Hp t). by destruct (or_missing _ _ w) as [[] w'].
Qed.

Lemma named_Some (w : W) p f : named w p = Some f → ∃ n, root_entry p = Some n ∧ d_entry w n = Some (lx_inner f).
Proof.
  rewrite named_entry. destruct (root_entry p) as [n|]; [|done]. intros (g & Hg & ->)%fmap_Some. by exists n.
Qed.

Lemma named_at (w : W) p n : root_entry p = Some n → named w p = Build_LinuxFile <$> d_entry w n.
Proof. intros He. rewrite named_entry. by rewrite He. Qed.

Lemma linux_vfs_laws : VfsLaws (LinuxFile F) W.
Proof using All.
  split.
  - intros dir name -> Hp%plain_file_name. unfold path_ok, linux_vfs_state. rewrite root_entry_in, Hp. done.
  - intros w p f (n & Hn & _)%named_Some. by exists n.
  - intros w p f Hok (n & _ & Hn)%named_Some. by eapply entry_live.
  - intros w p q f Hok (n & Hn & Hf)%named_Some (m & Hm & Hg)%named_Some.
    rewrite (entry_inj _ _ _ _ Hok Hf Hg) in Hn. by eapply root_entry_inj.
  - intros f d w. apply linux_append_only.
  - intros f d off w. apply same_dir_only; [apply write_all_dir|].
    intros g Hne. exact (write_at_frame f g d off w Hne).
  - intros f w. apply same_dir_only; [apply fdatasync_dir|]. intros g _. exact (sync_contents f g w).
  - intros p w [n Hn]. eapply frame_only; [exact Hn|by apply linux_open_writable_frame].
  - intros p w. apply linux_open_writable_returns.
  - intros p w w' e E [n Hn]. left. exact (linux_open_writable_Err p n w w' e E Hn).
  - intros p w w' f E [n Hn] Hok. destruct (linux_open_writable_Ok p n w w' f E Hn Hok) as (He & Hl & _).
    split; [|done]. rewrite (named_at _ _ _ Hn), He. by destruct f.
  - intros p w w' f E [n Hn] Hok Hnone. rewrite (named_at _ _ _ Hn) in Hnone. apply fmap_None in Hnone.
    destruct (linux_open_writable_Ok p n w w' f E Hn Hok) as (_ & _ & Hnew & _). by apply Hnew.
  - intros p w w' f g E Hok (n & Hn & Hg)%named_Some.
    destruct (linux_open_writable_Ok p n w w' f E Hn Hok) as (_ & _ & _ & Hold). apply Hold in Hg.
    destruct f, g. cbn in Hg. by rewrite Hg.
  - intros p w f E [n Hn] Hok. destruct (linux_open_readonly_run p n w Hn) as (full & Hs & Er). rewrite Er in E.
    destruct (p_open_read full w).1 eqn:Eo; try done. injection E as <-. rewrite (named_at _ _ _ Hn).
    by rewrite (open_read_Ok _ _ _ _ Eo Hs Hok).
  - intros p w e E. destruct (root_entry p) as [n|] eqn:Hn; [|right; by rewrite named_entry, Hn].
    destruct (linux_open_readonly_run p n w Hn) as (full & Hs & Er). rewrite Er in E.
    destruct (p_open_read full w).1 eqn:Eo; try done. injection E as <-.
    destruct (open_read_Err _ _ _ _ Eo Hs) as [Hf|Hno]; [by left|right]. by rewrite (named_at _ _ _ Hn), Hno.
  - intros p w. apply returns_st_bind; [apply resolve_returns|]. intros full w1.
    apply returns_st_bind; [apply open_read_returns|done].
  - intros p w [n Hn]. eapply frame_only; [exact Hn|]. destruct (linux_remove_run p n w Hn) as (full & Hs & ->).
    rewrite or_missing_state. by apply remove_file_frame.
  - intros p w w' E [n Hn]. destruct (linux_remove_run p n w Hn) as (full & Hs & Er). rewrite Er in E.
    rewrite (named_at _ _ _ Hn). apply or_missing_Ok in E as [E|[E _]].
    + by rewrite (remove_file_Ok _ _ _ _ E Hs).
    + destruct (remove_file_Err _ _ _ _ _ E Hs) as [-> |[? _]]; done.
  - intros p w w' e E [n Hn]. destruct (linux_remove_run p n w Hn) as (full & Hs & Er). rewrite Er in E.
    apply or_missing_Err in E. rewrite !(named_at _ _ _ Hn).
    destruct (remove_file_Err _ _ _ _ _ E Hs) as [->|[_ ->]]; [by left|by right].
  - intros p w. apply returns_st_bind; [apply resolve_returns|]. intros full w1.
    apply or_missing_returns, remove_file_returns.
  - intros dir w names E Hd Hok. change (dir = ".") in Hd. subst dir. by apply linux_list_Ok.
  - intros dir w e E Hd. change (dir = ".") in Hd. subst dir. by eapply linux_list_Err.
  - intros dir w. apply linux_list_returns.
Qed.
End Laws.

(** * A concrete directory *)

(** The entry of [root] that a path spells. *)
Definition child (root p : path) : option string :=
  match drop (length (components root)) (components p) with
  | [Normal name] =>
      if bool_decide (take (length (components root)) (components p) = components root) && (len name <=? MAX_NAME_LEN)
      then Some (String.string_of_list_ascii name) else None
  | _ => None
  end.

Definition slow_open_create (root p : path) : st slow_disk Z := λ w,
  match child root p with
  | None => (Err (Io IoOther), w)
  | Some name =>
      match sd_names w !! name with
      | Some f => (Ok f, w)
      | None => (Ok (sd_next w), {| sd_files := base.delete (sd_next w) (sd_files w);
                                    sd_names := <[name := sd_next w]> (sd_names w); sd_next := sd_next w + 1 |})
      end
  end.

Definition slow_open_read (root p : path) : st slow_disk Z := λ w,
  match child root p with
  | None => (Err (Io IoOther), w)
  | Some name => (ok_or (sd_names w !! name) (Io IoNotFound), w)
  end.

Definition slow_remove (root p : path) : st slow_disk () := λ w,
  match child root p with
  | None => (Err (Io IoOther), w)
  | Some name =>
      match sd_names w !! name with
      | None => (Err (Io IoNotFound), w)
      | Some _ => (Ok tt, {| sd_files := sd_files w; sd_names := base.delete name (sd_names w); sd_next := sd_next w |})
      end
  end.

Definition slow_rename (root from to : path) : st slow_disk () := λ w,
  match child root from, child root to with
  | Some a, Some b =>
      match sd_names w !! a with
      | None => (Err (Io IoNotFound), w)
      | Some f =>
          (Ok tt, {| sd_files := sd_files w; sd_names := <[b := f]> (base.delete a (sd_names w)); sd_next := sd_next w |})
      end
  | _, _ => (Err (Io IoOther), w)
  end.

Definition slow_read_dir (root p : path) : st slow_disk (list (outcome path)) := λ w,
  if bool_decide (components p = components root)
  then (Ok ((λ name, Ok (of_string name)) <$> (map_to_list (sd_names w)).*1), w)
  else (Err (Io IoNotFound), w).

(** The calls of a disk with one directory, the given root. *)
Definition slow_calls (root : path) : PathCalls Z slow_disk := {|
  p_create_dir_all := λ _, mret tt; p_open_create := slow_open_create root; p_open_read := slow_open_read root;
  p_rename := slow_rename root; p_remove_file := slow_remove root; p_read_dir := slow_read_dir root |}.

#[global] Instance slow_dir : DirState Z slow_disk := {|
  d_ok := λ w,
    (∀ name f, sd_names w !! name = Some f →
       f < sd_next w ∧ (slash ∉ of_string name) ∧
       segment_component (of_string name) = Some (Normal (of_string name)) ∧ len (of_string name) ≤ MAX_NAME_LEN) ∧
    (∀ a b f, sd_names w !! a = Some f → sd_names w !! b = Some f → a = b);
  d_entry := λ w name, if len name <=? MAX_NAME_LEN then sd_names w !! String.string_of_list_ascii name else None;
  d_live := λ w f, f < sd_next w |}.

Lemma spells_child root p name :
  spells root p name → child root p = if len name <=? MAX_NAME_LEN then Some (String.string_of_list_ascii name) else None.
Proof.
  unfold spells, child. intros ->. by rewrite drop_app_length, take_app_length, bool_decide_eq_true_2.
Qed.

Lemma spells_proper root p name :
  spells root p name → (slash ∉ name) ∧ segment_component name = Some (Normal name).
Proof.
  intros Hs. assert (Normal name ∈ components p) as Hin by (rewrite Hs; set_solver).
  assert (∃ s, s ∈ segments p ∧ segment_component s = Some (Normal name)) as (s & Hseg & Hc).
  { unfold components in Hin. apply elem_of_app in Hin as [Hl|Ho]; [|by apply list_elem_of_omap].
    revert Hl. unfold lead. repeat case_match; rewrite ?list_elem_of_singleton, ?elem_of_nil; done. }
  assert (s = name) as -> by (unfold segment_component in Hc; repeat case_match; by simplify_eq).
  split; [|done]. pose proof (segments_plain p) as Hp. rewrite Forall_forall in Hp. by apply Hp.
Qed.

Lemma to_string_inj (a b : path) : String.string_of_list_ascii a = String.string_of_list_ascii b → a = b.
Proof. intros E. by rewrite <-(of_to_string a), E, of_to_string. Qed.

Section SlowLaws.
Context (root : path).
#[local] Instance slow_here : PathCalls Z slow_disk := slow_calls root.

Lemma slow_create_frame p name w : spells root p name → entry_frame name w (slow_open_create root p w).2.
Proof.
  intros Hs. pose proof (spells_proper _ _ _ Hs) as [Hp Hp']. unfold slow_open_create. rewrite (spells_child _ _ _ Hs).
  destruct (Z.leb_spec (len name) MAX_NAME_LEN) as [Hl|Hl]; [|by split].
  set (s := String.string_of_list_ascii name). destruct (sd_names w !! s) as [f|] eqn:E; [by split|].
  split; cbn.
  - intros [Hok Hinj]. split.
    + intros n f [[<- <-]|[_ [Hf Hn]%Hok]]%lookup_insert_Some; [|split; [lia|done]].
      unfold s. rewrite of_to_string. split_and!; [lia|done..].
    + intros a b f [[<- <-]|[Ha Hf]]%lookup_insert_Some [[<- Ef]|[Hb Hf']]%lookup_insert_Some; try done.
      * apply Hok in Hf' as [? _]. lia.
      * apply Hok in Hf as [? _]. lia.
      * by eapply Hinj.
  - intros other Hne. rewrite lookup_insert_ne; [done|]. intros E'. by apply Hne, to_string_inj.
  - lia.
  - intros g Hg. unfold slow_contents. cbn. rewrite lookup_delete_ne by lia. done.
Qed.

Lemma slow_create_Ok p name w w' f :
  slow_open_create root p w = (Ok f, w') → spells root p name → d_ok w →
  d_entry w' name = Some f ∧ d_live w' f ∧ (d_entry w name = None → ¬ d_live w f ∧ slow_contents f w' = []) ∧
  (∀ g, d_entry w name = Some g → f = g).
Proof.
  intros E Hs [Hok _]. unfold slow_open_create in E. rewrite (spells_child _ _ _ Hs) in E. cbn.
  destruct (len name <=? MAX_NAME_LEN); [|done].
  destruct (sd_names w !! String.string_of_list_ascii name) as [g|] eqn:En; injection E as <- <-; cbn.
  - rewrite En. destruct (Hok _ _ En) as [Hlt _]. split_and!; [done|done|done|congruence].
  - rewrite lookup_insert_eq. unfold slow_contents. cbn. rewrite lookup_delete_eq. split_and!; [done|lia|split; [lia|done]|done].
Qed.

Lemma slow_remove_frame p name w : spells root p name → entry_frame name w (slow_remove root p w).2.
Proof.
  intros Hs. unfold slow_remove. rewrite (spells_child _ _ _ Hs). destruct (len name <=? MAX_NAME_LEN); [|by split].
  set (s := String.string_of_list_ascii name). destruct (sd_names w !! s) as [f|] eqn:E; [|by split]. split; cbn.
  - intros [Hok Hinj]. split.
    + intros n g [_ Hg]%lookup_delete_Some. by apply Hok.
    + intros a b g [_ Ha]%lookup_delete_Some [_ Hb]%lookup_delete_Some. by eapply Hinj.
  - intros other Hne. rewrite lookup_delete_ne; [done|]. intros E'. by apply Hne, to_string_inj.
  - done.
  - done.
Qed.

Lemma slow_read_dir_Ok w names :
  (slow_read_dir root root w).1 = Ok (Ok <$> names) → d_ok w →
  NoDup names ∧ ∀ name, name ∈ names ↔ is_Some (d_entry w name).
Proof.
  unfold slow_read_dir. rewrite bool_decide_eq_true_2 by done. intros [= E] [Hok _].
  assert (names = of_string <$> (map_to_list (sd_names w)).*1) as ->.
  { revert E. generalize (map_to_list (sd_names w)).*1 as l. clear. intros l. revert names.
    induction l as [|n l IH]; intros [|m names]; try done. cbn. intros [= <- E]. f_equal. by apply IH. }
  split.
  - apply NoDup_fmap; [|apply NoDup_fst_map_to_list]. intros a b Hab. by rewrite <-(to_of_string a), Hab, to_of_string.
  - intros name. cbn. rewrite list_elem_of_fmap. split.
    + intros (n & -> & ([n' f] & -> & Hin%elem_of_map_to_list)%list_elem_of_fmap). rewrite to_of_string.
      destruct (Hok _ _ Hin) as (_ & _ & _ & Hl). cbn [fst]. rewrite (proj2 (Z.leb_le _ _) Hl). by exists f.
    + destruct (len name <=? MAX_NAME_LEN); [|by intros []]. intros [f Hf]. exists (String.string_of_list_ascii name).
      rewrite of_to_string. split; [done|]. apply list_elem_of_fmap. exists (String.string_of_list_ascii name, f).
      split; [done|]. by apply elem_of_map_to_list.
Qed.

#[global] Instance slow_dir_laws : DirLaws Z slow_disk root.
Proof.
  split; cbn.
  - intros w name f [Hok _]. case_match; [|done]. intros Hn. destruct (Hok _ _ Hn) as (_ & Hp).
    by rewrite of_to_string in Hp.
  - intros w name f [Hok _]. case_match; [|done]. intros Hn. by apply Hok in Hn as [? _].
  - intros w a b f [_ Hinj]. do 2 (case_match; [|done]). intros Ha Hb. by eapply to_string_inj, Hinj.
  - intros f d off w. unfold slow_pwrite. case_bool; [done|]. cbn zeta. by case_decide.
  - done.
  - done.
  - done.
  - done.
  - done.
  - intros p w. unfold slow_open_create. repeat case_match; done.
  - intros p name w. apply slow_create_frame.
  - intros p name w w' f. apply slow_create_Ok.
  - intros p name w w' e E Hs Hl. unfold slow_open_create in E. rewrite (spells_child _ _ _ Hs) in E.
    rewrite (proj2 (Z.leb_le _ _) Hl) in E. by case_match.
  - intros p w. unfold slow_open_read. by case_match.
  - intros p w. unfold slow_open_read. case_match; [|done]. apply returns_ok_or.
  - intros p name w f E Hs _. unfold slow_open_read in E. rewrite (spells_child _ _ _ Hs) in E.
    destruct (len name <=? MAX_NAME_LEN); [|done]. cbn in E.
    destruct (sd_names w !! String.string_of_list_ascii name); [|done]. by injection E as <-.
  - intros p name w e E Hs. unfold slow_open_read in E. rewrite (spells_child _ _ _ Hs) in E.
    destruct (len name <=? MAX_NAME_LEN); [|by right]. cbn in E.
    destruct (sd_names w !! String.string_of_list_ascii name); [done|by right].
  - intros p w. unfold slow_remove. repeat case_match; done.
  - intros p name w. apply slow_remove_frame.
  - intros p name w w' E Hs. unfold slow_remove in E. rewrite (spells_child _ _ _ Hs) in E.
    destruct (len name <=? MAX_NAME_LEN); [|done]. case_match; [|done]. injection E as <-. cbn. apply lookup_delete_eq.
  - intros p name w w' e E Hs. unfold slow_remove in E. rewrite (spells_child _ _ _ Hs) in E.
    destruct (len name <=? MAX_NAME_LEN); [|by left]. case_match; [done|]. injection E as <- <-. by left.
  - intros p w. unfold slow_read_dir. by case_match.
  - intros p w. unfold slow_read_dir. by case_match.
  - intros p w es. unfold slow_read_dir. case_match; [|done]. intros [= <-]. by apply Forall_fmap, Forall_true.
  - intros w names. apply slow_read_dir_Ok.
  - intros w e. unfold slow_read_dir. by rewrite bool_decide_eq_true_2.
Qed.
End SlowLaws.
