(* ===== verification/WalBatch.v ===== *)
(** Write batches and their wire format: [crates/paddock-core/src/wal/batch.rs].

    A batch is the payload of one WAL record.  [encode_batch] is the relation
    between a batch and its bytes the codec theorems use. *)

From S2P Require Import Prelude Varint.

(** * Data *)

Definition MAX_OPS_PER_BATCH : Z := Z.shiftl 1 20.
Definition OP_PUT : Z := 0.
Definition OP_DELETE : Z := 1.

Inductive Op :=
| Put (key value : bytes)
| Delete (key : bytes).

#[global] Instance Op_eq_dec : EqDecision Op.
Proof. solve_decision. Defined.

Record WriteBatch := { ops : list Op }.

(** * Operations *)

Definition encoded_size_hint (op : Op) : Z :=
  match op with
  | Put key value => 1 + MAX_VARINT_U32_BYTES + len key + MAX_VARINT_U32_BYTES + len value
  | Delete key => 1 + MAX_VARINT_U32_BYTES + len key
  end.

Definition batch_new : WriteBatch := {| ops := [] |}.

Definition batch_put (b : WriteBatch) (key value : bytes) : WriteBatch :=
  {| ops := ops b ++ [Put key value] |}.

Definition batch_delete (b : WriteBatch) (key : bytes) : WriteBatch :=
  {| ops := ops b ++ [Delete key] |}.

Definition batch_len (b : WriteBatch) : Z := len (ops b).
Definition batch_is_empty (b : WriteBatch) : bool :=
  match ops b with [] => true | _ :: _ => false end.

(** A length-prefixed byte string, as [encode_into] writes keys and values:
    [u32::try_from(..).expect(..)], the varint, the bytes. *)
Definition put_lenprefixed (out s : bytes) : outcome bytes :=
  n ← expect (try_u32 (len s));
  v ← put_varint_u32 n;
  Ok (out ++ v ++ s).

Definition encode_op (out : bytes) (op : Op) : outcome bytes :=
  match op with
  | Put key value =>
      out ← put_lenprefixed (out ++ [OP_PUT]) key;
      put_lenprefixed out value
  | Delete key => put_lenprefixed (out ++ [OP_DELETE]) key
  end.

Fixpoint encode_ops (out : bytes) (os : list Op) : outcome bytes :=
  match os with
  | [] => Ok out
  | op :: os => out ← encode_op out op; encode_ops out os
  end.

Definition encode_into (b : WriteBatch) (out : bytes) : outcome bytes :=
  count ← expect (try_u32 (len (ops b)));
  v ← put_varint_u32 count;
  encode_ops (out ++ v) (ops b).

(** [Vec::with_capacity(hint)] only reserves memory. *)
Definition encode (b : WriteBatch) : outcome bytes := encode_into b [].

Definition take_n (bytes : bytes) (n : Z) : outcome (list Z * list Z) :=
  if len bytes <? n then Err (Decode (UnexpectedEof (n - len bytes)))
  else Ok (take (Z.to_nat n) bytes, drop (Z.to_nat n) bytes).

(** The length, then the string: one field of an operation. *)
Definition decode_lenprefixed (bytes : bytes) : outcome (list Z * list Z) :=
  '(n, c) ← decode_u32 bytes;
  bytes ← slice_from bytes c;
  take_n bytes n.

Definition decode_op (bytes : bytes) : outcome (Op * list Z) :=
  match bytes with
  | [] => Err (Decode (UnexpectedEof 1))
  | tag :: bytes =>
      if tag =? OP_PUT then
        '(key, bytes) ← decode_lenprefixed bytes;
        '(value, bytes) ← decode_lenprefixed bytes;
        Ok (Put key value, bytes)
      else if tag =? OP_DELETE then
        '(key, bytes) ← decode_lenprefixed bytes;
        Ok (Delete key, bytes)
      else Err (InvalidFormat "WriteBatch" (Fmt "unknown op tag {}" [tag]))
  end.

(** [for _ in 0..op_count]. *)
Fixpoint decode_ops (op_count : nat) (os : list Op) (bytes : bytes) : outcome (list Op * list Z) :=
  match op_count with
  | O => Ok (os, bytes)
  | S op_count => '(op, bytes) ← decode_op bytes; decode_ops op_count (os ++ [op]) bytes
  end.

Definition decode (bytes : bytes) : outcome WriteBatch :=
  '(op_count, consumed) ← decode_u32 bytes;
  if MAX_OPS_PER_BATCH <? op_count
  then Err (InvalidFormat "WriteBatch" (Fmt "op_count {} exceeds limit {}" [op_count; MAX_OPS_PER_BATCH]))
  else
    bytes ← slice_from bytes consumed;
    '(os, bytes) ← decode_ops (Z.to_nat op_count) [] bytes;
    match bytes with
    | [] => Ok {| ops := os |}
    | _ :: _ => Err (InvalidFormat "WriteBatch" (Fmt "{} trailing bytes after final op" [len bytes]))
    end.

(** * The wire format *)

Definition wire_string (s : bytes) : bytes := varint (len s) ++ s.

Definition wire_op (op : Op) : bytes :=
  match op with
  | Put key value => OP_PUT :: wire_string key ++ wire_string value
  | Delete key => OP_DELETE :: wire_string key
  end.

Definition wire_batch (b : WriteBatch) : bytes :=
  varint (len (ops b)) ++ concat (wire_op <$> ops b).

(** What fits: keys and values shorter than 4 GiB, at most 2{^20} operations. *)
Definition op_fits (op : Op) : Prop :=
  match op with
  | Put key value => is_u32 (len key) ∧ is_u32 (len value)
  | Delete key => is_u32 (len key)
  end.

Definition batch_fits (b : WriteBatch) : Prop :=
  len (ops b) ≤ MAX_OPS_PER_BATCH ∧ Forall op_fits (ops b).

#[global] Instance op_fits_dec op : Decision (op_fits op).
Proof. destruct op; unfold op_fits, is_u32; apply _. Defined.
#[global] Instance batch_fits_dec b : Decision (batch_fits b).
Proof. unfold batch_fits. apply _. Defined.

(** * Encoding writes the wire format *)

Lemma put_lenprefixed_ok out s :
  is_u32 (len s) → put_lenprefixed out s = Ok (out ++ wire_string s).
Proof.
  intros Hs. unfold put_lenprefixed, wire_string. rewrite try_u32_ok by done.
  cbn [expect mbind outcome_bind]. by rewrite put_varint_u32_ok.
Qed.

Lemma encode_op_ok out op : op_fits op → encode_op out op = Ok (out ++ wire_op op).
Proof.
  destruct op as [key value|key]; cbn -[put_lenprefixed].
  - intros [Hk Hv]. rewrite put_lenprefixed_ok by done. cbn -[put_lenprefixed].
    rewrite put_lenprefixed_ok by done. by rewrite <-!app_assoc.
  - intros Hk. rewrite put_lenprefixed_ok by done. by rewrite <-!app_assoc.
Qed.

Lemma encode_ops_ok out os :
  Forall op_fits os → encode_ops out os = Ok (out ++ concat (wire_op <$> os)).
Proof.
  intros H. revert out. induction H as [|op os Hop _ IH]; intros out; cbn.
  - by rewrite app_nil_r.
  - rewrite encode_op_ok by done. cbn. by rewrite IH, <-app_assoc.
Qed.

Lemma MAX_OPS_u32 n : 0 ≤ n ≤ MAX_OPS_PER_BATCH → is_u32 n.
Proof. unfold MAX_OPS_PER_BATCH, is_u32. change (Z.shiftl 1 20) with 1048576. lia. Qed.

Lemma encode_into_ok b out : batch_fits b → encode_into b out = Ok (out ++ wire_batch b).
Proof.
  intros [Hlen Hops]. pose proof (MAX_OPS_u32 (len (ops b)) ltac:(lia)) as Hu.
  unfold encode_into, wire_batch. rewrite try_u32_ok by done.
  cbn [expect mbind outcome_bind]. rewrite put_varint_u32_ok by done.
  cbn [mbind outcome_bind]. by rewrite encode_ops_ok, app_assoc.
Qed.

(** * Decoding reads it back *)

Lemma take_n_app p s n : n = len p → take_n (p ++ s) n = Ok (p, s).
Proof.
  intros ->. unfold take_n. rewrite (proj2 (Z.ltb_ge _ _)) by len_lia.
  by rewrite take_app_len, drop_app_len.
Qed.

Lemma decode_lenprefixed_wire s tail :
  is_u32 (len s) → decode_lenprefixed (wire_string s ++ tail) = Ok (s, tail).
Proof.
  intros Hs. unfold decode_lenprefixed, wire_string. rewrite <-app_assoc.
  rewrite decode_u32_varint by done. cbn [mbind outcome_bind].
  rewrite slice_from_app by done. cbn [mbind outcome_bind]. by apply take_n_app.
Qed.

Lemma decode_op_wire op tail :
  op_fits op → decode_op (wire_op op ++ tail) = Ok (op, tail).
Proof.
  destruct op as [key value|key]; cbn -[decode_lenprefixed wire_string].
  - intros [Hk Hv]. rewrite <-app_assoc, decode_lenprefixed_wire by done.
    cbn -[decode_lenprefixed wire_string]. by rewrite decode_lenprefixed_wire.
  - intros Hk. by rewrite decode_lenprefixed_wire.
Qed.

Lemma decode_ops_wire os acc tail :
  Forall op_fits os →
  decode_ops (length os) acc (concat (wire_op <$> os) ++ tail) = Ok (acc ++ os, tail).
Proof.
  intros H. revert acc. induction H as [|op os Hop _ IH]; intros acc; cbn -[decode_op wire_op].
  - by rewrite app_nil_r.
  - rewrite <-app_assoc, decode_op_wire by done. cbn -[decode_op wire_op].
    by rewrite IH, <-app_assoc.
Qed.

(** * Decoding arbitrary bytes *)

Lemma decode_lenprefixed_sound bytes s rest :
  bytes_ok bytes → decode_lenprefixed bytes = Ok (s, rest) →
  is_u32 (len s) ∧ bytes_ok s ∧ bytes_ok rest ∧ (length rest < length bytes)%nat.
Proof.
  intros Hok H. unfold decode_lenprefixed in H.
  apply bind_Ok in H as ([n c] & Hdec & H). apply bind_Ok in H as (bs & Hs & H).
  apply decode_u32_sound in Hdec as (Hn & Hc & Hc'); [|done].
  apply slice_from_Ok in Hs as [_ ->]. unfold take_n in H. revert H. case_bool; [done|].
  intros [= <- <-]. unfold is_u32 in *. len_simpl.
  split_and!; [lia|lia|by apply Forall_take, Forall_drop|by apply Forall_drop, Forall_drop|lia].
Qed.

Lemma decode_lenprefixed_returns bytes : returns (decode_lenprefixed bytes).
Proof.
  unfold decode_lenprefixed. apply returns_bind; [auto with paddock|].
  intros [n c] Hdec. apply decode_u32_consumed in Hdec.
  rewrite slice_from_ok by lia. cbn. unfold take_n. by case_bool.
Qed.
#[export] Hint Resolve decode_lenprefixed_returns : paddock.

Lemma decode_op_returns bytes : returns (decode_op bytes).
Proof.
  unfold decode_op. destruct bytes as [|tag bytes]; [done|]. repeat case_bool; try done.
  - apply returns_bind; [auto with paddock|]. intros [key rest] _.
    apply returns_bind; [auto with paddock|]. by intros [value rest'] _.
  - apply returns_bind; [auto with paddock|]. by intros [key rest] _.
Qed.

Lemma decode_ops_returns n acc bytes : returns (decode_ops n acc bytes).
Proof.
  revert acc bytes. induction n as [|n IH]; intros acc bytes; cbn -[decode_op]; [done|].
  apply returns_bind; [apply decode_op_returns|]. intros [op rest] _. apply IH.
Qed.

Lemma decode_op_sound bytes op rest :
  bytes_ok bytes → decode_op bytes = Ok (op, rest) → op_fits op ∧ bytes_ok rest.
Proof.
  intros Hok. destruct Hok as [|tag bytes Htag Hok]; cbn -[decode_lenprefixed wire_string]; [done|].
  repeat case_bool; try done; intros H.
  - apply bind_Ok in H as ([key r1] & Hk & H). apply bind_Ok in H as ([v r2] & Hv & H).
    injection H as <- <-. apply decode_lenprefixed_sound in Hk as (? & ? & ? & _); [|done].
    apply decode_lenprefixed_sound in Hv as (? & ? & ? & _); done.
  - apply bind_Ok in H as ([key r1] & Hk & H). injection H as <- <-.
    apply decode_lenprefixed_sound in Hk as (? & ? & ? & _); done.
Qed.

Lemma decode_ops_sound n acc bytes os rest :
  bytes_ok bytes → Forall op_fits acc → decode_ops n acc bytes = Ok (os, rest) →
  Forall op_fits os ∧ length os = (length acc + n)%nat.
Proof.
  revert acc bytes. induction n as [|n IH]; intros acc bytes Hok Hacc; cbn -[decode_op wire_op].
  { intros [= -> ->]. split; [done|lia]. }
  intros H. apply bind_Ok in H as ([op r] & Hop & H).
  apply decode_op_sound in Hop as [Hfit Hr]; [|done].
  apply IH in H as [Hos Hlen]; [|done|by apply Forall_app_2; auto].
  split; [done|]. rewrite Hlen. len_lia.
Qed.

Lemma decode_wire b : batch_fits b → decode (wire_batch b) = Ok b.
Proof.
  intros [Hlen Hops]. pose proof (MAX_OPS_u32 (len (ops b)) ltac:(lia)) as Hu.
  unfold decode, wire_batch. rewrite decode_u32_varint by done. cbn [mbind outcome_bind].
  rewrite (proj2 (Z.ltb_ge _ _)) by lia. rewrite slice_from_app by done. cbn [mbind outcome_bind].
  rewrite Nat2Z.id, <-(app_nil_r (concat _)), decode_ops_wire by done. cbn. by destruct b.
Qed.

Lemma decode_returns bytes : returns (decode bytes).
Proof.
  unfold decode. apply returns_bind; [auto with paddock|]. intros [n c] Hd.
  apply decode_u32_consumed in Hd. case_bool; [done|].
  rewrite slice_from_ok by lia. cbn [mbind outcome_bind].
  apply returns_bind; [apply decode_ops_returns|]. by intros [os [|]] _.
Qed.

Lemma decode_fits bytes b : bytes_ok bytes → decode bytes = Ok b → batch_fits b.
Proof.
  intros Hok H. unfold decode in H. apply bind_Ok in H as ([n c] & Hd & H).
  apply decode_u32_sound in Hd as (Hn & _); [|done]. revert H. case_bool; [done|]. intros Hd.
  apply bind_Ok in Hd as (bs & Hs & Hd). apply slice_from_Ok in Hs as [_ ->].
  apply bind_Ok in Hd as ([os rest] & Hos & Hd).
  apply decode_ops_sound in Hos as [Hfit Hlen]; [|by apply Forall_drop|done].
  destruct rest; [|done]. injection Hd as <-. split; [|done]. cbn in *. unfold is_u32 in *. lia.
Qed.

(** * Properties *)

(** C25. A batch within the format's limits encodes without a panic, and its
    encoding, appended to whatever the buffer held, decodes to that very batch:
    the same operations in the same order. *)
Theorem batch_roundtrip (b : WriteBatch) (out : bytes) (Hfits : batch_fits b) :
  ∃ enc, encode_into b out = Ok (out ++ enc) ∧ encode b = Ok enc ∧ decode enc = Ok b.
Proof.
  exists (wire_batch b). unfold encode. rewrite !encode_into_ok by done.
  split_and!; [done|done|]. by apply decode_wire.
Qed.

Lemma batch_roundtrip_witness :
  batch_fits {| ops := [Put [1; 2] [3]; Delete []; Put [] [255]] |} ∧
  decode [3; 0; 2; 1; 2; 1; 3; 1; 0; 0; 0; 1; 255]
    = Ok {| ops := [Put [1; 2] [3]; Delete []; Put [] [255]] |}.
Proof.
  assert (batch_fits {| ops := [Put [1; 2] [3]; Delete []; Put [] [255]] |}) as H
    by (apply (bool_decide_unpack _); vm_compute; exact I).
  split; [exact H|].
  destruct (batch_roundtrip _ [] H) as (enc & _ & Henc & Hdec).
  vm_compute in Henc. injection Henc as <-. exact Hdec.
Defined.

(** Beyond the limit the format is one-way: a batch of more than 2{^20}
    operations encodes, nothing splits it, and its encoding is refused. *)
Theorem oversized_batch_unreadable (b : WriteBatch) :
  MAX_OPS_PER_BATCH < len (ops b) → is_u32 (len (ops b)) → Forall op_fits (ops b) →
  ∃ enc e, encode b = Ok enc ∧ decode enc = Err e.
Proof.
  intros Hlen Hu Hops. exists (wire_batch b). unfold encode, encode_into, wire_batch, decode.
  rewrite try_u32_ok by done. cbn [expect mbind outcome_bind]. rewrite put_varint_u32_ok by done.
  cbn [mbind outcome_bind]. rewrite encode_ops_ok by done. rewrite decode_u32_varint by done.
  cbn [mbind outcome_bind]. rewrite (proj2 (Z.ltb_lt _ _)) by done. by eexists.
Qed.

(** Decoding never panics, whatever the bytes; and whatever it accepts is a
    batch within the limits, which therefore encodes again. *)
Theorem decode_total (bytes : bytes) :
  returns (decode bytes) ∧
  ∀ b, bytes_ok bytes → decode bytes = Ok b → batch_fits b ∧ encode b = Ok (wire_batch b).
Proof.
  split; [apply decode_returns|]. intros b Hok H%decode_fits; [|done]. split; [done|]. by apply encode_into_ok.
Qed.

Lemma decode_total_witness :
  decode [1; 1; 2; 7; 8] = Ok {| ops := [Delete [7; 8]] |} ∧
  batch_fits {| ops := [Delete [7; 8]] |}.
Proof.
  split; [vm_compute; reflexivity|].
  apply (proj2 (decode_total [1; 1; 2; 7; 8])).
  - apply (bool_decide_unpack _). vm_compute. exact I.
  - vm_compute. reflexivity.
Defined.
