(* ===== verification/WalFormat.v ===== *)
(** On-disk layout of a WAL segment: [crates/paddock-core/src/wal/format.rs].

    Structs keep the source's fields; [..._as_bytes] and [..._from_bytes] are
    the [zerocopy] views of the packed little-endian layout. *)

From S2P Require Import Prelude Checksum.

(** * Constants *)

Definition BLOCK_SIZE : Z := 32 * 1024.
Definition SEGMENT_HEADER_SIZE : Z := 32.
Definition RECORD_HEADER_SIZE : Z := 16.
Definition MAX_FRAGMENT_PAYLOAD : Z := BLOCK_SIZE - RECORD_HEADER_SIZE.
Definition SEGMENT_MAGIC : Z := 0x4C574B50.
Definition FORMAT_VERSION : Z := 1.

(** Facts about the constants, in the form [lia] uses. *)
Ltac wal_consts :=
  unfold MAX_FRAGMENT_PAYLOAD, BLOCK_SIZE, SEGMENT_HEADER_SIZE, RECORD_HEADER_SIZE in *.

(** * The segment header *)

Record SegmentHeader := {
  sh_magic : Z;
  sh_version : Z;
  sh_segment_id : Z;
  sh_first_seqno : Z;
  sh_header_crc32c : Z;
  sh_reserved : Z
}.

#[global] Instance SegmentHeader_eq_dec : EqDecision SegmentHeader.
Proof. solve_decision. Defined.

Definition segment_header_as_bytes (h : SegmentHeader) : bytes :=
  le_bytes 4 (sh_magic h) ++ le_bytes 4 (sh_version h) ++
  le_bytes 8 (sh_segment_id h) ++ le_bytes 8 (sh_first_seqno h) ++
  le_bytes 4 (sh_header_crc32c h) ++ le_bytes 4 (sh_reserved h).

(** [SegmentHeader::ref_from_bytes]: fails on a wrong size only. *)
Definition segment_header_from_bytes (b : bytes) : option SegmentHeader :=
  if len b =? SEGMENT_HEADER_SIZE then
    Some {| sh_magic := le_field b 0 4; sh_version := le_field b 4 4;
            sh_segment_id := le_field b 8 8; sh_first_seqno := le_field b 16 8;
            sh_header_crc32c := le_field b 24 4; sh_reserved := le_field b 28 4 |}
  else None.

Definition segment_header_new (segment_id first_seqno : Z) : SegmentHeader :=
  {| sh_magic := SEGMENT_MAGIC; sh_version := FORMAT_VERSION;
     sh_segment_id := segment_id; sh_first_seqno := first_seqno;
     sh_header_crc32c := 0; sh_reserved := 0 |}.

Section Signed.
Context `{Crc32c}.

(** The checksum over [as_bytes()[..24]]. *)
Definition segment_header_crc (h : SegmentHeader) : Z :=
  crc_hash (take 24 (segment_header_as_bytes h)).

Definition segment_header_new_signed (segment_id first_seqno : Z) : SegmentHeader :=
  let h := segment_header_new segment_id first_seqno in
  {| sh_magic := sh_magic h; sh_version := sh_version h;
     sh_segment_id := sh_segment_id h; sh_first_seqno := sh_first_seqno h;
     sh_header_crc32c := segment_header_crc h; sh_reserved := sh_reserved h |}.

Definition segment_header_is_valid (h : SegmentHeader) : bool :=
  if negb (sh_magic h =? SEGMENT_MAGIC) || negb (sh_version h =? FORMAT_VERSION) then false
  else if negb (sh_reserved h =? 0) then false
  else sh_header_crc32c h =? segment_header_crc h.
End Signed.

(** * Record fragments *)

Inductive RecordType := Full | First | Middle | Last.

#[global] Instance RecordType_eq_dec : EqDecision RecordType.
Proof. solve_decision. Defined.

Definition record_type_from_byte (tag : Z) : option RecordType :=
  if tag =? 1 then Some Full
  else if tag =? 2 then Some First
  else if tag =? 3 then Some Middle
  else if tag =? 4 then Some Last
  else None.

Definition record_type_as_byte (t : RecordType) : Z :=
  match t with Full => 1 | First => 2 | Middle => 3 | Last => 4 end.

Record RecordHeader := {
  rh_payload_crc32c : Z;
  rh_length : Z;
  rh_record_type : Z;
  rh_reserved : Z;
  rh_seqno : Z
}.

#[global] Instance RecordHeader_eq_dec : EqDecision RecordHeader.
Proof. solve_decision. Defined.

Definition record_header_as_bytes (h : RecordHeader) : bytes :=
  le_bytes 4 (rh_payload_crc32c h) ++ le_bytes 2 (rh_length h) ++
  le_bytes 1 (rh_record_type h) ++ le_bytes 1 (rh_reserved h) ++ le_bytes 8 (rh_seqno h).

Definition record_header_from_bytes (b : bytes) : option RecordHeader :=
  if len b =? RECORD_HEADER_SIZE then
    Some {| rh_payload_crc32c := le_field b 0 4; rh_length := le_field b 4 2;
            rh_record_type := le_field b 6 1; rh_reserved := le_field b 7 1;
            rh_seqno := le_field b 8 8 |}
  else None.

Definition record_header_new (t : RecordType) (seqno payload_len : Z) : RecordHeader :=
  {| rh_payload_crc32c := 0; rh_length := payload_len;
     rh_record_type := record_type_as_byte t; rh_reserved := 0; rh_seqno := seqno |}.

Section RecordCrc.
Context `{Crc32c}.

Definition expected_crc (h : RecordHeader) (payload : bytes) : Z :=
  let hasher := hasher_new in
  let hasher := hasher_update hasher [rh_record_type h; rh_reserved h] in
  let hasher := hasher_update hasher (le_bytes 8 (rh_seqno h)) in
  let hasher := hasher_update hasher payload in
  hasher_finalize hasher.

Definition record_header_sign (h : RecordHeader) (payload : bytes) : RecordHeader :=
  let hasher := hasher_new in
  let hasher := hasher_update hasher [rh_record_type h; rh_reserved h] in
  let hasher := hasher_update hasher (le_bytes 8 (rh_seqno h)) in
  let hasher := hasher_update hasher payload in
  {| rh_payload_crc32c := hasher_finalize hasher; rh_length := rh_length h;
     rh_record_type := rh_record_type h; rh_reserved := rh_reserved h;
     rh_seqno := rh_seqno h |}.
End RecordCrc.

(** * Ranges *)

Definition segment_header_ok (h : SegmentHeader) : Prop :=
  is_u32 (sh_magic h) ∧ is_u32 (sh_version h) ∧ is_u64 (sh_segment_id h) ∧
  is_u64 (sh_first_seqno h) ∧ is_u32 (sh_header_crc32c h) ∧ is_u32 (sh_reserved h).

Definition record_header_ok (h : RecordHeader) : Prop :=
  is_u32 (rh_payload_crc32c h) ∧ is_u16 (rh_length h) ∧ is_u8 (rh_record_type h) ∧
  is_u8 (rh_reserved h) ∧ is_u64 (rh_seqno h).

(** * Layout round trips *)

Lemma length_segment_header h : length (segment_header_as_bytes h) = 32%nat.
Proof. unfold segment_header_as_bytes. by len_simpl. Qed.

Lemma length_record_header h : length (record_header_as_bytes h) = 16%nat.
Proof. unfold record_header_as_bytes. by len_simpl. Qed.
#[export] Hint Rewrite length_segment_header length_record_header : len.

Lemma segment_header_from_as h :
  segment_header_ok h → segment_header_from_bytes (segment_header_as_bytes h) = Some h.
Proof.
  intros (?&?&?&?&?&?). unfold segment_header_from_bytes. rewrite length_segment_header.
  cbn [Z.eqb]. unfold is_u32, is_u64 in *. unfold segment_header_as_bytes. le_fields.
  by destruct h.
Qed.

Lemma record_header_from_as h :
  record_header_ok h → record_header_from_bytes (record_header_as_bytes h) = Some h.
Proof.
  intros (?&?&?&?&?). unfold record_header_from_bytes. rewrite length_record_header.
  cbn [Z.eqb]. unfold is_u32, is_u64, is_u16, is_u8 in *. unfold record_header_as_bytes. le_fields.
  by destruct h.
Qed.

Lemma segment_header_as_from b h :
  bytes_ok b → segment_header_from_bytes b = Some h →
  segment_header_as_bytes h = b ∧ segment_header_ok h.
Proof.
  intros Hok. unfold segment_header_from_bytes. case_bool; [|done]. intros [= <-]. wal_consts.
  split; [|unfold segment_header_ok, is_u32, is_u64; cbn [sh_magic sh_version sh_segment_id
    sh_first_seqno sh_header_crc32c sh_reserved]; split_and!; by apply le_field_range].
  unfold segment_header_as_bytes. cbn [sh_magic sh_version sh_segment_id sh_first_seqno
    sh_header_crc32c sh_reserved]. rewrite !le_field_bytes by (done || lia).
  rewrite (take_drop_all b 28 4) by lia. by rewrite !take_drop_next by done.
Qed.

Lemma record_header_as_from b h :
  bytes_ok b → record_header_from_bytes b = Some h →
  record_header_as_bytes h = b ∧ record_header_ok h.
Proof.
  intros Hok. unfold record_header_from_bytes. case_bool; [|done]. intros [= <-]. wal_consts.
  split; [|unfold record_header_ok, is_u32, is_u64, is_u16, is_u8; cbn [rh_payload_crc32c rh_length
    rh_record_type rh_reserved rh_seqno]; split_and!; by apply le_field_range].
  unfold record_header_as_bytes. cbn [rh_payload_crc32c rh_length rh_record_type rh_reserved rh_seqno].
  rewrite !le_field_bytes by (done || lia).
  rewrite (take_drop_all b 8 8) by lia. by rewrite !take_drop_next by done.
Qed.

Lemma record_type_from_as t : record_type_from_byte (record_type_as_byte t) = Some t.
Proof. by destruct t. Qed.

Section CrcLemmas.
Context `{Crc32cLaws}.

Lemma segment_header_crc_fields h crc r :
  segment_header_crc {| sh_magic := sh_magic h; sh_version := sh_version h;
    sh_segment_id := sh_segment_id h; sh_first_seqno := sh_first_seqno h;
    sh_header_crc32c := crc; sh_reserved := r |} = segment_header_crc h.
Proof. reflexivity. Qed.

Lemma segment_header_new_signed_ok id seqno :
  is_u64 id → is_u64 seqno → segment_header_ok (segment_header_new_signed id seqno).
Proof.
  intros. unfold segment_header_ok, segment_header_new_signed, segment_header_new.
  cbn [sh_magic sh_version sh_segment_id sh_first_seqno sh_header_crc32c sh_reserved].
  pose proof (crc_hash_u32 (take 24 (segment_header_as_bytes (segment_header_new id seqno)))).
  split_and!; try done.
Qed.

Lemma segment_header_valid_signed id seqno :
  segment_header_is_valid (segment_header_new_signed id seqno) = true.
Proof.
  unfold segment_header_is_valid, segment_header_new_signed. cbn -[segment_header_crc].
  apply Z.eqb_eq. symmetry.
  apply (segment_header_crc_fields (segment_header_new id seqno)).
Qed.

Lemma record_header_signed_ok t seqno payload :
  is_u64 seqno → is_u16 (len payload) →
  record_header_ok (record_header_sign (record_header_new t seqno (len payload)) payload).
Proof.
  intros. unfold record_header_ok, record_header_sign, record_header_new.
  cbn [rh_payload_crc32c rh_length rh_record_type rh_reserved rh_seqno].
  split_and!; try done; [|by destruct t].
  pose proof (hasher_streaming [[record_type_as_byte t; 0]; le_bytes 8 seqno; payload]) as E.
  cbn [foldl] in E. rewrite E. apply crc_hash_u32.
Qed.

Lemma record_header_signed_crc h payload :
  expected_crc (record_header_sign h payload) payload
    = rh_payload_crc32c (record_header_sign h payload).
Proof. done. Qed.
End CrcLemmas.

(** * Properties *)

(** A segment header is accepted exactly when it is one the writer signs:
    a 32-byte string parses to a valid header if and only if it is the layout
    of [new_signed] for some segment id and first sequence number, and parsing
    gives that header back. *)
Theorem segment_header_valid_iff `{Crc32cLaws} (b : bytes) (h : SegmentHeader)
    (Hok : bytes_ok b) :
  segment_header_from_bytes b = Some h ∧ segment_header_is_valid h = true
  ↔ ∃ id seqno, is_u64 id ∧ is_u64 seqno ∧ h = segment_header_new_signed id seqno ∧
      b = segment_header_as_bytes h.
Proof.
  split.
  - intros [Hb Hv]. apply segment_header_as_from in Hb as [<- (_&_&Hid&Hsq&_&_)]; [|done].
    exists (sh_segment_id h), (sh_first_seqno h). split_and!; [done..| |done].
    unfold segment_header_is_valid in Hv. revert Hv. repeat case_bool; cbn; try done.
    intros _. destruct h; cbn -[segment_header_crc] in *. subst.
    unfold segment_header_new_signed, segment_header_new. cbn -[segment_header_crc]. by f_equal.
  - intros (id & seqno & Hid & Hsq & -> & ->). split.
    + by apply segment_header_from_as, segment_header_new_signed_ok.
    + apply segment_header_valid_signed.
Qed.

Lemma segment_header_valid_iff_witness :
  let h := segment_header_new_signed 7 42 in
  bytes_ok (segment_header_as_bytes h) ∧
  segment_header_from_bytes (segment_header_as_bytes h) = Some h ∧
  segment_header_is_valid h = true.
Proof.
  assert (bytes_ok (segment_header_as_bytes (segment_header_new_signed 7 42))) as H
    by (apply (bool_decide_unpack _); vm_compute; exact I).
  split; [exact H|]. apply (segment_header_valid_iff _ _ H).
  exists 7, 42. split_and!; [unfold is_u64; lia|unfold is_u64; lia|reflexivity|reflexivity].
Defined.
