(* ===== verification/UnitCodec.v ===== *)
(** The tests of the codecs: those in [encoding/varint.rs], [checksum/],
    [wal/batch.rs] and [wal/format.rs]. *)

From S2P Require Import Prelude TestKit Varint Checksum WalBatch WalFormat.

(** * [encoding/varint.rs] *)

(** Encoding into a buffer of [size] bytes and decoding what was written. *)
Definition u64_round_trip (v : Z) : outcome (Z * Z * Z) :=
  let '(n, buf) := encode_u64 v (zeros MAX_VARINT_U64_BYTES) in
  n ← expect n;
  written ← slice_to buf n;
  '(decoded, consumed) ← unwrap (decode_u64 written);
  Ok (n, decoded, consumed).

Definition prop_u64_round_trip (v : Z) : outcome () :=
  '(n, decoded, consumed) ← u64_round_trip v;
  _ ← assert_eq decoded v;
  _ ← assert_eq consumed n;
  assert_eq n (varint_u64_len v).

Definition prop_u32_round_trip (v : Z) : outcome () :=
  let '(n, buf) := encode_u32 v (zeros MAX_VARINT_U32_BYTES) in
  n ← expect n;
  written ← slice_to buf n;
  '(decoded, consumed) ← unwrap (decode_u32 written);
  _ ← assert_eq decoded v;
  assert_eq consumed n.

Definition prop_decoder_never_panics_on_random_bytes (b : bytes) : outcome () :=
  _ ← ignore (decode_u64 b);
  _ ← ignore (decode_u32 b);
  ignore (decode_u64_canonical b).

Definition prop_encoded_bytes_have_continuation_pattern (v : Z) : outcome () :=
  let '(n, buf) := encode_u64 v (zeros MAX_VARINT_U64_BYTES) in
  n ← expect n;
  front ← slice_to buf (Z.max (n - 1) 0);
  _ ← each front (λ b, assert_that (negb (Z.land b 0x80 =? 0)));
  b ← index buf (n - 1);
  assert_that (Z.land b 0x80 =? 0).

Definition u32_max : Z := 2 ^ 32 - 1.

Definition varint_tests : list test := [
  Test "round_trip_known_u64" (
    each [0; 1; 0x7F; 0x80; 0x3FFF; 0x4000; 0xFFFFFFFF; 0x100000000; U64_MAX] (λ v,
      let '(n, buf) := encode_u64 v (zeros MAX_VARINT_U64_BYTES) in
      n ← expect n;
      _ ← assert_eq n (varint_u64_len v);
      written ← slice_to buf n;
      '(decoded, consumed) ← unwrap (decode_u64 written);
      _ ← assert_eq decoded v;
      assert_eq consumed n));
  Test "varint_u64_len_matches_actual_encoding" (
    each [0; 1; 127; 128; 16383; 16384; U64_MAX; U64_MAX - 1] (λ v,
      let '(n, _) := encode_u64 v (zeros MAX_VARINT_U64_BYTES) in
      n ← expect n;
      assert_eq n (varint_u64_len v)));
  Test "encode_returns_none_when_buffer_too_short" (
    assert_eq (encode_u64 0x80 (zeros 1)).1 None);
  Test "decode_rejects_unterminated_run" (
    err ← unwrap_err (decode_u64 (replicate (Z.to_nat MAX_VARINT_U64_BYTES) 0xFF));
    assert_that (is_overflow err));
  Test "decode_rejects_overflow_on_tenth_byte" (
    err ← unwrap_err (decode_u64 (replicate 9 0xFF ++ [0x02]));
    assert_that (is_overflow err));
  Test "decode_accepts_u64_max" (
    '(v, n) ← unwrap (decode_u64 (replicate 9 0xFF ++ [0x01]));
    _ ← assert_eq v U64_MAX;
    assert_eq n MAX_VARINT_U64_BYTES);
  Test "decode_eof_when_input_empty" (
    err ← unwrap_err (decode_u64 []);
    assert_that (is_eof err));
  Test "decode_eof_when_continuation_runs_out" (
    err ← unwrap_err (decode_u64 [0xFF; 0xFF]);
    assert_that (is_eof err));
  Test "u32_round_trip_and_overflow" (
    each [0; 1; 0x7F; 0x80; 0x3FFF; 0x4000; u32_max; u32_max - 1] prop_u32_round_trip);
  Test "u32_decode_rejects_overflow_on_fifth_byte" (
    err ← unwrap_err (decode_u32 [0xFF; 0xFF; 0xFF; 0xFF; 0x10]);
    assert_that (is_overflow err));
  Test "canonical_decoder_rejects_padded_encoding" (
    err ← unwrap_err (decode_u64_canonical [0x80; 0x00]);
    assert_that (is_non_canonical err));
  Test "canonical_decoder_accepts_genuine_zero" (
    '(v, n) ← unwrap (decode_u64_canonical [0]);
    _ ← assert_eq v 0;
    assert_eq n 1)
].

(** * [checksum/crc32c.rs], [checksum/xxh3.rs] and [checksum/mod.rs] *)

(** Feeding the chunks to a hasher and hashing them in one go. *)
Definition prop_crc_streaming `{Crc32c} (chunks : list bytes) : outcome () :=
  assert_eq (hasher_finalize (foldl hasher_update hasher_new chunks)) (crc_hash (concat chunks)).

Definition prop_xxh_streaming `{Xxh3} {X} `{!Xxh3Stream X} (chunks : list bytes) : outcome () :=
  assert_eq (xxh_hasher_finalize (foldl xxh_hasher_update (xxh_hasher_new (X := X)) chunks)) (xxh_hash (concat chunks)).

Definition fox : bytes := lit "the quick brown fox jumps over the lazy dog".

Definition crc32c_tests : list test := [
  Test "rfc3720_test_vectors" (
    _ ← assert_eq (crc_hash (replicate 32 0)) 0x8A9136AA;
    _ ← assert_eq (crc_hash (replicate 32 0xFF)) 0x62A8AB43;
    assert_eq (crc_hash (lit "123456789")) 0xE3069283);
  Test "streaming_matches_oneshot" (
    let one_shot := crc_hash fox in
    let h := hasher_update hasher_new (take 10 fox) in
    let h := hasher_update h (take 15 (drop 10 fox)) in
    let h := hasher_update h (drop 25 fox) in
    assert_eq (hasher_finalize h) one_shot);
  Test "empty_input_yields_zero" (
    _ ← assert_eq (crc_hash []) 0;
    assert_eq (hasher_finalize hasher_new) 0)
].

Definition xxh3_tests `{Xxh3} {X} `{!Xxh3Stream X} : list test := [
  Test "empty_input_has_stable_digest" (
    let a := xxh_hash [] in
    let b := xxh_hash [] in
    _ ← assert_eq a b;
    let c := xxh_hasher_finalize (xxh_hasher_new (X := X)) in
    assert_eq a c);
  Test "streaming_matches_oneshot" (
    let one_shot := xxh_hash fox in
    let h := xxh_hasher_update (xxh_hasher_new (X := X)) (take 7 fox) in
    let h := xxh_hasher_update h (take 25 (drop 7 fox)) in
    let h := xxh_hasher_update h (drop 32 fox) in
    assert_eq (xxh_hasher_finalize h) one_shot)
].

Definition algorithm_tests : list test := [
  Test "algorithm_tag_round_trip" (
    _ ← each [AlgCrc32c; AlgXxh3] (λ alg, assert_eq (algorithm_from_tag (algorithm_tag alg)) (Some alg));
    assert_eq (algorithm_from_tag 255) None);
  Test "hash_dispatches_to_correct_algorithm" (
    let data := lit "PaddockKV" in
    _ ← assert_eq (algorithm_hash AlgCrc32c data) (crc_hash data);
    assert_eq (algorithm_hash AlgXxh3 data) (xxh_hash data))
].

(** * [wal/batch.rs] *)

#[global] Instance WriteBatch_eq_dec : EqDecision WriteBatch.
Proof. solve_decision. Defined.

Definition round_trip (batch : WriteBatch) : outcome () :=
  encoded ← encode batch;
  decoded ← unwrap (decode encoded);
  assert_eq decoded batch.

(** A batch built by calls of [put] and [delete]. *)
Definition push_op (b : WriteBatch) (op : Op) : WriteBatch :=
  match op with Put key value => batch_put b key value | Delete key => batch_delete b key end.

Definition prop_round_trip (os : list Op) : outcome () := round_trip (foldl push_op batch_new os).

Definition prop_decoder_never_panics (b : bytes) : outcome () := ignore (decode b).

Definition batch_tests : list test := [
  Test "empty_batch_encodes_to_one_byte" (
    b ← encode batch_new;
    _ ← assert_eq b [0];
    round_trip batch_new);
  Test "put_round_trip" (
    let b := batch_put batch_new (lit "hello") (lit "world") in
    _ ← round_trip b;
    assert_eq (batch_len b) 1);
  Test "mixed_ops_round_trip" (
    let b := batch_put (batch_delete (batch_put batch_new (lit "a") (lit "1")) (lit "b")) (lit "c") (lit "3") in
    _ ← round_trip b;
    assert_eq (batch_len b) 3);
  Test "large_value_round_trip" (
    round_trip (batch_put batch_new (replicate 1024 0) (replicate (Z.to_nat 65536) 0xCC)));
  Test "decode_rejects_unknown_tag" (
    err ← unwrap_err (decode [0x01; 0x7F]);
    assert_that (is_invalid_format err));
  Test "decode_rejects_truncated_key" (
    err ← unwrap_err (decode [0x01; OP_PUT; 0x05]);
    assert_that (is_eof err));
  Test "decode_rejects_trailing_bytes" (
    let b := batch_put batch_new (lit "k") (lit "v") in
    encoded ← encode b;
    err ← unwrap_err (decode (encoded ++ [0xFF]));
    assert_that (is_invalid_format err));
  Test "decode_rejects_excessive_op_count" (
    let bad := MAX_OPS_PER_BATCH + 1 in
    let '(n, buf) := encode_u32 bad (zeros MAX_VARINT_U32_BYTES) in
    n ← expect n;
    written ← slice_to buf n;
    err ← unwrap_err (decode written);
    assert_that (is_invalid_format err))
].

(** * [wal/format.rs] *)

(** [copy[i] ^= 1 << bit]. *)
Definition flip_bit (b : bytes) (i bit : nat) : bytes := alter (λ x, Z.lxor x (Z.shiftl 1 (Z.of_nat bit))) i b.

Definition sh_set_version (v : Z) (h : SegmentHeader) : SegmentHeader :=
  {| sh_magic := sh_magic h; sh_version := v; sh_segment_id := sh_segment_id h;
     sh_first_seqno := sh_first_seqno h; sh_header_crc32c := sh_header_crc32c h; sh_reserved := sh_reserved h |}.

(** The two size tests compare [size_of] with the constants: the layout has that
    many bytes. *)
Definition wal_format_tests : list test := [
  Test "segment_header_size_matches_constant" (
    assert_eq (len (segment_header_as_bytes (segment_header_new 0 0))) SEGMENT_HEADER_SIZE);
  Test "record_header_size_matches_constant" (
    assert_eq (len (record_header_as_bytes (record_header_new Full 0 0))) RECORD_HEADER_SIZE);
  Test "signed_segment_header_validates" (
    let h := segment_header_new_signed 42 1000 in
    _ ← assert_that (segment_header_is_valid h);
    let unsigned := segment_header_new 42 1000 in
    assert_that (negb (segment_header_is_valid unsigned)));
  Test "flipping_any_header_bit_invalidates" (
    let h := segment_header_new_signed 42 1000 in
    let b := segment_header_as_bytes h in
    _ ← each (seq 0 (length b)) (λ i, each (seq 0 8) (λ bit,
      parsed ← expect (segment_header_from_bytes (flip_bit b i bit));
      assert_that (negb (segment_header_is_valid parsed))));
    original ← expect (segment_header_from_bytes b);
    assert_that (segment_header_is_valid original));
  Test "record_type_round_trip" (
    _ ← each [Full; First; Middle; Last] (λ rt,
      assert_eq (record_type_from_byte (record_type_as_byte rt)) (Some rt));
    _ ← assert_eq (record_type_from_byte 0) None;
    assert_eq (record_type_from_byte 99) None);
  Test "signed_record_header_recomputes_same_crc" (
    let payload := lit "hello batch" in
    let h := record_header_sign (record_header_new Full 7 (len payload)) payload in
    assert_eq (rh_payload_crc32c h) (expected_crc h payload));
  Test "signed_record_header_detects_payload_mutation" (
    let payload := lit "hello batch" in
    let h := record_header_sign (record_header_new Full 7 (len payload)) payload in
    let stored := rh_payload_crc32c h in
    assert_ne stored (expected_crc h (lit "hello b!tch")));
  Test "zerocopy_round_trip_segment_header" (
    let h := segment_header_new_signed 0xAABBCCDD 0x1234 in
    parsed ← expect (segment_header_from_bytes (segment_header_as_bytes h));
    _ ← assert_eq (sh_magic parsed) SEGMENT_MAGIC;
    _ ← assert_eq (sh_version parsed) FORMAT_VERSION;
    _ ← assert_eq (sh_segment_id parsed) 0xAABBCCDD;
    _ ← assert_eq (sh_first_seqno parsed) 0x1234;
    assert_that (segment_header_is_valid parsed));
  Test "zerocopy_round_trip_record_header" (
    let payload := replicate 256 0xAB in
    let h := record_header_sign (record_header_new Middle 999 (len payload)) payload in
    parsed ← expect (record_header_from_bytes (record_header_as_bytes h));
    _ ← assert_eq (rh_length parsed) 256;
    _ ← assert_eq (rh_record_type parsed) (record_type_as_byte Middle);
    _ ← assert_eq (rh_seqno parsed) 999;
    assert_eq (rh_payload_crc32c parsed) (expected_crc parsed payload))
].

(** * They pass *)

Lemma varint_tests_pass : all_pass varint_tests = true.
Proof. vm_compute. reflexivity. Qed.

Lemma crc32c_tests_pass : all_pass crc32c_tests = true.
Proof. vm_compute. reflexivity. Qed.

Lemma algorithm_tests_pass : all_pass algorithm_tests = true.
Proof. vm_compute. reflexivity. Qed.

Lemma wal_format_tests_pass : all_pass wal_format_tests = true.
Proof. vm_compute. reflexivity. Qed.

Lemma batch_tests_pass : all_pass batch_tests = true.
Proof. vm_compute. reflexivity. Qed.

(** The property tests, for every input. *)
Lemma slice_written v rest :
  slice_to (varint v ++ rest) (len (varint v)) = Ok (varint v).
Proof. by apply slice_to_app. Qed.

Theorem u64_round_trip_holds (v : Z) : is_u64 v → prop_u64_round_trip v = Ok tt.
Proof.
  intros Hv. unfold prop_u64_round_trip, u64_round_trip.
  rewrite encode_u64_fits; [|done|rewrite len_zeros; pose proof (len_varint v); unfold MAX_VARINT_U64_BYTES; lia].
  cbn [expect mbind outcome_bind]. rewrite slice_written. cbn [mbind outcome_bind].
  pose proof (decode_u64_varint v [] Hv) as E. rewrite app_nil_r in E. rewrite E. cbn [unwrap mbind outcome_bind].
  by rewrite (varint_u64_len_spec v Hv), !assert_eq_refl.
Qed.

Theorem u32_round_trip_holds (v : Z) : is_u32 v → prop_u32_round_trip v = Ok tt.
Proof.
  intros Hv. pose proof (len_varint_u32 v Hv) as Hl. unfold prop_u32_round_trip, encode_u32.
  rewrite encode_u64_fits; [|unfold is_u32, is_u64 in *; lia|rewrite len_zeros; unfold MAX_VARINT_U32_BYTES; lia].
  cbn [expect mbind outcome_bind]. rewrite slice_written. cbn [mbind outcome_bind].
  pose proof (decode_u32_varint v [] Hv) as E. rewrite app_nil_r in E. rewrite E. cbn [unwrap mbind outcome_bind].
  by rewrite !assert_eq_refl.
Qed.

Theorem decoder_never_panics (b : bytes) : prop_decoder_never_panics_on_random_bytes b = Ok tt.
Proof.
  unfold prop_decoder_never_panics_on_random_bytes.
  rewrite (ignore_returns (decode_u64 b) (decode_loop_returns _ _ _ _ _ _ _ _)). cbn [mbind outcome_bind].
  rewrite (ignore_returns (decode_u32 b) (decode_u32_returns b)). cbn [mbind outcome_bind]. apply ignore_returns.
  unfold decode_u64_canonical. pose proof (decode_loop_returns 64 MAX_VARINT_U64_BYTES 1 (decode_after MAX_VARINT_U64_BYTES b)
    (take (Z.to_nat MAX_VARINT_U64_BYTES) b) 0 0 0) as Hr.
  change (returns (decode_u64 b)) in Hr. destruct (decode_u64 b) as [[v n]| | |] eqn:E; try done. cbn [mbind outcome_bind].
  apply decode_u64_consumed in E. destruct (1 <? n) eqn:En; [|done]. apply Z.ltb_lt in En.
  unfold index. rewrite (proj2 (Z.leb_le 0 (n - 1))) by lia.
  destruct (lookup_lt_is_Some_2 b (Z.to_nat (n - 1))) as [x Hx]; [lia|]. rewrite Hx. cbn. by destruct (x =? 0).
Qed.

Theorem crc_streaming_holds `{Crc32cLaws} chunks : prop_crc_streaming chunks = Ok tt.
Proof. unfold prop_crc_streaming. rewrite hasher_streaming. apply assert_eq_refl. Qed.

Theorem xxh_streaming_holds `{Xxh3StreamLaws X} chunks : prop_xxh_streaming (X := X) chunks = Ok tt.
Proof. unfold prop_xxh_streaming. destruct (xxh_streaming chunks) as [_ ->]. apply assert_eq_refl. Qed.

Theorem xxh3_tests_pass `{Xxh3StreamLaws X} : all_pass (xxh3_tests (X := X)) = true.
Proof.
  pose proof (xxh_streaming_holds (X := X)) as Hs. apply all_pass_spec. constructor; [|constructor; [|constructor]].
  - cbn [test_body]. rewrite assert_eq_refl. cbn [mbind outcome_bind].
    destruct (xxh_streaming (X := X) []) as [_ E]. cbn [foldl concat] in E. rewrite E. apply assert_eq_refl.
  - exact (Hs [take 7 fox; take 25 (drop 7 fox); drop 32 fox]).
Qed.

Theorem continuation_pattern_holds (v : Z) : is_u64 v → prop_encoded_bytes_have_continuation_pattern v = Ok tt.
Proof.
  intros Hv. pose proof (len_varint v) as Hl. pose proof (decode_u64_varint v [] Hv) as E. rewrite app_nil_r in E.
  apply decode_u64_sound in E as (ds & d & tail & Hs & [Hds Hd] & Hn & _); [|apply varint_ok; unfold is_u64 in Hv; lia].
  assert (tail = []) as -> by (apply nil_length_inv; apply (f_equal length) in Hs; revert Hs; len_simpl; cbn [length]; lia).
  rewrite app_nil_r in Hs. unfold prop_encoded_bytes_have_continuation_pattern.
  rewrite encode_u64_fits; [|done|rewrite len_zeros; unfold MAX_VARINT_U64_BYTES; lia].
  cbn [expect mbind outcome_bind]. rewrite Hn, Hs, <-app_assoc.
  replace (Z.max (len ds + 1 - 1) 0) with (len ds) by lia. rewrite slice_to_app by done. cbn [mbind outcome_bind].
  rewrite each_ok; cbn [mbind outcome_bind].
  - replace (len ds + 1 - 1) with (len ds) by lia. unfold index. rewrite (proj2 (Z.leb_le 0 (len ds))) by lia.
    rewrite Nat2Z.id, lookup_app_r, Nat.sub_diag by done. cbn [lookup list_lookup app expect mbind outcome_bind].
    rewrite land_128 by (unfold byte_ok; lia). rewrite Z.div_small by lia. done.
  - intros b Hb. rewrite Forall_forall in Hds. specialize (Hds b Hb). apply assert_true.
    rewrite land_128 by (unfold byte_ok; lia). replace (b / 128) with 1 by (apply Z.div_unique with (b - 128); lia). done.
Qed.

Lemma push_ops os b : ops (foldl push_op b os) = ops b ++ os.
Proof.
  revert b. induction os as [|op os IH]; intros b; cbn [foldl]; [by rewrite app_nil_r|].
  rewrite IH. destruct op; cbn; by rewrite <-app_assoc.
Qed.

Theorem batch_round_trip_holds (os : list Op) :
  len os ≤ MAX_OPS_PER_BATCH → Forall op_fits os → prop_round_trip os = Ok tt.
Proof.
  intros Hn Hops. unfold prop_round_trip, round_trip. set (b := foldl push_op batch_new os).
  assert (batch_fits b) as Hb by (unfold batch_fits, b; by rewrite push_ops).
  unfold encode. rewrite (encode_into_ok b [] Hb). cbn [app mbind outcome_bind]. rewrite (decode_wire b Hb).
  apply assert_eq_refl.
Qed.

Theorem batch_decoder_never_panics (b : bytes) : prop_decoder_never_panics b = Ok tt.
Proof. apply ignore_returns, decode_returns. Qed.
