(* ===== verification/WalLayout.v ===== *)
(** The reference layout of WAL records, shared by the writer's and the
    reader's theorems: how a record at a given offset of the records area is
    padded, cut into fragments and laid out. *)

From S2P Require Import Prelude Checksum WalFormat.

(** * Definitions *)

(** The [match (is_first_fragment, is_last)] of the writer. *)
Definition fragment_type (is_first is_last : bool) : RecordType :=
  match is_first, is_last with
  | true, true => Full
  | true, false => First
  | false, true => Last
  | false, false => Middle
  end.

(** Cut a payload: [room] bytes fit the current block, then a block each. *)
Fixpoint fragments (n : nat) (room : Z) (is_first : bool) (payload : bytes) :
    list (RecordType * bytes) :=
  match n with
  | O => []
  | S n =>
      if len payload <=? room then [(fragment_type is_first true, payload)]
      else (fragment_type is_first false, take (Z.to_nat room) payload)
             :: fragments n MAX_FRAGMENT_PAYLOAD false (drop (Z.to_nat room) payload)
  end.

(** Zeros up to the next block when a header does not fit in this one. *)
Definition padding (pos : Z) : bytes :=
  let block_remaining := BLOCK_SIZE - pos mod BLOCK_SIZE in
  if block_remaining <? RECORD_HEADER_SIZE then zeros block_remaining else [].

(** Payload bytes that fit in the block of [pos], after a header. *)
Definition room_at (pos : Z) : Z := BLOCK_SIZE - pos mod BLOCK_SIZE - RECORD_HEADER_SIZE.

(** The fragments of a record that starts at offset [pos]. *)
Definition record_fragments (pos : Z) (payload : bytes) : list (RecordType * bytes) :=
  fragments (length payload + 2) (room_at (pos + len (padding pos))) true payload.

Section Layout.
Context `{Crc32c}.

Definition fragment_header (seqno : Z) (f : RecordType * bytes) : RecordHeader :=
  record_header_sign (record_header_new f.1 seqno (u16 (len f.2))) f.2.

Definition fragment_bytes (seqno : Z) (f : RecordType * bytes) : bytes :=
  record_header_as_bytes (fragment_header seqno f) ++ f.2.

Definition fragments_bytes (seqno : Z) (fs : list (RecordType * bytes)) : bytes :=
  concat (fragment_bytes seqno <$> fs).

Definition record_bytes (pos : Z) (r : Z * bytes) : bytes :=
  padding pos ++ fragments_bytes r.1 (record_fragments pos r.2).

(** The records area that holds [rs], from offset [pos] on. *)
Fixpoint records_bytes (pos : Z) (rs : list (Z * bytes)) : bytes :=
  match rs with
  | [] => []
  | r :: rs => let b := record_bytes pos r in b ++ records_bytes (pos + len b) rs
  end.

Definition segment_bytes (segment_id first_seqno : Z) (rs : list (Z * bytes)) : bytes :=
  segment_header_as_bytes (segment_header_new_signed segment_id first_seqno)
    ++ records_bytes 0 rs.
End Layout.

(** Records a writer can be given: [u64] sequence numbers. *)
Definition record_ok (r : Z * bytes) : Prop := is_u64 r.1.

(** * Lemmas *)

Lemma room_at_range pos : 0 ≤ pos → -16 < room_at pos ≤ MAX_FRAGMENT_PAYLOAD.
Proof.
  intros. unfold room_at. wal_consts. pose proof (Z.mod_pos_bound pos (32 * 1024)). lia.
Qed.

Lemma padding_cases pos :
  0 ≤ pos →
  (padding pos = [] ∧ 0 ≤ room_at pos) ∨
  (∃ k, padding pos = zeros k ∧ 0 < k < 16 ∧ k = BLOCK_SIZE - pos mod BLOCK_SIZE ∧
        room_at (pos + k) = MAX_FRAGMENT_PAYLOAD ∧ room_at pos < 0).
Proof.
  intros. unfold padding, room_at. wal_consts.
  pose proof (Z.mod_pos_bound pos (32 * 1024)). case_bool; [right|left; split; [done|lia]].
  eexists. split_and!; [done|lia|lia|done| |lia].
  replace (pos + (32 * 1024 - pos mod (32 * 1024)))
    with ((pos / (32 * 1024) + 1) * (32 * 1024)) by (pose proof (Z.div_mod pos (32 * 1024)); lia).
  rewrite Z.mod_mul by lia. lia.
Qed.

(** After its padding, a record always has room for a header. *)
Lemma room_after_padding pos :
  0 ≤ pos → 0 ≤ room_at (pos + len (padding pos)) ≤ MAX_FRAGMENT_PAYLOAD.
Proof.
  intros Hpos. pose proof (room_at_range (pos + len (padding pos)) ltac:(lia)).
  split; [|lia]. destruct (padding_cases pos Hpos) as [[-> ?]|(k & -> & ? & _ & E & _)].
  - by rewrite Z.add_0_r.
  - rewrite len_zeros, E by lia. wal_consts. lia.
Qed.

(** A fragment that fills its block ends on a block boundary. *)
Lemma room_at_next pos :
  0 ≤ pos → 0 ≤ room_at pos →
  room_at (pos + RECORD_HEADER_SIZE + room_at pos) = MAX_FRAGMENT_PAYLOAD.
Proof.
  intros Hpos Hroom. unfold room_at in *. wal_consts.
  replace (pos + 16 + (32 * 1024 - pos mod (32 * 1024) - 16))
    with ((pos / (32 * 1024) + 1) * (32 * 1024)) by (pose proof (Z.div_mod pos (32 * 1024)); lia).
  rewrite Z.mod_mul by lia. lia.
Qed.

(** Enough iterations for a payload: one more than its bytes, and one for a
    first fragment without room. *)
Definition enough (n : nat) (room : Z) (payload : bytes) : Prop :=
  (length payload + (if Z.leb 1 room then 1 else 2) ≤ n)%nat.

Lemma enough_step n room payload :
  0 ≤ room → enough (S n) room payload → room < len payload →
  enough n MAX_FRAGMENT_PAYLOAD (drop (Z.to_nat room) payload).
Proof.
  unfold enough. intros Hroom He Hlt. len_simpl. wal_consts. cbn [Z.leb] in *.
  revert He. case_bool; intros; decide_bool; lia.
Qed.

Lemma enough_init room payload : enough (length payload + 2) room payload.
Proof. unfold enough. case_bool; lia. Qed.

Lemma enough_not_O room payload : ¬ enough 0 room payload.
Proof. unfold enough. case_bool; lia. Qed.
