(* ===== verification/WalWriter.v ===== *)
(** The WAL segment writer: [crates/paddock-core/src/wal/writer.rs].

    The writer is a struct beside a file system; its methods run in the state
    and error monad over the pair.  The theorems relate what it appends to the
    reference layout, whether or not the file fails. *)

From S2P Require Import Prelude Checksum Vfs WalFormat WalLayout.

(** * The writer *)

Record SegmentWriter (F : Type) := {
  file : F;
  block_offset : Z;
  segment_id : Z;
  bytes_written : Z;
  rotate_at : Z
}.
Arguments file {F} _.
Arguments block_offset {F} _.
Arguments segment_id {F} _.
Arguments bytes_written {F} _.
Arguments rotate_at {F} _.

Definition DEFAULT_ROTATE_AT : Z := 64 * 1024 * 1024.

Section Writer.
Context `{Crc32c} {F W : Type} `{VfsFile F W}.

Definition set_block_offset (o : Z) (sw : SegmentWriter F) : SegmentWriter F :=
  {| file := file sw; block_offset := o; segment_id := segment_id sw;
     bytes_written := bytes_written sw; rotate_at := rotate_at sw |}.

Definition set_bytes_written (n : Z) (sw : SegmentWriter F) : SegmentWriter F :=
  {| file := file sw; block_offset := block_offset sw; segment_id := segment_id sw;
     bytes_written := n; rotate_at := rotate_at sw |}.

Definition set_rotate_at (n : Z) (sw : SegmentWriter F) : SegmentWriter F :=
  {| file := file sw; block_offset := block_offset sw; segment_id := segment_id sw;
     bytes_written := bytes_written sw; rotate_at := n |}.

Definition should_rotate (sw : SegmentWriter F) : bool := rotate_at sw <=? bytes_written sw.

Definition recompute_record_crc (header : RecordHeader) (payload : bytes) : Z :=
  let h := hasher_new in
  let h := hasher_update h [rh_record_type header; rh_reserved header] in
  let h := hasher_update h (le_bytes 8 (rh_seqno header)) in
  let h := hasher_update h payload in
  hasher_finalize h.

Definition create (file : F) (segment_id first_seqno : Z) : st W (SegmentWriter F) :=
  let header := segment_header_new_signed segment_id first_seqno in
  _ ← vf_append file (segment_header_as_bytes header);
  mret {| file := file; block_offset := 0; segment_id := segment_id;
          bytes_written := 0; rotate_at := DEFAULT_ROTATE_AT |}.

Definition pad_block_if_header_would_not_fit : st (SegmentWriter F * W) () :=
  '(sw, _) ← st_get;
  block_remaining ← st_lift (usize_sub BLOCK_SIZE (block_offset sw));
  if block_remaining <? RECORD_HEADER_SIZE then
    _ ← on_snd (vf_append (file sw) (zeros block_remaining));
    n ← st_lift (expect (checked_add (bytes_written sw) block_remaining));
    on_fst (st_modify (λ sw, set_block_offset 0 (set_bytes_written n sw)))
  else mret tt.

Definition write_fragment (record_type : RecordType) (seqno : Z) (payload : bytes) :
    st (SegmentWriter F * W) () :=
  _ ← st_lift (debug_assert (len payload <=? MAX_FRAGMENT_PAYLOAD));
  _ ← st_lift (debug_assert (len payload <? 2 ^ 16));
  let payload_len_u16 := u16 (len payload) in
  let header := record_header_sign (record_header_new record_type seqno payload_len_u16) payload in
  _ ← st_lift (debug_assert (rh_payload_crc32c header =? recompute_record_crc header payload));
  '(sw, _) ← st_get;
  _ ← on_snd (vf_append (file sw) (record_header_as_bytes header));
  _ ← on_snd (vf_append (file sw) payload);
  let frag_total := RECORD_HEADER_SIZE + len payload in
  n ← st_lift (expect (checked_add (bytes_written sw) frag_total));
  on_fst (st_modify (λ sw,
    set_bytes_written n (set_block_offset (block_offset sw + frag_total) sw))).

(** The loop of [append_record]; [fuel] bounds its iterations. *)
Fixpoint append_fragments (fuel : nat) (seqno : Z) (remaining : bytes) (is_first_fragment : bool) :
    st (SegmentWriter F * W) () :=
  match fuel with
  | O => st_lift OutOfFuel
  | S fuel =>
      '(sw, _) ← st_get;
      block_remaining ← st_lift (usize_sub BLOCK_SIZE (block_offset sw));
      _ ← st_lift (debug_assert (RECORD_HEADER_SIZE <=? block_remaining));
      payload_room ← st_lift (usize_sub block_remaining RECORD_HEADER_SIZE);
      let fragment_len := Z.min (len remaining) payload_room in
      let is_last := fragment_len =? len remaining in
      let record_type := fragment_type is_first_fragment is_last in
      fragment ← st_lift (slice_to remaining fragment_len);
      _ ← write_fragment record_type seqno fragment;
      remaining ← st_lift (slice_from remaining fragment_len);
      if len remaining =? 0 then mret tt
      else
        '(sw, _) ← st_get;
        _ ← st_lift (debug_assert (block_offset sw =? BLOCK_SIZE));
        _ ← on_fst (st_modify (set_block_offset 0));
        append_fragments fuel seqno remaining false
  end.

Definition append_record (seqno : Z) (payload : bytes) : st (SegmentWriter F * W) Z :=
  '(sw, _) ← st_get;
  let record_start := bytes_written sw in
  _ ← pad_block_if_header_would_not_fit;
  _ ← append_fragments (length payload + 2) seqno payload true;
  mret record_start.

Definition sync : st (SegmentWriter F * W) () :=
  '(sw, _) ← st_get;
  on_snd (vf_sync (file sw)).

(** A sequence of appends, stopping at the first error. *)
Fixpoint append_records (rs : list (Z * bytes)) : st (SegmentWriter F * W) () :=
  match rs with
  | [] => mret tt
  | (seqno, payload) :: rs => _ ← append_record seqno payload; append_records rs
  end.
End Writer.

(** * What the writer maintains *)

Section Spec.
Context `{Crc32cLaws} {F W : Type} `{FileLaws F W}.

(** [recs] is the records area behind the writer: the counters agree with it
    and the offset in the block with the position. *)
Record writer_ok (hdr recs : bytes) (s : SegmentWriter F * W) : Prop := {
  wo_contents : contents (file s.1) s.2 = hdr ++ recs;
  wo_written : bytes_written s.1 = len recs;
  wo_offset : 0 ≤ block_offset s.1 ≤ BLOCK_SIZE;
  wo_mod : block_offset s.1 mod BLOCK_SIZE = len recs mod BLOCK_SIZE
}.

(** What an error leaves: the records area and some part of what was being
    appended. *)
Definition torn (f : F) (hdr recs new : bytes) (s : SegmentWriter F * W) : Prop :=
  write_faults F W ∧ ∃ p, p `prefix_of` new ∧ contents f s.2 = hdr ++ recs ++ p.

Lemma torn_prefix f hdr recs new new' s :
  new `prefix_of` new' → torn f hdr recs new s → torn f hdr recs new' s.
Proof. intros Hp (? & p & Hpre & Hc). split; [done|]. exists p. split; [by etrans|done]. Qed.

Lemma torn_app f hdr recs a b s :
  torn f hdr (recs ++ a) b s → torn f hdr recs (a ++ b) s.
Proof.
  intros (? & p & Hp & Hc). split; [done|]. exists (a ++ p). split; [by apply prefix_app|].
  by rewrite Hc, <-!app_assoc.
Qed.

Lemma len_fragment_bytes seqno f : len (fragment_bytes seqno f) = RECORD_HEADER_SIZE + len f.2.
Proof. unfold fragment_bytes. len_simpl. wal_consts. lia. Qed.

Lemma mod_add_congr a b k : a mod BLOCK_SIZE = b mod BLOCK_SIZE →
  (a + k) mod BLOCK_SIZE = (b + k) mod BLOCK_SIZE.
Proof.
  intros E. wal_consts. rewrite <-(Z.add_mod_idemp_l a), E by lia.
  by rewrite Z.add_mod_idemp_l by lia.
Qed.

Lemma checked_add_ok a b : is_u64 (a + b) → checked_add a b = Some (a + b).
Proof. unfold is_u64, checked_add. intros. by decide_bool. Qed.

(** The offset in the block determines how much room is left. *)
Lemma writer_room hdr recs s :
  writer_ok hdr recs s → block_offset s.1 < BLOCK_SIZE →
  BLOCK_SIZE - block_offset s.1 - RECORD_HEADER_SIZE = room_at (len recs).
Proof.
  intros [] Hlt. unfold room_at. rewrite <-wo_mod0, Z.mod_small by lia. lia.
Qed.

(** Header and records of a segment fit one file. *)
Definition seg_fits (hdr : bytes) (n : Z) : Prop := len hdr + n ≤ MAX_FILE_SIZE.

Lemma seg_fits_u64 hdr n : 0 ≤ n → seg_fits hdr n → is_u64 n.
Proof. unfold seg_fits, MAX_FILE_SIZE, is_u64. lia. Qed.

Lemma write_fragment_wp hdr recs t seqno payload s :
  writer_ok hdr recs s →
  block_offset s.1 + RECORD_HEADER_SIZE + len payload ≤ BLOCK_SIZE →
  seg_fits hdr (len recs + (RECORD_HEADER_SIZE + len payload)) →
  wp (write_fragment t seqno payload)
     (λ _, torn (file s.1) hdr recs (fragment_bytes seqno (t, payload)))
     (λ _ s', file s'.1 = file s.1 ∧
        block_offset s'.1 = block_offset s.1 + (RECORD_HEADER_SIZE + len payload) ∧
        writer_ok hdr (recs ++ fragment_bytes seqno (t, payload)) s') s.
Proof.
  destruct s as [sw w]. cbn [fst snd]. intros [Hc Hbw Hbo Hmod] Hfit Hu. cbn [fst snd] in *.
  unfold write_fragment, debug_assert. wal_consts.
  apply wp_bind, wp_lift_Ok with tt; [by decide_bool|].
  apply wp_bind, wp_lift_Ok with tt; [by decide_bool|].
  apply wp_bind, wp_lift_Ok with tt; [by rewrite Z.eqb_refl|].
  apply wp_bind, wp_get. apply wp_bind, wp_on_snd, wp_append.
  1: { rewrite Hc, length_app, length_record_header. unfold seg_fits in *. lia. }
  2: { intros e w1 p Hfault Hp Hc1 _. split; [done|]. exists p. split.
       - unfold fragment_bytes. by apply prefix_app_r.
       - cbn. by rewrite Hc1, Hc, <-app_assoc. }
  intros w1 Hc1 _. apply wp_bind, wp_on_snd, wp_append.
  1: { rewrite Hc1, Hc, !length_app, length_record_header. unfold seg_fits in *. lia. }
  2: { intros e w2 p Hfault Hp Hc2 _. split; [done|]. eexists. split.
       - unfold fragment_bytes. by apply prefix_app, Hp.
       - cbn. by rewrite Hc2, Hc1, Hc, <-!app_assoc. }
  intros w2 Hc2 _. apply wp_bind, wp_lift_Ok with (bytes_written sw + (16 + len payload)).
  { rewrite checked_add_ok; [done|]. rewrite Hbw. eapply seg_fits_u64; [lia|done]. }
  apply wp_on_fst, wp_modify. split; [done|]. split; [done|].
  split; cbn [fst snd file set_bytes_written set_block_offset block_offset bytes_written].
  - by rewrite Hc2, Hc1, Hc, <-!app_assoc.
  - rewrite Hbw. len_simpl. pose proof (len_fragment_bytes seqno (t, payload)). wal_consts.
    cbn [snd] in *. lia.
  - wal_consts. lia.
  - rewrite length_app, Nat2Z.inj_add, len_fragment_bytes. by apply mod_add_congr.
Qed.

Lemma fragments_bytes_cons seqno f fs :
  fragments_bytes seqno (f :: fs) = fragment_bytes seqno f ++ fragments_bytes seqno fs.
Proof. done. Qed.

(** Starting the next block when the current one is full. *)
Lemma writer_ok_next_block hdr recs sw w :
  writer_ok hdr recs (sw, w) → block_offset sw = BLOCK_SIZE →
  writer_ok hdr recs (set_block_offset 0 sw, w).
Proof.
  intros [Hc Hw _ Hm] Hbo. cbn [fst snd] in *. split; cbn; [done|done|wal_consts; lia|].
  rewrite <-Hm, Hbo. wal_consts. by rewrite Z.mod_same, Z.mod_0_l by lia.
Qed.

(** The loop writes the fragments of the remaining payload. *)
Lemma append_fragments_wp fuel hdr recs seqno remaining first s :
  writer_ok hdr recs s → block_offset s.1 < BLOCK_SIZE → 0 ≤ room_at (len recs) →
  enough fuel (room_at (len recs)) remaining →
  let new := fragments_bytes seqno (fragments fuel (room_at (len recs)) first remaining) in
  seg_fits hdr (len recs + len new) →
  wp (append_fragments fuel seqno remaining first)
     (λ _, torn (file s.1) hdr recs new)
     (λ _ s', file s'.1 = file s.1 ∧ writer_ok hdr (recs ++ new) s') s.
Proof.
  revert recs remaining first s.
  induction fuel as [|fuel IH]; intros recs remaining first s Hok Hbo Hroom Henough.
  { by apply enough_not_O in Henough. }
  intros new Hu. pose proof (writer_room _ _ _ Hok Hbo) as Eroom.
  assert (new = fragments_bytes seqno (fragments (S fuel) (room_at (len recs)) first remaining))
    as Enew by done. clearbody new. cbn [fragments] in Enew.
  destruct s as [sw w]. cbn [fst snd] in *. cbn [append_fragments].
  apply wp_bind, wp_get. pose proof (wo_offset _ _ _ Hok) as Hoff. cbn [fst] in Hoff.
  apply wp_bind, wp_lift_Ok with (BLOCK_SIZE - block_offset sw); [by unfold usize_sub; decide_bool|].
  unfold debug_assert.
  apply wp_bind, wp_lift_Ok with tt; [by decide_bool|].
  apply wp_bind, wp_lift_Ok with (room_at (len recs)); [by unfold usize_sub; rewrite <-Eroom; decide_bool|].
  destruct (Z.leb_spec (len remaining) (room_at (len recs))) as [Hle|Hgt].
  - rewrite Z.min_l by lia. rewrite Z.eqb_refl.
    apply wp_bind, wp_lift_Ok with remaining.
    { rewrite slice_to_ok by lia. by rewrite Nat2Z.id, firstn_all. }
    rewrite fragments_bytes_cons in Enew.
    change (fragments_bytes seqno []) with (@nil Z) in Enew. rewrite app_nil_r in Enew. subst new.
    apply wp_bind. eapply wp_mono; [apply write_fragment_wp; [done|cbn; lia|]| |].
    { rewrite len_fragment_bytes in Hu. done. }
    { auto. }
    intros [] s' (Hf & _ & Hok'). apply wp_bind, wp_lift_Ok with [].
    { rewrite slice_from_ok by lia. by rewrite Nat2Z.id, drop_all. }
    cbn. split; done.
  - rewrite fragments_bytes_cons in Enew.
    set (frag := take (Z.to_nat (room_at (len recs))) remaining) in *.
    assert (len frag = room_at (len recs)) as Hfrag by (unfold frag; len_lia).
    rewrite Z.min_r, (proj2 (Z.eqb_neq _ _)) by lia.
    apply wp_bind, wp_lift_Ok with frag; [by rewrite slice_to_ok by lia|].
    set (fb := fragment_bytes seqno (fragment_type first false, frag)) in *.
    assert (Hfb : len fb = RECORD_HEADER_SIZE + room_at (len recs))
      by (unfold fb; rewrite len_fragment_bytes; cbn; lia).
    assert (seg_fits hdr (len recs + len fb)) by (unfold seg_fits in *; subst new; len_lia).
    apply wp_bind. eapply wp_mono; [apply write_fragment_wp; [done|cbn; lia|]| |].
    { rewrite Hfb in *. by rewrite Hfrag. }
    { intros e s'. apply torn_prefix. subst new. by apply prefix_app_r. }
    intros [] [sw' w'] (Hf & Hbo' & Hok'). cbn [fst snd] in *. rewrite <-Hf in *.
    apply wp_bind, wp_lift_Ok with (drop (Z.to_nat (room_at (len recs))) remaining);
      [by rewrite slice_from_ok by lia|].
    rewrite (proj2 (Z.eqb_neq _ _)) by len_lia.
    apply wp_bind, wp_get. apply wp_bind, wp_lift_Ok with tt.
    { rewrite (proj2 (Z.eqb_eq _ _)) by lia. done. }
    apply wp_bind, wp_on_fst, wp_modify.
    assert (Enext : room_at (len (recs ++ fb)) = MAX_FRAGMENT_PAYLOAD).
    { rewrite length_app, Nat2Z.inj_add, Hfb, Z.add_assoc. apply room_at_next; lia. }
    assert (Hok2 : writer_ok hdr (recs ++ fb) (set_block_offset 0 sw', w'))
      by (apply writer_ok_next_block; [done|lia]).
    subst new. eapply wp_mono; [apply (IH (recs ++ fb)); rewrite ?Enext|..]; try done; cbn [fst block_offset set_block_offset].
    + by apply enough_step.
    + rewrite length_app, Nat2Z.inj_add. unfold seg_fits in *. len_lia.
    + intros e s' Ht. apply torn_app. by rewrite Enext in Ht.
    + intros [] s' [Hf' Hok3]. rewrite Enext in Hok3. split; [done|]. by rewrite app_assoc.
Qed.

(** Padding brings the writer where a header fits. *)
Lemma pad_block_wp hdr recs s :
  writer_ok hdr recs s → seg_fits hdr (len recs + len (padding (len recs))) →
  wp pad_block_if_header_would_not_fit
     (λ _, torn (file s.1) hdr recs (padding (len recs)))
     (λ _ s', file s'.1 = file s.1 ∧ block_offset s'.1 < BLOCK_SIZE ∧
        writer_ok hdr (recs ++ padding (len recs)) s') s.
Proof.
  destruct s as [sw w]. intros Hok Hu. pose proof Hok as [Hc Hw Hbo Hmod]. cbn [fst snd] in *.
  unfold pad_block_if_header_would_not_fit. apply wp_bind, wp_get.
  apply wp_bind, wp_lift_Ok with (BLOCK_SIZE - block_offset sw); [by unfold usize_sub; decide_bool|].
  pose proof (Z.mod_pos_bound (len recs) BLOCK_SIZE ltac:(done)) as Hb.
  destruct (decide (block_offset sw = BLOCK_SIZE)) as [Efull|Hne].
  - (* the block is full: an empty append starts the next one *)
    assert (len recs mod BLOCK_SIZE = 0) as E0 by (rewrite <-Hmod, Efull; done).
    assert (padding (len recs) = []) as Epad by (unfold padding; rewrite E0; done).
    rewrite Epad, app_nil_r in *. replace (BLOCK_SIZE - block_offset sw) with 0 by lia.
    cbn [Z.ltb Z.compare RECORD_HEADER_SIZE]. apply wp_bind, wp_on_snd, wp_append.
    1: { rewrite Hc, length_app, len_zeros by done. unfold seg_fits in Hu. cbn [length] in *. lia. }
    2: { intros e w1 p Hfault Hp Hc1 _. split; [done|]. exists p. split; [done|]. cbn. by rewrite Hc1, Hc, <-app_assoc. }
    change (zeros 0) with (@nil Z). intros w1 Hc1 _. rewrite app_nil_r in Hc1.
    apply wp_bind, wp_lift_Ok with (bytes_written sw + 0).
    { rewrite checked_add_ok; [done|]. rewrite Hw. eapply seg_fits_u64; [lia|done]. }
    apply wp_on_fst, wp_modify. split_and!; [done|done|].
    split; cbn; [by rewrite Hc1|lia|wal_consts; lia|by rewrite E0].
  - assert (block_offset sw = len recs mod BLOCK_SIZE) as Ebo
      by (rewrite <-Hmod, Z.mod_small; lia).
    unfold padding in *. rewrite <-Ebo in *.
    destruct (Z.ltb_spec (BLOCK_SIZE - block_offset sw) RECORD_HEADER_SIZE) as [Hlt|Hge].
    + rewrite len_zeros in Hu by lia. apply wp_bind, wp_on_snd, wp_append.
      1: { rewrite Hc, length_app, len_zeros by lia. unfold seg_fits in *. lia. }
      2: { intros e w1 p Hfault Hp Hc1 _. split; [done|]. exists p. split; [done|]. cbn. by rewrite Hc1, Hc, <-app_assoc. }
      intros w1 Hc1 _. apply wp_bind, wp_lift_Ok with (bytes_written sw + (BLOCK_SIZE - block_offset sw)).
      { rewrite checked_add_ok; [done|]. rewrite Hw. eapply seg_fits_u64; [lia|done]. }
      apply wp_on_fst, wp_modify. split_and!; [done|done|].
      split; cbn [fst snd file block_offset bytes_written set_block_offset set_bytes_written].
      * by rewrite Hc1, Hc, app_assoc.
      * rewrite Hw. len_simpl. rewrite Nat2Z.inj_add, len_zeros by lia. lia.
      * wal_consts. lia.
      * rewrite length_app, Nat2Z.inj_add, len_zeros by lia.
        rewrite (mod_add_congr (len recs) (block_offset sw)) by lia.
        replace (block_offset sw + _) with BLOCK_SIZE by lia. done.
    + rewrite app_nil_r. apply wp_ret. split_and!; [done|cbn; lia|done].
Qed.

Lemma append_record_wp hdr recs seqno payload s :
  writer_ok hdr recs s → seg_fits hdr (len recs + len (record_bytes (len recs) (seqno, payload))) →
  wp (append_record seqno payload)
     (λ _, torn (file s.1) hdr recs (record_bytes (len recs) (seqno, payload)))
     (λ start s', start = len recs ∧ file s'.1 = file s.1 ∧
        writer_ok hdr (recs ++ record_bytes (len recs) (seqno, payload)) s') s.
Proof.
  intros Hok Hu. unfold append_record. destruct s as [sw w]. apply wp_bind, wp_get.
  unfold record_bytes, record_fragments in *. cbn [fst snd] in *.
  assert (len (recs ++ padding (len recs)) = len recs + len (padding (len recs)))
    as Elen by len_lia.
  apply wp_bind. eapply wp_mono; [apply pad_block_wp; [done|]| |].
  { unfold seg_fits in *. len_lia. }
  { intros e s'. by apply torn_prefix, prefix_app_r. }
  intros [] s' (Hf & Hbo & Hok'). cbn [fst] in *. apply wp_bind.
  eapply wp_mono; [apply (append_fragments_wp _ _ _ _ _ _ _ Hok' Hbo)| |].
  - rewrite Elen. apply room_after_padding. lia.
  - apply enough_init.
  - rewrite Elen. unfold seg_fits in *. len_lia.
  - intros e s'' Ht. rewrite Elen, Hf in Ht. by apply torn_app.
  - intros [] s'' [Hf' Hok'']. rewrite Elen in Hok''. apply wp_ret.
    split_and!; [by destruct Hok|congruence|]. by rewrite app_assoc.
Qed.

Lemma append_records_wp hdr recs rs s :
  writer_ok hdr recs s → seg_fits hdr (len recs + len (records_bytes (len recs) rs)) →
  wp (append_records rs)
     (λ _, torn (file s.1) hdr recs (records_bytes (len recs) rs))
     (λ _ s', file s'.1 = file s.1 ∧ writer_ok hdr (recs ++ records_bytes (len recs) rs) s') s.
Proof.
  revert recs s. induction rs as [|[seqno payload] rs IH]; intros recs s Hok Hu.
  { cbn [append_records records_bytes]. rewrite app_nil_r. by apply wp_ret. }
  cbn [records_bytes append_records] in *.
  set (b := record_bytes (len recs) (seqno, payload)) in *.
  assert (len (recs ++ b) = len recs + len b) as Elen by len_lia.
  assert (seg_fits hdr (len recs + len b)) by (unfold seg_fits in *; len_lia).
  apply wp_bind. eapply wp_mono; [by apply append_record_wp| |].
  { intros e s'. by apply torn_prefix, prefix_app_r. }
  intros start s' (_ & Hf & Hok'). fold b in Hok'. rewrite <-Hf, <-Elen in *.
  eapply wp_mono; [apply (IH _ _ Hok')| |].
  - unfold seg_fits in *. rewrite length_app in Hu. lia.
  - intros e s'' Ht. by apply torn_app.
  - intros [] s'' [Hf' Hok'']. split; [done|]. by rewrite app_assoc.
Qed.

Lemma create_wp f id seqno (w : W) :
  contents f w = [] →
  wp (create f id seqno)
     (λ _ w', write_faults F W ∧ ∃ p,
        p `prefix_of` segment_header_as_bytes (segment_header_new_signed id seqno) ∧
        contents f w' = p)
     (λ sw w', file sw = f ∧
        writer_ok (segment_header_as_bytes (segment_header_new_signed id seqno)) [] (sw, w')) w.
Proof.
  intros Hf. unfold create. apply wp_bind, wp_append.
  - rewrite Hf, length_segment_header. done.
  - intros w' Hc _. apply wp_ret. split; [done|].
    split; cbn -[segment_header_as_bytes]; [by rewrite Hc, Hf, app_nil_r|done|wal_consts; lia|done].
  - intros e w' p Hfault Hp Hc _. split; [done|]. exists p. by rewrite Hc, Hf.
Qed.
End Spec.

(** A fresh segment and the records appended to it, as [Db] uses the writer. *)
Definition write_segment `{Crc32c, VfsFile F W} (f : F) (id seqno : Z) (rs : list (Z * bytes)) :
    st W (SegmentWriter F) := λ w,
  match create f id seqno w with
  | (Ok sw, w) => let '(r, (sw, w)) := append_records rs (sw, w) in (_ ← r; Ok sw, w)
  | (r, w) => (r, w)
  end.

Lemma segment_seg_fits `{Crc32c} id seqno rs :
  len (segment_bytes id seqno rs) ≤ MAX_FILE_SIZE →
  seg_fits (segment_header_as_bytes (segment_header_new_signed id seqno)) (len (records_bytes 0 rs)).
Proof. unfold segment_bytes, seg_fits. rewrite length_app. lia. Qed.

(** * Properties *)

(** C19. Creating a segment in an empty file and appending records never panics
    and never loops forever.  When every call succeeds the file holds exactly
    the reference layout of the records and the writer's invariant holds; when
    the file fails, which only a faulty file does, it holds a prefix of that
    layout: nothing else is ever written. *)
Theorem write_segment_layout `{Crc32cLaws, FileLaws F W} (f : F) (id seqno : Z)
    (rs : list (Z * bytes)) (w : W) (Hempty : contents f w = [])
    (Hsize : len (segment_bytes id seqno rs) ≤ MAX_FILE_SIZE) :
  match write_segment f id seqno rs w with
  | (Ok sw, w') =>
      file sw = f ∧ contents f w' = segment_bytes id seqno rs ∧
      bytes_written sw = len (records_bytes 0 rs) ∧ 0 ≤ block_offset sw ≤ BLOCK_SIZE ∧
      block_offset sw mod BLOCK_SIZE = bytes_written sw mod BLOCK_SIZE
  | (Err _, w') => write_faults F W ∧ contents f w' `prefix_of` segment_bytes id seqno rs
  | (Panic, _) | (OutOfFuel, _) => False
  end.
Proof.
  unfold write_segment, segment_bytes. set (hdr := segment_header_as_bytes _).
  pose proof (create_wp f id seqno w Hempty) as Hcreate. unfold wp in Hcreate.
  destruct (create f id seqno w) as [[sw|e| |] w1]; try done.
  2: { destruct Hcreate as (? & p & Hp & ->). split; [done|]. by apply prefix_app_r. }
  destruct Hcreate as [Hf Hok].
  pose proof (append_records_wp _ _ rs _ Hok (segment_seg_fits _ _ _ Hsize)) as Happ. unfold wp in Happ.
  destruct (append_records rs (sw, w1)) as [[[]|e| |] [sw' w']]; try done; cbn in Happ |- *.
  - destruct Happ as [Hf' [Hc Hw Hbo Hmod]]. cbn [fst snd app length] in *.
    subst f. rewrite Hf' in *. by rewrite Hw.
  - destruct Happ as (? & p & Hp & Hc). split; [done|]. cbn in Hc. subst f. rewrite Hc.
    by apply prefix_app.
Qed.

Lemma write_segment_layout_witness :
  contents 0 mem_new = [] ∧
  (write_segment 0 5 1 [(1, [10; 20]); (2, [])] mem_new).1
    = Ok {| file := 0; block_offset := 34; segment_id := 5; bytes_written := 34;
            rotate_at := DEFAULT_ROTATE_AT |} ∧
  contents 0 (write_segment 0 5 1 [(1, [10; 20]); (2, [])] mem_new).2
    = segment_bytes 5 1 [(1, [10; 20]); (2, [])].
Proof.
  split_and!; [reflexivity|vm_compute; reflexivity|].
  pose proof (write_segment_layout 0 5 1 [(1, [10; 20]); (2, [])] mem_new eq_refl) as Hl.
  destruct (write_segment 0 5 1 [(1, [10; 20]); (2, [])] mem_new) as [[sw|e| |] w'].
  - apply Hl. vm_compute. discriminate.
  - exfalso. apply Hl. vm_compute. discriminate.
  - exfalso. apply Hl. vm_compute. discriminate.
  - exfalso. apply Hl. vm_compute. discriminate.
Defined.
