(* ===== verification/WalReader.v ===== *)
(** The WAL segment reader: [crates/paddock-core/src/wal/reader.rs].

    Reads go through the [VfsFile] interface; the reader's own cursor is its
    state.  Offsets are below 2{^63} on every target (a [Vec]'s length, a file
    offset), so the [u64] additions of the source do not wrap. *)

From S2P Require Import Prelude Checksum Vfs WalFormat WalLayout WalWriter.

(** * Data *)

Record RecordView := { rv_seqno : Z; rv_payload : bytes }.

Inductive ReadOutcome :=
| ReadRecord (view : RecordView)
| EndOfSegment
| ReadTornTail (truncate_to : Z) (reason : string).

Inductive ReplayOutcome :=
| Clean
| ReplayTornTail (truncate_to : Z) (reason : string).

Record SegmentReader (F : Type) := {
  sr_file : F;
  sr_file_size : Z;
  sr_cursor : Z;
  sr_header : SegmentHeader
}.
Arguments sr_file {F} _.
Arguments sr_file_size {F} _.
Arguments sr_cursor {F} _.
Arguments sr_header {F} _.

Definition reader_segment_id {F} (r : SegmentReader F) : Z := sh_segment_id (sr_header r).
Definition reader_first_seqno {F} (r : SegmentReader F) : Z := sh_first_seqno (sr_header r).

Record Fragment := { fr_record_type : RecordType; fr_seqno : Z; fr_payload : bytes }.

Inductive FragmentStep :=
| Got (f : Fragment)
| SkipBlock
| FragTornTail (reason : string).

Inductive AssemblyStep :=
| AsmContinue
| AsmComplete (view : RecordView).

#[global] Instance RecordView_eq_dec : EqDecision RecordView.
Proof. solve_decision. Defined.
#[global] Instance ReadOutcome_eq_dec : EqDecision ReadOutcome.
Proof. solve_decision. Defined.
#[global] Instance ReplayOutcome_eq_dec : EqDecision ReplayOutcome.
Proof. solve_decision. Defined.

(** * The reader *)

Definition all_zero (b : bytes) : bool := forallb (λ x, x =? 0) b.

(** [assemble] takes [&mut Option<RecordView>]: the new slot is returned. *)
Definition assemble (state : option RecordView) (frag : Fragment) :
    outcome (AssemblyStep * option RecordView) :=
  let seqno := fr_seqno frag in
  let payload := fr_payload frag in
  match fr_record_type frag, state with
  | Full, None => Ok (AsmComplete {| rv_seqno := seqno; rv_payload := payload |}, None)
  | Full, Some _ =>
      Err (corruption_static "wal segment" "FULL fragment encountered mid-record assembly")
  | First, None => Ok (AsmContinue, Some {| rv_seqno := seqno; rv_payload := payload |})
  | First, Some _ =>
      Err (corruption_static "wal segment" "FIRST fragment encountered mid-record assembly")
  | Middle, None =>
      Err (corruption_static "wal segment" "Middle fragment encountered without a preceding FIRST")
  | Last, None =>
      Err (corruption_static "wal segment" "Last fragment encountered without a preceding FIRST")
  | Middle, Some view =>
      if negb (rv_seqno view =? seqno)
      then Err (Corruption "wal segment"
                  (Fmt "MIDDLE fragment seqno {} does not match in-progress {}" [seqno; rv_seqno view]))
      else Ok (AsmContinue, Some {| rv_seqno := rv_seqno view; rv_payload := rv_payload view ++ payload |})
  | Last, Some view =>
      if negb (rv_seqno view =? seqno)
      then Err (Corruption "wal segment"
                  (Fmt "LAST fragment seqno {} does not match in-progress {}" [seqno; rv_seqno view]))
      else Ok (AsmComplete {| rv_seqno := rv_seqno view; rv_payload := rv_payload view ++ payload |}, None)
  end.

Section Reader.
Context `{Crc32c} {F W : Type} `{VfsFile F W}.

Definition set_cursor (c : Z) (r : SegmentReader F) : SegmentReader F :=
  {| sr_file := sr_file r; sr_file_size := sr_file_size r; sr_cursor := c;
     sr_header := sr_header r |}.

Definition open (file : F) (w : W) : outcome (SegmentReader F) :=
  file_size ← vf_size file w;
  if file_size <? SEGMENT_HEADER_SIZE
  then Err (InvalidFormat "wal segment"
              (Fmt "file too short: {} bytes (need at least {})" [file_size; SEGMENT_HEADER_SIZE]))
  else
    buf ← vf_read_at file SEGMENT_HEADER_SIZE 0 w;
    header ← ok_or (segment_header_from_bytes buf)
                   (invalid_format_static "wal segment header" "size mismatch");
    if negb (sh_magic header =? SEGMENT_MAGIC)
    then Err (invalid_format_static "wal segment header" "bad magic")
    else if negb (sh_version header =? FORMAT_VERSION)
    then Err (InvalidFormat "wal segment header"
                (Fmt "unsupported version {} (this build understands {})"
                   [sh_version header; FORMAT_VERSION]))
    else if negb (segment_header_is_valid header)
    then Err (corruption_static "wal segment header" "checksum mismatch")
    else Ok {| sr_file := file; sr_file_size := file_size; sr_cursor := 0; sr_header := header |}.

Definition skip_block_padding_if_needed (records_area_end : Z) (r : SegmentReader F) :
    SegmentReader F :=
  let block_offset := sr_cursor r mod BLOCK_SIZE in
  let block_remaining := BLOCK_SIZE - block_offset in
  if block_remaining <? RECORD_HEADER_SIZE then
    let next_block := sr_cursor r + block_remaining in
    if next_block <=? records_area_end then set_cursor next_block r else r
  else r.

Definition handle_tail (r : SegmentReader F) (records_area_end : Z) (assembled : option RecordView)
    (record_start_cursor : Z) (w : W) : outcome ReadOutcome :=
  match assembled with
  | Some _ => Ok (ReadTornTail record_start_cursor "segment ended mid-fragment")
  | None =>
      let bytes_remaining := Z.max 0 (records_area_end - sr_cursor r) in
      if bytes_remaining =? 0 then Ok EndOfSegment
      else
        tail ← vf_read_at (sr_file r) bytes_remaining (SEGMENT_HEADER_SIZE + sr_cursor r) w;
        if all_zero tail then Ok EndOfSegment
        else Ok (ReadTornTail record_start_cursor
                   "stray bytes shorter than a record header at segment tail")
  end.

Definition read_fragment (w : W) : st (SegmentReader F) FragmentStep :=
  r ← st_get;
  let file_offset := SEGMENT_HEADER_SIZE + sr_cursor r in
  header_bytes ← st_lift (vf_read_at (sr_file r) RECORD_HEADER_SIZE file_offset w);
  if all_zero header_bytes then
    let next_block := (sr_cursor r / BLOCK_SIZE + 1) * BLOCK_SIZE in
    _ ← st_modify (set_cursor next_block);
    mret SkipBlock
  else
    header ← st_lift (ok_or (record_header_from_bytes header_bytes)
                            (invalid_format_static "wal record header" "size mismatch"));
    let payload_len := rh_length header in
    if MAX_FRAGMENT_PAYLOAD <? payload_len
    then mret (FragTornTail "fragment length exceeds block size")
    else
      let payload_offset := file_offset + RECORD_HEADER_SIZE in
      if sr_file_size r <? payload_offset + payload_len
      then mret (FragTornTail "fragment payload truncated by segment EOF")
      else
        payload ← st_lift (vf_read_at (sr_file r) payload_len payload_offset w);
        if negb (expected_crc header payload =? rh_payload_crc32c header)
        then mret (FragTornTail "fragment crc32c mismatch")
        else
          record_type ← st_lift (ok_or (record_type_from_byte (rh_record_type header))
            (InvalidFormat "wal record header"
               (Fmt "invalid record_type byte {}" [rh_record_type header])));
          mret (Got {| fr_record_type := record_type; fr_seqno := rh_seqno header;
                       fr_payload := payload |}).

(** The loop of [next_record]; [fuel] bounds its iterations. *)
Fixpoint next_record_loop (fuel : nat) (w : W) (record_start_cursor records_area_end : Z)
    (assembled : option RecordView) : st (SegmentReader F) ReadOutcome :=
  match fuel with
  | O => st_lift OutOfFuel
  | S fuel =>
      _ ← st_modify (skip_block_padding_if_needed records_area_end);
      r ← st_get;
      if records_area_end <? sr_cursor r + RECORD_HEADER_SIZE
      then st_lift (handle_tail r records_area_end assembled record_start_cursor w)
      else
        step ← read_fragment w;
        match step with
        | SkipBlock => next_record_loop fuel w record_start_cursor records_area_end assembled
        | FragTornTail reason => mret (ReadTornTail record_start_cursor reason)
        | Got frag =>
            _ ← st_modify (λ r, set_cursor (sr_cursor r + (RECORD_HEADER_SIZE + len (fr_payload frag))) r);
            '(step, assembled) ← st_lift (assemble assembled frag);
            match step with
            | AsmContinue => next_record_loop fuel w record_start_cursor records_area_end assembled
            | AsmComplete view => mret (ReadRecord view)
            end
        end
  end.

(** Every iteration that does not return moves the cursor forward, and none
    starts beyond the end of the file: [file_size + 1] iterations suffice. *)
Definition next_record (w : W) : st (SegmentReader F) ReadOutcome :=
  r ← st_get;
  next_record_loop (Z.to_nat (sr_file_size r) + 1) w (sr_cursor r)
    (sr_file_size r - SEGMENT_HEADER_SIZE) None.

Fixpoint replay_loop {A} (fuel : nat) (on_record : RecordView → st A ()) (w : W) :
    st (SegmentReader F * A) ReplayOutcome :=
  match fuel with
  | O => st_lift OutOfFuel
  | S fuel =>
      out ← on_fst (next_record w);
      match out with
      | ReadRecord view => _ ← on_snd (on_record view); replay_loop fuel on_record w
      | EndOfSegment => mret Clean
      | ReadTornTail truncate_to reason => mret (ReplayTornTail truncate_to reason)
      end
  end.

Definition replay {A} (on_record : RecordView → st A ()) (w : W) :
    st (SegmentReader F * A) ReplayOutcome :=
  '(r, _) ← st_get;
  replay_loop (Z.to_nat (sr_file_size r) + 1) on_record w.
End Reader.

(** * What recovery should return *)

(** The records of [rs] that lie entirely in the first [n] bytes of their
    layout from offset [pos] on, and the bytes they take. *)
Fixpoint complete_records `{Crc32c} (pos : Z) (rs : list (Z * bytes)) (n : Z) : list (Z * bytes) :=
  match rs with
  | [] => []
  | r :: rs =>
      let b := len (record_bytes pos r) in
      if b <=? n then r :: complete_records (pos + b) rs (n - b) else []
  end.

Definition view_of (r : Z * bytes) : RecordView := {| rv_seqno := r.1; rv_payload := r.2 |}.

(** Running the callback over a list of records, stopping at its first error. *)
Fixpoint feed {A} (on_record : RecordView → st A ()) (rs : list (Z * bytes)) : st A () :=
  match rs with
  | [] => mret tt
  | r :: rs => _ ← on_record (view_of r); feed on_record rs
  end.

(** [replay] after [open], as [Db::open] uses them. *)
Definition recover `{Crc32c, VfsFile F W} {A} (on_record : RecordView → st A ()) (f : F) (w : W) :
    st A ReplayOutcome := λ a,
  match open f w with
  | Ok r => let '(out, (_, a)) := replay on_record w (r, a) in (out, a)
  | Err e => (Err e, a)
  | Panic => (Panic, a)
  | OutOfFuel => (OutOfFuel, a)
  end.

(** * Reading back the layout *)

Section Proofs.
Context `{Crc32cLaws} {F W : Type} `{ReliableReads F W}.

(** The reader [r] has the records area [area] in front of it. *)
Record reader_on (w : W) (area : bytes) (r : SegmentReader F) : Prop := {
  ro_contents : ∃ hdr, contents (sr_file r) w = hdr ++ area ∧ len hdr = SEGMENT_HEADER_SIZE;
  ro_size : sr_file_size r = SEGMENT_HEADER_SIZE + len area;
  ro_u64 : is_u64 (sr_file_size r);
  ro_cursor : 0 ≤ sr_cursor r
}.

Lemma reader_on_set w area r c : reader_on w area r → 0 ≤ c → reader_on w area (set_cursor c r).
Proof. by intros [] ?; split. Qed.

Lemma set_cursor_set c d (r : SegmentReader F) : set_cursor c (set_cursor d r) = set_cursor c r.
Proof. done. Qed.

Lemma set_cursor_self c (r : SegmentReader F) : c = sr_cursor r → set_cursor c r = r.
Proof. intros ->. by destruct r. Qed.

(** Bytes of the records area, read through the file. *)
Lemma read_area w area r n c :
  reader_on w area r → 0 ≤ n → 0 ≤ c → c + n ≤ len area →
  vf_read_at (sr_file r) n (SEGMENT_HEADER_SIZE + c) w
    = Ok (take (Z.to_nat n) (drop (Z.to_nat c) area)).
Proof.
  intros [(hdr & Hc & Hh) Hs Hu Hcur] Hn Hc0 Hle.
  rewrite read_at_reliable; rewrite ?Hc; try (len_lia || (wal_consts; len_lia)).
  - do 2 f_equal. replace (Z.to_nat (SEGMENT_HEADER_SIZE + c)) with (length hdr + Z.to_nat c)%nat by lia.
    by rewrite <-drop_drop, drop_app_length.
  - unfold is_u64 in *. len_simpl. lia.
Qed.

Lemma all_zero_false b x : x ∈ b → x ≠ 0 → all_zero b = false.
Proof.
  intros Hin Hne. unfold all_zero. apply not_true_is_false. rewrite forallb_forall.
  intros Hall. apply Hne, Z.eqb_eq, Hall. by apply list_elem_of_In.
Qed.

Lemma all_zero_zeros n : all_zero (zeros n) = true.
Proof.
  unfold all_zero. apply forallb_forall. intros x Hx%list_elem_of_In.
  by apply elem_of_replicate in Hx as [-> _].
Qed.

(** A signed fragment header is never mistaken for padding. *)
Lemma fragment_header_nonzero seqno f :
  all_zero (record_header_as_bytes (fragment_header seqno f)) = false.
Proof.
  apply all_zero_false with (record_type_as_byte f.1).
  - unfold record_header_as_bytes, fragment_header, record_header_sign, record_header_new.
    cbn [rh_record_type]. rewrite !elem_of_app. right; right; left.
    change (le_bytes 1 (record_type_as_byte f.1)) with [record_type_as_byte f.1 mod 256].
    destruct (f.1); apply list_elem_of_here.
  - by destruct (f.1).
Qed.

Definition fragment_ok (f : RecordType * bytes) : Prop := len f.2 ≤ MAX_FRAGMENT_PAYLOAD.

Lemma fragment_header_parse seqno f :
  is_u64 seqno → fragment_ok f →
  record_header_from_bytes (record_header_as_bytes (fragment_header seqno f))
    = Some (fragment_header seqno f) ∧ rh_length (fragment_header seqno f) = len f.2.
Proof.
  intros Hs Hf. unfold fragment_ok in Hf. wal_consts.
  assert (is_u16 (len f.2)) by (unfold is_u16; lia).
  assert (u16 (len f.2) = len f.2) as E by (apply Z.mod_small; done).
  unfold fragment_header. rewrite E. split; [|done].
  by apply record_header_from_as, record_header_signed_ok.
Qed.

(** ** One fragment *)

Lemma read_fragment_Got w area r seqno f post :
  reader_on w area r → is_u64 seqno → fragment_ok f →
  drop (Z.to_nat (sr_cursor r)) area = fragment_bytes seqno f ++ post →
  read_fragment w r
    = (Ok (Got {| fr_record_type := f.1; fr_seqno := seqno; fr_payload := f.2 |}), r).
Proof.
  intros Hr Hs Hf Hd. pose proof Hr as [_ Hsize _ Hcur].
  pose proof (fragment_header_parse seqno f Hs Hf) as [Hparse Hlen].
  assert (sr_cursor r + RECORD_HEADER_SIZE + len f.2 ≤ len area) as Hin.
  { pose proof (f_equal length Hd) as Hl. unfold fragment_bytes in Hl. len_simpl. wal_consts. lia. }
  unfold read_fragment. rewrite run_get.
  rewrite (run_lift _ _ _ (record_header_as_bytes (fragment_header seqno f))).
  2: { rewrite (read_area w area), Hd by (try done; wal_consts; lia). unfold fragment_bytes.
       by rewrite <-app_assoc, take_app_len by (rewrite length_record_header; done). }
  rewrite fragment_header_nonzero, (run_lift _ _ _ (fragment_header seqno f)) by (by rewrite Hparse).
  rewrite Hlen, (proj2 (Z.ltb_ge _ _)) by done.
  rewrite (proj2 (Z.ltb_ge _ _)) by (wal_consts; lia).
  rewrite (run_lift _ _ _ f.2).
  2: { rewrite <-Z.add_assoc, (read_area w area) by (try done; wal_consts; lia).
       rewrite Z2Nat.inj_add, <-drop_drop, Hd by (wal_consts; lia). unfold fragment_bytes.
       rewrite <-app_assoc, drop_app_len by (rewrite length_record_header; done).
       by rewrite take_app_len. }
  unfold fragment_header at 1 2. rewrite record_header_signed_crc, Z.eqb_refl. cbn [negb].
  change (rh_record_type (fragment_header seqno f)) with (record_type_as_byte f.1).
  by rewrite (run_lift _ _ _ f.1) by (by rewrite record_type_from_as).
Qed.

(** A fragment whose header is complete but whose payload is cut. *)
Lemma read_fragment_cut w area r seqno f q :
  reader_on w area r → is_u64 seqno → fragment_ok f →
  drop (Z.to_nat (sr_cursor r)) area = q → q `prefix_of` fragment_bytes seqno f →
  RECORD_HEADER_SIZE ≤ len q < len (fragment_bytes seqno f) →
  ∃ reason, read_fragment w r = (Ok (FragTornTail reason), r).
Proof.
  intros Hr Hs Hf Hd [rest Hq] Hlenq. pose proof Hr as [_ Hsize _ Hcur].
  pose proof (fragment_header_parse seqno f Hs Hf) as [Hparse Hlen].
  assert (len area = sr_cursor r + len q) as Harea.
  { pose proof (f_equal length Hd) as Hl. len_simpl. wal_consts. lia. }
  eexists. unfold read_fragment. rewrite run_get.
  rewrite (run_lift _ _ _ (record_header_as_bytes (fragment_header seqno f))).
  2: { rewrite (read_area w area), Hd by (try done; wal_consts; lia). f_equal.
       rewrite <-(take_app_le q rest), <-Hq by (wal_consts; lia).
       unfold fragment_bytes. by rewrite take_app_len by (rewrite length_record_header; done). }
  rewrite fragment_header_nonzero, (run_lift _ _ _ (fragment_header seqno f)) by (by rewrite Hparse).
  rewrite Hlen, (proj2 (Z.ltb_ge _ _)) by done.
  rewrite (proj2 (Z.ltb_lt _ _)); [done|].
  rewrite len_fragment_bytes in Hlenq. wal_consts. lia.
Qed.

(** ** One record *)

(** The assembly slot after the fragments [acc] of a record. *)
Definition slot (first : bool) (seqno : Z) (acc : bytes) : option RecordView :=
  if first then None else Some {| rv_seqno := seqno; rv_payload := acc |}.

Lemma assemble_fragment first last seqno acc p :
  (first = true → acc = []) →
  assemble (slot first seqno acc)
    {| fr_record_type := fragment_type first last; fr_seqno := seqno; fr_payload := p |}
  = Ok (if last then (AsmComplete {| rv_seqno := seqno; rv_payload := acc ++ p |}, None)
        else (AsmContinue, slot false seqno (acc ++ p))).
Proof.
  intros Hacc. destruct first; [rewrite Hacc by done|];
    destruct last; cbn; rewrite ?Z.eqb_refl; done.
Qed.

Lemma skip_noop area_end (r : SegmentReader F) :
  0 ≤ room_at (sr_cursor r) → skip_block_padding_if_needed area_end r = r.
Proof.
  unfold room_at, skip_block_padding_if_needed. intros.
  by rewrite (proj2 (Z.ltb_ge _ _)) by lia.
Qed.

Lemma drop_step (c n : Z) (area a b : bytes) :
  0 ≤ c → drop (Z.to_nat c) area = a ++ b → n = len a → drop (Z.to_nat (c + n)) area = b.
Proof.
  intros Hc Hd ->. rewrite Z2Nat.inj_add, <-drop_drop, Hd by lia. by apply drop_app_len.
Qed.

(** Reading one complete fragment and folding it into the record. *)
Lemma next_record_loop_fragment w area r start seqno first last acc p post fuel :
  reader_on w area r → 0 ≤ room_at (sr_cursor r) → is_u64 seqno →
  len p ≤ MAX_FRAGMENT_PAYLOAD → (first = true → acc = []) →
  drop (Z.to_nat (sr_cursor r)) area = fragment_bytes seqno (fragment_type first last, p) ++ post →
  let r' := set_cursor (sr_cursor r + (RECORD_HEADER_SIZE + len p)) r in
  next_record_loop (S fuel) w start (len area) (slot first seqno acc) r
  = if last then (Ok (ReadRecord {| rv_seqno := seqno; rv_payload := acc ++ p |}), r')
    else next_record_loop fuel w start (len area) (slot false seqno (acc ++ p)) r'.
Proof.
  intros Hr Hroom Hs Hp Hacc Hd. cbn [next_record_loop]. rewrite run_modify, run_get.
  rewrite skip_noop by done.
  assert (sr_cursor r + RECORD_HEADER_SIZE ≤ len area).
  { pose proof (f_equal length Hd) as Hl. pose proof (ro_cursor _ _ _ Hr).
    unfold fragment_bytes in Hl. len_simpl. wal_consts. lia. }
  rewrite (proj2 (Z.ltb_ge _ _)) by lia.
  rewrite (run_bind _ _ _ _ _ (read_fragment_Got _ _ _ _ (_, _) _ Hr Hs Hp Hd)).
  cbn [fst snd fr_payload]. rewrite run_modify.
  rewrite (run_lift _ _ _ _ (assemble_fragment first last seqno acc p Hacc)).
  by destruct last.
Qed.

Lemma next_record_loop_complete n w area r start seqno first acc payload post fuel :
  reader_on w area r → 0 ≤ room_at (sr_cursor r) → is_u64 seqno →
  enough n (room_at (sr_cursor r)) payload → (first = true → acc = []) →
  let fs := fragments n (room_at (sr_cursor r)) first payload in
  drop (Z.to_nat (sr_cursor r)) area = fragments_bytes seqno fs ++ post →
  (length fs ≤ fuel)%nat →
  next_record_loop fuel w start (len area) (slot first seqno acc) r
  = (Ok (ReadRecord {| rv_seqno := seqno; rv_payload := acc ++ payload |}),
     set_cursor (sr_cursor r + len (fragments_bytes seqno fs)) r).
Proof.
  revert r first acc payload fuel. induction n as [|n IH]; intros r first acc payload fuel
    Hr Hroom Hs He Hacc.
  { by apply enough_not_O in He. }
  pose proof (ro_cursor _ _ _ Hr) as Hcur. pose proof (room_at_range (sr_cursor r) Hcur) as Hrange.
  cbn zeta. cbn [fragments]. destruct (Z.leb_spec (len payload) (room_at (sr_cursor r))) as [Hle|Hgt].
  - rewrite fragments_bytes_cons, <-app_assoc. intros Hd Hfuel.
    destruct fuel as [|fuel]; [cbn in Hfuel; lia|].
    rewrite (next_record_loop_fragment w area r start seqno first true acc payload _ fuel Hr
      Hroom Hs ltac:(lia) Hacc Hd).
    change (fragments_bytes seqno []) with (@nil Z). by rewrite app_nil_r, len_fragment_bytes.
  - set (frag := take _ payload). set (rest := drop _ payload).
    assert (len frag = room_at (sr_cursor r)) as Hfrag by (unfold frag; len_lia).
    rewrite fragments_bytes_cons, <-app_assoc. intros Hd Hfuel.
    destruct fuel as [|fuel]; [cbn in Hfuel; lia|]. cbn in Hfuel.
    rewrite (next_record_loop_fragment w area r start seqno first false acc frag _ fuel Hr
      Hroom Hs ltac:(lia) Hacc Hd).
    rewrite Hfrag. set (r' := set_cursor _ r).
    assert (Hr' : reader_on w area r') by (apply reader_on_set; [done|wal_consts; lia]).
    assert (Hnext : room_at (sr_cursor r') = MAX_FRAGMENT_PAYLOAD).
    { unfold r'. cbn [sr_cursor set_cursor]. rewrite Z.add_assoc. by apply room_at_next. }
    rewrite (IH r' false (acc ++ frag) rest fuel); rewrite ?Hnext; try done.
    + replace ((acc ++ frag) ++ rest) with (acc ++ payload)
        by (unfold frag, rest; by rewrite <-app_assoc, take_drop).
      rewrite length_app, Nat2Z.inj_add, len_fragment_bytes. cbn [snd]. rewrite Hfrag.
      unfold r'. rewrite set_cursor_set. cbn [sr_cursor set_cursor]. by rewrite !Z.add_assoc.
    + by apply enough_step.
    + apply (drop_step _ _ _ _ _ Hcur Hd).
      rewrite len_fragment_bytes. cbn. lia.
    + lia.
Qed.

(** ** A record cut short *)

(** The two verdicts on a tail that is not a whole record. *)
Definition tail_verdict (start : Z) (out : ReadOutcome) : Prop :=
  out = EndOfSegment ∨ ∃ reason, out = ReadTornTail start reason.

Lemma handle_tail_verdict w area r start assembled :
  reader_on w area r →
  ∃ out, handle_tail r (len area) assembled start w = Ok out ∧ tail_verdict start out.
Proof.
  intros Hr. unfold handle_tail, tail_verdict. pose proof (ro_cursor _ _ _ Hr).
  destruct assembled; [eauto|]. case_bool; [eauto|].
  rewrite (read_area w area) by (try done; lia). cbn. destruct (all_zero _); eauto.
Qed.

(** The loop at a place where less than a header is left. *)
Lemma next_record_loop_tail w area r start assembled fuel :
  reader_on w area r → 0 ≤ room_at (sr_cursor r) → len area < sr_cursor r + RECORD_HEADER_SIZE →
  ∃ out r', next_record_loop (S fuel) w start (len area) assembled r = (Ok out, r') ∧
    tail_verdict start out.
Proof.
  intros Hr Hroom Hlt. destruct (handle_tail_verdict w area r start assembled Hr) as (out & E & Hv).
  exists out, r. split; [|done]. cbn [next_record_loop]. rewrite run_modify, run_get.
  rewrite skip_noop by done. rewrite (proj2 (Z.ltb_lt _ _)) by lia. unfold st_lift. by rewrite E.
Qed.

Lemma len_drop_area (c : Z) (area q : bytes) :
  0 ≤ c ≤ len area → drop (Z.to_nat c) area = q → len area = c + len q.
Proof. intros Hc <-. len_simpl. lia. Qed.

(** A cut inside the first of the remaining fragments. *)
Lemma next_record_loop_cut_here w area r start seqno f assembled q fuel :
  reader_on w area r → 0 ≤ room_at (sr_cursor r) → sr_cursor r ≤ len area →
  is_u64 seqno → fragment_ok f →
  drop (Z.to_nat (sr_cursor r)) area = q → q `prefix_of` fragment_bytes seqno f →
  len q < len (fragment_bytes seqno f) →
  ∃ out r', next_record_loop (S fuel) w start (len area) assembled r = (Ok out, r') ∧
    tail_verdict start out.
Proof.
  intros Hr Hroom Hle Hs Hf Hd Hq Hlen. pose proof (ro_cursor _ _ _ Hr) as Hcur.
  pose proof (len_drop_area (sr_cursor r) area q ltac:(lia) Hd) as Harea.
  destruct (decide (len q < RECORD_HEADER_SIZE)).
  { apply next_record_loop_tail; [done|done|lia]. }
  destruct (read_fragment_cut w area r seqno f q Hr Hs Hf Hd Hq ltac:(lia)) as (reason & E).
  exists (ReadTornTail start reason), r. split; [|right; eauto].
  cbn [next_record_loop]. rewrite run_modify, run_get.
  rewrite skip_noop by done. rewrite (proj2 (Z.ltb_ge _ _)) by lia.
  by rewrite (run_bind _ _ _ _ _ E).
Qed.

Lemma next_record_loop_cut n w area r start seqno first acc payload q fuel :
  reader_on w area r → 0 ≤ room_at (sr_cursor r) → sr_cursor r ≤ len area → is_u64 seqno →
  enough n (room_at (sr_cursor r)) payload → (first = true → acc = []) →
  let fs := fragments n (room_at (sr_cursor r)) first payload in
  drop (Z.to_nat (sr_cursor r)) area = q → q `prefix_of` fragments_bytes seqno fs →
  len q < len (fragments_bytes seqno fs) → (length q < fuel)%nat →
  ∃ out r', next_record_loop fuel w start (len area) (slot first seqno acc) r = (Ok out, r') ∧
    tail_verdict start out.
Proof.
  revert r first acc payload q fuel. induction n as [|n IH]; intros r first acc payload q fuel
    Hr Hroom Hle Hs He Hacc.
  { by apply enough_not_O in He. }
  pose proof (ro_cursor _ _ _ Hr) as Hcur. pose proof (room_at_range (sr_cursor r) Hcur) as Hrange.
  cbn zeta. cbn [fragments]. destruct fuel as [|fuel]; [lia|].
  destruct (Z.leb_spec (len payload) (room_at (sr_cursor r))) as [Hfit|Hgt].
  - rewrite fragments_bytes_cons. change (fragments_bytes seqno []) with (@nil Z).
    rewrite app_nil_r. intros Hd Hq Hlen _.
    eapply next_record_loop_cut_here; try done. unfold fragment_ok. cbn. lia.
  - set (frag := take _ payload). set (rest := drop _ payload).
    assert (len frag = room_at (sr_cursor r)) as Hfrag by (unfold frag; len_lia).
    rewrite fragments_bytes_cons. intros Hd Hq Hlen Hfuel.
    set (fb := fragment_bytes seqno (fragment_type first false, frag)) in *.
    assert (Hfb : len fb = RECORD_HEADER_SIZE + room_at (sr_cursor r))
      by (unfold fb; rewrite len_fragment_bytes; cbn; lia).
    destruct (decide (len q < len fb)).
    { eapply (next_record_loop_cut_here _ _ _ _ _ (_, frag)); try done.
      - unfold fragment_ok. cbn. lia.
      - apply prefix_app_short in Hq; [done|lia]. }
    apply prefix_app_cover in Hq as (q' & -> & Hq'); [|lia].
    rewrite (next_record_loop_fragment w area r start seqno first false acc frag _ fuel Hr
      Hroom Hs ltac:(lia) Hacc Hd).
    rewrite Hfrag. set (r' := set_cursor _ r).
    assert (Hr' : reader_on w area r') by (apply reader_on_set; [done|wal_consts; lia]).
    assert (Hnext : room_at (sr_cursor r') = MAX_FRAGMENT_PAYLOAD).
    { unfold r'. cbn [sr_cursor set_cursor]. rewrite Z.add_assoc. by apply room_at_next. }
    pose proof (len_drop_area (sr_cursor r) area _ ltac:(lia) Hd) as Harea.
    rewrite length_app, Nat2Z.inj_add in Harea. wal_consts.
    apply (IH r' false (acc ++ frag) rest q' fuel); rewrite ?Hnext; try done.
    + cbn. len_simpl. lia.
    + by apply enough_step.
    + apply (drop_step _ _ _ _ _ Hcur Hd). lia.
    + len_simpl. lia.
    + len_simpl. lia.
Qed.

(** ** Whole records *)

Lemma skip_padding (area rest : bytes) (r : SegmentReader F) :
  0 ≤ sr_cursor r ≤ len area →
  drop (Z.to_nat (sr_cursor r)) area = padding (sr_cursor r) ++ rest →
  skip_block_padding_if_needed (len area) r
    = set_cursor (sr_cursor r + len (padding (sr_cursor r))) r.
Proof.
  intros Hc Hd. pose proof (len_drop_area _ _ _ Hc Hd) as Hlen. rewrite length_app in Hlen.
  destruct (padding_cases (sr_cursor r)) as [[E Hroom]|(k & E & Hk & Ek & _ & Hroom)]; [lia| |].
  - rewrite skip_noop, E by done. symmetry. apply set_cursor_self. cbn. lia.
  - rewrite E in *. rewrite len_zeros by lia.
    assert (len (zeros k) = k) by (apply len_zeros; lia).
    unfold skip_block_padding_if_needed. rewrite <-Ek. wal_consts.
    rewrite (proj2 (Z.ltb_lt _ _)), (proj2 (Z.leb_le _ _)) by lia. done.
Qed.

Lemma next_record_loop_skip fuel w start area_end assembled (r : SegmentReader F) :
  0 ≤ room_at (sr_cursor (skip_block_padding_if_needed area_end r)) →
  next_record_loop (S fuel) w start area_end assembled r
  = next_record_loop (S fuel) w start area_end assembled (skip_block_padding_if_needed area_end r).
Proof.
  intros Hroom. cbn [next_record_loop]. rewrite !run_modify.
  by rewrite (skip_noop area_end (skip_block_padding_if_needed area_end r)).
Qed.

Lemma length_fragments_bytes seqno fs : (length fs ≤ length (fragments_bytes seqno fs))%nat.
Proof.
  induction fs as [|f fs IH]; [done|]. rewrite fragments_bytes_cons. len_simpl.
  pose proof (len_fragment_bytes seqno f). wal_consts. lia.
Qed.

Lemma next_record_complete w area r seqno payload post :
  reader_on w area r → sr_cursor r ≤ len area → is_u64 seqno →
  drop (Z.to_nat (sr_cursor r)) area = record_bytes (sr_cursor r) (seqno, payload) ++ post →
  next_record w r
  = (Ok (ReadRecord (view_of (seqno, payload))),
     set_cursor (sr_cursor r + len (record_bytes (sr_cursor r) (seqno, payload))) r).
Proof.
  intros Hr Hle Hs Hd. pose proof (ro_cursor _ _ _ Hr) as Hcur. pose proof (ro_size _ _ _ Hr) as Hsize.
  unfold record_bytes in Hd. cbn [fst snd] in Hd. rewrite <-app_assoc in Hd.
  pose proof (skip_padding area _ r ltac:(lia) Hd) as Hskip.
  pose proof (room_after_padding (sr_cursor r) Hcur) as Hroom.
  pose proof (len_drop_area (sr_cursor r) area _ ltac:(lia) Hd) as Harea. rewrite !length_app in Harea.
  unfold next_record. rewrite run_get.
  replace (sr_file_size r - SEGMENT_HEADER_SIZE) with (len area) by lia.
  rewrite Nat.add_1_r, next_record_loop_skip by (rewrite Hskip; apply Hroom). rewrite Hskip.
  rewrite (next_record_loop_complete (length payload + 2) w area _ _ seqno true [] payload post);
    cbn [sr_cursor set_cursor]; try done; try lia.
  - unfold record_bytes, record_fragments, view_of. cbn [fst snd]. rewrite length_app, Nat2Z.inj_add.
    rewrite set_cursor_set. by rewrite Z.add_assoc.
  - apply reader_on_set; [done|lia].
  - apply enough_init.
  - by apply (drop_step _ _ _ _ _ Hcur Hd).
  - pose proof (length_fragments_bytes seqno (record_fragments (sr_cursor r) payload)).
    unfold record_fragments in *. wal_consts. lia.
Qed.

Lemma next_record_cut w area r seqno payload q :
  reader_on w area r → sr_cursor r ≤ len area → is_u64 seqno →
  drop (Z.to_nat (sr_cursor r)) area = q →
  q `prefix_of` record_bytes (sr_cursor r) (seqno, payload) →
  len q < len (record_bytes (sr_cursor r) (seqno, payload)) →
  ∃ out r', next_record w r = (Ok out, r') ∧ tail_verdict (sr_cursor r) out.
Proof.
  intros Hr Hle Hs Hd Hq Hlt. pose proof (ro_cursor _ _ _ Hr) as Hcur. pose proof (ro_size _ _ _ Hr) as Hsize.
  unfold record_bytes in Hq, Hlt. cbn [fst snd] in Hq, Hlt.
  pose proof (len_drop_area (sr_cursor r) area _ ltac:(lia) Hd) as Harea.
  unfold next_record. rewrite run_get.
  replace (sr_file_size r - SEGMENT_HEADER_SIZE) with (len area) by lia. rewrite Nat.add_1_r.
  destruct (decide (length q < length (padding (sr_cursor r)))%nat) as [Hshort|Hlong].
  - destruct (padding_cases (sr_cursor r) Hcur) as [[E _]|(k & E & Hk & Ek & _ & Hroom)];
      rewrite E in *; [cbn in Hshort; lia|].
    pose proof (len_zeros k ltac:(lia)).
    destruct (handle_tail_verdict w area r (sr_cursor r) None Hr) as (out & Eout & Hv).
    exists out, r. split; [|done]. cbn [next_record_loop]. rewrite run_modify, run_get.
    assert (skip_block_padding_if_needed (len area) r = r) as ->.
    { unfold skip_block_padding_if_needed. rewrite <-Ek. wal_consts.
      by rewrite (proj2 (Z.ltb_lt _ _)), (proj2 (Z.leb_gt _ _)) by lia. }
    rewrite (proj2 (Z.ltb_lt _ _)) by (wal_consts; lia). unfold st_lift. by rewrite Eout.
  - apply prefix_app_cover in Hq as (q' & -> & Hq'); [|lia].
    pose proof (skip_padding area _ r ltac:(lia) Hd) as Hskip.
    pose proof (room_after_padding (sr_cursor r) Hcur) as Hroom. rewrite !length_app in *.
    rewrite next_record_loop_skip by (rewrite Hskip; apply Hroom). rewrite Hskip.
    apply (next_record_loop_cut (length payload + 2) w area _ _ seqno true [] payload q');
      cbn [sr_cursor set_cursor]; try done; try lia.
    + apply reader_on_set; [done|lia].
    + apply enough_init.
    + by apply (drop_step _ _ _ _ _ Hcur Hd).
    + unfold record_fragments in *. lia.
    + wal_consts. lia.
Qed.

(** ** Whole segments *)

Definition replay_verdict (truncate_to : Z) (out : ReplayOutcome) : Prop :=
  out = Clean ∨ ∃ reason, out = ReplayTornTail truncate_to reason.

(** The result of a replay and the callback's state. *)
Definition without_reader {A B} (x : outcome B * (SegmentReader F * A)) : outcome B * A :=
  (x.1, x.2.2).

Lemma next_record_end w area r :
  reader_on w area r → sr_cursor r = len area → next_record w r = (Ok EndOfSegment, r).
Proof.
  intros Hr Hc. pose proof (ro_cursor _ _ _ Hr) as Hcur. pose proof (ro_size _ _ _ Hr) as Hsize.
  unfold next_record. rewrite run_get, Nat.add_1_r. cbn [next_record_loop].
  replace (sr_file_size r - SEGMENT_HEADER_SIZE) with (len area) by lia.
  rewrite run_modify, run_get.
  assert (skip_block_padding_if_needed (len area) r = r) as ->.
  { unfold skip_block_padding_if_needed.
    pose proof (Z.mod_pos_bound (sr_cursor r) BLOCK_SIZE ltac:(done)).
    case_bool; [|done]. by rewrite (proj2 (Z.leb_gt _ _)) by lia. }
  rewrite (proj2 (Z.ltb_lt _ _)) by (wal_consts; lia).
  unfold handle_tail, st_lift. by rewrite Hc, Z.sub_diag.
Qed.

(** What the loop does with the reader's verdict on a tail. *)
Lemma replay_loop_verdict {A} (on_record : RecordView → st A ()) fuel w start out r r' a :
  next_record w r = (Ok out, r') → tail_verdict start out →
  ∃ out', replay_verdict start out' ∧ (out = EndOfSegment → out' = Clean) ∧
    replay_loop (S fuel) on_record w (r, a) = (Ok out', (r', a)).
Proof.
  intros E Hv. cbn [replay_loop]. rewrite (run_bind _ _ _ _ _ (on_fst_run _ _ a _ _ E)).
  destruct Hv as [->|[reason ->]].
  - exists Clean. split_and!; [by left|done|done].
  - exists (ReplayTornTail start reason). split_and!; [right; eauto|done|done].
Qed.

Lemma len_record_bytes pos rec : 1 ≤ len (record_bytes pos rec).
Proof.
  unfold record_bytes, record_fragments. rewrite Nat.add_comm. cbn [fragments Nat.add].
  case_bool; rewrite fragments_bytes_cons, !length_app;
    pose proof (λ t b, len_fragment_bytes rec.1 (t, b)) as Hl.
  - specialize (Hl (fragment_type true true) rec.2). cbn [snd] in *. wal_consts. lia.
  - specialize (Hl (fragment_type true false)). wal_consts. cbn [snd] in *.
    match goal with |- context [take ?k ?b] => specialize (Hl (take k b)) end. lia.
Qed.

Lemma replay_loop_prefix {A} (on_record : RecordView → st A ()) rs w area r q fuel (a : A) :
  reader_on w area r → sr_cursor r ≤ len area → Forall record_ok rs →
  drop (Z.to_nat (sr_cursor r)) area = q → q `prefix_of` records_bytes (sr_cursor r) rs →
  (length q < fuel)%nat →
  let good := complete_records (sr_cursor r) rs (len q) in
  ∃ out, replay_verdict (sr_cursor r + len (records_bytes (sr_cursor r) good)) out ∧
    (q = records_bytes (sr_cursor r) rs → out = Clean) ∧
    without_reader (replay_loop fuel on_record w (r, a))
      = (feed on_record good ≫= λ _, mret out) a.
Proof.
  intros Hr Hle Hrs. revert r q fuel a Hr Hle.
  induction Hrs as [|[seqno payload] rs Hrec Hrs IH]; intros r q fuel a Hr Hle Hd Hq Hfuel;
    (destruct fuel as [|fuel]; [lia|]); pose proof (ro_cursor _ _ _ Hr) as Hcur;
    pose proof (len_drop_area (sr_cursor r) area _ ltac:(lia) Hd) as Harea.
  - apply prefix_nil_inv in Hq as ->. cbn in Harea. exists Clean. split_and!; [by left|done|].
    cbn [replay_loop complete_records feed].
    by rewrite (run_bind _ _ _ _ _ (on_fst_run _ _ a _ _ (next_record_end w area r Hr ltac:(lia)))).
  - cbn zeta. cbn [complete_records records_bytes] in *.
    set (b := record_bytes (sr_cursor r) (seqno, payload)) in *.
    destruct (Z.leb_spec (len b) (len q)) as [Hfull|Hcut].
    + apply prefix_app_cover in Hq as (q' & -> & Hq'); [|lia].
      pose proof (next_record_complete w area r seqno payload q' Hr Hle Hrec Hd) as Hnext. fold b in Hnext.
      set (r' := set_cursor _ r) in Hnext.
      assert (1 ≤ len b) by apply len_record_bytes. rewrite length_app in *.
      cbn [replay_loop feed]. rewrite (run_bind _ _ _ _ _ (on_fst_run _ _ a _ _ Hnext)).
      replace (Z.of_nat (length b + length q') - len b) with (len q') by lia.
      assert (Hr' : reader_on w area r') by (apply reader_on_set; [done|lia]).
      unfold mbind, st_bind, on_snd.
      destruct (on_record (view_of (seqno, payload)) a) as [[[]| | |] a'] eqn:Erec.
      2-4: exists Clean; split_and!; [by left|done|done].
      destruct (IH r' q' fuel a') as (out & Hv & Hclean & Hrun);
        [done|cbn; lia|by apply (drop_step _ _ _ _ _ Hcur Hd)|done|lia|].
      cbn [sr_cursor set_cursor] in Hv, Hclean, Hrun. exists out. split_and!; [| |exact Hrun].
      * cbn [records_bytes]. fold b. rewrite length_app, Nat2Z.inj_add, Z.add_assoc. done.
      * intros Eq%(inj _). by apply Hclean.
    + destruct (next_record_cut w area r seqno payload q Hr Hle Hrec Hd) as (out & r' & E & Hv);
        [by apply prefix_app_short in Hq; [|lia]|done|].
      destruct (replay_loop_verdict on_record fuel w _ _ _ _ a E Hv) as (out' & Hv' & _ & Hrun).
      exists out'. split_and!.
      * cbn [records_bytes length]. by rewrite Z.add_0_r.
      * intros ->. rewrite length_app in Hcut. lia.
      * by rewrite Hrun.
Qed.

(** ** Opening *)

Lemma open_segment f w id seqno area :
  contents f w = segment_header_as_bytes (segment_header_new_signed id seqno) ++ area →
  is_u64 id → is_u64 seqno → is_u64 (SEGMENT_HEADER_SIZE + len area) →
  open f w = Ok {| sr_file := f; sr_file_size := SEGMENT_HEADER_SIZE + len area; sr_cursor := 0;
                   sr_header := segment_header_new_signed id seqno |}.
Proof.
  intros Hc Hid Hseq Hu.
  assert (len (contents f w) = SEGMENT_HEADER_SIZE + len area) as Hlen
    by (rewrite Hc; len_simpl; wal_consts; lia).
  unfold open. rewrite size_reliable, Hlen. cbn [mbind outcome_bind].
  rewrite (proj2 (Z.ltb_ge _ _)) by lia.
  rewrite read_at_reliable, Hc by (rewrite ?Hlen; done || (wal_consts; lia)).
  cbn [mbind outcome_bind]. rewrite drop_0, take_app_len by (rewrite length_segment_header; done).
  rewrite segment_header_from_as by (by apply segment_header_new_signed_ok). cbn [ok_or mbind outcome_bind].
  rewrite segment_header_valid_signed. done.
Qed.

Lemma reader_on_open f w id seqno area :
  contents f w = segment_header_as_bytes (segment_header_new_signed id seqno) ++ area →
  is_u64 (SEGMENT_HEADER_SIZE + len area) →
  reader_on w area {| sr_file := f; sr_file_size := SEGMENT_HEADER_SIZE + len area; sr_cursor := 0;
                      sr_header := segment_header_new_signed id seqno |}.
Proof.
  intros Hc Hu. split; cbn -[segment_header_as_bytes]; [|done|done|lia].
  eexists. split; [done|]. by rewrite length_segment_header.
Qed.

Lemma recover_prefix {A} (on_record : RecordView → st A ()) f w id seqno rs area (a : A) :
  contents f w = segment_header_as_bytes (segment_header_new_signed id seqno) ++ area →
  is_u64 id → is_u64 seqno → is_u64 (SEGMENT_HEADER_SIZE + len area) → Forall record_ok rs →
  area `prefix_of` records_bytes 0 rs →
  let good := complete_records 0 rs (len area) in
  ∃ out, replay_verdict (len (records_bytes 0 good)) out ∧
    (area = records_bytes 0 rs → out = Clean) ∧
    recover on_record f w a = (feed on_record good ≫= λ _, mret out) a.
Proof.
  intros Hc Hid Hseq Hu Hrs Hpre. unfold recover. rewrite (open_segment f w id seqno area) by done.
  pose proof (reader_on_open _ _ _ _ _ Hc Hu) as Hr.
  destruct (replay_loop_prefix on_record rs w area _ area
    (Z.to_nat (SEGMENT_HEADER_SIZE + len area) + 1) a Hr) as (out & Hv & Hclean & Hrun);
    cbn [sr_cursor] in *; [lia|done|done|done|wal_consts; lia|].
  exists out. split_and!; [done|done|]. unfold replay. rewrite run_get. cbn [sr_file_size].
  rewrite <-Hrun. unfold without_reader.
  by destruct (replay_loop _ _ _ _) as [? [? ?]].
Qed.
End Proofs.

(** * Termination on arbitrary bytes *)

Section Total.
Context `{Crc32cLaws} {F W : Type} `{FileLaws F W}.

Lemma read_area_Ok w area (r : SegmentReader F) n c b :
  reader_on w area r → 0 ≤ n → 0 ≤ c → c + n ≤ len area → bytes_ok area →
  vf_read_at (sr_file r) n (SEGMENT_HEADER_SIZE + c) w = Ok b → bytes_ok b ∧ len b = n.
Proof.
  intros [(hdr & Hc & Hh) Hs Hu Hcur] Hn Hc0 Hle Hok Hb. rewrite Hs in Hu. unfold is_u64 in Hu.
  apply read_at_Ok in Hb as [_ ->]; [|done|wal_consts; unfold is_u64; lia].
  rewrite Hc in *. rewrite <-Hh in *. rewrite Z2Nat.inj_add, Nat2Z.id, <-drop_drop, drop_app_length by lia.
  split; [by apply Forall_take, Forall_drop|]. len_simpl. lia.
Qed.

Lemma read_fragment_wp w area (r : SegmentReader F) :
  reader_on w area r → bytes_ok area → sr_cursor r + RECORD_HEADER_SIZE ≤ len area →
  wp (read_fragment w) (λ _ _, True)
     (λ step r', reader_on w area r' ∧
        match step with
        | Got f => r' = r ∧ 0 ≤ len (fr_payload f)
        | SkipBlock => sr_cursor r < sr_cursor r'
        | FragTornTail _ => True
        end) r.
Proof.
  intros Hr Hok Hle. pose proof (ro_cursor _ _ _ Hr) as Hcur. unfold read_fragment.
  apply wp_bind, wp_get, wp_bind, wp_lift; [|intros hb Hhb|done].
  { apply read_at_returns; wal_consts; lia. }
  pose proof Hhb as Hhb'. apply (read_area_Ok w area) in Hhb' as [Hbok Hblen]; try (done || wal_consts; lia).
  destruct (all_zero hb).
  - apply wp_bind, wp_modify, wp_ret.
    assert (sr_cursor r < (sr_cursor r / BLOCK_SIZE + 1) * BLOCK_SIZE).
    { wal_consts. pose proof (Z.div_mod (sr_cursor r) (32 * 1024)).
      pose proof (Z.mod_pos_bound (sr_cursor r) (32 * 1024)). lia. }
    split; [apply reader_on_set; [done|lia]|done].
  - apply wp_bind, wp_lift; [apply returns_ok_or|intros h Hh|done].
    destruct (record_header_from_bytes hb) as [h'|] eqn:Eh; [|done]. injection Hh as <-.
    apply record_header_as_from in Eh as [_ (_ & Hlen & _)]; [|done]. unfold is_u16 in Hlen.
    case_bool; [by apply wp_ret|]. case_bool; [by apply wp_ret|].
    apply wp_bind, wp_lift; [|intros p Hp|done].
    { apply read_at_returns; wal_consts; lia. }
    destruct (negb _); [by apply wp_ret|].
    apply wp_bind, wp_lift; [apply returns_ok_or|intros t Ht|done].
    apply wp_ret. split; [done|]. cbn. split; [done|lia].
Qed.

Lemma assemble_returns state frag : returns (assemble state frag).
Proof. unfold assemble. destruct (fr_record_type frag), state; try done; by destruct (negb _). Qed.

Lemma skip_advances w area (r : SegmentReader F) e :
  reader_on w area r → reader_on w area (skip_block_padding_if_needed e r) ∧
  sr_cursor r ≤ sr_cursor (skip_block_padding_if_needed e r).
Proof.
  intros Hr. pose proof (ro_cursor _ _ _ Hr). unfold skip_block_padding_if_needed.
  pose proof (Z.mod_pos_bound (sr_cursor r) BLOCK_SIZE ltac:(done)).
  repeat case_bool; (split; [|cbn; lia]); try done. apply reader_on_set; [done|lia].
Qed.

Lemma next_record_loop_wp fuel w area start assembled (r : SegmentReader F) :
  reader_on w area r → bytes_ok area → (Z.to_nat (len area - sr_cursor r) < fuel)%nat →
  wp (next_record_loop fuel w start (len area) assembled) (λ _ _, True)
     (λ out r', reader_on w area r' ∧
        match out with
        | ReadRecord _ => sr_cursor r < sr_cursor r' ∧ sr_cursor r < len area
        | _ => True
        end) r.
Proof.
  revert assembled r. induction fuel as [|fuel IH]; intros assembled r Hr Hok Hfuel; [lia|].
  cbn [next_record_loop]. apply wp_bind, wp_modify, wp_bind, wp_get.
  destruct (skip_advances w area r (len area) Hr) as [Hr1 Hadv].
  set (r1 := skip_block_padding_if_needed _ r) in *. pose proof (ro_cursor _ _ _ Hr1) as Hcur.
  destruct (Z.ltb_spec (len area) (sr_cursor r1 + RECORD_HEADER_SIZE)) as [Hend|Hin].
  { apply wp_lift; [|intros out Hout|done].
    - unfold handle_tail. destruct assembled; [done|]. case_bool; [done|].
      apply returns_bind; [apply read_at_returns; wal_consts; lia|]. intros b _. by destruct (all_zero b).
    - split; [done|]. unfold handle_tail in Hout. destruct assembled; [by simplify_eq|].
      revert Hout. case_bool; [intros; by simplify_eq|]. intros Hout.
      apply bind_Ok in Hout as (b & _ & Hout). destruct (all_zero b); by simplify_eq. }
  apply wp_bind. wal_consts. eapply wp_mono; [by apply (read_fragment_wp w area)|done|].
  intros [f| |reason] r2 [Hr2 Hstep].
  - destruct Hstep as [-> Hlen]. apply wp_bind, wp_modify, wp_bind, wp_lift;
      [apply assemble_returns|intros [[|view] asm'] _|done].
    + eapply wp_mono; [apply IH; [apply reader_on_set; [done|lia]|done|cbn; lia]|done|].
      cbn. intros [] r3 [Hr3 Hp]; split; try done. lia.
    + apply wp_ret. split; [apply reader_on_set; [done|lia]|]. cbn. lia.
  - eapply wp_mono; [apply IH; [done|done|lia]|done|].
    cbn. intros [] r3 [Hr3 Hp]; split; try done. lia.
  - apply wp_ret. done.
Qed.

Lemma next_record_wp w area (r : SegmentReader F) :
  reader_on w area r → bytes_ok area →
  wp (next_record w) (λ _ _, True)
     (λ out r', reader_on w area r' ∧
        match out with
        | ReadRecord _ => sr_cursor r < sr_cursor r' ∧ sr_cursor r < len area
        | _ => True
        end) r.
Proof.
  intros Hr Hok. unfold next_record. apply wp_bind, wp_get. pose proof Hr as [_ Hs _ Hcur].
  replace (sr_file_size r - SEGMENT_HEADER_SIZE) with (len area) by lia.
  apply next_record_loop_wp; [done|done|wal_consts; lia].
Qed.

Lemma replay_loop_returns {A} (on_record : RecordView → st A ()) fuel w area r a :
  (∀ v a, returns (on_record v a).1) → reader_on w area r → bytes_ok area →
  (Z.to_nat (len area - sr_cursor r) < fuel)%nat →
  returns (replay_loop fuel on_record w (r, a)).1.
Proof.
  intros Hcb Hr Hok. revert r a Hr. induction fuel as [|fuel IH]; intros r a Hr Hfuel; [lia|].
  cbn [replay_loop]. pose proof (next_record_wp w area r Hr Hok) as Hwp. unfold wp in Hwp.
  unfold mbind, st_bind, on_fst.
  destruct (next_record w r) as [[out| | |] r'] eqn:E; try done.
  destruct Hwp as [Hr' Hout]. destruct out as [v| |t reason]; try done.
  unfold on_snd. specialize (Hcb v a). destruct (on_record v a) as [[[]| | |] a']; try done.
  apply IH; [done|lia].
Qed.

Lemma open_returns (f : F) (w : W) : returns (open f w).
Proof.
  unfold open. apply returns_bind; [apply size_returns|]. intros n _. case_bool; [done|].
  apply returns_bind; [apply read_at_returns; wal_consts; lia|]. intros b _.
  apply returns_bind; [apply returns_ok_or|]. intros h _. by repeat destruct (negb _).
Qed.

Lemma open_reader f w r :
  open f w = Ok r → bytes_ok (contents f w) → is_u64 (len (contents f w)) →
  ∃ area, reader_on w area r ∧ sr_cursor r = 0 ∧ bytes_ok area.
Proof.
  unfold open. intros Hopen Hok Hu. apply bind_Ok in Hopen as (n & Hn & Hopen).
  apply size_Ok in Hn as ->. revert Hopen. case_bool; [done|]. intros Hopen.
  apply bind_Ok in Hopen as (b & Hb & Hopen). apply bind_Ok in Hopen as (h & Hh & Hopen).
  do 3 (destruct (negb _); [done|]). injection Hopen as <-.
  exists (drop 32 (contents f w)). split_and!; [|done|by apply Forall_drop].
  split; cbn; [|len_simpl; wal_consts; lia|done|lia].
  exists (take 32 (contents f w)). rewrite take_drop. split; [done|]. len_simpl. wal_consts. lia.
Qed.
End Total.

(** * The durable records come back *)

Lemma complete_records_app `{Crc32c} pos rs1 rs2 n :
  len (records_bytes pos rs1) ≤ n →
  ∃ k, complete_records pos (rs1 ++ rs2) n = rs1 ++ take k rs2.
Proof.
  revert pos n. induction rs1 as [|r rs1 IH]; intros pos n Hn; cbn [app records_bytes complete_records] in *.
  - clear Hn. revert pos n. induction rs2 as [|r rs2 IH]; intros pos n; cbn [complete_records].
    { by exists 0%nat. }
    case_bool; [|by exists 0%nat]. destruct (IH (pos + len (record_bytes pos r)) (n - len (record_bytes pos r)))
      as [k ->]. by exists (S k).
  - rewrite length_app, Nat2Z.inj_add in Hn. decide_bool.
    destruct (IH (pos + len (record_bytes pos r)) (n - len (record_bytes pos r))) as [k ->]; [lia|].
    by exists k.
Qed.

Lemma complete_records_all `{Crc32c} pos rs :
  complete_records pos rs (len (records_bytes pos rs)) = rs.
Proof.
  revert pos. induction rs as [|r rs IH]; intros pos; cbn [records_bytes complete_records]; [done|].
  rewrite length_app. decide_bool. f_equal.
  rewrite Nat2Z.inj_add, Z.add_simpl_l. apply IH.
Qed.

(** * Properties *)

(** C10. Crash recovery.  Suppose the writer had appended [durable] and was
    appending [pending] when the machine stopped, so that the file holds some
    prefix of the segment, at least the bytes of the durable records.  Then
    opening and replaying the segment succeeds, delivers every durable record,
    in order, followed by the first [k] pending ones for some [k], and nothing
    else; the verdict is clean or a torn tail whose truncation point is the end
    of the last record delivered. *)
Theorem crash_recovery `{Crc32cLaws, ReliableReads F W} {A} (on_record : RecordView → st A ())
    (f : F) (w : W) (id seqno : Z) (durable pending : list (Z * bytes)) (a : A)
    (Hid : is_u64 id) (Hseq : is_u64 seqno) (Hrs : Forall record_ok (durable ++ pending))
    (Hu : is_u64 (len (contents f w)))
    (Hprefix : contents f w `prefix_of` segment_bytes id seqno (durable ++ pending))
    (Hdurable : len (segment_bytes id seqno durable) ≤ len (contents f w)) :
  ∃ k out, let delivered := durable ++ take k pending in
    recover on_record f w a = (feed on_record delivered ≫= λ _, mret out) a ∧
    replay_verdict (len (records_bytes 0 delivered)) out.
Proof.
  unfold segment_bytes in *. rewrite length_app in Hdurable.
  apply prefix_app_cover in Hprefix as (area & Hc & Hpre); [|lia].
  assert (is_u64 (SEGMENT_HEADER_SIZE + len area)).
  { rewrite Hc in Hu. unfold is_u64 in *. len_simpl. wal_consts. lia. }
  destruct (recover_prefix on_record f w id seqno _ area a Hc Hid Hseq H4 Hrs Hpre)
    as (out & Hv & _ & Hrun).
  destruct (complete_records_app 0 durable pending (len area)) as [k E].
  { rewrite Hc, length_app in Hdurable. lia. }
  rewrite E in *. by exists k, out.
Qed.

(** A callback that collects the records. *)
Definition collect (v : RecordView) : st (list RecordView) () := λ vs, (Ok tt, vs ++ [v]).

Lemma crash_recovery_witness :
  let whole := segment_bytes 3 9 [(1, [1; 2; 3]); (2, [4])] in
  let w := (mem_append 0 (take 60 whole) mem_new).2 in
  contents 0 w `prefix_of` segment_bytes 3 9 ([(1, [1; 2; 3])] ++ [(2, [4])]) ∧
  ∃ out, recover collect 0 w []
    = (Ok out, [{| rv_seqno := 1; rv_payload := [1; 2; 3] |}]) ∧ replay_verdict 19 out.
Proof.
  cbn zeta. set (w := (mem_append 0 _ mem_new).2).
  assert (contents 0 w `prefix_of` segment_bytes 3 9 ([(1, [1; 2; 3])] ++ [(2, [4])])) as Hp
    by (apply prefix_take).
  split; [exact Hp|].
  destruct (crash_recovery collect 0 w 3 9 [(1, [1; 2; 3])] [(2, [4])] []) as (k & out & Hrun & Hv).
  - unfold is_u64. lia.
  - unfold is_u64. lia.
  - repeat (constructor; [unfold record_ok, is_u64; cbn; lia|]). constructor.
  - vm_compute. split; [discriminate|reflexivity].
  - exact Hp.
  - vm_compute. discriminate.
  - destruct k as [|k].
    + exists out. split; [exact Hrun|exact Hv].
    + exfalso. revert Hrun.
      replace (take (S k) [(2, [4])]) with [(2, [4])] by (destruct k; reflexivity).
      vm_compute. discriminate.
Defined.

(** Round trip through a store that does not fail: creating a segment,
    appending records and replaying the file returns those records, the same
    payloads under the same sequence numbers in the same order, and reports a
    clean segment. *)
Theorem write_then_replay `{Crc32cLaws, ReliableReads F W, !ReliableWrites F W} {A}
    (on_record : RecordView → st A ()) (f : F) (w : W) (id seqno : Z) (rs : list (Z * bytes)) (a : A)
    (Hid : is_u64 id) (Hseq : is_u64 seqno) (Hrs : Forall record_ok rs)
    (Hempty : contents f w = []) (Hu : len (segment_bytes id seqno rs) ≤ MAX_FILE_SIZE) :
  ∃ sw w', write_segment f id seqno rs w = (Ok sw, w') ∧
    recover on_record f w' a = (feed on_record rs ≫= λ _, mret Clean) a.
Proof.
  pose proof (segment_seg_fits _ _ _ Hu) as Hfits. unfold segment_bytes in Hu. rewrite length_app in Hu.
  pose proof (create_wp f id seqno w Hempty) as Hcreate. unfold wp in Hcreate.
  unfold write_segment. destruct (create f id seqno w) as [[sw|e| |] w1]; try done.
  2: { by destruct Hcreate as [?%no_write_faults _]. }
  destruct Hcreate as [Hf Hok].
  pose proof (append_records_wp _ _ rs _ Hok Hfits) as Happ. unfold wp in Happ.
  destruct (append_records rs (sw, w1)) as [[[]|e| |] [sw' w']]; try done; cbn [mbind outcome_bind].
  2: { by destruct Happ as [?%no_write_faults _]. }
  destruct Happ as [Hf' [Hc _ _ _]]. cbn [fst snd app] in *.
  exists sw', w'. split; [done|]. rewrite Hf', Hf in Hc.
  rewrite length_segment_header in Hu. unfold MAX_FILE_SIZE in Hu.
  destruct (recover_prefix on_record f w' id seqno rs (records_bytes 0 rs) a Hc Hid Hseq)
    as (out & _ & Hclean & Hrun); [unfold is_u64 in *; wal_consts; lia|done|done|].
  by rewrite Hrun, complete_records_all, Hclean.
Qed.

Lemma write_then_replay_witness :
  contents 0 mem_new = [] ∧
  ∃ sw w', write_segment 0 3 9 [(1, [1; 2; 3]); (2, [])] mem_new = (Ok sw, w') ∧
    recover collect 0 w' [] = (Ok Clean, [{| rv_seqno := 1; rv_payload := [1; 2; 3] |};
                                          {| rv_seqno := 2; rv_payload := [] |}]).
Proof.
  split; [reflexivity|].
  apply (write_then_replay collect 0 mem_new 3 9 [(1, [1; 2; 3]); (2, [])] []).
  - unfold is_u64. lia.
  - unfold is_u64. lia.
  - repeat (constructor; [unfold record_ok, is_u64; cbn; lia|]). constructor.
  - reflexivity.
  - vm_compute. discriminate.
Defined.

(** C37. Recovery is total: whatever bytes the file holds, corrupted or not, and
    even if the file's reads fail, opening and replaying it terminates without
    a panic, with a result or an error. *)
Theorem recover_total `{Crc32cLaws, FileLaws F W} {A} (on_record : RecordView → st A ())
    (f : F) (w : W) (a : A)
    (Hcb : ∀ v a, returns (on_record v a).1)
    (Hbytes : bytes_ok (contents f w)) (Hu : is_u64 (len (contents f w))) :
  returns (recover on_record f w a).1.
Proof.
  unfold recover. destruct (open f w) as [r| | |] eqn:Hopen; try done;
    pose proof (open_returns f w) as Hret; rewrite Hopen in Hret; try done.
  apply open_reader in Hopen as (area & Hr & Hcur & Hok); [|done|done].
  pose proof (replay_loop_returns on_record (Z.to_nat (sr_file_size r) + 1) w area r a Hcb Hr Hok) as Hrep.
  unfold replay. rewrite run_get. pose proof (ro_size _ _ _ Hr).
  destruct (replay_loop _ _ _ _) as [out [r' a']]. apply Hrep. wal_consts. lia.
Qed.

Lemma recover_total_witness :
  bytes_ok (contents 0 (mem_append 0 [80; 75; 87; 76; 1] mem_new).2) ∧
  returns (recover collect 0 (mem_append 0 [80; 75; 87; 76; 1] mem_new).2 []).1.
Proof.
  assert (bytes_ok (contents 0 (mem_append 0 [80; 75; 87; 76; 1] mem_new).2)) as H
    by (apply (bool_decide_unpack _); vm_compute; exact I).
  split; [exact H|]. apply (recover_total collect).
  - intros v vs. exact I.
  - exact H.
  - vm_compute. split; [discriminate|reflexivity].
Defined.
