(* ===== verification/Bloom.v ===== *)
(** The cache-line-blocked Bloom filter:
    [crates/paddock-core/src/filter/blocked_bloom.rs].

    [avx2] stands for the cached result of the CPU feature detection, which
    picks one of two probes.  Out-of-range accesses through [get_unchecked]
    are a panic of the model, so a proof that an operation returns shows that
    its [unsafe] accesses are in bounds. *)

From S2P Require Import Prelude Checksum Varint.

(** * Constants and data *)

Definition FILTER_MAGIC : Z := 0xB1000F11.
Definition FILTER_VERSION : Z := 1.
Definition HEADER_SIZE : Z := 16.
Definition BLOCK_BYTES : Z := 64.
Definition BLOCK_BITS : Z := 512.
Definition DEFAULT_NUM_HASHES : Z := 8.
Definition DEFAULT_BITS_PER_KEY : Z := 10.

Record BloomParams := { num_hashes : Z; bits_per_key : Z }.

Definition params_default : BloomParams :=
  {| num_hashes := DEFAULT_NUM_HASHES; bits_per_key := DEFAULT_BITS_PER_KEY |}.

Record BlockedBloom := {
  blocks : bytes;
  num_blocks : Z;
  num_keys : Z;
  params : BloomParams
}.

#[global] Instance BloomParams_eq_dec : EqDecision BloomParams.
Proof. solve_decision. Defined.
#[global] Instance BlockedBloom_eq_dec : EqDecision BlockedBloom.
Proof. solve_decision. Defined.

(** * Hashing into a block *)

(** Lemire's reduction of the low half of the hash. *)
Definition pick_block (hash num_blocks : Z) : Z :=
  let low := u32 (Z.land hash 0xFFFFFFFF) in
  let product := u64 (low * num_blocks) in
  u32 (Z.shiftr product 32).

(** The loop of [bit_positions] over the first [k] slots. *)
Fixpoint fill_positions (k : nat) (h_a h_b : Z) : list Z :=
  match k with
  | O => []
  | S k => u16 (Z.land h_a (BLOCK_BITS - 1)) :: fill_positions k (u32 (h_a + h_b)) h_b
  end.

Definition bit_positions (hash k : Z) : list Z :=
  let h_high := u32 (Z.shiftr hash 32) in
  let h_a := h_high in
  let h_b := u32 (h_high * 0x9E3779B9) in
  let h_b := Z.lxor h_b (Z.shiftr h_b 16) in
  let h_b := u32 (h_b * 0x85EBCA6B) in
  let slots := Z.to_nat (Z.min k 16) in
  fill_positions slots h_a h_b ++ replicate (16 - slots) 0.

(** * Probes *)

Fixpoint probe_positions (block : bytes) (ps : list Z) : outcome bool :=
  match ps with
  | [] => Ok true
  | pos :: ps =>
      let byte := pos / 8 in
      let bit := pos mod 8 in
      b ← index block byte;
      if Z.land b (u8 (Z.shiftl 1 bit)) =? 0 then Ok false
      else probe_positions block ps
  end.

Definition probe_scalar (block : bytes) (hash k : Z) : outcome bool :=
  probe_positions block (take (Z.to_nat k) (bit_positions hash k)).

(** [words[i] |= 1 << bit]. *)
Definition or_word (words : list Z) (i bit : Z) : outcome (list Z) :=
  w ← index words i;
  Ok (<[Z.to_nat i := Z.lor w (u64 (Z.shiftl 1 bit))]> words).

Fixpoint build_masks (ps : list Z) (mask_low mask_high : list Z) : outcome (list Z * list Z) :=
  match ps with
  | [] => Ok (mask_low, mask_high)
  | pos :: ps =>
      let word := pos / 64 in
      let bit := pos mod 64 in
      if word <? 4
      then mask_low ← or_word mask_low word bit; build_masks ps mask_low mask_high
      else mask_high ← or_word mask_high (word - 4) bit; build_masks ps mask_low mask_high
  end.

(** A 256-bit register is the number its 32 bytes hold; [_mm256_testc_si256]
    tests that [NOT a AND b] is zero. *)
Definition mm256_load (mem : bytes) : Z := le_val (take 32 mem).
Definition mm256_testc (a b : Z) : bool := Z.ldiff b a =? 0.

Definition probe_avx2 (block : bytes) (hash k : Z) : outcome bool :=
  let positions := take (Z.to_nat k) (bit_positions hash k) in
  '(mask_low, mask_high) ← build_masks positions [0; 0; 0; 0] [0; 0; 0; 0];
  let blk_lo := mm256_load block in
  let blk_hi := mm256_load (drop 32 block) in
  let mask_lo := mm256_load (concat (le_bytes 8 <$> mask_low)) in
  let mask_hi := mm256_load (concat (le_bytes 8 <$> mask_high)) in
  Ok (mm256_testc blk_lo mask_lo && mm256_testc blk_hi mask_hi).

Definition dispatch_probe (avx2 : bool) (block : bytes) (hash k : Z) : outcome bool :=
  if avx2 then probe_avx2 block hash k else probe_scalar block hash k.

(** * The filter *)

(** The bit budget is a checked multiplication.  [AlignedBuf::with_alignment]
    returns zeroed memory; that the machine has the memory is taken for granted
    here, as for every vector of the program. *)
Definition bloom_new (expected_keys : Z) (p : BloomParams) : outcome BlockedBloom :=
  if negb ((1 <=? num_hashes p) && (num_hashes p <=? 16)) then Panic
  else if 2 ^ 64 <=? Z.max expected_keys 1 * bits_per_key p then Panic
  else
    let total_bits := Z.max expected_keys 1 * bits_per_key p in
    let num_blocks := Z.max 1 (default (2 ^ 32 - 1) (try_u32 (div_ceil total_bits BLOCK_BITS))) in
    let bytes := num_blocks * BLOCK_BYTES in
    Ok {| blocks := zeros bytes; num_blocks := num_blocks; num_keys := 0; params := p |}.

Definition byte_size (f : BlockedBloom) : Z := num_blocks f * BLOCK_BYTES.

Definition bloom_block (f : BlockedBloom) (idx : Z) : outcome bytes :=
  let start := idx * BLOCK_BYTES in
  slice (blocks f) start (start + BLOCK_BYTES).

(** [block[byte] |= 1 << bit] for every position. *)
Fixpoint set_positions (block : bytes) (ps : list Z) : outcome bytes :=
  match ps with
  | [] => Ok block
  | pos :: ps =>
      let byte := pos / 8 in
      let bit := pos mod 8 in
      b ← index block byte;
      set_positions (<[Z.to_nat byte := Z.lor b (u8 (Z.shiftl 1 bit))]> block) ps
  end.

Section Filter.
Context `{Xxh3}.

(** The block is mutated in place: its bytes replace the old ones. *)
Definition bloom_insert (f : BlockedBloom) (key : bytes) : outcome BlockedBloom :=
  let hash := xxh3_64 key in
  let block_idx := pick_block hash (num_blocks f) in
  let k := num_hashes (params f) in
  let positions := bit_positions hash k in
  blk ← bloom_block f block_idx;
  blk ← set_positions blk (take (Z.to_nat k) positions);
  let start := block_idx * BLOCK_BYTES in
  Ok {| blocks := take (Z.to_nat start) (blocks f) ++ blk ++
                  drop (Z.to_nat (start + BLOCK_BYTES)) (blocks f);
        num_blocks := num_blocks f;
        num_keys := Z.min (num_keys f + 1) (2 ^ 32 - 1);
        params := params f |}.

Definition bloom_contains (avx2 : bool) (f : BlockedBloom) (key : bytes) : outcome bool :=
  let hash := xxh3_64 key in
  let block_idx := pick_block hash (num_blocks f) in
  blk ← bloom_block f block_idx;
  dispatch_probe avx2 blk hash (num_hashes (params f)).

Fixpoint insert_all (f : BlockedBloom) (keys : list bytes) : outcome BlockedBloom :=
  match keys with
  | [] => Ok f
  | key :: keys => f ← bloom_insert f key; insert_all f keys
  end.
End Filter.

Definition bloom_header (f : BlockedBloom) : bytes :=
  le_bytes 4 FILTER_MAGIC ++ le_bytes 1 FILTER_VERSION ++ le_bytes 1 (num_hashes (params f)) ++
  le_bytes 1 (bits_per_key (params f)) ++ le_bytes 1 0 ++ le_bytes 4 (num_blocks f) ++
  le_bytes 4 (num_keys f).

Definition bloom_encode (f : BlockedBloom) : outcome bytes :=
  let out := bloom_header f in
  _ ← debug_assert (len out =? HEADER_SIZE);
  body ← slice_to (blocks f) (byte_size f);
  Ok (out ++ body).

Definition bloom_decode (bytes : bytes) : outcome BlockedBloom :=
  if len bytes <? HEADER_SIZE
  then Err (invalid_format_static "bloom filter" "shorter than header")
  else if negb (le_field bytes 0 4 =? FILTER_MAGIC)
  then Err (invalid_format_static "bloom filter" "wrong magic")
  else
    let version := le_field bytes 4 1 in
    if negb (version =? FILTER_VERSION)
    then Err (InvalidFormat "bloom filter" (Fmt "unsupported version {}" [version]))
    else
      let num_hashes := le_field bytes 5 1 in
      let bits_per_key := le_field bytes 6 1 in
      let num_blocks := le_field bytes 8 4 in
      let num_keys := le_field bytes 12 4 in
      if (num_hashes =? 0) || (16 <? num_hashes)
      then Err (InvalidFormat "bloom filter" (Fmt "num_hashes out of range: {}" [num_hashes]))
      else if num_blocks =? 0
      then Err (invalid_format_static "bloom filter" "num_blocks must be >= 1")
      else
        let expected_payload := num_blocks * BLOCK_BYTES in
        if negb (len bytes =? HEADER_SIZE + expected_payload)
        then Err (InvalidFormat "bloom filter"
               (Fmt "payload length {} does not match num_blocks={} (expected {})"
                  [len bytes - HEADER_SIZE; num_blocks; expected_payload]))
        else
          body ← slice_from bytes HEADER_SIZE;
          Ok {| blocks := body; num_blocks := num_blocks; num_keys := num_keys;
                params := {| num_hashes := num_hashes; bits_per_key := bits_per_key |} |}.

(** * The invariant *)

Record bloom_ok (f : BlockedBloom) : Prop := {
  bo_len : len (blocks f) = num_blocks f * BLOCK_BYTES;
  bo_bytes : bytes_ok (blocks f);
  bo_blocks : 1 ≤ num_blocks f < 2 ^ 32;
  bo_keys : is_u32 (num_keys f);
  bo_hashes : 1 ≤ num_hashes (params f) ≤ 16;
  bo_bits : is_u8 (bits_per_key (params f))
}.

(** * Bits *)

Lemma testbit_add_high a b k n :
  0 ≤ k → 0 ≤ a < 2 ^ k → 0 ≤ n →
  Z.testbit (a + 2 ^ k * b) n = if n <? k then Z.testbit a n else Z.testbit b (n - k).
Proof.
  intros Hk Ha Hn. rewrite (Z.mul_comm (2 ^ k)). case_bool.
  - rewrite <-(Z.mod_pow2_bits_low (a + b * 2 ^ k) k n) by lia.
    rewrite Z.mod_add, Z.mod_small by lia. done.
  - replace n with ((n - k) + k) at 1 by lia. rewrite <-Z.div_pow2_bits by lia.
    rewrite Z.div_add, Z.div_small by lia. done.
Qed.

(** Bit [8 i + j] of a little-endian number is bit [j] of its byte [i]. *)
Lemma testbit_le_val bs n b :
  bytes_ok bs → 0 ≤ n → bs !! Z.to_nat (n / 8) = Some b →
  Z.testbit (le_val bs) n = Z.testbit b (n mod 8).
Proof.
  intros Hok. revert n. induction Hok as [|x bs Hx Hok IH]; intros n Hn; [done|].
  cbn [le_val]. change 256 with (2 ^ 8). rewrite testbit_add_high by (unfold byte_ok in Hx; lia).
  case_bool.
  - rewrite Z.div_small, Z.mod_small by lia. by intros [= ->].
  - replace (n / 8) with ((n - 8) / 8 + 1)
      by (rewrite <-Z.div_add by lia; f_equal; lia).
    replace (n mod 8) with ((n - 8) mod 8)
      by (rewrite <-(Z.mod_add (n - 8) 1 8) by lia; f_equal; lia).
    pose proof (Z.div_pos (n - 8) 8). rewrite Z2Nat.inj_add, Nat.add_1_r by lia.
    intros Hl. apply IH; [lia|done].
Qed.

Lemma testbit_shiftl_one i j : 0 ≤ i → 0 ≤ j → Z.testbit (Z.shiftl 1 i) j = (i =? j).
Proof.
  intros. rewrite Z.shiftl_1_l. destruct (Z.eqb_spec i j) as [->|].
  - by apply Z.pow2_bits_true.
  - by apply Z.pow2_bits_false.
Qed.

Lemma shiftl_one_small w i : 0 ≤ i < w → Z.shiftl 1 i mod 2 ^ w = Z.shiftl 1 i.
Proof.
  intros. rewrite Z.shiftl_1_l. apply Z.mod_small. split; [lia|].
  apply Z.pow_lt_mono_r; lia.
Qed.

(** Testing one bit with a mask. *)
Lemma land_one_bit b i : 0 ≤ i → (Z.land b (Z.shiftl 1 i) =? 0) = negb (Z.testbit b i).
Proof.
  intros Hi. destruct (Z.testbit b i) eqn:E; cbn.
  - apply Z.eqb_neq. intros Hz. pose proof (f_equal (λ z, Z.testbit z i) Hz) as Hb. cbn in Hb.
    rewrite Z.land_spec, E, testbit_shiftl_one, Z.eqb_refl, Z.bits_0 in Hb by lia. done.
  - apply Z.eqb_eq. apply Z.bits_inj'. intros n Hn.
    rewrite Z.land_spec, testbit_shiftl_one, Z.bits_0 by lia.
    destruct (Z.eqb_spec i n) as [<-|]; [by rewrite E|by rewrite andb_false_r].
Qed.

(** The bits of a block, counted from its first byte. *)
Definition block_bit (block : bytes) (pos : Z) : bool :=
  match block !! Z.to_nat (pos / 8) with
  | Some b => Z.testbit b (pos mod 8)
  | None => false
  end.

Definition pos_ok (pos : Z) : Prop := 0 ≤ pos < BLOCK_BITS.

Lemma block_index (block : bytes) (pos : Z) :
  length block = 64%nat → pos_ok pos →
  ∃ b, block !! Z.to_nat (pos / 8) = Some b ∧ index block (pos / 8) = Ok b.
Proof.
  unfold pos_ok, BLOCK_BITS. intros Hlen Hpos.
  assert (0 ≤ pos / 8 < 64) by (split; [apply Z.div_pos; lia|apply Z.div_lt_upper_bound; lia]).
  destruct (lookup_lt_is_Some_2 block (Z.to_nat (pos / 8))) as [b Hb]; [lia|].
  exists b. split; [done|]. unfold index. decide_bool. by rewrite Hb.
Qed.

(** * Positions *)

Lemma land_511_range h : 0 ≤ Z.land h (BLOCK_BITS - 1) < BLOCK_BITS.
Proof.
  change (BLOCK_BITS - 1) with (Z.ones 9). rewrite Z.land_ones by lia.
  apply Z.mod_pos_bound. done.
Qed.

Lemma fill_positions_ok k h_a h_b : Forall pos_ok (fill_positions k h_a h_b).
Proof.
  revert h_a. induction k as [|k IH]; intros h_a; cbn [fill_positions]; constructor; [|done].
  pose proof (land_511_range h_a) as Hr. unfold pos_ok, BLOCK_BITS, u16 in *.
  rewrite Z.mod_small; lia.
Qed.

Lemma length_fill_positions k h_a h_b : length (fill_positions k h_a h_b) = k.
Proof. revert h_a. induction k; intros; cbn; auto. Qed.

(** The positions a probe uses. *)
Definition probe_list (hash k : Z) : list Z := take (Z.to_nat k) (bit_positions hash k).

Lemma probe_list_ok hash k : Forall pos_ok (probe_list hash k).
Proof.
  unfold probe_list, bit_positions. apply Forall_take, Forall_app_2.
  - apply fill_positions_ok.
  - apply Forall_replicate. unfold pos_ok, BLOCK_BITS. lia.
Qed.

Lemma pick_block_lt hash n : 1 ≤ n < 2 ^ 32 → 0 ≤ pick_block hash n < n.
Proof.
  intros Hn. unfold pick_block. change 0xFFFFFFFF with (Z.ones 32).
  rewrite Z.land_ones by lia. set (low := u32 (hash mod 2 ^ 32)).
  assert (0 ≤ low < 2 ^ 32) by (apply Z.mod_pos_bound; lia).
  unfold u64. rewrite (Z.mod_small (low * n)) by nia. rewrite Z.shiftr_div_pow2 by lia.
  assert (0 ≤ low * n / 2 ^ 32 < n)
    by (split; [apply Z.div_pos; nia|apply Z.div_lt_upper_bound; nia]).
  unfold u32. rewrite Z.mod_small; lia.
Qed.

(** * The scalar probe and the setter *)

Lemma bit_of_pos pos : 0 ≤ pos mod 8 < 8.
Proof. apply Z.mod_pos_bound. lia. Qed.

Lemma probe_positions_spec block ps :
  length block = 64%nat → Forall pos_ok ps →
  probe_positions block ps = Ok (forallb (block_bit block) ps).
Proof.
  intros Hlen Hps. induction Hps as [|pos ps Hpos _ IH]; [done|]. cbn [probe_positions forallb].
  destruct (block_index block pos Hlen Hpos) as (b & Hb & ->). cbn [mbind outcome_bind].
  unfold block_bit at 1. rewrite Hb. pose proof (bit_of_pos pos).
  unfold u8. rewrite shiftl_one_small, land_one_bit by lia.
  destruct (Z.testbit b (pos mod 8)); cbn; [apply IH|done].
Qed.

Lemma lor_bit_range n w i :
  0 ≤ w < 2 ^ n → 0 ≤ i < n → 0 ≤ Z.lor w (Z.shiftl 1 i) < 2 ^ n.
Proof.
  intros [Hw0 Hw] Hi. rewrite Z.shiftl_1_l. pose proof (Z.pow_pos_nonneg 2 i).
  split; [apply Z.lor_nonneg; lia|].
  destruct (Z.eq_dec w 0) as [->|].
  { rewrite Z.lor_0_l. apply Z.pow_lt_mono_r; lia. }
  assert (Z.lor w (2 ^ i) ≠ 0) by (intros E; apply Z.lor_eq_0_iff in E; lia).
  pose proof (proj2 (Z.lor_nonneg w (2 ^ i))).
  apply Z.log2_lt_pow2; [lia|]. rewrite Z.log2_lor by lia.
  apply Z.max_lub_lt; [apply Z.log2_lt_pow2; lia|]. rewrite Z.log2_pow2; lia.
Qed.

(** Two positions share byte and bit only if they are equal. *)
Lemma pos_split p q : p / 8 = q / 8 → p mod 8 = q mod 8 → p = q.
Proof. intros. pose proof (Z.div_mod p 8). pose proof (Z.div_mod q 8). lia. Qed.

Lemma block_bit_set block pos b p :
  block !! Z.to_nat (pos / 8) = Some b → pos_ok pos → pos_ok p →
  block_bit (<[Z.to_nat (pos / 8) := Z.lor b (Z.shiftl 1 (pos mod 8))]> block) p
    = block_bit block p || (p =? pos).
Proof.
  intros Hb Hpos Hp. unfold block_bit, pos_ok in *. pose proof (bit_of_pos p). pose proof (bit_of_pos pos).
  destruct (decide (p / 8 = pos / 8)) as [E|E].
  - rewrite E, list_lookup_insert_eq, Hb by (by eapply lookup_lt_Some).
    rewrite Z.lor_spec, testbit_shiftl_one by lia. f_equal.
    destruct (Z.eqb_spec (pos mod 8) (p mod 8)), (Z.eqb_spec p pos); try done; subst; try done.
    by apply pos_split in E.
  - rewrite list_lookup_insert_ne.
    + destruct (Z.eqb_spec p pos); [by subst|by rewrite orb_false_r].
    + intros E'. apply Z2Nat.inj in E'; [done|apply Z.div_pos; lia..].
Qed.

Lemma set_positions_spec block ps :
  length block = 64%nat → bytes_ok block → Forall pos_ok ps →
  ∃ block', set_positions block ps = Ok block' ∧ length block' = 64%nat ∧ bytes_ok block' ∧
    ∀ p, pos_ok p → block_bit block' p = block_bit block p || existsb (Z.eqb p) ps.
Proof.
  intros Hlen Hok Hps. revert block Hlen Hok. induction Hps as [|pos ps Hpos _ IH]; intros block Hlen Hok.
  { exists block. split_and!; [done..|]. intros p _. by rewrite orb_false_r. }
  cbn [set_positions]. destruct (block_index block pos Hlen Hpos) as (b & Hb & ->).
  cbn [mbind outcome_bind]. pose proof (bit_of_pos pos). unfold u8. rewrite shiftl_one_small by lia.
  destruct (IH (<[Z.to_nat (pos / 8) := Z.lor b (Z.shiftl 1 (pos mod 8))]> block)) as (block' & -> & ? & ? & Hbit).
  - by rewrite length_insert.
  - apply Forall_insert; [done|]. apply (lor_bit_range 8); [|done]. by eapply (Forall_lookup_1 byte_ok).
  - exists block'. split_and!; [done..|]. intros p Hp. rewrite Hbit by done.
    rewrite block_bit_set by done. cbn [existsb]. by rewrite orb_assoc.
Qed.

(** * The AVX2 probe *)

Lemma le_val_app a b : le_val (a ++ b) = le_val a + 256 ^ len a * le_val b.
Proof.
  induction a as [|x a IH]; cbn [app le_val length].
  - rewrite Z.pow_0_r. lia.
  - rewrite IH, pow256_S. lia.
Qed.

(** Bit [n] of a sequence of 64-bit words. *)
Definition word_bit (ws : list Z) (n : Z) : bool :=
  match ws !! Z.to_nat (n / 64) with
  | Some w => Z.testbit w (n mod 64)
  | None => false
  end.

Lemma testbit_words ws n :
  Forall is_u64 ws → 0 ≤ n → Z.testbit (le_val (concat (le_bytes 8 <$> ws))) n = word_bit ws n.
Proof.
  intros Hws. revert n. induction Hws as [|w ws Hw _ IH]; intros n Hn.
  { cbn. apply Z.bits_0. }
  rewrite fmap_cons. cbn [concat]. rewrite le_val_app, length_le_bytes, le_val_bytes by done.
  change (256 ^ Z.of_nat 8) with (2 ^ 64). rewrite testbit_add_high by (unfold is_u64 in Hw; lia).
  unfold word_bit. case_bool.
  - by rewrite Z.div_small, Z.mod_small by lia.
  - rewrite IH by lia. unfold word_bit.
    replace (n / 64) with ((n - 64) / 64 + 1) by (rewrite <-Z.div_add by lia; f_equal; lia).
    replace (n mod 64) with ((n - 64) mod 64)
      by (rewrite <-(Z.mod_add (n - 64) 1 64) by lia; f_equal; lia).
    pose proof (Z.div_pos (n - 64) 64). by rewrite Z2Nat.inj_add, Nat.add_1_r by lia.
Qed.

Definition mask_bit (lo hi : list Z) (p : Z) : bool :=
  if p <? 256 then word_bit lo p else word_bit hi (p - 256).

Definition words_ok (ws : list Z) : Prop := length ws = 4%nat ∧ Forall is_u64 ws.

Lemma or_word_spec ws pos :
  words_ok ws → 0 ≤ pos < 256 →
  ∃ ws', or_word ws (pos / 64) (pos mod 64) = Ok ws' ∧ words_ok ws' ∧
    ∀ p, 0 ≤ p < 256 → word_bit ws' p = word_bit ws p || (p =? pos).
Proof.
  intros [Hlen Hws] Hpos. pose proof (Z.mod_pos_bound pos 64).
  assert (0 ≤ pos / 64 < 4) by (split; [apply Z.div_pos; lia|apply Z.div_lt_upper_bound; lia]).
  destruct (lookup_lt_is_Some_2 ws (Z.to_nat (pos / 64))) as [w Hw]; [lia|].
  unfold or_word, index. decide_bool. rewrite Hw. cbn [expect mbind outcome_bind].
  unfold u64. rewrite shiftl_one_small by lia. eexists. split; [done|]. split.
  - split; [by rewrite length_insert|]. apply Forall_insert; [done|].
    apply (lor_bit_range 64); [|lia]. by eapply (Forall_lookup_1 is_u64).
  - intros p Hp. unfold word_bit. pose proof (Z.mod_pos_bound p 64).
    destruct (decide (p / 64 = pos / 64)) as [E|E].
    + rewrite E, list_lookup_insert_eq, Hw by lia. rewrite Z.lor_spec, testbit_shiftl_one by lia.
      f_equal. pose proof (Z.div_mod p 64). pose proof (Z.div_mod pos 64).
      destruct (Z.eqb_spec (pos mod 64) (p mod 64)), (Z.eqb_spec p pos); try done; subst; lia.
    + rewrite list_lookup_insert_ne.
      * destruct (Z.eqb_spec p pos); [by subst|by rewrite orb_false_r].
      * intros E'. apply Z2Nat.inj in E'; [done|apply Z.div_pos; lia..].
Qed.

Lemma build_masks_spec ps lo hi :
  Forall pos_ok ps → words_ok lo → words_ok hi →
  ∃ lo' hi', build_masks ps lo hi = Ok (lo', hi') ∧ words_ok lo' ∧ words_ok hi' ∧
    ∀ p, pos_ok p → mask_bit lo' hi' p = mask_bit lo hi p || existsb (Z.eqb p) ps.
Proof.
  intros Hps. revert lo hi. induction Hps as [|pos ps Hpos _ IH]; intros lo hi Hlo Hhi.
  { exists lo, hi. split_and!; [done..|]. intros p _. by rewrite orb_false_r. }
  cbn [build_masks existsb]. unfold pos_ok, BLOCK_BITS in *.
  destruct (Z.ltb_spec (pos / 64) 4) as [Hlt|Hge].
  - assert (pos < 256) by (pose proof (Z.div_mod pos 64); pose proof (Z.mod_pos_bound pos 64); lia).
    destruct (or_word_spec lo pos Hlo) as (lo' & -> & Hlo' & Hbit); [lia|]. cbn [mbind outcome_bind].
    destruct (IH lo' hi Hlo' Hhi) as (lo2 & hi2 & -> & ? & ? & Hbit2).
    exists lo2, hi2. split_and!; [done..|]. intros p Hp. rewrite Hbit2 by done.
    rewrite orb_assoc. f_equal. unfold mask_bit. case_bool; [apply Hbit; lia|].
    rewrite (proj2 (Z.eqb_neq p pos)) by lia. by rewrite orb_false_r.
  - assert (256 ≤ pos) by (pose proof (Z.div_mod pos 64); pose proof (Z.mod_pos_bound pos 64); lia).
    replace (pos / 64 - 4) with ((pos - 256) / 64)
      by (replace (pos - 256) with (pos + (-4) * 64) by lia; rewrite Z.div_add; lia).
    replace (pos mod 64) with ((pos - 256) mod 64)
      by (replace (pos - 256) with (pos + (-4) * 64) by lia; by rewrite Z.mod_add by lia).
    destruct (or_word_spec hi (pos - 256) Hhi) as (hi' & -> & Hhi' & Hbit); [lia|]. cbn [mbind outcome_bind].
    destruct (IH lo hi' Hlo Hhi') as (lo2 & hi2 & -> & ? & ? & Hbit2).
    exists lo2, hi2. split_and!; [done..|]. intros p Hp. rewrite Hbit2 by done.
    rewrite orb_assoc. f_equal. unfold mask_bit. case_bool.
    + rewrite (proj2 (Z.eqb_neq p pos)) by lia. by rewrite orb_false_r.
    + rewrite Hbit by lia. f_equal. destruct (Z.eqb_spec (p - 256) (pos - 256)), (Z.eqb_spec p pos); lia || done.
Qed.

Lemma mm256_testc_spec a b :
  mm256_testc a b = true ↔ ∀ n, 0 ≤ n → Z.testbit b n = true → Z.testbit a n = true.
Proof.
  unfold mm256_testc. rewrite Z.eqb_eq. split.
  - intros E n Hn Hb. pose proof (f_equal (λ z, Z.testbit z n) E) as Hz. cbn in Hz.
    rewrite Z.ldiff_spec, Hb, Z.bits_0 in Hz. by destruct (Z.testbit a n).
  - intros Hall. apply Z.bits_inj'. intros n Hn. rewrite Z.ldiff_spec, Z.bits_0.
    destruct (Z.testbit b n) eqn:E; [|done]. by rewrite Hall.
Qed.

Lemma word_bit_bound ws n : words_ok ws → 0 ≤ n → word_bit ws n = true → n < 256.
Proof.
  intros [Hlen _] Hn. unfold word_bit. destruct (ws !! _) eqn:E; [|done]. intros _.
  apply lookup_lt_Some in E. pose proof (Z.div_mod n 64). pose proof (Z.mod_pos_bound n 64).
  pose proof (Z.div_pos n 64). lia.
Qed.

Lemma mm256_load_words ws n :
  words_ok ws → 0 ≤ n → Z.testbit (mm256_load (concat (le_bytes 8 <$> ws))) n = word_bit ws n.
Proof.
  intros [Hlen Hws] Hn. unfold mm256_load. rewrite firstn_all2; [by apply testbit_words|].
  destruct ws as [|? [|? [|? [|? [|]]]]]; try discriminate Hlen. cbn. by len_simpl.
Qed.

(** Bit [n] of the 32 bytes from offset [off] of a block, [off] a multiple of 32. *)
Lemma mm256_load_block block off n :
  length block = 64%nat → bytes_ok block → (off + 32 ≤ 64)%nat → 0 ≤ n < 256 →
  Z.testbit (mm256_load (drop off block)) n = block_bit block (n + 8 * Z.of_nat off).
Proof.
  intros Hlen Hok Hoff Hn. unfold mm256_load, block_bit.
  assert (0 ≤ n / 8 < 32) by (split; [apply Z.div_pos; lia|apply Z.div_lt_upper_bound; lia]).
  rewrite (Z.mul_comm 8), Z.div_add, Z.mod_add by lia.
  rewrite Z2Nat.inj_add, Nat2Z.id, Nat.add_comm by lia.
  destruct (lookup_lt_is_Some_2 block (off + Z.to_nat (n / 8))) as [b Hb]; [lia|]. rewrite Hb.
  apply testbit_le_val; [by apply Forall_take, Forall_drop|lia|].
  rewrite lookup_take_lt by lia. by rewrite lookup_drop.
Qed.

Lemma mask_bit_zero p : pos_ok p → mask_bit [0; 0; 0; 0] [0; 0; 0; 0] p = false.
Proof.
  change [0; 0; 0; 0] with (replicate 4 0). unfold pos_ok, mask_bit, word_bit. intros Hp.
  assert (∀ i n, match replicate 4 0 !! i with Some w => Z.testbit w n | None => false end = false) as Hz.
  { intros i n. destruct (replicate 4 0 !! i) as [w|] eqn:E; [|done].
    apply lookup_replicate in E as [-> _]. apply Z.bits_0. }
  by case_bool; rewrite Hz.
Qed.

Lemma existsb_eqb p ps : existsb (Z.eqb p) ps = true ↔ p ∈ ps.
Proof.
  rewrite existsb_exists. split.
  - intros (q & Hin & ->%Z.eqb_eq). by apply list_elem_of_In.
  - intros Hin. exists p. split; [by apply list_elem_of_In|apply Z.eqb_refl].
Qed.

(** Both probes compute the membership predicate. *)
Lemma probe_avx2_spec block hash k :
  length block = 64%nat → bytes_ok block →
  probe_avx2 block hash k = Ok (forallb (block_bit block) (probe_list hash k)).
Proof.
  intros Hlen Hok. unfold probe_avx2. fold (probe_list hash k).
  pose proof (probe_list_ok hash k) as Hps. set (ps := probe_list hash k) in *.
  assert (words_ok [0; 0; 0; 0]) as Hw0 by (split; [done|repeat (constructor; [done|]); constructor]).
  destruct (build_masks_spec ps _ _ Hps Hw0 Hw0) as (lo & hi & -> & Hlo & Hhi & Hbit).
  cbn [mbind outcome_bind]. f_equal. apply eq_true_iff_eq.
  rewrite andb_true_iff, !mm256_testc_spec, forallb_forall. unfold pos_ok, BLOCK_BITS in *.
  assert (Hmask : ∀ p, 0 ≤ p < 512 → mask_bit lo hi p = true ↔ p ∈ ps).
  { intros p Hp. rewrite Hbit, mask_bit_zero by done. cbn [orb]. apply existsb_eqb. }
  split.
  - intros [Hl Hh] p Hin%list_elem_of_In.
    assert (0 ≤ p < 512) as Hp by (by eapply (proj1 (Forall_forall _ _) Hps)).
    apply Hmask in Hin; [|done]. unfold mask_bit in Hin. revert Hin. case_bool; intros Hin.
    + rewrite <-mm256_load_words in Hin by (done || lia). apply Hl in Hin; [|lia].
      rewrite <-(drop_0 block), mm256_load_block, Z.add_0_r in Hin by (done || lia). done.
    + rewrite <-mm256_load_words in Hin by (done || lia). apply Hh in Hin; [|lia].
      rewrite mm256_load_block in Hin by (done || lia).
      by replace (p - 256 + 8 * Z.of_nat 32) with p in Hin by lia.
  - intros Hall. split; intros n Hn; rewrite mm256_load_words by done; intros Hbn.
    + pose proof (word_bit_bound lo n Hlo Hn Hbn).
      rewrite <-(drop_0 block), mm256_load_block, Z.add_0_r by (done || lia).
      apply Hall, list_elem_of_In, Hmask; [lia|]. unfold mask_bit. by decide_bool.
    + pose proof (word_bit_bound hi n Hhi Hn Hbn).
      rewrite mm256_load_block by (done || lia). change (8 * Z.of_nat 32) with 256.
      apply Hall, list_elem_of_In, Hmask; [lia|]. unfold mask_bit. decide_bool.
      by rewrite Z.add_simpl_r.
Qed.

Lemma dispatch_probe_spec avx2 block hash k :
  length block = 64%nat → bytes_ok block →
  dispatch_probe avx2 block hash k = Ok (forallb (block_bit block) (probe_list hash k)).
Proof.
  intros Hlen Hok. unfold dispatch_probe. destruct avx2.
  - by apply probe_avx2_spec.
  - unfold probe_scalar. by apply probe_positions_spec, probe_list_ok.
Qed.

(** Replacing one chunk of a list leaves the others. *)
Lemma splice_before {A} (l b : list A) s n a :
  length b = n → (a + n ≤ s)%nat → (s + n ≤ length l)%nat →
  take n (drop a (take s l ++ b ++ drop (s + n) l)) = take n (drop a l).
Proof.
  intros Hb Ha Hs. rewrite drop_app_le, take_app_le by len_lia.
  rewrite !take_drop_commute, take_take, Nat.min_l by lia. done.
Qed.

Lemma splice_at {A} (l b : list A) s n :
  length b = n → (s + n ≤ length l)%nat →
  take n (drop s (take s l ++ b ++ drop (s + n) l)) = b.
Proof.
  intros Hb Hs. rewrite drop_app_ge, length_take, Nat.min_l, Nat.sub_diag, drop_0 by len_lia.
  subst n. apply take_app_length.
Qed.

Lemma splice_after {A} (l b : list A) s n a :
  length b = n → (s + n ≤ a)%nat → (s + n ≤ length l)%nat →
  drop a (take s l ++ b ++ drop (s + n) l) = drop a l.
Proof.
  intros Hb Ha Hs. rewrite !drop_app_ge by len_lia. rewrite drop_drop. f_equal. len_lia.
Qed.

(** * Blocks of a filter *)

Section FilterLemmas.
Context `{Xxh3Laws}.

Definition key_block (f : BlockedBloom) (key : bytes) : Z := pick_block (xxh3_64 key) (num_blocks f).
Definition key_positions (f : BlockedBloom) (key : bytes) : list Z :=
  probe_list (xxh3_64 key) (num_hashes (params f)).

(** Bit [pos] of block [i], from the start of the block array. *)
Definition filter_block (f : BlockedBloom) (i : Z) : bytes :=
  take 64 (drop (Z.to_nat (i * BLOCK_BYTES)) (blocks f)).

Lemma bloom_block_spec f i :
  bloom_ok f → 0 ≤ i < num_blocks f →
  bloom_block f i = Ok (filter_block f i) ∧ length (filter_block f i) = 64%nat ∧
  bytes_ok (filter_block f i).
Proof.
  intros [Hlen Hok Hnb _ _ _] Hi. unfold bloom_block, filter_block, BLOCK_BYTES in *.
  rewrite slice_ok by lia. replace (Z.to_nat (i * 64 + 64 - i * 64)) with 64%nat by lia.
  split; [done|]. split; [len_lia|]. by apply Forall_take, Forall_drop.
Qed.

Lemma contains_spec avx2 f key :
  bloom_ok f →
  bloom_contains avx2 f key
    = Ok (forallb (block_bit (filter_block f (key_block f key))) (key_positions f key)).
Proof.
  intros Hf. unfold bloom_contains. fold (key_block f key).
  destruct (bloom_block_spec f (key_block f key) Hf) as (-> & Hlen & Hok).
  { apply pick_block_lt, Hf. }
  cbn [mbind outcome_bind]. by apply dispatch_probe_spec.
Qed.

Lemma insert_spec f key :
  bloom_ok f →
  ∃ f', bloom_insert f key = Ok f' ∧ bloom_ok f' ∧
    num_blocks f' = num_blocks f ∧ params f' = params f ∧
    ∀ i p, 0 ≤ i < num_blocks f → pos_ok p →
      block_bit (filter_block f' i) p
        = block_bit (filter_block f i) p
          || ((i =? key_block f key) && existsb (Z.eqb p) (key_positions f key)).
Proof.
  intros Hf. unfold bloom_insert. fold (key_block f key). pose proof Hf as [Hlen Hok Hnb Hnk Hh Hbk].
  assert (0 ≤ key_block f key < num_blocks f) as Hidx by (apply pick_block_lt, Hnb).
  destruct (bloom_block_spec f _ Hf Hidx) as (-> & Hblen & Hbok). cbn [mbind outcome_bind].
  fold (probe_list (xxh3_64 key) (num_hashes (params f))). fold (key_positions f key).
  destruct (set_positions_spec _ (key_positions f key) Hblen Hbok) as (blk & -> & Hl & Hbk' & Hbit);
    [apply probe_list_ok|]. cbn [mbind outcome_bind].
  unfold BLOCK_BYTES in *. set (s := Z.to_nat (key_block f key * 64)).
  replace (Z.to_nat (key_block f key * 64 + 64)) with (s + 64)%nat by lia.
  eexists. split; [done|]. split; [|split; [done|split; [done|]]].
  - split; cbn [blocks num_blocks num_keys params]; try done.
    + unfold BLOCK_BYTES. len_simpl. lia.
    + apply Forall_app_2; [by apply Forall_take|]. apply Forall_app_2; [done|by apply Forall_drop].
    + unfold is_u32 in *. lia.
  - intros i p Hi Hp. unfold filter_block, BLOCK_BYTES. cbn [blocks].
    destruct (Z.lt_trichotomy i (key_block f key)) as [Hlt|[->|Hgt]].
    + rewrite splice_before by lia. by rewrite (proj2 (Z.eqb_neq _ _)), orb_false_r by lia.
    + fold s. rewrite splice_at by lia. rewrite Z.eqb_refl. by apply Hbit.
    + rewrite splice_after by lia. by rewrite (proj2 (Z.eqb_neq _ _)), orb_false_r by lia.
Qed.

(** A key is in the filter when every bit of its positions is set. *)
Definition in_filter (f : BlockedBloom) (key : bytes) : Prop :=
  ∀ p, p ∈ key_positions f key → block_bit (filter_block f (key_block f key)) p = true.

Lemma contains_in_filter avx2 f key :
  bloom_ok f → in_filter f key → bloom_contains avx2 f key = Ok true.
Proof.
  intros Hf Hin. rewrite contains_spec by done. f_equal. apply forallb_forall.
  intros p Hp%list_elem_of_In. by apply Hin.
Qed.

Lemma key_pos_ok f key p : p ∈ key_positions f key → pos_ok p.
Proof. apply Forall_forall, probe_list_ok. Qed.

Lemma insert_in_filter f key f' :
  bloom_ok f → bloom_insert f key = Ok f' →
  in_filter f' key ∧ ∀ key', in_filter f key' → in_filter f' key'.
Proof.
  intros Hf Hins. destruct (insert_spec f key Hf) as (f2 & E & _ & Hnb & Hp & Hbit).
  rewrite Hins in E. injection E as <-. unfold in_filter, key_block, key_positions in *.
  rewrite Hnb, Hp. pose proof (λ k, pick_block_lt k _ (bo_blocks _ Hf)) as Hlt. split.
  - intros p Hin. rewrite Hbit by (done || by eapply (key_pos_ok f)). rewrite Z.eqb_refl.
    by rewrite (proj2 (existsb_eqb _ _) Hin), orb_true_r.
  - intros key' Hin p Hp'. rewrite Hbit by (done || by eapply (key_pos_ok f)). by rewrite Hin.
Qed.

Lemma insert_all_spec f keys :
  bloom_ok f →
  ∃ f', insert_all f keys = Ok f' ∧ bloom_ok f' ∧ params f' = params f ∧
    num_blocks f' = num_blocks f ∧
    (∀ key, key ∈ keys → in_filter f' key) ∧ (∀ key, in_filter f key → in_filter f' key).
Proof.
  revert f. induction keys as [|key keys IH]; intros f Hf; cbn [insert_all].
  { exists f. split_and!; [done..| |done]. intros key Hin. by apply not_elem_of_nil in Hin. }
  destruct (insert_spec f key Hf) as (f1 & E & Hf1 & Hnb1 & Hp1 & _). rewrite E. cbn [mbind outcome_bind].
  destruct (insert_in_filter f key f1 Hf E) as [Hkey Hkeep].
  destruct (IH f1 Hf1) as (f' & -> & Hf' & Hp' & Hnb' & Hin & Hmono).
  exists f'. split_and!; [done|done|congruence|congruence| |auto].
  intros k [->|?]%elem_of_cons; auto.
Qed.

(** A fresh filter satisfies the invariant. *)
Lemma bloom_new_ok expected p :
  1 ≤ num_hashes p ≤ 16 → is_u8 (bits_per_key p) → Z.max expected 1 * bits_per_key p < 2 ^ 64 →
  ∃ f, bloom_new expected p = Ok f ∧ bloom_ok f ∧ params f = p.
Proof.
  intros Hh Hb Hroom. unfold bloom_new. decide_bool. eexists. split; [done|]. split; [|done].
  set (nb := Z.max 1 _).
  assert (1 ≤ nb < 2 ^ 32) as Hnb.
  { unfold nb, try_u32. case_bool; cbn [from_option id]; unfold id; lia. }
  split; cbn [blocks num_blocks num_keys params]; try done.
  - rewrite len_zeros by (unfold BLOCK_BYTES; lia). done.
  - apply zeros_ok.
Qed.
End FilterLemmas.

(** * The serialised form *)

Lemma length_bloom_header f : length (bloom_header f) = 16%nat.
Proof. unfold bloom_header. by len_simpl. Qed.

Lemma bloom_encode_ok f : bloom_ok f → bloom_encode f = Ok (bloom_header f ++ blocks f).
Proof.
  intros [Hlen _ _ _ _ _]. unfold bloom_encode. rewrite length_bloom_header.
  change (debug_assert _) with (Ok tt). cbn [mbind outcome_bind].
  unfold byte_size. rewrite slice_to_ok by lia. cbn [mbind outcome_bind].
  by rewrite firstn_all2 by lia.
Qed.

Lemma bloom_decode_encode f : bloom_ok f → bloom_decode (bloom_header f ++ blocks f) = Ok f.
Proof.
  intros [Hlen Hok Hnb Hnk Hh Hbk]. unfold bloom_decode.
  assert (len (bloom_header f ++ blocks f) = HEADER_SIZE + num_blocks f * BLOCK_BYTES) as Hl
    by (rewrite length_app, length_bloom_header; unfold HEADER_SIZE; lia).
  rewrite Hl. rewrite (proj2 (Z.ltb_ge _ _)) by (unfold HEADER_SIZE, BLOCK_BYTES; lia).
  rewrite slice_from_app by (by rewrite length_bloom_header).
  unfold is_u32, is_u8 in *. unfold bloom_header, FILTER_MAGIC, FILTER_VERSION.
  rewrite <-!app_assoc. le_fields.
  rewrite !Z.eqb_refl. cbn [negb]. decide_bool. cbn [mbind outcome_bind].
  destruct f as [bl nb nk [h b]]; done.
Qed.

Lemma bloom_decode_returns enc : returns (bloom_decode enc).
Proof.
  unfold bloom_decode. case_bool; [done|]. do 2 (destruct (negb _); [done|]).
  destruct (_ || _); [done|]. destruct (_ =? 0); [done|]. destruct (negb _); [done|].
  by rewrite slice_from_ok by (unfold HEADER_SIZE in *; lia).
Qed.

(** What an accepted filter says about the bytes it was read from. *)
Lemma bloom_decode_Ok enc f :
  bytes_ok enc → bloom_decode enc = Ok f →
  bloom_ok f ∧ (le_field enc 7 1 = 0 → bloom_header f ++ blocks f = enc).
Proof.
  intros Hok. pose proof (λ off n, le_field_range enc off n Hok) as Hr.
  unfold bloom_decode, HEADER_SIZE, BLOCK_BYTES.
  destruct (Z.ltb_spec (len enc) 16) as [|Hlen]; [done|].
  destruct (Z.eqb_spec (le_field enc 0 4) FILTER_MAGIC) as [Hmagic|]; [|done].
  destruct (Z.eqb_spec (le_field enc 4 1) FILTER_VERSION) as [Hver|]; [|done].
  destruct (Z.eqb_spec (le_field enc 5 1) 0) as [|Hh0]; [done|].
  destruct (Z.ltb_spec 16 (le_field enc 5 1)) as [|Hh16]; [done|].
  destruct (Z.eqb_spec (le_field enc 8 4) 0) as [|Hnb0]; [done|].
  destruct (Z.eqb_spec (len enc) (16 + le_field enc 8 4 * 64)) as [Hl|]; [|done]. cbn [negb orb].
  rewrite slice_from_ok by lia. cbn [mbind outcome_bind]. intros [= <-].
  pose proof (Hr 8%nat 4%nat). pose proof (Hr 12%nat 4%nat). pose proof (Hr 5%nat 1%nat).
  pose proof (Hr 6%nat 1%nat).
  change (256 ^ Z.of_nat 4) with (2 ^ 32) in *. change (256 ^ Z.of_nat 1) with (2 ^ 8) in *. split.
  - split; cbn [blocks num_blocks num_keys params num_hashes bits_per_key];
      unfold is_u32, is_u8, BLOCK_BYTES; try lia.
    + len_lia.
    + by apply Forall_drop.
  - intros Hres. unfold bloom_header. cbn [blocks num_blocks num_keys params num_hashes bits_per_key].
    rewrite <-Hmagic, <-Hver, <-Hres, !le_field_bytes by (done || lia). rewrite <-!app_assoc.
    by rewrite !take_drop_next by done.
Qed.

(** * Properties *)



(** C33. The AVX2 probe and the scalar probe agree on every 64-byte block, hash
    and number of hash functions, and neither reads outside the block. *)
Theorem probe_backends_agree (block : bytes) (hash k : Z)
    (Hlen : length block = 64%nat) (Hok : bytes_ok block) :
  probe_avx2 block hash k = probe_scalar block hash k ∧ returns (probe_scalar block hash k).
Proof.
  rewrite (probe_avx2_spec block hash k Hlen Hok).
  pose proof (dispatch_probe_spec false block hash k Hlen Hok) as E. cbn in E. by rewrite E.
Qed.

Lemma probe_backends_agree_witness :
  probe_avx2 (replicate 63 255 ++ [127]) 0x1FF00000000 2 = Ok false ∧
  probe_scalar (replicate 63 255 ++ [127]) 0x1FF00000000 2 = Ok false.
Proof.
  destruct (probe_backends_agree (replicate 63 255 ++ [127]) 0x1FF00000000 2) as [-> _].
  - reflexivity.
  - apply (bool_decide_unpack _). vm_compute. exact I.
  - split; vm_compute; reflexivity.
Defined.

(** Reading a filter from arbitrary bytes never panics, and whatever is
    accepted satisfies the filter's invariant: lookups in it never panic or
    read out of bounds, and it serialises back to the same bytes. *)
Theorem bloom_decode_total `{Xxh3Laws} (enc : bytes) (Hok : bytes_ok enc) :
  returns (bloom_decode enc) ∧
  ∀ f, bloom_decode enc = Ok f →
    bloom_ok f ∧ (∀ avx2 key, returns (bloom_contains avx2 f key)) ∧
    (le_field enc 7 1 = 0 → bloom_encode f = Ok enc).
Proof.
  split; [apply bloom_decode_returns|]. intros f Hf.
  apply bloom_decode_Ok in Hf as [Hinv Henc]; [|done]. split_and!; [done| |].
  - intros avx2 key. by rewrite contains_spec.
  - intros Hres. by rewrite bloom_encode_ok, Henc.
Qed.

Lemma bloom_decode_total_witness :
  let enc := le_bytes 4 FILTER_MAGIC ++ [1; 8; 10; 0; 1; 0; 0; 0; 0; 0; 0; 0] ++ zeros 64 in
  bytes_ok enc ∧ ∃ f, bloom_decode enc = Ok f ∧ bloom_encode f = Ok enc.
Proof.
  cbn zeta. set (enc := _ ++ _).
  assert (bytes_ok enc) as H by (apply (bool_decide_unpack _); vm_compute; exact I).
  split; [exact H|]. eexists. split; [vm_compute; reflexivity|].
  apply (proj2 (bloom_decode_total enc H) _); vm_compute; reflexivity.
Defined.
