(* ===== verification/Probe.v ===== *)
(** The cached choice of the Bloom probe: [select_probe_backend] and
    [dispatch_probe] of [crates/paddock-core/src/filter/blocked_bloom.rs].

    The cache is two process-wide atomics.  Threads call [select_probe_backend]
    at the same time, and each of its atomic accesses is one step here; a
    schedule says whose step is next.  The [Release] store of the flag follows
    the store of the backend, and the [Acquire] load of the flag precedes the
    load of the backend, so interleaving the accesses loses no behaviour: a
    thread that sees the flag sees a backend stored before it.  [detected] is
    the answer of [is_x86_feature_detected!], the same for the whole process. *)

From S2P Require Import Prelude Checksum Bloom.

(** * The cache and its calls *)

Record ProbeCache := { PROBE_BACKEND_INIT : bool; PROBE_BACKEND : Z }.

Definition probe_cache_new : ProbeCache := {| PROBE_BACKEND_INIT := false; PROBE_BACKEND := 0 |}.

(** Where a call of [select_probe_backend] is: before the load of the flag,
    before the load of the cached backend, before the store of the backend,
    before the store of the flag, or returned. *)
Inductive probe_pc :=
  | LoadInit
  | LoadBackend
  | StoreBackend
  | StoreInit
  | Returned (backend : Z).

#[global] Instance probe_pc_eq_dec : EqDecision probe_pc.
Proof. solve_decision. Defined.

Definition chosen (detected : bool) : Z := if detected then 1 else 0.

Definition select_step (detected : bool) (pc : probe_pc) (c : ProbeCache) : probe_pc * ProbeCache :=
  match pc with
  | LoadInit => (if PROBE_BACKEND_INIT c then LoadBackend else StoreBackend, c)
  | LoadBackend => (Returned (PROBE_BACKEND c), c)
  | StoreBackend =>
      (StoreInit, {| PROBE_BACKEND_INIT := PROBE_BACKEND_INIT c; PROBE_BACKEND := chosen detected |})
  | StoreInit =>
      (Returned (chosen detected), {| PROBE_BACKEND_INIT := true; PROBE_BACKEND := PROBE_BACKEND c |})
  | Returned b => (Returned b, c)
  end.

(** One call with no other thread running. *)
Definition select_probe_backend (detected : bool) (c : ProbeCache) : probe_pc * ProbeCache :=
  let '(pc, c) := select_step detected LoadInit c in
  let '(pc, c) := select_step detected pc c in
  select_step detected pc c.

(** Calls of several threads, one step of the scheduled thread at a time. *)
Fixpoint run_selects (detected : bool) (schedule : list nat) (calls : list probe_pc) (c : ProbeCache) :
    list probe_pc * ProbeCache :=
  match schedule with
  | [] => (calls, c)
  | i :: schedule =>
      match calls !! i with
      | Some pc =>
          let '(pc, c) := select_step detected pc c in
          run_selects detected schedule (<[i := pc]> calls) c
      | None => run_selects detected schedule calls c
      end
  end.

(** The [match] of [dispatch_probe] on the tag the call returned. *)
Definition probe_with (backend : Z) (block : bytes) (hash k : Z) : outcome bool :=
  if backend =? 1 then probe_avx2 block hash k else probe_scalar block hash k.

(** * The invariant of the cache *)

Section Invariant.
Variable detected : bool.

Definition cache_ok (c : ProbeCache) : Prop :=
  PROBE_BACKEND_INIT c = true → PROBE_BACKEND c = chosen detected.

Definition call_ok (c : ProbeCache) (pc : probe_pc) : Prop :=
  match pc with
  | LoadInit | StoreBackend => True
  | LoadBackend | StoreInit => PROBE_BACKEND c = chosen detected
  | Returned b => b = chosen detected
  end.

(** The steps a call may still need. *)
Definition steps_left (pc : probe_pc) : nat :=
  match pc with
  | LoadInit => 3
  | StoreBackend => 2
  | LoadBackend | StoreInit => 1
  | Returned _ => 0
  end.

Lemma select_step_ok (pc : probe_pc) (c : ProbeCache) :
  cache_ok c → call_ok c pc →
  let '(pc', c') := select_step detected pc c in
  cache_ok c' ∧ call_ok c' pc' ∧ (steps_left pc' ≤ steps_left pc - 1)%nat ∧
  (∀ other, call_ok c other → call_ok c' other).
Proof.
  unfold cache_ok. intros Hc Hpc. destruct pc; cbn in *.
  - destruct (PROBE_BACKEND_INIT c) eqn:E; cbn; repeat split; try done; try lia; by auto.
  - repeat split; try done; lia.
  - repeat split; try done; try lia. intros []; cbn; done.
  - repeat split; try done; try lia.
  - repeat split; try done; lia.
Qed.

Lemma run_selects_ok (schedule : list nat) :
  ∀ calls c, cache_ok c → Forall (call_ok c) calls →
  let '(calls', c') := run_selects detected schedule calls c in
  Forall (call_ok c') calls' ∧
  ∀ i pc, calls !! i = Some pc → ∃ pc', calls' !! i = Some pc' ∧
    (steps_left pc' ≤ steps_left pc - count_occ Nat.eq_dec schedule i)%nat.
Proof.
  induction schedule as [|j schedule IH]; intros calls c Hc Hcalls; cbn [run_selects].
  { split; [done|]. intros i pc Hi. exists pc. split; [done|]. cbn. lia. }
  destruct (calls !! j) as [pc|] eqn:Hj; last first.
  { specialize (IH calls c Hc Hcalls). destruct (run_selects _ _ _ _) as [calls' c'].
    destruct IH as [H1 H2]. split; [done|]. intros i pc Hi. destruct (H2 i pc Hi) as (pc' & E & L).
    exists pc'. split; [done|]. cbn. destruct (Nat.eq_dec j i) as [->|]; [congruence|done]. }
  pose proof (select_step_ok pc c Hc (proj1 (Forall_lookup _ _) Hcalls _ _ Hj)) as Hs.
  destruct (select_step detected pc c) as [pc1 c1]. destruct Hs as (Hc1 & Hpc1 & Hl & Hmono).
  assert (Hcalls1 : Forall (call_ok c1) (<[j := pc1]> calls)).
  { apply Forall_insert; [|done]. by eapply Forall_impl. }
  specialize (IH _ _ Hc1 Hcalls1). destruct (run_selects _ _ _ _) as [calls' c'].
  destruct IH as [H1 H2]. split; [done|]. intros i pc' Hi. cbn.
  destruct (Nat.eq_dec j i) as [->|Hne].
  - destruct (H2 i pc1) as (pc2 & E & L).
    { apply list_lookup_insert_eq. by eapply lookup_lt_Some. }
    exists pc2. split; [done|]. simplify_eq. lia.
  - apply H2. by rewrite list_lookup_insert_ne.
Qed.

End Invariant.

(** * What a call returns *)

Lemma probe_with_chosen (detected : bool) (block : bytes) (hash k : Z) :
  probe_with (chosen detected) block hash k = dispatch_probe detected block hash k.
Proof. by destruct detected. Qed.

(** C34. However the calls of any number of threads interleave, a call that has
    had three steps has returned, and the tag it returned selects the probe the
    CPU supports: AVX2 code never runs on a CPU without it, and every caller
    gets the answer of the same probe. *)
Theorem probe_backend_agreed (detected : bool) (threads : nat) (schedule : list nat) (i : nat)
    (block : bytes) (hash k : Z)
    (Hi : (i < threads)%nat)
    (Hturns : (3 ≤ count_occ Nat.eq_dec schedule i)%nat) :
  let '(calls, _) := run_selects detected schedule (replicate threads LoadInit) probe_cache_new in
  ∃ backend, calls !! i = Some (Returned backend) ∧
    (backend = 1 → detected = true) ∧
    probe_with backend block hash k = dispatch_probe detected block hash k.
Proof.
  pose proof (run_selects_ok detected schedule (replicate threads LoadInit) probe_cache_new) as H.
  destruct (run_selects _ _ _ _) as [calls c]. destruct H as [H1 H2]; [done| |].
  { by apply Forall_replicate. }
  destruct (H2 i LoadInit) as (pc & E & L); [by apply lookup_replicate|].
  pose proof (proj1 (Forall_lookup _ _) H1 _ _ E) as Hok.
  cbn in L. destruct pc as [| | | |b]; cbn in L; try lia. cbn in Hok. subst b.
  exists (chosen detected). split; [done|]. split; [by destruct detected|].
  apply probe_with_chosen.
Qed.

Lemma probe_backend_agreed_witness :
  ∃ calls c, run_selects true [0; 1; 0; 1; 2; 1; 0; 2; 2; 0]%nat (replicate 3 LoadInit) probe_cache_new
               = (calls, c) ∧
  calls = [Returned 1; Returned 1; Returned 1] ∧
  ∃ backend, calls !! 2%nat = Some (Returned backend) ∧ (backend = 1 → true = true) ∧
    probe_with backend (replicate 64 255) 7 8 = dispatch_probe true (replicate 64 255) 7 8.
Proof.
  eexists _, _. split; [vm_compute; reflexivity|]. split; [reflexivity|].
  apply (probe_backend_agreed true 3 [0; 1; 0; 1; 2; 1; 0; 2; 2; 0]%nat 2 (replicate 64 255) 7 8).
  - lia.
  - vm_compute. lia.
Defined.
