(* ===== verification/SstFormat.v ===== *)
(** SSTable on-disk types: [crates/paddock-core/src/sstable/format.rs].

    As in the WAL format, [..._as_bytes] and [..._from_bytes] are the
    [zerocopy] views of the packed little-endian structs. *)

From S2P Require Import Prelude Checksum.

(** * Constants *)

Definition SSTABLE_MAGIC : Z := 0x53564B50.
Definition FOOTER_MAGIC : Z := 0x4654525353564B50.
Definition SST_FORMAT_VERSION : Z := 1.
Definition FILE_HEADER_SIZE : Z := 64.
Definition FILE_HEADER_REGION_SIZE : Z := 4096.
Definition FOOTER_SIZE : Z := 64.
Definition DEFAULT_BLOCK_SIZE : Z := 16 * 1024.
Definition BLOCK_ALIGNMENT : Z := 4096.
Definition RESTART_INTERVAL : Z := 16.
Definition BLOCK_HANDLE_SIZE : Z := 16.

(** [flag::CHECKSUMMED] and [flag::ENCRYPTED]. *)
Definition CHECKSUMMED : Z := Z.shiftl 1 0.
Definition ENCRYPTED : Z := Z.shiftl 1 1.

Inductive CompressionAlg := CompNone | Lz4 | Zstd.

Definition compression_from_byte (b : Z) : option CompressionAlg :=
  if b =? 0 then Some CompNone
  else if b =? 1 then Some Lz4
  else if b =? 2 then Some Zstd
  else None.

(** [compression as u8]. *)
Definition compression_as_byte (c : CompressionAlg) : Z :=
  match c with CompNone => 0 | Lz4 => 1 | Zstd => 2 end.

Inductive RecordOp := OpPut | OpTombstone.

#[global] Instance RecordOp_eq_dec : EqDecision RecordOp.
Proof. solve_decision. Defined.

Definition record_op_from_byte (b : Z) : option RecordOp :=
  if b =? 0 then Some OpPut else if b =? 1 then Some OpTombstone else None.

(** [op as u8]. *)
Definition record_op_as_byte (op : RecordOp) : Z :=
  match op with OpPut => 0 | OpTombstone => 1 end.

(** * The file header *)

Record FileHeader := {
  fh_magic : Z;
  fh_version : Z;
  fh_flags : Z;
  fh_compression_alg : Z;
  fh_checksum_alg : Z;
  fh_reserved : Z;
  fh_num_entries : Z;
  fh_num_blocks : Z;
  fh_min_seqno : Z;
  fh_max_seqno : Z;
  fh_data_blocks_end_offset : Z;
  fh_header_crc32c : Z;
  fh_reserved2 : Z
}.

#[global] Instance FileHeader_eq_dec : EqDecision FileHeader.
Proof. solve_decision. Defined.

(** The 56 bytes the checksum covers, then the checksum and the padding; the
    two reserved bytes are one 16-bit field. *)
Definition file_header_prefix (h : FileHeader) : bytes :=
  le_bytes 4 (fh_magic h) ++ le_bytes 4 (fh_version h) ++ le_bytes 4 (fh_flags h) ++
  le_bytes 1 (fh_compression_alg h) ++ le_bytes 1 (fh_checksum_alg h) ++
  le_bytes 2 (fh_reserved h) ++ le_bytes 8 (fh_num_entries h) ++ le_bytes 8 (fh_num_blocks h) ++
  le_bytes 8 (fh_min_seqno h) ++ le_bytes 8 (fh_max_seqno h) ++
  le_bytes 8 (fh_data_blocks_end_offset h).

Definition file_header_as_bytes (h : FileHeader) : bytes :=
  file_header_prefix h ++ le_bytes 4 (fh_header_crc32c h) ++ le_bytes 4 (fh_reserved2 h).

Definition file_header_from_bytes (b : bytes) : option FileHeader :=
  if len b =? FILE_HEADER_SIZE then
    Some {| fh_magic := le_field b 0 4; fh_version := le_field b 4 4; fh_flags := le_field b 8 4;
            fh_compression_alg := le_field b 12 1; fh_checksum_alg := le_field b 13 1;
            fh_reserved := le_field b 14 2; fh_num_entries := le_field b 16 8;
            fh_num_blocks := le_field b 24 8; fh_min_seqno := le_field b 32 8;
            fh_max_seqno := le_field b 40 8; fh_data_blocks_end_offset := le_field b 48 8;
            fh_header_crc32c := le_field b 56 4; fh_reserved2 := le_field b 60 4 |}
  else None.

Section Signed.
Context `{Crc32c}.

Definition file_header_crc (h : FileHeader) : Z := crc_hash (take 56 (file_header_as_bytes h)).

Definition file_header_new_signed (flags : Z) (compression : CompressionAlg) (checksum : Algorithm)
    (num_entries num_blocks min_seqno max_seqno data_blocks_end_offset : Z) : FileHeader :=
  let h := {| fh_magic := SSTABLE_MAGIC; fh_version := SST_FORMAT_VERSION; fh_flags := flags;
              fh_compression_alg := compression_as_byte compression;
              fh_checksum_alg := algorithm_tag checksum; fh_reserved := 0;
              fh_num_entries := num_entries; fh_num_blocks := num_blocks;
              fh_min_seqno := min_seqno; fh_max_seqno := max_seqno;
              fh_data_blocks_end_offset := data_blocks_end_offset;
              fh_header_crc32c := 0; fh_reserved2 := 0 |} in
  {| fh_magic := fh_magic h; fh_version := fh_version h; fh_flags := fh_flags h;
     fh_compression_alg := fh_compression_alg h; fh_checksum_alg := fh_checksum_alg h;
     fh_reserved := fh_reserved h; fh_num_entries := fh_num_entries h;
     fh_num_blocks := fh_num_blocks h; fh_min_seqno := fh_min_seqno h;
     fh_max_seqno := fh_max_seqno h; fh_data_blocks_end_offset := fh_data_blocks_end_offset h;
     fh_header_crc32c := file_header_crc h; fh_reserved2 := fh_reserved2 h |}.

Definition file_header_is_valid (h : FileHeader) : bool :=
  if negb (fh_magic h =? SSTABLE_MAGIC) || negb (fh_version h =? SST_FORMAT_VERSION) then false
  else if negb (fh_reserved h =? 0) || negb (fh_reserved2 h =? 0) then false
  else fh_header_crc32c h =? file_header_crc h.
End Signed.

(** * Block handles and the footer *)

Record BlockHandle := { bh_offset : Z; bh_length : Z; bh_checksum : Z }.

#[global] Instance BlockHandle_eq_dec : EqDecision BlockHandle.
Proof. solve_decision. Defined.

Definition block_handle_as_bytes (h : BlockHandle) : bytes :=
  le_bytes 8 (bh_offset h) ++ le_bytes 4 (bh_length h) ++ le_bytes 4 (bh_checksum h).

Definition block_handle_at (b : bytes) (off : nat) : BlockHandle :=
  {| bh_offset := le_field b off 8; bh_length := le_field b (off + 8) 4;
     bh_checksum := le_field b (off + 12) 4 |}.

Definition block_handle_from_bytes (b : bytes) : option BlockHandle :=
  if len b =? BLOCK_HANDLE_SIZE then Some (block_handle_at b 0) else None.

Record Footer := {
  ft_index_handle : BlockHandle;
  ft_filter_handle : BlockHandle;
  ft_meta_handle : BlockHandle;
  ft_footer_magic : Z;
  ft_format_version : Z;
  ft_footer_crc32c : Z
}.

#[global] Instance Footer_eq_dec : EqDecision Footer.
Proof. solve_decision. Defined.

Definition footer_prefix (f : Footer) : bytes :=
  block_handle_as_bytes (ft_index_handle f) ++ block_handle_as_bytes (ft_filter_handle f) ++
  block_handle_as_bytes (ft_meta_handle f) ++ le_bytes 8 (ft_footer_magic f) ++
  le_bytes 4 (ft_format_version f).

Definition footer_as_bytes (f : Footer) : bytes :=
  footer_prefix f ++ le_bytes 4 (ft_footer_crc32c f).

Definition footer_from_bytes (b : bytes) : option Footer :=
  if len b =? FOOTER_SIZE then
    Some {| ft_index_handle := block_handle_at b 0; ft_filter_handle := block_handle_at b 16;
            ft_meta_handle := block_handle_at b 32; ft_footer_magic := le_field b 48 8;
            ft_format_version := le_field b 56 4; ft_footer_crc32c := le_field b 60 4 |}
  else None.

Section SignedFooter.
Context `{Crc32c}.

Definition footer_crc (f : Footer) : Z := crc_hash (take 60 (footer_as_bytes f)).

Definition footer_new_signed (index_handle filter_handle meta_handle : BlockHandle) : Footer :=
  let f := {| ft_index_handle := index_handle; ft_filter_handle := filter_handle;
              ft_meta_handle := meta_handle; ft_footer_magic := FOOTER_MAGIC;
              ft_format_version := SST_FORMAT_VERSION; ft_footer_crc32c := 0 |} in
  {| ft_index_handle := ft_index_handle f; ft_filter_handle := ft_filter_handle f;
     ft_meta_handle := ft_meta_handle f; ft_footer_magic := ft_footer_magic f;
     ft_format_version := ft_format_version f; ft_footer_crc32c := footer_crc f |}.

Definition footer_is_valid (f : Footer) : bool :=
  if negb (ft_footer_magic f =? FOOTER_MAGIC) || negb (ft_format_version f =? SST_FORMAT_VERSION)
  then false
  else ft_footer_crc32c f =? footer_crc f.
End SignedFooter.

(** * Ranges *)

Definition block_handle_ok (h : BlockHandle) : Prop :=
  is_u64 (bh_offset h) ∧ is_u32 (bh_length h) ∧ is_u32 (bh_checksum h).

Definition file_header_ok (h : FileHeader) : Prop :=
  (is_u32 (fh_magic h) ∧ is_u32 (fh_version h) ∧ is_u32 (fh_flags h) ∧
   is_u8 (fh_compression_alg h) ∧ is_u8 (fh_checksum_alg h) ∧ is_u16 (fh_reserved h)) ∧
  is_u64 (fh_num_entries h) ∧ is_u64 (fh_num_blocks h) ∧ is_u64 (fh_min_seqno h) ∧
  is_u64 (fh_max_seqno h) ∧ is_u64 (fh_data_blocks_end_offset h) ∧
  is_u32 (fh_header_crc32c h) ∧ is_u32 (fh_reserved2 h).

Definition footer_ok (f : Footer) : Prop :=
  block_handle_ok (ft_index_handle f) ∧ block_handle_ok (ft_filter_handle f) ∧
  block_handle_ok (ft_meta_handle f) ∧ is_u64 (ft_footer_magic f) ∧
  is_u32 (ft_format_version f) ∧ is_u32 (ft_footer_crc32c f).

(** * Lemmas *)

Lemma length_file_header_prefix h : length (file_header_prefix h) = 56%nat.
Proof. unfold file_header_prefix. by len_simpl. Qed.

Lemma length_file_header h : length (file_header_as_bytes h) = 64%nat.
Proof. unfold file_header_as_bytes. rewrite !length_app, length_file_header_prefix. by len_simpl. Qed.

Lemma length_block_handle h : length (block_handle_as_bytes h) = 16%nat.
Proof. unfold block_handle_as_bytes. by len_simpl. Qed.
#[export] Hint Rewrite length_file_header_prefix length_file_header length_block_handle : len.

Lemma length_footer_prefix f : length (footer_prefix f) = 60%nat.
Proof. unfold footer_prefix. by len_simpl. Qed.

Lemma length_footer f : length (footer_as_bytes f) = 64%nat.
Proof. unfold footer_as_bytes. by rewrite length_app, length_footer_prefix, length_le_bytes. Qed.
#[export] Hint Rewrite length_footer_prefix length_footer : len.

Lemma record_op_from_as op : record_op_from_byte (record_op_as_byte op) = Some op.
Proof. by destruct op. Qed.

(** Fields of a struct that lies behind [p] in a larger one. *)
Lemma le_field_app_skip p b off n :
  (length p ≤ off)%nat → le_field (p ++ b) off n = le_field b (off - length p) n.
Proof. intros Hoff. unfold le_field. by rewrite drop_app_ge. Qed.

Lemma le_field_app_in a b off n :
  (off + n ≤ length a)%nat → le_field (a ++ b) off n = le_field a off n.
Proof. intros Hoff. unfold le_field. rewrite drop_app_le, take_app_le by len_lia. done. Qed.

Lemma block_handle_at_app p h s off :
  block_handle_ok h → off = length p → block_handle_at (p ++ block_handle_as_bytes h ++ s) off = h.
Proof.
  intros (Ho & Hl & Hc) ->. unfold block_handle_at.
  do 3 rewrite (le_field_app_skip p) by lia.
  replace (length p - length p)%nat with 0%nat by lia.
  replace (length p + 8 - length p)%nat with 8%nat by lia.
  replace (length p + 12 - length p)%nat with 12%nat by lia.
  unfold block_handle_as_bytes, is_u64, is_u32 in *. rewrite <-!app_assoc. le_fields. by destruct h.
Qed.

Lemma block_handle_at_here h s :
  block_handle_ok h → block_handle_at (block_handle_as_bytes h ++ s) 0 = h.
Proof. intros Hh. by apply (block_handle_at_app [] h s 0 Hh). Qed.

Lemma block_handle_roundtrip h :
  block_handle_ok h → block_handle_from_bytes (block_handle_as_bytes h) = Some h.
Proof.
  intros Hh. unfold block_handle_from_bytes. rewrite length_block_handle. cbn [Z.eqb Z.of_nat]. f_equal.
  pose proof (block_handle_at_here h [] Hh) as E. by rewrite app_nil_r in E.
Qed.

Lemma file_header_from_as h :
  file_header_ok h → file_header_from_bytes (file_header_as_bytes h) = Some h.
Proof.
  intros ((? & ? & ? & ? & ? & ?) & ? & ? & ? & ? & ? & ? & ?).
  unfold file_header_from_bytes. rewrite length_file_header.
  unfold file_header_as_bytes, file_header_prefix, is_u32, is_u64, is_u16, is_u8 in *.
  rewrite <-!app_assoc. le_fields. by destruct h.
Qed.

Lemma footer_from_as f : footer_ok f → footer_from_bytes (footer_as_bytes f) = Some f.
Proof.
  intros (Hi & Hf & Hm & ? & ? & ?). unfold footer_from_bytes. rewrite length_footer.
  unfold footer_as_bytes, footer_prefix. rewrite <-!app_assoc.
  set (tail := le_bytes 8 _ ++ _).
  assert (∀ off n, (48 ≤ off)%nat →
    le_field (block_handle_as_bytes (ft_index_handle f) ++ block_handle_as_bytes (ft_filter_handle f) ++
      block_handle_as_bytes (ft_meta_handle f) ++ tail) off n = le_field tail (off - 48) n) as Hskip.
  { intros off n Hoff. rewrite !le_field_app_skip, !length_block_handle by len_lia.
    f_equal. lia. }
  rewrite !Hskip by lia. cbn [Nat.sub]. unfold tail at 4 5 6. unfold is_u64, is_u32 in *. le_fields.
  rewrite block_handle_at_here by done.
  rewrite (block_handle_at_app (block_handle_as_bytes (ft_index_handle f)))
    by (done || by rewrite length_block_handle).
  rewrite (app_assoc (block_handle_as_bytes (ft_index_handle f))), (block_handle_at_app (_ ++ _))
    by (done || by len_simpl).
  by destruct f.
Qed.

Section SignedLemmas.
Context `{Crc32cLaws}.

Lemma file_header_signed_valid flags comp alg n nb mn mx off :
  file_header_is_valid (file_header_new_signed flags comp alg n nb mn mx off) = true.
Proof. unfold file_header_is_valid. cbn -[file_header_crc]. apply Z.eqb_refl. Qed.

Lemma footer_signed_valid i f m : footer_is_valid (footer_new_signed i f m) = true.
Proof. unfold footer_is_valid. cbn -[footer_crc]. apply Z.eqb_refl. Qed.

Lemma file_header_signed_ok flags comp alg n nb mn mx off :
  is_u32 flags → is_u64 n ∧ is_u64 nb ∧ is_u64 mn ∧ is_u64 mx ∧ is_u64 off →
  file_header_ok (file_header_new_signed flags comp alg n nb mn mx off).
Proof.
  intros Hf (? & ? & ? & ? & ?). unfold file_header_ok, file_header_new_signed.
  cbn -[file_header_crc compression_as_byte algorithm_tag].
  split_and!; try done; try apply crc_hash_u32; [by destruct comp|by destruct alg].
Qed.

Lemma footer_signed_ok i f m :
  block_handle_ok i ∧ block_handle_ok f ∧ block_handle_ok m → footer_ok (footer_new_signed i f m).
Proof.
  intros (? & ? & ?). unfold footer_ok, footer_new_signed. cbn -[footer_crc].
  split_and!; try done. apply crc_hash_u32.
Qed.
End SignedLemmas.

(** * Properties *)

(** The header and the footer the writer emits are accepted by the reader
    and give back the same fields: parsing their 64 bytes returns the struct
    and its validity check succeeds. *)
Theorem sst_header_footer_roundtrip `{Crc32cLaws} (flags : Z) (comp : CompressionAlg)
    (alg : Algorithm) (n nb mn mx off : Z) (i f m : BlockHandle)
    (Hflags : is_u32 flags)
    (Hnums : is_u64 n ∧ is_u64 nb ∧ is_u64 mn ∧ is_u64 mx ∧ is_u64 off)
    (Hhandles : block_handle_ok i ∧ block_handle_ok f ∧ block_handle_ok m) :
  let h := file_header_new_signed flags comp alg n nb mn mx off in
  let ft := footer_new_signed i f m in
  file_header_from_bytes (file_header_as_bytes h) = Some h ∧ file_header_is_valid h = true ∧
  footer_from_bytes (footer_as_bytes ft) = Some ft ∧ footer_is_valid ft = true.
Proof.
  cbn zeta. split_and!; [|apply file_header_signed_valid| |apply footer_signed_valid].
  - by apply file_header_from_as, file_header_signed_ok.
  - by apply footer_from_as, footer_signed_ok.
Qed.

Lemma sst_header_footer_roundtrip_witness :
  let h := file_header_new_signed 3 CompNone AlgCrc32c 10 2 1 9 8192 in
  let b := {| bh_offset := 8192; bh_length := 100; bh_checksum := 7 |} in
  file_header_from_bytes (file_header_as_bytes h) = Some h ∧
  footer_from_bytes (footer_as_bytes (footer_new_signed b b b)) = Some (footer_new_signed b b b).
Proof.
  destruct (sst_header_footer_roundtrip 3 CompNone AlgCrc32c 10 2 1 9 8192
    {| bh_offset := 8192; bh_length := 100; bh_checksum := 7 |}
    {| bh_offset := 8192; bh_length := 100; bh_checksum := 7 |}
    {| bh_offset := 8192; bh_length := 100; bh_checksum := 7 |}) as (H1 & _ & H2 & _).
  - vm_compute. split; [discriminate|reflexivity].
  - unfold is_u64. lia.
  - unfold block_handle_ok, is_u64, is_u32. cbn. lia.
  - split; [exact H1|exact H2].
Defined.
