(* ===== verification/Block.v ===== *)
(** SSTable data and index blocks: [crates/paddock-core/src/sstable/block.rs].

    The builder prefix-compresses keys between restart points; the reader
    iterates, and seeks by binary search over the restart array. *)

From S2P Require Import Prelude Varint Checksum SstFormat.

(** * Data *)

Definition BLOCK_TRAILER_SIZE : Z := 8.

(** A record of a block: [RecordView], and the arguments of [add]. *)
Record BlockRecord := {
  br_key : bytes;
  br_value : bytes;
  br_seqno : Z;
  br_op : RecordOp
}.

#[global] Instance BlockRecord_eq_dec : EqDecision BlockRecord.
Proof. solve_decision. Defined.

Record BlockBuilder := {
  bb_buffer : bytes;
  bb_restarts : list Z;
  bb_last_key : bytes;
  bb_counter : Z
}.

Record BlockReader := { rd_records : bytes; rd_restart_bytes : bytes }.

Record BlockIter := { bi_records : bytes; bi_cursor : Z; bi_last_key : bytes }.

(** * The builder *)

Definition builder_new : BlockBuilder :=
  {| bb_buffer := []; bb_restarts := []; bb_last_key := []; bb_counter := RESTART_INTERVAL |}.

Definition builder_is_empty (b : BlockBuilder) : bool :=
  match bb_buffer b with [] => true | _ :: _ => false end.

Definition estimated_size (b : BlockBuilder) : Z :=
  len (bb_buffer b) + len (bb_restarts b) * 4 + BLOCK_TRAILER_SIZE.

(** The [while] loop counts the positions on which both strings agree. *)
Fixpoint shared_prefix_len (a b : bytes) : Z :=
  match a, b with
  | x :: a, y :: b => if x =? y then 1 + shared_prefix_len a b else 0
  | _, _ => 0
  end.

Definition builder_add (b : BlockBuilder) (key value : bytes) (seqno : Z) (op : RecordOp) :
    outcome BlockBuilder :=
  let '(shared, restarts, counter) :=
    if bb_counter b <? RESTART_INTERVAL
    then (shared_prefix_len (bb_last_key b) key, bb_restarts b, bb_counter b)
    else (0, bb_restarts b ++ [u32 (len (bb_buffer b))], 0) in
  unshared ← usize_sub (len key) shared;
  v1 ← put_varint_u32 (u32 shared);
  v2 ← put_varint_u32 (u32 unshared);
  v3 ← put_varint_u32 (u32 (len value));
  suffix ← slice_from key shared;
  Ok {| bb_buffer := bb_buffer b ++ v1 ++ v2 ++ v3 ++ le_bytes 8 seqno ++
                     [record_op_as_byte op] ++ suffix ++ value;
        bb_restarts := restarts; bb_last_key := key; bb_counter := counter + 1 |}.

Definition builder_finish `{Crc32c} (b : BlockBuilder) : outcome (bytes * BlockBuilder) :=
  let out := bb_buffer b ++ concat (le_bytes 4 <$> bb_restarts b) in
  num_restarts ← expect (try_u32 (len (bb_restarts b)));
  let out := out ++ le_bytes 4 num_restarts in
  let crc := crc_hash out in
  Ok (out ++ le_bytes 4 crc, builder_new).

(** Appending a run of records, as the writer and the index builder do. *)
Fixpoint builder_add_all (b : BlockBuilder) (rs : list BlockRecord) : outcome BlockBuilder :=
  match rs with
  | [] => Ok b
  | r :: rs =>
      b ← builder_add b (br_key r) (br_value r) (br_seqno r) (br_op r);
      builder_add_all b rs
  end.

(** * The reader *)

Definition block_open `{Crc32c} (bytes : bytes) : outcome BlockReader :=
  if len bytes <? BLOCK_TRAILER_SIZE
  then Err (invalid_format_static "sstable data block" "shorter than block trailer")
  else
    stored ← slice_from bytes (len bytes - 4);
    let stored_crc := le_val stored in
    crc_input ← slice_to bytes (len bytes - 4);
    let computed_crc := crc_hash crc_input in
    if negb (stored_crc =? computed_crc)
    then Err (ChecksumMismatch "sstable data block" stored_crc computed_crc)
    else
      num ← slice bytes (len bytes - 8) (len bytes - 4);
      let num_restarts := le_val num in
      if negb (num_restarts * 4 <? 2 ^ 64)
      then Err (invalid_format_static "sstable data block" "restart overflow")
      else
        let restart_bytes_len := num_restarts * 4 in
        if len bytes <? restart_bytes_len + BLOCK_TRAILER_SIZE
        then Err (invalid_format_static "sstable data block" "restart array overflows block")
        else
          let records_end := len bytes - BLOCK_TRAILER_SIZE - restart_bytes_len in
          records ← slice_to bytes records_end;
          restart_bytes ← slice bytes records_end (len bytes - BLOCK_TRAILER_SIZE);
          Ok {| rd_records := records; rd_restart_bytes := restart_bytes |}.

Definition num_restarts (r : BlockReader) : Z := len (rd_restart_bytes r) / 4.

Definition restart_offset (r : BlockReader) (i : Z) : outcome Z :=
  b ← slice (rd_restart_bytes r) (i * 4) (i * 4 + 4);
  Ok (le_val b).

(** [decode_u32(..).ok()?]: a decoding error ends the iteration. *)
Definition decode_ok (input : bytes) : outcome (option (Z * Z)) :=
  match decode_u32 input with
  | Ok p => Ok (Some p)
  | Err _ => Ok None
  | Panic => Panic
  | OutOfFuel => OutOfFuel
  end.

(** The three varints in front of a record: the lengths and their total size. *)
Definition decode_lengths (rest : bytes) : outcome (option (Z * Z * Z * Z)) :=
  d1 ← decode_ok rest;
  match d1 with
  | None => Ok None
  | Some (shared, c1) =>
      rest1 ← slice_from rest c1;
      d2 ← decode_ok rest1;
      match d2 with
      | None => Ok None
      | Some (unshared, c2) =>
          rest2 ← slice_from rest (c1 + c2);
          d3 ← decode_ok rest2;
          match d3 with
          | None => Ok None
          | Some (value_len, c3) => Ok (Some (shared, unshared, value_len, c1 + c2 + c3))
          end
      end
  end.

Definition iter_next (it : BlockIter) : outcome (option (BlockRecord * BlockIter)) :=
  let records := bi_records it in
  if len records <=? bi_cursor it then Ok None
  else
    rest ← slice_from records (bi_cursor it);
    d ← decode_lengths rest;
    match d with
    | None => Ok None
    | Some (shared, unshared, value_len, pre) =>
        let header_total := pre + 8 + 1 in
        if len rest <? header_total then Ok None
        else
          seqno_bytes ← slice rest pre (pre + 8);
          op_byte ← index rest (pre + 8);
          match record_op_from_byte op_byte with
          | None => Ok None
          | Some op =>
              let key_start := bi_cursor it + header_total in
              let key_end := key_start + unshared in
              let val_end := key_end + value_len in
              if len records <? val_end then Ok None
              else
                key_suffix ← slice records key_start key_end;
                value ← slice records key_end val_end;
                let key := take (Z.to_nat shared) (bi_last_key it) ++ key_suffix in
                Ok (Some ({| br_key := key; br_value := value; br_seqno := le_val seqno_bytes;
                             br_op := op |},
                          {| bi_records := records; bi_cursor := val_end; bi_last_key := key |}))
          end
    end.

(** Every call that yields a record advances the cursor by at least 12 bytes:
    [len records + 1] calls reach the end of the block. *)
Definition iter_fuel (records : bytes) : nat := length records + 1.

(** Draining the iterator. *)
Fixpoint iter_collect (fuel : nat) (it : BlockIter) : outcome (list BlockRecord) :=
  match fuel with
  | O => OutOfFuel
  | S fuel =>
      n ← iter_next it;
      match n with
      | None => Ok []
      | Some (r, it) => rs ← iter_collect fuel it; Ok (r :: rs)
      end
  end.

(** [Iterator::find]. *)
Fixpoint iter_find (fuel : nat) (P : BlockRecord → bool) (it : BlockIter) :
    outcome (option BlockRecord) :=
  match fuel with
  | O => OutOfFuel
  | S fuel =>
      n ← iter_next it;
      match n with
      | None => Ok None
      | Some (r, it) =>
          if P r then Ok (Some r) else iter_find fuel P it
      end
  end.

Definition block_iter (r : BlockReader) : BlockIter :=
  {| bi_records := rd_records r; bi_cursor := 0; bi_last_key := [] |}.

Definition block_records (r : BlockReader) : outcome (list BlockRecord) :=
  iter_collect (iter_fuel (rd_records r)) (block_iter r).

(** The full key of the record at a restart; a decoding failure and a record
    that shares a prefix both give [None]. *)
Definition key_at_restart (records : bytes) (off : Z) : outcome (option bytes) :=
  if len records <=? off then Ok None
  else
    rest ← slice_from records off;
    d ← decode_lengths rest;
    match d with
    | None => Ok None
    | Some (shared, unshared, _, pre) =>
        if negb (shared =? 0) then Ok None
        else
          let key_start := pre + 8 + 1 in
          let key_end := key_start + unshared in
          if len rest <? key_end then Ok None
          else key ← slice rest key_start key_end; Ok (Some key)
    end.

(** The binary search of [seek]: the restart to scan from, or [None] when a
    restart record does not parse. *)
Fixpoint seek_loop (fuel : nat) (r : BlockReader) (target : bytes) (lo hi : Z) : outcome (option Z) :=
  match fuel with
  | O => OutOfFuel
  | S fuel =>
      if negb (lo + 1 <? hi) then Ok (Some lo)
      else
        let mid := lo + (hi - lo) / 2 in
        mid_off ← restart_offset r mid;
        k ← key_at_restart (rd_records r) mid_off;
        match k with
        | None => Ok None
        | Some k =>
            match bytes_cmp k target with
            | Lt => seek_loop fuel r target mid hi
            | Eq => seek_loop fuel r target mid (mid + 1)
            | Gt => seek_loop fuel r target lo mid
            end
        end
  end.

Definition block_seek (r : BlockReader) (target : bytes) : outcome (option BlockRecord) :=
  let n := num_restarts r in
  if n =? 0 then Ok None
  else
    found ← seek_loop (Z.to_nat n + 1) r target 0 n;
    match found with
    | None => Ok None
    | Some lo =>
        start_off ← restart_offset r lo;
        iter_find (iter_fuel (rd_records r)) (λ rec, bytes_leb target (br_key rec))
          {| bi_records := rd_records r; bi_cursor := start_off; bi_last_key := [] |}
    end.

(** * The reference layout *)

(** One record with [shared] bytes of its key taken from its predecessor. *)
Definition enc_record (shared : Z) (r : BlockRecord) : bytes :=
  varint shared ++ varint (len (br_key r) - shared) ++ varint (len (br_value r)) ++
  le_bytes 8 (br_seqno r) ++ [record_op_as_byte (br_op r)] ++
  drop (Z.to_nat shared) (br_key r) ++ br_value r.

(** The bytes shared with the previous key: none at a restart. *)
Definition shared_with (prev : bytes) (counter : Z) (r : BlockRecord) : Z :=
  if counter <? RESTART_INTERVAL then shared_prefix_len prev (br_key r) else 0.

Definition next_counter (counter : Z) : Z :=
  if counter <? RESTART_INTERVAL then counter + 1 else 1.

Fixpoint enc_records (prev : bytes) (counter : Z) (rs : list BlockRecord) : bytes :=
  match rs with
  | [] => []
  | r :: rs => enc_record (shared_with prev counter r) r
                 ++ enc_records (br_key r) (next_counter counter) rs
  end.

(** The offsets of the records stored with their full key. *)
Fixpoint restart_offsets (off : Z) (prev : bytes) (counter : Z) (rs : list BlockRecord) : list Z :=
  match rs with
  | [] => []
  | r :: rs =>
      let rest := restart_offsets (off + len (enc_record (shared_with prev counter r) r))
                    (br_key r) (next_counter counter) rs in
      if counter <? RESTART_INTERVAL then rest else off :: rest
  end.

(** What the format can hold: lengths in 32 bits, sequence numbers in 64. *)
Definition record_fits (r : BlockRecord) : Prop :=
  is_u32 (len (br_key r)) ∧ is_u32 (len (br_value r)) ∧ is_u64 (br_seqno r).

#[global] Instance record_fits_dec r : Decision (record_fits r).
Proof. unfold record_fits, is_u32, is_u64. apply _. Defined.

(** * Prefixes *)

Lemma shared_prefix_len_range a b :
  0 ≤ shared_prefix_len a b ∧ shared_prefix_len a b ≤ len a ∧ shared_prefix_len a b ≤ len b.
Proof.
  revert b. induction a as [|x a IH]; intros [|y b]; cbn [shared_prefix_len length]; try lia.
  specialize (IH b). case_bool; lia.
Qed.

Lemma shared_prefix_len_take a b :
  take (Z.to_nat (shared_prefix_len a b)) a = take (Z.to_nat (shared_prefix_len a b)) b.
Proof.
  revert b. induction a as [|x a IH]; intros [|y b]; cbn [shared_prefix_len]; try done.
  pose proof (shared_prefix_len_range a b). case_bool; [subst|done].
  rewrite Z2Nat.inj_add by lia. change (Z.to_nat 1) with 1%nat.
  cbn [Nat.add take]. f_equal. apply IH.
Qed.

Lemma shared_with_range prev counter r :
  0 ≤ shared_with prev counter r ≤ len (br_key r).
Proof.
  unfold shared_with. pose proof (shared_prefix_len_range prev (br_key r)). case_bool; lia.
Qed.

(** The previous key's prefix and the stored suffix give the key back. *)
Lemma shared_with_key prev counter r :
  take (Z.to_nat (shared_with prev counter r)) prev
    ++ drop (Z.to_nat (shared_with prev counter r)) (br_key r) = br_key r.
Proof.
  unfold shared_with. case_bool; [|done]. rewrite shared_prefix_len_take. apply take_drop.
Qed.

(** * Building *)

Lemma enc_record_builder b r :
  record_fits r →
  builder_add b (br_key r) (br_value r) (br_seqno r) (br_op r)
  = Ok {| bb_buffer := bb_buffer b ++ enc_record (shared_with (bb_last_key b) (bb_counter b) r) r;
          bb_restarts := bb_restarts b ++
            (if bb_counter b <? RESTART_INTERVAL then [] else [u32 (len (bb_buffer b))]);
          bb_last_key := br_key r; bb_counter := next_counter (bb_counter b) |}.
Proof.
  intros (Hk & Hv & Hs). unfold builder_add, next_counter.
  pose proof (shared_with_range (bb_last_key b) (bb_counter b) r) as Hsh.
  unfold shared_with, enc_record in *.
  assert (∀ sh, 0 ≤ sh ≤ len (br_key r) → usize_sub (len (br_key r)) sh = Ok (len (br_key r) - sh) ∧
    put_varint_u32 (u32 sh) = Ok (varint sh) ∧
    put_varint_u32 (u32 (len (br_key r) - sh)) = Ok (varint (len (br_key r) - sh)) ∧
    put_varint_u32 (u32 (len (br_value r))) = Ok (varint (len (br_value r))) ∧
    slice_from (br_key r) sh = Ok (drop (Z.to_nat sh) (br_key r))) as Hpieces.
  { intros sh Hsh'. unfold usize_sub, is_u32 in *. decide_bool.
    rewrite !u32_small by (unfold is_u32; lia).
    split_and!; [done|apply put_varint_u32_ok; unfold is_u32; lia..|apply slice_from_ok; lia]. }
  destruct (Hpieces _ Hsh) as (E1 & E2 & E3 & E4 & E5).
  destruct (bb_counter b <? RESTART_INTERVAL);
    rewrite E1; cbn [mbind outcome_bind]; rewrite E2; cbn [mbind outcome_bind]; rewrite E3;
    cbn [mbind outcome_bind]; rewrite E4; cbn [mbind outcome_bind]; rewrite E5;
    cbn [mbind outcome_bind]; by rewrite ?app_nil_r.
Qed.

Lemma builder_add_all_ok b rs :
  Forall record_fits rs → 
  len (bb_buffer b) + len (enc_records (bb_last_key b) (bb_counter b) rs) < 2 ^ 32 →
  ∃ b', builder_add_all b rs = Ok b' ∧
    bb_buffer b' = bb_buffer b ++ enc_records (bb_last_key b) (bb_counter b) rs ∧
    bb_restarts b' = bb_restarts b ++
      restart_offsets (len (bb_buffer b)) (bb_last_key b) (bb_counter b) rs.
Proof.
  intros Hrs. revert b. induction Hrs as [|r rs Hr _ IH]; intros b Hlen; cbn [builder_add_all].
  { exists b. cbn. by rewrite !app_nil_r. }
  rewrite enc_record_builder by done. cbn [mbind outcome_bind].
  cbn [enc_records restart_offsets] in *. rewrite length_app in Hlen.
  destruct (IH {| bb_buffer := bb_buffer b ++ enc_record (shared_with (bb_last_key b) (bb_counter b) r) r;
    bb_restarts := bb_restarts b ++
            (if bb_counter b <? RESTART_INTERVAL then [] else [u32 (len (bb_buffer b))]);
    bb_last_key := br_key r; bb_counter := next_counter (bb_counter b) |}) as (b' & -> & Hbuf & Hres);
    cbn [bb_buffer bb_restarts bb_last_key bb_counter] in *; [rewrite length_app; lia|].
  exists b'. split_and!; [done|by rewrite Hbuf, app_assoc|].
  rewrite Hres, length_app, Nat2Z.inj_add, <-app_assoc. f_equal.
  unfold u32. rewrite Z.mod_small by lia. by destruct (_ <? _).
Qed.

(** * Reading one record *)

Lemma decode_ok_varint v tail : is_u32 v → decode_ok (varint v ++ tail) = Ok (Some (v, len (varint v))).
Proof. intros Hv. unfold decode_ok. by rewrite decode_u32_varint. Qed.

Lemma decode_lengths_varints a b c tail :
  is_u32 a → is_u32 b → is_u32 c →
  decode_lengths (varint a ++ varint b ++ varint c ++ tail)
  = Ok (Some (a, b, c, len (varint a) + len (varint b) + len (varint c))).
Proof.
  intros Ha Hb Hc. unfold decode_lengths. rewrite decode_ok_varint by done. cbn [mbind outcome_bind].
  rewrite slice_from_app by done. cbn [mbind outcome_bind].
  rewrite decode_ok_varint by done. cbn [mbind outcome_bind].
  rewrite (app_assoc (varint a)), slice_from_app by len_lia. cbn [mbind outcome_bind].
  rewrite decode_ok_varint by done. done.
Qed.

(** The part of a record in front of its key suffix. *)
Definition enc_head (shared : Z) (r : BlockRecord) : bytes :=
  varint shared ++ varint (len (br_key r) - shared) ++ varint (len (br_value r)) ++
  le_bytes 8 (br_seqno r) ++ [record_op_as_byte (br_op r)].

Lemma enc_record_head shared r :
  enc_record shared r = enc_head shared r ++ drop (Z.to_nat shared) (br_key r) ++ br_value r.
Proof. unfold enc_record, enc_head. by rewrite <-!app_assoc. Qed.

Lemma len_enc_record shared r : 12 ≤ len (enc_record shared r).
Proof.
  unfold enc_record. len_simpl. pose proof (len_varint shared).
  pose proof (len_varint (len (br_key r) - shared)). pose proof (len_varint (len (br_value r))). lia.
Qed.

(** The pieces of an encoded record, where the reader looks for them. *)
Lemma enc_record_pieces shared r post :
  record_fits r → 0 ≤ shared ≤ len (br_key r) →
  let n := len (enc_head shared r) - 9 in
  decode_lengths (enc_record shared r ++ post)
    = Ok (Some (shared, len (br_key r) - shared, len (br_value r), n)) ∧
  slice (enc_record shared r ++ post) n (n + 8) = Ok (le_bytes 8 (br_seqno r)) ∧
  index (enc_record shared r ++ post) (n + 8) = Ok (record_op_as_byte (br_op r)).
Proof.
  intros (Hk & Hv & Hs) Hsh. unfold is_u32 in *.
  assert (len (enc_head shared r) - 9 = len (varint shared) + len (varint (len (br_key r) - shared))
    + len (varint (len (br_value r)))) as -> by (unfold enc_head; len_simpl; lia).
  unfold enc_record. rewrite <-!app_assoc. cbn zeta. split_and!.
  - apply decode_lengths_varints; unfold is_u32; lia.
  - rewrite 2!app_assoc. apply slice_app_mid; len_lia.
  - rewrite 3!app_assoc. rewrite (app_assoc _ [_]). apply index_app_last. len_lia.
Qed.

Lemma iter_next_enc pre shared r post last_key :
  record_fits r → 0 ≤ shared ≤ len (br_key r) →
  iter_next {| bi_records := pre ++ enc_record shared r ++ post; bi_cursor := len pre;
               bi_last_key := last_key |}
  = let key := take (Z.to_nat shared) last_key ++ drop (Z.to_nat shared) (br_key r) in
    Ok (Some ({| br_key := key; br_value := br_value r; br_seqno := br_seqno r; br_op := br_op r |},
              {| bi_records := pre ++ enc_record shared r ++ post;
                 bi_cursor := len pre + len (enc_record shared r); bi_last_key := key |})).
Proof.
  intros Hr Hsh. unfold iter_next. cbn [bi_records bi_cursor bi_last_key].
  pose proof (len_enc_record shared r). pose proof Hr as (Hk & Hv & Hs).
  destruct (enc_record_pieces shared r post Hr Hsh) as (Hdl & Hseq & Hop).
  rewrite (proj2 (Z.leb_gt _ _)) by (rewrite !length_app; lia).
  rewrite slice_from_app by done. cbn [mbind outcome_bind]. rewrite Hdl. cbn [mbind outcome_bind].
  set (suffix := drop (Z.to_nat shared) (br_key r)) in *.
  assert (Hsuf : len suffix = len (br_key r) - shared) by (unfold suffix; len_lia).
  assert (Hrec : len (enc_record shared r) = len (enc_head shared r) + len suffix + len (br_value r))
    by (rewrite enc_record_head; fold suffix; len_lia).
  rewrite (proj2 (Z.ltb_ge _ _)) by (rewrite length_app; lia).
  rewrite Hseq. cbn [mbind outcome_bind]. rewrite Hop. cbn [mbind outcome_bind].
  rewrite record_op_from_as. rewrite (proj2 (Z.ltb_ge _ _)) by (rewrite !length_app; lia).
  rewrite (slice_mid (pre ++ enc_head shared r) suffix (br_value r ++ post) _
    (len pre + (len (enc_head shared r) - 9 + 8 + 1))).
  2: { rewrite enc_record_head. fold suffix. by rewrite <-!app_assoc. }
  2-3: rewrite ?length_app; lia.
  cbn [mbind outcome_bind]. rewrite (slice_mid ((pre ++ enc_head shared r) ++ suffix) (br_value r) post).
  2: { rewrite enc_record_head. fold suffix. by rewrite <-!app_assoc. }
  2-3: rewrite ?length_app; lia.
  cbn [mbind outcome_bind]. rewrite le_val_bytes by (by apply Hs).
  replace (len pre + _ + _ + _) with (len pre + len (enc_record shared r)) by lia. done.
Qed.

(** * Iterating *)

(** An iterator in front of the encoding of [rs]. *)
Definition iter_at (it : BlockIter) (prev : bytes) (counter : Z) (rs : list BlockRecord) : Prop :=
  ∃ pre, bi_records it = pre ++ enc_records prev counter rs ∧ bi_cursor it = len pre ∧
    (bi_last_key it = prev ∨ RESTART_INTERVAL ≤ counter).

Lemma iter_next_cons it prev counter r rs :
  iter_at it prev counter (r :: rs) → record_fits r →
  ∃ it', iter_next it = Ok (Some (r, it')) ∧ iter_at it' (br_key r) (next_counter counter) rs ∧
    bi_records it' = bi_records it.
Proof.
  intros (pre & Hrec & Hcur & Hlk) Hr. destruct it as [records cursor lk].
  cbn [bi_records bi_cursor bi_last_key enc_records] in *. subst. rewrite iter_next_enc by (done || apply shared_with_range). cbn zeta.
  assert (take (Z.to_nat (shared_with prev counter r)) lk
          ++ drop (Z.to_nat (shared_with prev counter r)) (br_key r) = br_key r) as E.
  { destruct Hlk as [->|Hc]; [apply shared_with_key|].
    unfold shared_with. rewrite (proj2 (Z.ltb_ge _ _)) by done. done. }
  rewrite E. eexists. split; [by destruct r|]. split; [|done].
  exists (pre ++ enc_record (shared_with prev counter r) r).
  cbn [bi_records bi_cursor bi_last_key].
  split_and!; [by rewrite app_assoc|len_lia|by left].
Qed.

Lemma iter_next_nil it prev counter : iter_at it prev counter [] → iter_next it = Ok None.
Proof.
  intros (pre & Hrec & Hcur & _). unfold iter_next. rewrite Hrec, Hcur. cbn [enc_records].
  by rewrite app_nil_r, (proj2 (Z.leb_le _ _)) by lia.
Qed.

Lemma iter_collect_enc it prev counter rs fuel :
  iter_at it prev counter rs → Forall record_fits rs → (length rs < fuel)%nat →
  iter_collect fuel it = Ok rs.
Proof.
  intros Hit Hrs. revert it prev counter fuel Hit.
  induction Hrs as [|r rs Hr _ IH]; intros it prev counter fuel Hit Hfuel;
    (destruct fuel as [|fuel]; [lia|]); cbn [iter_collect].
  - by rewrite (iter_next_nil _ _ _ Hit).
  - destruct (iter_next_cons _ _ _ _ _ Hit Hr) as (it' & -> & Hit' & _). cbn [mbind outcome_bind].
    rewrite (IH _ _ _ _ Hit') by (cbn in Hfuel; lia). done.
Qed.

Lemma iter_find_enc it prev counter rs fuel P :
  iter_at it prev counter rs → Forall record_fits rs → (length rs < fuel)%nat →
  iter_find fuel P it = Ok (List.find P rs).
Proof.
  intros Hit Hrs. revert it prev counter fuel Hit.
  induction Hrs as [|r rs Hr _ IH]; intros it prev counter fuel Hit Hfuel;
    (destruct fuel as [|fuel]; [lia|]); cbn [iter_find List.find].
  - by rewrite (iter_next_nil _ _ _ Hit).
  - destruct (iter_next_cons _ _ _ _ _ Hit Hr) as (it' & -> & Hit' & _). cbn [mbind outcome_bind].
    destruct (P r); [done|].
    by rewrite (IH _ _ _ _ Hit') by (cbn in Hfuel; lia).
Qed.

Lemma length_enc_records prev counter rs : (length rs ≤ length (enc_records prev counter rs))%nat.
Proof.
  revert prev counter. induction rs as [|r rs IH]; intros prev counter; cbn [enc_records length]; [lia|].
  rewrite length_app. pose proof (len_enc_record (shared_with prev counter r) r).
  specialize (IH (br_key r) (next_counter counter)). lia.
Qed.

(** * Opening a finished block *)

(** The reader holds the encoding of [rs]. *)
Definition block_of (rs : list BlockRecord) (r : BlockReader) : Prop :=
  rd_records r = enc_records [] RESTART_INTERVAL rs ∧
  rd_restart_bytes r = concat (le_bytes 4 <$> restart_offsets 0 [] RESTART_INTERVAL rs).

Lemma block_iter_at rs r :
  block_of rs r → iter_at (block_iter r) [] RESTART_INTERVAL rs ∧ (length rs < iter_fuel (rd_records r))%nat.
Proof.
  intros [Hrec _]. split.
  - exists []. cbn. split_and!; [done|done|by left].
  - unfold iter_fuel. rewrite Hrec. pose proof (length_enc_records [] RESTART_INTERVAL rs). lia.
Qed.

Lemma block_records_of rs r : block_of rs r → Forall record_fits rs → block_records r = Ok rs.
Proof. intros [Hit Hl]%block_iter_at Hrs. by apply (iter_collect_enc _ [] RESTART_INTERVAL). Qed.

Lemma block_find_of rs r P :
  block_of rs r → Forall record_fits rs →
  iter_find (iter_fuel (rd_records r)) P (block_iter r) = Ok (List.find P rs).
Proof. intros [Hit Hl]%block_iter_at Hrs. by apply (iter_find_enc _ [] RESTART_INTERVAL). Qed.

Lemma length_concat_le4 l : length (concat (le_bytes 4 <$> l)) = (4 * length l)%nat.
Proof. induction l as [|x l IH]; [done|]. rewrite fmap_cons. cbn [concat]. len_simpl. lia. Qed.

Lemma length_restart_offsets off prev counter rs :
  (length (restart_offsets off prev counter rs) ≤ length rs)%nat.
Proof.
  revert off prev counter. induction rs as [|r rs IH]; intros off prev counter;
    cbn [restart_offsets length]; [lia|].
  specialize (IH (off + len (enc_record (shared_with prev counter r) r)) (br_key r) (next_counter counter)).
  case_bool; cbn [length]; lia.
Qed.

Section BlockCrc.
Context `{Crc32cLaws}.

Lemma block_open_parts records offs :
  is_u32 (len offs) →
  let body := records ++ concat (le_bytes 4 <$> offs) ++ le_bytes 4 (len offs) in
  block_open (body ++ le_bytes 4 (crc_hash body))
  = Ok {| rd_records := records; rd_restart_bytes := concat (le_bytes 4 <$> offs) |}.
Proof.
  intros Hn body. pose proof (crc_hash_u32 body) as Hcrc.
  set (arr := concat (le_bytes 4 <$> offs)) in *.
  assert (length arr = (4 * length offs)%nat) as Harr by apply length_concat_le4.
  assert (length body = (length records + length arr + 4)%nat) as Hbody by (unfold body; len_simpl; lia).
  unfold block_open. set (all := body ++ le_bytes 4 (crc_hash body)).
  assert (len all = len body + 4) as Hall by (unfold all; len_simpl; lia).
  assert (slice_from all (len all - 4) = Ok (le_bytes 4 (crc_hash body))) as E1
    by (rewrite Hall; apply slice_from_app; lia).
  assert (slice_to all (len all - 4) = Ok body) as E2
    by (rewrite Hall; apply slice_to_app; lia).
  assert (slice all (len all - 8) (len all - 4) = Ok (le_bytes 4 (len offs))) as E3.
  { apply (slice_mid (records ++ arr) _ (le_bytes 4 (crc_hash body))).
    - unfold all, body. by rewrite <-!app_assoc.
    - rewrite length_app. lia.
    - rewrite length_le_bytes. lia. }
  assert (slice_to all (len records) = Ok records) as E4
    by (unfold all, body; rewrite <-!app_assoc; by apply slice_to_app).
  assert (slice all (len records) (len all - 8) = Ok arr) as E5.
  { apply (slice_mid records _ (le_bytes 4 (len offs) ++ le_bytes 4 (crc_hash body))).
    - unfold all, body. by rewrite <-!app_assoc.
    - done.
    - lia. }
  unfold BLOCK_TRAILER_SIZE. rewrite (proj2 (Z.ltb_ge _ _)) by lia.
  rewrite E1, E2. cbn [mbind outcome_bind]. rewrite le_val_bytes, Z.eqb_refl by done. cbn [negb].
  rewrite E3. cbn [mbind outcome_bind]. rewrite le_val_bytes by done. unfold is_u32 in Hn.
  rewrite (proj2 (Z.ltb_lt _ _)) by lia. cbn [negb]. rewrite (proj2 (Z.ltb_ge _ _)) by lia.
  replace (len all - 8 - len offs * 4) with (len records) by lia.
  rewrite E4. cbn [mbind outcome_bind]. by rewrite E5.
Qed.

(** Building a block from a run of records and opening it. *)
Lemma build_open rs :
  Forall record_fits rs → len (enc_records [] RESTART_INTERVAL rs) < 2 ^ 32 →
  ∃ b bytes r, builder_add_all builder_new rs = Ok b ∧ builder_finish b = Ok (bytes, builder_new) ∧
    block_open bytes = Ok r ∧ block_of rs r.
Proof.
  intros Hrs Hlen. destruct (builder_add_all_ok builder_new rs Hrs) as (b & Hadd & Hbuf & Hres);
    [cbn; lia|]. cbn [builder_new bb_buffer bb_restarts bb_last_key bb_counter app length] in *.
  pose proof (length_restart_offsets 0 [] RESTART_INTERVAL rs).
  pose proof (length_enc_records [] RESTART_INTERVAL rs).
  assert (is_u32 (len (bb_restarts b))) as Hn.
  { rewrite Hres. unfold is_u32. change (Z.of_nat 0) with 0. lia. }
  exists b. unfold builder_finish. rewrite try_u32_ok by done. cbn [expect mbind outcome_bind].
  eexists _, _. split; [done|]. split; [done|]. rewrite <-!app_assoc.
  rewrite (app_assoc (bb_buffer b)), (app_assoc (_ ++ concat _)).
  rewrite <-(app_assoc (bb_buffer b) _ (le_bytes 4 _)).
  split; [by apply block_open_parts|]. split; cbn; by rewrite ?Hbuf, ?Hres.
Qed.
End BlockCrc.

(** * Seeking *)

Lemma restart_split off prev counter rs j o :
  0 < counter ≤ RESTART_INTERVAL →
  restart_offsets off prev counter rs !! j = Some o →
  ∃ rs1 r rs2, rs = rs1 ++ r :: rs2 ∧ o = off + len (enc_records prev counter rs1) ∧
    enc_records prev counter rs
      = enc_records prev counter rs1 ++ enc_records [] RESTART_INTERVAL (r :: rs2) ∧
    (len rs1 + counter) mod RESTART_INTERVAL = 0 ∧
    (j = 0%nat → counter = RESTART_INTERVAL → rs1 = []).
Proof.
  revert off prev counter j. induction rs as [|r rs IH]; intros off prev counter j Hc; [done|].
  cbn [restart_offsets]. destruct (Z.ltb_spec counter RESTART_INTERVAL) as [Hlt|Hge].
  - intros Hj. apply IH in Hj as (rs1 & r0 & rs2 & -> & -> & E & Hm & _);
      [|unfold next_counter, RESTART_INTERVAL in *; case_bool; lia].
    exists (r :: rs1), r0, rs2. cbn [enc_records app].
    split_and!; [done|len_lia|by rewrite E, app_assoc| |lia].
    unfold next_counter in Hm. rewrite (proj2 (Z.ltb_lt _ _)) in Hm by done.
    cbn [length]. replace (Z.of_nat (S (length rs1)) + counter) with (len rs1 + (counter + 1)) by lia. done.
  - assert (counter = RESTART_INTERVAL) as -> by lia. destruct j as [|j]; cbn [lookup list_lookup].
    + intros [= <-]. exists [], r, rs. cbn [enc_records app length].
      split_and!; [done|lia|by unfold shared_with|done|done].
    + intros Hj. apply IH in Hj as (rs1 & r0 & rs2 & -> & -> & E & Hm & _); [|done].
      exists (r :: rs1), r0, rs2. cbn [enc_records app].
      split_and!; [done|len_lia|by rewrite E, app_assoc| |lia].
      cbn [length]. change (next_counter RESTART_INTERVAL) with 1 in Hm.
      replace (Z.of_nat (S (length rs1)) + RESTART_INTERVAL)
        with ((len rs1 + 1) + 1 * RESTART_INTERVAL) by lia.
      rewrite Z.mod_add by done. done.
Qed.

Lemma key_at_restart_enc pre r post :
  record_fits r → key_at_restart (pre ++ enc_record 0 r ++ post) (len pre) = Ok (Some (br_key r)).
Proof.
  intros Hr. unfold key_at_restart. pose proof (len_enc_record 0 r).
  destruct (enc_record_pieces 0 r post Hr ltac:(lia)) as (Hdl & _ & _).
  rewrite (proj2 (Z.leb_gt _ _)) by (rewrite !length_app; lia).
  rewrite slice_from_app by done. cbn [mbind outcome_bind]. rewrite Hdl. cbn [mbind outcome_bind Z.eqb negb].
  assert (enc_record 0 r = enc_head 0 r ++ br_key r ++ br_value r) as E by apply (enc_record_head 0 r).
  rewrite (proj2 (Z.ltb_ge _ _)) by (rewrite E, !length_app; lia).
  rewrite (slice_mid (enc_head 0 r) (br_key r) (br_value r ++ post)); [done| |lia|lia].
  by rewrite E, <-!app_assoc.
Qed.

Lemma restart_offset_lookup r offs j o :
  rd_restart_bytes r = concat (le_bytes 4 <$> offs) → offs !! j = Some o → is_u32 o →
  restart_offset r (Z.of_nat j) = Ok o.
Proof.
  intros Hb Hj Ho. unfold restart_offset. apply take_drop_middle in Hj as E.
  apply lookup_lt_Some in Hj.
  rewrite (slice_mid (concat (le_bytes 4 <$> take j offs)) (le_bytes 4 o)
    (concat (le_bytes 4 <$> drop (S j) offs))); cbn [mbind outcome_bind].
  - by rewrite le_val_bytes.
  - rewrite Hb, <-E at 1. by rewrite fmap_app, concat_app.
  - rewrite length_concat_le4. len_simpl. lia.
  - len_simpl. lia.
Qed.

Definition key_le (a b : BlockRecord) : Prop := bytes_leb (br_key a) (br_key b) = true.

(** No restart record repeats a key that an earlier record has. *)
Definition restart_fresh (target : bytes) (rs : list BlockRecord) : Prop :=
  ∀ rs1 r rs2, rs = rs1 ++ r :: rs2 → len rs1 mod RESTART_INTERVAL = 0 → br_key r = target →
    Forall (λ x, br_key x ≠ target) rs1.

(** Restart [lo] is a place to scan from: everything before it is too small. *)
Definition scan_from (rs : list BlockRecord) (target : bytes) (lo : Z) : Prop :=
  ∃ rs1 r rs2 o, rs = rs1 ++ r :: rs2 ∧
    restart_offsets 0 [] RESTART_INTERVAL rs !! Z.to_nat lo = Some o ∧
    o = len (enc_records [] RESTART_INTERVAL rs1) ∧
    enc_records [] RESTART_INTERVAL rs
      = enc_records [] RESTART_INTERVAL rs1 ++ enc_records [] RESTART_INTERVAL (r :: rs2) ∧
    Forall (λ x, bytes_cmp (br_key x) target = Lt) rs1.

Lemma bytes_leb_lt_trans a b c :
  bytes_leb a b = true → bytes_cmp b c = Lt → bytes_cmp a c = Lt.
Proof.
  unfold bytes_leb. destruct (bytes_cmp a b) eqn:E; try done; intros _.
  - by apply bytes_cmp_eq in E as ->.
  - by apply bytes_cmp_lt_trans.
Qed.

Lemma sorted_before rs1 r rs2 :
  StronglySorted key_le (rs1 ++ r :: rs2) → Forall (λ x, key_le x r) rs1.
Proof.
  intros Hs. apply Forall_forall. intros x Hx.
  apply (StronglySorted_app_1_elem_of key_le rs1 (r :: rs2)); [done|done|left].
Qed.

Section Seek.
Context (rs : list BlockRecord) (r : BlockReader) (target : bytes).
Context (Hof : block_of rs r) (Hfits : Forall record_fits rs)
  (Hsize : len (enc_records [] RESTART_INTERVAL rs) < 2 ^ 32)
  (Hsorted : StronglySorted key_le rs) (Hfresh : restart_fresh target rs).

Let offs := restart_offsets 0 [] RESTART_INTERVAL rs.

Lemma restart_at (mid : Z) :
  0 ≤ mid < len offs →
  ∃ rs1 x rs2 o, rs = rs1 ++ x :: rs2 ∧ offs !! Z.to_nat mid = Some o ∧
    o = len (enc_records [] RESTART_INTERVAL rs1) ∧
    enc_records [] RESTART_INTERVAL rs
      = enc_records [] RESTART_INTERVAL rs1 ++ enc_records [] RESTART_INTERVAL (x :: rs2) ∧
    restart_offset r mid = Ok o ∧ key_at_restart (rd_records r) o = Ok (Some (br_key x)) ∧
    len rs1 mod RESTART_INTERVAL = 0 ∧ (mid = 0 → rs1 = []).
Proof.
  intros Hmid. destruct (lookup_lt_is_Some_2 offs (Z.to_nat mid)) as [o Ho]; [lia|].
  destruct (restart_split 0 [] RESTART_INTERVAL rs (Z.to_nat mid) o ltac:(done) Ho) as (rs1 & x & rs2 & Ers & Eo & Eenc & Hm & H0).
  rewrite Z.add_0_l in Eo. destruct Hof as [Hrec Hres].
  exists rs1, x, rs2, o. split_and!; try done.
  - rewrite <-(Z2Nat.id mid) by lia. apply (restart_offset_lookup r offs); [done|done|].
    rewrite Eenc, length_app in Hsize. unfold is_u32. lia.
  - rewrite Hrec, Eenc, Eo. cbn [enc_records].
    change (shared_with [] RESTART_INTERVAL x) with 0. apply key_at_restart_enc.
    rewrite Ers in Hfits. apply Forall_app in Hfits as [_ Hx]. by apply Forall_cons_1 in Hx as [? _].
  - rewrite <-(Z.mod_add _ 1 RESTART_INTERVAL) by done. by rewrite Z.mul_1_l.
  - intros ->. by apply H0.
Qed.

Lemma seek_loop_spec fuel lo hi :
  0 ≤ lo < hi → hi ≤ len offs → scan_from rs target lo → (Z.to_nat (hi - lo) < fuel)%nat →
  ∃ lo', seek_loop fuel r target lo hi = Ok (Some lo') ∧ 0 ≤ lo' < len offs ∧ scan_from rs target lo'.
Proof.
  revert lo hi. induction fuel as [|fuel IH]; intros lo hi Hlo Hhi Hscan Hfuel; [lia|].
  cbn [seek_loop]. destruct (Z.ltb_spec (lo + 1) hi) as [Hlt|Hge]; cbn [negb].
  2: { exists lo. split_and!; [done|lia..|done]. }
  set (mid := lo + (hi - lo) / 2).
  assert (lo < mid < hi) as Hmid.
  { unfold mid. pose proof (Z.div_mod (hi - lo) 2). pose proof (Z.mod_pos_bound (hi - lo) 2). lia. }
  destruct (restart_at mid ltac:(lia)) as (rs1 & x & rs2 & o & Ers & Ho & Eo & Eenc & -> & Hkey & Hm & _).
  cbn [mbind outcome_bind]. rewrite Hkey. cbn [mbind outcome_bind]. pose proof Hsorted as Hs. rewrite Ers in Hs. apply sorted_before in Hs.
  destruct (bytes_cmp (br_key x) target) eqn:Ecmp.
  - apply (IH mid (mid + 1)); try lia. exists rs1, x, rs2, o. split_and!; try done.
    apply bytes_cmp_eq in Ecmp. pose proof (Hfresh _ _ _ Ers Hm Ecmp) as Hne.
    apply Forall_forall. intros y Hy. rewrite Forall_forall in Hs, Hne.
    specialize (Hs y Hy). specialize (Hne y Hy). unfold key_le, bytes_leb in Hs. rewrite Ecmp in Hs.
    destruct (bytes_cmp (br_key y) target) eqn:E; try done. by apply bytes_cmp_eq in E.
  - apply (IH mid hi); try lia. exists rs1, x, rs2, o. split_and!; try done.
    eapply Forall_impl; [exact Hs|]. intros y Hy. exact (bytes_leb_lt_trans _ _ _ Hy Ecmp).
  - apply (IH lo mid); try lia. done.
Qed.

Lemma find_skip rs1 rest :
  Forall (λ x, bytes_cmp (br_key x) target = Lt) rs1 →
  List.find (λ x, bytes_leb target (br_key x)) (rs1 ++ rest)
  = List.find (λ x, bytes_leb target (br_key x)) rest.
Proof.
  induction 1 as [|x rs1 Hx _ IH]; [done|]. cbn [app List.find].
  unfold bytes_leb at 1. rewrite bytes_cmp_antisym, Hx. exact IH.
Qed.

Lemma block_seek_find :
  block_seek r target = Ok (List.find (λ x, bytes_leb target (br_key x)) rs).
Proof.
  destruct Hof as [Hrec Hres]. unfold block_seek, num_restarts.
  rewrite Hres, length_concat_le4. fold offs.
  replace (Z.of_nat (4 * length offs) / 4) with (len offs)
    by (rewrite Nat2Z.inj_mul, Z.mul_comm, Z.div_mul; lia).
  destruct (decide (rs = [])) as [E|Hne].
  { unfold offs. rewrite E. done. }
  assert (0 < len offs) as Hn.
  { unfold offs. destruct rs as [|x l]; [done|]. cbn. lia. }
  rewrite (proj2 (Z.eqb_neq _ _)) by lia.
  assert (scan_from rs target 0) as Hscan.
  { destruct (restart_at 0 ltac:(lia)) as (rs1 & x & rs2 & o & Ers & Ho & Eo & Eenc & _ & _ & _ & H0).
    rewrite (H0 eq_refl) in *. exists [], x, rs2, o. by split_and!. }
  destruct (seek_loop_spec (Z.to_nat (len offs) + 1) 0 (len offs)) as (lo & -> & Hlo & Hscan');
    [lia|lia|done|lia|]. cbn [mbind outcome_bind].
  destruct Hscan' as (rs1 & x & rs2 & o & Ers & Ho & Eo & Eenc & Hlt).
  destruct (restart_at lo Hlo) as (_ & _ & _ & o' & _ & Ho' & _ & _ & -> & _).
  fold offs in Ho. rewrite Ho in Ho'. injection Ho' as <-. cbn [mbind outcome_bind].
  rewrite (iter_find_enc _ [] RESTART_INTERVAL (x :: rs2)).
  - f_equal. by rewrite Ers, find_skip.
  - exists (enc_records [] RESTART_INTERVAL rs1). cbn [bi_records bi_cursor bi_last_key].
    split_and!; [by rewrite Hrec, Eenc|done|by left].
  - rewrite Ers in Hfits. by apply Forall_app in Hfits as [_ ?].
  - unfold iter_fuel. rewrite Hrec. pose proof (length_enc_records [] RESTART_INTERVAL rs) as Hl.
    rewrite Ers in Hl at 1. len_simpl. lia.
Qed.
End Seek.

(** Whatever the order of the records, a seek lands on one of them, not below
    the target. *)
Section SeekSound.
Context (rs : list BlockRecord) (r : BlockReader) (target : bytes).
Context (Hof : block_of rs r) (Hfits : Forall record_fits rs)
  (Hsize : len (enc_records [] RESTART_INTERVAL rs) < 2 ^ 32).

Let offs := restart_offsets 0 [] RESTART_INTERVAL rs.

Lemma seek_loop_in fuel lo hi :
  0 ≤ lo < hi → hi ≤ len offs → (Z.to_nat (hi - lo) < fuel)%nat →
  ∃ lo', seek_loop fuel r target lo hi = Ok (Some lo') ∧ 0 ≤ lo' < len offs.
Proof.
  revert lo hi. induction fuel as [|fuel IH]; intros lo hi Hlo Hhi Hfuel; [lia|].
  cbn [seek_loop]. destruct (Z.ltb_spec (lo + 1) hi) as [Hlt|Hge]; cbn [negb].
  2: { exists lo. split; [done|lia]. }
  assert (lo < lo + (hi - lo) / 2 < hi) as Hmid.
  { pose proof (Z.div_lt_upper_bound (hi - lo) 2 (hi - lo) ltac:(lia) ltac:(lia)).
    pose proof (Z.div_le_lower_bound (hi - lo) 2 1 ltac:(lia) ltac:(lia)). lia. }
  destruct (restart_at rs r Hof Hfits Hsize (lo + (hi - lo) / 2))
    as (_ & x & _ & o & _ & _ & _ & _ & -> & Hk & _); [fold offs; lia|].
  cbn [mbind outcome_bind]. rewrite Hk. cbn [mbind outcome_bind].
  destruct (bytes_cmp (br_key x) target); apply IH; lia.
Qed.

Lemma block_seek_sound :
  ∃ res, block_seek r target = Ok res ∧
    ∀ x, res = Some x → x ∈ rs ∧ bytes_leb target (br_key x) = true.
Proof.
  unfold block_seek, num_restarts. destruct Hof as [Hrec Hres]. rewrite Hres, length_concat_le4.
  fold offs. replace (Z.of_nat (4 * length offs) / 4) with (len offs)
    by (rewrite Nat2Z.inj_mul, Z.mul_comm, Z.div_mul; lia).
  destruct (Z.eqb_spec (len offs) 0); [by exists None|].
  destruct (seek_loop_in (Z.to_nat (len offs) + 1) 0 (len offs)) as (lo & -> & Hlo); [lia..|].
  cbn [mbind outcome_bind].
  destruct (restart_at rs r Hof Hfits Hsize lo Hlo) as (rs1 & x & rs2 & o & Ers & _ & Eo & Eenc & -> & _).
  cbn [mbind outcome_bind]. rewrite (iter_find_enc _ [] RESTART_INTERVAL (x :: rs2)).
  - eexists. split; [done|]. intros y Hy. apply find_some in Hy as [Hin Hle]. split; [|done].
    rewrite Ers. apply elem_of_app. right. by apply list_elem_of_In.
  - exists (enc_records [] RESTART_INTERVAL rs1). cbn [bi_records bi_cursor bi_last_key].
    split_and!; [by rewrite Hrec, Eenc|done|by left].
  - rewrite Ers in Hfits. by apply Forall_app in Hfits as [_ ?].
  - unfold iter_fuel. rewrite Hrec. pose proof (length_enc_records [] RESTART_INTERVAL rs) as Hl.
    rewrite Ers in Hl at 1. len_simpl. lia.
Qed.
End SeekSound.

(** * Arbitrary bytes *)

Lemma decode_ok_sound input :
  bytes_ok input →
  decode_ok input = Ok None ∨
  ∃ v n, decode_ok input = Ok (Some (v, n)) ∧ is_u32 v ∧ 1 ≤ n ≤ len input.
Proof.
  intros Hok. unfold decode_ok. pose proof (decode_u32_returns input) as Hret.
  destruct (decode_u32 input) as [[v n]| | |] eqn:E; try done; [right|by left].
  apply decode_u32_sound in E as (? & ? & ?); [|done]. exists v, n. auto with lia.
Qed.

Lemma decode_lengths_sound rest :
  bytes_ok rest →
  decode_lengths rest = Ok None ∨
  ∃ s u v n, decode_lengths rest = Ok (Some (s, u, v, n)) ∧
    is_u32 s ∧ is_u32 u ∧ is_u32 v ∧ 3 ≤ n ≤ len rest.
Proof.
  intros Hok. unfold decode_lengths.
  destruct (decode_ok_sound rest Hok) as [->|(s & c1 & -> & Hs & Hc1)]; cbn [mbind outcome_bind]; [by left|].
  rewrite slice_from_ok by lia. cbn [mbind outcome_bind].
  destruct (decode_ok_sound (drop (Z.to_nat c1) rest)) as [->|(u & c2 & -> & Hu & Hc2)];
    cbn [mbind outcome_bind]; [by apply Forall_drop|by left|]. len_simpl.
  rewrite slice_from_ok by lia. cbn [mbind outcome_bind].
  destruct (decode_ok_sound (drop (Z.to_nat (c1 + c2)) rest)) as [->|(v & c3 & -> & Hv & Hc3)];
    cbn [mbind outcome_bind]; [by apply Forall_drop|by left|]. len_simpl.
  right. eexists _, _, _, _. split; [done|]. split_and!; (done || lia).
Qed.

(** The iterator on any records: it yields nothing, or a record and a cursor
    further on, inside the block. *)
Lemma iter_next_total it :
  bytes_ok (bi_records it) → 0 ≤ bi_cursor it →
  iter_next it = Ok None ∨
  ∃ r it', iter_next it = Ok (Some (r, it')) ∧ bi_records it' = bi_records it ∧
    bi_cursor it < bi_cursor it' ≤ len (bi_records it).
Proof.
  intros Hok Hcur. unfold iter_next. case_bool; [by left|]. rewrite slice_from_ok by lia.
  cbn [mbind outcome_bind]. set (rest := drop _ _).
  assert (bytes_ok rest) as Hrest by (by apply Forall_drop).
  assert (len rest = len (bi_records it) - bi_cursor it) by (unfold rest; len_lia).
  destruct (decode_lengths_sound rest Hrest) as [->|(s & u & v & n & -> & Hs & Hu & Hv & Hn)];
    cbn [mbind outcome_bind]; [by left|].
  case_bool; [by left|]. rewrite (slice_ok rest n) by lia. cbn [mbind outcome_bind].
  unfold index. rewrite (proj2 (Z.leb_le _ _)) by lia.
  destruct (lookup_lt_is_Some_2 rest (Z.to_nat (n + 8))) as [b ->]; [lia|]. cbn [expect mbind outcome_bind].
  destruct (record_op_from_byte b); [|by left]. case_bool; [by left|]. unfold is_u32 in *.
  rewrite !slice_ok by lia. cbn [mbind outcome_bind].
  right. eexists _, _. split; [done|]. cbn [bi_records bi_cursor]. split; [done|lia].
Qed.

Lemma iter_loops_return fuel P it :
  bytes_ok (bi_records it) → 0 ≤ bi_cursor it →
  (Z.to_nat (len (bi_records it) - bi_cursor it) < fuel)%nat →
  returns (iter_collect fuel it) ∧ returns (iter_find fuel P it).
Proof.
  revert it. induction fuel as [|fuel IH]; intros it Hok Hcur Hfuel; [lia|].
  cbn [iter_collect iter_find].
  destruct (iter_next_total it Hok Hcur) as [->|(r & it' & -> & Hrec & Hadv)]; cbn [mbind outcome_bind]; [done|].
  destruct (IH it') as [IH1 IH2]; [by rewrite Hrec|lia|rewrite Hrec; lia|]. split.
  - by destruct (iter_collect fuel it').
  - by destruct (P r).
Qed.

Lemma key_at_restart_returns records off :
  bytes_ok records → 0 ≤ off → returns (key_at_restart records off).
Proof.
  intros Hok Hoff. unfold key_at_restart. case_bool; [done|]. rewrite slice_from_ok by lia.
  cbn [mbind outcome_bind]. set (rest := drop _ _).
  destruct (decode_lengths_sound rest) as [->|(s & u & v & n & -> & Hs & Hu & Hv & Hn)];
    cbn [mbind outcome_bind]; [by apply Forall_drop|done|].
  destruct (negb _); [done|]. case_bool; [done|]. unfold is_u32 in *. by rewrite slice_ok by lia.
Qed.

Lemma key_at_restart_not_Err records off e : key_at_restart records off ≠ Err e.
Proof.
  unfold key_at_restart, decode_lengths, decode_ok, slice_from, slice.
  repeat first [done | case_match; cbn [mbind outcome_bind]; simplify_eq].
Qed.

(** The value of a record is a slice of the block. *)
Lemma iter_next_value it r it' :
  bytes_ok (bi_records it) → iter_next it = Ok (Some (r, it')) →
  bytes_ok (br_value r) ∧ bi_records it' = bi_records it.
Proof.
  intros Hok. unfold iter_next. destruct (_ <=? _); [done|].
  destruct (slice_from _ _); cbn [mbind outcome_bind]; [|done..].
  destruct (decode_lengths _) as [[[[[s u] v] n]|]| | |]; cbn [mbind outcome_bind]; try done.
  destruct (_ <? _); [done|]. destruct (slice _ n _); cbn [mbind outcome_bind]; [|done..].
  destruct (index _ _); cbn [mbind outcome_bind]; [|done..].
  destruct (record_op_from_byte _); [|done]. destruct (_ <? _); [done|].
  destruct (slice _ _ (_ + u)); cbn [mbind outcome_bind]; [|done..].
  destruct (slice _ _ (_ + v)) eqn:Ev; cbn [mbind outcome_bind]; [|done..]. intros [= <- <-].
  split; [|done]. cbn [br_value]. unfold slice in Ev. destruct (_ && _); [|done]. injection Ev as <-.
  by apply Forall_take, Forall_drop.
Qed.

Lemma iter_values fuel P it :
  bytes_ok (bi_records it) →
  (∀ recs, iter_collect fuel it = Ok recs → Forall (λ r, bytes_ok (br_value r)) recs) ∧
  (∀ r, iter_find fuel P it = Ok (Some r) → bytes_ok (br_value r)).
Proof.
  revert it. induction fuel as [|fuel IH]; intros it Hok; [done|]. cbn [iter_collect iter_find].
  destruct (iter_next it) as [[[r it']|]| | |] eqn:E; cbn [mbind outcome_bind]; try done.
  - apply iter_next_value in E as [Hv Hrec]; [|done]. destruct (IH it') as [IH1 IH2]; [by rewrite Hrec|].
    split.
    + destruct (iter_collect fuel it') as [rs| | |]; cbn [mbind outcome_bind]; try done.
      intros recs [= <-]. constructor; [done|]. by apply IH1.
    + destruct (P r); [by intros r' [= <-]|apply IH2].
  - split; [by intros recs [= <-]|done].
Qed.

Lemma block_seek_value r target x :
  bytes_ok (rd_records r) → block_seek r target = Ok (Some x) → bytes_ok (br_value x).
Proof.
  intros Hok. unfold block_seek. destruct (_ =? 0); [done|].
  destruct (seek_loop _ _ _ _ _) as [[lo|]| | |]; cbn [mbind outcome_bind]; try done.
  destruct (restart_offset r lo); cbn [mbind outcome_bind]; try done. by apply iter_values.
Qed.

(** Searching finds what collecting lists. *)
Lemma iter_find_collect fuel P it recs :
  iter_collect fuel it = Ok recs →
  iter_find fuel P it = Ok (List.find P recs) ∧ (length recs < fuel)%nat.
Proof.
  revert it recs. induction fuel as [|fuel IH]; intros it recs; [done|]. cbn [iter_collect iter_find].
  destruct (iter_next it) as [[[r it']|]| | |]; cbn [mbind outcome_bind]; try done.
  - destruct (iter_collect fuel it') as [rs| | |] eqn:E; cbn [mbind outcome_bind]; try done.
    intros [= <-]. destruct (IH _ _ E) as [-> Hl]. cbn [List.find length]. split; [|lia].
    by destruct (P r).
  - intros [= <-]. cbn. split; [done|lia].
Qed.

Lemma iter_collect_not_Err fuel it e :
  bytes_ok (bi_records it) → 0 ≤ bi_cursor it → iter_collect fuel it ≠ Err e.
Proof.
  revert it. induction fuel as [|fuel IH]; intros it Hok Hcur; [done|]. cbn [iter_collect].
  destruct (iter_next_total it Hok Hcur) as [->|(r & it' & -> & Hrec & Hadv)]; cbn [mbind outcome_bind]; [done|].
  specialize (IH it'). rewrite Hrec in IH. destruct (iter_collect fuel it'); try done.
  apply IH; [done|lia].
Qed.

(** A reader whose restart array is whole entries, as [open] makes it. *)
Definition reader_ok (r : BlockReader) : Prop :=
  bytes_ok (rd_records r) ∧ bytes_ok (rd_restart_bytes r) ∧
  len (rd_restart_bytes r) = 4 * num_restarts r.

Lemma restart_offset_ok r i :
  reader_ok r → 0 ≤ i < num_restarts r → ∃ o, restart_offset r i = Ok o ∧ 0 ≤ o.
Proof.
  intros (_ & Hok & Hlen) Hi. unfold restart_offset. rewrite slice_ok by lia. cbn [mbind outcome_bind].
  eexists. split; [done|]. by apply le_val_bound, Forall_take, Forall_drop.
Qed.

Lemma seek_loop_total fuel r target lo hi :
  reader_ok r → 0 ≤ lo < hi → hi ≤ num_restarts r → (Z.to_nat (hi - lo) < fuel)%nat →
  seek_loop fuel r target lo hi = Ok None ∨
  ∃ lo', seek_loop fuel r target lo hi = Ok (Some lo') ∧ 0 ≤ lo' < num_restarts r.
Proof.
  intros Hr. revert lo hi. induction fuel as [|fuel IH]; intros lo hi Hlo Hhi Hfuel; [lia|].
  cbn [seek_loop]. destruct (Z.ltb_spec (lo + 1) hi); cbn [negb].
  2: { right. exists lo. split; [done|lia]. }
  set (mid := lo + (hi - lo) / 2).
  assert (lo < mid < hi).
  { unfold mid. pose proof (Z.div_mod (hi - lo) 2). pose proof (Z.mod_pos_bound (hi - lo) 2). lia. }
  destruct (restart_offset_ok r mid Hr) as (o & -> & Ho); [lia|]. cbn [mbind outcome_bind].
  pose proof (key_at_restart_returns (rd_records r) o (proj1 Hr) Ho) as Hret.
  pose proof (key_at_restart_not_Err (rd_records r) o) as Hne.
  destruct (key_at_restart (rd_records r) o) as [[k|]|e| |]; cbn [mbind outcome_bind]; try done; [|by left|by destruct (Hne e)].
  destruct (bytes_cmp k target); apply IH; lia.
Qed.

Lemma block_seek_returns r target : reader_ok r → returns (block_seek r target).
Proof.
  intros Hr. unfold block_seek. case_bool; [done|].
  assert (0 < num_restarts r) by (unfold num_restarts in *; pose proof (Z.div_pos (len (rd_restart_bytes r)) 4); lia).
  destruct (seek_loop_total (Z.to_nat (num_restarts r) + 1) r target 0 (num_restarts r) Hr)
    as [->|(lo & -> & Hlo)]; [lia|lia|lia|done|]. cbn [mbind outcome_bind].
  destruct (restart_offset_ok r lo Hr Hlo) as (o & -> & Ho). cbn [mbind outcome_bind].
  apply iter_loops_return; cbn [bi_records bi_cursor]; [apply Hr|done|unfold iter_fuel; lia].
Qed.

Lemma block_records_returns r : reader_ok r → returns (block_records r).
Proof.
  intros (Hok & _). unfold block_records, block_iter.
  apply (iter_loops_return _ (λ _, true)); cbn; [done|lia|unfold iter_fuel; lia].
Qed.

Lemma block_records_Ok r : reader_ok r → ∃ recs, block_records r = Ok recs.
Proof.
  intros Hr. pose proof (block_records_returns r Hr) as Hret. destruct Hr as (Hok & _).
  destruct (block_records r) as [recs|e| |] eqn:E; try done; [by exists recs|].
  by apply iter_collect_not_Err in E.
Qed.

Lemma block_open_total `{Crc32cLaws} bytes :
  bytes_ok bytes →
  (∃ e, block_open bytes = Err e) ∨ ∃ r, block_open bytes = Ok r ∧ reader_ok r.
Proof.
  intros Hok. unfold block_open, BLOCK_TRAILER_SIZE. case_bool; [by left; eauto|].
  rewrite slice_from_ok, slice_to_ok by lia. cbn [mbind outcome_bind].
  destruct (negb _); [by left; eauto|]. rewrite (slice_ok bytes (len bytes - 8)) by lia. cbn [mbind outcome_bind].
  set (num := le_val _). assert (0 ≤ num) by (apply le_val_bound; by apply Forall_take, Forall_drop).
  destruct (negb _); [by left; eauto|]. case_bool; [by left; eauto|].
  rewrite slice_to_ok by lia. cbn [mbind outcome_bind]. rewrite slice_ok by lia. cbn [mbind outcome_bind].
  right. eexists. split; [done|]. unfold reader_ok, num_restarts. cbn [rd_records rd_restart_bytes].
  split_and!; [by apply Forall_take|by apply Forall_take, Forall_drop|].
  set (n := len (take _ _)). assert (n = num * 4) as -> by (unfold n; len_simpl; lia).
  rewrite Z.div_mul by lia. lia.
Qed.

(** * Properties *)

(** C23. Round trip: the records added to a block come back.  For any run of
    records within the format's limits, building the block, finishing it,
    opening the bytes and iterating returns exactly those records in order,
    prefix compression and restarts notwithstanding, and the builder is left
    as new. *)
Theorem block_roundtrip `{Crc32cLaws} (rs : list BlockRecord)
    (Hfits : Forall record_fits rs) (Hsize : len (enc_records [] RESTART_INTERVAL rs) < 2 ^ 32) :
  ∃ b bytes r, builder_add_all builder_new rs = Ok b ∧ builder_finish b = Ok (bytes, builder_new) ∧
    block_open bytes = Ok r ∧ block_records r = Ok rs.
Proof.
  destruct (build_open rs Hfits Hsize) as (b & bytes & r & Hadd & Hfin & Hopen & Hof).
  exists b, bytes, r. split_and!; [done..|]. by apply block_records_of.
Qed.

Definition rec_put (k v : bytes) (s : Z) : BlockRecord :=
  {| br_key := k; br_value := v; br_seqno := s; br_op := OpPut |}.

Lemma block_roundtrip_witness :
  let rs := [rec_put [97] [1] 3; rec_put [97; 98] [] 2; rec_put [98] [7; 7] 1] in
  Forall record_fits rs ∧
  ∃ b bytes r, builder_add_all builder_new rs = Ok b ∧ builder_finish b = Ok (bytes, builder_new) ∧
    block_open bytes = Ok r ∧ block_records r = Ok rs.
Proof.
  cbn zeta. set (rs := [_; _; _]).
  assert (Forall record_fits rs) as H by (apply (bool_decide_unpack _); vm_compute; exact I).
  split; [exact H|]. apply (block_roundtrip rs H). vm_compute. reflexivity.
Defined.

(** C24. Seek refines a linear search: on a block of sorted records in which no
    restart record repeats the key of an earlier record, the binary search over
    the restarts finds the first record whose key is at least the target, and
    nothing when there is none. *)
Theorem block_seek_correct `{Crc32cLaws} (rs : list BlockRecord) (target : bytes)
    (Hfits : Forall record_fits rs) (Hsize : len (enc_records [] RESTART_INTERVAL rs) < 2 ^ 32)
    (Hsorted : StronglySorted key_le rs) (Hfresh : restart_fresh target rs) :
  ∃ b bytes r, builder_add_all builder_new rs = Ok b ∧ builder_finish b = Ok (bytes, builder_new) ∧
    block_open bytes = Ok r ∧
    block_seek r target = Ok (List.find (λ x, bytes_leb target (br_key x)) rs).
Proof.
  destruct (build_open rs Hfits Hsize) as (b & bytes & r & Hadd & Hfin & Hopen & Hof).
  exists b, bytes, r. split_and!; [done..|]. by apply block_seek_find.
Qed.

(** Twenty keys, each once: the second restart is key 16. *)
Definition twenty_keys : list BlockRecord := (λ k, rec_put [k] [k; k] (100 - k)) <$> seqZ 0 20.

Lemma block_seek_correct_witness :
  ∃ b bytes r, builder_add_all builder_new twenty_keys = Ok b ∧
    builder_finish b = Ok (bytes, builder_new) ∧ block_open bytes = Ok r ∧
    block_seek r [16] = Ok (Some (rec_put [16] [16; 16] 84)).
Proof.
  apply (block_seek_correct twenty_keys [16]).
  - apply (bool_decide_unpack _). vm_compute. exact I.
  - vm_compute. reflexivity.
  - unfold twenty_keys. cbn.
    repeat (apply SSorted_cons; [|repeat (apply List.Forall_cons; [vm_compute; reflexivity|]); apply List.Forall_nil]).
    apply SSorted_nil.
  - intros rs1 x rs2 E _ Hk. apply Forall_forall. intros y Hy Hky.
    assert (NoDup (br_key <$> twenty_keys)) as Hnd
      by (apply (bool_decide_unpack _); vm_compute; exact I).
    rewrite E, fmap_app, fmap_cons in Hnd. apply NoDup_app in Hnd as (_ & Hdis & _).
    apply (Hdis (br_key y)); [apply list_elem_of_fmap; exists y; split; [reflexivity|exact Hy]|].
    rewrite Hky, Hk. apply list_elem_of_here.
Defined.

(** Fifteen smaller keys and two versions of key 200, newest first: the older
    version is the block's second restart. *)
Definition split_versions : list BlockRecord :=
  ((λ k, rec_put [k] [] 1) <$> seqZ 0 15) ++ [rec_put [200] [9] 9; rec_put [200] [8] 8].

(** The restart condition of the seek theorem is needed: when two versions
    of a key straddle a restart, seek skips the newer one.  On the sorted block
    [split_versions] the first record with the sought key is the newer version,
    but the binary search stops at the restart that holds the older one. *)
Theorem block_seek_skips_newer_version :
  StronglySorted key_le split_versions ∧
  List.find (λ x, bytes_leb [200] (br_key x)) split_versions = Some (rec_put [200] [9] 9) ∧
  ∃ b bytes r, builder_add_all builder_new split_versions = Ok b ∧
    builder_finish b = Ok (bytes, builder_new) ∧ block_open bytes = Ok r ∧
    block_records r = Ok split_versions ∧
    block_seek r [200] = Ok (Some (rec_put [200] [8] 8)).
Proof.
  split_and!.
  - unfold split_versions. cbn.
    repeat (apply SSorted_cons; [|repeat (apply List.Forall_cons; [vm_compute; reflexivity|]); apply List.Forall_nil]).
    apply SSorted_nil.
  - vm_compute. reflexivity.
  - eexists _, _, _. split_and!; [vm_compute; reflexivity..].
Qed.

(** A block read from arbitrary bytes never makes the reader panic or loop:
    opening returns a reader or an error, and on whatever it accepts the
    iterator and every seek terminate within the block. *)
Theorem block_reader_total `{Crc32cLaws} (bytes : bytes) (Hok : bytes_ok bytes) :
  returns (block_open bytes) ∧
  ∀ r, block_open bytes = Ok r →
    returns (block_records r) ∧ ∀ target, returns (block_seek r target).
Proof.
  destruct (block_open_total bytes Hok) as [[e ->]|(r & -> & Hr)]; (split; [done|]); [done|].
  intros r' [= <-]. split; [by apply block_records_returns|]. intros target. by apply block_seek_returns.
Qed.

Lemma block_reader_total_witness :
  let bytes := [1; 2; 3; 0; 0; 0; 0] ++ le_bytes 4 (crc_hash [1; 2; 3; 0; 0; 0; 0]) in
  bytes_ok bytes ∧ ∃ r, block_open bytes = Ok r ∧ returns (block_records r).
Proof.
  cbn zeta. set (bytes := _ ++ _).
  assert (bytes_ok bytes) as H by (apply (bool_decide_unpack _); vm_compute; exact I).
  split; [exact H|]. eexists. split; [vm_compute; reflexivity|].
  apply (proj2 (block_reader_total bytes H)). vm_compute. reflexivity.
Defined.
