(* ===== verification/Crypto.v ===== *)
(** Encryption at rest: [crates/paddock-core/src/crypto/].

    The [aes-gcm] and [hkdf] crates are third-party code, given as classes
    with the documented laws: opening what was sealed under the same key,
    nonce and associated data returns the plaintext, a sealed text is sixteen
    bytes longer, sealing fails only past the cipher's length limit, and a
    derived key has the length asked for. *)

From S2P Require Import Prelude Vfs.

(** * The crates *)

Definition TAG_LEN : Z := 16.
Definition KEY_LEN : Z := 32.
Definition NONCE_LEN : Z := 12.

(** [AeadKey] and [MasterKey] wrap 32 bytes, [Nonce] wraps 12. *)
Record AeadKey := { aead_key_bytes : bytes }.
Record MasterKey := { master_key_bytes : bytes }.
Record Nonce := { nonce_bytes : bytes }.

#[global] Instance Nonce_eq_dec : EqDecision Nonce.
Proof. solve_decision. Defined.

(** [Aes256Gcm::encrypt] and [decrypt]: key, nonce, associated data, message. *)
Class AesGcm := {
  aes_encrypt : bytes → bytes → bytes → bytes → option bytes;
  aes_decrypt : bytes → bytes → bytes → bytes → option bytes
}.

Class AesGcmLaws `{AesGcm} := {
  aes_decrypt_encrypt k n a m c : aes_encrypt k n a m = Some c → aes_decrypt k n a c = Some m;
  aes_encrypt_len k n a m c : aes_encrypt k n a m = Some c → len c = len m + TAG_LEN;
  aes_decrypt_len k n a m c : aes_decrypt k n a c = Some m → len c = len m + TAG_LEN;
  aes_decrypt_bytes k n a m c : aes_decrypt k n a c = Some m → bytes_ok c → bytes_ok m;
  aes_encrypt_ok k n a m :
    len k = KEY_LEN → len n = NONCE_LEN → len a ≤ 2 ^ 36 → len m ≤ 2 ^ 36 →
    is_Some (aes_encrypt k n a m)
}.

(** [Hkdf::<Sha256>::new(None, ikm)] and [expand(info, okm)] for [n] bytes;
    [expand] fails only for outputs longer than 255 digests. *)
Class Hkdf := { hkdf_expand : bytes → bytes → Z → option bytes }.

Class HkdfLaws `{Hkdf} := {
  hkdf_expand_ok ikm info n : 0 ≤ n ≤ 255 * 32 → ∃ okm, hkdf_expand ikm info n = Some okm ∧ len okm = n
}.

(** * [aead.rs] *)

Inductive AeadError := AeadFailed.

Record Aead := { cipher : bytes }.

Section Aead.
Context `{AesGcm}.

Definition aead_new (key : AeadKey) : Aead := {| cipher := aead_key_bytes key |}.

Definition aead_seal (a : Aead) (nonce : Nonce) (aad plaintext : bytes) : AeadError + bytes :=
  match aes_encrypt (cipher a) (nonce_bytes nonce) aad plaintext with
  | Some ct => inr ct
  | None => inl AeadFailed
  end.

Definition aead_open (a : Aead) (nonce : Nonce) (aad ciphertext : bytes) : AeadError + bytes :=
  match aes_decrypt (cipher a) (nonce_bytes nonce) aad ciphertext with
  | Some pt => inr pt
  | None => inl AeadFailed
  end.
End Aead.

(** * [envelope.rs] *)

Definition NONCE_FORMAT_TAG : Z := 0x43464F4E.

Definition derive_block_nonce (block_index : Z) : Nonce :=
  {| nonce_bytes := le_bytes 4 NONCE_FORMAT_TAG ++ le_bytes 8 block_index |}.

Definition block_aad (sstable_id block_index : Z) : bytes :=
  le_bytes 8 sstable_id ++ le_bytes 8 block_index.

(** * [kdf.rs] *)

Definition SSTABLE_INFO_PREFIX : bytes := string_bytes "paddockkv:sstable:v1:".

Definition sstable_info (sstable_id : Z) : bytes := SSTABLE_INFO_PREFIX ++ le_bytes 8 sstable_id.

Definition derive_sstable_key `{Hkdf} (master : MasterKey) (sstable_id : Z) : outcome AeadKey :=
  okm ← expect (hkdf_expand (master_key_bytes master) (sstable_info sstable_id) KEY_LEN);
  Ok {| aead_key_bytes := okm |}.

(** * Instances that satisfy the laws *)

(** A cipher that authenticates by carrying everything in the clear, sixteen
    tag bytes first. *)
Definition toy_tag (k n a : bytes) : bytes :=
  le_bytes 16 (foldl (λ h b, (h * 31 + b + 1) mod 2 ^ 128) 5 (k ++ n ++ a)).

#[global] Instance toy_aes : AesGcm := {|
  aes_encrypt := λ k n a m, Some (toy_tag k n a ++ m);
  aes_decrypt := λ k n a c,
    if decide (take 16 c = toy_tag k n a) then Some (drop 16 c) else None |}.

#[global] Instance toy_hkdf : Hkdf := {|
  hkdf_expand := λ ikm info n,
    Some (le_bytes (Z.to_nat n) (foldl (λ h b, h * 257 + b + 1) 1 (ikm ++ info))) |}.

Lemma length_toy_tag k n a : length (toy_tag k n a) = 16%nat.
Proof. apply length_le_bytes. Qed.

#[global] Instance toy_aes_laws : AesGcmLaws.
Proof.
  assert (∀ k n a m c, aes_encrypt k n a m = Some c → c = toy_tag k n a ++ m) as Henc.
  { intros k n a m c E. change (Some (toy_tag k n a ++ m) = Some c) in E. by apply (inj Some) in E. }
  split; [intros k n a m c E..|by eauto].
  - apply Henc in E as ->. cbn [aes_decrypt toy_aes].
    rewrite take_app_le, firstn_all2 by (rewrite length_toy_tag; lia).
    rewrite decide_True by done. by rewrite drop_app_ge, length_toy_tag by (rewrite length_toy_tag; lia).
  - apply Henc in E as ->. rewrite length_app, length_toy_tag. unfold TAG_LEN. lia.
  - cbn [aes_decrypt toy_aes] in E. destruct (decide _) as [Ht|]; [|done]. apply (inj Some) in E as <-.
    apply (f_equal length) in Ht. rewrite length_toy_tag in Ht. unfold TAG_LEN. len_lia.
  - cbn [aes_decrypt toy_aes] in E. destruct (decide _) as [Ht|]; [|done]. apply (inj Some) in E as <-.
    intros Hc. by apply Forall_drop.
Qed.

#[global] Instance toy_hkdf_laws : HkdfLaws.
Proof. split. intros ikm info n Hn. eexists. split; [done|]. len_simpl. lia. Qed.

(** * Lemmas *)

Lemma app_le_bytes_inj (p q : bytes) n v w :
  length p = length q → 0 ≤ v < 256 ^ Z.of_nat n → 0 ≤ w < 256 ^ Z.of_nat n →
  p ++ le_bytes n v = q ++ le_bytes n w → p = q ∧ v = w.
Proof.
  intros Hl Hv Hw E. apply app_inj_1 in E as [-> E]; [|done]. split; [done|].
  by apply (le_bytes_inj n).
Qed.

Lemma aead_open_seal `{AesGcmLaws} a n aad pt ct :
  aead_seal a n aad pt = inr ct → aead_open a n aad ct = inr pt ∧ len ct = len pt + TAG_LEN.
Proof.
  unfold aead_seal, aead_open. destruct (aes_encrypt _ _ _ _) as [c|] eqn:E; [|done].
  intros [= <-]. by erewrite aes_decrypt_encrypt, aes_encrypt_len.
Qed.

(** * Properties *)

(** C40. The coordinates of a block determine its nonce, its associated data and
    the key-derivation input, and are determined by them: two different blocks
    of one table never share a nonce, blocks of different tables or offsets
    never share associated data, and two tables never share a derivation
    input, which always yields a key of 32 bytes. *)
Theorem block_coordinates_unique `{HkdfLaws} (id id' off off' : Z)
    (Hid : is_u64 id ∧ is_u64 id') (Hoff : is_u64 off ∧ is_u64 off') :
  (derive_block_nonce off = derive_block_nonce off' ↔ off = off') ∧
  (block_aad id off = block_aad id' off' ↔ id = id' ∧ off = off') ∧
  (sstable_info id = sstable_info id' ↔ id = id') ∧
  len (nonce_bytes (derive_block_nonce off)) = NONCE_LEN ∧ len (block_aad id off) = 16 ∧
  ∀ master, ∃ key, derive_sstable_key master id = Ok key ∧ len (aead_key_bytes key) = KEY_LEN.
Proof.
  destruct Hid as [Hid Hid'], Hoff as [Ho Ho']. split_and!.
  - split; [intros E|by intros ->]. apply (f_equal nonce_bytes) in E.
    by apply app_le_bytes_inj in E as [_ ?].
  - unfold block_aad. split; [intros E|by intros [-> ->]].
    apply app_le_bytes_inj in E as [E ?]; [|by len_simpl|done|done].
    split; [|done]. by apply (le_bytes_inj 8).
  - unfold sstable_info. split; [intros E|by intros ->]. by apply app_le_bytes_inj in E as [_ ?].
  - unfold derive_block_nonce. cbn [nonce_bytes]. by len_simpl.
  - unfold block_aad. by len_simpl.
  - intros master. unfold derive_sstable_key.
    destruct (hkdf_expand_ok (master_key_bytes master) (sstable_info id) KEY_LEN) as (okm & -> & Hl);
      [unfold KEY_LEN; lia|]. by eexists.
Qed.

Lemma block_coordinates_unique_witness :
  is_u64 1 ∧ derive_block_nonce 4096 ≠ derive_block_nonce 8192 ∧ block_aad 1 4096 ≠ block_aad 2 4096.
Proof.
  destruct (block_coordinates_unique 1 2 4096 8192) as (Hn & _).
  - unfold is_u64. lia.
  - unfold is_u64. lia.
  - split_and!; [unfold is_u64; lia| |].
    + intros E. apply Hn in E. discriminate E.
    + vm_compute. discriminate.
Defined.
