(* ===== verification/UnitFilter.v ===== *)
(** The tests of the filter and of encryption: those in
    [filter/blocked_bloom.rs] and [crypto/].  They are proved for every hash,
    cipher and key derivation with the crates' laws.

    Left out are the tests of the crates themselves: how evenly the real xxh3
    spreads its hashes ([false_positive_rate_is_close_to_target],
    [pick_block_is_uniform_enough]), that AES-GCM rejects what was tampered
    with, and the published vectors of AES-GCM and HKDF. *)

From S2P Require Import Prelude Checksum Vfs VfsLaws FileNames TestKit Bloom Crypto.

(** * [filter/blocked_bloom.rs] *)

Section FilterTests.
Context `{Xxh3} (avx2 : bool).

(** A filter for [n] keys with the given keys in it. *)
Definition filter_with (n : Z) (keys : list bytes) : outcome BlockedBloom :=
  f ← bloom_new n params_default;
  insert_all f keys.

Definition holds_key (f : BlockedBloom) (key : bytes) : outcome () :=
  found ← bloom_contains avx2 f key;
  assert_that found.

Definition lacks_key (f : BlockedBloom) (key : bytes) : outcome () :=
  found ← bloom_contains avx2 f key;
  assert_that (negb found).

Definition inserted_are_present (n : Z) (keys : list bytes) : outcome () :=
  f ← filter_with n keys;
  each keys (holds_key f).

Definition encode_keeps_members (n : Z) (keys : list bytes) : outcome () :=
  f ← filter_with n keys;
  bytes ← bloom_encode f;
  f2 ← unwrap (bloom_decode bytes);
  each keys (λ k, _ ← holds_key f k; holds_key f2 k).

(** One probe by both backends. *)
Definition probes_agree (f : BlockedBloom) (key : bytes) : outcome () :=
  let hash := xxh_hash key in
  blk ← bloom_block f (pick_block hash (num_blocks f));
  s ← probe_scalar blk hash (num_hashes (params f));
  a ← (if avx2 then probe_avx2 blk hash (num_hashes (params f)) else Ok s);
  assert_eq s a.

Definition backends_agree (n : Z) (present probes : list bytes) : outcome () :=
  f ← filter_with n present;
  each probes (probes_agree f).

Definition padded_keys (prefix : string) (w n : nat) : list bytes := (λ i, lit prefix ++ padded w i) <$> upto n.

Definition bloom_basic_tests : list test := [
  Test "empty_filter_rejects_everything" (
    f ← bloom_new 100 params_default;
    _ ← lacks_key f (lit "missing");
    lacks_key f []);
  Test "inserted_keys_are_definitely_present" (inserted_are_present 1000 (numbered_key <$> upto 1000))
].

Definition bloom_format_tests : list test := [
  Test "encode_decode_round_trip_preserves_membership" (encode_keeps_members 500 (padded_keys "k-" 5 500));
  Test "decode_rejects_wrong_magic" (
    err ← unwrap_err (bloom_decode (replicate (16 + 64) 0));
    assert_that (is_invalid_format err));
  Test "decode_rejects_truncated_payload" (
    f ← filter_with 10 [lit "x"];
    bytes ← bloom_encode f;
    err ← unwrap_err (bloom_decode (take (length bytes - 1) bytes));
    assert_that (is_invalid_format err));
  Test "scalar_and_avx2_agree" (
    backends_agree 2000 (padded_keys "present-" 6 2000)
      ((λ i, if i mod 2 =? 0 then lit "present-" ++ padded 6 (i / 2) else lit "absent-" ++ padded 6 i) <$> upto 4000))
].
End FilterTests.

(** * [crypto/aead.rs] *)

Section CryptoTests.
Context `{AesGcm} `{Hkdf}.

(** [Result<_, AeadError>::unwrap]. *)
Definition aead_unwrap (r : AeadError + bytes) : outcome bytes :=
  match r with inr b => Ok b | inl _ => Panic end.

Definition payload : bytes := lit "PaddockKV encryption-at-rest test payload".
Definition associated_data : bytes := lit "sstable=42,block=7".

(** [AeadKey::from_bytes([b; KEY_LEN])] and [Nonce::from_bytes([b; NONCE_LEN])]. *)
Definition aead_key (b : Z) : AeadKey := {| aead_key_bytes := replicate 32 b |}.
Definition nonce_of (b : Z) : Nonce := {| nonce_bytes := replicate 12 b |}.

Definition round_trip_with_aad : outcome () :=
  let aead := aead_new (aead_key 0x42) in
  let nonce := nonce_of 0x01 in
  ct ← aead_unwrap (aead_seal aead nonce associated_data payload);
  _ ← assert_eq (len ct) (len payload + TAG_LEN);
  pt ← aead_unwrap (aead_open aead nonce associated_data ct);
  assert_eq pt payload.

(** The same calls and assertions. *)
Definition pinned_regression_vector : outcome () := round_trip_with_aad.

(** * [crypto/kdf.rs] *)

Definition master_of (b : Z) : MasterKey := {| master_key_bytes := replicate 32 b |}.

Definition same_sstable_id_is_deterministic : outcome () :=
  let master := master_of 0xCC in
  a ← derive_sstable_key master 42;
  b ← derive_sstable_key master 42;
  assert_eq (aead_key_bytes a) (aead_key_bytes b).

(** * [crypto/envelope.rs] *)

Definition envelope_tests : list test := [
  Test "nonces_for_distinct_block_indices_differ" (
    let a := derive_block_nonce 0 in
    let b := derive_block_nonce 1 in
    let c := derive_block_nonce 0xDEADBEEFCAFEF00D in
    _ ← assert_ne a b;
    _ ← assert_ne a c;
    assert_ne b c);
  Test "nonce_format_tag_present" (
    let bytes := nonce_bytes (derive_block_nonce 0) in
    assert_eq (take 4 bytes) (le_bytes 4 NONCE_FORMAT_TAG));
  Test "aad_for_distinct_coordinates_differs" (
    let a := block_aad 1 0 in
    let b := block_aad 1 1 in
    let c := block_aad 2 0 in
    _ ← assert_ne a b;
    _ ← assert_ne a c;
    assert_ne b c);
  Test "end_to_end_seal_open_with_real_key_hierarchy" (
    let sst_id := 0x12345678 in
    let block_idx := 42 in
    key ← derive_sstable_key (master_of 0xA5) sst_id;
    let aead := aead_new key in
    let nonce := derive_block_nonce block_idx in
    let associated_data := block_aad sst_id block_idx in
    let plaintext := lit "the quick brown fox jumps over the lazy dog" in
    ct ← aead_unwrap (aead_seal aead nonce associated_data plaintext);
    pt ← aead_unwrap (aead_open aead nonce associated_data ct);
    assert_eq pt plaintext)
].
End CryptoTests.

(** * Filters of any keys *)

Section AnyHash.
Context `{Xxh3Laws} (avx2 : bool).

Lemma filter_with_ok n keys :
  n < 2 ^ 60 →
  ∃ f, filter_with n keys = Ok f ∧ bloom_ok f ∧ ∀ key, key ∈ keys → bloom_contains avx2 f key = Ok true.
Proof.
  intros Hn. destruct (bloom_new_ok n params_default) as (f0 & E0 & Hf0 & _);
    [done..|cbn; unfold DEFAULT_BITS_PER_KEY; lia|].
  destruct (insert_all_spec f0 keys Hf0) as (f & E & Hf & _ & _ & Hin & _).
  exists f. unfold filter_with. rewrite E0. split_and!; [done|done|]. intros key Hkey. by apply contains_in_filter, Hin.
Qed.

Theorem inserted_are_present_holds n keys : n < 2 ^ 60 → inserted_are_present avx2 n keys = Ok tt.
Proof.
  intros Hn.
  destruct (filter_with_ok n keys Hn) as (f & E & _ & Hin). unfold inserted_are_present. rewrite E.
  apply each_ok. intros key Hkey. unfold holds_key. by rewrite Hin.
Qed.

Theorem encode_keeps_members_holds n keys : n < 2 ^ 60 → encode_keeps_members avx2 n keys = Ok tt.
Proof.
  intros Hn.
  destruct (filter_with_ok n keys Hn) as (f & E & Hf & Hin). unfold encode_keeps_members. rewrite E.
  cbn [mbind outcome_bind]. rewrite bloom_encode_ok by done. cbn [mbind outcome_bind].
  rewrite bloom_decode_encode by done. apply each_ok. intros key Hkey. unfold holds_key. by rewrite Hin.
Qed.

Theorem backends_agree_holds n present probes : n < 2 ^ 60 → backends_agree avx2 n present probes = Ok tt.
Proof.
  intros Hn.
  destruct (filter_with_ok n present Hn) as (f & E & Hf & _). unfold backends_agree. rewrite E.
  apply each_ok. intros key _. unfold probes_agree, xxh_hash.
  destruct (bloom_block_spec f (pick_block (xxh3_64 key) (num_blocks f)) Hf) as (-> & Hlen & Hok).
  { apply pick_block_lt, Hf. }
  cbn [mbind outcome_bind]. rewrite (probe_avx2_spec _ _ _ Hlen Hok).
  pose proof (dispatch_probe_spec false _ (xxh3_64 key) (num_hashes (params f)) Hlen Hok) as Es. cbn in Es.
  rewrite Es. cbn [mbind outcome_bind]. destruct avx2; apply assert_eq_refl.
Qed.

(** A filter with nothing in it. *)
Lemma fresh_lacks n f key : bloom_new n params_default = Ok f → lacks_key avx2 f key = Ok tt.
Proof.
  intros E. assert (Z.max n 1 * bits_per_key params_default < 2 ^ 64) as Hroom.
  { unfold bloom_new in E. cbn -[zeros] in E |- *. case_bool; [done|lia]. }
  destruct (bloom_new_ok n params_default) as (f' & E' & Hf & Hp); [done..|].
  rewrite E in E'. injection E' as <-. unfold lacks_key. rewrite contains_spec by done. cbn [mbind outcome_bind].
  apply assert_true, negb_true_iff. unfold key_positions, probe_list. rewrite Hp.
  set (ps := bit_positions _ _). destruct (take (Z.to_nat (num_hashes params_default)) ps) as [|p rest] eqn:Eps.
  { apply (f_equal length) in Eps. unfold ps, bit_positions in Eps. rewrite length_take, length_app, length_fill_positions in Eps.
    rewrite length_replicate in Eps. cbn in Eps. done. }
  cbn [forallb]. apply andb_false_iff. left. unfold block_bit, filter_block.
  assert (blocks f = zeros (num_blocks f * BLOCK_BYTES)) as -> by (unfold bloom_new in E; cbn -[zeros] in E; case_bool; [done|by injection E as <-]).
  unfold zeros. rewrite drop_replicate, take_replicate. destruct (replicate _ 0 !! _) as [b|] eqn:Eb; [|done].
  apply lookup_replicate in Eb as [-> _]. apply Z.testbit_0_l.
Qed.

(** A filter cut short is refused. *)
Lemma decode_short f :
  bloom_ok f → let enc := bloom_header f ++ blocks f in
  ∃ e, bloom_decode (take (length enc - 1) enc) = Err e ∧ is_invalid_format e = true.
Proof.
  intros [Hlen _ Hnb Hnk Hh Hbk] enc. unfold BLOCK_BYTES in Hlen. unfold enc.
  rewrite length_app, take_app_ge, length_bloom_header by (rewrite length_bloom_header; lia).
  set (body := take _ _). assert (len body = num_blocks f * 64 - 1) as Hbody by (unfold body; rewrite length_take; lia).
  unfold bloom_decode. rewrite length_app, length_bloom_header. unfold HEADER_SIZE. rewrite (proj2 (Z.ltb_ge _ _)) by lia.
  unfold is_u32, is_u8 in *. unfold bloom_header, FILTER_MAGIC, FILTER_VERSION. rewrite <-!app_assoc. le_fields.
  rewrite !Z.eqb_refl. cbn [negb]. unfold BLOCK_BYTES. decide_bool. by eexists.
Qed.

Theorem bloom_basic_tests_pass : all_pass (bloom_basic_tests avx2) = true.
Proof.
  each_test; [|by apply inserted_are_present_holds].
  destruct (bloom_new_ok 100 params_default) as (f & E & _); [done..|]. rewrite E. cbn [mbind outcome_bind].
  rewrite !(fresh_lacks 100) by done. done.
Qed.

Theorem bloom_format_tests_pass : all_pass (bloom_format_tests avx2) = true.
Proof.
  each_test; [by apply encode_keeps_members_holds|evaluate| |by apply backends_agree_holds].
  destruct (filter_with_ok 10 [lit "x"]) as (f & E & Hf & _); [done|]. rewrite E. cbn [mbind outcome_bind].
  rewrite bloom_encode_ok by done. cbn [mbind outcome_bind]. destruct (decode_short f Hf) as (e & -> & He).
  cbn [unwrap_err mbind outcome_bind]. by apply assert_true.
Qed.
End AnyHash.

(** * Any cipher and key derivation *)

Section AnyCipher.
Context `{AesGcmLaws} `{HkdfLaws}.

Lemma seal_opens key nonce aad pt :
  len (aead_key_bytes key) = KEY_LEN → len (nonce_bytes nonce) = NONCE_LEN → len aad ≤ 2 ^ 36 → len pt ≤ 2 ^ 36 →
  ∃ ct, aead_seal (aead_new key) nonce aad pt = inr ct ∧ len ct = len pt + TAG_LEN ∧
    aead_open (aead_new key) nonce aad ct = inr pt.
Proof.
  intros Hk Hn Ha Hp. destruct (aes_encrypt_ok _ _ aad pt Hk Hn Ha Hp) as [ct E].
  exists ct. unfold aead_seal, aead_open, aead_new. cbn [cipher].
  rewrite E, (aes_decrypt_encrypt _ _ _ _ _ E). split_and!; [done|by eapply aes_encrypt_len|done].
Qed.

Theorem round_trip_with_aad_passes : round_trip_with_aad = Ok tt.
Proof.
  unfold round_trip_with_aad. destruct (seal_opens (aead_key 0x42) (nonce_of 1) associated_data payload) as (ct & -> & Hl & Eo);
    [done..|]. cbn [aead_unwrap mbind outcome_bind]. rewrite Hl, assert_eq_refl. cbn [mbind outcome_bind].
  rewrite Eo. cbn [aead_unwrap mbind outcome_bind]. apply assert_eq_refl.
Qed.

Lemma derives master id :
  ∃ key, derive_sstable_key master id = Ok key ∧ len (aead_key_bytes key) = KEY_LEN.
Proof.
  destruct (hkdf_expand_ok (master_key_bytes master) (sstable_info id) KEY_LEN) as (okm & E & Hl); [done|].
  unfold derive_sstable_key. rewrite E. by eexists.
Qed.

Theorem deterministic_passes : same_sstable_id_is_deterministic = Ok tt.
Proof.
  unfold same_sstable_id_is_deterministic. destruct (derives (master_of 0xCC) 42) as (key & -> & _). apply assert_eq_refl.
Qed.

Theorem envelope_tests_pass : all_pass envelope_tests = true.
Proof.
  each_test; [evaluate..|]. destruct (derives (master_of 0xA5) 0x12345678) as (key & -> & Hk). cbn [mbind outcome_bind].
  set (pt := lit _). destruct (seal_opens key (derive_block_nonce 42) (block_aad 0x12345678 42) pt) as (ct & -> & _ & Eo); [done..|].
  cbn [aead_unwrap mbind outcome_bind]. rewrite Eo. apply assert_eq_refl.
Qed.
End AnyCipher.
