(* ===== verification/SstWriter.v ===== *)
(** The SSTable writer: [crates/paddock-core/src/sstable/writer.rs].

    The writer is a struct beside a file system, as the WAL writer is.  The
    lemmas show what a finished file holds: data blocks that decode to the
    records in order, an index of their last keys, a filter with every key, a
    header and a footer. *)

From S2P Require Import Prelude Varint Checksum Vfs Bloom SstFormat Block Crypto.

(** * The writer *)

Record EncryptionCtx := { ec_aead : Aead; ec_sstable_id : Z }.

Record SstWriter (F : Type) := {
  sw_file : F;
  sw_data_builder : BlockBuilder;
  sw_pending_index : list (bytes * BlockHandle);
  sw_last_key : bytes;
  sw_bytes_written : Z;
  sw_num_entries : Z;
  sw_num_blocks : Z;
  sw_min_seqno : Z;
  sw_max_seqno : Z;
  sw_checksum_alg : Algorithm;
  sw_block_size : Z;
  sw_bloom : option BlockedBloom;
  sw_crypto : option EncryptionCtx
}.
Arguments sw_file {F} _.
Arguments sw_data_builder {F} _.
Arguments sw_pending_index {F} _.
Arguments sw_last_key {F} _.
Arguments sw_bytes_written {F} _.
Arguments sw_num_entries {F} _.
Arguments sw_num_blocks {F} _.
Arguments sw_min_seqno {F} _.
Arguments sw_max_seqno {F} _.
Arguments sw_checksum_alg {F} _.
Arguments sw_block_size {F} _.
Arguments sw_bloom {F} _.
Arguments sw_crypto {F} _.

(** Assignments to groups of fields. *)
Section Setters.
Context {F : Type}.

Definition sw_set_builder (b : BlockBuilder) (sw : SstWriter F) : SstWriter F :=
  {| sw_file := sw_file sw; sw_data_builder := b; sw_pending_index := sw_pending_index sw;
     sw_last_key := sw_last_key sw; sw_bytes_written := sw_bytes_written sw;
     sw_num_entries := sw_num_entries sw; sw_num_blocks := sw_num_blocks sw;
     sw_min_seqno := sw_min_seqno sw; sw_max_seqno := sw_max_seqno sw;
     sw_checksum_alg := sw_checksum_alg sw; sw_block_size := sw_block_size sw;
     sw_bloom := sw_bloom sw; sw_crypto := sw_crypto sw |}.

Definition sw_set_index (idx : list (bytes * BlockHandle)) (last_key : bytes) (num_blocks : Z)
    (sw : SstWriter F) : SstWriter F :=
  {| sw_file := sw_file sw; sw_data_builder := sw_data_builder sw; sw_pending_index := idx;
     sw_last_key := last_key; sw_bytes_written := sw_bytes_written sw;
     sw_num_entries := sw_num_entries sw; sw_num_blocks := num_blocks;
     sw_min_seqno := sw_min_seqno sw; sw_max_seqno := sw_max_seqno sw;
     sw_checksum_alg := sw_checksum_alg sw; sw_block_size := sw_block_size sw;
     sw_bloom := sw_bloom sw; sw_crypto := sw_crypto sw |}.

Definition sw_set_written (n : Z) (sw : SstWriter F) : SstWriter F :=
  {| sw_file := sw_file sw; sw_data_builder := sw_data_builder sw;
     sw_pending_index := sw_pending_index sw;
     sw_last_key := sw_last_key sw; sw_bytes_written := n;
     sw_num_entries := sw_num_entries sw; sw_num_blocks := sw_num_blocks sw;
     sw_min_seqno := sw_min_seqno sw; sw_max_seqno := sw_max_seqno sw;
     sw_checksum_alg := sw_checksum_alg sw; sw_block_size := sw_block_size sw;
     sw_bloom := sw_bloom sw; sw_crypto := sw_crypto sw |}.

Definition sw_set_bloom (bloom : option BlockedBloom) (sw : SstWriter F) : SstWriter F :=
  {| sw_file := sw_file sw; sw_data_builder := sw_data_builder sw;
     sw_pending_index := sw_pending_index sw;
     sw_last_key := sw_last_key sw; sw_bytes_written := sw_bytes_written sw;
     sw_num_entries := sw_num_entries sw; sw_num_blocks := sw_num_blocks sw;
     sw_min_seqno := sw_min_seqno sw; sw_max_seqno := sw_max_seqno sw;
     sw_checksum_alg := sw_checksum_alg sw; sw_block_size := sw_block_size sw;
     sw_bloom := bloom; sw_crypto := sw_crypto sw |}.

(** What [add] records about an entry. *)
Definition sw_count (key : bytes) (seqno : Z) (sw : SstWriter F) : SstWriter F :=
  {| sw_file := sw_file sw; sw_data_builder := sw_data_builder sw;
     sw_pending_index := sw_pending_index sw;
     sw_last_key := key; sw_bytes_written := sw_bytes_written sw;
     sw_num_entries := sw_num_entries sw + 1; sw_num_blocks := sw_num_blocks sw;
     sw_min_seqno := Z.min (sw_min_seqno sw) seqno; sw_max_seqno := Z.max (sw_max_seqno sw) seqno;
     sw_checksum_alg := sw_checksum_alg sw; sw_block_size := sw_block_size sw;
     sw_bloom := sw_bloom sw; sw_crypto := sw_crypto sw |}.

Definition set_block_size (size : Z) (sw : SstWriter F) : SstWriter F :=
  {| sw_file := sw_file sw; sw_data_builder := sw_data_builder sw;
     sw_pending_index := sw_pending_index sw;
     sw_last_key := sw_last_key sw; sw_bytes_written := sw_bytes_written sw;
     sw_num_entries := sw_num_entries sw; sw_num_blocks := sw_num_blocks sw;
     sw_min_seqno := sw_min_seqno sw; sw_max_seqno := sw_max_seqno sw;
     sw_checksum_alg := sw_checksum_alg sw; sw_block_size := size;
     sw_bloom := sw_bloom sw; sw_crypto := sw_crypto sw |}.
End Setters.

Section Writer.
Context `{Crc32c} `{Xxh3} `{AesGcm} {F W : Type} `{VfsFile F W}.

Definition create_inner (file : F) (checksum_alg : Algorithm) (expected_keys : Z)
    (params : BloomParams) (crypto : option EncryptionCtx) : st W (SstWriter F) :=
  let pad := zeros FILE_HEADER_REGION_SIZE in
  _ ← vf_append file pad;
  bloom ← (if expected_keys =? 0 then mret None
           else f ← st_lift (bloom_new expected_keys params); mret (Some f));
  mret {| sw_file := file; sw_data_builder := builder_new; sw_pending_index := [];
          sw_last_key := []; sw_bytes_written := FILE_HEADER_REGION_SIZE;
          sw_num_entries := 0; sw_num_blocks := 0; sw_min_seqno := U64_MAX; sw_max_seqno := 0;
          sw_checksum_alg := checksum_alg; sw_block_size := DEFAULT_BLOCK_SIZE;
          sw_bloom := bloom; sw_crypto := crypto |}.

Definition create_with_filter_capacity (file : F) (checksum_alg : Algorithm) (expected_keys : Z)
    (params : BloomParams) : st W (SstWriter F) :=
  create_inner file checksum_alg expected_keys params None.

Definition sst_create (file : F) (checksum_alg : Algorithm) : st W (SstWriter F) :=
  create_with_filter_capacity file checksum_alg 10000 params_default.

Definition create_encrypted (file : F) (checksum_alg : Algorithm) (expected_keys : Z)
    (params : BloomParams) (aead_key : AeadKey) (sstable_id : Z) : st W (SstWriter F) :=
  let ctx := {| ec_aead := aead_new aead_key; ec_sstable_id := sstable_id |} in
  create_inner file checksum_alg expected_keys params (Some ctx).

Definition align_to_block_boundary : st (SstWriter F * W) () :=
  '(sw, _) ← st_get;
  let rem := sw_bytes_written sw mod BLOCK_ALIGNMENT in
  if negb (rem =? 0) then
    let pad := zeros (BLOCK_ALIGNMENT - rem) in
    _ ← on_snd (vf_append (sw_file sw) pad);
    on_fst (st_modify (λ sw, sw_set_written (sw_bytes_written sw + len pad) sw))
  else mret tt.

(** The bytes of a block on disk and the checksum its handle carries. *)
Definition encode_block (crypto : option EncryptionCtx) (offset : Z) (plaintext : bytes) :
    outcome (bytes * Z) :=
  match crypto with
  | Some ctx =>
      let nonce := derive_block_nonce offset in
      let aad := block_aad (ec_sstable_id ctx) offset in
      match aead_seal (ec_aead ctx) nonce aad plaintext with
      | inl _ => Err (corruption_static "sstable writer" "AEAD seal failed")
      | inr ct => _ ← debug_assert (len ct =? len plaintext + TAG_LEN); Ok (ct, 0)
      end
  | None =>
      start ← usize_sub (len plaintext) 4;
      tail ← slice_from plaintext start;
      Ok (plaintext, le_val tail)
  end.

Definition write_block (plaintext : bytes) : st (SstWriter F * W) BlockHandle :=
  '(sw, _) ← st_get;
  let offset := sw_bytes_written sw in
  '(on_disk, checksum) ← st_lift (encode_block (sw_crypto sw) offset plaintext);
  _ ← on_snd (vf_append (sw_file sw) on_disk);
  _ ← on_fst (st_modify (λ sw, sw_set_written (sw_bytes_written sw + len on_disk) sw));
  length ← st_lift (expect (try_u32 (len on_disk)));
  let handle := {| bh_offset := offset; bh_length := length; bh_checksum := checksum |} in
  _ ← align_to_block_boundary;
  mret handle.

Definition flush_block : st (SstWriter F * W) () :=
  '(sw, _) ← st_get;
  if builder_is_empty (sw_data_builder sw) then mret tt
  else
    '(bytes, b) ← st_lift (builder_finish (sw_data_builder sw));
    _ ← on_fst (st_modify (sw_set_builder b));
    handle ← write_block bytes;
    on_fst (st_modify (λ sw,
      sw_set_index (sw_pending_index sw ++ [(sw_last_key sw, handle)]) [] (sw_num_blocks sw + 1) sw)).

Definition sst_add (key value : bytes) (seqno : Z) (op : RecordOp) : st (SstWriter F * W) () :=
  '(sw, _) ← st_get;
  _ ← st_lift (debug_assert (bytes_eqb (sw_last_key sw) [] || bytes_leb (sw_last_key sw) key));
  b ← st_lift (builder_add (sw_data_builder sw) key value seqno op);
  _ ← on_fst (st_modify (sw_set_builder b));
  _ ← match sw_bloom sw with
      | Some bloom =>
          bloom ← st_lift (bloom_insert bloom key);
          on_fst (st_modify (sw_set_bloom (Some bloom)))
      | None => mret tt
      end;
  _ ← on_fst (st_modify (sw_count key seqno));
  '(sw, _) ← st_get;
  if sw_block_size sw <=? estimated_size (sw_data_builder sw) then flush_block else mret tt.

Definition index_record (e : bytes * BlockHandle) : BlockRecord :=
  {| br_key := e.1; br_value := block_handle_as_bytes e.2; br_seqno := 0; br_op := OpPut |}.

Definition build_index_block : st (SstWriter F * W) bytes :=
  '(sw, _) ← st_get;
  let entries := sw_pending_index sw in
  _ ← on_fst (st_modify (λ sw, sw_set_index [] (sw_last_key sw) (sw_num_blocks sw) sw));
  b ← st_lift (builder_add_all builder_new (index_record <$> entries));
  '(bytes, _) ← st_lift (builder_finish b);
  mret bytes.

(** The filter block; its handle has length zero when there is no filter. *)
Definition write_filter : st (SstWriter F * W) BlockHandle :=
  '(sw, _) ← st_get;
  match sw_bloom sw with
  | Some bloom =>
      _ ← on_fst (st_modify (sw_set_bloom None));
      bytes ← st_lift (bloom_encode bloom);
      let offset := sw_bytes_written sw in
      _ ← on_snd (vf_append (sw_file sw) bytes);
      _ ← on_fst (st_modify (λ sw, sw_set_written (sw_bytes_written sw + len bytes) sw));
      length ← st_lift (expect (try_u32 (len bytes)));
      mret {| bh_offset := offset; bh_length := length; bh_checksum := 0 |}
  | None => mret {| bh_offset := sw_bytes_written sw; bh_length := 0; bh_checksum := 0 |}
  end.

Definition write_index : st (SstWriter F * W) BlockHandle :=
  index_bytes ← build_index_block;
  '(sw, _) ← st_get;
  let index_offset := sw_bytes_written sw in
  _ ← on_snd (vf_append (sw_file sw) index_bytes);
  _ ← on_fst (st_modify (λ sw, sw_set_written (sw_bytes_written sw + len index_bytes) sw));
  start ← st_lift (usize_sub (len index_bytes) 4);
  tail ← st_lift (slice_from index_bytes start);
  length ← st_lift (expect (try_u32 (len index_bytes)));
  mret {| bh_offset := index_offset; bh_length := length; bh_checksum := le_val tail |}.

Definition sst_flags (crypto : option EncryptionCtx) : Z :=
  match crypto with Some _ => Z.lor CHECKSUMMED ENCRYPTED | None => CHECKSUMMED end.

Definition sst_finish : st (SstWriter F * W) F :=
  _ ← flush_block;
  '(sw, _) ← st_get;
  let data_blocks_end_offset := sw_bytes_written sw in
  filter_handle ← write_filter;
  '(sw, _) ← st_get;
  let meta_handle := {| bh_offset := sw_bytes_written sw; bh_length := 0; bh_checksum := 0 |} in
  index_handle ← write_index;
  let footer := footer_new_signed index_handle filter_handle meta_handle in
  _ ← on_snd (vf_append (sw_file sw) (footer_as_bytes footer));
  _ ← on_fst (st_modify (λ sw, sw_set_written (sw_bytes_written sw + FOOTER_SIZE) sw));
  let header := file_header_new_signed (sst_flags (sw_crypto sw)) CompNone (sw_checksum_alg sw)
    (sw_num_entries sw) (sw_num_blocks sw)
    (if sw_min_seqno sw =? U64_MAX then 0 else sw_min_seqno sw)
    (sw_max_seqno sw) data_blocks_end_offset in
  _ ← on_snd (vf_write_at (sw_file sw) (file_header_as_bytes header) 0);
  mret (sw_file sw).

(** A run of [add]s, stopping at the first error. *)
Fixpoint sst_add_all (rs : list BlockRecord) : st (SstWriter F * W) () :=
  match rs with
  | [] => mret tt
  | r :: rs => _ ← sst_add (br_key r) (br_value r) (br_seqno r) (br_op r); sst_add_all rs
  end.

(** A whole table: [create], [add] for each record, [finish]. *)
Definition write_table (file : F) (checksum_alg : Algorithm) (expected_keys : Z)
    (params : BloomParams) (crypto : option EncryptionCtx) (rs : list BlockRecord) : st W F := λ w,
  match create_inner file checksum_alg expected_keys params crypto w with
  | (Ok sw, w) =>
      let '(r, (_, w)) := (_ ← sst_add_all rs; sst_finish) (sw, w) in (r, w)
  | (Err e, w) => (Err e, w)
  | (Panic, w) => (Panic, w)
  | (OutOfFuel, w) => (OutOfFuel, w)
  end.
End Writer.

(** * What a file holds *)

(** Sizes the format's 32-bit lengths can carry. *)
Definition record_small (r : BlockRecord) : Prop :=
  len (br_key r) + len (br_value r) ≤ 2 ^ 30 ∧ is_u64 (br_seqno r).

Definition keys_size (rs : list BlockRecord) : Z :=
  foldr (λ r n, len (br_key r) + 64 + n) 0 rs.

#[global] Instance record_small_dec r : Decision (record_small r).
Proof. unfold record_small, is_u64. apply _. Defined.

Definition crypto_ok (crypto : option EncryptionCtx) : Prop :=
  match crypto with
  | Some ctx => len (cipher (ec_aead ctx)) = KEY_LEN
  | None => True
  end.

(** [od] is what a block [plain] looks like on disk at offset [off]. *)
Definition sealed `{AesGcm} (crypto : option EncryptionCtx) (off : Z) (plain od : bytes) : Prop :=
  match crypto with
  | Some ctx =>
      aead_seal (ec_aead ctx) (derive_block_nonce off) (block_aad (ec_sstable_id ctx) off) plain
      = inr od
  | None => od = plain
  end.

(** The bytes [h] points to. *)
Definition at_handle (c : bytes) (h : BlockHandle) : bytes :=
  take (Z.to_nat (bh_length h)) (drop (Z.to_nat (bh_offset h)) c).

Definition handle_in (c : bytes) (h : BlockHandle) : Prop :=
  FILE_HEADER_REGION_SIZE ≤ bh_offset h ∧ bh_offset h + bh_length h ≤ len c ∧ block_handle_ok h.

(** [plain] opens as a block of the records [rs]. *)
Definition opens_as `{Crc32c} (plain : bytes) (rs : list BlockRecord) : Prop :=
  ∃ r, block_open plain = Ok r ∧ block_of rs r ∧ Forall record_fits rs ∧
    len (enc_records [] RESTART_INTERVAL rs) < 2 ^ 32.

Record holds_block `{Crc32c} `{AesGcm} (crypto : option EncryptionCtx) (c : bytes) (h : BlockHandle)
    (chunk : list BlockRecord) : Prop := {
  hb_in : handle_in c h;
  hb_block : ∃ plain, sealed crypto (bh_offset h) plain (at_handle c h) ∧ opens_as plain chunk
}.

(** An index entry: the last key of a chunk and the handle of its block. *)
Definition indexes `{Crc32c} `{AesGcm} (crypto : option EncryptionCtx) (c : bytes)
    (chunk : list BlockRecord) (e : bytes * BlockHandle) : Prop :=
  holds_block crypto c e.2 chunk ∧ last (br_key <$> chunk) = Some e.1.

Definition filter_covers `{Xxh3} (f : BlockedBloom) (rs : list BlockRecord) : Prop :=
  bloom_ok f ∧ num_blocks f * BLOCK_BYTES + HEADER_SIZE < 2 ^ 32 ∧
  ∀ r, r ∈ rs → in_filter f (br_key r).

Definition min_seqno_of (rs : list BlockRecord) : Z := foldl Z.min U64_MAX (br_seqno <$> rs).
Definition max_seqno_of (rs : list BlockRecord) : Z := foldl Z.max 0 (br_seqno <$> rs).

(** The contents of a finished table of the records [rs], cut into [chunks]. *)
Record table_image `{Crc32c} `{Xxh3} `{AesGcm} (crypto : option EncryptionCtx) (alg : Algorithm)
    (rs : list BlockRecord) (c : bytes) : Prop := {
  ti_size : 4096 ≤ len c < 2 ^ 63;
  ti_header : ∃ nb off, is_u64 nb ∧ is_u64 off ∧
    take 64 c = file_header_as_bytes (file_header_new_signed (sst_flags crypto) CompNone alg
      (len rs) nb (if min_seqno_of rs =? U64_MAX then 0 else min_seqno_of rs) (max_seqno_of rs) off);
  ti_footer : ∃ pre ih fh mh chunks entries,
    c = pre ++ footer_as_bytes (footer_new_signed ih fh mh) ∧
    handle_in c ih ∧ handle_in c fh ∧ block_handle_ok mh ∧
    concat chunks = rs ∧ Forall2 (indexes crypto c) chunks entries ∧
    opens_as (at_handle c ih) (index_record <$> entries) ∧
    (bh_length fh = 0 ∨
     ∃ f, at_handle c fh = bloom_header f ++ blocks f ∧ filter_covers f rs ∧ 0 < bh_length fh)
}.

(** * Stability under later writes *)

Lemma at_handle_app c d h : handle_in c h → at_handle (c ++ d) h = at_handle c h.
Proof.
  unfold handle_in, at_handle, FILE_HEADER_REGION_SIZE, block_handle_ok, is_u32.
  intros (? & ? & ? & ? & ?). rewrite drop_app_le, take_app_le by len_lia. done.
Qed.

Lemma handle_in_app c d h : handle_in c h → handle_in (c ++ d) h.
Proof. unfold handle_in. intros (? & ? & ?). split_and!; [done|len_lia|done]. Qed.

(** The header is written over the reserved region, below every block. *)
Lemma at_handle_overwrite c d h :
  handle_in c h → len d ≤ FILE_HEADER_REGION_SIZE → at_handle (overwrite c d 0) h = at_handle c h.
Proof.
  unfold handle_in, at_handle, FILE_HEADER_REGION_SIZE, block_handle_ok, is_u32, overwrite.
  intros (? & ? & ? & ? & ?) Hd. change (Z.to_nat 0) with 0%nat. rewrite take_0. cbn [app]. f_equal.
  rewrite drop_app_ge by lia. rewrite drop_drop. f_equal. lia.
Qed.

Lemma len_overwrite c d : len d ≤ len c → len (overwrite c d 0) = len c.
Proof. intros. unfold overwrite. change (Z.to_nat 0) with 0%nat. rewrite take_0. cbn [app]. len_lia. Qed.

Lemma handle_in_overwrite c d h : len d ≤ len c → handle_in c h → handle_in (overwrite c d 0) h.
Proof. intros Hd. unfold handle_in. by rewrite len_overwrite. Qed.

Section Stable.
Context `{Crc32c} `{AesGcm} (crypto : option EncryptionCtx).

Lemma indexes_stable c c' chunk e :
  (∀ h, handle_in c h → handle_in c' h ∧ at_handle c' h = at_handle c h) →
  indexes crypto c chunk e → indexes crypto c' chunk e.
Proof.
  intros Hst [[Hin (plain & Hs & Ho)] Hl]. destruct (Hst _ Hin) as [Hin' E].
  split; [|done]. split; [done|]. exists plain. by rewrite E.
Qed.

Lemma indexes_app c d chunk e : indexes crypto c chunk e → indexes crypto (c ++ d) chunk e.
Proof. apply indexes_stable. intros h Hh. auto using handle_in_app, at_handle_app. Qed.

Lemma indexes_overwrite c d chunk e :
  len d ≤ len c → len d ≤ FILE_HEADER_REGION_SIZE →
  indexes crypto c chunk e → indexes crypto (overwrite c d 0) chunk e.
Proof. intros ??. apply indexes_stable. intros h Hh. auto using handle_in_overwrite, at_handle_overwrite. Qed.
End Stable.

(** * Builders *)

Lemma builder_add_all_app b rs rs' :
  builder_add_all b (rs ++ rs') = (b' ← builder_add_all b rs; builder_add_all b' rs').
Proof.
  revert b. induction rs as [|r rs IH]; intros b; [done|]. cbn [app builder_add_all].
  destruct (builder_add b _ _ _ _); cbn [mbind outcome_bind]; auto.
Qed.

Lemma record_small_fits r : record_small r → record_fits r.
Proof. unfold record_small, record_fits, is_u32, is_u64. lia. Qed.

Lemma len_enc_record_small shared r :
  record_small r → 0 ≤ shared ≤ len (br_key r) →
  len (enc_record shared r) ≤ len (br_key r) + len (br_value r) + 24.
Proof.
  intros [Hr _] Hs. unfold enc_record. len_simpl.
  pose proof (len_varint_u32 shared). pose proof (len_varint_u32 (len (br_key r) - shared)).
  pose proof (len_varint_u32 (len (br_value r))). unfold is_u32 in *. lia.
Qed.

Lemma builder_add_all_buffer b rs b' :
  Forall record_fits rs → builder_add_all b rs = Ok b' →
  bb_buffer b' = bb_buffer b ++ enc_records (bb_last_key b) (bb_counter b) rs.
Proof.
  intros Hrs. revert b. induction Hrs as [|r rs Hr _ IH]; intros b; cbn [builder_add_all enc_records].
  { intros [= <-]. by rewrite app_nil_r. }
  rewrite enc_record_builder by done. cbn [mbind outcome_bind]. intros E%IH.
  cbn [bb_buffer bb_last_key bb_counter] in E. by rewrite E, app_assoc.
Qed.

(** The builder after [rs], which has [finish]ed none of them. *)
Definition built (rs : list BlockRecord) (b : BlockBuilder) : Prop :=
  Forall record_small rs ∧ builder_add_all builder_new rs = Ok b.

Lemma built_nil : built [] builder_new.
Proof. done. Qed.

Lemma built_buffer rs b : built rs b → bb_buffer b = enc_records [] RESTART_INTERVAL rs.
Proof.
  intros [Hrs Hadd]. apply builder_add_all_buffer in Hadd; [done|].
  eapply Forall_impl; [done|apply record_small_fits].
Qed.

Lemma built_snoc rs b r :
  built rs b → record_small r →
  ∃ b', builder_add b (br_key r) (br_value r) (br_seqno r) (br_op r) = Ok b' ∧
    built (rs ++ [r]) b' ∧
    len (bb_buffer b') ≤ len (bb_buffer b) + len (br_key r) + len (br_value r) + 24.
Proof.
  intros [Hrs Hadd] Hr. rewrite enc_record_builder by (by apply record_small_fits).
  pose proof (shared_with_range (bb_last_key b) (bb_counter b) r) as Hsh.
  pose proof (len_enc_record_small _ r Hr Hsh) as Hlen.
  eexists. split_and!; [done| |cbn [bb_buffer]; len_lia].
  split; [by apply Forall_app_2; [|constructor]|].
  rewrite builder_add_all_app, Hadd. cbn [mbind outcome_bind builder_add_all].
  by rewrite enc_record_builder by (by apply record_small_fits).
Qed.

Lemma built_empty rs b : built rs b → builder_is_empty b = true ↔ rs = [].
Proof.
  intros Hb. unfold builder_is_empty. rewrite (built_buffer _ _ Hb).
  destruct rs as [|r rs]; cbn [enc_records]; [done|].
  pose proof (len_enc_record (shared_with [] RESTART_INTERVAL r) r).
  destruct (enc_record _ r); [cbn in *; lia|done].
Qed.

Lemma length_enc_records_12 prev counter rs :
  (12 * length rs ≤ length (enc_records prev counter rs))%nat.
Proof.
  revert prev counter. induction rs as [|r rs IH]; intros prev counter; cbn [enc_records length]; [lia|].
  rewrite length_app. pose proof (len_enc_record (shared_with prev counter r) r).
  specialize (IH (br_key r) (next_counter counter)). lia.
Qed.

(** The trailing checksum of a block. *)
Definition tail_u32 (plain : bytes) : Prop :=
  is_u32 (le_val (drop (Z.to_nat (len plain - 4)) plain)).

(** A finished builder's bytes open as a block of its records. *)
Lemma built_finish `{Crc32cLaws} rs b :
  built rs b → len (bb_buffer b) < 2 ^ 31 →
  ∃ bytes, builder_finish b = Ok (bytes, builder_new) ∧ opens_as bytes rs ∧
    8 ≤ len bytes ≤ 2 * len (bb_buffer b) + 8 ∧ tail_u32 bytes.
Proof.
  intros Hb Hlen. pose proof (built_buffer _ _ Hb) as Hbuf. destruct Hb as [Hrs Hadd].
  assert (Forall record_fits rs) as Hfits by (eapply Forall_impl; [done|apply record_small_fits]).
  destruct (build_open rs Hfits) as (b' & bytes & r & Hadd' & Hfin & Hopen & Hof); [rewrite <-Hbuf; lia|].
  rewrite Hadd in Hadd'. injection Hadd' as <-. exists bytes. split; [done|]. split; [exists r; rewrite <-Hbuf; split_and!; (done || lia)|].
  destruct (builder_add_all_ok builder_new rs Hfits) as (b' & Hadd' & _ & Hres);
    [cbn [builder_new bb_buffer bb_last_key bb_counter length]; rewrite <-Hbuf; lia|].
  rewrite Hadd in Hadd'. injection Hadd' as <-.
  change (bb_restarts b = restart_offsets 0 [] RESTART_INTERVAL rs) in Hres.
  pose proof (length_restart_offsets 0 [] RESTART_INTERVAL rs).
  pose proof (length_enc_records_12 [] RESTART_INTERVAL rs) as H12. rewrite <-Hbuf in H12.
  unfold builder_finish in Hfin. rewrite try_u32_ok in Hfin by (rewrite Hres; unfold is_u32; lia).
  cbn [expect mbind outcome_bind] in Hfin. injection Hfin as <-.
  split; [rewrite !length_app, !length_le_bytes, length_concat_le4, Hres; lia|].
  unfold tail_u32. rewrite length_app, length_le_bytes, drop_app_len by lia.
  rewrite le_val_bytes; apply crc_hash_u32.
Qed.

(** * The invariant *)

Section Spec.
Context `{Crc32cLaws} `{Xxh3} `{AesGcmLaws} {F W : Type} `{FileLaws F W}.
Context (crypto : option EncryptionCtx) (Hcrypto : crypto_ok crypto).
Context (f : F) (alg : Algorithm).

Let faulty (_ : Error) (_ : SstWriter F * W) : Prop := write_faults F W.

(** The file behind the writer: whole pages, as long as the counter says. *)
Record file_ok (s : SstWriter F * W) : Prop := {
  fo_file : sw_file s.1 = f;
  fo_crypto : sw_crypto s.1 = crypto;
  fo_len : sw_bytes_written s.1 = len (contents f s.2);
  fo_aligned : sw_bytes_written s.1 mod BLOCK_ALIGNMENT = 0;
  fo_low : FILE_HEADER_REGION_SIZE ≤ sw_bytes_written s.1
}.

(** After the records of [chunks], sealed, and [cur], still in the builder,
    whose buffer is at most [B] bytes. *)
Record sst_inv (B : Z) (chunks : list (list BlockRecord)) (cur : list BlockRecord)
    (s : SstWriter F * W) : Prop := {
  si_file : file_ok s;
  si_alg : sw_checksum_alg s.1 = alg;
  si_written : sw_bytes_written s.1 ≤ FILE_HEADER_REGION_SIZE + 2 ^ 33 * len chunks;
  si_index : Forall2 (indexes crypto (contents f s.2)) chunks (sw_pending_index s.1);
  si_built : built cur (sw_data_builder s.1);
  si_block_size : 0 ≤ sw_block_size s.1 ≤ 2 ^ 29;
  si_buffer : len (bb_buffer (sw_data_builder s.1)) ≤ B;
  si_last : sw_last_key s.1 = default [] (last (br_key <$> cur));
  si_bloom : ∀ b, sw_bloom s.1 = Some b → filter_covers b (concat chunks ++ cur);
  si_entries : sw_num_entries s.1 = len (concat chunks ++ cur);
  si_blocks : sw_num_blocks s.1 = len chunks;
  si_min : sw_min_seqno s.1 = min_seqno_of (concat chunks ++ cur);
  si_max : sw_max_seqno s.1 = max_seqno_of (concat chunks ++ cur)
}.

(** ** Blocks *)

Lemma encode_block_ok off plain :
  8 ≤ len plain → len plain + 16 < 2 ^ 32 → tail_u32 plain →
  ∃ od ck, encode_block crypto off plain = Ok (od, ck) ∧ sealed crypto off plain od ∧
    len plain ≤ len od ≤ len plain + 16 ∧ is_u32 ck.
Proof.
  intros H8 Hlen Htail. unfold encode_block, sealed, crypto_ok in *. destruct crypto as [ctx|].
  - unfold aead_seal at 1 2.
    destruct (aes_encrypt_ok (cipher (ec_aead ctx)) (nonce_bytes (derive_block_nonce off))
      (block_aad (ec_sstable_id ctx) off) plain) as [ct E]; [done|by len_simpl| |lia|].
    { unfold block_aad. len_lia. }
    rewrite E. pose proof (aes_encrypt_len _ _ _ _ _ E) as Hl. unfold TAG_LEN in *.
    unfold debug_assert. decide_bool. exists ct, 0. split_and!; [done|done|lia..|done].
  - unfold usize_sub. decide_bool. cbn [mbind outcome_bind]. rewrite slice_from_ok by lia.
    cbn [mbind outcome_bind]. eexists plain, _. split_and!; [done|done|lia..|done].
Qed.

Lemma wp_align s :
  sw_file s.1 = f → sw_bytes_written s.1 = len (contents f s.2) → sw_bytes_written s.1 < 2 ^ 62 + 2 ^ 32 →
  wp align_to_block_boundary faulty (λ _ s', ∃ n,
    s'.1 = sw_set_written n s.1 ∧ n mod BLOCK_ALIGNMENT = 0 ∧
    sw_bytes_written s.1 ≤ n < sw_bytes_written s.1 + BLOCK_ALIGNMENT ∧
    contents f s'.2 = contents f s.2 ++ zeros (n - sw_bytes_written s.1)) s.
Proof.
  intros Hf Hw Hmax. destruct s as [sw w]. cbn [fst snd] in *. unfold align_to_block_boundary, BLOCK_ALIGNMENT.
  apply wp_bind, wp_get. pose proof (Z.mod_pos_bound (sw_bytes_written sw) 4096 ltac:(lia)) as Hrem.
  destruct (Z.eqb_spec (sw_bytes_written sw mod 4096) 0) as [E|E]; cbn [negb].
  - apply wp_ret. exists (sw_bytes_written sw). cbn [fst snd]. split_and!; [by destruct sw|lia..|].
    rewrite Z.sub_diag. by rewrite app_nil_r.
  - apply wp_bind, wp_on_snd. rewrite Hf.
    apply wp_append; [rewrite len_zeros by lia; unfold MAX_FILE_SIZE; lia| |done]. intros w' Hc _.
    apply wp_on_fst, wp_modify. rewrite len_zeros by lia.
    exists (sw_bytes_written sw + (4096 - sw_bytes_written sw mod 4096)). cbn [fst snd].
    split_and!; [done| |lia..|].
    + pose proof (Z.div_mod (sw_bytes_written sw) 4096).
      replace (_ + _) with ((sw_bytes_written sw / 4096 + 1) * 4096) by lia. by apply Z.mod_mul.
    + rewrite Hc. do 2 f_equal. lia.
Qed.

(** A block goes where the counter points, and pages stay whole. *)
Lemma wp_write_block plain s :
  file_ok s → sw_bytes_written s.1 < 2 ^ 62 →
  8 ≤ len plain → len plain + 16 < 2 ^ 32 → tail_u32 plain →
  wp (write_block plain) faulty (λ h s', ∃ od pad n,
    s'.1 = sw_set_written n s.1 ∧ file_ok s' ∧ n ≤ sw_bytes_written s.1 + 2 ^ 33 ∧
    contents f s'.2 = contents f s.2 ++ od ++ pad ∧
    sealed crypto (sw_bytes_written s.1) plain od ∧
    bh_offset h = sw_bytes_written s.1 ∧ bh_length h = len od ∧ block_handle_ok h) s.
Proof.
  intros [Hf Hcr Hl Ha Hlow] Hmax H8 Hlen Htail. destruct s as [sw w]. cbn [fst snd] in *.
  unfold write_block. apply wp_bind, wp_get.
  destruct (encode_block_ok (sw_bytes_written sw) plain H8 Hlen Htail) as (od & ck & Henc & Hs & Hod & Hck).
  apply wp_bind. rewrite Hcr. eapply wp_lift_Ok; [exact Henc|].
  apply wp_bind, wp_on_snd. rewrite Hf. apply wp_append; [unfold MAX_FILE_SIZE; lia| |done]. intros w1 Hc1 _.
  apply wp_bind, wp_on_fst, wp_modify. apply wp_bind.
  eapply wp_lift_Ok; [by rewrite try_u32_ok by (unfold is_u32; lia)|]. apply wp_bind.
  eapply wp_mono; [apply wp_align; [done|..]| done |].
  { cbn [fst snd sw_set_written sw_bytes_written]. rewrite Hc1. len_lia. }
  { cbn [fst snd sw_set_written sw_bytes_written]. lia. }
  intros _ [sw2 w2] (n & Hsw & Hn & Hrange & Hc2).
  cbn [fst snd sw_set_written sw_bytes_written] in *. subst sw2. apply wp_ret.
  unfold BLOCK_ALIGNMENT, FILE_HEADER_REGION_SIZE in *.
  exists od, (zeros (n - (sw_bytes_written sw + len od))), n. rewrite Hc1 in Hc2.
  split_and!; try done; [|lia|cbn [snd]; by rewrite Hc2, app_assoc|].
  - split; cbn [fst snd sw_set_written sw_bytes_written sw_file sw_crypto]; try done.
    + rewrite Hc2, !length_app, !Nat2Z.inj_add, len_zeros by lia. lia.
    + unfold FILE_HEADER_REGION_SIZE. lia.
  - unfold block_handle_ok, is_u64, is_u32. cbn. unfold is_u32 in Hck. lia.
Qed.

Lemma at_handle_next c od pad h :
  bh_offset h = len c → bh_length h = len od → at_handle (c ++ od ++ pad) h = od.
Proof. intros E1 E2. unfold at_handle. by rewrite E1, E2, drop_app_len, take_app_len. Qed.

Lemma at_handle_end c od h :
  bh_offset h = len c → bh_length h = len od → at_handle (c ++ od) h = od.
Proof. intros E1 E2. rewrite <-(app_nil_r od) at 1. by apply at_handle_next. Qed.

Lemma wp_flush_block B B' chunks cur s :
  sst_inv B chunks cur s → len chunks < 2 ^ 25 → 0 ≤ B' → B ≤ 2 ^ 29 + 2 ^ 30 + 24 →
  wp flush_block faulty (λ _ s',
    sw_block_size s'.1 = sw_block_size s.1 ∧ sw_bloom s'.1 = sw_bloom s.1 ∧
    sst_inv B' (if decide (cur = []) then chunks else chunks ++ [cur]) [] s') s.
Proof.
  intros [Hfile Halg Hw Hidx Hb Hbs Hbuf Hlast Hbl Hen Hnb Hmin Hmax] Hch HB' HB.
  destruct s as [sw w]. unfold flush_block. apply wp_bind, wp_get. cbn [fst snd] in *.
  destruct (builder_is_empty (sw_data_builder sw)) eqn:He.
  { apply (built_empty _ _ Hb) in He as ->. apply wp_ret. rewrite decide_True by done.
    split; [done|]. split; [done|]. split; try done. cbn [fst]. rewrite (built_buffer _ _ Hb). done. }
  assert (cur ≠ []) as Hne by (intros E; by rewrite (proj2 (built_empty _ _ Hb) E) in He).
  rewrite decide_False by done.
  destruct (built_finish _ _ Hb) as (plain & Hfin & Hopen & Hlen & Htail); [lia|].
  apply wp_bind. eapply wp_lift_Ok; [exact Hfin|]. apply wp_bind, wp_on_fst, wp_modify.
  apply wp_bind. unfold FILE_HEADER_REGION_SIZE in *.
  eapply wp_mono; [apply wp_write_block| done |]; try (cbn [fst sw_set_builder sw_bytes_written]; lia); try done.
  { destruct Hfile; by split. }
  intros h [sw2 w2] (od & pad & n & Hsw & Hf2 & Hn & Hc & Hs & Hho & Hhl & Hhok).
  cbn [fst snd sw_set_builder sw_bytes_written] in *. subst sw2.
  apply wp_on_fst, wp_modify. split; [done|]. split; [done|].
  pose proof (fo_len _ Hfile) as Hl. pose proof (fo_low _ Hfile) as Hlow. cbn [fst snd] in *.
  assert (concat (chunks ++ [cur]) ++ [] = concat chunks ++ cur) as Hcat
    by (by rewrite concat_app, app_nil_r; cbn; rewrite app_nil_r).
  split; rewrite ?Hcat; cbn [fst snd sw_set_index sw_set_written sw_set_builder sw_file sw_checksum_alg
    sw_bytes_written sw_pending_index sw_data_builder sw_block_size sw_last_key sw_bloom sw_num_entries
    sw_num_blocks sw_min_seqno sw_max_seqno]; try done.
  - destruct Hf2; by split.
  - unfold FILE_HEADER_REGION_SIZE. len_lia.
  - apply Forall2_app; [|constructor; [|done]].
    + rewrite Hc. eapply Forall2_impl; [done|]. intros; by apply indexes_app.
    + split; [|cbn; rewrite Hlast; destruct (last (br_key <$> cur)) eqn:E; [done|]; 
        apply last_None, fmap_nil_inv in E; done].
      rewrite Hc. split; cbn [snd].
      * unfold handle_in, FILE_HEADER_REGION_SIZE in *. split_and!; [lia|len_lia|done].
      * exists plain. rewrite at_handle_next, Hho by (done || lia). done.
  - len_lia.
Qed.

Lemma filter_covers_insert b rs r :
  filter_covers b rs →
  ∃ b', bloom_insert b (br_key r) = Ok b' ∧ filter_covers b' (rs ++ [r]).
Proof.
  intros (Hb & Hsize & Hin). destruct (insert_spec b (br_key r) Hb) as (b' & Hins & Hb' & Hnb & _).
  destruct (insert_in_filter b (br_key r) b' Hb Hins) as [Hnew Hold].
  exists b'. split; [done|]. split_and!; [done|by rewrite Hnb|].
  intros x [Hx| ->%list_elem_of_singleton]%elem_of_app; [by apply Hold, Hin|done].
Qed.

Lemma last_key_le (cur : list BlockRecord) r :
  Forall (λ x, key_le x r) cur →
  bytes_eqb (default [] (last (br_key <$> cur))) [] ||
  bytes_leb (default [] (last (br_key <$> cur))) (br_key r) = true.
Proof.
  intros Hcur. destruct (last (br_key <$> cur)) as [k|] eqn:E; cbn [default from_option id]; [|done].
  apply last_Some_elem_of, list_elem_of_fmap in E as (x & -> & Hx).
  rewrite Forall_forall in Hcur. by rewrite (Hcur x Hx), orb_true_r.
Qed.

(** Adding a record: either it stays in the builder or it seals a block. *)
Lemma wp_sst_add chunks cur s r :
  sst_inv (sw_block_size s.1) chunks cur s → record_small r → Forall (λ x, key_le x r) cur →
  len chunks < 2 ^ 25 →
  wp (sst_add (br_key r) (br_value r) (br_seqno r) (br_op r)) faulty (λ _ s', ∃ chunks' cur',
    sst_inv (sw_block_size s'.1) chunks' cur' s' ∧
    concat chunks' ++ cur' = concat chunks ++ cur ++ [r] ∧ len chunks' ≤ len chunks + 1) s.
Proof.
  intros [Hfile Halg Hw Hidx Hb Hbs Hbuf Hlast Hbl Hen Hnb Hmin Hmax] Hr Hle Hch.
  destruct s as [sw w]. unfold sst_add. apply wp_bind, wp_get. cbn [fst snd] in *.
  apply wp_bind. eapply wp_lift_Ok; [by rewrite Hlast, (last_key_le cur r Hle)|].
  destruct (built_snoc _ _ _ Hb Hr) as (b & Hadd & Hb' & Hblen).
  apply wp_bind. eapply wp_lift_Ok; [exact Hadd|]. apply wp_bind, wp_on_fst, wp_modify.
  apply wp_bind. set (sw1 := sw_set_builder b sw).
  apply (wp_mono _ faulty faulty (λ _ s', ∃ bl,
    s' = (sw_set_bloom bl sw1, w) ∧ ∀ f', bl = Some f' → filter_covers f' (concat chunks ++ cur ++ [r]))); [|done|].
  { destruct (sw_bloom sw) as [bl|] eqn:Hsb.
    - destruct (filter_covers_insert bl _ r (Hbl bl eq_refl)) as (bl' & Hins & Hcov).
      apply wp_bind. eapply wp_lift_Ok; [exact Hins|]. apply wp_on_fst, wp_modify.
      exists (Some bl'). split; [done|]. intros f' [= <-]. by rewrite app_assoc.
    - apply wp_ret. exists None. split; [|done]. unfold sw1, sw_set_bloom, sw_set_builder. by destruct sw; cbn in *; subst. }
  intros _ s' (bl & -> & Hcov). apply wp_bind, wp_on_fst, wp_modify. apply wp_bind, wp_get.
  set (sw2 := sw_count _ _ _). destruct Hr as [Hr Hseq].
  assert (∀ B, len (bb_buffer b) ≤ B → sst_inv B chunks (cur ++ [r]) (sw2, w)) as Hinv.
  { intros B HB. split; rewrite ?app_assoc; unfold sw2, sw1; cbn [fst snd sw_set_index sw_set_written sw_set_builder sw_set_bloom sw_count sw_file sw_checksum_alg
    sw_bytes_written sw_pending_index sw_data_builder sw_block_size sw_last_key sw_bloom sw_num_entries
    sw_num_blocks sw_min_seqno sw_max_seqno]; try done.
    - destruct Hfile; by split.
    - by rewrite fmap_app, last_app.
    - by rewrite <-app_assoc.
    - rewrite Hen. len_lia.
    - rewrite Hmin. unfold min_seqno_of. by rewrite (fmap_app _ _ [r]), foldl_app.
    - rewrite Hmax. unfold max_seqno_of. by rewrite (fmap_app _ _ [r]), foldl_app. }
  destruct (Z.leb_spec (sw_block_size sw2) (estimated_size (sw_data_builder sw2))) as [Hfull|Hroom].
  - eapply wp_mono; [apply (wp_flush_block (2 ^ 29 + 2 ^ 30 + 24) (sw_block_size sw2) chunks (cur ++ [r]));
      [apply Hinv; lia|done| | ]| done |].
    + unfold sw2, sw1; cbn. lia.
    + lia.
    + intros _ s' (Hbs' & _ & Hi). rewrite decide_False in Hi by (by intros [_ ?]%app_nil).
      exists (chunks ++ [cur ++ [r]]), []. rewrite Hbs'. split; [done|].
      rewrite concat_app, app_nil_r. cbn. rewrite app_nil_r. split; [done|len_lia].
  - apply wp_ret. exists chunks, (cur ++ [r]). cbn [fst]. split_and!; [|done|lia].
    apply Hinv. unfold estimated_size, BLOCK_TRAILER_SIZE in Hroom.
    change (sw_data_builder sw2) with b in Hroom. lia.
Qed.

Lemma wp_sst_add_all rs chunks cur s :
  sst_inv (sw_block_size s.1) chunks cur s → Forall record_small rs →
  StronglySorted key_le (concat chunks ++ cur ++ rs) → len chunks + len rs < 2 ^ 25 →
  wp (sst_add_all rs) faulty (λ _ s', ∃ chunks' cur',
    sst_inv (sw_block_size s'.1) chunks' cur' s' ∧
    concat chunks' ++ cur' = concat chunks ++ cur ++ rs ∧ len chunks' ≤ len chunks + len rs) s.
Proof.
  intros Hinv Hrs. revert chunks cur s Hinv. induction Hrs as [|r rs Hr _ IH]; intros chunks cur s Hinv Hsort Hch.
  { apply wp_ret. exists chunks, cur. rewrite app_nil_r. split_and!; [done|done|lia]. }
  cbn [sst_add_all]. apply wp_bind. cbn [length] in *.
  eapply wp_mono; [apply (wp_sst_add chunks cur s r Hinv Hr)| done |].
  - rewrite app_assoc in Hsort. apply sorted_before in Hsort. by apply Forall_app in Hsort as [_ ?].
  - lia.
  - intros _ s' (chunks' & cur' & Hinv' & Hcat & Hlen).
    assert (concat chunks' ++ cur' ++ rs = concat chunks ++ cur ++ r :: rs) as Hcat'.
    { by rewrite app_assoc, Hcat, <-!app_assoc. }
    eapply wp_mono; [apply (IH chunks' cur' s' Hinv')| done |].
    + by rewrite Hcat'.
    + lia.
    + intros _ s2 (ch & cu & Hi & Hc & Hl). exists ch, cu. split_and!; [done|by rewrite Hc|lia].
Qed.

(** ** The index *)

Definition index_size (entries : list (bytes * BlockHandle)) : Z :=
  foldr (λ e n, len e.1 + 40 + n) 0 entries.

Lemma len_enc_index prev counter entries :
  Forall record_small (index_record <$> entries) →
  len (enc_records prev counter (index_record <$> entries)) ≤ index_size entries.
Proof.
  revert prev counter. induction entries as [|e entries IH]; intros prev counter Hs; [done|].
  rewrite fmap_cons in *. cbn [enc_records index_size foldr]. inversion Hs as [|? ? He Hes]; subst.
  pose proof (len_enc_record_small _ _ He (shared_with_range prev counter (index_record e))) as Hl.
  specialize (IH (br_key (index_record e)) (next_counter counter) Hes).
  cbn [index_record br_key br_value] in *. rewrite length_block_handle in Hl.
  rewrite length_app. unfold index_size in IH. lia.
Qed.

Lemma keys_size_app l l' : keys_size (l ++ l') = keys_size l + keys_size l'.
Proof. unfold keys_size. induction l; cbn [app foldr]; lia. Qed.

Lemma keys_size_nonneg l : 0 ≤ keys_size l.
Proof. unfold keys_size. induction l; cbn [foldr]; lia. Qed.

(** The last keys of the chunks are among the keys: the index is no larger. *)
Lemma index_size_keys c chunks entries :
  Forall2 (indexes crypto c) chunks entries → index_size entries ≤ keys_size (concat chunks).
Proof.
  induction 1 as [|chunk e chunks entries [_ Hl] _ IH]; cbn [index_size foldr concat]; [cbn; lia|].
  apply last_Some in Hl as [ks Hl]. destruct (exists_last (l := chunk)) as (l & x & ->).
  { intros ->. by destruct ks. }
  rewrite fmap_app in Hl. apply app_inj_tail in Hl as [_ Hx]. cbn in Hx. subst.
  rewrite !keys_size_app. pose proof (keys_size_nonneg l).
  change (keys_size [x]) with (len (br_key x) + 64 + 0). unfold index_size in IH. rewrite Hx. lia.
Qed.

Lemma index_record_small entries :
  index_size entries < 2 ^ 30 → Forall record_small (index_record <$> entries).
Proof.
  intros Hs. apply Forall_fmap. induction entries as [|e entries IH]; [done|].
  cbn [index_size foldr] in Hs. fold (index_size entries) in Hs.
  assert (0 ≤ index_size entries) by (clear; unfold index_size; induction entries; cbn [foldr]; lia).
  constructor; [|apply IH; lia]. unfold compose, record_small, is_u64. cbn [index_record br_key br_value br_seqno].
  rewrite length_block_handle. lia.
Qed.

(** What the blocks behind the data are appended to: the counter agrees with
    the file, which need not end on a page. *)
Definition tail_ok (s : SstWriter F * W) : Prop :=
  sw_file s.1 = f ∧ sw_bytes_written s.1 = len (contents f s.2) ∧
  FILE_HEADER_REGION_SIZE ≤ sw_bytes_written s.1.

Lemma wp_write_filter rs s :
  tail_ok s → sw_bytes_written s.1 < 2 ^ 62 →
  (∀ b, sw_bloom s.1 = Some b → filter_covers b rs) →
  wp write_filter faulty (λ h s', ∃ d n,
    s'.1 = sw_set_written n (sw_set_bloom None s.1) ∧ tail_ok s' ∧
    n ≤ sw_bytes_written s.1 + 2 ^ 32 ∧
    contents f s'.2 = contents f s.2 ++ d ∧ handle_in (contents f s'.2) h ∧
    (bh_length h = 0 ∨ ∃ b, at_handle (contents f s'.2) h = bloom_header b ++ blocks b ∧
       filter_covers b rs ∧ 0 < bh_length h)) s.
Proof.
  intros (Hf & Hl & Hlow) Hmax Hbl. destruct s as [sw w]. cbn [fst snd] in *.
  unfold write_filter. apply wp_bind, wp_get. unfold tail_ok, FILE_HEADER_REGION_SIZE in *.
  destruct (sw_bloom sw) as [b|] eqn:Hsb.
  - pose proof (Hbl b eq_refl) as (Hb & Hsize & Hin). unfold HEADER_SIZE in Hsize.
    pose proof (bo_len _ Hb) as Hbl'. pose proof (bo_blocks _ Hb). unfold BLOCK_BYTES in *.
    assert (len (bloom_header b ++ blocks b) = 16 + num_blocks b * 64) as Hel
      by (rewrite length_app, length_bloom_header; lia).
    apply wp_bind, wp_on_fst, wp_modify. apply wp_bind. eapply wp_lift_Ok; [by apply bloom_encode_ok|].
    apply wp_bind, wp_on_snd. rewrite Hf. apply wp_append; [unfold MAX_FILE_SIZE; lia| |done]. intros w' Hc _.
    apply wp_bind, wp_on_fst, wp_modify. apply wp_bind.
    eapply wp_lift_Ok; [by rewrite try_u32_ok by (unfold is_u32; lia)|]. apply wp_ret.
    exists (bloom_header b ++ blocks b), (sw_bytes_written sw + len (bloom_header b ++ blocks b)).
    cbn [fst snd sw_set_written sw_set_bloom sw_bytes_written sw_file].
    split_and!; try done; [rewrite Hc; len_lia|lia|lia| |].
    + rewrite Hc. unfold handle_in, block_handle_ok, is_u64, is_u32, FILE_HEADER_REGION_SIZE. cbn [bh_offset bh_length bh_checksum].
      rewrite (length_app (contents f w)). lia.
    + right. exists b. rewrite Hc. cbn [bh_length].
      rewrite at_handle_end by done. split_and!; [done|by apply Hbl|lia].
  - apply wp_ret. exists [], (sw_bytes_written sw). cbn [fst snd sw_set_written sw_set_bloom sw_bytes_written sw_file].
    rewrite app_nil_r. split_and!; try done; [by destruct sw; cbn in *; subst|lia| |by left].
    unfold handle_in, block_handle_ok, is_u64, is_u32, FILE_HEADER_REGION_SIZE. cbn [bh_offset bh_length bh_checksum]. lia.
Qed.

Lemma wp_write_index entries s :
  tail_ok s → sw_bytes_written s.1 < 2 ^ 62 → sw_pending_index s.1 = entries →
  index_size entries < 2 ^ 30 →
  wp write_index faulty (λ h s', ∃ d n,
    s'.1 = sw_set_written n (sw_set_index [] (sw_last_key s.1) (sw_num_blocks s.1) s.1) ∧ tail_ok s' ∧
    n ≤ sw_bytes_written s.1 + 2 ^ 32 ∧
    contents f s'.2 = contents f s.2 ++ d ∧ handle_in (contents f s'.2) h ∧
    opens_as (at_handle (contents f s'.2) h) (index_record <$> entries)) s.
Proof.
  intros (Hf & Hl & Hlow) Hmax He Hsize. destruct s as [sw w]. cbn [fst snd] in *.
  pose proof (index_record_small entries Hsize) as Hsmall.
  assert (Forall record_fits (index_record <$> entries)) as Hfits
    by (eapply Forall_impl; [done|apply record_small_fits]).
  pose proof (len_enc_index [] RESTART_INTERVAL entries Hsmall) as Hlen.
  destruct (build_open _ Hfits) as (b & _ & _ & Hadd & _); [lia|].
  assert (built (index_record <$> entries) b) as Hb by (by split).
  destruct (built_finish _ _ Hb) as (plain & Hfin & Hopen & Hplen & Htail);
    [rewrite (built_buffer _ _ Hb); lia|]. rewrite (built_buffer _ _ Hb) in Hplen.
  unfold write_index, build_index_block. apply wp_bind, wp_bind, wp_get.
  apply wp_bind, wp_on_fst, wp_modify. apply wp_bind. rewrite He. eapply wp_lift_Ok; [exact Hadd|].
  apply wp_bind. eapply wp_lift_Ok; [exact Hfin|]. apply wp_ret. apply wp_bind, wp_get.
  cbn [sw_set_index sw_file sw_bytes_written]. rewrite Hf.
  apply wp_bind, wp_on_snd. apply wp_append; [unfold MAX_FILE_SIZE; lia| |done]. intros w' Hc _.
  apply wp_bind, wp_on_fst, wp_modify. apply wp_bind.
  eapply wp_lift_Ok; [unfold usize_sub; decide_bool; done|]. apply wp_bind.
  eapply wp_lift_Ok; [by apply slice_from_ok; lia|]. apply wp_bind.
  eapply wp_lift_Ok; [by rewrite try_u32_ok by (unfold is_u32; lia)|]. apply wp_ret.
  exists plain, (sw_bytes_written sw + len plain). unfold tail_ok, FILE_HEADER_REGION_SIZE in *.
  cbn [fst snd sw_set_written sw_set_index sw_bytes_written sw_file].
  split_and!; try done; [rewrite Hc; len_lia|lia|lia| |].
  - rewrite Hc. unfold tail_u32 in Htail.
    unfold handle_in, block_handle_ok, is_u64, is_u32, FILE_HEADER_REGION_SIZE in *. cbn [bh_offset bh_length bh_checksum].
    rewrite length_app. lia.
  - by rewrite Hc, at_handle_end.
Qed.

(** ** The whole table *)

Lemma overwrite_app c d e : len d ≤ len c → overwrite (c ++ e) d 0 = overwrite c d 0 ++ e.
Proof.
  intros. unfold overwrite. change (Z.to_nat 0) with 0%nat. rewrite !take_0. cbn [app].
  by rewrite drop_app_le, app_assoc by lia.
Qed.

Lemma take_overwrite c d : take (length d) (overwrite c d 0) = d.
Proof. unfold overwrite. change (Z.to_nat 0) with 0%nat. rewrite take_0. cbn [app]. apply take_app_length. Qed.

Lemma finish_image rs c chunks entries ih fh mh nb off :
  4096 ≤ len c < 2 ^ 62 → is_u64 nb → is_u64 off → concat chunks = rs →
  Forall2 (indexes crypto c) chunks entries → handle_in c ih → handle_in c fh → block_handle_ok mh →
  opens_as (at_handle c ih) (index_record <$> entries) →
  (bh_length fh = 0 ∨ ∃ b, at_handle c fh = bloom_header b ++ blocks b ∧
     filter_covers b rs ∧ 0 < bh_length fh) →
  table_image crypto alg rs (overwrite (c ++ footer_as_bytes (footer_new_signed ih fh mh))
    (file_header_as_bytes (file_header_new_signed (sst_flags crypto) CompNone alg (len rs) nb
      (if min_seqno_of rs =? U64_MAX then 0 else min_seqno_of rs) (max_seqno_of rs) off)) 0).
Proof.
  intros Hlen Hnb Hoff Hcat Hidx Hih Hfh Hmh Hindex Hfilter.
  set (hdr := file_header_as_bytes _). set (ft := footer_as_bytes _).
  assert (length hdr = 64%nat) as Hhdr by apply length_file_header.
  assert (length ft = 64%nat) as Hft by apply length_footer.
  assert (∀ h, handle_in c h → handle_in (overwrite (c ++ ft) hdr 0) h ∧
    at_handle (overwrite (c ++ ft) hdr 0) h = at_handle c h) as Hst.
  { intros h Hh. pose proof (handle_in_app c ft h Hh) as Hh'. unfold FILE_HEADER_REGION_SIZE in *. split.
    - apply handle_in_overwrite; [len_lia|done].
    - rewrite at_handle_overwrite, at_handle_app by (done || unfold FILE_HEADER_REGION_SIZE; lia). done. }
  split.
  - rewrite len_overwrite by len_lia. len_lia.
  - exists nb, off. split_and!; [done..|]. rewrite <-Hhdr. apply take_overwrite.
  - rewrite overwrite_app in * by lia. exists (overwrite c hdr 0), ih, fh, mh, chunks, entries.
    destruct (Hst ih Hih) as [? ->], (Hst fh Hfh) as [? ->]. split_and!; try done.
    eapply Forall2_impl; [exact Hidx|]. intros chunk e He. by apply (indexes_stable _ c).
Qed.

Lemma wp_sst_finish chunks cur s rs :
  sst_inv (sw_block_size s.1) chunks cur s → concat chunks ++ cur = rs → len chunks < 2 ^ 25 →
  keys_size rs < 2 ^ 30 →
  wp sst_finish faulty (λ f' s', f' = f ∧ table_image crypto alg rs (contents f s'.2)) s.
Proof.
  intros Hinv Hrs Hch Hks. unfold sst_finish. apply wp_bind.
  eapply wp_mono; [apply (wp_flush_block _ 0 _ _ _ Hinv Hch)| done |].
  { lia. } { pose proof (si_block_size _ _ _ _ Hinv). lia. }
  intros _ [sw w] (_ & _ & Hi). set (chunks' := if decide _ then _ else _) in Hi.
  assert (concat chunks' = rs) as Hcat.
  { unfold chunks'. destruct (decide (cur = [])) as [->|]; [by rewrite app_nil_r in Hrs|].
    rewrite concat_app. cbn. by rewrite app_nil_r. }
  assert (len chunks' ≤ len chunks + 1) as Hch' by (unfold chunks'; case_decide; len_lia).
  clearbody chunks'. destruct Hi as [Hfile Halg Hw Hidx _ _ _ _ Hbl Hen Hnb Hmin Hmax].
  rewrite app_nil_r, Hcat in *. destruct Hfile as [Hf Hcr Hl _ Hlow]. cbn [fst snd] in *.
  unfold FILE_HEADER_REGION_SIZE in *.
  apply wp_bind, wp_get. apply wp_bind. eapply wp_mono; [apply (wp_write_filter rs)| done |].
  { by split. } { cbn [fst]. lia. } { done. }
  intros fh [sw1 w1] (d1 & n1 & Hsw1 & Ht1 & Hn1 & Hc1 & Hin1 & Hfilter). cbn [fst snd] in *. subst sw1.
  apply wp_bind, wp_get. apply wp_bind.
  assert (Forall2 (indexes crypto (contents f w1)) chunks' (sw_pending_index sw)) as Hidx1.
  { rewrite Hc1. eapply Forall2_impl; [done|]. intros; by apply indexes_app. }
  eapply wp_mono; [apply (wp_write_index (sw_pending_index sw))| done |]; [done|cbn; lia|done| |].
  { pose proof (index_size_keys _ _ _ Hidx1) as Hk. rewrite Hcat in Hk. lia. }
  intros ih [sw2 w2] (d2 & n2 & Hsw2 & (Hf2 & Hl2 & _) & Hn2 & Hc2 & Hin2 & Hopen).
  cbn [fst snd sw_set_written sw_set_bloom sw_set_index sw_bytes_written sw_file] in *. subst sw2.
  apply wp_bind, wp_on_snd. rewrite Hf.
  apply wp_append; [cbn in Hl2; rewrite length_footer; unfold MAX_FILE_SIZE; lia| |done]. intros w3 Hc3 _.
  apply wp_bind, wp_on_fst, wp_modify. apply wp_bind, wp_on_snd.
  set (mh := {| bh_offset := n1; bh_length := 0; bh_checksum := 0 |}) in *.
  set (ft := footer_as_bytes _) in *. set (hdr := file_header_as_bytes _).
  cbn [sw_set_written sw_bytes_written] in Hl2.
  assert (4096 ≤ len (contents f w2)) by (rewrite Hc2, Hc1; len_lia).
  assert (len (contents f w3) = len (contents f w2) + 64) as Hl3
    by (rewrite Hc3, length_app; unfold ft; rewrite length_footer; lia).
  assert (len hdr = 64) as Hhdr by (unfold hdr; by rewrite length_file_header).
  apply wp_write_at; [lia|lia|unfold is_u64; lia| |done]. intros w4 Hc4 _. apply wp_ret. split; [done|].
  cbn [snd]. rewrite Hc4, Hc3. unfold hdr, ft. cbn [sw_set_written sw_set_bloom sw_crypto sw_checksum_alg
    sw_num_entries sw_num_blocks sw_min_seqno sw_max_seqno]. rewrite Hcr, Halg, Hen, Hmin, Hmax, Hnb.
  apply (finish_image _ _ chunks' (sw_pending_index sw)); try done; try (unfold is_u64; lia).
  - rewrite Hc2. eapply Forall2_impl; [done|]. intros; by apply indexes_app.
  - rewrite Hc2. by apply handle_in_app.
  - unfold block_handle_ok, is_u64, is_u32. cbn. destruct Ht1 as (_ & Hl1 & Hlow1).
    cbn [fst sw_set_written sw_bytes_written] in *. unfold FILE_HEADER_REGION_SIZE in *. lia.
  - by rewrite Hc2, at_handle_app.
Qed.

Lemma bloom_new_blocks n p b :
  bloom_new n p = Ok b → is_u8 (bits_per_key p) → 0 ≤ n * bits_per_key p < 2 ^ 34 →
  num_blocks b < 2 ^ 25 + 2.
Proof.
  unfold bloom_new, is_u8, div_ceil, BLOCK_BITS. destruct (negb _); [done|].
  case_bool; [done|]. intros [= <-] Hb Hn. cbn [num_blocks]. set (t := Z.max n 1 * bits_per_key p).
  assert (0 ≤ t ≤ 2 ^ 34) by (unfold t; nia).
  assert (0 ≤ (t + 512 - 1) / 512 < 2 ^ 25 + 2)
    by (split; [apply Z.div_pos; lia|apply Z.div_lt_upper_bound; lia]).
  rewrite try_u32_ok by (unfold is_u32; lia). cbn [default from_option id]. lia.
Qed.

(** The sizes a table may have: every length the format stores fits. *)
Definition table_fits (expected_keys : Z) (p : BloomParams) (rs : list BlockRecord) : Prop :=
  Forall record_small rs ∧ keys_size rs < 2 ^ 30 ∧
  1 ≤ num_hashes p ≤ 16 ∧ is_u8 (bits_per_key p) ∧ 0 ≤ expected_keys * bits_per_key p < 2 ^ 34.

Lemma keys_size_length rs : 64 * len rs ≤ keys_size rs.
Proof. unfold keys_size. induction rs; cbn [foldr length]; lia. Qed.

Lemma wp_create_inner expected_keys p rs w :
  contents f w = [] → table_fits expected_keys p rs →
  wp (create_inner f alg expected_keys p crypto) (λ _ _, write_faults F W)
    (λ sw w', sst_inv (sw_block_size sw) [] [] (sw, w')) w.
Proof.
  intros Hc (_ & _ & Hh & Hbits & Hcap). unfold create_inner. apply wp_bind, wp_append; [by rewrite Hc, len_zeros| |done].
  intros w' Hc' _. rewrite Hc in Hc'. apply wp_bind.
  apply (wp_mono _ (λ _ _, write_faults F W) _ (λ bl w2, w2 = w' ∧ ∀ b, bl = Some b → filter_covers b [])); [|done|].
  { destruct (Z.eqb_spec expected_keys 0); [by apply wp_ret|].
    destruct (bloom_new_ok expected_keys p Hh Hbits) as (b & Hnew & Hb & _); [unfold is_u8 in Hbits; nia|].
    apply wp_bind. eapply wp_lift_Ok; [exact Hnew|]. apply wp_ret. split; [done|]. intros b' [= <-].
    split_and!; [done| |by intros r ?%not_elem_of_nil]. unfold is_u8 in Hbits.
    pose proof (bloom_new_blocks _ _ _ Hnew Hbits Hcap). unfold BLOCK_BYTES, HEADER_SIZE. lia. }
  intros bl w2 [-> Hbl]. apply wp_ret. cbn [app] in Hc'.
  split; cbn [fst snd sw_file sw_checksum_alg sw_bytes_written sw_pending_index sw_data_builder sw_block_size
    sw_last_key sw_bloom sw_num_entries sw_num_blocks sw_min_seqno sw_max_seqno]; try done.
  - split; cbn [fst snd sw_file sw_crypto sw_bytes_written]; try done. rewrite Hc'.
    by rewrite len_zeros.
Qed.

(** Writing a table: with a store that does not fail the file is an image of
    the records, and the only error is the store's. *)
Lemma wp_write_table expected_keys p rs w :
  contents f w = [] → table_fits expected_keys p rs → StronglySorted key_le rs →
  wp (write_table f alg expected_keys p crypto rs) (λ _ _, write_faults F W)
    (λ f' w', f' = f ∧ table_image crypto alg rs (contents f w')) w.
Proof.
  intros Hc Hfits Hsort. pose proof (wp_create_inner expected_keys p rs w Hc Hfits) as Hcr.
  destruct Hfits as (Hrs & Hks & _). pose proof (keys_size_length rs).
  unfold write_table, wp in *.
  destruct (create_inner f alg expected_keys p crypto w) as [[sw|e| |] w1]; try done.
  assert (wp (_ ← sst_add_all rs; sst_finish) faulty
    (λ f' s', f' = f ∧ table_image crypto alg rs (contents f s'.2)) (sw, w1)) as Hrun.
  { apply wp_bind. eapply wp_mono; [apply (wp_sst_add_all rs [] [] (sw, w1)); try done| done |].
    - cbn [length]. lia.
    - intros _ s (chunks & cur & Hinv & Hcat & Hlen). apply (wp_sst_finish chunks cur); try done.
      cbn [length] in Hlen. lia. }
  unfold wp in Hrun. by destruct ((sst_add_all rs ≫= _) (sw, w1)) as [[f'|e| |] [sw' w']].
Qed.
End Spec.
