(* ===== verification/SstReader.v ===== *)
(** The SSTable reader: [crates/paddock-core/src/sstable/reader.rs].

    Opening a table, point lookups, the materialising scan and the streaming
    scan, over any file system; and what they return on the files the writer
    makes. *)

From S2P Require Import Prelude Varint Checksum Vfs Bloom SstFormat Block Crypto SstWriter.

(** * Data *)

Record DecryptionCtx := { dc_aead : Aead; dc_sstable_id : Z }.

Record SstReader (F : Type) := {
  tr_file : F;
  tr_header : FileHeader;
  tr_footer : Footer;
  tr_index_bytes : bytes;
  tr_bloom : option BlockedBloom;
  tr_bloom_misses_pruned : Z;
  tr_crypto : option DecryptionCtx
}.
Arguments tr_file {F} _.
Arguments tr_header {F} _.
Arguments tr_footer {F} _.
Arguments tr_index_bytes {F} _.
Arguments tr_bloom {F} _.
Arguments tr_bloom_misses_pruned {F} _.
Arguments tr_crypto {F} _.

(** The accessors.  The checksum tag is the constant the source reports. *)
Definition sst_footer {F} (t : SstReader F) : Footer := tr_footer t.
Definition sst_file_header {F} (t : SstReader F) : FileHeader := tr_header t.
Definition sst_checksum_algorithm {F} (t : SstReader F) : Algorithm := AlgCrc32c.
Definition sst_has_bloom_filter {F} (t : SstReader F) : bool := bool_decide (is_Some (tr_bloom t)).
Definition sst_is_encrypted {F} (t : SstReader F) : bool := bool_decide (is_Some (tr_crypto t)).
Definition sst_bloom_pruned_count {F} (t : SstReader F) : Z := tr_bloom_misses_pruned t.

Record LookupHit := { hit_seqno : Z; hit_op : RecordOp; hit_value : bytes }.

#[global] Instance LookupHit_eq_dec : EqDecision LookupHit.
Proof. solve_decision. Defined.

Definition into_hit (rec : BlockRecord) : LookupHit :=
  {| hit_seqno := br_seqno rec; hit_op := br_op rec; hit_value := br_value rec |}.

(** An entry of a scan. *)
Definition entry_of (rec : BlockRecord) : bytes * LookupHit := (br_key rec, into_hit rec).

Record SstStream (F : Type) := {
  ss_reader : SstReader F;
  ss_handles : list BlockHandle;
  ss_next_block : Z;
  ss_current : list (bytes * LookupHit)
}.
Arguments ss_reader {F} _.
Arguments ss_handles {F} _.
Arguments ss_next_block {F} _.
Arguments ss_current {F} _.

(** * Opening *)

Definition decode_block_handle (bytes : bytes) : outcome BlockHandle :=
  if len bytes <? BLOCK_HANDLE_SIZE
  then Err (invalid_format_static "sstable index value" "shorter than BlockHandle")
  else
    b ← slice_to bytes BLOCK_HANDLE_SIZE;
    ok_or (block_handle_from_bytes b) (invalid_format_static "sstable index value" "size mismatch").

Section Reader.
Context `{Crc32c} `{Xxh3} `{AesGcm} {F W : Type} `{VfsFile F W}.

Definition open_inner (file : F) (crypto : option DecryptionCtx) (w : W) : outcome (SstReader F) :=
  size ← vf_size file w;
  if size <? FILE_HEADER_SIZE + FOOTER_SIZE
  then Err (invalid_format_static "sstable" "file smaller than header + footer")
  else
    footer_bytes ← vf_read_at file FOOTER_SIZE (size - FOOTER_SIZE) w;
    footer ← ok_or (footer_from_bytes footer_bytes)
               (invalid_format_static "sstable footer" "size mismatch");
    if negb (footer_is_valid footer)
    then Err (corruption_static "sstable footer" "checksum / magic mismatch")
    else
      header_bytes ← vf_read_at file FILE_HEADER_SIZE 0 w;
      header ← ok_or (file_header_from_bytes header_bytes)
                 (invalid_format_static "sstable file header" "size mismatch");
      if negb (file_header_is_valid header)
      then Err (corruption_static "sstable file header"
                  "magic / version / reserved / checksum mismatch")
      else
        let file_is_encrypted := negb (Z.land (fh_flags header) ENCRYPTED =? 0) in
        match file_is_encrypted, crypto with
        | true, None =>
            Err (invalid_format_static "sstable"
                   "file is encrypted; open via SstReader::open_encrypted")
        | false, Some _ =>
            Err (invalid_format_static "sstable"
                   "file is not encrypted; open via SstReader::open")
        | _, _ =>
            let ih := ft_index_handle footer in
            index_bytes ← vf_read_at file (bh_length ih) (bh_offset ih) w;
            let fh := ft_filter_handle footer in
            bloom ← (if bh_length fh =? 0 then Ok None
                     else
                       filter_bytes ← vf_read_at file (bh_length fh) (bh_offset fh) w;
                       b ← bloom_decode filter_bytes;
                       Ok (Some b));
            Ok {| tr_file := file; tr_header := header; tr_footer := footer;
                  tr_index_bytes := index_bytes; tr_bloom := bloom;
                  tr_bloom_misses_pruned := 0; tr_crypto := crypto |}
        end.

Definition sst_open (file : F) (w : W) : outcome (SstReader F) := open_inner file None w.

Definition sst_open_encrypted (file : F) (aead_key : AeadKey) (sstable_id : Z) (w : W) :
    outcome (SstReader F) :=
  open_inner file (Some {| dc_aead := aead_new aead_key; dc_sstable_id := sstable_id |}) w.

(** * Blocks *)

(** Decryption in [read_data_block]. *)
Definition decode_disk (crypto : option DecryptionCtx) (block_off : Z) (on_disk : bytes) :
    outcome bytes :=
  match crypto with
  | Some ctx =>
      let nonce := derive_block_nonce block_off in
      let aad := block_aad (dc_sstable_id ctx) block_off in
      match aead_open (dc_aead ctx) nonce aad on_disk with
      | inl _ => Err (corruption_static "sstable data block"
                        "AEAD authentication failed (corruption or wrong key)")
      | inr plaintext =>
          _ ← debug_assert (len plaintext + TAG_LEN =? len on_disk); Ok plaintext
      end
  | None => Ok on_disk
  end.

Definition read_data_block (r : SstReader F) (handle : BlockHandle) (w : W) : outcome bytes :=
  let block_off := bh_offset handle in
  let block_len := bh_length handle in
  on_disk ← vf_read_at (tr_file r) block_len block_off w;
  decode_disk (tr_crypto r) block_off on_disk.

Definition locate_block (r : SstReader F) (key : bytes) : outcome (option BlockHandle) :=
  reader ← block_open (tr_index_bytes r);
  rec ← block_seek reader key;
  match rec with
  | None => Ok None
  | Some rec => h ← decode_block_handle (br_value rec); Ok (Some h)
  end.

Definition next_after (reader : BlockReader) (same_key : bytes) (seqno : Z) :
    outcome (option BlockRecord) :=
  iter_find (iter_fuel (rd_records reader))
    (λ rec, bytes_eqb (br_key rec) same_key && (br_seqno rec <? seqno)) (block_iter reader).

(** The loop of [get]. *)
Fixpoint get_loop (fuel : nat) (reader : BlockReader) (key : bytes) (snapshot : Z)
    (rec_opt : option BlockRecord) : outcome (option LookupHit) :=
  match fuel with
  | O => OutOfFuel
  | S fuel =>
      match rec_opt with
      | None => Ok None
      | Some rec =>
          if negb (bytes_eqb (br_key rec) key) then Ok None
          else if br_seqno rec <=? snapshot then Ok (Some (into_hit rec))
          else
            rec_opt ← next_after reader (br_key rec) (br_seqno rec);
            get_loop fuel reader key snapshot rec_opt
      end
  end.

(** Steps 1 to 3 of [get], behind the filter. *)
Definition lookup_block (r : SstReader F) (key : bytes) (snapshot : Z) (w : W) :
    outcome (option LookupHit) :=
  located ← locate_block r key;
  match located with
  | None => Ok None
  | Some handle =>
      block_bytes ← read_data_block r handle w;
      reader ← block_open block_bytes;
      rec_opt ← block_seek reader key;
      get_loop (iter_fuel (rd_records reader) + 1) reader key snapshot rec_opt
  end.

Definition count_pruned (r : SstReader F) : SstReader F :=
  {| tr_file := tr_file r; tr_header := tr_header r; tr_footer := tr_footer r;
     tr_index_bytes := tr_index_bytes r; tr_bloom := tr_bloom r;
     tr_bloom_misses_pruned := u64 (tr_bloom_misses_pruned r + 1); tr_crypto := tr_crypto r |}.

(** [avx2] is what CPU detection answers. *)
Definition sst_get (avx2 : bool) (key : bytes) (snapshot : Z) (w : W) :
    st (SstReader F) (option LookupHit) :=
  r ← st_get;
  may ← st_lift (match tr_bloom r with
                 | Some bloom => bloom_contains avx2 bloom key
                 | None => Ok true
                 end);
  if negb may then _ ← st_modify count_pruned; mret None
  else st_lift (lookup_block r key snapshot w).

(** * Scans *)

(** The records of the block behind one index entry. *)
Definition read_records (r : SstReader F) (handle : BlockHandle) (w : W) :
    outcome (list (bytes * LookupHit)) :=
  block_bytes ← read_data_block r handle w;
  data_reader ← block_open block_bytes;
  recs ← block_records data_reader;
  Ok (entry_of <$> (recs : list BlockRecord)).

Fixpoint scan_blocks (r : SstReader F) (index_recs : list BlockRecord) (w : W) :
    outcome (list (bytes * LookupHit)) :=
  match index_recs with
  | [] => Ok []
  | index_rec :: index_recs =>
      handle ← decode_block_handle (br_value index_rec);
      out ← read_records r handle w;
      rest ← scan_blocks r index_recs w;
      Ok (out ++ rest)
  end.

Definition sst_scan (r : SstReader F) (w : W) : outcome (list (bytes * LookupHit)) :=
  index_reader ← block_open (tr_index_bytes r);
  index_recs ← block_records index_reader;
  scan_blocks r index_recs w.

Fixpoint decode_handles (recs : list BlockRecord) : outcome (list BlockHandle) :=
  match recs with
  | [] => Ok []
  | rec :: recs =>
      h ← decode_block_handle (br_value rec);
      hs ← decode_handles recs;
      Ok (h :: hs)
  end.

Definition decode_index_handles (index_bytes : bytes) : outcome (list BlockHandle) :=
  reader ← block_open index_bytes;
  recs ← block_records reader;
  decode_handles recs.

Definition scan_stream (r : SstReader F) : outcome (SstStream F) :=
  handles ← decode_index_handles (tr_index_bytes r);
  Ok {| ss_reader := r; ss_handles := handles; ss_next_block := 0; ss_current := [] |}.

Definition ss_set (next_block : Z) (current : list (bytes * LookupHit)) (s : SstStream F) : SstStream F :=
  {| ss_reader := ss_reader s; ss_handles := ss_handles s; ss_next_block := next_block;
     ss_current := current |}.

(** Every iteration takes a handle: [length handles + 1] of them are enough. *)
Fixpoint refill_loop (fuel : nat) (w : W) : st (SstStream F) bool :=
  match fuel with
  | O => st_lift OutOfFuel
  | S fuel =>
      s ← st_get;
      if ss_next_block s <? len (ss_handles s) then
        h ← st_lift (index (ss_handles s) (ss_next_block s));
        _ ← st_modify (λ s, ss_set (ss_next_block s + 1) (ss_current s) s);
        records ← st_lift (read_records (ss_reader s) h w);
        match records with
        | [] => refill_loop fuel w
        | _ :: _ => _ ← st_modify (λ s, ss_set (ss_next_block s) records s); mret true
        end
      else mret false
  end.

Definition refill (w : W) : st (SstStream F) bool :=
  s ← st_get; refill_loop (length (ss_handles s) + 1) w.

(** The first call of [refill] leaves a record or ends the stream: two
    iterations are enough. *)
Fixpoint next_record_loop (fuel : nat) (w : W) : st (SstStream F) (option (bytes * LookupHit)) :=
  match fuel with
  | O => st_lift OutOfFuel
  | S fuel =>
      s ← st_get;
      match ss_current s with
      | rec :: rest => _ ← st_modify (ss_set (ss_next_block s) rest); mret (Some rec)
      | [] =>
          more ← refill w;
          if negb more then mret None else next_record_loop fuel w
      end
  end.

Definition stream_next_record (w : W) : st (SstStream F) (option (bytes * LookupHit)) :=
  next_record_loop 2 w.

(** Draining the stream. *)
Fixpoint stream_collect (fuel : nat) (w : W) : st (SstStream F) (list (bytes * LookupHit)) :=
  match fuel with
  | O => st_lift OutOfFuel
  | S fuel =>
      rec ← stream_next_record w;
      match rec with
      | None => mret []
      | Some rec => rest ← stream_collect fuel w; mret (rec :: rest)
      end
  end.

(** The answers of [n] calls of [next_record] in a row, errors included: a
    caller may go on after an error. *)
Fixpoint stream_run (n : nat) (w : W) (s : SstStream F) : list (outcome (option (bytes * LookupHit))) :=
  match n with
  | O => []
  | S n => let '(o, s') := stream_next_record w s in o :: stream_run n w s'
  end.

(** What one block contributes to a stream: its records, or its one error. *)
Definition block_answers (r : SstReader F) (w : W) (h : BlockHandle) :
    list (outcome (option (bytes * LookupHit))) :=
  match read_records r h w with
  | Ok records => Ok ∘ Some <$> records
  | Err e => [Err e]
  | Panic => [Panic]
  | OutOfFuel => [OutOfFuel]
  end.
End Reader.

(** * Reading back what the writer wrote *)

Definition decrypts (crypto : option EncryptionCtx) : option DecryptionCtx :=
  match crypto with
  | Some ctx => Some {| dc_aead := ec_aead ctx; dc_sstable_id := ec_sstable_id ctx |}
  | None => None
  end.

Lemma decode_disk_sealed `{AesGcmLaws} crypto off plain od :
  sealed crypto off plain od → decode_disk (decrypts crypto) off od = Ok plain.
Proof.
  unfold sealed, decode_disk, decrypts. destruct crypto as [ctx|]; [|by intros ->]. cbn [dc_aead dc_sstable_id].
  intros [-> Hl]%aead_open_seal. rewrite Hl. unfold debug_assert. by rewrite Z.eqb_refl.
Qed.

Lemma decode_handle_record e :
  block_handle_ok e.2 → decode_block_handle (br_value (index_record e)) = Ok e.2.
Proof.
  intros He. unfold decode_block_handle. cbn [index_record br_value]. rewrite length_block_handle.
  cbn [Z.of_nat Z.ltb]. change (_ <? _) with false. cbv iota.
  rewrite slice_to_ok by (rewrite length_block_handle; unfold BLOCK_HANDLE_SIZE; lia).
  cbn [mbind outcome_bind].
  by rewrite firstn_all2, block_handle_roundtrip by (done || rewrite length_block_handle; unfold BLOCK_HANDLE_SIZE; lia).
Qed.

Section ReadBack.
Context `{Crc32cLaws} `{Xxh3} `{AesGcmLaws} {F W : Type} `{FileLaws F W}.

(** An open reader over the records [rs], cut into [chunks]. *)
Record reader_of (r : SstReader F) (w : W) (rs : list BlockRecord)
    (chunks : list (list BlockRecord)) (entries : list (bytes * BlockHandle)) : Prop := {
  ro_cat : concat chunks = rs;
  ro_blocks : Forall2 (λ chunk e, block_handle_ok e.2 ∧ last (br_key <$> chunk) = Some e.1 ∧
    ∃ plain, read_data_block r e.2 w = Ok plain ∧ opens_as plain chunk) chunks entries;
  ro_index : opens_as (tr_index_bytes r) (index_record <$> entries);
  ro_bloom : ∀ b, tr_bloom r = Some b → filter_covers b rs
}.

Lemma seqno_bounds rs :
  Forall record_small rs →
  is_u64 (if min_seqno_of rs =? U64_MAX then 0 else min_seqno_of rs) ∧ is_u64 (max_seqno_of rs).
Proof.
  intros Hrs. unfold min_seqno_of, max_seqno_of, is_u64, U64_MAX.
  assert (∀ a b, 0 ≤ a < 2 ^ 64 → 0 ≤ b < 2 ^ 64 →
    0 ≤ foldl Z.min a (br_seqno <$> rs) < 2 ^ 64 ∧ 0 ≤ foldl Z.max b (br_seqno <$> rs) < 2 ^ 64) as Hfold.
  { induction Hrs as [|r rs [_ Hr] _ IH]; intros a b Ha Hb; [done|]. unfold is_u64 in Hr.
    rewrite fmap_cons. cbn [foldl]. apply IH; lia. }
  destruct (Hfold (2 ^ 64 - 1) 0); [lia..|]. split; [|done]. by case_bool.
Qed.

Context `{!ReliableReads F W}.

Lemma read_at_handle (f : F) (w : W) h :
  is_u64 (len (contents f w)) → handle_in (contents f w) h →
  vf_read_at f (bh_length h) (bh_offset h) w = Ok (at_handle (contents f w) h).
Proof.
  intros Hlen (Hlow & Hhi & (Ho & Hl & _)). unfold FILE_HEADER_REGION_SIZE, is_u32 in *.
  by apply read_at_reliable; lia || done.
Qed.

(** The fixed-size structs at both ends of a finished table. *)
Lemma image_ends (f : F) (w : W) pre ft h :
  contents f w = pre ++ footer_as_bytes ft → take 64 (contents f w) = file_header_as_bytes h →
  128 ≤ len (contents f w) < 2 ^ 63 →
  vf_read_at f 64 (len (contents f w) - 64) w = Ok (footer_as_bytes ft) ∧
  vf_read_at f 64 0 w = Ok (file_header_as_bytes h).
Proof.
  intros Hc Hh Hlen. assert (is_u64 (len (contents f w))) as Hu by (unfold is_u64; lia).
  rewrite !read_at_reliable by (done || lia). split; f_equal; [|done].
  rewrite Hc. rewrite drop_app_len by (rewrite length_app, length_footer; lia).
  apply firstn_all2. rewrite length_footer. lia.
Qed.

(** What [open_inner] loads behind the two structs. *)
Lemma open_filter (f : F) (w : W) fh rs :
  is_u64 (len (contents f w)) → handle_in (contents f w) fh →
  (bh_length fh = 0 ∨ ∃ b, at_handle (contents f w) fh = bloom_header b ++ blocks b ∧
     filter_covers b rs ∧ 0 < bh_length fh) →
  ∃ bl : option BlockedBloom, (∀ b, bl = Some b → filter_covers b rs) ∧
    (if bh_length fh =? 0 then Ok None
     else filter_bytes ← vf_read_at f (bh_length fh) (bh_offset fh) w;
          b ← bloom_decode filter_bytes; Ok (Some b)) = Ok bl.
Proof.
  intros Hu Hin [->|(b & Hb & Hcov & Hpos)]; [by exists None|].
  exists (Some b). split; [by intros b' [= <-]|]. rewrite (proj2 (Z.eqb_neq _ _)) by lia.
  rewrite read_at_handle, Hb by done. cbn [mbind outcome_bind].
  by rewrite bloom_decode_encode by apply Hcov.
Qed.

(** Opening succeeds on a finished table. *)
Lemma open_image (f : F) (w : W) crypto alg rs :
  table_image crypto alg rs (contents f w) → Forall record_small rs → keys_size rs < 2 ^ 30 →
  ∃ r chunks entries, open_inner f (decrypts crypto) w = Ok r ∧ reader_of r w rs chunks entries ∧
    fh_num_entries (tr_header r) = len rs ∧ fh_max_seqno (tr_header r) = max_seqno_of rs.
Proof.
  intros [Hsize (nb & off & Hnb & Hoff & Hhdr)
    (pre & ih & fh & mh & chunks & entries & Hc & Hih & Hfh & Hmh & Hcat & Hidx & Hindex & Hfilter)] Hrs Hks.
  pose proof (keys_size_length rs) as Hkl.
  assert (is_u64 (len (contents f w))) as Hu by (unfold is_u64; lia).
  destruct (seqno_bounds rs Hrs) as [Hmin Hmax]. unfold open_inner. rewrite size_reliable.
  cbn [mbind outcome_bind]. unfold FILE_HEADER_SIZE, FOOTER_SIZE in *.
  rewrite (proj2 (Z.ltb_ge _ _)) by lia.
  destruct (image_ends f w _ _ _ Hc Hhdr) as [Eft Ehdr]; [lia|].
  rewrite Eft. cbn [mbind outcome_bind].
  rewrite footer_from_as by (apply footer_signed_ok; split_and!; [apply Hih|apply Hfh|done]).
  cbn [ok_or mbind outcome_bind]. rewrite footer_signed_valid. cbn [negb].
  rewrite Ehdr. cbn [mbind outcome_bind].
  rewrite file_header_from_as
    by (apply file_header_signed_ok; [by destruct crypto|unfold is_u64 in *; split_and!; lia || done]).
  cbn [ok_or mbind outcome_bind]. rewrite file_header_signed_valid. cbn [negb].
  cbn [fh_flags file_header_new_signed ft_index_handle ft_filter_handle footer_new_signed].
  rewrite (read_at_handle f w ih Hu Hih).
  destruct (open_filter f w fh rs Hu Hfh Hfilter) as (bl & Hbl & Ebl).
  assert (∀ r : SstReader F, tr_file r = f → tr_crypto r = decrypts crypto → tr_bloom r = bl →
    tr_index_bytes r = at_handle (contents f w) ih → reader_of r w rs chunks entries) as Hro.
  { intros r Ef Ecr Eb Ei. split; [done| |by rewrite Ei|by rewrite Eb].
    eapply Forall2_impl; [exact Hidx|]. intros chunk e [[Hin (plain & Hs & Ho)] Hl].
    split_and!; [apply Hin|done|]. exists plain. split; [|done]. unfold read_data_block.
    rewrite Ef, Ecr, read_at_handle by done. cbn [mbind outcome_bind]. by apply decode_disk_sealed. }
  destruct crypto as [ctx|]; cbn [decrypts sst_flags]; cbn [mbind outcome_bind];
    cbn -[file_header_crc footer_crc]; cbn in Ebl; rewrite Ebl; cbn [outcome_bind];
    eexists _, chunks, entries; (split; [reflexivity|]); split; by try apply Hro.
Qed.
End ReadBack.

(** * Scans *)

Section Scans.
Context `{Crc32cLaws} `{Xxh3} `{AesGcmLaws} {F W : Type} `{FileLaws F W}.
Context (r : SstReader F) (w : W) (rs : list BlockRecord) (chunks : list (list BlockRecord))
  (entries : list (bytes * BlockHandle)) (Hr : reader_of r w rs chunks entries).

Lemma opens_records plain recs :
  opens_as plain recs → ∃ b, block_open plain = Ok b ∧ block_records b = Ok recs.
Proof. intros (b & Ho & Hof & Hf & _). exists b. split; [done|]. by apply block_records_of. Qed.

Lemma read_records_chunk chunk e :
  block_handle_ok e.2 ∧ last (br_key <$> chunk) = Some e.1 ∧
    (∃ plain, read_data_block r e.2 w = Ok plain ∧ opens_as plain chunk) →
  read_records r e.2 w = Ok (entry_of <$> chunk) ∧ chunk ≠ [].
Proof.
  intros (_ & Hl & plain & Hread & (b & Ho & Hrec)%opens_records). split; [|by intros ->].
  unfold read_records. rewrite Hread. cbn [mbind outcome_bind]. rewrite Ho. cbn [mbind outcome_bind].
  by rewrite Hrec.
Qed.

(** The materialising scan returns every record in order. *)
Lemma scan_all_records : sst_scan r w = Ok (entry_of <$> rs).
Proof.
  destruct Hr as [<- Hb Hi _]. unfold sst_scan.
  destruct (opens_records _ _ Hi) as (ir & -> & Hrec). cbn [mbind outcome_bind]. rewrite Hrec.
  cbn [mbind outcome_bind]. clear Hi Hrec Hr ir. induction Hb as [|chunk e chunks' entries' He _ IH]; [done|].
  rewrite fmap_cons. cbn [scan_blocks concat]. destruct He as (Hh & Hl & Hp).
  rewrite decode_handle_record by done. cbn [mbind outcome_bind].
  destruct (read_records_chunk chunk e) as [-> _]; [done|]. cbn [mbind outcome_bind]. rewrite IH.
  cbn [mbind outcome_bind]. by rewrite fmap_app.
Qed.

Lemma stream_handles : decode_index_handles (tr_index_bytes r) = Ok entries.*2.
Proof.
  destruct Hr as [_ Hb Hi _]. unfold decode_index_handles.
  destruct (opens_records _ _ Hi) as (ir & -> & Hrec). cbn [mbind outcome_bind]. rewrite Hrec.
  cbn [mbind outcome_bind]. clear Hi Hrec Hr ir. induction Hb as [|chunk e chunks' entries' (He & _) _ IH]; [done|].
  rewrite !fmap_cons. cbn [decode_handles]. rewrite decode_handle_record by done. cbn [mbind outcome_bind].
  by rewrite IH.
Qed.

(** A stream that still has [rem] to yield. *)
Definition stream_at (s : SstStream F) (rem : list (bytes * LookupHit)) : Prop :=
  ∃ i, ss_reader s = r ∧ ss_handles s = entries.*2 ∧ ss_next_block s = Z.of_nat i ∧
    (i ≤ length chunks)%nat ∧ rem = ss_current s ++ (entry_of <$> concat (drop i chunks)).

Lemma refill_spec s rem :
  stream_at s rem → ss_current s = [] →
  ∃ s', refill w s = (Ok (bool_decide (rem ≠ [])), s') ∧ stream_at s' rem ∧
    (rem ≠ [] → ss_current s' ≠ []).
Proof.
  intros (i & Er & Eh & En & Hi & Erem) Hcur. unfold refill. rewrite run_get, Nat.add_1_r.
  cbn [refill_loop]. rewrite run_get, En, Eh, length_fmap. pose proof (Forall2_length _ _ _ (ro_blocks _ _ _ _ _ Hr)) as Hl.
  rewrite Hcur in Erem. cbn [app] in Erem.
  destruct (Z.ltb_spec (Z.of_nat i) (len entries)) as [Hlt|Hge].
  - destruct (lookup_lt_is_Some_2 entries i) as [e He]; [lia|].
    destruct (lookup_lt_is_Some_2 chunks i) as [chunk Hc]; [lia|].
    pose proof (Forall2_lookup_lr _ _ _ _ _ _ (ro_blocks _ _ _ _ _ Hr) Hc He) as Hb.
    destruct (read_records_chunk chunk e Hb) as [Hrr Hne].
    rewrite (run_lift _ _ _ e.2)
      by (unfold index; decide_bool; by rewrite Nat2Z.id, list_lookup_fmap, He).
    rewrite run_modify, (run_lift _ _ _ (entry_of <$> chunk)) by (by rewrite Er).
    rewrite (drop_S _ _ _ Hc) in Erem. cbn [concat] in Erem. rewrite fmap_app in Erem.
    destruct chunk as [|x chunk]; [done|]. rewrite fmap_cons in *. cbn [app] in Erem.
    rewrite run_modify, bool_decide_eq_true_2 by (by rewrite Erem). eexists. split; [reflexivity|].
    split; [|done]. exists (S i). cbn [ss_set ss_reader ss_handles ss_next_block ss_current].
    rewrite <-Eh. split_and!; [done|done|lia|lia|done].
  - rewrite drop_ge in Erem by lia. subst rem. eexists. split; [reflexivity|]. split; [|done].
    exists i. rewrite Hcur, drop_ge by lia. done.
Qed.

Lemma stream_next_spec s rem :
  stream_at s rem →
  ∃ s', stream_next_record w s = (Ok (head rem), s') ∧ stream_at s' (tail rem).
Proof.
  intros Hs. unfold stream_next_record.
  assert (∀ fuel s x rest, stream_at s rem → ss_current s = x :: rest →
    ∃ s', next_record_loop (S fuel) w s = (Ok (head rem), s') ∧ stream_at s' (tail rem)) as Hcons.
  { intros fuel s1 x rest (i & Er & Eh & En & Hi & Erem) Hcur. cbn [next_record_loop].
    rewrite run_get, Hcur, run_modify. rewrite Hcur in Erem. subst rem. eexists. split; [reflexivity|].
    by exists i. }
  destruct (ss_current s) as [|x rest] eqn:Hcur; [|by apply (Hcons 1%nat s x rest)].
  destruct (refill_spec s rem Hs Hcur) as (s' & Href & Hs' & Hne).
  cbn [next_record_loop]. rewrite run_get, Hcur, (run_bind _ _ _ _ _ Href).
  destruct rem as [|x rem]; [by exists s'|]. rewrite bool_decide_eq_true_2 by done. cbn [negb].
  destruct (ss_current s') as [|y rest] eqn:Hcur'; [by specialize (Hne ltac:(done))|].
  by apply (Hcons 0%nat s' y rest).
Qed.

Lemma stream_collect_spec fuel s rem :
  stream_at s rem → (length rem < fuel)%nat → (stream_collect fuel w s).1 = Ok rem.
Proof.
  revert s rem. induction fuel as [|fuel IH]; intros s rem Hs Hfuel; [lia|]. cbn [stream_collect].
  destruct (stream_next_spec s rem Hs) as (s' & Hn & Hs'). rewrite (run_bind _ _ _ _ _ Hn).
  destruct rem as [|x rem]; [done|]. cbn [head tail] in *. specialize (IH s' rem Hs').
  destruct (stream_collect fuel w s') as [o s2] eqn:E. cbn [fst length] in *.
  rewrite IH in E by lia. by rewrite (run_bind _ _ _ _ _ E).
Qed.

(** A drain that returns had the fuel. *)
Lemma stream_collect_Ok fuel s rem out :
  stream_at s rem → (stream_collect fuel w s).1 = Ok out → out = rem ∧ (length rem < fuel)%nat.
Proof.
  revert s rem out. induction fuel as [|fuel IH]; intros s rem out Hs; [done|]. cbn [stream_collect].
  destruct (stream_next_spec s rem Hs) as (s' & Hn & Hs'). rewrite (run_bind _ _ _ _ _ Hn).
  destruct rem as [|x rem]; [intros [= <-]; cbn; split; [done|lia]|]. cbn [head tail] in *. specialize (IH s' rem).
  unfold mbind, st_bind. destruct (stream_collect fuel w s') as [[rest| | |] s2]; try done.
  intros [= <-]. destruct (IH rest Hs' eq_refl) as [-> ?]. cbn. split; [done|lia].
Qed.

(** So does the streaming scan. *)
Lemma stream_all_records :
  ∃ s, scan_stream r = Ok s ∧ stream_at s (entry_of <$> rs).
Proof.
  unfold scan_stream. rewrite stream_handles. cbn [mbind outcome_bind]. eexists. split; [done|].
  exists 0%nat. cbn. rewrite drop_0, (ro_cat _ _ _ _ _ Hr). split_and!; (done || lia).
Qed.
End Scans.

(** * Point lookups *)

Lemma find_app {A} (P : A → bool) l1 l2 :
  List.find P (l1 ++ l2) = match List.find P l1 with Some x => Some x | None => List.find P l2 end.
Proof. induction l1 as [|x l1 IH]; [done|]. cbn [app List.find]. by destruct (P x). Qed.

Lemma find_None {A} (P : A → bool) l : (∀ x, x ∈ l → P x = false) → List.find P l = None.
Proof.
  intros Hl. destruct (List.find P l) as [x|] eqn:E; [|done].
  apply find_some in E as [Hin HP]. rewrite Hl in HP by (by apply list_elem_of_In). done.
Qed.

(** Taking elements out of a filtered list makes it shorter. *)
Lemma filter_shorter {A} (P Q : A → Prop) `{!∀ x, Decision (P x), !∀ x, Decision (Q x)} l y :
  (∀ x, P x → Q x) → y ∈ l → Q y → ¬ P y →
  (length (filter P l) < length (filter Q l))%nat.
Proof.
  intros HPQ Hy HQ HP. assert (∀ l, (length (filter P l) ≤ length (filter Q l))%nat) as Hle.
  { intros l'. induction l' as [|x l' IH]; [done|]. rewrite !filter_cons.
    destruct (decide (P x)) as [Hx|]; [rewrite decide_True by auto; cbn; lia|].
    destruct (decide (Q x)); cbn; lia. }
  apply list_elem_of_split in Hy as (l1 & l2 & ->). rewrite !filter_app, !length_app, !filter_cons.
  rewrite (decide_False (P:=P y)), (decide_True (P:=Q y)) by done. cbn [length].
  pose proof (Hle l1). pose proof (Hle l2). lia.
Qed.

Section GetLoop.
Context (b : BlockReader) (recs : list BlockRecord) (Hrecs : block_records b = Ok recs).
Context (key : bytes) (snapshot : Z).

Lemma next_after_find k s :
  next_after b k s = Ok (List.find (λ rec, bytes_eqb (br_key rec) k && (br_seqno rec <? s)) recs).
Proof. apply (iter_find_collect _ _ _ _ Hrecs). Qed.

(** The records older than [x]. *)
Definition older (x : BlockRecord) : nat := length (filter (λ y, br_seqno y < br_seqno x) recs).

Lemma older_lt x y : y ∈ recs → br_seqno y < br_seqno x → (older y < older x)%nat.
Proof. intros Hy Hlt. unfold older. apply (filter_shorter _ _ _ y); (done || lia). Qed.

(** The loop ends, because every step moves to an older record, and what it
    returns is a visible record of the key. *)
Lemma get_loop_sound fuel rec_opt :
  (∀ x, rec_opt = Some x → (S (older x) < fuel)%nat) → (0 < fuel)%nat →
  ∃ res, get_loop fuel b key snapshot rec_opt = Ok res ∧
    ((∀ x, rec_opt = Some x → x ∈ recs) → ∀ hit, res = Some hit →
      ∃ x, x ∈ recs ∧ br_key x = key ∧ into_hit x = hit ∧ br_seqno x ≤ snapshot).
Proof.
  revert rec_opt. induction fuel as [|fuel IH]; intros rec_opt Hin Hf; [lia|]. cbn [get_loop].
  destruct rec_opt as [x|]; [|by exists None]. pose proof (Hin x eq_refl) as Hcnt.
  destruct (bytes_eqb (br_key x) key) eqn:Ek; cbn [negb]; [|by exists None].
  apply bytes_eqb_eq in Ek. destruct (Z.leb_spec (br_seqno x) snapshot) as [Hs|Hs].
  { eexists. split; [done|]. intros Hx hit [= <-]. exists x. auto. }
  rewrite next_after_find. cbn [mbind outcome_bind].
  assert (∀ y, List.find (λ rec, bytes_eqb (br_key rec) (br_key x) && (br_seqno rec <? br_seqno x)) recs
    = Some y → y ∈ recs ∧ br_seqno y < br_seqno x) as Hy.
  { intros y Hy. by apply find_some in Hy as [Hy%list_elem_of_In [_ Hlt%Z.ltb_lt]%andb_true_iff]. }
  destruct (IH (List.find (λ rec, bytes_eqb (br_key rec) (br_key x) && (br_seqno rec <? br_seqno x)) recs))
    as (res & E & Hres); [|lia|].
  - intros y [Hin' Hlt]%Hy. pose proof (older_lt x y Hin' Hlt). lia.
  - exists res. split; [done|]. intros _. apply Hres. intros y Hfy. by apply Hy.
Qed.

Lemma older_fuel x : (S (older x) < iter_fuel (rd_records b) + 1)%nat.
Proof.
  destruct (iter_find_collect _ (λ _, true) _ _ Hrecs) as [_ Hl]. unfold older.
  pose proof (length_filter (λ y, br_seqno y < br_seqno x) recs). lia.
Qed.
End GetLoop.

Section Get.
Context `{Crc32cLaws} `{Xxh3} `{AesGcmLaws} {F W : Type} `{FileLaws F W}.
Context (r : SstReader F) (w : W) (rs : list BlockRecord) (chunks : list (list BlockRecord))
  (entries : list (bytes * BlockHandle)) (Hr : reader_of r w rs chunks entries).

(** What a lookup should return: the newest visible version of the key, in the
    table's order. *)
Definition visible (key : bytes) (snapshot : Z) (x : BlockRecord) : bool :=
  bytes_eqb (br_key x) key && (br_seqno x <=? snapshot).

Definition table_lookup (recs : list BlockRecord) (key : bytes) (snapshot : Z) : option LookupHit :=
  into_hit <$> List.find (visible key snapshot) recs.

(** The filter lets every key of the table through. *)
Lemma get_behind_filter avx2 key snapshot :
  ∃ r', (sst_get avx2 key snapshot w r = (lookup_block r key snapshot w, r)) ∨
    (sst_get avx2 key snapshot w r = (Ok None, r') ∧ ∀ x, x ∈ rs → br_key x ≠ key).
Proof.
  destruct Hr as [_ _ _ Hbl]. unfold sst_get. exists (count_pruned r). rewrite run_get.
  destruct (tr_bloom r) as [b|] eqn:Eb; [|by left].
  destruct (Hbl b eq_refl) as (Hb & _ & Hin).
  destruct (bloom_contains avx2 b key) as [may| | |] eqn:Ec; rewrite contains_spec in Ec by done; try done.
  rewrite (run_lift _ _ _ may) by done. destruct may; [by left|right]. split; [done|].
  intros x Hx <-. rewrite <-(contains_spec avx2 b (br_key x)) in Ec by done.
  by rewrite contains_in_filter in Ec by auto.
Qed.

(** The block behind an index record. *)
Lemma index_record_block x :
  x ∈ index_record <$> entries →
  ∃ chunk e, x = index_record e ∧ chunk ∈ chunks ∧ e ∈ entries ∧ block_handle_ok e.2 ∧
    last (br_key <$> chunk) = Some e.1 ∧
    ∃ plain, read_data_block r e.2 w = Ok plain ∧ opens_as plain chunk.
Proof.
  intros (e & -> & He)%list_elem_of_fmap. pose proof (ro_blocks _ _ _ _ _ Hr) as Hb.
  apply list_elem_of_lookup in He as [i Hi].
  destruct (Forall2_lookup_r _ _ _ _ _ Hb Hi) as (chunk & Hc & Hh & Hl & Hp).
  exists chunk, e. split_and!; try done; by apply list_elem_of_lookup; exists i.
Qed.

(** A lookup returns, and a hit is a visible record of the table. *)
Lemma get_sound avx2 key snapshot :
  ∃ res, (sst_get avx2 key snapshot w r).1 = Ok res ∧
    ∀ hit, res = Some hit →
      ∃ x, x ∈ rs ∧ br_key x = key ∧ into_hit x = hit ∧ br_seqno x ≤ snapshot.
Proof.
  destruct (get_behind_filter avx2 key snapshot) as (r' & [->|[-> _]]); [|by exists None]. cbn [fst].
  destruct (ro_index _ _ _ _ _ Hr) as (ir & Ho & Hof & Hf & Hs). unfold lookup_block, locate_block.
  rewrite Ho. cbn [mbind outcome_bind].
  destruct (block_seek_sound _ _ key Hof Hf Hs) as (res & -> & Hres). cbn [mbind outcome_bind].
  destruct res as [x|]; [|by exists None]. destruct (Hres x eq_refl) as [Hx _].
  destruct (index_record_block x Hx) as (chunk & e & -> & Hc & _ & Hh & _ & plain & Hread & b & Hob & Hofb & Hfb & Hsb).
  rewrite decode_handle_record by done. cbn [mbind outcome_bind]. rewrite Hread. cbn [mbind outcome_bind].
  rewrite Hob. cbn [mbind outcome_bind].
  destruct (block_seek_sound _ _ key Hofb Hfb Hsb) as (res & -> & Hres'). cbn [mbind outcome_bind].
  pose proof (block_records_of _ _ Hofb Hfb) as Hrecs.
  destruct (get_loop_sound b chunk Hrecs key snapshot (iter_fuel (rd_records b) + 1) res) as (out & -> & Hout).
  - intros y ->. by apply older_fuel.
  - lia.
  - exists out. split; [done|]. intros hit ->.
    destruct (Hout (λ y Ey, proj1 (Hres' y Ey)) hit eq_refl) as (y & Hy & ?).
    exists y. split; [|done]. rewrite <-(ro_cat _ _ _ _ _ Hr). apply list_elem_of_In, in_concat.
    exists chunk. by rewrite <-!list_elem_of_In.
Qed.
End Get.

(** ** Tables with one version per key *)

Lemma nodup_fresh target recs : NoDup (br_key <$> recs) → restart_fresh target recs.
Proof.
  intros Hnd rs1 x rs2 -> _ <-. apply Forall_forall. intros y Hy E.
  rewrite fmap_app, fmap_cons in Hnd. apply NoDup_app in Hnd as (_ & Hd & _).
  apply (Hd (br_key y)); [by apply list_elem_of_fmap_2|]. rewrite E. apply list_elem_of_here.
Qed.

Lemma StronglySorted_sublist {A} (R : A → A → Prop) l k :
  l `sublist_of` k → StronglySorted R k → StronglySorted R l.
Proof.
  induction 1 as [|x l k Hlk IH|x l k Hlk IH]; intros Hs; [constructor| |];
    inversion Hs as [|? ? Hk Hall]; subst; [|auto].
  constructor; [auto|]. apply Forall_forall. intros y Hy. rewrite Forall_forall in Hall.
  apply Hall. by eapply elem_of_sublist.
Qed.

(** The sorted keys of a list of records. *)
Lemma sorted_keys recs :
  StronglySorted key_le recs ↔ StronglySorted (λ a b, bytes_leb a b = true) (br_key <$> recs).
Proof.
  induction recs as [|x recs IH]; [split; constructor|]. rewrite fmap_cons. split; intros Hs;
    inversion Hs as [|? ? Hk Hall]; subst; constructor; try by apply IH.
  - by apply Forall_fmap.
  - by apply Forall_fmap in Hall.
Qed.

Lemma bytes_leb_cmp a b : bytes_leb a b = false ↔ bytes_cmp b a = Lt.
Proof.
  unfold bytes_leb. rewrite <-bytes_cmp_gt_lt. by destruct (bytes_cmp a b).
Qed.

Lemma bytes_leb_antisym a b : bytes_leb a b = true → bytes_leb b a = true → a = b.
Proof.
  unfold bytes_leb. rewrite (bytes_cmp_antisym a b).
  destruct (bytes_cmp a b) eqn:E; cbn; try done. by apply bytes_cmp_eq in E.
Qed.

(** Equal keys mean equal records. *)
Definition uniq (recs : list BlockRecord) : Prop :=
  ∀ x y, x ∈ recs → y ∈ recs → br_key x = br_key y → x = y.

Lemma nodup_uniq recs : NoDup (br_key <$> recs) → uniq recs.
Proof.
  intros Hnd x y Hx Hy E. apply list_elem_of_lookup in Hx as [i Hi], Hy as [j Hj].
  assert (i = j) as ->; [|congruence]. apply (NoDup_lookup _ i j (br_key x) Hnd).
  - by rewrite list_lookup_fmap, Hi.
  - by rewrite list_lookup_fmap, Hj, E.
Qed.

Lemma bytes_leb_refl a : bytes_leb a a = true.
Proof. unfold bytes_leb. by rewrite bytes_cmp_refl. Qed.

Lemma bytes_leb_trans a b c : bytes_leb a b = true → bytes_leb b c = true → bytes_leb a c = true.
Proof.
  unfold bytes_leb. destruct (bytes_cmp a b) eqn:E1, (bytes_cmp b c) eqn:E2; try done; intros _ _.
  - apply bytes_cmp_eq in E1 as ->. by rewrite E2.
  - apply bytes_cmp_eq in E1 as ->. by rewrite E2.
  - apply bytes_cmp_eq in E2 as <-. by rewrite E1.
  - by rewrite (bytes_cmp_lt_trans _ _ _ E1 E2).
Qed.

Lemma sorted_cons_le x y recs : StronglySorted key_le (x :: recs) → y ∈ recs → key_le x y.
Proof. intros Hs Hy. inversion Hs as [|? ? _ Hall]; subst. rewrite Forall_forall in Hall. auto. Qed.

(** The first key not below a record's own is that record's. *)
Lemma find_own recs x :
  StronglySorted key_le recs → uniq recs → x ∈ recs →
  List.find (λ y, bytes_leb (br_key x) (br_key y)) recs = Some x.
Proof.
  intros Hs Hu Hx. induction recs as [|y recs IH]; [by apply not_elem_of_nil in Hx|]. cbn [List.find].
  destruct (bytes_leb (br_key x) (br_key y)) eqn:E.
  - f_equal. apply elem_of_cons in Hx as [->|Hx]; [done|].
    apply Hu; [apply list_elem_of_here|by right|]. apply bytes_leb_antisym; [|done].
    by apply (sorted_cons_le y x recs).
  - apply elem_of_cons in Hx as [->|Hx]; [by rewrite bytes_leb_refl in E|].
    apply IH; [by inversion Hs| |done]. intros a b Ha Hb. by apply Hu; right.
Qed.

Lemma in_sorted_last chunk x k :
  StronglySorted key_le chunk → last (br_key <$> chunk) = Some k → x ∈ chunk →
  bytes_leb (br_key x) k = true ∧ ∃ y, y ∈ chunk ∧ br_key y = k.
Proof.
  intros Hs Hl Hx. rewrite fmap_last in Hl. destruct (last chunk) as [y|] eqn:E; [|done].
  injection Hl as <-. apply last_Some in E as [l ->]. split.
  - apply elem_of_app in Hx as [Hx| ->%list_elem_of_singleton]; [|apply bytes_leb_refl].
    apply sorted_before in Hs. rewrite Forall_forall in Hs. by apply Hs.
  - exists y. split; [|done]. apply elem_of_app. right. by apply list_elem_of_singleton.
Qed.

(** Seeking a record's key in the index leads to a block that has it. *)
Lemma index_find_own {R : list BlockRecord → bytes * BlockHandle → Prop} chunks entries x :
  (∀ chunk e, R chunk e → last (br_key <$> chunk) = Some e.1) →
  Forall2 R chunks entries → StronglySorted key_le (concat chunks) → uniq (concat chunks) →
  x ∈ concat chunks →
  ∃ chunk e, List.find (λ y, bytes_leb (br_key x) (br_key y)) (index_record <$> entries)
    = Some (index_record e) ∧ R chunk e ∧ chunk ∈ chunks ∧ x ∈ chunk.
Proof.
  intros HR Hc. induction Hc as [|chunk e chunks entries He Hc IH]; intros Hs Hu Hx;
    [by apply not_elem_of_nil in Hx|].
  rewrite fmap_cons. cbn [concat List.find index_record br_key] in *.
  apply StronglySorted_app in Hs as (Hcross & Hs1 & Hs2).
  destruct (bytes_leb (br_key x) e.1) eqn:E.
  - exists chunk, e. split_and!; [done|done|apply list_elem_of_here|].
    apply elem_of_app in Hx as [Hx|Hx]; [done|].
    assert (∃ y, y ∈ chunk ∧ br_key y = e.1) as (y & Hy & Ey).
    { pose proof (HR _ _ He) as Hl. rewrite fmap_last in Hl. destruct (last chunk) as [y|] eqn:El; [|done].
      injection Hl as Hl. exists y. split; [by apply last_Some_elem_of|done]. }
    replace x with y; [done|]. apply Hu; [apply elem_of_app; by left|apply elem_of_app; by right|].
    apply bytes_leb_antisym; [by apply (Hcross y x)|by rewrite Ey].
  - apply elem_of_app in Hx as [Hx|Hx].
    + destruct (in_sorted_last chunk x e.1) as [Hle _]; [done|by apply HR|done|]. by rewrite Hle in E.
    + destruct IH as (c & e' & Hf & ?); [done| |done|].
      * intros a b Ha Hb. apply Hu; apply elem_of_app; by right.
      * exists c, e'. split; [done|]. destruct_and!. split_and!; [done|by right|done].
Qed.

(** The last keys are some of the keys. *)
Lemma last_keys_sublist {R : list BlockRecord → bytes * BlockHandle → Prop} chunks entries :
  (∀ chunk e, R chunk e → last (br_key <$> chunk) = Some e.1) → Forall2 R chunks entries →
  (br_key <$> (index_record <$> entries)) `sublist_of` (br_key <$> concat chunks).
Proof.
  intros HR. induction 1 as [|chunk e chunks entries He _ IH]; [done|].
  rewrite !fmap_cons. cbn [concat index_record br_key]. rewrite fmap_app.
  apply HR, last_Some in He as [l ->].
  rewrite <-app_assoc. apply sublist_inserts_l. cbn [app]. by apply sublist_skip.
Qed.

Section GetExact.
Context `{Crc32cLaws} `{Xxh3} `{AesGcmLaws} {F W : Type} `{FileLaws F W}.
Context (r : SstReader F) (w : W) (rs : list BlockRecord) (chunks : list (list BlockRecord))
  (entries : list (bytes * BlockHandle)) (Hr : reader_of r w rs chunks entries).
Context (Hs : StronglySorted key_le rs) (Hnd : NoDup (br_key <$> rs)).

Lemma chunk_sublist chunk : chunk ∈ chunks → chunk `sublist_of` rs.
Proof.
  rewrite <-(ro_cat _ _ _ _ _ Hr). clear. induction chunks as [|c cs IH]; [by intros ?%not_elem_of_nil|].
  cbn [concat]. intros [->|Hc]%elem_of_cons.
  - by apply sublist_inserts_r.
  - apply sublist_inserts_l. auto.
Qed.

(** A visible record is found. *)
Lemma get_finds avx2 x snapshot :
  x ∈ rs → br_seqno x ≤ snapshot →
  (sst_get avx2 (br_key x) snapshot w r).1 = Ok (Some (into_hit x)).
Proof.
  intros Hx Hv. destruct (get_behind_filter r w rs chunks entries Hr avx2 (br_key x) snapshot)
    as (r' & [->|[_ Hno]]); [|by destruct (Hno x Hx)]. cbn [fst].
  destruct (ro_index _ _ _ _ _ Hr) as (ir & Ho & Hof & Hf & Hsz). unfold lookup_block, locate_block.
  rewrite Ho. cbn [mbind outcome_bind]. pose proof (ro_blocks _ _ _ _ _ Hr) as Hb.
  pose proof (ro_cat _ _ _ _ _ Hr) as Hcat.
  assert (∀ chunk e, (λ chunk e, block_handle_ok e.2 ∧ last (br_key <$> chunk) = Some e.1 ∧
    ∃ plain, read_data_block r e.2 w = Ok plain ∧ opens_as plain chunk) chunk e →
    last (br_key <$> chunk) = Some e.1) as HR by (by intros chunk e (_ & ? & _)).
  pose proof (last_keys_sublist _ _ HR Hb) as Hsub. rewrite Hcat in Hsub.
  rewrite (block_seek_find _ _ (br_key x) Hof Hf Hsz).
  2: { apply sorted_keys. by eapply StronglySorted_sublist, sorted_keys. }
  2: { apply nodup_fresh. by eapply sublist_NoDup. }
  destruct (index_find_own chunks entries x HR Hb) as (chunk & e & -> & (Hh & _ & plain & Hread & b & Hob & Hofb & Hfb & Hsb) & Hc & Hxc);
    [by rewrite Hcat|rewrite Hcat; by apply nodup_uniq|by rewrite Hcat|]. cbn [mbind outcome_bind].
  rewrite decode_handle_record by done. cbn [mbind outcome_bind]. rewrite Hread. cbn [mbind outcome_bind].
  rewrite Hob. cbn [mbind outcome_bind]. apply chunk_sublist in Hc.
  assert (NoDup (br_key <$> chunk)) as Hndc by (eapply sublist_NoDup; [exact Hnd|by apply fmap_sublist]).
  assert (StronglySorted key_le chunk) as Hsc by (by eapply StronglySorted_sublist).
  rewrite (block_seek_find _ _ (br_key x) Hofb Hfb Hsb Hsc) by (by apply nodup_fresh).
  rewrite find_own by (done || by apply nodup_uniq). cbn [mbind outcome_bind].
  rewrite Nat.add_1_r. cbn [get_loop]. rewrite (proj2 (bytes_eqb_eq _ _)) by done. cbn [negb].
  by rewrite (proj2 (Z.leb_le _ _)).
Qed.

(** With one version per key a lookup is exact. *)
Lemma get_exact avx2 key snapshot :
  (sst_get avx2 key snapshot w r).1 = Ok (table_lookup rs key snapshot).
Proof.
  destruct (get_sound r w rs chunks entries Hr avx2 key snapshot) as (res & E & Hres).
  unfold table_lookup. destruct (List.find (visible key snapshot) rs) as [x|] eqn:Ef.
  - apply find_some in Ef as [Hx%list_elem_of_In [Hk%bytes_eqb_eq Hv%Z.leb_le]%andb_true_iff].
    subst key. by rewrite get_finds.
  - rewrite E. destruct res as [hit|]; [|done].
    destruct (Hres hit eq_refl) as (x & Hx & Hk & _ & Hv).
    apply find_none with (x := x) in Ef; [|by apply list_elem_of_In]. unfold visible in Ef.
    by rewrite Hk, (proj2 (bytes_eqb_eq _ _)), (proj2 (Z.leb_le _ _)) in Ef.
Qed.
End GetExact.

(** * Arbitrary files *)

(** A lookup changes nothing but the counter of its reader. *)
Definition same_reader {F} (r r' : SstReader F) : Prop := r' = r ∨ r' = count_pruned r.

Lemma sst_get_reader `{Crc32c} `{Xxh3} `{AesGcm} `{VfsFile F W} avx2 key snapshot (w : W) (r : SstReader F) :
  same_reader r (sst_get avx2 key snapshot w r).2.
Proof.
  unfold sst_get, same_reader. rewrite run_get. unfold st_lift at 1, mbind at 1, st_bind at 1.
  destruct (tr_bloom r) as [b|]; [|by left]. destruct (bloom_contains avx2 b key) as [[]| | |]; auto.
Qed.

Section Total.
Context `{Crc32cLaws} `{Xxh3} `{AesGcmLaws} {F W : Type} `{FileLaws F W}.
Context (f : F) (w : W) (Hbytes : bytes_ok (contents f w)).

Lemma read_bytes n off b :
  vf_read_at f n off w = Ok b → 0 ≤ n → 0 ≤ off → bytes_ok b.
Proof.
  intros E _ _. apply Forall_forall. intros x Hx%(read_at_sub _ _ _ _ _ E). revert x Hx. by apply Forall_forall.
Qed.

Lemma handle_at_range b off :
  bytes_ok b → 0 ≤ bh_offset (block_handle_at b off) ∧ 0 ≤ bh_length (block_handle_at b off).
Proof. intros Hb. unfold block_handle_at. cbn. split; by apply le_field_range. Qed.

Lemma decode_block_handle_returns v :
  bytes_ok v → returns (decode_block_handle v) ∧
    ∀ h, decode_block_handle v = Ok h → 0 ≤ bh_offset h ∧ 0 ≤ bh_length h.
Proof.
  intros Hv. unfold decode_block_handle. case_bool; [done|]. unfold BLOCK_HANDLE_SIZE in *.
  rewrite slice_to_ok by lia. cbn [mbind outcome_bind]. split; [apply returns_ok_or|].
  intros h. unfold block_handle_from_bytes. case_bool; [|done]. intros [= <-].
  by apply handle_at_range, Forall_take.
Qed.

(** A reader as [open_inner] makes it. *)
Record reader_valid (r : SstReader F) : Prop := {
  rv_file : tr_file r = f;
  rv_index : bytes_ok (tr_index_bytes r);
  rv_bloom : ∀ b, tr_bloom r = Some b → bloom_ok b;
  rv_header : file_header_is_valid (tr_header r) = true;
  rv_footer : footer_is_valid (tr_footer r) = true;
  rv_encrypted : negb (Z.land (fh_flags (tr_header r)) ENCRYPTED =? 0) = bool_decide (is_Some (tr_crypto r))
}.

Lemma read_returns n off : 0 ≤ n → 0 ≤ off → returns (vf_read_at f n off w).
Proof. apply read_at_returns. Qed.

Lemma open_filter_total fh :
  0 ≤ bh_length fh → 0 ≤ bh_offset fh →
  let m := if bh_length fh =? 0 then Ok None
     else filter_bytes ← vf_read_at f (bh_length fh) (bh_offset fh) w;
          b ← bloom_decode filter_bytes; Ok (Some b) in
  returns m ∧ ∀ bl b, m = Ok bl → bl = Some b → bloom_ok b.
Proof.
  intros Hl Ho m. unfold m. case_bool; [split; [done|by intros bl b [= <-]]|].
  pose proof (read_returns _ _ Hl Ho) as Hret.
  destruct (vf_read_at f _ _ w) as [fb| | |] eqn:E; cbn [mbind outcome_bind]; try done.
  apply read_bytes in E; [|done..]. pose proof (bloom_decode_returns fb).
  destruct (bloom_decode fb) as [b| | |] eqn:Eb; cbn [mbind outcome_bind]; try done.
  split; [done|]. intros bl b' [= <-] [= <-]. by apply bloom_decode_Ok in Eb as [? _].
Qed.

Lemma open_inner_total crypto :
  returns (open_inner f crypto w) ∧
  ∀ r, open_inner f crypto w = Ok r → reader_valid r ∧ tr_crypto r = crypto.
Proof.
  unfold open_inner, FILE_HEADER_SIZE, FOOTER_SIZE. pose proof (size_returns f w) as Hret.
  destruct (vf_size f w) as [size| | |] eqn:Es; cbn [mbind outcome_bind]; try done. clear Hret.
  destruct (Z.ltb_spec size (64 + 64)) as [|Hsize]; [done|].
  pose proof (read_returns 64 (size - 64) ltac:(lia) ltac:(lia)) as Hret.
  destruct (vf_read_at f 64 (size - 64) w) as [fb| | |] eqn:Ef; cbn [mbind outcome_bind]; try done. clear Hret.
  apply read_bytes in Ef; [|lia..]. unfold footer_from_bytes.
  destruct (Z.eqb_spec (len fb) FOOTER_SIZE); cbn [ok_or mbind outcome_bind]; [|done].
  set (ft := {| ft_index_handle := _ |}).
  assert (0 ≤ bh_offset (ft_index_handle ft) ∧ 0 ≤ bh_length (ft_index_handle ft)) as [Hio Hil]
    by (by apply handle_at_range).
  assert (0 ≤ bh_offset (ft_filter_handle ft) ∧ 0 ≤ bh_length (ft_filter_handle ft)) as [Hfo Hfl]
    by (by apply handle_at_range).
  clearbody ft. destruct (footer_is_valid ft) eqn:Hft; cbn [negb]; [|done].
  pose proof (read_returns 64 0 ltac:(lia) ltac:(lia)) as Hret.
  destruct (vf_read_at f 64 0 w) as [hb| | |] eqn:Eh; cbn [mbind outcome_bind]; try done. clear Hret.
  destruct (file_header_from_bytes hb) as [hdr|]; cbn [ok_or mbind outcome_bind]; [|done].
  destruct (file_header_is_valid hdr) eqn:Hhdr; cbn [negb]; [|done].
  destruct (open_filter_total (ft_filter_handle ft) Hfl Hfo) as [Hbret Hbok].
  pose proof (read_returns _ _ Hil Hio) as Hret.
  destruct (vf_read_at f (bh_length (ft_index_handle ft)) _ w) as [ib| | |] eqn:Ei;
    cbn [mbind outcome_bind]; [|by destruct (negb _), crypto..].
  apply read_bytes in Ei; [|done..]. cbn zeta in Hbret, Hbok. cbn [mbind outcome_bind] in Hbret, Hbok.
  destruct (if bh_length (ft_filter_handle ft) =? 0 then _ else _) as [bl| | |];
    cbn [mbind outcome_bind]; [|by destruct (negb _), crypto..].
  destruct (negb (Z.land (fh_flags hdr) ENCRYPTED =? 0)) eqn:Hflag, crypto as [ctx|]; try done;
    (split; [done|]); intros r [= <-]; (split; [|done]); split; cbn; try done; intros b ->; by apply (Hbok (Some b) b).
Qed.

Lemma decode_disk_total crypto off od :
  bytes_ok od → returns (decode_disk crypto off od) ∧
  ∀ plain, decode_disk crypto off od = Ok plain → bytes_ok plain.
Proof.
  intros Hod. unfold decode_disk, aead_open. destruct crypto as [ctx|]; [|split; [done|by intros ? [= <-]]].
  destruct (aes_decrypt _ _ _ od) as [pt|] eqn:E; cbn; [|done].
  pose proof (aes_decrypt_len _ _ _ _ _ E) as Hl. pose proof (aes_decrypt_bytes _ _ _ _ _ E Hod).
  unfold debug_assert. rewrite (proj2 (Z.eqb_eq _ _)) by lia. cbn. split; [done|by intros ? [= <-]].
Qed.

Section TotalReads.
Context (r : SstReader F) (Hr : reader_valid r).

Lemma read_block_total h :
  0 ≤ bh_offset h ∧ 0 ≤ bh_length h →
  (∃ e, (b ← read_data_block r h w; block_open b) = Err e) ∨
  ∃ plain b, read_data_block r h w = Ok plain ∧ block_open plain = Ok b ∧ reader_ok b.
Proof.
  intros [Ho Hl]. unfold read_data_block. rewrite (rv_file _ Hr).
  pose proof (read_returns _ _ Hl Ho) as Hret.
  destruct (vf_read_at f _ _ w) as [od|e| |] eqn:E; cbn [mbind outcome_bind]; try done; [|by left; exists e].
  apply read_bytes in E; [|done..].
  destruct (decode_disk_total (tr_crypto r) (bh_offset h) od E) as [Hdret Hdok].
  destruct (decode_disk _ _ od) as [plain|e| |]; cbn [mbind outcome_bind]; try done; [|by left; exists e].
  destruct (block_open_total plain (Hdok _ eq_refl)) as [[e He]|(b & Hb & Hbok)]; [left|right]; eauto.
Qed.

Lemma lookup_block_returns key snapshot : returns (lookup_block r key snapshot w).
Proof.
  unfold lookup_block, locate_block.
  destruct (block_open_total (tr_index_bytes r) (rv_index _ Hr)) as [[e ->]|(ib & -> & Hib)]; [done|].
  cbn [mbind outcome_bind]. pose proof (block_seek_returns ib key Hib) as Hret.
  destruct (block_seek ib key) as [[x|]| | |] eqn:Es; cbn [mbind outcome_bind]; try done.
  apply block_seek_value in Es; [|apply Hib].
  destruct (decode_block_handle_returns _ Es) as [Hdret Hdok].
  destruct (decode_block_handle (br_value x)) as [h| | |]; cbn [mbind outcome_bind]; try done.
  destruct (read_block_total h (Hdok _ eq_refl)) as [[e He]|(plain & b & -> & Hob & Hb)].
  { by destruct (read_data_block r h w); cbn [mbind outcome_bind] in *; try done; rewrite He. }
  cbn [mbind outcome_bind]. rewrite Hob. cbn [mbind outcome_bind].
  pose proof (block_seek_returns b key Hb) as Hbret.
  destruct (block_records_Ok b Hb) as [recs Hrecs].
  destruct (block_seek b key) as [rec_opt| | |]; cbn [mbind outcome_bind]; try done.
  destruct (get_loop_sound b recs Hrecs key snapshot (iter_fuel (rd_records b) + 1) rec_opt)
    as (res & -> & _); [intros y _; by apply older_fuel|lia|done].
Qed.

Lemma sst_get_returns avx2 key snapshot : returns (sst_get avx2 key snapshot w r).1.
Proof.
  unfold sst_get. rewrite run_get. destruct (tr_bloom r) as [b|] eqn:Eb.
  - rewrite (run_lift _ _ _ _ (contains_spec avx2 b key (rv_bloom _ Hr b Eb))).
    destruct (forallb _ _); [apply lookup_block_returns|done].
  - apply lookup_block_returns.
Qed.

Lemma read_records_returns h : 0 ≤ bh_offset h ∧ 0 ≤ bh_length h → returns (read_records r h w).
Proof.
  intros Hh. unfold read_records. destruct (read_block_total h Hh) as [[e He]|(plain & b & -> & Hob & Hb)].
  { by destruct (read_data_block r h w); cbn [mbind outcome_bind] in *; try done; rewrite He. }
  cbn [mbind outcome_bind]. rewrite Hob. cbn [mbind outcome_bind]. by destruct (block_records_Ok b Hb) as [recs ->].
Qed.

Lemma sst_scan_returns : returns (sst_scan r w).
Proof.
  unfold sst_scan.
  destruct (block_open_total (tr_index_bytes r) (rv_index _ Hr)) as [[e ->]|(ib & -> & Hib)]; [done|].
  cbn [mbind outcome_bind]. destruct (block_records_Ok ib Hib) as [recs Hrecs]. rewrite Hrecs.
  cbn [mbind outcome_bind].
  apply (iter_values _ (λ _, true) (block_iter ib) (proj1 Hib)) in Hrecs. induction Hrecs as [|x recs Hx _ IH]; [done|].
  cbn [scan_blocks]. destruct (decode_block_handle_returns _ Hx) as [Hdret Hdok].
  destruct (decode_block_handle (br_value x)) as [h| | |]; cbn [mbind outcome_bind]; try done.
  pose proof (read_records_returns h (Hdok _ eq_refl)).
  destruct (read_records r h w); cbn [mbind outcome_bind]; try done. by destruct (scan_blocks r recs w).
Qed.

(** The handles of the index decode or are refused, and every block they name
    is read without a panic. *)
Lemma index_handles_total :
  returns (decode_index_handles (tr_index_bytes r)) ∧
  ∀ hs, decode_index_handles (tr_index_bytes r) = Ok hs → Forall (λ h, returns (read_records r h w)) hs.
Proof.
  unfold decode_index_handles.
  destruct (block_open_total (tr_index_bytes r) (rv_index _ Hr)) as [[e ->]|(ib & -> & Hib)]; [done|].
  cbn [mbind outcome_bind]. destruct (block_records_Ok ib Hib) as [recs Hrecs]. rewrite Hrecs.
  cbn [mbind outcome_bind].
  apply (iter_values _ (λ _, true) (block_iter ib) (proj1 Hib)) in Hrecs.
  induction Hrecs as [|x recs Hx _ [IHret IHok]]; [by split; [|intros ? [= <-]]|].
  cbn [decode_handles]. destruct (decode_block_handle_returns _ Hx) as [Hdret Hdok].
  destruct (decode_block_handle (br_value x)) as [h| | |]; cbn [mbind outcome_bind]; try done.
  destruct (decode_handles recs) as [hs| | |]; cbn [mbind outcome_bind]; try done. split; [done|].
  intros ? [= <-]. constructor; [by apply read_records_returns, Hdok|by apply IHok].
Qed.
End TotalReads.

(** ** Streams of arbitrary tables *)

(** What a stream has yet to answer. *)
Definition pending (s : SstStream F) : list (outcome (option (bytes * LookupHit))) :=
  (Ok ∘ Some <$> ss_current s) ++
    (drop (Z.to_nat (ss_next_block s)) (ss_handles s) ≫= block_answers (ss_reader s) w).

Definition stream_sound (s : SstStream F) : Prop :=
  0 ≤ ss_next_block s ≤ len (ss_handles s) ∧
  Forall (λ h, returns (read_records (ss_reader s) h w)) (ss_handles s).

(** Looking for a block with records ends, at a block that has some, at an
    error, or behind the last block. *)
Lemma refill_loop_pending fuel s :
  stream_sound s → ss_current s = [] → len (ss_handles s) - ss_next_block s < Z.of_nat fuel →
  ∃ o s', refill_loop fuel w s = (o, s') ∧ stream_sound s' ∧
    match o with
    | Ok true => ss_current s' ≠ [] ∧ pending s' = pending s
    | Ok false => pending s = [] ∧ pending s' = []
    | Err e => pending s = Err e :: pending s'
    | _ => False
    end.
Proof.
  revert s. induction fuel as [|fuel IH]; intros s [Hn Hok] Hcur Hfuel; [lia|]. cbn [refill_loop].
  assert (pending s = drop (Z.to_nat (ss_next_block s)) (ss_handles s) ≫= block_answers (ss_reader s) w) as ->
    by (unfold pending; by rewrite Hcur).
  rewrite run_get. destruct (Z.ltb_spec (ss_next_block s) (len (ss_handles s))) as [Hlt|Hge].
  - destruct (lookup_lt_is_Some_2 (ss_handles s) (Z.to_nat (ss_next_block s))) as [h Hh]; [lia|].
    rewrite (run_lift _ _ _ h) by (unfold index; decide_bool; by rewrite Hh).
    rewrite run_modify, (drop_S _ _ _ Hh). cbn [mbind list_bind].
    set (s1 := ss_set (ss_next_block s + 1) (ss_current s) s).
    assert (stream_sound s1) as Hs1 by (split; [cbn; lia|done]).
    assert (pending s1 = drop (S (Z.to_nat (ss_next_block s))) (ss_handles s) ≫= block_answers (ss_reader s) w) as Hp1
      by (unfold pending, s1; cbn; rewrite Hcur; by rewrite Z2Nat.inj_add, Nat.add_1_r by lia).
    rewrite <-Hp1. pose proof (Forall_lookup_1 _ _ _ _ Hok Hh) as Hret. unfold block_answers. cbn beta in Hret.
    destruct (read_records (ss_reader s) h w) as [records|e| |] eqn:Er; try done.
    + rewrite (run_lift _ _ _ _ eq_refl). destruct records as [|x records].
      * cbn [fmap list_fmap app]. apply IH; [done|done|cbn; lia].
      * rewrite run_modify. eexists _, _. split; [reflexivity|]. split; [by split; [cbn; lia|]|]. split; [done|].
        unfold pending in *. cbn in Hp1 |- *. rewrite Hcur in Hp1. cbn in Hp1. by rewrite Hp1, Hcur.
    + exists (Err e), s1. by split.
  - exists (Ok false), s. split; [done|]. split; [done|]. rewrite drop_ge by lia. unfold pending.
    by rewrite Hcur, drop_ge by lia.
Qed.

(** One call of [next_record] takes the first pending answer, and answers
    [None] for ever once there is none. *)
Lemma stream_next_pending s :
  stream_sound s →
  ∃ s', stream_next_record w s = (default (Ok None) (head (pending s)), s') ∧ stream_sound s' ∧
    pending s' = tail (pending s).
Proof.
  intros Hs. unfold stream_next_record.
  assert (∀ fuel s x rest, stream_sound s → ss_current s = x :: rest →
    ∃ s', next_record_loop (S fuel) w s = (default (Ok None) (head (pending s)), s') ∧ stream_sound s' ∧
      pending s' = tail (pending s)) as Hcons.
  { intros fuel s1 x rest Hs1 Hcur. cbn [next_record_loop]. rewrite run_get, Hcur, run_modify.
    unfold pending. rewrite Hcur. eexists. by split. }
  destruct (ss_current s) as [|x rest] eqn:Hcur; [|by apply (Hcons 1%nat s x rest)].
  cbn [next_record_loop]. rewrite run_get, Hcur. unfold refill. unfold mbind at 1, st_bind at 1. rewrite run_get.
  destruct (refill_loop_pending (length (ss_handles s) + 1) s Hs Hcur) as (o & s' & -> & Hs' & Ho);
    [destruct Hs as [[? _] _]; lia|].
  destruct o as [[|]|e| |]; try done.
  - destruct Ho as [Hne <-]. destruct (ss_current s') as [|y rest] eqn:Hcur'; [done|].
    by apply (Hcons 0%nat s' y rest).
  - destruct Ho as [-> Hp]. exists s'. by rewrite Hp.
  - rewrite Ho. exists s'. by split.
Qed.

Lemma block_answers_return (r : SstReader F) hs :
  Forall (λ h, returns (read_records r h w)) hs → Forall returns (hs ≫= block_answers r w).
Proof.
  intros Hhs. induction Hhs as [|h hs Hh _ IH]; [constructor|]. cbn. apply Forall_app. split; [|exact IH].
  unfold block_answers. destruct (read_records r h w); try done; [|by constructor].
  apply Forall_forall. by intros o (x & -> & _)%list_elem_of_fmap.
Qed.

Lemma stream_run_pending n s :
  stream_sound s → stream_run n w s = take n (pending s ++ replicate n (Ok None)).
Proof.
  revert s. induction n as [|n IH]; intros s Hs; [done|]. cbn [stream_run].
  destruct (stream_next_pending s Hs) as (s' & -> & Hs' & Hp). rewrite IH, Hp by done.
  destruct (pending s) as [|a rest]; cbn [head tail default app]; [by rewrite (replicate_S n), firstn_cons|].
  rewrite firstn_cons, (replicate_S_end n), app_assoc, (take_app_le (_ ++ _)); [done|]. rewrite length_app, length_replicate. lia.
Qed.
End Total.

(** * Properties *)

(** C15. A table reads back as it was written.  For any sorted records within the
    format's limits, encrypted or not, writing the table to an empty file either
    fails because the store failed or returns the file; then, when reads do not
    fail, opening it with the same key succeeds, the header counts the records,
    and both the materialising scan and the streaming scan return every record
    in order, whatever the cut into blocks. *)
Theorem sst_write_then_scan `{Crc32cLaws} `{Xxh3} `{AesGcmLaws} `{FileLaws F W} `{!ReliableReads F W}
    (f : F) (w : W) (alg : Algorithm) (expected_keys : Z) (p : BloomParams)
    (crypto : option EncryptionCtx) (rs : list BlockRecord)
    (Hempty : contents f w = []) (Hkey : crypto_ok crypto) (Hfits : table_fits expected_keys p rs)
    (Hsorted : StronglySorted key_le rs) :
  match write_table f alg expected_keys p crypto rs w with
  | (Ok f', w') => f' = f ∧
      ∃ r s, open_inner f (decrypts crypto) w' = Ok r ∧ fh_num_entries (tr_header r) = len rs ∧
        sst_scan r w' = Ok (entry_of <$> rs) ∧
        scan_stream r = Ok s ∧ (stream_collect (length rs + 1) w' s).1 = Ok (entry_of <$> rs)
  | (Err _, _) => write_faults F W
  | (Panic, _) | (OutOfFuel, _) => False
  end.
Proof.
  pose proof (wp_write_table crypto Hkey f alg expected_keys p rs w Hempty Hfits Hsorted) as Hw.
  unfold wp in Hw. destruct (write_table f alg expected_keys p crypto rs w) as [[f'| | |] w']; try done.
  destruct Hw as [-> Himg]. destruct Hfits as (Hrs & Hks & _).
  destruct (open_image f w' crypto alg rs Himg Hrs Hks) as (r & chunks & entries & Ho & Hr & Hn & _).
  destruct (stream_all_records r w' rs chunks entries Hr) as (s & Hs & Hat).
  split; [done|]. exists r, s. split_and!; [done|done|by eapply scan_all_records|done|].
  eapply stream_collect_spec; [done|done|]. rewrite length_fmap. lia.
Qed.

Definition toy_ctx : EncryptionCtx :=
  {| ec_aead := aead_new {| aead_key_bytes := replicate 32 7 |}; ec_sstable_id := 9 |}.

Definition sample : list BlockRecord :=
  [rec_put [97] [1; 2] 5; rec_put [97; 98] [] 4; rec_put [98] (replicate 20 3) 7].

Lemma sample_fits : table_fits 100 params_default sample.
Proof.
  assert (Forall record_small sample) as Hs
    by (repeat constructor; unfold record_small, is_u64; cbn; lia).
  split; [exact Hs|]. unfold is_u8. cbn. unfold DEFAULT_NUM_HASHES, DEFAULT_BITS_PER_KEY. lia.
Qed.

Lemma sample_sorted : StronglySorted key_le sample.
Proof. repeat constructor. Qed.

Lemma sst_write_then_scan_witness :
  ∃ w' r, write_table 0 AlgCrc32c 100 params_default (Some toy_ctx) sample mem_new = (Ok 0, w') ∧
    open_inner 0 (decrypts (Some toy_ctx)) w' = Ok r ∧ sst_scan r w' = Ok (entry_of <$> sample).
Proof.
  pose proof (sst_write_then_scan 0 mem_new AlgCrc32c 100 params_default (Some toy_ctx) sample) as Hw.
  pose proof sample_fits as Hf. pose proof sample_sorted as Hs.
  specialize (Hw eq_refl eq_refl Hf Hs).
  destruct (write_table 0 AlgCrc32c 100 params_default (Some toy_ctx) sample mem_new) as [[f'| | |] w'];
    [|destruct Hw..].
  destruct Hw as [-> (r & s & Ho & _ & Hscan & _)]. exists w', r. split; [reflexivity|]. split; [exact Ho|exact Hscan].
Defined.

(** C21. Lookups on a table with one version per key are exact: for every key and snapshot [get] returns the record of that key
    when there is one and its sequence number is not above the snapshot, and
    nothing otherwise, with either probe backend and through filter, index,
    block search and decryption. *)
Theorem sst_get_exact_unique `{Crc32cLaws} `{Xxh3} `{AesGcmLaws} `{FileLaws F W} `{!ReliableReads F W}
    (f : F) (w w' : W) (alg : Algorithm) (expected_keys : Z) (p : BloomParams)
    (crypto : option EncryptionCtx) (rs : list BlockRecord) (avx2 : bool) (key : bytes) (snapshot : Z)
    (Hempty : contents f w = []) (Hkey : crypto_ok crypto) (Hfits : table_fits expected_keys p rs)
    (Hsorted : StronglySorted key_le rs) (Hunique : NoDup (br_key <$> rs))
    (Hwrite : write_table f alg expected_keys p crypto rs w = (Ok f, w')) :
  ∃ r, open_inner f (decrypts crypto) w' = Ok r ∧
    (sst_get avx2 key snapshot w' r).1 = Ok (table_lookup rs key snapshot).
Proof.
  pose proof (wp_write_table crypto Hkey f alg expected_keys p rs w Hempty Hfits Hsorted) as Hw.
  apply (wp_Ok _ _ _ _ _ _ Hw) in Hwrite as [_ Himg]. destruct Hfits as (Hrs & Hks & _).
  destruct (open_image f w' crypto alg rs Himg Hrs Hks) as (r & chunks & entries & Ho & Hr & _).
  exists r. split; [done|]. by eapply get_exact.
Qed.

Lemma sst_get_exact_unique_witness :
  ∃ w' r, write_table 0 AlgCrc32c 100 params_default None sample mem_new = (Ok 0, w') ∧
    open_inner 0 None w' = Ok r ∧
    (sst_get true [98] 7 w' r).1 = Ok (Some {| hit_seqno := 7; hit_op := OpPut; hit_value := replicate 20 3 |}).
Proof.
  pose proof sample_fits as Hf. pose proof sample_sorted as Hs.
  assert (NoDup (br_key <$> sample)) as Hn by (apply (bool_decide_unpack _); vm_compute; exact I).
  assert (∃ w', write_table 0 AlgCrc32c 100 params_default None sample mem_new = (Ok 0, w')) as [w' Hw]
    by (eexists; vm_compute; reflexivity).
  pose proof (sst_get_exact_unique 0 mem_new w' AlgCrc32c 100 params_default None sample true [98] 7) as Hex.
  destruct (Hex eq_refl I Hf Hs Hn Hw) as (r & Ho & Hg).
  exists w', r. split; [exact Hw|]. split; [exact Ho|exact Hg].
Defined.

(** Lookups never invent an answer.  On any table the writer made, with any
    number of versions per key, [get] returns without error or panic, and a hit
    is a record of the table with the key asked for, its own value and
    operation, and a sequence number not above the snapshot. *)
Theorem sst_get_returns_visible `{Crc32cLaws} `{Xxh3} `{AesGcmLaws} `{FileLaws F W} `{!ReliableReads F W}
    (f : F) (w w' : W) (alg : Algorithm) (expected_keys : Z) (p : BloomParams)
    (crypto : option EncryptionCtx) (rs : list BlockRecord) (avx2 : bool) (key : bytes) (snapshot : Z)
    (Hempty : contents f w = []) (Hkey : crypto_ok crypto) (Hfits : table_fits expected_keys p rs)
    (Hsorted : StronglySorted key_le rs)
    (Hwrite : write_table f alg expected_keys p crypto rs w = (Ok f, w')) :
  ∃ r res, open_inner f (decrypts crypto) w' = Ok r ∧
    (sst_get avx2 key snapshot w' r).1 = Ok res ∧
    ∀ hit, res = Some hit →
      ∃ x, x ∈ rs ∧ br_key x = key ∧ into_hit x = hit ∧ br_seqno x ≤ snapshot.
Proof.
  pose proof (wp_write_table crypto Hkey f alg expected_keys p rs w Hempty Hfits Hsorted) as Hw.
  apply (wp_Ok _ _ _ _ _ _ Hw) in Hwrite as [_ Himg]. destruct Hfits as (Hrs & Hks & _).
  destruct (open_image f w' crypto alg rs Himg Hrs Hks) as (r & chunks & entries & Ho & Hr & _).
  destruct (get_sound r w' rs chunks entries Hr avx2 key snapshot) as (res & E & Hres).
  by exists r, res.
Qed.

(** Two versions of one key and an unrelated one. *)
Definition versions : list BlockRecord :=
  [rec_put [97] [1] 5; rec_put [97] [2] 4; rec_put [98] [3] 7].

Lemma versions_fit : table_fits 100 params_default versions.
Proof.
  assert (Forall record_small versions) as Hs
    by (repeat constructor; unfold record_small, is_u64; cbn; lia).
  split; [exact Hs|]. unfold is_u8. cbn. unfold DEFAULT_NUM_HASHES, DEFAULT_BITS_PER_KEY. lia.
Qed.

Lemma sst_get_returns_visible_witness :
  ∃ w' r res, write_table 0 AlgCrc32c 100 params_default None versions mem_new = (Ok 0, w') ∧
    open_inner 0 None w' = Ok r ∧ (sst_get false [97] 4 w' r).1 = Ok res.
Proof.
  pose proof versions_fit as Hf.
  assert (StronglySorted key_le versions) as Hs by (repeat constructor).
  assert (∃ w', write_table 0 AlgCrc32c 100 params_default None versions mem_new = (Ok 0, w')) as [w' Hw]
    by (eexists; vm_compute; reflexivity).
  pose proof (sst_get_returns_visible 0 mem_new w' AlgCrc32c 100 params_default None versions false [97] 4) as Hv.
  destruct (Hv eq_refl I Hf Hs Hw) as (r & res & Ho & Hg & _).
  exists w', r, res. split; [exact Hw|]. split; [exact Ho|exact Hg].
Defined.

(** C36. Reading an arbitrary file is safe.  Whatever bytes the file holds and
    whatever the store answers, opening it returns (a reader or an error,
    never a panic); a reader has a valid header and a valid footer, and the
    encryption flag agrees with the key it was given; every lookup and the
    materialising scan terminate without a panic; and so does starting a
    streaming scan and every call on it, also after an error.  The calls of a
    stream yield, block after block, each block's records or its one error, and
    the end of the stream for ever after: the stream always advances. *)
Theorem sst_reader_total `{Crc32cLaws} `{Xxh3} `{AesGcmLaws} `{FileLaws F W}
    (f : F) (w : W) (crypto : option DecryptionCtx) (Hbytes : bytes_ok (contents f w)) :
  returns (open_inner f crypto w) ∧
  ∀ r, open_inner f crypto w = Ok r →
    file_header_is_valid (tr_header r) = true ∧ footer_is_valid (tr_footer r) = true ∧
    negb (Z.land (fh_flags (tr_header r)) ENCRYPTED =? 0) = bool_decide (is_Some crypto) ∧
    (∀ avx2 key snapshot, returns (sst_get avx2 key snapshot w r).1) ∧ returns (sst_scan r w) ∧
    returns (scan_stream r) ∧
    ∀ s, scan_stream r = Ok s →
      let answers := ss_handles s ≫= block_answers r w in
      Forall returns answers ∧ ∀ n, stream_run n w s = take n (answers ++ replicate n (Ok None)).
Proof.
  destruct (open_inner_total f w Hbytes crypto) as [Hret Hok]. split; [done|].
  intros r Hr. destruct (Hok r Hr) as [Hv Hc]. destruct (index_handles_total f w Hbytes r Hv) as [Hhret Hhs].
  split_and!; [apply Hv|apply Hv| | | | |].
  - rewrite <-Hc. apply Hv.
  - intros. by eapply sst_get_returns.
  - by eapply sst_scan_returns.
  - unfold scan_stream. by destruct (decode_index_handles _).
  - unfold scan_stream. intros s Hs. destruct (decode_index_handles _) as [hs| | |]; try done.
    injection Hs as <-. specialize (Hhs _ eq_refl). cbn. split.
    + by apply block_answers_return.
    + intros n. rewrite (stream_run_pending w); [done|]. split; [cbn; lia|done].
Qed.

(** A table whose first data block has a flipped byte. *)
Definition corrupt_table : MemVfs :=
  let w := (write_table 0 AlgCrc32c 100 params_default None versions mem_new).2 in
  mem_set 0 (<[Z.to_nat FILE_HEADER_REGION_SIZE := 255]> (contents 0 w)) w.

Lemma sst_reader_total_witness :
  bytes_ok (contents 0 corrupt_table) ∧
  ∃ r s e, open_inner 0 None corrupt_table = Ok r ∧ scan_stream r = Ok s ∧
    stream_run 3 corrupt_table s = [Err e; Ok None; Ok None].
Proof.
  assert (bytes_ok (contents 0 corrupt_table)) as H by (apply (bool_decide_unpack _); vm_compute; exact I).
  split; [exact H|]. pose proof (sst_reader_total 0 corrupt_table None H) as [_ Hr].
  destruct (open_inner 0 None corrupt_table) as [r| | |] eqn:Eo; [|vm_compute in Eo; discriminate Eo..].
  destruct (Hr r eq_refl) as (_ & _ & _ & _ & _ & _ & Hs).
  destruct (scan_stream r) as [s| | |] eqn:Es;
    [|vm_compute in Eo; injection Eo as <-; vm_compute in Es; discriminate Es..].
  destruct (Hs s eq_refl) as [_ Hrun]. exists r, s. eexists. split; [reflexivity|]. split; [exact Es|].
  rewrite Hrun. vm_compute in Eo. injection Eo as <-. vm_compute in Es. injection Es as <-.
  vm_compute. reflexivity.
Defined.

(** The limit of [get]: it looks into one block only.  Of two versions of a
    key that end up in different blocks the older is unreachable: with versions
    5 and 4 of the key [97], the first large enough to fill a block (of 64 bytes
    here), a lookup at snapshot 4 answers nothing although the table holds
    version 4. *)
Theorem sst_get_misses_older_version :
  let rs := [rec_put [97] (replicate 64 1) 5; rec_put [97] [2] 4] in
  ∃ sw w1 sw2 w r, create_inner 0 AlgCrc32c 100 params_default None mem_new = (Ok sw, w1) ∧
    (_ ← sst_add_all rs; sst_finish) (set_block_size 64 sw, w1) = (Ok 0, (sw2, w)) ∧
    open_inner 0 None w = Ok r ∧ sst_scan r w = Ok (entry_of <$> rs) ∧
    (sst_get false [97] 4 w r).1 = Ok None ∧
    table_lookup rs [97] 4 = Some {| hit_seqno := 4; hit_op := OpPut; hit_value := [2] |}.
Proof.
  cbn zeta. eexists _, _, _, _, _. split; [vm_compute; reflexivity|].
  repeat (split; [vm_compute; reflexivity|]). vm_compute; reflexivity.
Qed.
