(* ===== verification/Fuzz.v ===== *)
(** The fuzz targets: [crates/paddock-fuzz/].

    [BorrowedFile] and [OneFileVfs] of [src/lib.rs], and the four drivers of
    [fuzz_targets/], which feed arbitrary bytes to the decoders.  What the
    fuzzer looks for, a panic or a failed assertion, is shown not to exist. *)

From S2P Require Import Prelude Checksum Vfs WalBatch WalFormat WalReader Bloom SstFormat.
From S2P Require Import Block Crypto SstWriter SstReader.

(** * [BorrowedFile] and [OneFileVfs] *)

Record BorrowedFile := { bf_bytes : bytes }.

Definition borrowed_append {W} (f : BorrowedFile) (d : bytes) : st W Z := λ w, (Err (Io IoUnsupported), w).
Definition borrowed_write_at {W} (f : BorrowedFile) (d : bytes) (off : Z) : st W () := λ w,
  (Err (Io IoUnsupported), w).
Definition borrowed_sync {W} (f : BorrowedFile) : st W () := mret tt.

Definition borrowed_read_at {W} (f : BorrowedFile) (n off : Z) (w : W) : outcome bytes :=
  read_slice (bf_bytes f) n off.

Definition borrowed_size {W} (f : BorrowedFile) (w : W) : outcome Z := Ok (len (bf_bytes f)).

#[global] Instance borrowed_vfs_file {W} : VfsFile BorrowedFile W := {|
  vf_append := borrowed_append; vf_write_at := borrowed_write_at; vf_sync := borrowed_sync;
  vf_read_at := borrowed_read_at; vf_size := borrowed_size |}.

Record OneFileVfs := { of_inner : bytes }.

#[global] Instance one_file_vfs : Vfs BorrowedFile OneFileVfs := {|
  open_writable _ := λ w, (Err (Io IoUnsupported), w);
  open_readonly _ w := Ok {| bf_bytes := of_inner w |};
  rename _ _ := mret tt; remove _ := mret tt; list_dir _ _ := Ok [] |}.

(** * The targets *)

(** [if let Ok(a) = m { k }], and [let _ = m]. *)
Definition if_ok {A} (m : outcome A) (k : A → outcome ()) : outcome () :=
  match m with Ok a => k a | Err _ => Ok tt | Panic => Panic | OutOfFuel => OutOfFuel end.

Definition ignore {A} (m : outcome A) : outcome () := if_ok m (λ _, Ok tt).

Fixpoint for_each {A} (l : list A) (k : A → outcome ()) : outcome () :=
  match l with [] => Ok tt | a :: l => _ ← k a; for_each l k end.

Definition bloom_probes : list bytes :=
  [[]; string_bytes "hello"; [0; 0; 0]; [255]; string_bytes "some-key"].

Definition fuzz_bloom_decode `{Xxh3} (avx2 : bool) (data : bytes) : outcome () :=
  if_ok (bloom_decode data) (λ filter, for_each bloom_probes (λ k, ignore (bloom_contains avx2 filter k))).

Definition sst_probes : list bytes :=
  [[]; string_bytes "a"; string_bytes "key"; [255; 255]; string_bytes "random"].

Section Targets.
Context `{Crc32c} `{Xxh3} `{AesGcm}.

(** Lookups with their results ignored; the reader counts pruned ones. *)
Fixpoint probe_all (avx2 : bool) (keys : list bytes) : st (SstReader BorrowedFile) () := λ r,
  match keys with
  | [] => (Ok tt, r)
  | k :: keys =>
      match sst_get avx2 k U64_MAX tt r with
      | (Ok _, r) | (Err _, r) => probe_all avx2 keys r
      | (Panic, r) => (Panic, r)
      | (OutOfFuel, r) => (OutOfFuel, r)
      end
  end.

Definition fuzz_sstable_parse (avx2 : bool) (data : bytes) : outcome () :=
  if_ok (sst_open {| bf_bytes := data |} tt) (λ reader,
    match probe_all avx2 sst_probes reader with
    | (Ok _, reader) => ignore (sst_scan reader tt)
    | (r, _) => r
    end).

(** The loop of [wal_recovery], at most [budget] records. *)
Fixpoint drain (budget : nat) (r : SegmentReader BorrowedFile) : outcome () :=
  match budget with
  | O => Ok tt
  | S budget =>
      match next_record tt r with
      | (Ok (ReadRecord _), r) => drain budget r
      | (Ok _, _) | (Err _, _) => Ok tt
      | (Panic, _) => Panic
      | (OutOfFuel, _) => OutOfFuel
      end
  end.

Definition fuzz_wal_recovery (data : bytes) : outcome () :=
  if_ok (open {| bf_bytes := data |} tt) (drain (8 * 1024)).
End Targets.

#[global] Instance WriteBatch_eq_dec : EqDecision WriteBatch.
Proof. solve_decision. Defined.

Definition fuzz_writebatch_decode (data : bytes) : outcome () :=
  if_ok (decode data) (λ batch,
    bytes ← encode batch;
    match decode bytes with
    | Ok again => if bool_decide (batch = again) then Ok tt else Panic
    | Err _ | Panic => Panic
    | OutOfFuel => OutOfFuel
    end).

(** * The file's laws *)

#[global] Instance borrowed_file_laws {W} : FileLaws BorrowedFile W.
Proof.
  refine {| contents := λ f _, bf_bytes f; write_faults := True; read_faults := False |}; cbn; try done.
  - intros f d w w' e _. split; [by left|]. exists []. split; [apply prefix_nil|by rewrite app_nil_r].
  - auto.
  - intros f n off w b E Hn Hoff. destruct (read_slice_Ok _ _ _ _ E Hn Hoff). auto.
  - intros f n off w b. apply read_slice_sub.
  - intros f n off w e E Hn Hoff Hu. right. by eapply read_slice_Err.
  - intros f n off w. apply read_slice_returns.
  - by intros f w n [= <-].
Defined.

(** * No target panics *)

Lemma if_ok_done {A} (m : outcome A) k : returns m → (∀ a, m = Ok a → k a = Ok tt) → if_ok m k = Ok tt.
Proof. destruct m; cbn; naive_solver. Qed.

Lemma ignore_done {A} (m : outcome A) : returns m → ignore m = Ok tt.
Proof. intros Hm. by apply if_ok_done. Qed.

Lemma for_each_done {A} (l : list A) k : (∀ a, k a = Ok tt) → for_each l k = Ok tt.
Proof. intros Hk. induction l as [|a l IH]; cbn; [done|]. by rewrite Hk. Qed.

Lemma bloom_target_done `{Xxh3} avx2 data : bytes_ok data → fuzz_bloom_decode avx2 data = Ok tt.
Proof.
  intros Hok. apply if_ok_done; [apply bloom_decode_returns|]. intros f [Hf _]%bloom_decode_Ok; [|done].
  apply for_each_done. intros k. apply ignore_done. by rewrite contains_spec.
Qed.

Lemma batch_target_done data : bytes_ok data → fuzz_writebatch_decode data = Ok tt.
Proof.
  intros Hok. apply if_ok_done; [apply decode_returns|]. intros b Hb%decode_fits; [|done].
  unfold encode. rewrite encode_into_ok by done. cbn [mbind outcome_bind app]. rewrite decode_wire by done. by rewrite bool_decide_true.
Qed.

Section Done.
Context `{Crc32cLaws} `{Xxh3} `{AesGcmLaws}.

Lemma reader_valid_same f (r r' : SstReader BorrowedFile) : same_reader r r' → reader_valid f r → reader_valid f r'.
Proof. by intros [->| ->] []. Qed.

Lemma probe_all_done avx2 keys f r :
  bytes_ok (bf_bytes f) → reader_valid f r → ∃ r', probe_all avx2 keys r = (Ok tt, r') ∧ reader_valid f r'.
Proof.
  intros Hf. revert r. induction keys as [|k keys IH]; intros r Hr; cbn [probe_all]; [by exists r|].
  pose proof (sst_get_returns f tt Hf r Hr avx2 k U64_MAX) as Hret.
  pose proof (sst_get_reader avx2 k U64_MAX tt r) as Hsame.
  destruct (sst_get avx2 k U64_MAX tt r) as [[]]; cbn in *; try done; eapply IH; by eapply reader_valid_same.
Qed.

Lemma sstable_target_done avx2 data : bytes_ok data → fuzz_sstable_parse avx2 data = Ok tt.
Proof.
  intros Hok. set (f := {| bf_bytes := data |}). assert (bytes_ok (contents f tt)) as Hf by done.
  destruct (open_inner_total f tt Hf None) as [Hret Hvalid].
  apply if_ok_done; [done|]. intros r Hr. destruct (Hvalid r Hr) as [Hr' _].
  destruct (probe_all_done avx2 sst_probes f r Hok Hr') as (r2 & -> & Hr2).
  apply ignore_done. by apply (sst_scan_returns f tt Hf).
Qed.

Lemma drain_done budget area (r : SegmentReader BorrowedFile) :
  reader_on tt area r → bytes_ok area → drain budget r = Ok tt.
Proof.
  intros Hr Hok. revert r Hr. induction budget as [|budget IH]; intros r Hr; [done|]. cbn [drain].
  pose proof (next_record_wp tt area r Hr Hok) as Hwp. unfold wp in Hwp.
  destruct (next_record tt r) as [[[]| | |] r']; try done. apply IH, Hwp.
Qed.

Lemma wal_target_done data : bytes_ok data → is_u64 (len data) → fuzz_wal_recovery data = Ok tt.
Proof.
  intros Hok Hu. apply if_ok_done; [apply open_returns|].
  intros r (area & Hr & _ & Ha)%open_reader; [|done..]. by eapply drain_done.
Qed.
End Done.

(** C35. Whatever bytes the fuzzer feeds them, the four targets run to their end:
    opening, probing and scanning a table, draining a log segment, decoding and
    probing a filter never panic or loop, and a decoded batch encodes to bytes
    that decode to the same batch.  A slice has at most [2 ^ 64] bytes. *)
Theorem fuzz_targets_never_panic `{Crc32cLaws} `{Xxh3} `{AesGcmLaws} (avx2 : bool) (data : bytes)
    (Hok : bytes_ok data) (Hlen : is_u64 (len data)) :
  fuzz_bloom_decode avx2 data = Ok tt ∧ fuzz_sstable_parse avx2 data = Ok tt ∧
  fuzz_wal_recovery data = Ok tt ∧ fuzz_writebatch_decode data = Ok tt.
Proof.
  auto using bloom_target_done, sstable_target_done, wal_target_done, batch_target_done.
Qed.

Lemma fuzz_targets_never_panic_witness :
  decode [1; 1; 2; 7; 8] = Ok {| ops := [Delete [7; 8]] |} ∧ fuzz_writebatch_decode [1; 1; 2; 7; 8] = Ok tt.
Proof.
  split; [vm_compute; reflexivity|]. apply (fuzz_targets_never_panic true).
  - apply (bool_decide_unpack _). vm_compute. exact I.
  - done.
Defined.
