(* ===== verification/Frames.v ===== *)
(** The writers touch no file but their own.

    The table writer ([sstable/writer.rs]) and the log writer
    ([wal/writer.rs]) hold the file they append to; whether an operation
    succeeds or fails, every other file and every name stays as it was. *)

From S2P Require Import Prelude Varint Checksum Vfs VfsLaws WalBatch WalFormat WalLayout WalWriter.
From S2P Require Import Bloom SstFormat Block Crypto SstWriter.

Section SstFrames.
Context `{Crc32c} `{Xxh3} `{AesGcm} {F W : Type} `{VfsLaws F W}.

Abbreviation sst_framed := (framed (W := W) (sw_file (F := F))).

Lemma align_framed s : sst_framed align_to_block_boundary s.
Proof. unfold align_to_block_boundary. repeat frame_step. Qed.

Lemma write_block_framed plain s : sst_framed (write_block plain) s.
Proof. unfold write_block. repeat (apply align_framed || frame_step). Qed.

Lemma flush_block_framed s : sst_framed flush_block s.
Proof. unfold flush_block. repeat (apply write_block_framed || frame_step). Qed.

Lemma sst_add_framed key value seqno op s : sst_framed (sst_add key value seqno op) s.
Proof. unfold sst_add. repeat (apply flush_block_framed || frame_step). Qed.

Lemma sst_add_all_framed rs s : sst_framed (sst_add_all rs) s.
Proof.
  revert s. induction rs as [|r rs IH]; intros s; cbn [sst_add_all]; [apply framed_ret|].
  apply framed_bind; [apply sst_add_framed|intros _ s' _; apply IH].
Qed.

Lemma write_filter_framed s : sst_framed write_filter s.
Proof. unfold write_filter. repeat frame_step. Qed.

Lemma write_index_framed s : sst_framed write_index s.
Proof. unfold write_index, build_index_block. repeat frame_step. Qed.

Lemma sst_finish_framed s : sst_framed sst_finish s.
Proof.
  unfold sst_finish.
  repeat (apply flush_block_framed || apply write_filter_framed || apply write_index_framed || frame_step).
Qed.

Lemma create_inner_file (f : F) alg n p crypto (w : W) sw w' :
  create_inner f alg n p crypto w = (Ok sw, w') → sw_file sw = f.
Proof.
  unfold create_inner, mbind, st_bind. destruct (vf_append _ _ _) as [[off| | |] w1]; try done.
  destruct (n =? 0); [by intros [= <- <-]|].
  destruct (st_lift (bloom_new n p) w1) as [[b| | |] w2]; try done. by intros [= <- <-].
Qed.

Lemma create_inner_only (f : F) alg n p crypto (w : W) : only_writes f w (create_inner f alg n p crypto w).2.
Proof.
  pose proof (append_only f (zeros FILE_HEADER_REGION_SIZE) w) as Ha.
  unfold create_inner, mbind, st_bind. destruct (vf_append _ _ _) as [[off| | |] w1]; try done.
  destruct (n =? 0); [done|]. unfold st_lift. by destruct (bloom_new n p).
Qed.

(** A table write, successful or not, touches only its file. *)
Lemma write_table_only (f : F) alg n p crypto rs (w : W) : only_writes f w (write_table f alg n p crypto rs w).2.
Proof.
  pose proof (create_inner_only f alg n p crypto w) as Hc. unfold write_table.
  destruct (create_inner f alg n p crypto w) as [[sw| | |] w1] eqn:E; try done. cbn [snd] in Hc.
  assert (sst_framed (_ ← sst_add_all rs; sst_finish) (sw, w1)) as [_ Hrun]
    by (apply framed_bind; [apply sst_add_all_framed|intros; apply sst_finish_framed]).
  cbn [fst snd] in Hrun. rewrite (create_inner_file _ _ _ _ _ _ _ _ E) in Hrun.
  destruct ((sst_add_all rs ≫= _) (sw, w1)) as [r [sw' w']]. cbn [snd] in *. by etrans.
Qed.
End SstFrames.

Section WalFrames.
Context `{Crc32c} {F W : Type} `{VfsLaws F W}.

Abbreviation wal_framed := (framed (W := W) (file (F := F))).

Lemma pad_framed s : wal_framed pad_block_if_header_would_not_fit s.
Proof. unfold pad_block_if_header_would_not_fit. repeat frame_step. Qed.

Lemma write_fragment_framed ty seqno payload s : wal_framed (write_fragment ty seqno payload) s.
Proof. unfold write_fragment. repeat frame_step. Qed.

Lemma append_fragments_framed fuel seqno payload first s :
  wal_framed (append_fragments fuel seqno payload first) s.
Proof.
  revert payload first s. induction fuel as [|fuel IH]; intros payload first s; cbn [append_fragments];
    repeat (apply write_fragment_framed || apply pad_framed || apply IH || frame_step).
Qed.

Lemma append_record_framed seqno payload s : wal_framed (append_record seqno payload) s.
Proof. unfold append_record. repeat (apply append_fragments_framed || apply pad_framed || frame_step). Qed.

Lemma wal_sync_framed s : wal_framed sync s.
Proof. unfold sync. repeat frame_step. Qed.

Lemma wal_create_only (f : F) id seqno (w : W) : only_writes f w (create f id seqno w).2.
Proof.
  unfold create, mbind, st_bind.
  pose proof (append_only f (segment_header_as_bytes (segment_header_new_signed id seqno)) w) as Ha.
  by destruct (vf_append _ _ _) as [[off| | |] w1].
Qed.

Lemma wal_create_file (f : F) id seqno (w : W) sw w' : create f id seqno w = (Ok sw, w') → file sw = f.
Proof.
  unfold create, mbind, st_bind. destruct (vf_append _ _ _) as [[off| | |] w1]; try done. by intros [= <- <-].
Qed.
End WalFrames.
