(* ===== verification/UnitLog.v ===== *)
(** The tests of the write-ahead log: those in [wal/writer.rs] and
    [wal/reader.rs], and [tests/wal_round_trip.rs], on [MemVfs] with the bitwise
    CRC32C. *)

From stdpp Require Import pretty.
From S2P Require Import Prelude TestKit Checksum Vfs WalBatch WalFormat WalLayout WalWriter WalReader VfsLaws Frames UnitCodec.

(** * [wal/writer.rs] *)

Definition open_segment_at (path : string) (segment_id first_seqno : Z) : st MemVfs (SegmentWriter MemFile) :=
  f ← st_unwrap (open_writable path);
  st_unwrap (create f segment_id first_seqno).

(** [writer.append_record(seqno, payload).unwrap()], on a writer that is handed on. *)
Definition append_to (sw : SegmentWriter MemFile) (seqno : Z) (payload : bytes) :
    st MemVfs (Z * SegmentWriter MemFile) :=
  st_unwrap (owning sw (append_record seqno payload)).

Definition sync_on (sw : SegmentWriter MemFile) : st MemVfs (() * SegmentWriter MemFile) :=
  st_unwrap (owning sw sync).

Definition record_spanning_two_blocks : st MemVfs () :=
  writer ← open_segment_at "wal" 1 0;
  let payload := replicate (Z.to_nat BLOCK_SIZE) 0xAB in
  '(_, writer) ← append_to writer 7 payload;
  let expected := 2 * RECORD_HEADER_SIZE + len payload in
  st_lift (assert_eq (bytes_written writer) expected).

Definition record_pads_block : st MemVfs () :=
  writer ← open_segment_at "wal" 1 0;
  let first_payload := replicate (Z.to_nat (BLOCK_SIZE - RECORD_HEADER_SIZE - 8)) 0xCD in
  '(_, writer) ← append_to writer 1 first_payload;
  let before := bytes_written writer in
  '(_, writer) ← append_to writer 2 (lit "tiny");
  let after := bytes_written writer in
  let new_record := RECORD_HEADER_SIZE + 4 in
  st_lift (assert_eq (after - before) (8 + new_record)).

Definition wal_writer_tests : list test := [
  Test "create_writes_segment_header" (run (
    _ ← open_segment_at "wal" 7 100;
    w ← st_get;
    st_lift (
      reader ← unwrap (open_readonly "wal" w);
      size ← unwrap (vf_size reader w);
      _ ← assert_eq size SEGMENT_HEADER_SIZE;
      buf ← unwrap (vf_read_at reader SEGMENT_HEADER_SIZE 0 w);
      h ← expect (segment_header_from_bytes buf);
      _ ← assert_that (segment_header_is_valid h);
      _ ← assert_eq (sh_segment_id h) 7;
      assert_eq (sh_first_seqno h) 100)) mem_new);
  Test "small_record_fits_as_full_in_one_block" (run (
    writer ← open_segment_at "wal" 1 0;
    payload ← st_lift (encode (batch_put batch_new (lit "k") (lit "v")));
    '(off, writer) ← append_to writer 42 payload;
    _ ← st_lift (assert_eq off 0);
    st_lift (assert_eq (bytes_written writer) (RECORD_HEADER_SIZE + len payload))) mem_new);
  Test "record_spanning_two_blocks_splits_into_first_last" (run record_spanning_two_blocks mem_new);
  Test "record_pads_block_when_remaining_space_is_too_small_for_header" (run record_pads_block mem_new);
  Test "rotation_threshold_triggers_should_rotate" (run (
    writer ← open_segment_at "wal" 1 0;
    let writer := set_rotate_at 1024 writer in
    _ ← st_lift (assert_that (negb (should_rotate writer)));
    '(_, writer) ← append_to writer 1 (zeros 2048);
    st_lift (assert_that (should_rotate writer))) mem_new);
  Test "sync_is_idempotent_on_memvfs" (run (
    writer ← open_segment_at "wal" 1 0;
    '(_, writer) ← sync_on writer;
    '(_, writer) ← sync_on writer;
    mret tt) mem_new)
].

(** * [wal/reader.rs] *)

Fixpoint append_batches (ops : list (Z * WriteBatch)) (sw : SegmentWriter MemFile) : st MemVfs (SegmentWriter MemFile) :=
  match ops with
  | [] => mret sw
  | (seqno, batch) :: ops =>
      encoded ← st_lift (encode batch);
      '(_, sw) ← append_to sw seqno encoded;
      append_batches ops sw
  end.

Definition write_segment_at (path : string) (ops : list (Z * WriteBatch)) : st MemVfs () :=
  writer ← open_segment_at path 1 (default 0 (fst <$> head ops));
  _ ← append_batches ops writer;
  mret tt.

(** The callback [|v| { got.push(v); Ok(()) }]. *)
Definition push_view (v : RecordView) : st (list RecordView) () := st_modify (λ got, got ++ [v]).

Definition replay_with {A} (on_record : RecordView → st A ()) (a : A) (path : string) :
    st MemVfs (A * ReplayOutcome) := λ w,
  (f ← unwrap (open_readonly path w);
   reader ← unwrap (open f w);
   let '(out, (_, a)) := replay on_record w (reader, a) in
   out ← unwrap out;
   Ok (a, out), w).

Definition replay_all : string → st MemVfs (list RecordView * ReplayOutcome) := replay_with push_view [].

Definition is_clean (o : ReplayOutcome) : bool := match o with Clean => true | _ => false end.
Definition is_torn (o : ReplayOutcome) : bool := match o with ReplayTornTail _ _ => true | _ => false end.

(** Writing a segment, replaying it and comparing every record. *)
Definition segment_round_trip (ops : list (Z * WriteBatch)) : outcome () := run (
  _ ← write_segment_at "s" ops;
  '(records, out) ← replay_all "s";
  st_lift (
    _ ← assert_that (is_clean out);
    _ ← assert_eq (len records) (len ops);
    each (zip ops records) (λ '((seqno, batch), got),
      _ ← assert_eq (rv_seqno got) seqno;
      decoded ← unwrap (decode (rv_payload got));
      assert_eq decoded batch))) mem_new.

Definition small_batch : WriteBatch := batch_put batch_new (lit "k") (lit "v").

Definition write_raw (path : string) (b : bytes) : st MemVfs () :=
  f ← st_unwrap (open_writable path);
  _ ← st_unwrap (vf_append f b);
  mret tt.

(** [SegmentReader::open(vfs.open_readonly(path).unwrap()).unwrap_err()]. *)
Definition open_error (path : string) : st MemVfs Error := λ w,
  (f ← unwrap (open_readonly path w); unwrap_err (open f w), w).

Definition torn_tail_truncates_cleanly : st MemVfs () :=
  _ ← write_segment_at "s" [(1, small_batch); (2, small_batch)];
  writer ← st_unwrap (open_writable "s_torn");
  w ← st_get;
  f ← st_lift (unwrap (open_readonly "s" w));
  size ← st_lift (unwrap (vf_size f w));
  all ← st_lift (unwrap (vf_read_at f size 0 w));
  encoded ← st_lift (encode small_batch);
  let keep := SEGMENT_HEADER_SIZE + RECORD_HEADER_SIZE + len encoded + 4 in
  kept ← st_lift (slice_to all keep);
  _ ← st_unwrap (vf_append writer kept);
  '(got, out) ← replay_all "s_torn";
  _ ← st_lift (assert_eq (len got) 1);
  st_lift (assert_that (is_torn out)).

(** [reason.contains("version")]. *)
Definition mentions_version (e : Error) : bool :=
  match e with
  | InvalidFormat _ r => match String.index 0 "version" (template r) with Some _ => true | None => false end
  | _ => false
  end.

Definition numbered (i : nat) : Z * WriteBatch :=
  (Z.of_nat i, batch_put batch_new (lit ("key-" +:+ pretty (N.of_nat i))) (replicate 32 (u8 (Z.of_nat i)))).

Definition wal_reader_tests : list test := [
  Test "empty_segment_replays_clean" (segment_round_trip []);
  Test "single_record_round_trip" (segment_round_trip [(42, small_batch)]);
  Test "many_small_records_round_trip" (segment_round_trip (numbered <$> seq 0 200));
  Test "record_spanning_multiple_blocks_reassembles" (
    segment_round_trip [(7, batch_put batch_new (lit "big") (replicate (Z.to_nat (3 * BLOCK_SIZE + 17)) 0xCD))]);
  Test "torn_tail_truncates_cleanly" (run torn_tail_truncates_cleanly mem_new);
  Test "header_with_bad_magic_is_rejected" (run (
    _ ← write_raw "bad" (replicate 64 0xFF);
    err ← open_error "bad";
    st_lift (assert_that (is_invalid_format err))) mem_new);
  Test "header_with_bad_version_is_rejected" (run (
    let h := sh_set_version (FORMAT_VERSION + 1) (segment_header_new_signed 1 0) in
    _ ← write_raw "badv" (segment_header_as_bytes h);
    err ← open_error "badv";
    st_lift (assert_that (mentions_version err))) mem_new);
  Test "header_with_bad_crc_is_corruption" (run (
    let h := segment_header_new_signed 1 0 in
    let h := {| sh_magic := sh_magic h; sh_version := sh_version h; sh_segment_id := 99;
                sh_first_seqno := sh_first_seqno h; sh_header_crc32c := sh_header_crc32c h;
                sh_reserved := sh_reserved h |} in
    _ ← write_raw "badcrc" (segment_header_as_bytes h);
    err ← open_error "badcrc";
    st_lift (assert_that (is_corruption err))) mem_new)
].

(** * [tests/wal_round_trip.rs] *)

Definition number_from (first : Z) (batches : list WriteBatch) : list (Z * WriteBatch) :=
  imap (λ i b, (first + Z.of_nat i, b)) batches.

(** Reading the records one by one, and then the end of the segment. *)
Fixpoint read_back (ops : list (Z * WriteBatch)) (w : MemVfs) : st (SegmentReader MemFile) () :=
  match ops with
  | [] =>
      out ← st_unwrap (next_record w);
      match out with EndOfSegment => mret tt | _ => st_lift Panic end
  | (seqno, batch) :: ops =>
      out ← st_unwrap (next_record w);
      match out with
      | ReadRecord view =>
          _ ← st_lift (assert_eq (rv_seqno view) seqno);
          decoded ← st_lift (unwrap (decode (rv_payload view)));
          _ ← st_lift (assert_eq decoded batch);
          read_back ops w
      | _ => st_lift Panic
      end
  end.

Definition run_round_trip (batches : list WriteBatch) : outcome () := run (
  writer ← open_segment_at "wal" 1 100;
  _ ← append_batches (number_from 100 batches) writer;
  w ← st_get;
  st_lift (
    f ← unwrap (open_readonly "wal" w);
    reader ← unwrap (open f w);
    run (read_back (number_from 100 batches) w) reader)) mem_new.

Definition fixed_round_trip_small_set : outcome () :=
  let a := batch_put batch_new (lit "a") (lit "1") in
  let b := batch_delete batch_new (lit "x") in
  let c := batch_put batch_new (lit "big") (replicate (Z.to_nat 50000) 0xCD) in
  run_round_trip [a; b; c].

(** The callback [|_| { seen += 1; Ok(()) }]. *)
Definition count_view (_ : RecordView) : st Z () := st_modify (λ seen, seen + 1).

Definition prop_replay_returns_clean_outcome (batches : list WriteBatch) : outcome () := run (
  writer ← open_segment_at "wal" 1 0;
  _ ← append_batches (number_from 0 batches) writer;
  '(seen, out) ← replay_with count_view 0 "wal";
  _ ← st_lift (assert_eq seen (len batches));
  st_lift (assert_that (is_clean out))) mem_new.

(** * A segment being written, on [MemVfs] *)

Record written (path : string) (hdr recs : bytes) (sw : SegmentWriter MemFile) (w : MemVfs) : Prop := {
  wr_ok : writer_ok hdr recs (sw, w);
  wr_named : mv_files w !! path = Some (file sw)
}.

Definition header_of (id first : Z) : bytes := segment_header_as_bytes (segment_header_new_signed id first).

Definition wire (o : Z * WriteBatch) : Z * bytes := (o.1, wire_batch o.2).

Lemma open_segment_new path id first :
  ∃ sw w, open_segment_at path id first mem_new = (Ok sw, w) ∧ written path (header_of id first) [] sw w.
Proof.
  set (w0 := {| mv_files := {[ path := 0 ]}; mv_inodes := {[ 0 := [] ]}; mv_next := 1 |}).
  assert (open_writable path mem_new = (Ok 0, w0)) as E by done.
  pose proof (create_wp (F := MemFile) (W := MemVfs) 0 id first w0 eq_refl) as Hc.
  pose proof (wal_create_only (F := MemFile) (W := MemVfs) 0 id first w0) as Hn.
  unfold open_segment_at. rewrite (run_bind _ _ _ 0 w0) by (unfold st_unwrap; by rewrite E).
  unfold st_unwrap, wp in *. destruct (create 0 id first w0) as [[sw|e| |] w]; try done.
  - destruct Hc as [Hf Hok]. exists sw, w. split; [done|]. split; [exact Hok|].
    rewrite Hf. pose proof (ow_named _ _ _ Hn path) as Hp. cbn in Hp. rewrite Hp. apply lookup_singleton_eq.
  - by destruct Hc as [?%no_write_faults _].
Qed.

Section Written.
Context (path : string) (hdr : bytes).

Lemma append_to_ok recs sw w seqno payload :
  written path hdr recs sw w → seg_fits hdr (len recs + len (record_bytes (len recs) (seqno, payload))) →
  ∃ sw' w', append_to sw seqno payload w = (Ok (len recs, sw'), w') ∧ file sw' = file sw ∧
    written path hdr (recs ++ record_bytes (len recs) (seqno, payload)) sw' w'.
Proof.
  intros [Hok Hp] Hfit. pose proof (append_record_wp hdr recs seqno payload (sw, w) Hok Hfit) as Hw.
  destruct (append_record_framed (F := MemFile) (W := MemVfs) seqno payload (sw, w)) as [_ Hn].
  unfold append_to, st_unwrap, owning, wp in *.
  destruct (append_record seqno payload (sw, w)) as [[n|e| |] [sw' w']]; try done.
  - destruct Hw as (-> & Hf & Hok'). exists sw', w'. split; [done|]. split; [exact Hf|]. split; [exact Hok'|].
    pose proof (ow_named _ _ _ Hn path) as Hp'. cbn in Hp', Hf. by rewrite Hp', Hf.
  - by destruct Hw as [?%no_write_faults _].
Qed.

Lemma append_batches_ok ops : ∀ recs sw w,
  written path hdr recs sw w → Forall (λ o, batch_fits o.2) ops →
  seg_fits hdr (len recs + len (records_bytes (len recs) (wire <$> ops))) →
  ∃ sw' w', append_batches ops sw w = (Ok sw', w') ∧
    written path hdr (recs ++ records_bytes (len recs) (wire <$> ops)) sw' w'.
Proof.
  induction ops as [|[seqno batch] ops IH]; intros recs sw w Hw Hops Hfit; cbn [append_batches fmap list_fmap records_bytes] in *.
  { exists sw, w. split; [done|]. by rewrite app_nil_r. }
  apply Forall_cons in Hops as [Hb Hops]. cbn [snd] in Hb.
  rewrite (run_lift _ _ _ (wire_batch batch)) by (unfold encode; by rewrite encode_into_ok).
  change (wire (seqno, batch)) with (seqno, wire_batch batch) in *.
  set (b := record_bytes (len recs) (seqno, wire_batch batch)) in *.
  destruct (append_to_ok recs sw w seqno (wire_batch batch) Hw) as (sw1 & w1 & E & _ & Hw1).
  { unfold seg_fits in *. fold b. revert Hfit. len_simpl. lia. }
  rewrite (run_bind _ _ _ _ _ E). fold b in Hw1.
  destruct (IH (recs ++ b) sw1 w1 Hw1 Hops) as (sw2 & w2 & E2 & Hw2).
  { replace (len (recs ++ b)) with (len recs + len b) by len_lia. unfold seg_fits in *. revert Hfit.
    rewrite length_app, Nat2Z.inj_add. lia. }
  exists sw2, w2. split; [done|]. replace (len (recs ++ b)) with (len recs + len b) in Hw2 by len_lia.
  by rewrite <-app_assoc in Hw2.
Qed.
End Written.

(** * Reading it back *)

Section ReadBack.
Context (path : string) (id first : Z) (Hid : is_u64 id) (Hfirst : is_u64 first).
Context (rs : list (Z * bytes)) (sw : SegmentWriter MemFile) (w : MemVfs).
Context (Hw : written path (header_of id first) (records_bytes 0 rs) sw w) (Hrs : Forall record_ok rs).
Context (Hfit : is_u64 (SEGMENT_HEADER_SIZE + len (records_bytes 0 rs))).

Lemma replay_with_ok {A} (on_record : RecordView → st A ()) a a' :
  feed on_record rs a = (Ok tt, a') → replay_with on_record a path w = (Ok (a', Clean), w).
Proof.
  intros Hfeed. destruct Hw as [[Hc _ _ _] Hp]. cbn [fst snd] in *.
  destruct (recover_prefix on_record (file sw) w id first rs (records_bytes 0 rs) a Hc Hid Hfirst Hfit Hrs ltac:(done))
    as (out & _ & Hclean & Hrec). rewrite Hclean, complete_records_all in Hrec by done.
  rewrite (run_bind _ _ _ _ _ Hfeed) in Hrec.
  unfold replay_with, open_readonly. cbn [mem_vfs]. unfold mem_open_readonly. rewrite Hp. cbn [ok_or unwrap mbind outcome_bind].
  unfold recover in Hrec. destruct (open (file sw) w) as [r| | |]; try done. cbn [unwrap mbind outcome_bind].
  destruct (replay on_record w (r, a)) as [o [r' a1]]. injection Hrec as -> ->. done.
Qed.
End ReadBack.

Lemma feed_push rs got : feed push_view rs got = (Ok tt, got ++ (view_of <$> rs)).
Proof.
  revert got. induction rs as [|r rs IH]; intros got; cbn [feed]; [by rewrite app_nil_r|].
  rewrite (run_bind _ _ _ tt (got ++ [view_of r])) by done. rewrite IH. by rewrite <-app_assoc.
Qed.

Lemma feed_count rs n : feed count_view rs n = (Ok tt, n + len rs).
Proof.
  revert n. induction rs as [|r rs IH]; intros n; cbn [feed]; [cbn; by rewrite Z.add_0_r|].
  rewrite (run_bind _ _ _ tt (n + 1)) by done. rewrite IH. f_equal. cbn [length]. lia.
Qed.

Lemma read_back_ok ops (w : MemVfs) area : ∀ r : SegmentReader MemFile,
  reader_on w area r → sr_cursor r ≤ len area → Forall (λ o, is_u64 o.1 ∧ batch_fits o.2) ops →
  drop (Z.to_nat (sr_cursor r)) area = records_bytes (sr_cursor r) (wire <$> ops) →
  run (read_back ops w) r = Ok tt.
Proof.
  induction ops as [|[seqno batch] ops IH]; intros r Hr Hle Hops Hd; cbn [read_back fmap list_fmap records_bytes] in *.
  - pose proof (ro_cursor _ _ _ Hr). apply (f_equal length) in Hd. rewrite length_drop in Hd. cbn in Hd.
    unfold run, mbind, st_bind, st_unwrap. rewrite (next_record_end w area r Hr) by lia. done.
  - apply Forall_cons in Hops as [[Hs Hb] Hops]. cbn [fst snd] in Hs, Hb.
    change (wire (seqno, batch)) with (seqno, wire_batch batch) in Hd.
    pose proof (next_record_complete w area r seqno (wire_batch batch) _ Hr Hle Hs Hd) as E.
    pose proof (ro_cursor _ _ _ Hr) as Hcur. pose proof (len_drop_area (sr_cursor r) area _ ltac:(lia) Hd) as Hlen. revert Hlen. len_simpl. intros Hlen.
    set (n := len (record_bytes (sr_cursor r) (seqno, wire_batch batch))) in *.
    unfold run. rewrite (run_bind _ _ _ (ReadRecord (view_of (seqno, wire_batch batch))) (set_cursor (sr_cursor r + n) r))
      by (unfold st_unwrap; by rewrite E).
    cbn [view_of rv_seqno rv_payload fst snd].
    rewrite (run_lift _ _ _ tt) by apply assert_eq_refl.
    rewrite (run_lift _ _ _ batch) by (by rewrite decode_wire).
    rewrite (run_lift _ _ _ tt) by apply assert_eq_refl.
    apply IH; [apply reader_on_set; [done|lia]|cbn; lia|done|]. cbn [sr_cursor set_cursor].
    by apply (drop_step _ _ _ _ _ Hcur Hd eq_refl).
Qed.

(** * The tests, for every input *)

Definition ops_ok (first : Z) (ops : list (Z * WriteBatch)) : Prop :=
  Forall (λ o, is_u64 o.1 ∧ batch_fits o.2) ops ∧ len (segment_bytes 1 first (wire <$> ops)) ≤ MAX_FILE_SIZE.

(** Writing the segment, from an empty file system. *)
Lemma write_ops path first ops :
  is_u64 first → ops_ok first ops →
  ∃ sw0 w0 sw w, open_segment_at path 1 first mem_new = (Ok sw0, w0) ∧ append_batches ops sw0 w0 = (Ok sw, w) ∧
    written path (header_of 1 first) (records_bytes 0 (wire <$> ops)) sw w ∧
    Forall record_ok (wire <$> ops) ∧ is_u64 (SEGMENT_HEADER_SIZE + len (records_bytes 0 (wire <$> ops))).
Proof.
  intros Hfirst [Hops Hsize]. unfold segment_bytes in Hsize. rewrite length_app, length_segment_header in Hsize.
  destruct (open_segment_new path 1 first) as (sw0 & w0 & E0 & Hw0).
  destruct (append_batches_ok path (header_of 1 first) ops [] sw0 w0 Hw0) as (sw & w & E & Hw).
  - eapply Forall_impl; [exact Hops|]. by intros o [].
  - unfold seg_fits, header_of. rewrite length_segment_header. change (len (@nil Z)) with 0. lia.
  - exists sw0, w0, sw, w. split_and!; [done|done|done| |].
    + apply Forall_fmap. eapply Forall_impl; [exact Hops|]. by intros o [].
    + unfold is_u64, MAX_FILE_SIZE in *. wal_consts. lia.
Qed.

Lemma compare_records ops :
  Forall (λ o, is_u64 o.1 ∧ batch_fits o.2) ops →
  each (zip ops (view_of <$> (wire <$> ops))) (λ '((seqno, batch), got),
    _ ← assert_eq (rv_seqno got) seqno;
    decoded ← unwrap (decode (rv_payload got));
    assert_eq decoded batch) = Ok tt.
Proof.
  induction 1 as [|[seqno batch] ops [_ Hb] _ IH]; cbn [fmap list_fmap zip zip_with each]; [done|].
  cbn [wire view_of rv_seqno rv_payload fst snd] in *. rewrite assert_eq_refl. cbn [mbind outcome_bind].
  rewrite decode_wire by done. cbn [unwrap mbind outcome_bind]. rewrite assert_eq_refl. exact IH.
Qed.

Theorem segment_round_trip_holds ops :
  ops_ok (default 0 (fst <$> head ops)) ops → segment_round_trip ops = Ok tt.
Proof.
  intros Hok. set (first := default 0 (fst <$> head ops)) in *.
  assert (is_u64 first) as Hfirst.
  { unfold first. destruct Hok as [Hops _]. destruct Hops as [|o ops [Ho _] _]; [unfold is_u64; cbn; lia|exact Ho]. }
  destruct (write_ops "s" first ops Hfirst Hok) as (sw0 & w0 & sw & w & E0 & E & Hw & Hrs & Hu).
  unfold segment_round_trip, run. rewrite (run_bind _ _ _ tt w).
  2: { unfold write_segment_at. fold first. rewrite (run_bind _ _ _ _ _ E0), (run_bind _ _ _ _ _ E). done. }
  rewrite (run_bind _ _ _ _ _ (replay_with_ok "s" 1 first ltac:(unfold is_u64; lia) Hfirst _ sw w Hw Hrs Hu
    push_view [] _ (feed_push _ _))).
  unfold st_lift. cbn [is_clean assert_that mbind outcome_bind fst app].
  rewrite !length_fmap, assert_eq_refl. cbn [mbind outcome_bind]. apply compare_records, Hok.
Qed.

Lemma number_from_ok n batches :
  0 ≤ n → Forall batch_fits batches → n + len batches ≤ 2 ^ 64 →
  Forall (λ o, is_u64 o.1 ∧ batch_fits o.2) (number_from n batches).
Proof.
  intros Hn Hb Hlen. apply Forall_lookup. intros i o Ho. unfold number_from in Ho.
  rewrite list_lookup_imap in Ho. destruct (batches !! i) as [b|] eqn:E; [|done]. injection Ho as <-. cbn [fst snd].
  split; [|by eapply Forall_lookup_1]. apply lookup_lt_Some in E. unfold is_u64. lia.
Qed.

Theorem wal_round_trip_holds (batches : list WriteBatch) :
  ops_ok 100 (number_from 100 batches) → run_round_trip batches = Ok tt.
Proof.
  intros Hok. destruct (write_ops "wal" 100 _ ltac:(unfold is_u64; lia) Hok) as (sw0 & w0 & sw & w & E0 & E & [[Hc _ _ _] Hp] & _ & Hu).
  unfold run_round_trip, run. rewrite (run_bind _ _ _ _ _ E0), (run_bind _ _ _ _ _ E), run_get.
  unfold st_lift. cbn [fst snd open_readonly mem_vfs] in *. unfold mem_open_readonly. rewrite Hp. cbn [ok_or unwrap mbind outcome_bind].
  rewrite (open_segment (file sw) w 1 100 _ Hc) by (done || (unfold is_u64; lia)). cbn [unwrap mbind outcome_bind].
  apply (read_back_ok _ w (records_bytes 0 (wire <$> number_from 100 batches))); cbn [sr_cursor]; [|lia|apply Hok|done].
  by apply reader_on_open.
Qed.

Theorem replay_counts_holds (batches : list WriteBatch) :
  ops_ok 0 (number_from 0 batches) → prop_replay_returns_clean_outcome batches = Ok tt.
Proof.
  intros Hok. destruct (write_ops "wal" 0 _ ltac:(unfold is_u64; lia) Hok) as (sw0 & w0 & sw & w & E0 & E & Hw & Hrs & Hu).
  unfold prop_replay_returns_clean_outcome, run. rewrite (run_bind _ _ _ _ _ E0), (run_bind _ _ _ _ _ E).
  rewrite (run_bind _ _ _ _ _ (replay_with_ok "wal" 1 0 ltac:(unfold is_u64; lia) ltac:(unfold is_u64; lia) _ sw w Hw Hrs Hu
    count_view 0 _ (feed_count _ _))).
  rewrite (run_lift _ _ _ tt); [done|]. unfold assert_eq. rewrite bool_decide_true; [done|].
  unfold number_from. rewrite length_fmap, length_imap. lia.
Qed.

(** * They pass *)

#[local] Instance is_u64_dec z : Decision (is_u64 z).
Proof. unfold is_u64. apply _. Defined.

Lemma small_ops_ok n ops :
  bool_decide (Forall (λ o, is_u64 o.1 ∧ batch_fits o.2) ops) = true →
  (len (segment_bytes 1 n (wire <$> ops)) <? 2 ^ 40) = true → ops_ok n ops.
Proof. intros Hops%bool_decide_eq_true Hl%Z.ltb_lt. split; [done|]. unfold MAX_FILE_SIZE. lia. Qed.

(** What an append to a segment on [MemVfs] leaves in the counter. *)
Lemma append_counts path hdr recs sw w seqno payload n :
  written path hdr recs sw w → len hdr = 32 → len (record_bytes (len recs) (seqno, payload)) = n → len recs + n < 2 ^ 60 →
  ∃ sw' w' recs', append_to sw seqno payload w = (Ok (len recs, sw'), w') ∧ written path hdr recs' sw' w' ∧
    len recs' = len recs + n ∧ bytes_written sw' = len recs + n.
Proof.
  intros Hw Hh <- Hn. destruct (append_to_ok path hdr recs sw w seqno payload Hw) as (sw' & w' & E & _ & Hw').
  { unfold seg_fits, MAX_FILE_SIZE. lia. }
  exists sw', w'. eexists. split; [done|]. split; [done|]. split; [len_lia|].
  pose proof (wo_written _ _ _ (wr_ok _ _ _ _ _ Hw')) as Hb. cbn [fst] in Hb. rewrite Hb. len_lia.
Qed.

Lemma len_header_of id first : len (header_of id first) = 32.
Proof. unfold header_of. by rewrite length_segment_header. Qed.

Lemma two_blocks_passes : run record_spanning_two_blocks mem_new = Ok tt.
Proof.
  unfold record_spanning_two_blocks. cbv zeta. set (payload := replicate _ _).
  assert (len payload = 32768) as Hp by (lazy; reflexivity).
  assert (len (record_bytes (len (@nil Z)) (7, payload)) = 32800) as Hr by (lazy; reflexivity). clearbody payload.
  destruct (open_segment_new "wal" 1 0) as (sw & w & E & Hw).
  destruct (append_counts "wal" _ [] sw w 7 payload 32800 Hw (len_header_of _ _) Hr) as (sw' & w' & recs & E' & _ & _ & Hb); [done|].
  unfold run. rewrite (run_bind _ _ _ _ _ E), (run_bind _ _ _ _ _ E'), Hb, Hp. reflexivity.
Qed.

Lemma pads_block_passes : run record_pads_block mem_new = Ok tt.
Proof.
  unfold record_pads_block. cbv zeta. set (payload := replicate _ _).
  assert (len (record_bytes (len (@nil Z)) (1, payload)) = 32760) as Hr by (lazy; reflexivity). clearbody payload.
  destruct (open_segment_new "wal" 1 0) as (sw & w & E & Hw).
  destruct (append_counts "wal" _ [] sw w 1 payload 32760 Hw (len_header_of _ _) Hr) as (sw1 & w1 & recs1 & E1 & Hw1 & Hl1 & Hb1); [done|].
  assert (len (record_bytes (len recs1) (2, lit "tiny")) = 28) as Hr1 by (rewrite Hl1; lazy; reflexivity).
  destruct (append_counts "wal" _ recs1 sw1 w1 2 (lit "tiny") 28 Hw1 (len_header_of _ _) Hr1) as (sw2 & w2 & recs2 & E2 & _ & _ & Hb2);
    [rewrite Hl1; done|].
  unfold run. rewrite (run_bind _ _ _ _ _ E), (run_bind _ _ _ _ _ E1), (run_bind _ _ _ _ _ E2), Hb1, Hb2, Hl1. reflexivity.
Qed.

Lemma wal_reader_tests_pass : all_pass wal_reader_tests = true.
Proof.
  each_test.
  1-4: apply segment_round_trip_holds, small_ops_ok; lazy; reflexivity.
  all: evaluate.
Qed.

Lemma fixed_round_trip_passes : fixed_round_trip_small_set = Ok tt.
Proof. apply wal_round_trip_holds, small_ops_ok; lazy; reflexivity. Qed.

Lemma wal_writer_tests_pass : all_pass wal_writer_tests = true.
Proof.
  each_test.
  3: exact two_blocks_passes.
  3: exact pads_block_passes.
  all: evaluate.
Qed.
