(* ===== verification/InternalKey.v ===== *)
(** The order of versions, [compare_internal_key] of
    [crates/paddock-core/src/memtable/skiplist.rs]: keys ascending, and the
    versions of a key newest first.  The memtable, the tables and the merger
    all sort by it. *)

From S2P Require Import Prelude.

Definition compare_internal_key (left_key : bytes) (left_seqno : Z) (right_key : bytes)
    (right_seqno : Z) : comparison :=
  match bytes_cmp left_key right_key with
  | Eq => right_seqno ?= left_seqno
  | other => other
  end.

(** [(k, s)] does not sort after [(k', s')]. *)
Definition ikey_le (k : bytes) (s : Z) (k' : bytes) (s' : Z) : Prop :=
  compare_internal_key k s k' s' ≠ Gt.

#[global] Instance ikey_le_dec k s k' s' : Decision (ikey_le k s k' s').
Proof. unfold ikey_le. apply _. Defined.

Lemma cik_antisym k s k' s' :
  compare_internal_key k' s' k s = CompOpp (compare_internal_key k s k' s').
Proof.
  unfold compare_internal_key. rewrite (bytes_cmp_antisym k k').
  destruct (bytes_cmp k k'); cbn; try done. apply Z.compare_antisym.
Qed.

Lemma cik_refl k s : compare_internal_key k s k s = Eq.
Proof. unfold compare_internal_key. by rewrite bytes_cmp_refl, Z.compare_refl. Qed.

Lemma cik_eq k s k' s' : compare_internal_key k s k' s' = Eq ↔ k = k' ∧ s = s'.
Proof.
  split; [|intros [-> ->]; apply cik_refl]. unfold compare_internal_key.
  destruct (bytes_cmp k k') eqn:E; try done. apply bytes_cmp_eq in E as ->.
  by intros ->%Z.compare_eq.
Qed.

Lemma cik_lt_trans k1 s1 k2 s2 k3 s3 :
  compare_internal_key k1 s1 k2 s2 = Lt → compare_internal_key k2 s2 k3 s3 = Lt →
  compare_internal_key k1 s1 k3 s3 = Lt.
Proof.
  unfold compare_internal_key.
  destruct (bytes_cmp k1 k2) eqn:E12; try done.
  - apply bytes_cmp_eq in E12 as ->. destruct (bytes_cmp k2 k3) eqn:E23; try done.
    rewrite !Z.compare_lt_iff. lia.
  - intros _. destruct (bytes_cmp k2 k3) eqn:E23; try done.
    + apply bytes_cmp_eq in E23 as ->. by rewrite E12.
    + by rewrite (bytes_cmp_lt_trans _ _ _ E12 E23).
Qed.

Lemma ikey_le_refl k s : ikey_le k s k s.
Proof. unfold ikey_le. by rewrite cik_refl. Qed.

Lemma ikey_le_trans k1 s1 k2 s2 k3 s3 :
  ikey_le k1 s1 k2 s2 → ikey_le k2 s2 k3 s3 → ikey_le k1 s1 k3 s3.
Proof.
  unfold ikey_le. destruct (compare_internal_key k1 s1 k2 s2) eqn:E12; try done; intros _.
  - by apply cik_eq in E12 as [-> ->].
  - destruct (compare_internal_key k2 s2 k3 s3) eqn:E23; try done; intros _.
    + apply cik_eq in E23 as [-> ->]. by rewrite E12.
    + by rewrite (cik_lt_trans _ _ _ _ _ _ E12 E23).
Qed.

Lemma ikey_le_total k s k' s' : ikey_le k s k' s' ∨ ikey_le k' s' k s.
Proof.
  unfold ikey_le. rewrite (cik_antisym k s k' s').
  destruct (compare_internal_key k s k' s'); cbn; auto.
Qed.

Lemma ikey_le_antisym k s k' s' : ikey_le k s k' s' → ikey_le k' s' k s → k = k' ∧ s = s'.
Proof.
  unfold ikey_le. rewrite (cik_antisym k s k' s').
  destruct (compare_internal_key k s k' s') eqn:E; cbn; try done. intros _ _. by apply cik_eq.
Qed.

(** The order on the keys alone. *)
Lemma ikey_le_key k s k' s' : ikey_le k s k' s' → bytes_leb k k' = true.
Proof. unfold ikey_le, compare_internal_key, bytes_leb. by destruct (bytes_cmp k k'). Qed.

(** Versions of one key. *)
Lemma ikey_le_same k s s' : ikey_le k s k s' ↔ s' ≤ s.
Proof.
  unfold ikey_le, compare_internal_key. rewrite bytes_cmp_refl. by rewrite Z.compare_le_iff.
Qed.

Lemma cik_ge k s k' s' : compare_internal_key k s k' s' ≠ Lt ↔ ikey_le k' s' k s.
Proof.
  unfold ikey_le. rewrite (cik_antisym k s k' s').
  by destruct (compare_internal_key k s k' s'); cbn; split.
Qed.
