(* ===== verification/Arena.v ===== *)
(** The bump allocator: [crates/paddock-core/src/memtable/arena.rs].

    A pointer is a slab and an offset into it; slabs are numbered in the order
    they are obtained, so a number stays valid as the arena grows. *)

From S2P Require Import Prelude.

(** * The allocator *)

Definition INITIAL_SLAB_SIZE : Z := 256 * 1024.
Definition MAX_SLAB_SIZE : Z := 4 * 1024 * 1024.
Definition DEFAULT_ALIGN : Z := 8.
(** [size_of::<Slab>()]: a pointer and a [usize]. *)
Definition SLAB_HEADER_SIZE : Z := 16.
Definition ISIZE_MAX : Z := 2 ^ 63 - 1.

(** The capacities of the slabs, the head of the list first. *)
Record Arena := {
  ar_slabs : list Z;
  ar_bump_offset : Z;
  ar_next_slab_size : Z;
  ar_bytes_used : Z;
  ar_bytes_reserved : Z
}.

Record Ptr := { p_slab : Z; p_offset : Z }.

#[global] Instance Ptr_eq_dec : EqDecision Ptr.
Proof. solve_decision. Defined.

#[global] Instance Ptr_countable : Countable Ptr.
Proof.
  refine (inj_countable' (λ p, (p_slab p, p_offset p)) (λ '(s, o), {| p_slab := s; p_offset := o |}) _).
  by intros [].
Defined.

Definition arena_new : Arena :=
  {| ar_slabs := []; ar_bump_offset := 0; ar_next_slab_size := INITIAL_SLAB_SIZE;
     ar_bytes_used := 0; ar_bytes_reserved := 0 |}.

Definition round_up (value multiple : Z) : Z :=
  let rem := value mod multiple in
  if rem =? 0 then value else value + (multiple - rem).

Definition is_power_of_two (n : Z) : bool := (0 <? n) && (Z.land n (n - 1) =? 0).

(** [Layout::from_size_align]: the size, rounded up, fits in [isize]. *)
Definition layout_ok (size align : Z) : bool := size <=? ISIZE_MAX - (align - 1).

Definition grow (capacity : Z) (a : Arena) : outcome Arena :=
  if negb (layout_ok capacity DEFAULT_ALIGN) then Panic
  else Ok {| ar_slabs := capacity :: ar_slabs a; ar_bump_offset := 0;
             ar_next_slab_size := Z.min (Z.min (ar_next_slab_size a * 2) (2 ^ 64 - 1)) MAX_SLAB_SIZE;
             ar_bytes_used := ar_bytes_used a;
             ar_bytes_reserved := ar_bytes_reserved a + capacity |}.

(** The allocation out of the head slab, when it has room. *)
Definition bump (size align : Z) (a : Arena) : option (Ptr * Arena) :=
  let req := Z.max (round_up size align) 1 in
  match ar_slabs a with
  | slab_cap :: older =>
      let after_header := SLAB_HEADER_SIZE in
      let aligned_start := round_up (after_header + ar_bump_offset a) align in
      let end_ := aligned_start + req in
      if end_ <=? slab_cap then
        Some ({| p_slab := len older; p_offset := aligned_start |},
              {| ar_slabs := ar_slabs a; ar_bump_offset := end_ - after_header;
                 ar_next_slab_size := ar_next_slab_size a;
                 ar_bytes_used := ar_bytes_used a + req;
                 ar_bytes_reserved := ar_bytes_reserved a |})
      else None
  | [] => None
  end.

(** The recursion is entered again only after [grow]: two levels are enough. *)
Fixpoint allocate_loop (fuel : nat) (size align : Z) (a : Arena) : outcome (Ptr * Arena) :=
  match fuel with
  | O => OutOfFuel
  | S fuel =>
      if negb (is_power_of_two align) then Panic
      else match bump size align a with
           | Some r => Ok r
           | None =>
               let req := Z.max (round_up size align) 1 in
               let want := Z.max (req + SLAB_HEADER_SIZE + align) (ar_next_slab_size a) in
               let new_cap := Z.min want (Z.max MAX_SLAB_SIZE want) in
               a ← grow new_cap a;
               allocate_loop fuel size align a
           end
  end.

Definition allocate (size align : Z) (a : Arena) : outcome (Ptr * Arena) :=
  allocate_loop 2 size align a.

(** A run of requests. *)
Fixpoint allocate_all (reqs : list (Z * Z)) (a : Arena) : outcome (list Ptr * Arena) :=
  match reqs with
  | [] => Ok ([], a)
  | (size, align) :: reqs =>
      '(p, a) ← allocate size align a;
      '(ps, a) ← allocate_all reqs a;
      Ok (p :: ps, a)
  end.

(** * What the allocator promises *)

(** The bytes handed out: a pointer and how many. *)
Definition region : Type := Ptr * Z.

Definition disjoint_regions (r s : region) : Prop :=
  p_slab r.1 ≠ p_slab s.1 ∨ p_offset r.1 + r.2 ≤ p_offset s.1 ∨ p_offset s.1 + s.2 ≤ p_offset r.1.

(** A region lies behind its slab's header, and below the bump offset if its
    slab is the head. *)
Definition region_ok (a : Arena) (r : region) : Prop :=
  ∃ cap, reverse (ar_slabs a) !! Z.to_nat (p_slab r.1) = Some cap ∧ 0 ≤ p_slab r.1 ∧
    SLAB_HEADER_SIZE ≤ p_offset r.1 ∧ p_offset r.1 + r.2 ≤ cap ∧
    (p_slab r.1 = len (ar_slabs a) - 1 → p_offset r.1 + r.2 ≤ SLAB_HEADER_SIZE + ar_bump_offset a).

Record arena_inv (a : Arena) (live : list region) : Prop := {
  ai_bump : 0 ≤ ar_bump_offset a;
  ai_next : INITIAL_SLAB_SIZE ≤ ar_next_slab_size a ≤ MAX_SLAB_SIZE;
  ai_used : ar_bytes_used a = foldr (λ r n, r.2 + n) 0 live;
  ai_reserved : ar_bytes_reserved a = foldr Z.add 0 (ar_slabs a);
  ai_live : Forall (region_ok a) live;
  ai_disjoint : ForallOrdPairs disjoint_regions live
}.

(** The sizes the address space can hold. *)
Definition request_ok (size align : Z) : Prop :=
  0 ≤ size ≤ 2 ^ 60 ∧ is_power_of_two align = true ∧ align ≤ 2 ^ 60.

Definition granted (size align : Z) : Z := Z.max (round_up size align) 1.

Lemma round_up_spec v m :
  0 ≤ v → 0 < m → v ≤ round_up v m < v + m ∧ round_up v m mod m = 0.
Proof.
  intros Hv Hm. unfold round_up. pose proof (Z.mod_pos_bound v m Hm).
  destruct (Z.eqb_spec (v mod m) 0); [lia|]. split; [lia|].
  pose proof (Z.div_mod v m). replace (v + (m - v mod m)) with ((v / m + 1) * m) by lia.
  apply Z.mod_mul. lia.
Qed.

Lemma power_of_two_pos n : is_power_of_two n = true → 0 < n.
Proof. unfold is_power_of_two. intros [H _]%andb_true_iff. by apply Z.ltb_lt in H. Qed.

Lemma granted_bound size align :
  request_ok size align → 1 ≤ granted size align ≤ 2 ^ 61 ∧ size ≤ granted size align ∧ 0 < align.
Proof.
  intros (Hs & Hp & Ha). apply power_of_two_pos in Hp.
  pose proof (round_up_spec size align ltac:(lia) Hp). unfold granted. lia.
Qed.

(** A successful bump keeps the invariant and hands out new bytes. *)
Lemma bump_ok size align a live p a' :
  arena_inv a live → request_ok size align → bump size align a = Some (p, a') →
  arena_inv a' ((p, granted size align) :: live) ∧ p_offset p mod align = 0.
Proof.
  intros [Hb Hn Hu Hr Hl Hd] Hreq. pose proof (granted_bound size align Hreq) as (Hg & _ & Ha).
  unfold bump. destruct (ar_slabs a) as [|cap older] eqn:Es; [done|].
  destruct (round_up_spec (SLAB_HEADER_SIZE + ar_bump_offset a) align) as [Hstart Hmod];
    [unfold SLAB_HEADER_SIZE; lia|done|]. fold (granted size align).
  destruct (Z.leb_spec (round_up (SLAB_HEADER_SIZE + ar_bump_offset a) align + granted size align) cap)
    as [Hroom|]; [|done].
  intros [= <- <-]. split; [|done]. set (start := round_up _ align) in *.
  unfold SLAB_HEADER_SIZE in *.
  split; cbn [ar_bump_offset ar_next_slab_size ar_bytes_used ar_bytes_reserved ar_slabs foldr snd]; try done; try lia.
  - constructor.
    + exists cap. cbn [ar_slabs fst snd p_slab p_offset ar_bump_offset]. rewrite Nat2Z.id, reverse_cons.
      split_and!; [|unfold SLAB_HEADER_SIZE in *; cbn [length]; lia..].
      rewrite lookup_app_r, length_reverse, Nat.sub_diag by (rewrite length_reverse; lia). done.
    + eapply Forall_impl; [exact Hl|]. intros [q n] (cap' & Hc & Hq & Ho & He & Hlast). exists cap'.
      rewrite Es in *. cbn [ar_slabs ar_bump_offset] in *. split_and!; try done. intros E. specialize (Hlast E).
      unfold SLAB_HEADER_SIZE in *. lia.
  - constructor; [|done]. eapply Forall_impl; [exact Hl|].
    intros [q n] (cap' & Hc & Hq & Ho & He & Hlast). unfold disjoint_regions. cbn [fst snd p_slab p_offset] in *.
    rewrite Es in Hlast. cbn [length] in Hlast. unfold SLAB_HEADER_SIZE in *.
    destruct (decide (p_slab q = len older)) as [E|]; [|by left]. right. right.
    specialize (Hlast ltac:(lia)). lia.
Qed.

(** Growing keeps what is live. *)
Lemma grow_ok capacity a live :
  arena_inv a live → SLAB_HEADER_SIZE ≤ capacity ≤ 2 ^ 62 →
  ∃ a', grow capacity a = Ok a' ∧ arena_inv a' live ∧
    ar_slabs a' = capacity :: ar_slabs a ∧ ar_bump_offset a' = 0.
Proof.
  intros [Hb Hn Hu Hr Hl Hd] Hcap. unfold grow, layout_ok, ISIZE_MAX, DEFAULT_ALIGN.
  decide_bool. eexists. split; [done|]. split; [|done].
  unfold INITIAL_SLAB_SIZE, MAX_SLAB_SIZE in *.
  split; cbn [ar_bump_offset ar_next_slab_size ar_bytes_used ar_bytes_reserved ar_slabs foldr]; try done; try lia.
  - unfold INITIAL_SLAB_SIZE, MAX_SLAB_SIZE. lia.
  - eapply Forall_impl; [exact Hl|]. intros [q n] (cap' & Hc & Hq & Ho & He & _). exists cap'.
    cbn [ar_slabs fst snd] in *. rewrite reverse_cons. apply lookup_lt_Some in Hc as Hlt.
    rewrite length_reverse in Hlt. split_and!; try done.
    + by rewrite lookup_app_l by (rewrite length_reverse; lia).
    + cbn [length]. lia.
Qed.

(** An allocation always succeeds, with fresh, aligned bytes. *)
Lemma allocate_ok size align a live :
  arena_inv a live → request_ok size align →
  ∃ p a', allocate size align a = Ok (p, a') ∧
    arena_inv a' ((p, granted size align) :: live) ∧ p_offset p mod align = 0.
Proof.
  intros Hinv Hreq. pose proof (granted_bound size align Hreq) as (Hg & Hs & Ha).
  assert (is_power_of_two align = true ∧ align ≤ 2 ^ 60) as [Hp Hmax] by (destruct Hreq; tauto).
  unfold allocate. cbn [allocate_loop]. rewrite Hp. cbn [negb].
  destruct (bump size align a) as [[p a']|] eqn:Eb.
  { exists p, a'. split; [done|]. by eapply bump_ok. }
  fold (granted size align). set (want := Z.max _ _). pose proof (ai_next _ _ Hinv) as Hn.
  assert (SLAB_HEADER_SIZE ≤ want ≤ 2 ^ 62 ∧ granted size align + SLAB_HEADER_SIZE + align ≤ want) as [Hw Hw']
    by (unfold INITIAL_SLAB_SIZE, MAX_SLAB_SIZE, SLAB_HEADER_SIZE in *; lia).
  destruct (grow_ok (Z.min want (Z.max MAX_SLAB_SIZE want)) a live Hinv) as (a1 & -> & Hinv1 & Es & Ebump);
    [lia|].
  cbn [mbind outcome_bind].
  destruct (bump size align a1) as [[p a']|] eqn:Eb1.
  { exists p, a'. split; [done|]. by eapply bump_ok. }
  unfold bump in Eb1. rewrite Es, Ebump in Eb1. fold (granted size align) in Eb1.
  destruct (round_up_spec (SLAB_HEADER_SIZE + 0) align) as [Hstart _]; [unfold SLAB_HEADER_SIZE; lia|done|].
  rewrite (proj2 (Z.leb_le _ _)) in Eb1 by lia. done.
Qed.

Lemma arena_new_inv : arena_inv arena_new [].
Proof. by split; unfold INITIAL_SLAB_SIZE, MAX_SLAB_SIZE; cbn; try lia; constructor. Qed.

(** Two live regions never start at the same place. *)
Lemma live_distinct a live p n :
  arena_inv a ((p, n) :: live) → 1 ≤ n → Forall (λ r, 1 ≤ r.2) live → Forall (λ r, r.1 ≠ p) live.
Proof.
  intros [_ _ _ _ _ Hd] Hn Hl. inversion Hd as [|? ? Hd1 _]; subst.
  rewrite Forall_forall in *. intros [q m] Hq E. cbn in E. subst q. specialize (Hd1 _ Hq). specialize (Hl _ Hq).
  unfold disjoint_regions in Hd1. cbn in *. lia.
Qed.

(** * Properties *)

(** Every sequence of allocations succeeds, and the regions handed out never
    overlap: each is at least as large as requested, lies inside its slab and
    behind the slab's header, starts at an offset that is a multiple of the
    alignment, and shares no byte with any other region, before or after the
    arena grew; the accounting of used and reserved bytes is exact. *)
Theorem arena_regions_disjoint (reqs : list (Z * Z))
    (Hreqs : Forall (λ r, request_ok r.1 r.2) reqs) :
  ∃ ps a live, allocate_all reqs arena_new = Ok (ps, a) ∧
    live = reverse (zip ps ((λ r, granted r.1 r.2) <$> reqs)) ∧
    Forall2 (λ p r, p_offset p mod r.2 = 0 ∧ r.1 ≤ granted r.1 r.2) ps reqs ∧
    Forall (region_ok a) live ∧ ForallOrdPairs disjoint_regions live ∧
    ar_bytes_used a = foldr (λ r n, r.2 + n) 0 live ∧
    ar_bytes_reserved a = foldr Z.add 0 (ar_slabs a).
Proof.
  assert (∀ a live, arena_inv a live → ∃ ps a', allocate_all reqs a = Ok (ps, a') ∧
    arena_inv a' (reverse (zip ps ((λ r, granted r.1 r.2) <$> reqs)) ++ live) ∧
    Forall2 (λ p r, p_offset p mod r.2 = 0 ∧ r.1 ≤ granted r.1 r.2) ps reqs) as Hall.
  { induction Hreqs as [|[size align] reqs Hr _ IH]; intros a live Hinv; cbn [allocate_all].
    { exists [], a. by split_and!. }
    destruct (allocate_ok size align a live Hinv Hr) as (p & a1 & -> & Hinv1 & Hmod). cbn [mbind outcome_bind].
    destruct (IH a1 _ Hinv1) as (ps & a2 & -> & Hinv2 & H2). cbn [mbind outcome_bind].
    exists (p :: ps), a2. rewrite fmap_cons. cbn [zip zip_with]. rewrite reverse_cons, <-app_assoc.
    split_and!; [done|done|]. constructor; [|done]. split; [done|].
    by apply granted_bound. }
  destruct (Hall arena_new [] arena_new_inv) as (ps & a & Ha & [_ _ Hu Hr Hl Hd] & H2).
  rewrite app_nil_r in *. by exists ps, a, (reverse (zip ps ((λ r, granted r.1 r.2) <$> reqs))).
Qed.

Lemma arena_regions_disjoint_witness :
  let reqs := [(100, 8); (262144, 8); (3, 1); (0, 16)] in
  Forall (λ r, request_ok r.1 r.2) reqs ∧
  ∃ ps a, allocate_all reqs arena_new = Ok (ps, a) ∧ length (ar_slabs a) = 2%nat.
Proof.
  cbn zeta. assert (Forall (λ r, request_ok r.1 r.2) [(100, 8); (262144, 8); (3, 1); (0, 16)]) as H
    by (repeat (constructor; [unfold request_ok; cbn; split_and!; (lia || reflexivity)|]); constructor).
  split; [exact H|]. destruct (arena_regions_disjoint _ H) as (ps & a & live & Ha & _).
  exists ps, a. split; [exact Ha|]. vm_compute in Ha. injection Ha as _ <-. reflexivity.
Defined.
