(* ===== verification/RawMem.v ===== *)
(** The memory behind the arena: [crates/paddock-core/src/memtable/arena.rs].

    [Arena] keeps the slabs of the bump allocator as a list of capacities.  Here
    a slab is a block of memory that begins with the header the code writes
    there: the pointer to the slab before it and its capacity.  The allocator
    reads the capacity from that header, [copy_bytes] writes behind it, and
    [Drop] walks the headers and gives every block back.

    Memory is a finite map from addresses to cells, a cell a byte or a piece of
    a pointer; a cell that was never written is not there, and a block is live
    from [alloc] to [dealloc].  Access outside a live block, a read of cells
    that were not written, and [dealloc] with another layout are undefined
    behaviour in the code and [Panic] here. *)

From S2P Require Import Prelude Arena.

(** * Memory *)

(** One of the eight cells of a pointer, or a byte. *)
Inductive cell :=
  | CByte (b : Z)
  | CPtr (p : option Ptr) (i : nat).

#[global] Instance cell_eq_dec : EqDecision cell.
Proof. solve_decision. Defined.

(** The cells written, the size of every live block, and the next block. *)
Record Mem := { mem_cells : gmap Ptr cell; mem_blocks : gmap Z Z; mem_next : Z }.

Definition mem_empty : Mem := {| mem_cells := ∅; mem_blocks := ∅; mem_next := 0 |}.

Definition ptr_add (p : Ptr) (n : Z) : Ptr := {| p_slab := p_slab p; p_offset := p_offset p + n |}.

Definition in_block (m : Mem) (p : Ptr) (n : Z) : bool :=
  match mem_blocks m !! p_slab p with
  | Some size => (0 <=? p_offset p) && (p_offset p + n <=? size)
  | None => false
  end.

Fixpoint write_cells (p : Ptr) (l : list cell) (m : gmap Ptr cell) : gmap Ptr cell :=
  match l with
  | [] => m
  | c :: l => <[p := c]> (write_cells (ptr_add p 1) l m)
  end.

Fixpoint read_cells (n : nat) (p : Ptr) (m : gmap Ptr cell) : option (list cell) :=
  match n with
  | O => Some []
  | S n => c ← m !! p; l ← read_cells n (ptr_add p 1) m; Some (c :: l)
  end.

Definition mem_write (p : Ptr) (l : list cell) : st Mem () := λ m,
  if in_block m p (len l)
  then (Ok tt, {| mem_cells := write_cells p l (mem_cells m); mem_blocks := mem_blocks m; mem_next := mem_next m |})
  else (Panic, m).

Definition mem_read (p : Ptr) (n : nat) (m : Mem) : outcome (list cell) :=
  if in_block m p (Z.of_nat n) then expect (read_cells n p (mem_cells m)) else Panic.

(** [alloc::alloc] and [alloc::dealloc]; memory does not run out here. *)
Definition mem_alloc (size : Z) : st Mem Ptr := λ m,
  (Ok {| p_slab := mem_next m; p_offset := 0 |},
   {| mem_cells := mem_cells m; mem_blocks := <[mem_next m := size]> (mem_blocks m); mem_next := mem_next m + 1 |}).

Definition mem_dealloc (p : Ptr) (size : Z) : st Mem () := λ m,
  if bool_decide (mem_blocks m !! p_slab p = Some size) && (p_offset p =? 0)
  then (Ok tt, {| mem_cells := filter (λ c, p_slab c.1 ≠ p_slab p) (mem_cells m);
                  mem_blocks := base.delete (p_slab p) (mem_blocks m); mem_next := mem_next m |})
  else (Panic, m).

(** ** Values in memory *)

Definition byte_cells (b : bytes) : list cell := CByte <$> b.

Definition ptr_cells (p : option Ptr) : list cell := CPtr p <$> seq 0 8.

Definition cell_byte (c : cell) : option Z := match c with CByte b => Some b | CPtr _ _ => None end.

Definition cells_ptr (l : list cell) : option (option Ptr) :=
  match l with
  | CPtr p _ :: _ => if bool_decide (l = ptr_cells p) then Some p else None
  | _ => None
  end.

Definition read_bytes (p : Ptr) (n : Z) (m : Mem) : outcome bytes :=
  l ← mem_read p (Z.to_nat n) m; expect (mapM cell_byte l).

(** A little-endian integer of [n] bytes. *)
Definition read_uint (n : nat) (p : Ptr) (m : Mem) : outcome Z :=
  b ← read_bytes p (Z.of_nat n) m; Ok (le_val b).

Definition read_ptr (p : Ptr) (m : Mem) : outcome (option Ptr) :=
  l ← mem_read p 8 m; expect (cells_ptr l).

(** * The arena *)

Record RawArena := {
  ra_head : option Ptr;
  ra_bump_offset : Z;
  ra_next_slab_size : Z;
  ra_bytes_used : Z;
  ra_bytes_reserved : Z
}.

Definition raw_new : RawArena :=
  {| ra_head := None; ra_bump_offset := 0; ra_next_slab_size := INITIAL_SLAB_SIZE;
     ra_bytes_used := 0; ra_bytes_reserved := 0 |}.

Definition bytes_used (a : RawArena) : Z := ra_bytes_used a.
Definition bytes_reserved (a : RawArena) : Z := ra_bytes_reserved a.

(** The header of a slab: [Slab { prev, capacity }]. *)
Definition slab_cells (prev : option Ptr) (capacity : Z) : list cell :=
  ptr_cells prev ++ byte_cells (le_bytes 8 capacity).

Definition slab_prev (slab : Ptr) (m : Mem) : outcome (option Ptr) := read_ptr slab m.
Definition slab_capacity (slab : Ptr) (m : Mem) : outcome Z := read_uint 8 (ptr_add slab 8) m.

Definition raw_grow (capacity : Z) : st (RawArena * Mem) () :=
  if negb (layout_ok capacity DEFAULT_ALIGN) then st_lift Panic
  else
    slab_ptr ← on_snd (mem_alloc capacity);
    '(a, _) ← st_get;
    _ ← on_snd (mem_write slab_ptr (slab_cells (ra_head a) capacity));
    on_fst (st_modify (λ a,
      {| ra_head := Some slab_ptr; ra_bump_offset := 0;
         ra_next_slab_size := Z.min (Z.min (ra_next_slab_size a * 2) (2 ^ 64 - 1)) MAX_SLAB_SIZE;
         ra_bytes_used := ra_bytes_used a;
         ra_bytes_reserved := ra_bytes_reserved a + capacity |})).

Definition raw_bump (size align : Z) : st (RawArena * Mem) (option Ptr) :=
  let req := Z.max (round_up size align) 1 in
  '(a, m) ← st_get;
  match ra_head a with
  | None => mret None
  | Some slab =>
      let after_header := SLAB_HEADER_SIZE in
      slab_cap ← st_lift (slab_capacity slab m);
      let aligned_start := round_up (after_header + ra_bump_offset a) align in
      let end_ := aligned_start + req in
      if end_ <=? slab_cap then
        _ ← on_fst (st_modify (λ a,
          {| ra_head := ra_head a; ra_bump_offset := end_ - after_header;
             ra_next_slab_size := ra_next_slab_size a; ra_bytes_used := ra_bytes_used a + req;
             ra_bytes_reserved := ra_bytes_reserved a |}));
        mret (Some (ptr_add slab aligned_start))
      else mret None
  end.

Fixpoint raw_allocate_loop (fuel : nat) (size align : Z) : st (RawArena * Mem) Ptr :=
  match fuel with
  | O => st_lift OutOfFuel
  | S fuel =>
      if negb (is_power_of_two align) then st_lift Panic
      else
        r ← raw_bump size align;
        match r with
        | Some p => mret p
        | None =>
            '(a, _) ← st_get;
            let req := Z.max (round_up size align) 1 in
            let want := Z.max (req + SLAB_HEADER_SIZE + align) (ra_next_slab_size a) in
            let new_cap := Z.min want (Z.max MAX_SLAB_SIZE want) in
            _ ← raw_grow new_cap;
            raw_allocate_loop fuel size align
        end
  end.

Definition raw_allocate (size align : Z) : st (RawArena * Mem) Ptr := raw_allocate_loop 2 size align.

Definition copy_bytes (src : bytes) : st (RawArena * Mem) Ptr :=
  dst ← raw_allocate (len src) 1;
  _ ← on_snd (mem_write dst (byte_cells src));
  mret dst.

(** [Drop::drop]: the loop over the slabs, one round for each. *)
Fixpoint drop_loop (fuel : nat) (cursor : option Ptr) : st Mem () :=
  match cursor with
  | None => mret tt
  | Some slab =>
      match fuel with
      | O => st_lift OutOfFuel
      | S fuel =>
          m ← st_get;
          prev ← st_lift (slab_prev slab m);
          capacity ← st_lift (slab_capacity slab m);
          if negb (layout_ok capacity DEFAULT_ALIGN) then st_lift Panic
          else
            _ ← mem_dealloc slab capacity;
            drop_loop fuel prev
      end
  end.

Definition drop_arena (a : RawArena) : st Mem () :=
  m ← st_get;
  drop_loop (S (size (mem_blocks m))) (ra_head a).

(** * Cells *)

Lemma ptr_add_0 p : ptr_add p 0 = p.
Proof. destruct p. unfold ptr_add. cbn. by rewrite Z.add_0_r. Qed.

Lemma ptr_add_add p a b : ptr_add (ptr_add p a) b = ptr_add p (a + b).
Proof. unfold ptr_add. cbn. by rewrite Z.add_assoc. Qed.

(** The cells [l] lie at [p]. *)
Definition cells_at (m : gmap Ptr cell) (p : Ptr) (l : list cell) : Prop :=
  ∀ (i : nat) c, l !! i = Some c → m !! ptr_add p (Z.of_nat i) = Some c.

Lemma cells_at_cons m p c l : cells_at m p (c :: l) ↔ m !! p = Some c ∧ cells_at m (ptr_add p 1) l.
Proof.
  split.
  - intros H. split; [rewrite <-(ptr_add_0 p); by apply (H 0%nat)|].
    intros i d Hi. rewrite ptr_add_add. replace (1 + Z.of_nat i) with (Z.of_nat (S i)) by lia. by apply H.
  - intros [Hc Hl] [|i] d Hi; cbn in Hi; [by rewrite ptr_add_0, Hc|].
    specialize (Hl i d Hi). rewrite ptr_add_add in Hl. by replace (Z.of_nat (S i)) with (1 + Z.of_nat i) by lia.
Qed.

Lemma cells_at_app m p k l : cells_at m p (k ++ l) ↔ cells_at m p k ∧ cells_at m (ptr_add p (len k)) l.
Proof.
  revert p. induction k as [|c k IH]; intros p; cbn [app length].
  - rewrite ptr_add_0. split; [|tauto]. intros H. split; [|done]. intros i d Hi. by rewrite lookup_nil in Hi.
  - rewrite !cells_at_cons, IH, ptr_add_add. replace (1 + len k) with (Z.of_nat (S (length k))) by lia. tauto.
Qed.

Lemma read_cells_at n p m l : length l = n → cells_at m p l → read_cells n p m = Some l.
Proof.
  intros <-. revert p. induction l as [|c l IH]; intros p; cbn [length read_cells]; [done|].
  intros [Hc Hl]%cells_at_cons. rewrite Hc. cbn. by rewrite (IH _ Hl).
Qed.

(** A write changes its own cells. *)
Lemma write_cells_out p l m q :
  p_slab q ≠ p_slab p ∨ p_offset q < p_offset p ∨ p_offset p + len l ≤ p_offset q →
  write_cells p l m !! q = m !! q.
Proof.
  revert p. induction l as [|c l IH]; intros p Hq; cbn [write_cells length] in *; [done|].
  rewrite lookup_insert_ne; [apply IH; cbn; lia|]. intros ->. lia.
Qed.

Lemma cells_at_write p l m : cells_at (write_cells p l m) p l.
Proof.
  revert p. induction l as [|c l IH]; intros p; [intros i d Hi; by rewrite lookup_nil in Hi|].
  cbn [write_cells]. apply cells_at_cons. split; [by rewrite lookup_insert_eq|].
  intros i d Hi. rewrite lookup_insert_ne; [by apply IH|]. destruct p. unfold ptr_add. cbn. intros [= ?]. lia.
Qed.

(** Cells apart from a write stay. *)
Definition apart_ranges (p : Ptr) (n : Z) (q : Ptr) (k : Z) : Prop :=
  p_slab p ≠ p_slab q ∨ p_offset p + n ≤ p_offset q ∨ p_offset q + k ≤ p_offset p.

Lemma cells_at_frame p l m q k :
  cells_at m q k → apart_ranges p (len l) q (len k) → cells_at (write_cells p l m) q k.
Proof.
  intros Hk Ha i c Hi. rewrite write_cells_out; [by apply Hk|]. apply lookup_lt_Some in Hi.
  unfold apart_ranges in Ha. cbn. lia.
Qed.

(** A write inside a range splices its cells in. *)
Lemma cells_at_splice m p a b c d :
  cells_at m p (a ++ b ++ c) → length d = length b → cells_at (write_cells (ptr_add p (len a)) d m) p (a ++ d ++ c).
Proof.
  rewrite !cells_at_app. intros (Ha & Hb & Hc) E. rewrite !ptr_add_add in *. split_and!.
  - apply cells_at_frame; [done|]. unfold apart_ranges. cbn. lia.
  - apply cells_at_write.
  - rewrite E. apply cells_at_frame; [done|]. unfold apart_ranges. cbn. lia.
Qed.

Lemma mem_read_cells m p n l :
  in_block m p (len l) = true → cells_at (mem_cells m) p l → length l = n → mem_read p n m = Ok l.
Proof. intros Hb Hc <-. unfold mem_read. by rewrite Hb, (read_cells_at _ _ _ l). Qed.

Lemma cell_bytes b : mapM cell_byte (byte_cells b) = Some b.
Proof. induction b as [|x b IH]; [done|]. cbn. fold (byte_cells b). by rewrite IH. Qed.

Lemma length_byte_cells b : length (byte_cells b) = length b.
Proof. apply length_fmap. Qed.

Lemma length_ptr_cells p : length (ptr_cells p) = 8%nat.
Proof. done. Qed.
#[export] Hint Rewrite length_byte_cells length_ptr_cells : len.

Lemma read_bytes_at m p n b :
  in_block m p n = true → cells_at (mem_cells m) p (byte_cells b) → len b = n → read_bytes p n m = Ok b.
Proof.
  intros Hb Hc <-. unfold read_bytes. rewrite (mem_read_cells m p _ (byte_cells b)); [|by len_simpl|done|by len_simpl; lia].
  cbn [mbind outcome_bind]. by rewrite cell_bytes.
Qed.

Lemma read_uint_at m p n v :
  in_block m p (Z.of_nat n) = true → cells_at (mem_cells m) p (byte_cells (le_bytes n v)) →
  0 ≤ v < 256 ^ Z.of_nat n → read_uint n p m = Ok v.
Proof.
  intros Hb Hc Hv. unfold read_uint. rewrite (read_bytes_at m p _ (le_bytes n v)) by (done || by len_simpl).
  cbn [mbind outcome_bind]. by rewrite le_val_bytes.
Qed.

Lemma read_ptr_at m p v :
  in_block m p 8 = true → cells_at (mem_cells m) p (ptr_cells v) → read_ptr p m = Ok v.
Proof.
  intros Hb Hc. unfold read_ptr. rewrite (mem_read_cells m p 8 (ptr_cells v)) by done.
  cbn [mbind outcome_bind].
  change (cells_ptr (ptr_cells v)) with (if bool_decide (ptr_cells v = ptr_cells v) then Some v else None).
  by rewrite bool_decide_eq_true_2.
Qed.

Lemma in_block_sub m p n k d :
  in_block m p n = true → 0 ≤ k → 0 ≤ d → k + d ≤ n → in_block m (ptr_add p k) d = true.
Proof.
  unfold in_block. cbn. destruct (mem_blocks m !! p_slab p); [|done].
  rewrite !andb_true_iff, !Z.leb_le. lia.
Qed.

(** * The arena in memory is the arena *)

Definition slab_at (n : Z) : Ptr := {| p_slab := n; p_offset := 0 |}.

Definition head_slab (slabs : list Z) : option Ptr :=
  match slabs with [] => None | _ :: older => Some (slab_at (len older)) end.

(** The headers of the slabs, and the blocks they are. *)
Fixpoint slabs_at (m : gmap Ptr cell) (slabs : list Z) : Prop :=
  match slabs with
  | [] => True
  | cap :: older => cells_at m (slab_at (len older)) (slab_cells (head_slab older) cap) ∧ slabs_at m older
  end.

Fixpoint slab_blocks (slabs : list Z) : gmap Z Z :=
  match slabs with [] => ∅ | cap :: older => <[len older := cap]> (slab_blocks older) end.

Record arena_match (s : RawArena * Mem) (a : Arena) : Prop := {
  am_head : ra_head s.1 = head_slab (ar_slabs a);
  am_bump : ra_bump_offset s.1 = ar_bump_offset a;
  am_size : ra_next_slab_size s.1 = ar_next_slab_size a;
  am_used : ra_bytes_used s.1 = ar_bytes_used a;
  am_reserved : ra_bytes_reserved s.1 = ar_bytes_reserved a;
  am_blocks : mem_blocks s.2 = slab_blocks (ar_slabs a);
  am_next : mem_next s.2 = len (ar_slabs a);
  am_slabs : slabs_at (mem_cells s.2) (ar_slabs a);
  am_caps : Forall (λ c, SLAB_HEADER_SIZE ≤ c ∧ layout_ok c DEFAULT_ALIGN = true) (ar_slabs a);
  am_cells q c : mem_cells s.2 !! q = Some c → 0 ≤ p_slab q < len (ar_slabs a)
}.

Lemma slab_blocks_lookup slabs i cap :
  reverse slabs !! i = Some cap → slab_blocks slabs !! Z.of_nat i = Some cap.
Proof.
  induction slabs as [|c older IH]; [done|]. rewrite reverse_cons. cbn [slab_blocks]. intros [Hi|[Hlen Hi]]%lookup_app_Some.
  - pose proof (lookup_lt_Some _ _ _ Hi) as Hlt. rewrite length_reverse in Hlt.
    rewrite lookup_insert_ne by lia. by apply IH.
  - rewrite length_reverse in *. apply list_lookup_singleton_Some in Hi as [Hi <-].
    replace i with (length older) by lia. by rewrite lookup_insert_eq.
Qed.

Lemma slab_blocks_above slabs i : len slabs ≤ i → slab_blocks slabs !! i = None.
Proof.
  induction slabs as [|c older IH]; [done|]. cbn [slab_blocks length]. intros Hi.
  rewrite lookup_insert_ne by lia. apply IH. lia.
Qed.

(** A region of the arena is inside a block. *)
Lemma region_in_block s a p n k :
  arena_match s a → region_ok a (p, n) → 0 ≤ k ≤ n → in_block s.2 p k = true.
Proof.
  intros Hm (cap & Hcap & Hs & Ho & He & _) Hk. cbn in *. unfold in_block. rewrite (am_blocks _ _ Hm).
  apply slab_blocks_lookup in Hcap. rewrite Z2Nat.id in Hcap by done. rewrite Hcap.
  unfold SLAB_HEADER_SIZE in Ho. rewrite andb_true_iff, !Z.leb_le. lia.
Qed.

(** The headers are below every region, so writes there leave them alone. *)
Lemma slabs_at_frame m m' slabs :
  slabs_at m slabs → (∀ q, p_slab q < len slabs → p_offset q < SLAB_HEADER_SIZE → m' !! q = m !! q) → slabs_at m' slabs.
Proof.
  induction slabs as [|cap older IH]; [done|]. cbn [slabs_at length]. intros [Hc Ho] Hq. split.
  - intros i c Hi. rewrite Hq; [by apply Hc| |].
    + cbn. lia.
    + cbn. apply lookup_lt_Some in Hi. unfold slab_cells in Hi. revert Hi. len_simpl. unfold SLAB_HEADER_SIZE. lia.
  - apply IH; [done|]. intros q Hs Hof. apply Hq; [lia|done].
Qed.

(** The capacity that the head's header records. *)
Lemma slab_capacity_ok s a cap older :
  arena_match s a → ar_slabs a = cap :: older → slab_capacity (slab_at (len older)) s.2 = Ok cap.
Proof.
  intros Hm Es. pose proof (am_slabs _ _ Hm) as Hs. pose proof (am_caps _ _ Hm) as Hc. rewrite Es in Hs, Hc.
  apply Forall_cons in Hc as [[Hlo Hhi] _]. destruct Hs as [Hs _]. unfold slab_cells in Hs. apply cells_at_app in Hs as [_ Hs].
  unfold layout_ok, ISIZE_MAX, DEFAULT_ALIGN, SLAB_HEADER_SIZE in *. apply Z.leb_le in Hhi. unfold slab_capacity.
  apply read_uint_at; [|exact Hs|change (256 ^ Z.of_nat 8) with (2 ^ 64); lia].
  unfold in_block. rewrite (am_blocks _ _ Hm), Es. cbn. rewrite lookup_insert_eq, andb_true_iff, !Z.leb_le. lia.
Qed.

Lemma raw_bump_match size align s a :
  arena_match s a →
  ∃ s', raw_bump size align s = (Ok (fst <$> bump size align a), s') ∧ s'.2 = s.2 ∧
    arena_match s' (default a (snd <$> bump size align a)).
Proof.
  intros Hm. destruct s as [ra m]. pose proof (am_head _ _ Hm) as Hh. pose proof (am_bump _ _ Hm) as Hb.
  cbn [fst] in Hh, Hb. unfold raw_bump, bump. rewrite run_get, Hh.
  destruct (ar_slabs a) as [|cap older] eqn:Es; cbn [head_slab].
  { by exists (ra, m). }
  rewrite (run_lift _ _ _ _ (slab_capacity_ok _ _ _ _ Hm Es)), Hb.
  destruct (_ <=? cap).
  - eexists. split; [cbn; reflexivity|]. split; [done|]. destruct Hm. rewrite Es in *. split; cbn in *; congruence || done.
  - by exists (ra, m).
Qed.

(** Memory only grows: the cells of the slabs of before are as they were. *)
Definition old_cells (a : Arena) (m m' : Mem) : Prop :=
  ∀ q, p_slab q < len (ar_slabs a) → mem_cells m' !! q = mem_cells m !! q.

Lemma raw_grow_match capacity s a a' :
  arena_match s a → grow capacity a = Ok a' → SLAB_HEADER_SIZE ≤ capacity →
  ∃ s', raw_grow capacity s = (Ok tt, s') ∧ arena_match s' a' ∧ old_cells a s.2 s'.2.
Proof.
  intros Hm Eg Hcap. unfold grow in Eg. unfold raw_grow. destruct (layout_ok capacity DEFAULT_ALIGN) eqn:Hl; [|done].
  injection Eg as <-. destruct s as [ra m]. destruct Hm as [Hh Hb Hz Hu Hr Hbl Hn Hs Hc Hq]. cbn [fst snd] in *.
  cbn [negb]. erewrite run_bind by reflexivity. rewrite run_get.
  assert (in_block (mem_alloc capacity m).2 (slab_at (mem_next m)) 16 = true) as Hin.
  { unfold in_block. cbn [mem_alloc snd mem_blocks slab_at p_slab p_offset].
    rewrite lookup_insert_eq, andb_true_iff, !Z.leb_le. unfold SLAB_HEADER_SIZE in Hcap. lia. }
  assert (len (slab_cells (ra_head ra) capacity) = 16) as Hlen by (unfold slab_cells; len_simpl; lia).
  assert (mem_write (slab_at (mem_next m)) (slab_cells (ra_head ra) capacity) (mem_alloc capacity m).2 =
    (Ok tt, {| mem_cells := write_cells (slab_at (mem_next m)) (slab_cells (ra_head ra) capacity) (mem_cells m);
               mem_blocks := <[mem_next m := capacity]> (mem_blocks m); mem_next := mem_next m + 1 |})) as Ew
    by (unfold mem_write; by rewrite Hlen, Hin).
  rewrite (run_bind _ _ _ _ _ (on_snd_run _ ra _ _ _ Ew)).
  eexists. split; [reflexivity|]. cbn [fst snd on_fst st_modify mem_cells mem_blocks mem_next mem_alloc] in *. split.
  - split; cbn [fst snd ra_head ra_bump_offset ra_next_slab_size ra_bytes_used ra_bytes_reserved ar_slabs ar_bump_offset
      ar_next_slab_size ar_bytes_used ar_bytes_reserved mem_cells mem_blocks mem_next head_slab slab_blocks slabs_at length].
    + by rewrite Hn.
    + done.
    + by rewrite Hz.
    + done.
    + by rewrite Hr.
    + by rewrite Hbl, Hn.
    + lia.
    + change {| p_slab := mem_next m; p_offset := 0 |} with (slab_at (mem_next m)). rewrite Hn, <-Hh. split; [apply cells_at_write|].
      eapply slabs_at_frame; [exact Hs|]. intros q Hsl _. apply write_cells_out. cbn. lia.
    + by constructor.
    + intros q c Hqc. destruct (decide (p_slab q = mem_next m)) as [E|Hne]; [lia|].
      rewrite write_cells_out in Hqc by (left; done). apply Hq in Hqc. lia.
  - intros q Hsl. cbn [snd mem_cells]. apply write_cells_out. cbn. lia.
Qed.

Lemma raw_allocate_match size align s a p a' :
  arena_match s a → allocate size align a = Ok (p, a') →
  ∃ s', raw_allocate size align s = (Ok p, s') ∧ arena_match s' a' ∧ old_cells a s.2 s'.2.
Proof.
  intros Hm Ea. unfold allocate in Ea. unfold raw_allocate. cbn [allocate_loop raw_allocate_loop] in *.
  destruct (is_power_of_two align) eqn:Hp; [|done]. apply power_of_two_pos in Hp. cbn [negb] in *.
  destruct (raw_bump_match size align s a Hm) as (s1 & E1 & Emem & Hm1). rewrite (run_bind _ _ _ _ _ E1).
  destruct (bump size align a) as [[p1 a1]|] eqn:Eb; cbn [fmap option_fmap option_map fst snd default] in *.
  { injection Ea as <- <-. exists s1. split_and!; [done..|]. intros q _. by rewrite Emem. }
  destruct s1 as [ra1 m1]. rewrite run_get. pose proof (am_size _ _ Hm1) as Hz. cbn [fst snd] in *. subst m1. rewrite Hz.
  set (cap := Z.min _ _) in *. destruct (grow cap a) as [a2| | |] eqn:Eg; try done. cbn [mbind outcome_bind] in Ea.
  destruct (raw_grow_match cap (ra1, s.2) a a2 Hm1 Eg) as (s2 & E2 & Hm2 & Hold); [unfold cap, SLAB_HEADER_SIZE; lia|].
  rewrite (run_bind _ _ _ _ _ E2). destruct (raw_bump_match size align s2 a2 Hm2) as (s3 & E3 & Emem3 & Hm3).
  rewrite (run_bind _ _ _ _ _ E3). destruct (bump size align a2) as [[p3 a3]|]; cbn [fmap option_fmap option_map fst snd default] in *.
  - injection Ea as <- <-. exists s3. split_and!; [done..|]. intros q Hq. rewrite Emem3. by apply Hold.
  - by destruct (grow _ a2).
Qed.

(** A write to a region keeps the match. *)
Lemma mem_write_match s a p n l :
  arena_match s a → region_ok a (p, n) → len l ≤ n →
  ∃ m', mem_write p l s.2 = (Ok tt, m') ∧ mem_cells m' = write_cells p l (mem_cells s.2) ∧ arena_match (s.1, m') a.
Proof.
  intros Hm Hr Hl. pose proof (region_in_block s a p n (len l) Hm Hr ltac:(lia)) as Hin.
  unfold mem_write. rewrite Hin. eexists. split; [done|]. split; [done|].
  destruct Hr as (cap & Hcap & Hs & Ho & He & _). cbn in Hcap, Hs, Ho, He.
  apply lookup_lt_Some in Hcap. rewrite length_reverse in Hcap.
  destruct Hm as [? ? ? ? ? ? ? Hsl ? Hq]. split; cbn [fst snd mem_cells mem_blocks mem_next]; try done.
  - eapply slabs_at_frame; [exact Hsl|]. intros q _ Hlow. apply write_cells_out. unfold SLAB_HEADER_SIZE in *. lia.
  - intros q c Hqc. destruct (decide (p_slab q = p_slab p)) as [E|Hne]; [rewrite E; lia|].
    rewrite write_cells_out in Hqc by (left; done). by eapply Hq.
Qed.

(** ** Giving the slabs back *)

Lemma drop_slab_ok m cap older :
  mem_blocks m = slab_blocks (cap :: older) → slabs_at (mem_cells m) (cap :: older) →
  SLAB_HEADER_SIZE ≤ cap → layout_ok cap DEFAULT_ALIGN = true →
  slab_prev (slab_at (len older)) m = Ok (head_slab older) ∧ slab_capacity (slab_at (len older)) m = Ok cap ∧
  ∃ m', mem_dealloc (slab_at (len older)) cap m = (Ok tt, m') ∧ mem_blocks m' = slab_blocks older ∧
    mem_cells m' = filter (λ c, p_slab c.1 ≠ len older) (mem_cells m).
Proof.
  intros Hb [Hc _] Hlo Hl. apply cells_at_app in Hc as [Hp Hcap].
  assert (∀ k d, 0 ≤ k → 0 ≤ d → k + d ≤ 16 → in_block m (ptr_add (slab_at (len older)) k) d = true) as Hin.
  { intros k d Hk Hd Hkd. unfold in_block. cbn [ptr_add slab_at p_slab p_offset]. rewrite Hb. cbn [slab_blocks].
    rewrite lookup_insert_eq, andb_true_iff, !Z.leb_le.
    unfold SLAB_HEADER_SIZE in Hlo. lia. }
  split_and!.
  - apply read_ptr_at; [|done]. rewrite <-(ptr_add_0 (slab_at _)). apply Hin; lia.
  - apply read_uint_at; [apply Hin; lia|exact Hcap|]. unfold layout_ok, ISIZE_MAX, DEFAULT_ALIGN, SLAB_HEADER_SIZE in *.
    apply Z.leb_le in Hl. change (256 ^ Z.of_nat 8) with (2 ^ 64). lia.
  - unfold mem_dealloc. rewrite bool_decide_eq_true_2 by (rewrite Hb; cbn; by rewrite lookup_insert_eq). cbn.
    eexists. split; [done|]. split; [|done]. cbn. rewrite Hb. cbn.
    rewrite delete_insert_id; [done|]. by apply slab_blocks_above.
Qed.

(** Dropping walks all slabs and leaves nothing behind. *)
Lemma drop_loop_ok slabs m fuel :
  mem_blocks m = slab_blocks slabs → slabs_at (mem_cells m) slabs →
  Forall (λ c, SLAB_HEADER_SIZE ≤ c ∧ layout_ok c DEFAULT_ALIGN = true) slabs →
  (∀ q c, mem_cells m !! q = Some c → 0 ≤ p_slab q < len slabs) → (length slabs ≤ fuel)%nat →
  ∃ m', drop_loop fuel (head_slab slabs) m = (Ok tt, m') ∧ mem_blocks m' = ∅ ∧ mem_cells m' = ∅.
Proof.
  revert m fuel. induction slabs as [|cap older IH]; intros m fuel Hb Hs Hc Hq Hf.
  { exists m. destruct fuel; (split_and!; [done|done|]); apply map_empty; intros q;
      (destruct (mem_cells m !! q) eqn:E; [apply Hq in E; cbn in E; lia|done]). }
  apply Forall_cons in Hc as [[Hlo Hl] Hc]. destruct fuel as [|fuel]; [cbn in Hf; lia|].
  destruct (drop_slab_ok m cap older Hb Hs Hlo Hl) as (Ep & Ec & m' & Ed & Hb' & Hm').
  cbn [head_slab drop_loop]. rewrite run_get, (run_lift _ _ _ _ Ep), (run_lift _ _ _ _ Ec), Hl. cbn [negb].
  rewrite (run_bind _ _ _ _ _ Ed). apply IH; [done| |done| |cbn in Hf; lia].
  - destruct Hs as [_ Hs]. eapply slabs_at_frame; [exact Hs|]. intros q Hsl _. rewrite Hm', map_lookup_filter.
    destruct (mem_cells m !! q); cbn; [|done]. case_guard; [done|]. lia.
  - intros q c. rewrite Hm', map_lookup_filter_Some. intros [Hqc Hne]. apply Hq in Hqc. cbn in *. lia.
Qed.

Lemma size_slab_blocks slabs : size (slab_blocks slabs) = length slabs.
Proof.
  induction slabs as [|cap older IH]; [done|]. cbn [slab_blocks length].
  rewrite map_size_insert_None by (by apply slab_blocks_above). by rewrite IH.
Qed.

Lemma drop_arena_ok s a :
  arena_match s a → ∃ m', drop_arena s.1 s.2 = (Ok tt, m') ∧ mem_blocks m' = ∅ ∧ mem_cells m' = ∅.
Proof.
  intros [Hh _ _ _ _ Hb Hn Hs Hc Hq]. unfold drop_arena. rewrite run_get, Hh.
  apply drop_loop_ok; try done. rewrite Hb, size_slab_blocks. lia.
Qed.

Lemma raw_new_match : arena_match (raw_new, mem_empty) arena_new.
Proof. by split. Qed.

(** * Regions keep their cells *)

(** The cells of every live region are as they were. *)
Definition regions_kept (live : list region) (m m' : Mem) : Prop :=
  ∀ q n k, (q, n) ∈ live → len k ≤ n → cells_at (mem_cells m) q k → cells_at (mem_cells m') q k.

Lemma regions_kept_refl live m : regions_kept live m m.
Proof. by intros q n k. Qed.

Lemma regions_kept_trans live m1 m2 m3 : regions_kept live m1 m2 → regions_kept live m2 m3 → regions_kept live m1 m3.
Proof. intros H1 H2 q n k Hin Hk Hc. eapply H2; [done..|]. by eapply H1. Qed.

Lemma allocate_region size align s a live :
  arena_match s a → arena_inv a live → request_ok size align →
  ∃ p s' a', raw_allocate size align s = (Ok p, s') ∧ allocate size align a = Ok (p, a') ∧ arena_match s' a' ∧
    arena_inv a' ((p, granted size align) :: live) ∧ p_offset p mod align = 0 ∧ regions_kept live s.2 s'.2.
Proof.
  intros Hm Hinv Hreq. destruct (allocate_ok size align a live Hinv Hreq) as (p & a' & Ea & Hinv' & Hmod).
  destruct (raw_allocate_match size align s a p a' Hm Ea) as (s' & Er & Hm' & Hold).
  exists p, s', a'. split_and!; try done. intros q n k Hin Hk Hc i c Hi. rewrite Hold; [by apply Hc|].
  pose proof (ai_live _ _ Hinv) as Hl. rewrite Forall_forall in Hl. destruct (Hl _ Hin) as (cap & Hcap & Hs & _).
  apply lookup_lt_Some in Hcap. rewrite length_reverse in Hcap. cbn in *. lia.
Qed.

Lemma region_sub a p n off k : region_ok a (p, n) → 0 ≤ off → off + k ≤ n → region_ok a (ptr_add p off, k).
Proof.
  intros (cap & Hcap & Hs & Hof & He & Hb) Ho Hk. exists cap. cbn in *. split_and!; try done; lia.
Qed.

(** A write at [off] inside a region; the other regions keep their cells. *)
Lemma write_inside s a live p n off l :
  arena_match s a → arena_inv a live → (p, n) ∈ live → 0 ≤ off → off + len l ≤ n →
  ∃ m', mem_write (ptr_add p off) l s.2 = (Ok tt, m') ∧
    mem_cells m' = write_cells (ptr_add p off) l (mem_cells s.2) ∧ arena_match (s.1, m') a ∧
    ∀ q k c, (q, k) ∈ live → q ≠ p → len c ≤ k → cells_at (mem_cells s.2) q c → cells_at (mem_cells m') q c.
Proof.
  intros Hm Hinv Hin Ho Hl. pose proof (ai_live _ _ Hinv) as Hlive. rewrite Forall_forall in Hlive.
  pose proof (region_sub _ _ _ off (len l) (Hlive _ Hin) Ho Hl) as Hr.
  destruct (mem_write_match s a _ _ l Hm Hr ltac:(lia)) as (m' & Ew & Ec & Hm'). exists m'. split_and!; try done.
  intros q k c Hq Hne Hk Hc. rewrite Ec. apply cells_at_frame; [done|].
  destruct (ForallOrdPairs_In (ai_disjoint _ _ Hinv) (p, n) (q, k)) as [E|[Hd|Hd]];
    [by apply list_elem_of_In..|congruence| |]; unfold disjoint_regions, apart_ranges in *; cbn in *; lia.
Qed.

Lemma newest_distinct a live p n q k : arena_inv a ((p, n) :: live) → 1 ≤ n → 1 ≤ k → (q, k) ∈ live → q ≠ p.
Proof.
  intros Hinv Hn Hk Hin ->. pose proof (ai_disjoint _ _ Hinv) as Hd. inversion Hd as [|? ? Hd1 _]; subst.
  rewrite Forall_forall in Hd1. specialize (Hd1 _ Hin). unfold disjoint_regions in Hd1. cbn in Hd1. lia.
Qed.

(** Cells that go behind the cells already in the newest region. *)
Lemma append_region s a live p n pre l :
  arena_match s a → arena_inv a ((p, n) :: live) → 1 ≤ n → cells_at (mem_cells s.2) p pre → len pre + len l ≤ n →
  ∃ m', mem_write (ptr_add p (len pre)) l s.2 = (Ok tt, m') ∧ cells_at (mem_cells m') p (pre ++ l) ∧
    arena_match (s.1, m') a ∧ regions_kept live s.2 m'.
Proof.
  intros Hm Hinv Hn Hpre Hl.
  destruct (write_inside s a _ p n (len pre) l Hm Hinv ltac:(left) ltac:(lia) Hl) as (m' & Ew & Ec & Hm' & Hk).
  exists m'. split_and!; try done.
  - rewrite Ec. apply cells_at_app. split; [|apply cells_at_write]. apply cells_at_frame; [done|].
    unfold apart_ranges. cbn. lia.
  - intros q k c Hin Hc Hcells. destruct (Z_lt_le_dec k 1) as [Hsmall|Hbig].
    + assert (c = []) as -> by (apply length_zero_iff_nil; lia). intros i x Hx. by rewrite lookup_nil in Hx.
    + eapply (Hk q k); [by right|by eapply newest_distinct|done|done].
Qed.

(** The cells of a live region can be read. *)
Lemma region_block s a live p n k :
  arena_match s a → arena_inv a live → (p, n) ∈ live → 0 ≤ k ≤ n → in_block s.2 p k = true.
Proof.
  intros Hm Hinv Hin Hk. pose proof (ai_live _ _ Hinv) as Hl. rewrite Forall_forall in Hl.
  by eapply region_in_block; [|apply Hl|].
Qed.

(** ** Copies *)

(** Every slice copied into the arena, in order. *)
Fixpoint copy_all (srcs : list bytes) : st (RawArena * Mem) (list Ptr) :=
  match srcs with
  | [] => mret []
  | src :: srcs => p ← copy_bytes src; ps ← copy_all srcs; mret (p :: ps)
  end.

Definition copied (s : RawArena * Mem) (live : list region) (p : Ptr) (src : bytes) : Prop :=
  ∃ n, (p, n) ∈ live ∧ len src ≤ n ∧ cells_at (mem_cells s.2) p (byte_cells src).

Lemma copy_bytes_ok src s a live :
  arena_match s a → arena_inv a live → len src ≤ 2 ^ 60 →
  ∃ p s' a', copy_bytes src s = (Ok p, s') ∧ arena_match s' a' ∧
    arena_inv a' ((p, Z.max (len src) 1) :: live) ∧ copied s' ((p, Z.max (len src) 1) :: live) p src ∧
    regions_kept live s.2 s'.2.
Proof.
  intros Hm Hinv Hlen. assert (granted (len src) 1 = Z.max (len src) 1) as Eg.
  { unfold granted, round_up. by rewrite Z.mod_1_r. }
  destruct (allocate_region (len src) 1 s a live Hm Hinv) as (p & s1 & a' & Er & _ & Hm1 & Hinv1 & _ & Hk1).
  { unfold request_ok. split_and!; [lia|lia|done|lia]. }
  rewrite Eg in Hinv1. destruct (append_region s1 a' live p _ [] (byte_cells src) Hm1 Hinv1) as (m' & Ew & Ec & Hm' & Hk');
    [lia|intros i c Hi; by rewrite lookup_nil in Hi|len_simpl; lia|]. rewrite ptr_add_0 in Ew.
  exists p, (s1.1, m'), a'. destruct s1 as [ra1 m1]. unfold copy_bytes.
  rewrite (run_bind _ _ _ _ _ Er), (run_bind _ _ _ _ _ (on_snd_run _ ra1 _ _ _ Ew)). split_and!; try done.
  - exists (Z.max (len src) 1). by split_and!; [left|lia|].
  - by eapply regions_kept_trans.
Qed.

Lemma copied_kept s s' live r p src :
  copied s live p src → regions_kept live s.2 s'.2 → copied s' (r :: live) p src.
Proof.
  intros (n & Hin & Hl & Hc) Hk. exists n. split_and!; [by right|done|]. eapply Hk; [done|len_simpl; lia|done].
Qed.

Lemma copied_read s a live p src :
  arena_match s a → arena_inv a live → copied s live p src → read_bytes p (len src) s.2 = Ok src.
Proof. intros Hm Hinv (n & Hin & Hl & Hc). eapply read_bytes_at; [apply (region_block s a live p n); (done || lia)|done|done]. Qed.

Lemma copy_all_ok srcs s a live ps srcs0 :
  arena_match s a → arena_inv a live → Forall2 (copied s live) ps srcs0 → Forall (λ src, len src ≤ 2 ^ 60) srcs →
  ∃ qs s' a' live', copy_all srcs s = (Ok qs, s') ∧ arena_match s' a' ∧ arena_inv a' live' ∧
    Forall2 (copied s' live') (ps ++ qs) (srcs0 ++ srcs).
Proof.
  intros Hm Hinv Hc Hl. revert s a live ps srcs0 Hm Hinv Hc. induction Hl as [|src srcs Hl _ IH]; intros s a live ps srcs0 Hm Hinv Hc.
  { exists [], s, a, live. by rewrite !app_nil_r. }
  destruct (copy_bytes_ok src s a live Hm Hinv Hl) as (p & s1 & a1 & E & Hm1 & Hinv1 & Hc1 & Hk).
  destruct (IH s1 a1 _ (ps ++ [p]) (srcs0 ++ [src]) Hm1 Hinv1) as (qs & s2 & a2 & live2 & E2 & Hm2 & Hinv2 & Hc2).
  { apply Forall2_app; [|by constructor]. eapply Forall2_impl; [exact Hc|]. intros q k Hq. by eapply copied_kept. }
  exists (p :: qs), s2, a2, live2. cbn [copy_all]. rewrite (run_bind _ _ _ _ _ E), (run_bind _ _ _ _ _ E2).
  split_and!; try done. by rewrite <-!app_assoc in Hc2.
Qed.

(** * Properties *)

(** C26. What is copied into an arena stays there, and all of it is given back.
    After any sequence of [copy_bytes], across slabs that were added on the
    way, no access having left a live block, every pointer still reads the
    bytes it was given; and [Drop] then walks the slab headers, returns each
    block with the size it was allocated with, and leaves no block and no
    cell. *)
Theorem arena_copies_survive (srcs : list bytes) (Hlen : Forall (λ src, len src ≤ 2 ^ 60) srcs) :
  ∃ ps a m m', copy_all srcs (raw_new, mem_empty) = (Ok ps, (a, m)) ∧
    Forall2 (λ p src, read_bytes p (len src) m = Ok src) ps srcs ∧
    drop_arena a m = (Ok tt, m') ∧ mem_blocks m' = ∅ ∧ mem_cells m' = ∅.
Proof.
  destruct (copy_all_ok srcs _ _ _ [] [] raw_new_match arena_new_inv ltac:(constructor) Hlen)
    as (ps & [a m] & a' & live & E & Hm & Hinv & Hc).
  destruct (drop_arena_ok _ _ Hm) as (m' & Ed & Hb & Hcl). exists ps, a, m, m'. split_and!; try done.
  eapply Forall2_impl; [exact Hc|]. intros p src Hp. by eapply (copied_read (a, m)).
Qed.

Lemma arena_copies_survive_witness :
  let srcs := [[1; 2; 3]; []; replicate 5 7] in
  Forall (λ src, len src ≤ 2 ^ 60) srcs ∧
  ∃ ps a m m', copy_all srcs (raw_new, mem_empty) = (Ok ps, (a, m)) ∧ length ps = 3%nat ∧
    drop_arena a m = (Ok tt, m') ∧ mem_blocks m' = ∅.
Proof.
  intros srcs. assert (Forall (λ src, len src ≤ 2 ^ 60) srcs) as H by (repeat (constructor; [cbn; lia|]); constructor).
  split; [exact H|]. destruct (arena_copies_survive srcs H) as (ps & a & m & m' & E & H2 & Ed & Hb & _).
  exists ps, a, m, m'. split; [exact E|]. split; [exact (Forall2_length _ _ _ H2)|]. split; [exact Ed|exact Hb].
Defined.
