(* ===== verification/AlignedBuf.v ===== *)
(** Page-aligned buffers and their pool: [crates/paddock-core/src/io/aligned_buf.rs].

    The global allocator is a parameter ([Allocator]) with the contract of
    [GlobalAlloc]: a block is aligned, apart from every live block, and freed
    once with the layout it was obtained with.  A buffer is its address, its
    length and alignment, and the bytes behind the address. *)

From S2P Require Import Prelude Arena.

(** * Buffers *)

Class Allocator (W : Type) := {
  alloc : Z → Z → st W (option Z);
  dealloc : Z → Z → Z → st W ()
}.

Definition PAGE_SIZE : Z := 4096.

Record AlignedBuf := { ab_ptr : Z; ab_len : Z; ab_align : Z; ab_bytes : bytes }.

(** [round_up], with the overflow check of its addition. *)
Definition page_round_up (value multiple : Z) : outcome Z :=
  let rem := value mod multiple in
  if rem =? 0 then Ok value else expect (checked_add value (multiple - rem)).

Section Buffers.
Context {W : Type} `{Allocator W}.

(** The recursion is entered once, for a length of zero. *)
Fixpoint with_alignment_loop (fuel : nat) (n align : Z) : st W (option AlignedBuf) :=
  match fuel with
  | O => st_lift OutOfFuel
  | S fuel =>
      if negb (is_power_of_two align) then st_lift Panic
      else
        rounded ← st_lift (page_round_up n align);
        if rounded =? 0 then with_alignment_loop fuel align align
        else if negb (layout_ok rounded align) then mret None
        else
          raw ← alloc rounded align;
          mret ((λ p, {| ab_ptr := p; ab_len := rounded; ab_align := align; ab_bytes := zeros rounded |}) <$> raw)
  end.

Definition with_alignment (n align : Z) : st W (option AlignedBuf) := with_alignment_loop 2 n align.

Definition aligned_new (n : Z) : st W (option AlignedBuf) := with_alignment n PAGE_SIZE.

(** [Drop::drop]. *)
Definition drop_buf (b : AlignedBuf) : st W () :=
  if negb (is_power_of_two (ab_align b) && layout_ok (ab_len b) (ab_align b)) then st_lift Panic
  else dealloc (ab_ptr b) (ab_len b) (ab_align b).
End Buffers.

(** The borrows.  [Deref] is [as_slice], [DerefMut] is [as_mut_slice]. *)
Definition buf_as_slice (b : AlignedBuf) : bytes := ab_bytes b.
Definition buf_deref (b : AlignedBuf) : bytes := buf_as_slice b.
Definition buf_alignment (b : AlignedBuf) : Z := ab_align b.
Definition buf_len (b : AlignedBuf) : Z := ab_len b.
Definition buf_is_empty (b : AlignedBuf) : bool := ab_len b =? 0.
Definition buf_as_ptr (b : AlignedBuf) : Z := ab_ptr b.

(** Writing through [as_mut_slice]. *)
Definition fill_buf (d : bytes) (b : AlignedBuf) : AlignedBuf :=
  {| ab_ptr := ab_ptr b; ab_len := ab_len b; ab_align := ab_align b;
     ab_bytes := take (length (ab_bytes b)) (d ++ drop (length d) (ab_bytes b)) |}.

(** * The pool *)

(** [bp_free] has the top of the stack first. *)
Record BufferPool := { bp_free : list AlignedBuf; bp_buf_size : Z; bp_align : Z; bp_capacity : Z }.

(** [Vec::with_capacity] panics if its elements, an address, a length and an
    alignment each, take more than [isize::MAX] bytes. *)
Definition SIZE_OF_ALIGNED_BUF : Z := 24.

Definition pool_new (buf_size align capacity : Z) : outcome BufferPool :=
  if 2 ^ 63 <=? capacity * SIZE_OF_ALIGNED_BUF then Panic
  else Ok {| bp_free := []; bp_buf_size := buf_size; bp_align := align; bp_capacity := capacity |}.

Definition for_sstable_blocks : outcome BufferPool := pool_new (16 * 1024) PAGE_SIZE 64.

Definition set_free (free : list AlignedBuf) (p : BufferPool) : BufferPool :=
  {| bp_free := free; bp_buf_size := bp_buf_size p; bp_align := bp_align p; bp_capacity := bp_capacity p |}.

Definition idle_count (p : BufferPool) : Z := len (bp_free p).

Section Pool.
Context {W : Type} `{Allocator W}.

Definition acquire : st (BufferPool * W) (option AlignedBuf) :=
  '(p, _) ← st_get;
  match bp_free p with
  | b :: free => _ ← on_fst (st_modify (set_free free)); mret (Some b)
  | [] => on_snd (with_alignment (bp_buf_size p) (bp_align p))
  end.

Definition release (b : AlignedBuf) : st (BufferPool * W) () :=
  '(p, _) ← st_get;
  if (len (bp_free p) <? bp_capacity p) && (ab_len b =? bp_buf_size p) && (ab_align b =? bp_align p)
  then on_fst (st_modify (set_free (b :: bp_free p)))
  else on_snd (drop_buf b).

(** A client holds buffers, acquires, writes into one, or gives one back. *)
Inductive pool_op := PoolAcquire | PoolFill (i : nat) (d : bytes) | PoolRelease (i : nat).

Definition run_pool_op (op : pool_op) (held : list AlignedBuf) : st (BufferPool * W) (list AlignedBuf) :=
  match op with
  | PoolAcquire => b ← acquire; mret (match b with Some b => b :: held | None => held end)
  | PoolFill i d => mret (alter (fill_buf d) i held)
  | PoolRelease i =>
      match held !! i with
      | Some b => _ ← release b; mret (delete i held)
      | None => mret held
      end
  end.

Fixpoint run_pool (ops : list pool_op) (held : list AlignedBuf) : st (BufferPool * W) (list AlignedBuf) :=
  match ops with
  | [] => mret held
  | op :: ops => held ← run_pool_op op held; run_pool ops held
  end.
End Pool.

(** * The allocator's contract *)

Definition apart (r s : Z * Z) : Prop := r.1 + r.2 ≤ s.1 ∨ s.1 + s.2 ≤ r.1.

(** A live block is its address, size and alignment: it is freed with the layout
    it was obtained with. *)
Class AllocatorLaws (W : Type) `{!Allocator W} := {
  heap_ok : W → Prop;
  blocks : W → list (Z * Z * Z);
  blocks_apart w : heap_ok w → ForallOrdPairs apart (blocks w).*1;
  alloc_Some size align w w' p :
    alloc size align w = (Ok (Some p), w') → heap_ok w → 0 < size → is_power_of_two align = true →
    heap_ok w' ∧ p mod align = 0 ∧ 0 < p ∧ blocks w' ≡ₚ (p, size, align) :: blocks w;
  alloc_None size align w w' :
    alloc size align w = (Ok None, w') → heap_ok w → heap_ok w' ∧ blocks w' ≡ₚ blocks w;
  alloc_runs size align w : ∃ r w', alloc size align w = (Ok r, w');
  dealloc_Ok p size align w bs :
    heap_ok w → blocks w ≡ₚ (p, size, align) :: bs →
    ∃ w', dealloc p size align w = (Ok tt, w') ∧ heap_ok w' ∧ blocks w' ≡ₚ bs
}.

(** An allocator that never reuses addresses, and panics when a block is freed
    that is not live with that size and alignment. *)
Record heap := { hp_blocks : list (Z * Z * Z); hp_next : Z }.

Definition heap_new : heap := {| hp_blocks := []; hp_next := 1 |}.

Definition heap_alloc (size align : Z) : st heap (option Z) := λ h,
  let p := round_up (hp_next h) align in
  if 2 ^ 47 <? p + size then (Ok None, h)
  else (Ok (Some p), {| hp_blocks := (p, size, align) :: hp_blocks h; hp_next := p + Z.max size 1 |}).

Fixpoint remove_one (r : Z * Z * Z) (l : list (Z * Z * Z)) : list (Z * Z * Z) :=
  match l with [] => [] | s :: l => if decide (r = s) then l else s :: remove_one r l end.

Definition heap_dealloc (p size align : Z) : st heap () := λ h,
  if decide ((p, size, align) ∈ hp_blocks h)
  then (Ok tt, {| hp_blocks := remove_one (p, size, align) (hp_blocks h); hp_next := hp_next h |})
  else (Panic, h).

#[global] Instance heap_allocator : Allocator heap := {| alloc := heap_alloc; dealloc := heap_dealloc |}.

(** * Buffers are aligned *)

Definition block_of_buf (b : AlignedBuf) : Z * Z * Z := (ab_ptr b, ab_len b, ab_align b).

Record buf_ok (b : AlignedBuf) : Prop := {
  bo_power : is_power_of_two (ab_align b) = true;
  bo_len : 0 < ab_len b;
  bo_multiple : ab_len b mod ab_align b = 0;
  bo_layout : layout_ok (ab_len b) (ab_align b) = true;
  bo_ptr : ab_ptr b mod ab_align b = 0;
  bo_nonnull : 0 < ab_ptr b;
  bo_bytes : len (ab_bytes b) = ab_len b
}.

Lemma page_round_up_ok v m : 0 ≤ v → 0 < m → v + m ≤ 2 ^ 64 → page_round_up v m = Ok (round_up v m).
Proof.
  intros Hv Hm Hfit. unfold page_round_up, round_up, checked_add. pose proof (Z.mod_pos_bound v m Hm).
  destruct (Z.eqb_spec (v mod m) 0); [done|]. by decide_bool.
Qed.

Section Aligned.
Context {W : Type} `{AllocatorLaws W}.

Definition fresh_buf (n align : Z) (w : W) (r : option AlignedBuf) (w' : W) : Prop :=
  heap_ok w' ∧
  match r with
  | Some b => buf_ok b ∧ ab_align b = align ∧ ab_len b = round_up (Z.max n 1) align ∧
      ab_bytes b = zeros (ab_len b) ∧ blocks w' ≡ₚ block_of_buf b :: blocks w
  | None => blocks w' ≡ₚ blocks w
  end.

Lemma with_alignment_nonzero fuel n align w :
  heap_ok w → is_power_of_two align = true → 0 < n → n + align ≤ 2 ^ 64 →
  wp (with_alignment_loop (S fuel) n align) (λ _ _, False) (fresh_buf n align w) w.
Proof.
  intros Hw Hp Hn Hfit. pose proof (power_of_two_pos _ Hp) as Ha. cbn [with_alignment_loop]. rewrite Hp. cbn [negb].
  apply wp_bind. eapply wp_lift_Ok; [apply page_round_up_ok; lia|].
  destruct (round_up_spec n align) as [Hr Hm]; [lia..|]. set (rounded := round_up n align) in *.
  destruct (Z.eqb_spec rounded 0); [lia|]. destruct (layout_ok rounded align) eqn:Hl; cbn [negb].
  2: { by apply wp_ret. }
  apply wp_bind. destruct (alloc_runs rounded align w) as ([p|] & w' & E); unfold wp at 1; rewrite E.
  - destruct (alloc_Some _ _ _ _ _ E) as (Hw' & Hpm & Hp0 & Hb); [done|lia|done|].
    apply wp_ret. split; [done|]. cbn. rewrite Z.max_l by lia. split_and!; try done. split; cbn; try done; [lia|].
    unfold zeros. rewrite length_replicate. lia.
  - destruct (alloc_None _ _ _ _ E Hw). by apply wp_ret.
Qed.

Lemma with_alignment_spec n align w :
  heap_ok w → is_power_of_two align = true → 0 ≤ n → n + align ≤ 2 ^ 64 → 2 * align ≤ 2 ^ 64 →
  wp (with_alignment n align) (λ _ _, False) (fresh_buf n align w) w.
Proof.
  intros Hw Hp Hn Hfit Hfit2. destruct (Z.eq_dec n 0) as [->|Hn0]; [|apply with_alignment_nonzero; auto with lia].
  pose proof (power_of_two_pos _ Hp) as Ha. unfold with_alignment.
  change (with_alignment_loop 2 0 align) with
    (if negb (is_power_of_two align) then st_lift Panic
     else rounded ← st_lift (page_round_up 0 align);
          if rounded =? 0 then with_alignment_loop (W := W) 1 align align
          else if negb (layout_ok rounded align) then mret None
          else raw ← alloc rounded align;
               mret ((λ p, {| ab_ptr := p; ab_len := rounded; ab_align := align; ab_bytes := zeros rounded |}) <$> raw)).
  rewrite Hp. cbn [negb]. apply wp_bind. eapply wp_lift_Ok; [by rewrite page_round_up_ok by lia|].
  assert (round_up 0 align = 0) as -> by (unfold round_up; by rewrite Z.mod_0_l by lia). cbn [Z.eqb].
  eapply wp_mono; [apply (with_alignment_nonzero 0 align align); auto with lia|done|].
  intros r w' [Hw' Hr]. split; [done|]. destruct r as [b|]; [|done].
  destruct Hr as (Hb & Hba & Hlen & Hz & Hbl). split_and!; try done. rewrite Hlen.
  destruct (round_up_spec 1 align) as [H1 M1]; [lia..|]. destruct (round_up_spec align align) as [H2 M2]; [lia..|].
  rewrite (Z.max_l align 1), (Z.max_r 0 1) by lia. apply Z.div_exact in M1, M2; [|lia..].
  assert (round_up align align / align = 1) by nia. assert (round_up 1 align / align = 1) by nia. lia.
Qed.

(** * The pool hands out every buffer once *)

Record pool_inv (p : BufferPool) (w : W) (held : list AlignedBuf) : Prop := {
  pi_heap : heap_ok w;
  pi_blocks : blocks w ≡ₚ block_of_buf <$> held ++ bp_free p;
  pi_bufs : Forall buf_ok (held ++ bp_free p);
  pi_held : Forall (λ b, ab_align b = bp_align p ∧ bp_buf_size p ≤ ab_len b) held;
  pi_free : Forall (λ b, ab_align b = bp_align p ∧ ab_len b = bp_buf_size p) (bp_free p);
  pi_idle : idle_count p ≤ Z.max 0 (bp_capacity p)
}.

(** Pools that ask for the same buffers. *)
Definition same_sizes (p q : BufferPool) : Prop :=
  bp_buf_size p = bp_buf_size q ∧ bp_align p = bp_align q ∧ bp_capacity p = bp_capacity q.

Definition pool_fits (size align : Z) : Prop :=
  is_power_of_two align = true ∧ 0 ≤ size ∧ size + align ≤ 2 ^ 64 ∧ 2 * align ≤ 2 ^ 64.

Definition pool_post (p0 : BufferPool) (held : list AlignedBuf) (s : BufferPool * W) : Prop :=
  same_sizes s.1 p0 ∧ pool_inv s.1 s.2 held.

Lemma acquire_spec p w held :
  pool_fits (bp_buf_size p) (bp_align p) → pool_inv p w held →
  wp acquire (λ _ _, False)
    (λ b s, pool_post p (match b with Some b => b :: held | None => held end) s) (p, w).
Proof.
  intros (Hp & Hn & Hfit & Hfit2) [Hh Hb Hok Hheld Hfree Hidle]. unfold acquire. apply wp_bind, wp_get.
  destruct (bp_free p) as [|b free] eqn:Ef.
  - apply wp_on_snd. eapply wp_mono; [by apply with_alignment_spec|done|].
    intros [b|] w' [Hw' Hr]; (split; [done|]); cbn in *.
    + destruct Hr as (Hbo & Hba & Hlen & _ & Hbl). split; rewrite ?Ef; try done.
      * cbn. by rewrite Hbl, Hb.
      * by constructor.
      * constructor; [|done]. split; [done|]. pose proof (power_of_two_pos _ Hp).
        destruct (round_up_spec (Z.max (bp_buf_size p) 1) (bp_align p)); lia.
    + split; rewrite ?Ef; try done. by rewrite Hr.
  - apply wp_bind, wp_on_fst, wp_modify, wp_ret. split; [done|].
    apply Forall_cons in Hfree as [[Ha Hl] Hfree]. unfold idle_count in *. rewrite Ef in Hidle. cbn in Hidle.
    split; cbn; try done; try lia.
    + rewrite Hb, !fmap_app, fmap_cons. by rewrite Permutation_middle.
    + rewrite <-Permutation_middle in Hok. done.
    + constructor; [|done]. lia.
    + unfold idle_count. cbn. lia.
Qed.

Lemma drop_buf_spec b (w : W) bs :
  heap_ok w → buf_ok b → blocks w ≡ₚ block_of_buf b :: bs →
  wp (drop_buf b) (λ _ _, False) (λ _ w', heap_ok w' ∧ blocks w' ≡ₚ bs) w.
Proof.
  intros Hw Hb Hbl. unfold drop_buf. rewrite (bo_power _ Hb), (bo_layout _ Hb). cbn.
  destruct (dealloc_Ok _ _ _ _ _ Hw Hbl) as (w' & E & ? & ?). unfold wp. by rewrite E.
Qed.

Lemma release_spec p w b held :
  pool_inv p w (b :: held) → wp (release b) (λ _ _, False) (λ _ s, pool_post p held s) (p, w).
Proof.
  intros [Hh Hb Hok Hheld Hfree Hidle]. unfold release. apply wp_bind, wp_get.
  apply Forall_cons in Hheld as [[Ha Hl] Hheld]. cbn in Hb, Hok. destruct (_ && _) eqn:Hc.
  - apply andb_prop in Hc as [[Hcap Hlen]%andb_prop _]. apply Z.ltb_lt in Hcap. apply Z.eqb_eq in Hlen.
    apply wp_on_fst, wp_modify. split; [done|]. unfold idle_count in *. split; cbn; try done; try lia.
    + by rewrite Hb, !fmap_app, fmap_cons, Permutation_middle.
    + by rewrite <-Permutation_middle.
    + by constructor.
    + unfold idle_count. cbn. lia.
  - apply Forall_cons in Hok as [Hbo Hok]. apply wp_on_snd. eapply wp_mono; [by apply drop_buf_spec|done|].
    intros [] w' [Hw' Hbl]. split; [done|]. by split.
Qed.

Lemma fill_buf_ok d b : buf_ok b → buf_ok (fill_buf d b).
Proof.
  intros []. split; try done. cbn. rewrite length_take, length_app, length_drop. lia.
Qed.

Lemma fill_held d (i : nat) (held : list AlignedBuf) : block_of_buf <$> alter (fill_buf d) i held = block_of_buf <$> held.
Proof. revert i. induction held as [|b held IH]; intros [|i]; cbn; [done..|]. by rewrite IH. Qed.

Lemma run_pool_op_spec op p w held :
  pool_fits (bp_buf_size p) (bp_align p) → pool_inv p w held →
  wp (run_pool_op op held) (λ _ _, False) (λ held' s, pool_post p held' s) (p, w).
Proof.
  intros Hfits Hinv. destruct op as [|i d|i]; cbn [run_pool_op].
  - apply wp_bind. eapply wp_mono; [by apply acquire_spec|done|]. intros b s Hs. by apply wp_ret.
  - apply wp_ret. split; [done|]. destruct Hinv as [Hh Hb Hok Hheld Hfree Hidle].
    apply Forall_app in Hok as [Hok1 Hok2]. split; try done; cbn.
    + by rewrite Hb, !fmap_app, fill_held.
    + apply Forall_app. split; [|done]. apply Forall_alter; [done|]. intros b _. apply fill_buf_ok.
    + by apply Forall_alter.
  - destruct (held !! i) as [b|] eqn:Ei; [|by apply wp_ret].
    apply wp_bind. eapply wp_mono; [apply (release_spec p w b (delete i held))|done|intros [] s Hs; by apply wp_ret].
    pose proof (delete_Permutation _ _ _ Ei) as Hperm.
    destruct Hinv as [Hh Hb Hok Hheld Hfree Hidle]. split; try done.
    + rewrite Hb. by rewrite Hperm at 1.
    + by rewrite <-Hperm.
    + by rewrite <-Hperm.
Qed.

Lemma pool_new_cases size align capacity :
  2 ^ 63 ≤ capacity * SIZE_OF_ALIGNED_BUF ∧ pool_new size align capacity = Panic ∨
  ∃ p, pool_new size align capacity = Ok p ∧ bp_buf_size p = size ∧ bp_align p = align ∧ bp_capacity p = capacity ∧
    bp_free p = [].
Proof. unfold pool_new. case_bool; [left; split; [lia|done]|right; by eexists]. Qed.

Lemma fresh_pool_inv p w : heap_ok w → blocks w = [] → bp_free p = [] → pool_inv p w [].
Proof.
  intros Hw Hb Ep. split; unfold idle_count; rewrite ?Ep; cbn; try constructor; [done|by rewrite Hb|]. lia.
Qed.

Lemma run_pool_spec ops p w held :
  pool_fits (bp_buf_size p) (bp_align p) → pool_inv p w held →
  wp (run_pool ops held) (λ _ _, False) (λ held' s, pool_post p held' s) (p, w).
Proof.
  revert p w held. induction ops as [|op ops IH]; intros p w held Hfits Hinv; cbn [run_pool]; [by apply wp_ret|].
  apply wp_bind. eapply wp_mono; [by apply run_pool_op_spec|done|]. intros held' [p' w'] [Hsame Hinv']. cbn in *.
  pose proof Hsame as (E1 & E2 & E3). eapply wp_mono; [apply IH; [|done]|done|].
  - unfold pool_fits in *. by rewrite E1, E2.
  - intros held2 [p2 w2] [(F1 & F2 & F3) Hinv2]. cbn in *. split; [split_and!; cbn; congruence|done].
Qed.
End Aligned.

#[global] Instance apart_sym : Symmetric apart.
Proof. intros r s. unfold apart. lia. Qed.

Lemma apart_perm l l' : l ≡ₚ l' → ForallOrdPairs apart l → ForallOrdPairs apart l'.
Proof.
  induction 1 as [|r l l' Hp IH|r s l|]; auto.
  - inversion 1; subst. constructor; [by rewrite <-Hp|auto].
  - inversion 1 as [|? ? Hr Hl]; subst. inversion Hl as [|? ? Hs Hl']; subst. apply Forall_cons in Hr as [Hrs Hr].
    constructor; [constructor; [by symmetry|done]|by constructor].
Qed.

Lemma remove_one_perm r l bs : l ≡ₚ r :: bs → remove_one r l ≡ₚ bs.
Proof.
  revert bs. induction l as [|s l IH]; intros bs Hp; [by apply Permutation_nil_cons in Hp|]. cbn.
  destruct (decide (r = s)) as [<-|Hne]; [by apply Permutation_cons_inv in Hp|].
  assert (s ∈ bs) as Hs.
  { assert (s ∈ r :: bs) as Hin by (rewrite <-Hp; left). by apply elem_of_cons in Hin as [->|]. }
  apply elem_of_Permutation in Hs as [bs' Hbs]. rewrite Hbs. f_equiv. apply IH.
  apply (Permutation_cons_inv (a := s)). by rewrite Hp, Hbs, Permutation_swap.
Qed.

#[global] Instance heap_allocator_laws : AllocatorLaws heap.
Proof.
  refine {| heap_ok h := ForallOrdPairs apart (hp_blocks h).*1 ∧ Forall (λ r, r.1 + r.2 ≤ hp_next h) (hp_blocks h).*1 ∧
              0 < hp_next h;
            blocks := hp_blocks |}; cbn; unfold heap_alloc.
  - tauto.
  - intros size align h h' p. case_bool; [done|]. intros [= <- <-] (Ha & Hb & Hn) Hs Hp.
    pose proof (power_of_two_pos _ Hp). destruct (round_up_spec (hp_next h) align) as [Hr Hm]; [lia..|]. cbn.
    split_and!; try done; try lia.
    + constructor; [|done]. eapply Forall_impl; [exact Hb|]. intros r Hle. unfold apart. cbn in *. lia.
    + constructor; [cbn; lia|]. eapply Forall_impl; [exact Hb|]. intros r Hle. cbn in *. lia.
  - intros size align h h'. case_bool; [|done]. by intros [= <-] Hh.
  - intros size align h. case_bool; eauto.
  - intros p size align h bs (Ha & Hb & Hn) Hp. unfold heap_dealloc. rewrite decide_True by (rewrite Hp; left).
    eexists. split; [done|]. cbn. pose proof (remove_one_perm _ _ _ Hp) as Hr. split_and!; [| |done|done].
    + apply (apart_perm bs.*1); [by rewrite Hr|]. apply (apart_perm _ _ (fmap_Permutation fst _ _ Hp)) in Ha. by inversion Ha.
    + rewrite Hr. rewrite Hp in Hb. by apply Forall_cons in Hb as [_ Hb].
Defined.


Definition demo_pool_ops : list pool_op :=
  [PoolAcquire; PoolAcquire; PoolFill 0 [1; 2; 3]; PoolRelease 1; PoolAcquire; PoolRelease 1; PoolRelease 0].


(** The pool compares the length it asked for with the length it got, which is
    rounded up: where the size is not a multiple of the alignment, nothing is
    ever parked. *)
Theorem unaligned_pool_never_parks `{AllocatorLaws W} (size align capacity : Z) (p0 : BufferPool)
    (ops : list pool_op) (w : W) :
  pool_new size align capacity = Ok p0 → pool_fits size align → heap_ok w → blocks w = [] → size mod align ≠ 0 →
  ∃ held p w', run_pool ops [] (p0, w) = (Ok held, (p, w')) ∧ idle_count p = 0.
Proof.
  intros Enew Hfits Hw Hempty Hm.
  destruct (pool_new_cases size align capacity) as [[_ ?]|(p1 & Ep & Es & Ea & _ & Ef)]; [congruence|].
  assert (p1 = p0) as -> by congruence.
  pose proof (run_pool_spec ops p0 w [] ltac:(by rewrite Es, Ea) (fresh_pool_inv p0 w Hw Hempty Ef)) as Hwp.
  unfold wp in Hwp. destruct (run_pool ops [] _) as [[held|e| |] [p w']]; try done.
  destruct Hwp as [(E1 & E2 & _) [_ _ Hok _ Hfree _]]. cbn in *. exists held, p, w'. split; [done|].
  unfold idle_count. destruct (bp_free p) as [|b free]; [done|]. exfalso. apply Hm.
  apply Forall_app in Hok as [_ Hok]. apply Forall_cons in Hok as [Hb _], Hfree as [[Ha Hl] _].
  pose proof (bo_multiple _ Hb). congruence.
Qed.
