(* ===== verification/DirectFile.v ===== *)
(** Files opened with [O_DIRECT]: [crates/paddock-core/src/io/direct.rs].

    Every call on such a file must have its buffer address, length and file
    offset at multiples of the block size, or the kernel refuses it
    ([o_direct]).  [DirectFile] checks length and offset once and then loops
    over partial transfers; the theorem says what the loops transfer on any
    kernel and buffer, and lists the reasons for which they stop early: among
    them a buffer address that is not aligned and a transfer that ends inside a
    block, which the code does not check. *)

From S2P Require Import Prelude Vfs LinuxFile LinuxVfs Arena AlignedBuf.

(** * The descriptor *)

(** [pwrite] and [pread] with the address of the buffer. *)
Class DirectCalls (F W : Type) := {
  d_pwrite : Z → F → bytes → Z → st W Z;
  d_pread : Z → F → Z → Z → W → outcome bytes
}.

Definition aligned_call (bs addr n off : Z) : bool :=
  (addr mod bs =? 0) && (n mod bs =? 0) && (off mod bs =? 0).

(** A descriptor with [O_DIRECT] on a device with blocks of [bs] bytes. *)
Definition o_direct {F W} (bs : Z) (K : Kernel F W) : DirectCalls F W := {|
  d_pwrite addr f d off :=
    if aligned_call bs addr (len d) off then k_pwrite f d off else λ w, (Err (Io IoInvalidInput), w);
  d_pread addr f n off w :=
    if aligned_call bs addr n off then k_pread f n off w else Err (Io IoInvalidInput) |}.

(** What the kernel stores in a buffer, from position [i] on. *)
Definition fill_at (i : Z) (d : bytes) (b : AlignedBuf) : AlignedBuf :=
  {| ab_ptr := ab_ptr b; ab_len := ab_len b; ab_align := ab_align b; ab_bytes := overwrite (ab_bytes b) d i |}.

(** * [DirectFile] *)

Record DirectFile (F : Type) := { df_file : F; df_block_size : Z }.
Arguments df_file {F} _.
Arguments df_block_size {F} _.

(** [std::fs::OpenOptions], as far as it is set here; [O_DIRECT] on Linux. *)
Record OpenOptions := {
  oo_read : bool; oo_write : bool; oo_create : bool; oo_truncate : bool; oo_custom_flags : Z
}.

Definition open_options_new : OpenOptions :=
  {| oo_read := false; oo_write := false; oo_create := false; oo_truncate := false; oo_custom_flags := 0 |}.

Definition O_DIRECT : Z := 0x4000.

(** [OpenOptions::open], and [fallocate] with mode and offset 0. *)
Class OpenCalls (F W : Type) := {
  o_open : OpenOptions → path → st W F;
  o_fallocate : F → Z → st W ()
}.

Section Open.
Context {F W : Type} `{OpenCalls F W}.

Definition open_with_options (p : path) (opts : OpenOptions) : st W (DirectFile F) :=
  file ← o_open opts p;
  mret {| df_file := file; df_block_size := PAGE_SIZE |}.

Definition direct_create (p : path) : st W (DirectFile F) :=
  open_with_options p {| oo_read := true; oo_write := true; oo_create := true; oo_truncate := false;
                         oo_custom_flags := O_DIRECT |}.

Definition direct_open_read (p : path) : st W (DirectFile F) :=
  open_with_options p {| oo_read := true; oo_write := false; oo_create := false; oo_truncate := false;
                         oo_custom_flags := O_DIRECT |}.

(** [len.cast_signed()]: a length of 2{^63} or more is negative for the kernel. *)
Definition direct_fallocate (f : DirectFile F) (n : Z) : st W () := o_fallocate (df_file f) (to_i64 n).
End Open.

Definition direct_block_size {F} (f : DirectFile F) : Z := df_block_size f.

Definition direct_as_file {F} (f : DirectFile F) : F := df_file f.

Definition direct_as_raw_fd {F} (as_raw_fd : F → Z) (f : DirectFile F) : Z := as_raw_fd (df_file f).

Definition direct_set_block_size {F} (size : Z) (f : DirectFile F) : outcome (DirectFile F) :=
  if is_power_of_two size then Ok {| df_file := df_file f; df_block_size := size |} else Panic.

Definition check_alignment {F} (f : DirectFile F) (n offset : Z) : outcome () :=
  if negb (n mod df_block_size f =? 0) then Err (Io IoInvalidInput)
  else if negb (offset mod df_block_size f =? 0) then Err (Io IoInvalidInput)
  else Ok tt.

Section Direct.
Context {F W : Type} `{DirectCalls F W}.

Fixpoint direct_write_loop (fuel : nat) (f : F) (buf : AlignedBuf) (offset written : Z) : st W () :=
  if written <? ab_len buf then
    match fuel with
    | O => st_lift OutOfFuel
    | S fuel =>
        remaining ← st_lift (slice_from (ab_bytes buf) written);
        off ← st_lift (ok_or (checked_add offset written) (Io IoInvalidInput));
        n ← d_pwrite (ab_ptr buf + written) f remaining (to_i64 off);
        if n =? 0 then st_lift (Err (Io IoWriteZero))
        else direct_write_loop fuel f buf offset (written + n)
    end
  else mret tt.

Definition write_at_aligned (f : DirectFile F) (buf : AlignedBuf) (offset : Z) : st W () :=
  _ ← st_lift (check_alignment f (ab_len buf) offset);
  direct_write_loop (Z.to_nat (ab_len buf)) (df_file f) buf offset 0.

(** The buffer is borrowed mutably: it is filled as far as the reads got. *)
Fixpoint direct_read_loop (fuel : nat) (f : F) (offset read : Z) (w : W) : st AlignedBuf () :=
  buf ← st_get;
  if read <? ab_len buf then
    match fuel with
    | O => st_lift OutOfFuel
    | S fuel =>
        remaining ← st_lift (slice_from (ab_bytes buf) read);
        off ← st_lift (ok_or (checked_add offset read) (Io IoInvalidInput));
        b ← st_lift (d_pread (ab_ptr buf + read) f (len remaining) (to_i64 off) w);
        _ ← st_modify (fill_at read b);
        if len b =? 0 then st_lift (Err (Io IoUnexpectedEof))
        else direct_read_loop fuel f offset (read + len b) w
    end
  else mret tt.

Definition read_at_aligned (f : DirectFile F) (offset : Z) (w : W) : st AlignedBuf () :=
  buf ← st_get;
  _ ← st_lift (check_alignment f (ab_len buf) offset);
  direct_read_loop (Z.to_nat (ab_len buf)) (df_file f) offset 0 w.

Definition append_aligned `{!Kernel F W} (f : DirectFile F) (buf : AlignedBuf) : st W Z :=
  w ← st_get;
  offset ← st_lift (k_len (df_file f) w);
  _ ← write_at_aligned f buf offset;
  mret offset.

Definition direct_fdatasync `{!Kernel F W} (f : DirectFile F) : st W () := k_fdatasync (df_file f).
End Direct.

(** * What the loops transfer *)

(** A file is extended with zeros up to the length that is reserved; a length
    of zero or less is refused. *)
Class FallocateLaws (F W : Type) `{KernelLaws F W} `{!OpenCalls F W} := {
  fallocate_Ok f n w w' :
    o_fallocate f n w = (Ok tt, w') →
    0 < n ∧ k_contents f w' = k_contents f w ++ zeros (n - len (k_contents f w))
}.

(** What is reserved counts as written: an append goes behind it. *)
Lemma append_behind_reserved {F W : Type} `{FallocateLaws F W} `{!DirectCalls F W} (f : DirectFile F) (buf : AlignedBuf)
    (n off : Z) (w w1 w2 : W) :
  is_u64 n → direct_fallocate f n w = (Ok tt, w1) → append_aligned f buf w1 = (Ok off, w2) →
  n ≤ off ∧ len (k_contents (df_file f) w) ≤ off.
Proof.
  intros Hn E1 E2. unfold direct_fallocate in E1. apply fallocate_Ok in E1 as [Hpos Ec].
  unfold append_aligned in E2. rewrite run_get in E2. pose proof (len_returns (df_file f) w1) as Hr.
  destruct (k_len (df_file f) w1) as [k|e| |] eqn:Ek; try done. rewrite (run_lift _ _ _ _ eq_refl) in E2.
  apply len_Ok in Ek. unfold mbind, st_bind in E2. destruct (write_at_aligned f buf k w1) as [[[]| | |] w3]; try done.
  injection E2 as <- _. rewrite Ek, Ec. unfold zeros. rewrite length_app, length_replicate.
  unfold to_i64, is_u64 in *. destruct (Z.ltb_spec n (2 ^ 63)); lia.
Qed.

Lemma mod_add_0 bs x y : 0 < bs → x mod bs = 0 → y mod bs = 0 → (x + y) mod bs = 0.
Proof. intros Hbs Hx Hy. rewrite Z.add_mod, Hx, Hy by lia. by apply Z.mod_0_l; lia. Qed.

Lemma mod_sub_0 bs x y : 0 < bs → x mod bs = 0 → y mod bs = 0 → (x - y) mod bs = 0.
Proof. intros Hbs Hx Hy. rewrite Zminus_mod, Hx, Hy. by apply Z.mod_0_l; lia. Qed.

(** With length and offset at block boundaries, a call for the rest of a buffer
    is refused for its address or because the call before it ended inside a block. *)
Lemma refused_call bs addr n off k :
  0 < bs → n mod bs = 0 → off mod bs = 0 → aligned_call bs (addr + k) (n - k) (off + k) = false →
  (k = 0 ∨ addr mod bs = 0) → addr mod bs ≠ 0 ∧ k = 0 ∨ k mod bs ≠ 0.
Proof.
  intros Hbs Hn Ho Hal Hk. destruct (decide (k mod bs = 0)) as [Hm|Hm]; [|by right]. left.
  destruct (decide (addr mod bs = 0)) as [Ha|Ha]; [|by destruct Hk].
  unfold aligned_call in Hal. by rewrite !mod_add_0, mod_sub_0 in Hal by done.
Qed.

Lemma overwrite_take c d off :
  0 ≤ off ≤ len c → take (Z.to_nat (off + len d)) (overwrite c d off) = take (Z.to_nat off) c ++ d.
Proof.
  intros Hoff. unfold overwrite. rewrite app_assoc, take_app_length'; [done|].
  rewrite length_app, length_take. lia.
Qed.

(** [DirectFile] configured for a device with blocks of [bs] bytes. *)
Definition suits {F} (bs : Z) (f : DirectFile F) : Prop := 0 < df_block_size f ∧ (bs | df_block_size f).

Lemma check_alignment_cases {F} (f : DirectFile F) n off :
  check_alignment f n off = Ok tt ∧ n mod df_block_size f = 0 ∧ off mod df_block_size f = 0 ∨
  check_alignment f n off = Err (Io IoInvalidInput) ∧ ¬ (n mod df_block_size f = 0 ∧ off mod df_block_size f = 0).
Proof.
  unfold check_alignment. destruct (Z.eqb_spec (n mod df_block_size f) 0); cbn; [|tauto].
  destruct (Z.eqb_spec (off mod df_block_size f) 0); cbn; tauto.
Qed.

Lemma suits_mod {F} bs (f : DirectFile F) x : 0 < bs → suits bs f → x mod df_block_size f = 0 → x mod bs = 0.
Proof.
  intros Hbs [Hpos Hdiv] Hx. apply Z.mod_divide; [lia|]. etrans; [exact Hdiv|]. apply Z.mod_divide; [lia|done].
Qed.

(** Why a transfer stopped after the bytes [p]: a fault, an address that is not
    aligned, or a call that ended inside a block. *)
Definition stopped (bs : Z) (fault : Prop) (buf : AlignedBuf) (p : bytes) : Prop :=
  fault ∨ ab_ptr buf mod bs ≠ 0 ∧ p = [] ∨ len p mod bs ≠ 0.

Section Loops.
Context {F W : Type} `{KernelLaws F W} (bs : Z) (Hbs : 0 < bs).

#[local] Instance direct_calls : DirectCalls F W := o_direct bs _.

(** One call. *)
Lemma direct_pwrite_spec addr (f : F) d off (w : W) :
  is_u64 off →
  match d_pwrite addr f d (to_i64 off) w with
  | (Ok n, w') => off < 2 ^ 63 ∧ aligned_call bs addr (len d) off = true ∧ 0 ≤ n ≤ len d ∧
      k_contents f w' = written (k_contents f w) (take (Z.to_nat n) d) off ∧ (n = 0 → d = [] ∨ k_write_faults F W)
  | (Err _, w') => k_contents f w' = k_contents f w ∧
      (k_write_faults F W ∨ 2 ^ 63 ≤ off + len d ∨ aligned_call bs addr (len d) off = false)
  | _ => False
  end.
Proof.
  intros Hu. unfold is_u64 in Hu. cbn [d_pwrite direct_calls o_direct].
  destruct (Z.lt_ge_cases off (2 ^ 63)) as [Hlt|Hge].
  2: { pose proof (to_i64_neg off ltac:(lia)) as Hneg. destruct (aligned_call bs addr (len d) (to_i64 off)).
       - pose proof (pwrite_returns f d (to_i64 off) w) as Hret.
         destruct (k_pwrite f d (to_i64 off) w) as [[n|e| |] w1] eqn:E; try done.
         + apply pwrite_Ok in E. lia.
         + apply pwrite_Err in E as (_ & Hc & _). split; [done|lia].
       - split; [done|lia]. }
  rewrite to_i64_small by lia. destruct (aligned_call bs addr (len d) off); [|auto].
  pose proof (pwrite_returns f d off w) as Hret. destruct (k_pwrite f d off w) as [[n|e| |] w1] eqn:E; try done.
  - destruct (pwrite_Ok _ _ _ _ _ _ E) as (_ & Hn & Hc). split_and!; try done; [lia|lia|]. intros ->. by eapply pwrite_short.
  - destruct (pwrite_Err _ _ _ _ _ _ E) as (Hf & Hc & _). split; [done|]. destruct Hf as [?|[?|?]]; auto with lia.
Qed.

Lemma direct_pread_spec addr (f : F) n off (w : W) :
  is_u64 off → 0 ≤ n →
  match d_pread addr f n (to_i64 off) w with
  | Ok b => aligned_call bs addr n off = true ∧ b = take (length b) (drop (Z.to_nat off) (k_contents f w)) ∧
      len b ≤ n ∧ (b = [] → n = 0 ∨ len (k_contents f w) ≤ off)
  | Err _ => k_read_faults F W ∨ 2 ^ 63 ≤ off ∨ aligned_call bs addr n off = false
  | _ => False
  end.
Proof.
  intros Hu Hn. unfold is_u64 in Hu. cbn [d_pread direct_calls o_direct].
  destruct (Z.lt_ge_cases off (2 ^ 63)) as [Hlt|Hge].
  2: { pose proof (to_i64_neg off ltac:(lia)) as Hneg. destruct (aligned_call bs addr n (to_i64 off)); [|by auto].
       pose proof (pread_returns f n (to_i64 off) w) as Hret.
       destruct (k_pread f n (to_i64 off) w) as [b|e| |] eqn:E; try done; [apply pread_Ok in E; lia|by auto]. }
  rewrite to_i64_small by lia. destruct (aligned_call bs addr n off); [|by auto].
  pose proof (pread_returns f n off w) as Hret. destruct (k_pread f n off w) as [b|e| |] eqn:E; try done.
  - by destruct (pread_Ok _ _ _ _ _ E Hn) as (_ & ? & ? & ?).
  - destruct (pread_Err _ _ _ _ _ E) as [[?|?] _]; [auto|lia].
Qed.

Lemma direct_write_loop_spec fuel (f : F) buf c off done (w : W) :
  len (ab_bytes buf) = ab_len buf → ab_len buf mod bs = 0 → off mod bs = 0 → is_u64 off →
  0 ≤ done ≤ ab_len buf → (done = 0 ∨ ab_ptr buf mod bs = 0) → (Z.to_nat (ab_len buf - done) ≤ fuel)%nat →
  k_contents f w = written c (take (Z.to_nat done) (ab_bytes buf)) off →
  wp (direct_write_loop fuel f buf off done)
    (λ _ w', ∃ p, p `prefix_of` ab_bytes buf ∧ k_contents f w' = written c p off ∧
      stopped bs (k_write_faults F W ∨ 2 ^ 63 ≤ off + ab_len buf) buf p)
    (λ _ w', k_contents f w' = written c (ab_bytes buf) off) w.
Proof using Hbs.
  intros Hbytes Hlen Hoff Hu. revert done w. induction fuel as [|fuel IH]; intros done w Hd Hp Hfuel Hw.
  { cbn. decide_bool. apply wp_ret. rewrite Hw, take_ge by lia. done. }
  cbn [direct_write_loop]. destruct (Z.ltb_spec done (ab_len buf)) as [Hlt|Hge].
  2: { apply wp_ret. rewrite Hw, take_ge by lia. done. }
  set (rest := drop (Z.to_nat done) (ab_bytes buf)). set (p := take (Z.to_nat done) (ab_bytes buf)) in *.
  assert (len rest = ab_len buf - done) as Hrest by (unfold rest; rewrite length_drop; lia).
  assert (len p = done) as Hld by (unfold p; rewrite length_take; lia).
  assert (p `prefix_of` ab_bytes buf) as Hpre by apply prefix_take.
  apply wp_bind. eapply wp_lift_Ok; [apply slice_from_ok; lia|]. fold rest. unfold is_u64 in Hu.
  apply wp_bind. unfold checked_add. case_bool; cbn [ok_or];
    [eapply wp_lift_Ok; [reflexivity|]|exists p; split_and!; [done..|left; right; lia]].
  apply wp_bind. unfold wp at 1.
  pose proof (direct_pwrite_spec (ab_ptr buf + done) f rest (off + done) w ltac:(unfold is_u64; lia)) as Hcall.
  rewrite Hrest in Hcall. destruct (d_pwrite _ f rest _ w) as [[n|e| |] w1]; try done.
  - destruct Hcall as (_ & Hal & Hn & Hc & Hshort). destruct (Z.eqb_spec n 0) as [->|Hn0].
    { destruct (Hshort eq_refl) as [E0|Hf]; [rewrite E0 in Hrest; cbn in Hrest; lia|].
      exists p. split_and!; [done|by rewrite Hc|by left; left]. }
    apply IH; [lia| |lia|].
    + destruct Hp as [->|Hp]; [|by right]. right. rewrite Z.add_0_r in Hal.
      by apply andb_prop in Hal as [[Ha%Z.eqb_eq _]%andb_prop _].
    + rewrite Hc, Hw. replace (take (Z.to_nat (done + n)) (ab_bytes buf)) with (p ++ take (Z.to_nat n) rest)
        by (unfold p, rest; rewrite take_take_drop; f_equal; lia).
      destruct (decide (p = [])) as [->|Hne]; [cbn in Hld; subst done; by rewrite Z.add_0_r|].
      replace (off + done) with (off + len p) by lia. apply written_twice; [lia|done].
  - destruct Hcall as [Hc Hwhy]. exists p. split_and!; [done|by rewrite Hc|].
    destruct Hwhy as [?|[?|Hal]]; [by left; left|left; right; lia|right].
    destruct (refused_call _ _ _ _ _ Hbs Hlen Hoff Hal Hp) as [[? ?]|?]; [left|right; by rewrite Hld].
    split; [done|]. destruct p; [done|cbn in Hld; lia].
Qed.

(** The buffer during a read of [c] at [off]: filled up to [done], the rest as
    it was in [buf]. *)
Definition filled (c : bytes) (off : Z) (buf : AlignedBuf) (done : Z) (buf' : AlignedBuf) : Prop :=
  ab_ptr buf' = ab_ptr buf ∧ ab_len buf' = ab_len buf ∧
  (done = 0 ∨ off + done ≤ len c) ∧
  ab_bytes buf' = take (Z.to_nat done) (drop (Z.to_nat off) c) ++ drop (Z.to_nat done) (ab_bytes buf).

Lemma filled_step c off buf done buf' b :
  0 ≤ off → 0 ≤ done → len (ab_bytes buf) = ab_len buf → filled c off buf done buf' →
  b = take (length b) (drop (Z.to_nat (off + done)) c) → done + len b ≤ ab_len buf → b ≠ [] →
  filled c off buf (done + len b) (fill_at done b buf').
Proof.
  intros Ho Hd Hl (Hp & Hn & Hin & Hb) Hbc Hlen Hne.
  assert (off + done + len b ≤ len c) as Hfile.
  { pose proof (f_equal length Hbc) as E. rewrite length_take, length_drop in E. destruct b; [done|]. cbn [length] in *. lia. }
  split_and!; [done|done|lia|]. cbn [fill_at ab_bytes]. rewrite Hb. unfold overwrite.
  rewrite take_app_length' by (rewrite length_take, length_drop; lia).
  rewrite drop_app_ge, drop_drop by (rewrite length_take, length_drop; lia). rewrite app_assoc. f_equal.
  - rewrite Hbc at 1. replace (Z.to_nat (off + done)) with (Z.to_nat off + Z.to_nat done)%nat by lia.
    rewrite <-drop_drop, take_take_drop. f_equal. lia.
  - f_equal. rewrite length_take, length_drop. lia.
Qed.

Lemma direct_read_loop_spec fuel (f : F) buf buf1 off done (w : W) :
  let c := k_contents f w in
  len (ab_bytes buf) = ab_len buf → ab_len buf mod bs = 0 → off mod bs = 0 → is_u64 off →
  0 ≤ done ≤ ab_len buf → (done = 0 ∨ ab_ptr buf mod bs = 0) → (Z.to_nat (ab_len buf - done) ≤ fuel)%nat →
  filled c off buf done buf1 →
  wp (direct_read_loop fuel f off done w)
    (λ _ buf', ∃ k, 0 ≤ k < ab_len buf ∧ filled c off buf k buf' ∧
      (k_read_faults F W ∨ len c < off + ab_len buf ∨ ab_ptr buf mod bs ≠ 0 ∧ k = 0 ∨ k mod bs ≠ 0))
    (λ _ buf', filled c off buf (ab_len buf) buf') buf1.
Proof using Hbs.
  intros c Hbytes Hlen Hoff Hu. revert done buf1.
  induction fuel as [|fuel IH]; intros done buf1 Hd Hp Hfuel Hfill; pose proof Hfill as (Ep & El & Hin & Eb).
  { cbn. apply wp_bind, wp_get. rewrite El. decide_bool. apply wp_ret. by replace (ab_len buf) with done by lia. }
  cbn [direct_read_loop]. apply wp_bind, wp_get. rewrite El, Ep. destruct (Z.ltb_spec done (ab_len buf)) as [Hlt|Hge].
  2: { apply wp_ret. by replace (ab_len buf) with done by lia. }
  assert (len (ab_bytes buf1) = ab_len buf) as Hl1.
  { rewrite Eb, length_app, length_take, !length_drop. unfold is_u64 in Hu. destruct Hin as [->|Hin]; [cbn; lia|]. unfold c in *. lia. }
  apply wp_bind. eapply wp_lift_Ok; [apply slice_from_ok; lia|]. rewrite length_drop.
  replace (Z.of_nat (length (ab_bytes buf1) - Z.to_nat done)) with (ab_len buf - done) by lia.
  pose proof (k_size f w) as Hsz. fold c in Hsz. unfold is_u64 in Hu. apply wp_bind. unfold checked_add.
  case_bool; cbn [ok_or]; [eapply wp_lift_Ok; [reflexivity|]|exists done; split_and!; [lia..|done|right; left; lia]].
  apply wp_bind. unfold wp at 1, st_lift at 1.
  pose proof (direct_pread_spec (ab_ptr buf + done) f (ab_len buf - done) (off + done) w ltac:(unfold is_u64; lia)
    ltac:(lia)) as Hcall. fold c in Hcall.
  destruct (d_pread _ f _ _ w) as [b|e| |]; try done.
  - destruct Hcall as (Hal & Hb & Hbl & Hend). apply wp_bind, wp_modify. destruct (Z.eqb_spec (len b) 0) as [Hb0|Hb0].
    { assert (b = []) as -> by (destruct b; [done|cbn in Hb0; lia]). exists done. split_and!; [lia..| |].
      - destruct Hfill as (? & ? & ? & E1). split_and!; [done..|]. cbn. unfold overwrite. cbn. rewrite Z.add_0_r. by rewrite take_drop.
      - right. left. destruct Hend; [done|lia..]. }
    apply IH; [lia| |lia|].
    + destruct Hp as [->|Hp]; [|by right]. right. rewrite Z.add_0_r in Hal.
      by apply andb_prop in Hal as [[Ha%Z.eqb_eq _]%andb_prop _].
    + apply filled_step; try done; [lia..|lia|]. by intros ->.
  - exists done. split_and!; [lia..|done|]. destruct Hcall as [?|[?|Hal]]; [by left|right; left; lia|].
    right. right. by apply (refused_call _ _ (ab_len buf) off).
Qed.

(** Reading a range the file holds whole. *)
Lemma read_back (f : DirectFile F) buf2 d c off (w : W) :
  suits bs f → len (ab_bytes buf2) = ab_len buf2 → ab_len buf2 = len d → is_u64 off →
  check_alignment f (len d) off = Ok tt → k_contents (df_file f) w = written c d off →
  let (r, buf') := read_at_aligned f off w buf2 in
  match r with
  | Ok _ => ab_bytes buf' = d
  | Err _ => ∃ p, p `prefix_of` d ∧ ab_bytes buf' = p ++ drop (length p) (ab_bytes buf2) ∧
      stopped bs (k_read_faults F W) buf2 p
  | _ => False
  end.
Proof using Hbs.
  intros Hs Hl2 Hld Hu Hc Hw. destruct (check_alignment_cases f (len d) off) as [(_ & Hn & Ho)|[Hc' _]]; [|congruence].
  pose proof (suits_mod _ _ _ Hbs Hs Hn) as Hn'. pose proof (suits_mod _ _ _ Hbs Hs Ho) as Ho'. rewrite <-Hld in Hn'.
  pose proof (direct_read_loop_spec (Z.to_nat (ab_len buf2)) (df_file f) buf2 buf2 off 0 w Hl2 Hn' Ho' Hu
    ltac:(lia) (or_introl eq_refl) ltac:(lia) (conj eq_refl (conj eq_refl (conj (or_introl eq_refl) eq_refl)))) as Hr.
  unfold read_at_aligned. rewrite run_get, Hld, (run_lift _ _ _ _ Hc), <-Hld. unfold wp in Hr.
  assert (∀ k, 0 ≤ k → (k = 0 ∨ off + k ≤ len (k_contents (df_file f) w)) → k ≤ len d →
    take (Z.to_nat k) (drop (Z.to_nat off) (k_contents (df_file f) w)) = take (Z.to_nat k) d) as Htake.
  { intros k Hk _ Hkd. rewrite Hw. destruct d as [|x d]; [cbn in Hkd; by replace k with 0 by lia|].
    unfold written, is_u64 in *. rewrite drop_app_length' by (rewrite length_take, length_app; unfold zeros; rewrite length_replicate; lia).
    rewrite take_app_le by lia. done. }
  destruct (direct_read_loop _ _ off 0 w buf2) as [[[]|e| |] buf']; try done.
  - destruct Hr as (_ & _ & Hin & ->). rewrite Htake by lia. rewrite drop_ge, app_nil_r, take_ge by lia. done.
  - destruct Hr as (k & Hk & (_ & _ & Hin & ->) & Hwhy). rewrite Htake by lia. exists (take (Z.to_nat k) d).
    assert (length (take (Z.to_nat k) d) = Z.to_nat k) as -> by (rewrite length_take; lia).
    split_and!; [apply prefix_take|done|]. unfold stopped. rewrite length_take.
    replace (Z.of_nat (_ `min` _)) with k by lia. destruct Hwhy as [?|[Hend|[[? ->]|?]]]; [by left| |by right; left|by right; right].
    exfalso. destruct (written_length c d off) as [?|[-> _]]; [unfold is_u64 in Hu; lia| |cbn in Hld; lia]. rewrite Hw in Hend. lia.
Qed.
End Loops.

(** C31. Writing and reading back on a descriptor with [O_DIRECT] and a block
    size that is a multiple of the device's, for any kernel, buffers and offset:
    a transfer whose length or offset is not at a block boundary is refused
    before any call, with file and buffer untouched.
    Every other write returns.  If it succeeds the whole buffer is at the
    offset; if it fails a prefix of it is, and the reason is a fault, an end
    beyond the largest file offset, a buffer address that is not aligned (then
    nothing is written), or a call that stopped inside a block, after which the
    kernel refuses the next one.  After a successful write a read of as much at
    the same offset returns: it fills its buffer with those bytes, or fails
    with a prefix of them in the buffer for a fault or one of the last two
    reasons. *)
Theorem direct_write_then_read `{KernelLaws F W} (bs : Z)
    (f : DirectFile F) (buf buf2 : AlignedBuf) (off : Z) (w : W)
    (Hbs : 0 < bs) (Hsuits : suits bs f) (Hlen : len (ab_bytes buf) = ab_len buf)
    (Hlen2 : len (ab_bytes buf2) = ab_len buf2) (Hsame : ab_len buf2 = ab_len buf) (Hoff : is_u64 off) :
  let D := o_direct bs _ in
  let c := k_contents (df_file f) w in
  if (ab_len buf mod df_block_size f =? 0) && (off mod df_block_size f =? 0) then
    let (r, w') := write_at_aligned (H := D) f buf off w in
    match r with
    | Ok _ =>
        k_contents (df_file f) w' = written c (ab_bytes buf) off ∧
        let (r', buf') := read_at_aligned (H := D) f off w' buf2 in
        match r' with
        | Ok _ => ab_bytes buf' = ab_bytes buf
        | Err _ => ∃ p, p `prefix_of` ab_bytes buf ∧ ab_bytes buf' = p ++ drop (length p) (ab_bytes buf2) ∧
            stopped bs (k_read_faults F W) buf2 p
        | _ => False
        end
    | Err _ => ∃ p, p `prefix_of` ab_bytes buf ∧ k_contents (df_file f) w' = written c p off ∧
        stopped bs (k_write_faults F W ∨ 2 ^ 63 ≤ off + ab_len buf) buf p
    | _ => False
    end
  else
    write_at_aligned (H := D) f buf off w = (Err (Io IoInvalidInput), w) ∧
    read_at_aligned (H := D) f off w buf2 = (Err (Io IoInvalidInput), buf2).
Proof.
  intros D c. destruct (check_alignment_cases f (ab_len buf) off) as [(Hc & Hn & Ho)|[Hc Hne]].
  2: { destruct (_ && _) eqn:E; [apply andb_prop in E as [?%Z.eqb_eq ?%Z.eqb_eq]; tauto|].
       unfold write_at_aligned, read_at_aligned. rewrite run_get, Hsame.
       rewrite (run_bind_Err _ _ w (Io IoInvalidInput) w) by (by rewrite Hc).
       by rewrite (run_bind_Err _ _ buf2 (Io IoInvalidInput) buf2) by (by rewrite Hc). }
  rewrite Hn, Ho. cbn [Z.eqb andb]. pose proof (suits_mod _ _ _ Hbs Hsuits Hn) as Hn'.
  pose proof (suits_mod _ _ _ Hbs Hsuits Ho) as Ho'.
  pose proof (direct_write_loop_spec bs Hbs (Z.to_nat (ab_len buf)) (df_file f) buf c off 0 w Hlen Hn' Ho' Hoff
    ltac:(lia) (or_introl eq_refl) ltac:(lia) eq_refl) as Hw.
  unfold write_at_aligned. rewrite (run_lift _ _ _ _ Hc). unfold wp in Hw.
  destruct (direct_write_loop _ _ buf off 0 w) as [[[]|e| |] w']; try done. split; [done|].
  eapply (read_back bs Hbs); try done; by rewrite ?Hlen, ?Hsame.
Qed.

Definition demo_buf (d : bytes) : AlignedBuf := {| ab_ptr := 16; ab_len := len d; ab_align := 8; ab_bytes := d |}.

Definition demo_direct : DirectFile Z := {| df_file := 0; df_block_size := 8 |}.

Lemma direct_write_then_read_witness :
  ∃ w' buf', write_at_aligned (H := o_direct 4 _) demo_direct (demo_buf (seqZ 1 16)) 0 slow_empty = (Ok tt, w') ∧
    read_at_aligned (H := o_direct 4 _) demo_direct 0 w' (demo_buf (zeros 16)) = (Ok tt, buf') ∧
    ab_bytes buf' = seqZ 1 16.
Proof.
  pose proof (direct_write_then_read 4 demo_direct (demo_buf (seqZ 1 16)) (demo_buf (zeros 16)) 0 slow_empty) as Hd.
  assert (suits 4 demo_direct) as Hs by (split; [done|by exists 2]).
  specialize (Hd ltac:(done) Hs eq_refl eq_refl eq_refl ltac:(done)). cbn zeta in Hd.
  replace ((_ =? 0) && _) with true in Hd by reflexivity.
  destruct (write_at_aligned demo_direct (demo_buf (seqZ 1 16)) 0 slow_empty) as [[[]| | |] w'] eqn:Ew;
    [|vm_compute in Ew; discriminate Ew..].
  destruct Hd as [_ Hd]. exists w'.
  destruct (read_at_aligned demo_direct 0 w' (demo_buf (zeros 16))) as [[[]| | |] buf'] eqn:Er;
    [exists buf'; split; [reflexivity|]; split; [reflexivity|exact Hd]|..];
    vm_compute in Ew; injection Ew as <-; vm_compute in Er; discriminate Er.
Defined.

(** A call that stops inside a block ends the operation: the disk that moves a
    word at a time, with blocks of two words, leaves the first word behind. *)
Theorem stop_inside_block_fails :
  let (r, w) := write_at_aligned (H := o_direct 8 _) demo_direct (demo_buf (seqZ 1 16)) 0 slow_empty in
  r = Err (Io IoInvalidInput) ∧ slow_contents 0 w = [1; 2; 3; 4].
Proof. by vm_compute. Qed.

(** The address of the buffer is not checked: one that is aligned for smaller
    blocks passes [check_alignment], and the kernel refuses the call. *)
Theorem unaligned_address_reaches_kernel :
  let buf := {| ab_ptr := 2; ab_len := 8; ab_align := 2; ab_bytes := zeros 8 |} in
  check_alignment demo_direct (ab_len buf) 0 = Ok tt ∧
  write_at_aligned (H := o_direct 8 _) demo_direct buf 0 slow_empty = (Err (Io IoInvalidInput), slow_empty).
Proof. by split. Qed.
