(* ===== verification/Mmap.v ===== *)
(** Read-only memory maps: [crates/paddock-core/src/io/mmap.rs].

    The address space is a parameter ([MapCalls]) beside the disk of
    [LinuxFile] and [LinuxVfs], with what the manual pages of [mmap],
    [munmap] and [madvise] promise ([MapLaws]): the kernel picks whole pages
    that no other mapping uses, a mapping shows its file for as long as the
    file is not written, advice that is a hint and stays inside one mapping
    changes no mapping, and advice is refused at an address that is not the
    start of a page.  Nothing is assumed of advice outside the mappings or of
    codes that are no hints, which [advise_raw] passes on. *)

From S2P Require Import Prelude Arena AlignedBuf Vfs LinuxFile LinuxVfs LinuxLaws.

(** * The address space *)

(** System calls on the address space [A] and the disk [W]; [m_peek] is a load
    of a range of memory. *)
Class MapCalls (F W A : Type) := {
  m_mmap : F → Z → st (W * A) Z;
  m_madvise : Z → Z → Z → st (W * A) ();
  m_munmap : Z → Z → st (W * A) ();
  m_peek : Z → Z → W * A → outcome bytes
}.

(** * Maps *)

Inductive Advice := AdviceNormal | AdviceRandom | AdviceSequential | AdviceWillNeed | AdviceDontNeed.

(** The constants [MADV_NORMAL] to [MADV_DONTNEED]. *)
Definition advice_as_c_int (a : Advice) : Z :=
  match a with
  | AdviceNormal => 0
  | AdviceRandom => 1
  | AdviceSequential => 2
  | AdviceWillNeed => 3
  | AdviceDontNeed => 4
  end.

Record Mmap := { mm_ptr : Z; mm_len : Z }.

#[global] Instance Mmap_eq_dec : EqDecision Mmap.
Proof. solve_decision. Defined.

Section Maps.
Context {F W A : Type} `{Kernel F W} `{PathCalls F W} `{MapCalls F W A}.

(** A failed [mmap] is the call's [Err], with what [errno] says. *)
Definition mmap_from_file (file : F) : st (W * A) Mmap :=
  '(w, _) ← st_get;
  n ← st_lift (k_len file w);
  if 2 ^ 64 <=? n then st_lift (Err (Io IoInvalidInput))
  else if n =? 0 then st_lift (Err (Io IoInvalidInput))
  else
    addr ← m_mmap file n;
    if addr =? 0 then st_lift (Err (Io IoOther))
    else mret {| mm_ptr := addr; mm_len := n |}.

Definition mmap_open (p : path) : st (W * A) Mmap :=
  file ← on_fst (p_open_read p);
  mmap_from_file file.

Definition as_slice (m : Mmap) (s : W * A) : outcome bytes := m_peek (mm_ptr m) (mm_len m) s.

Definition mmap_deref (m : Mmap) (s : W * A) : outcome bytes := as_slice m s.

Definition mmap_len (m : Mmap) : Z := mm_len m.

Definition mmap_is_empty (m : Mmap) : bool := mm_len m =? 0.

Definition advise_raw (m : Mmap) (advice : Z) : st (W * A) () := m_madvise (mm_ptr m) (mm_len m) advice.

Definition advise (m : Mmap) (a : Advice) : st (W * A) () := advise_raw m (advice_as_c_int a).

Definition advise_range (m : Mmap) (a : Advice) (offset length : Z) : st (W * A) () :=
  end_ ← st_lift (ok_or (checked_add offset length) (Io IoInvalidInput));
  if mm_len m <? end_ then st_lift (Err (Io IoInvalidInput))
  else m_madvise (mm_ptr m + offset) length (advice_as_c_int a).

(** [Drop::drop], with its [debug_assert_eq!]. *)
Definition drop_mmap (m : Mmap) : st (W * A) () := λ s,
  match m_munmap (mm_ptr m) (mm_len m) s with
  | (Err _, s) => (Panic, s)
  | r => r
  end.

(** A client opens files, gives advice on a map, and drops one. *)
Inductive map_op :=
  | MapOpen (p : path)
  | MapAdvise (i : nat) (a : Advice)
  | MapAdviseRange (i : nat) (a : Advice) (offset length : Z)
  | MapAdviseRaw (i : nat) (advice : Z)
  | MapDrop (i : nat).

(** A call's error is reported and the client goes on. *)
Definition tolerate {S B} (m : st S B) : st S (option B) := λ s,
  match m s with
  | (Ok b, s) => (Ok (Some b), s)
  | (Err _, s) => (Ok None, s)
  | (Panic, s) => (Panic, s)
  | (OutOfFuel, s) => (OutOfFuel, s)
  end.

Definition on_held (held : list Mmap) (i : nat) (f : Mmap → st (W * A) ()) : st (W * A) (list Mmap) :=
  match held !! i with
  | Some m => _ ← tolerate (f m); mret held
  | None => mret held
  end.

Definition run_map_op (op : map_op) (held : list Mmap) : st (W * A) (list Mmap) :=
  match op with
  | MapOpen p => m ← tolerate (mmap_open p); mret (match m with Some m => m :: held | None => held end)
  | MapAdvise i a => on_held held i (λ m, advise m a)
  | MapAdviseRange i a offset length => on_held held i (λ m, advise_range m a offset length)
  | MapAdviseRaw i advice => on_held held i (λ m, advise_raw m advice)
  | MapDrop i =>
      match held !! i with
      | Some m => _ ← drop_mmap m; mret (delete i held)
      | None => mret held
      end
  end.

Fixpoint run_maps (ops : list map_op) (held : list Mmap) : st (W * A) (list Mmap) :=
  match ops with
  | [] => mret held
  | op :: ops => held ← run_map_op op held; run_maps ops held
  end.

(** The maps go out of scope. *)
Fixpoint drop_maps (held : list Mmap) : st (W * A) () :=
  match held with
  | [] => mret tt
  | m :: held => _ ← drop_mmap m; drop_maps held
  end.
End Maps.

(** * What the kernel promises *)

(** A mapping, with the bytes of its file when it was made. *)
Record mapping (F : Type) := { mg_addr : Z; mg_len : Z; mg_file : F; mg_bytes : bytes }.
Arguments mg_addr {F} _.
Arguments mg_len {F} _.
Arguments mg_file {F} _.
Arguments mg_bytes {F} _.
Arguments Build_mapping {F} _ _ _ _.

(** The pages of a mapping. *)
Definition pages {F} (m : mapping F) : Z * Z := (mg_addr m, round_up (mg_len m) PAGE_SIZE).

Definition mapping_ok {F} (m : mapping F) : Prop :=
  0 < mg_addr m ∧ mg_addr m mod PAGE_SIZE = 0 ∧ 0 < mg_len m ∧ mg_len m = len (mg_bytes m).

Definition same_files {F W : Type} `{KernelLaws F W} (w w' : W) : Prop :=
  ∀ f, k_contents f w' = k_contents f w.

(** The codes that [madvise(2)] documents as leaving a read-only private mapping
    of a file usable with the same bytes: [MADV_NORMAL] to [MADV_DONTNEED],
    [MADV_HUGEPAGE], [MADV_NOHUGEPAGE], [MADV_COLD] and [MADV_PAGEOUT]. *)
Definition hint (advice : Z) : bool := existsb (Z.eqb advice) [0; 1; 2; 3; 4; 14; 15; 20; 21].

(** The bytes from [p] to [p + n] belong to the mapping. *)
Definition in_mapping {F} (m : mapping F) (p n : Z) : Prop :=
  mg_addr m ≤ p ∧ 0 ≤ n ∧ p + n ≤ mg_addr m + mg_len m.

Class MapLaws (F W A : Type) `{!Kernel F W} `{!KernelLaws F W} `{!MapCalls F W A} := {
  space_ok : A → Prop;
  mappings : A → list (mapping F);
  mappings_ok a : space_ok a → Forall mapping_ok (mappings a);
  mappings_apart a : space_ok a → ForallOrdPairs apart (pages <$> mappings a);
  mmap_Ok f n w a p w' a' :
    m_mmap f n (w, a) = (Ok p, (w', a')) → space_ok a → 0 < n → n = len (k_contents f w) →
    space_ok a' ∧ same_files w w' ∧
    mappings a' ≡ₚ {| mg_addr := p; mg_len := n; mg_file := f; mg_bytes := k_contents f w |} :: mappings a;
  mmap_Err f n w a e w' a' :
    m_mmap f n (w, a) = (Err e, (w', a')) → space_ok a →
    space_ok a' ∧ same_files w w' ∧ mappings a' ≡ₚ mappings a;
  mmap_returns f n s : returns (m_mmap f n s).1;
  madvise_keeps m p n advice w a r w' a' :
    m_madvise p n advice (w, a) = (r, (w', a')) → space_ok a →
    hint advice = true → m ∈ mappings a → in_mapping m p n →
    space_ok a' ∧ same_files w w' ∧ mappings a' ≡ₚ mappings a;
  madvise_Ok p n advice s s' : m_madvise p n advice s = (Ok tt, s') → p mod PAGE_SIZE = 0;
  madvise_returns p n advice s : returns (m_madvise p n advice s).1;
  munmap_Ok m ms w a :
    space_ok a → mappings a ≡ₚ m :: ms →
    ∃ w' a', m_munmap (mg_addr m) (mg_len m) (w, a) = (Ok tt, (w', a')) ∧
      space_ok a' ∧ same_files w w' ∧ mappings a' ≡ₚ ms;
  peek_Ok m w a :
    space_ok a → m ∈ mappings a → k_contents (mg_file m) w = mg_bytes m →
    m_peek (mg_addr m) (mg_len m) (w, a) = Ok (mg_bytes m)
}.

(** Offsets and lengths are unsigned, and a raw code is a hint. *)
Definition map_op_ok (op : map_op) : Prop :=
  match op with
  | MapAdviseRange _ _ offset length => 0 ≤ offset ∧ 0 ≤ length
  | MapAdviseRaw _ advice => hint advice = true
  | MapOpen _ | MapAdvise _ _ | MapDrop _ => True
  end.

(** * Every map is a file *)

Section Proofs.
Context {F W A : Type} `{!Kernel F W} `{!KernelLaws F W} `{!PathCalls F W} `{!DirState F W} (root : path)
  `{!DirLaws F W root} `{!MapCalls F W A} `{!MapLaws F W A}.

#[local] Instance same_files_refl : Reflexive (same_files (F := F) (W := W)).
Proof. intros w f. done. Qed.

Lemma same_files_trans (w1 w2 w3 : W) : same_files (F := F) w1 w2 → same_files (F := F) w2 w3 → same_files (F := F) w1 w3.
Proof. intros H1 H2 f. by rewrite H2. Qed.

(** A map the client holds, and the kernel's mapping behind it. *)
Definition backed (w : W) (m : Mmap) (g : mapping F) : Prop :=
  mm_ptr m = mg_addr g ∧ mm_len m = mg_len g ∧ mg_bytes g = k_contents (mg_file g) w.

(** The mappings are those of before and one for each map held. *)
Record maps_inv (w0 : W) (base : list (mapping F)) (held : list Mmap) (s : W * A) : Prop := {
  mi_space : space_ok s.2;
  mi_files : same_files (F := F) w0 s.1;
  mi_mappings : ∃ ms, mappings s.2 ≡ₚ ms ++ base ∧ Forall2 (backed w0) held ms
}.

(** A call that keeps the mappings and the files keeps the invariant. *)
Lemma maps_inv_same w0 base held w a w' a' :
  maps_inv w0 base held (w, a) → space_ok a' → same_files (F := F) w w' → mappings a' ≡ₚ mappings a →
  maps_inv w0 base held (w', a').
Proof.
  intros [Hs Hf (ms & Hm & H2)] Hs' Hf' Hm'. split; [done|by eapply same_files_trans|].
  exists ms. cbn in *. by rewrite Hm'.
Qed.

Lemma from_file_spec w0 base held f w a :
  maps_inv w0 base held (w, a) →
  wp (mmap_from_file f) (λ _ s, maps_inv w0 base held s) (λ m s, maps_inv w0 base (m :: held) s) (w, a).
Proof.
  intros Hinv. unfold mmap_from_file. apply wp_bind, wp_get, wp_bind, wp_lift;
    [apply len_returns| |done]. intros n En. apply len_Ok in En. pose proof (k_size f w) as Hn. decide_bool.
  destruct (Z.eqb_spec n 0) as [|Hn0]; [done|].
  pose proof (mmap_returns f n (w, a)) as Hr. apply wp_bind. unfold wp at 1.
  destruct (m_mmap f n (w, a)) as [[p|e| |] [w' a']] eqn:Em; [|clear Hr|done..].
  - destruct (mmap_Ok _ _ _ _ _ _ _ Em) as (Hs' & Hf' & Hm'); [apply (mi_space _ _ _ _ Hinv)|lia|done|].
    destruct Hinv as [Hs Hf (ms & Hm & H2)]. cbn in Hs, Hf, Hm.
    pose proof (mappings_ok _ Hs') as Hok. rewrite Hm' in Hok. apply Forall_cons in Hok as [(Hp & _) _].
    cbn in Hp. destruct (Z.eqb_spec p 0); [lia|]. apply wp_ret.
    split; [done|by eapply same_files_trans|]. exists (Build_mapping p n f (k_contents f w) :: ms). split; [cbn; by rewrite Hm', Hm|].
    constructor; [|done]. split_and!; [done..|]. cbn. apply Hf.
  - destruct (mmap_Err _ _ _ _ _ _ _ Em) as (Hs' & Hf' & Hm'); [apply (mi_space _ _ _ _ Hinv)|].
    by eapply maps_inv_same.
Qed.

Lemma mmap_open_spec w0 base held p w a :
  maps_inv w0 base held (w, a) →
  wp (mmap_open p) (λ _ s, maps_inv w0 base held s) (λ m s, maps_inv w0 base (m :: held) s) (w, a).
Proof.
  intros Hinv. unfold mmap_open. apply wp_bind, wp_on_fst. unfold wp at 1.
  pose proof (open_read_returns p w) as Hr. pose proof (open_read_pure p w) as Hp.
  destruct (p_open_read p w) as [[f|e| |] w']; cbn in Hr, Hp; [subst w'|by subst w'|done..].
  by apply from_file_spec.
Qed.

(** Hints inside a held map. *)
Lemma madvise_spec w0 base held (i : nat) m off n advice s :
  maps_inv w0 base held s → held !! i = Some m → hint advice = true → 0 ≤ off → 0 ≤ n → off + n ≤ mm_len m →
  wp (m_madvise (mm_ptr m + off) n advice) (λ _ s, maps_inv w0 base held s) (λ _ s, maps_inv w0 base held s) s.
Proof.
  destruct s as [w a]. intros Hinv Hi Hh Ho Hn Hlen. unfold wp.
  pose proof (madvise_returns (mm_ptr m + off) n advice (w, a)) as Hr.
  destruct (m_madvise (mm_ptr m + off) n advice (w, a)) as [r [w' a']] eqn:Em.
  pose proof Hinv as [Hs _ (ms & Hm & H2)]. cbn in Hs, Hm.
  destruct (Forall2_lookup_l _ _ _ _ _ H2 Hi) as (g & Hg & Ep & En & _). apply list_elem_of_lookup_2 in Hg.
  destruct (madvise_keeps g _ _ _ _ _ _ _ _ Em Hs Hh) as (Hs' & Hf' & Hm').
  { rewrite Hm. set_solver. }
  { unfold in_mapping. lia. }
  pose proof (maps_inv_same _ _ _ _ _ _ _ Hinv Hs' Hf' Hm'). by destruct r.
Qed.

Lemma advise_hint a : hint (advice_as_c_int a) = true.
Proof. by destruct a. Qed.

Lemma held_length w0 base held (i : nat) m s : maps_inv w0 base held s → held !! i = Some m → 0 ≤ mm_len m.
Proof.
  intros [Hs _ (ms & Hm & H2)] Hi. destruct (Forall2_lookup_l _ _ _ _ _ H2 Hi) as (g & Hg & _ & -> & _).
  apply list_elem_of_lookup_2 in Hg. pose proof (mappings_ok _ Hs) as Hok. rewrite Forall_forall in Hok.
  destruct (Hok g) as (_ & _ & ? & _); [rewrite Hm; set_solver|lia].
Qed.

Lemma advise_raw_spec w0 base held (i : nat) m advice s :
  maps_inv w0 base held s → held !! i = Some m → hint advice = true →
  wp (advise_raw m advice) (λ _ s, maps_inv w0 base held s) (λ _ s, maps_inv w0 base held s) s.
Proof.
  intros Hinv Hi Hh. pose proof (held_length _ _ _ _ _ _ Hinv Hi). unfold advise_raw.
  rewrite <-(Z.add_0_r (mm_ptr m)). by eapply madvise_spec; eauto with lia.
Qed.

Lemma advise_range_spec w0 base held (i : nat) m a offset n s :
  maps_inv w0 base held s → held !! i = Some m → 0 ≤ offset → 0 ≤ n →
  wp (advise_range m a offset n) (λ _ s, maps_inv w0 base held s) (λ _ s, maps_inv w0 base held s) s.
Proof.
  intros Hinv Hi Ho Hn. unfold advise_range, checked_add. apply wp_bind.
  destruct (offset + n <? 2 ^ 64); [|done]. cbn [ok_or]. eapply wp_lift_Ok; [done|].
  destruct (Z.ltb_spec (mm_len m) (offset + n)); [done|]. by eapply madvise_spec; eauto using advise_hint with lia.
Qed.

Lemma drop_mmap_spec w0 base held (i : nat) m s :
  maps_inv w0 base held s → held !! i = Some m →
  wp (drop_mmap m) (λ _ _, False) (λ _ s, maps_inv w0 base (delete i held) s) s.
Proof.
  destruct s as [w a]. intros [Hs Hf (ms & Hm & H2)] Hi. unfold wp, drop_mmap.
  destruct (Forall2_lookup_l _ _ _ _ _ H2 Hi) as (g & Hg & Ep & En & Eb). cbn in Hs, Hf, Hm.
  rewrite (delete_Permutation _ _ _ Hg), <-app_comm_cons in Hm.
  destruct (munmap_Ok g _ w a Hs Hm) as (w' & a' & E & Hs' & Hf' & Hm'). rewrite Ep, En, E.
  split; [done|by eapply same_files_trans|]. exists (delete i ms). split; [done|]. by apply Forall2_delete.
Qed.

Lemma wp_tolerate {S B} (m : st S B) (Q : S → Prop) (R : option B → S → Prop) s :
  wp m (λ _ s, Q s) (λ b s, R (Some b) s) s → (∀ s, Q s → R None s) → wp (tolerate m) (λ _ _, False) R s.
Proof. unfold wp, tolerate. intros H HQ. destruct (m s) as [[]]; auto. Qed.

Lemma on_held_spec w0 base held (i : nat) (f : Mmap → st (W * A) ()) s :
  maps_inv w0 base held s →
  (∀ m, held !! i = Some m → wp (f m) (λ _ s, maps_inv w0 base held s) (λ _ s, maps_inv w0 base held s) s) →
  wp (on_held held i f) (λ _ _, False) (λ held' s, maps_inv w0 base held' s) s.
Proof.
  intros Hinv Hf. unfold on_held. destruct (held !! i) as [m|]; [|by apply wp_ret].
  apply wp_bind. eapply (wp_tolerate _ (maps_inv w0 base held)).
  - eapply wp_mono; [by apply Hf|done|]. intros ? s' Hs'. by apply wp_ret.
  - intros s' Hs'. by apply wp_ret.
Qed.

Lemma run_map_op_spec w0 base held op s :
  maps_inv w0 base held s → map_op_ok op → wp (run_map_op op held) (λ _ _, False) (λ held' s, maps_inv w0 base held' s) s.
Proof.
  intros Hinv Hop. destruct op as [p|i a|i a o n|i c|i]; cbn [run_map_op map_op_ok] in *.
  - apply wp_bind. destruct s as [w a]. eapply (wp_tolerate _ (maps_inv w0 base held)).
    + eapply wp_mono; [by apply mmap_open_spec|done|]. intros m s' Hs'. by apply wp_ret.
    + intros s' Hs'. by apply wp_ret.
  - apply on_held_spec; [done|]. intros m Hi. by eapply advise_raw_spec; eauto using advise_hint.
  - apply on_held_spec; [done|]. intros m Hi. by eapply advise_range_spec; eauto with lia.
  - apply on_held_spec; [done|]. intros m Hi. by eapply advise_raw_spec.
  - destruct (held !! i) as [m|] eqn:Ei; [|by apply wp_ret]. apply wp_bind.
    eapply wp_mono; [by eapply drop_mmap_spec|done|]. intros [] s' Hs'. by apply wp_ret.
Qed.

Lemma run_maps_spec w0 base ops held s :
  maps_inv w0 base held s → Forall map_op_ok ops →
  wp (run_maps ops held) (λ _ _, False) (λ held' s, maps_inv w0 base held' s) s.
Proof.
  intros Hinv Hops. revert held s Hinv. induction Hops as [|op ops Hop _ IH]; intros held s Hinv; cbn [run_maps]; [by apply wp_ret|].
  apply wp_bind. eapply wp_mono; [by apply run_map_op_spec|done|]. intros held' s'. apply IH.
Qed.

Lemma drop_maps_spec w0 base held s :
  maps_inv w0 base held s → wp (drop_maps held) (λ _ _, False) (λ _ s, maps_inv w0 base [] s) s.
Proof.
  revert s. induction held as [|m held IH]; intros s Hinv; cbn [drop_maps]; [by apply wp_ret|].
  apply wp_bind. eapply wp_mono; [by apply (drop_mmap_spec _ _ _ 0 m _ Hinv)|done|]. intros [] s'. apply IH.
Qed.

(** The bytes behind a held map. *)
Lemma backed_slice w0 base held m g w a :
  maps_inv w0 base held (w, a) → g ∈ mappings a → backed w0 m g →
  as_slice m (w, a) = Ok (k_contents (mg_file g) w) ∧ mmap_is_empty m = false.
Proof.
  intros [Hs Hf _] Hin (Ep & En & Eb). cbn in *. pose proof (mappings_ok _ Hs) as Hok.
  rewrite Forall_forall in Hok. destruct (Hok _ Hin) as (_ & _ & Hn & _). unfold as_slice, mmap_is_empty. rewrite Ep, En.
  rewrite (peek_Ok g w a Hs Hin) by (by rewrite Eb, Hf). rewrite Hf, Eb. split; [done|]. by apply Z.eqb_neq; lia.
Qed.

(** Advice on a range that does not start on a page is refused by the kernel. *)
Lemma advise_range_unaligned m a offset n s :
  mm_ptr m mod PAGE_SIZE = 0 → offset mod PAGE_SIZE ≠ 0 → ¬ ∃ s', advise_range m a offset n s = (Ok tt, s').
Proof.
  intros Hp Ho (s' & E). unfold advise_range, checked_add in E.
  destruct (offset + n <? 2 ^ 64); [|discriminate]. cbn [ok_or] in E. rewrite (run_lift _ _ s _ eq_refl) in E.
  destruct (mm_len m <? offset + n); [discriminate|]. apply madvise_Ok in E.
  unfold PAGE_SIZE in *. rewrite Z.add_mod, Hp, Z.add_0_l, Z.mod_mod in E by lia. done.
Qed.

(** * Properties *)

(** C28. Whatever a client maps, advises (a whole map or any range, also one that
    exceeds it) and drops, and whichever calls fail, each map it holds is a
    slice with exactly the bytes of the file it was opened on, never empty; no
    two maps share a page; the process has the mappings of before and one for
    each map held, and dropping the maps leaves those of before; no file
    changes.  Codes passed to [advise_raw] are hints: the kernel has others that
    destroy the mapping. *)
Theorem mmap_sessions (ops : list map_op) (w0 : W) (a0 : A) (Hs : space_ok a0) (Hops : Forall map_op_ok ops) :
  ∃ held w a ms, run_maps ops [] (w0, a0) = (Ok held, (w, a)) ∧
    mappings a ≡ₚ ms ++ mappings a0 ∧
    Forall2 (λ m g, mm_ptr m = mg_addr g ∧ mm_len m = mg_len g ∧ mmap_is_empty m = false ∧
                    as_slice m (w, a) = Ok (k_contents (mg_file g) w0)) held ms ∧
    ForallOrdPairs apart (pages <$> ms ++ mappings a0) ∧
    ∃ w' a', drop_maps held (w, a) = (Ok tt, (w', a')) ∧ mappings a' ≡ₚ mappings a0 ∧
      same_files (F := F) w0 w'.
Proof.
  destruct (wp_total _ _ _ (run_maps_spec w0 (mappings a0) ops [] (w0, a0)
    ltac:(split; [done|done|by exists []]) Hops)) as (held & [w a] & E & Hinv).
  pose proof Hinv as [Hs' Hf (ms & Hm & H2)]. cbn in Hs', Hf, Hm. exists held, w, a, ms. split_and!; [done..| | |].
  - apply Forall2_same_length_lookup_2; [by eapply Forall2_length|]. intros i m g Hi Hg.
    pose proof (Forall2_lookup_lr _ _ _ _ _ _ H2 Hi Hg) as Hb. apply list_elem_of_lookup_2 in Hg.
    assert (g ∈ mappings a) as Hin by (rewrite Hm; set_solver).
    destruct (backed_slice _ _ _ _ _ _ _ Hinv Hin Hb) as [Hsl He]. rewrite Hf in Hsl. by destruct Hb as (? & ? & _).
  - eapply apart_perm; [|by apply mappings_apart]. by rewrite Hm.
  - destruct (wp_total _ _ _ (drop_maps_spec _ _ _ _ Hinv)) as ([] & [w' a'] & Ed & [_ Hf' (ms' & Hm' & H2')]).
    apply Forall2_nil_inv_l in H2' as ->. by exists w', a'.
Qed.
End Proofs.

(** * A concrete address space *)

(** The next mapping is placed behind the last one; [as_guards] are the ranges
    with guard pages, where a load is a signal. *)
Record address_space := { as_maps : list (mapping Z); as_next : Z; as_guards : list (Z * Z) }.

Definition space_new : address_space := {| as_maps := []; as_next := 16 * PAGE_SIZE; as_guards := [] |}.

Definition space_mmap (f n : Z) : st (slow_disk * address_space) Z := λ '(w, a),
  if (n <=? 0) || (2 ^ 47 <? as_next a + n) then (Err (Io IoOther), (w, a))
  else
    let g := {| mg_addr := as_next a; mg_len := n; mg_file := f; mg_bytes := slow_contents f w |} in
    (Ok (as_next a), (w, {| as_maps := g :: as_maps a; as_next := as_next a + round_up n PAGE_SIZE;
                     as_guards := as_guards a |})).

Definition MADV_GUARD_INSTALL : Z := 102.

Definition space_madvise (p n advice : Z) : st (slow_disk * address_space) () := λ '(w, a),
  if negb (p mod PAGE_SIZE =? 0) then (Err (Io IoInvalidInput), (w, a))
  else if advice =? MADV_GUARD_INSTALL
  then (Ok tt, (w, {| as_maps := as_maps a; as_next := as_next a; as_guards := (p, n) :: as_guards a |}))
  else if (0 <=? advice) && (advice <=? 25) then (Ok tt, (w, a))
  else (Err (Io IoInvalidInput), (w, a)).

Fixpoint unmap (p n : Z) (l : list (mapping Z)) : list (mapping Z) :=
  match l with
  | [] => []
  | g :: l => if (mg_addr g =? p) && (mg_len g =? n) then l else g :: unmap p n l
  end.

Definition space_munmap (p n : Z) : st (slow_disk * address_space) () := λ '(w, a),
  if (p mod PAGE_SIZE =? 0) && (0 <? n)
  then (Ok tt, (w, {| as_maps := unmap p n (as_maps a); as_next := as_next a; as_guards := as_guards a |}))
  else (Err (Io IoInvalidInput), (w, a)).

Definition overlaps (p n : Z) (r : Z * Z) : bool := (p <? r.1 + r.2) && (r.1 <? p + n).

(** A load from a guard page, outside a mapping, or behind the end of its file
    is a signal. *)
Definition space_peek (p n : Z) (s : slow_disk * address_space) : outcome bytes :=
  if existsb (overlaps p n) (as_guards s.2) then Panic
  else match List.find (λ g, mg_addr g =? p) (as_maps s.2) with
  | Some g => if (n <=? mg_len g) && (n <=? len (slow_contents (mg_file g) s.1))
              then Ok (take (Z.to_nat n) (slow_contents (mg_file g) s.1)) else Panic
  | None => Panic
  end.

#[global] Instance space_calls : MapCalls Z slow_disk address_space := {|
  m_mmap := space_mmap; m_madvise := space_madvise; m_munmap := space_munmap; m_peek := space_peek |}.

Definition space_inv (a : address_space) : Prop :=
  as_guards a = [] ∧ as_next a mod PAGE_SIZE = 0 ∧ 0 < as_next a ∧
  Forall (λ g, mapping_ok g ∧ mg_addr g + round_up (mg_len g) PAGE_SIZE ≤ as_next a) (as_maps a) ∧
  ForallOrdPairs apart (pages <$> as_maps a).

Lemma pages_pos (g : mapping Z) : mapping_ok g → 0 < round_up (mg_len g) PAGE_SIZE.
Proof.
  intros (_ & _ & Hn & _). destruct (round_up_spec (mg_len g) PAGE_SIZE) as [H _]; [lia|unfold PAGE_SIZE; lia|]. lia.
Qed.

(** A mapping is known by its address. *)
Lemma addr_unique (g h : mapping Z) l :
  Forall mapping_ok (g :: l) → ForallOrdPairs apart (pages <$> g :: l) → h ∈ l → mg_addr g ≠ mg_addr h.
Proof.
  intros Hok Ha Hin E. apply Forall_cons in Hok as [Hg Hok]. rewrite fmap_cons in Ha.
  inversion Ha as [|? ? Ha1 _]; subst. rewrite Forall_fmap, Forall_forall in Ha1. rewrite Forall_forall in Hok.
  specialize (Ha1 _ Hin). specialize (Hok _ Hin). pose proof (pages_pos _ Hg). pose proof (pages_pos _ Hok).
  unfold apart, pages in Ha1. cbn in Ha1. lia.
Qed.

Lemma unmap_perm (m : mapping Z) l :
  Forall mapping_ok l → ForallOrdPairs apart (pages <$> l) → m ∈ l → l ≡ₚ m :: unmap (mg_addr m) (mg_len m) l.
Proof.
  induction l as [|g l IH]; intros Hok Ha Hin; [by apply elem_of_nil in Hin|]. cbn [unmap].
  apply elem_of_cons in Hin as [<-|Hin]; [by rewrite !Z.eqb_refl|].
  pose proof (addr_unique _ _ _ Hok Ha Hin) as Hne. rewrite (proj2 (Z.eqb_neq _ _)) by done. cbn [andb].
  apply Forall_cons in Hok as [_ Hok]. inversion Ha; subst. rewrite (IH Hok) at 1 by done. apply perm_swap.
Qed.

Lemma find_mapping (m : mapping Z) l :
  Forall mapping_ok l → ForallOrdPairs apart (pages <$> l) → m ∈ l →
  List.find (λ g, mg_addr g =? mg_addr m) l = Some m.
Proof.
  induction l as [|g l IH]; intros Hok Ha Hin; [by apply elem_of_nil in Hin|]. cbn [List.find].
  apply elem_of_cons in Hin as [<-|Hin]; [by rewrite Z.eqb_refl|].
  pose proof (addr_unique _ _ _ Hok Ha Hin) as Hne. rewrite (proj2 (Z.eqb_neq _ _)) by done.
  apply Forall_cons in Hok as [_ Hok]. inversion Ha; subst. by apply IH.
Qed.

Lemma space_inv_ok a : space_inv a → Forall mapping_ok (as_maps a).
Proof. intros (_ & _ & _ & H & _). eapply Forall_impl; [exact H|]. by intros g []. Qed.

(** A new mapping lies behind all others. *)
Lemma space_inv_mmap a g :
  space_inv a → mapping_ok g → mg_addr g = as_next a →
  space_inv {| as_maps := g :: as_maps a; as_next := as_next a + round_up (mg_len g) PAGE_SIZE;
               as_guards := as_guards a |}.
Proof.
  intros (Hgu & Hm & Hp & Hok & Ha) Hg Eg. pose proof (pages_pos _ Hg) as Hpos.
  destruct (round_up_spec (mg_len g) PAGE_SIZE) as [_ Hr]; [destruct Hg; lia|unfold PAGE_SIZE; lia|].
  split_and!; cbn [as_next as_maps as_guards]; [done|..].
  - rewrite Z.add_mod, Hm, Hr by (unfold PAGE_SIZE; lia). done.
  - lia.
  - constructor; [split; [done|lia]|]. eapply Forall_impl; [exact Hok|]. intros h [? ?]. split; [done|lia].
  - rewrite fmap_cons. constructor; [|done]. rewrite Forall_fmap. eapply Forall_impl; [exact Hok|].
    intros h [? ?]. right. cbn. lia.
Qed.

Lemma space_inv_munmap a m ms :
  space_inv a → as_maps a ≡ₚ m :: ms →
  as_maps a ≡ₚ m :: unmap (mg_addr m) (mg_len m) (as_maps a) ∧
  space_inv {| as_maps := unmap (mg_addr m) (mg_len m) (as_maps a); as_next := as_next a; as_guards := as_guards a |}.
Proof.
  intros Hinv Hperm. pose proof (space_inv_ok _ Hinv) as Hall. destruct Hinv as (Hgu & Hm & Hp & Hok & Ha).
  pose proof (unmap_perm m (as_maps a) Hall Ha) as Hu. rewrite Hperm in Hu at 1. specialize (Hu ltac:(set_solver)).
  split; [done|]. split_and!; cbn [as_next as_maps as_guards]; [done..| |].
  - rewrite Hu in Hok. by apply Forall_cons in Hok as [_ ?].
  - apply (apart_perm _ (pages <$> (m :: unmap (mg_addr m) (mg_len m) (as_maps a)))) in Ha; [|by rewrite <-Hu].
    rewrite fmap_cons in Ha. by inversion Ha.
Qed.

#[global] Instance space_laws : MapLaws Z slow_disk address_space.
Proof.
  refine {| space_ok := space_inv; mappings := as_maps |}.
  - apply space_inv_ok.
  - by intros a (_ & _ & _ & _ & ?).
  - intros f n w a p w' a' E Hs Hn En. cbn in E. unfold space_mmap in E. destruct (_ || _); [done|].
    injection E as <- <- <-. split_and!; [|done|done].
    apply (space_inv_mmap a (Build_mapping (as_next a) n f (slow_contents f w))); [done| |done].
    destruct Hs as (_ & ? & ? & _). by split_and!.
  - intros f n w a e w' a' E Hs. cbn in E. unfold space_mmap in E. destruct (_ || _); [|done]. by injection E as <- <- <-.
  - intros f n [w a]. cbn. unfold space_mmap. by destruct (_ || _).
  - intros m p n advice w a r w' a' E Hs Hh _ _. cbn in E. unfold space_madvise in E.
    destruct (Z.eqb_spec advice MADV_GUARD_INSTALL) as [->|_]; [done|].
    destruct (negb _); [|destruct (_ && _)]; by injection E as <- <- <-.
  - intros p n advice [w a] s' E. cbn in E. unfold space_madvise in E. destruct (Z.eqb_spec (p mod PAGE_SIZE) 0); done.
  - intros p n advice [w a]. cbn. unfold space_madvise. destruct (negb _); [done|]. destruct (advice =? _); [done|]. by destruct (_ && _).
  - intros m ms w a Hs Hperm. destruct (space_inv_munmap _ _ _ Hs Hperm) as [Hu Hs'].
    pose proof (space_inv_ok _ Hs) as Hok. rewrite Hperm in Hok. apply Forall_cons in Hok as [(_ & Hp & Hn & _) _].
    cbn. unfold space_munmap. rewrite Hp, (proj2 (Z.ltb_lt _ _)) by done. cbn [Z.eqb andb].
    eexists _, _. split_and!; [done|done|done|]. apply (Permutation_cons_inv (a := m)). by rewrite <-Hu.
  - intros m w a Hs Hin E. pose proof (space_inv_ok _ Hs) as Hok. destruct Hs as (Hgu & _ & _ & _ & Ha).
    cbn in *. unfold space_peek. cbn [snd fst]. rewrite Hgu. cbn [existsb]. rewrite (find_mapping m) by done. rewrite Forall_forall in Hok.
    destruct (Hok _ Hin) as (_ & _ & _ & En). rewrite E, En, Z.leb_refl. cbn [andb]. by rewrite Nat2Z.id, firstn_all.
Defined.

(** Two small files in a directory. *)
Definition demo_root : path := of_string "data".
#[local] Instance demo_calls : PathCalls Z slow_disk := slow_calls demo_root.

Definition demo_file (name : string) (d : bytes) : st slow_disk () :=
  f ← p_open_create (of_string name); _ ← k_pwrite f d 0; mret tt.

Definition demo_disk : slow_disk :=
  (demo_file "data/empty" [] (demo_file "data/b" [7; 8; 9] (demo_file "data/a" [1; 2] slow_empty).2).2).2.

Definition demo_maps : list map_op :=
  [MapOpen (of_string "data/a"); MapOpen (of_string "data/b"); MapOpen (of_string "data/empty");
   MapOpen (of_string "data/none"); MapAdvise 0 AdviceRandom; MapAdviseRange 0 AdviceDontNeed 0 8192;
   MapAdviseRange 1 AdviceWillNeed 1 1; MapAdviseRaw 0 20; MapDrop 1].

Lemma mmap_sessions_witness :
  space_ok space_new ∧ Forall map_op_ok demo_maps ∧
  ∃ held w a, run_maps demo_maps [] (demo_disk, space_new) = (Ok held, (w, a)) ∧
    held = [{| mm_ptr := 17 * PAGE_SIZE; mm_len := 3 |}] ∧
    Forall (λ m, as_slice m (w, a) = Ok [7; 8; 9]) held ∧ length (mappings a) = 1%nat.
Proof.
  assert (space_ok space_new) as H by (change (space_inv space_new); split_and!; [done|done|done|constructor|constructor]).
  assert (Forall map_op_ok demo_maps) as Hops by (repeat constructor; lia).
  split; [exact H|]. split; [exact Hops|].
  destruct (mmap_sessions demo_root demo_maps demo_disk space_new H Hops) as (held & w & a & ms & E & Hm & H2 & _).
  exists held, w, a. split; [exact E|]. vm_compute in E. injection E as <- <- <-. split_and!; [reflexivity| |reflexivity].
  constructor; [|constructor]. vm_compute. reflexivity.
Defined.

(** [advise_raw] passes any code on, and some destroy the mapping: after
    [MADV_GUARD_INSTALL] the map is held as before and loading its slice is a
    signal. *)
Theorem raw_advice_breaks_map :
  let (r, s) := run_maps [MapOpen (of_string "data/b"); MapAdviseRaw 0 MADV_GUARD_INSTALL] [] (demo_disk, space_new) in
  ∃ m, r = Ok [m] ∧ mmap_len m = 3 ∧ as_slice m s = Panic.
Proof. by eexists. Qed.
