(* ===== verification/Uring.v ===== *)
(** Asynchronous I/O: [crates/paddock-core/src/io/uring.rs].

    The [io-uring] crate is a parameter ([Ring]): a bounded submission queue, a
    completion queue, and the system call between them.  The wrapper builds
    entries, pushes them, and harvests completions. *)

From S2P Require Import Prelude.

(** * The ring *)

Inductive SqeOp :=
  | SqeWrite (fd : Z) (buf : Z * bytes) (n offset : Z)
  | SqeRead (fd : Z) (addr n offset : Z)
  | SqeFsync (fd : Z) (datasync : bool).

Record Sqe := { sqe_op : SqeOp; sqe_io_link : bool; sqe_user_data : Z }.

Record Completion := { c_user_data : Z; c_result : Z; c_flags : Z }.

Class Ring (R : Type) := {
  sq_len : R → Z;
  sq_capacity : R → Z;
  sq_push : Sqe → R → option R;
  r_submit : st R Z;
  r_submit_and_wait : Z → st R Z;
  cq_next : R → option Completion * R
}.

(** [IoUring::new], and the builder with a polling kernel thread; the
    descriptor of a ring. *)
Class RingBuild (R : Type) := {
  ring_new : Z → outcome R;
  ring_sqpoll : Z → Z → outcome R;
  ring_fd : R → Z
}.

Class RingLaws (R : Type) `{!Ring R} := {
  sq : R → list Sqe;
  cq : R → list Completion;
  sq_len_sq r : sq_len r = len (sq r);
  sq_push_Some e r r' :
    sq_push e r = Some r' →
    len (sq r) < sq_capacity r ∧ sq r' = sq r ++ [e] ∧ cq r' = cq r ∧ sq_capacity r' = sq_capacity r;
  sq_push_None e r : sq_push e r = None → sq_capacity r ≤ len (sq r);
  cq_next_cons r c cs r' o :
    cq r = c :: cs → cq_next r = (o, r') → o = Some c ∧ cq r' = cs ∧ sq r' = sq r;
  cq_next_nil r r' o : cq r = [] → cq_next r = (o, r') → o = None ∧ cq r' = [] ∧ sq r' = sq r;
  submit_and_wait_cq n r o r' : r_submit_and_wait n r = (o, r') → ∃ cs, cq r' = cq r ++ cs;
  submit_and_wait_returns n r : returns (r_submit_and_wait n r).1
}.

(** * [Completion] *)

Definition completion_ok (c : Completion) : bool := 0 <=? c_result c.

(** [-self.result] overflows on the least [i32]. *)
Definition errno (c : Completion) : outcome (option Z) :=
  if c_result c <? 0 then if c_result c =? - 2 ^ 31 then Panic else Ok (Some (- c_result c)) else Ok None.

Definition transferred (c : Completion) : option Z := if 0 <=? c_result c then Some (c_result c) else None.

(** * [Uring] *)

Definition sq_full : Error := Io IoWouldBlock.
Definition buf_too_large : Error := Io IoInvalidInput.

Section Build.
Context {R : Type} `{RingBuild R}.

Definition uring_new (entries : Z) : outcome R := ring_new entries.

Definition uring_with_sqpoll (entries idle_ms : Z) : outcome R := ring_sqpoll entries idle_ms.

Definition uring_as_raw_fd (r : R) : Z := ring_fd r.
End Build.

Section Uring.
Context {R : Type} `{Ring R}.

Definition push (e : Sqe) : st R () := λ r,
  match sq_push e r with Some r' => (Ok tt, r') | None => (Err sq_full, r) end.

Definition pending_submissions (r : R) : Z := sq_len r.

Definition submission_capacity (r : R) : outcome Z := usize_sub (sq_capacity r) (sq_len r).

(** A buffer is its address and its bytes; the entry keeps the pointer. *)
Definition push_write (fd : Z) (buf : Z * bytes) (offset user_data : Z) : st R () :=
  n ← st_lift (ok_or (try_u32 (len buf.2)) buf_too_large);
  push {| sqe_op := SqeWrite fd buf n offset; sqe_io_link := false; sqe_user_data := user_data |}.

Definition push_read (fd addr n offset user_data : Z) : st R () :=
  n ← st_lift (ok_or (try_u32 n) buf_too_large);
  push {| sqe_op := SqeRead fd addr n offset; sqe_io_link := false; sqe_user_data := user_data |}.

Definition push_fdatasync (fd user_data : Z) : st R () :=
  push {| sqe_op := SqeFsync fd true; sqe_io_link := false; sqe_user_data := user_data |}.

Definition linked_write (fd : Z) (buf : Z * bytes) (offset write_tag : Z) : Sqe :=
  {| sqe_op := SqeWrite fd buf (len buf.2) offset; sqe_io_link := true; sqe_user_data := write_tag |}.

Definition linked_fsync (fd fsync_tag : Z) : Sqe :=
  {| sqe_op := SqeFsync fd true; sqe_io_link := false; sqe_user_data := fsync_tag |}.

Definition push_linked_write_then_fdatasync (fd : Z) (buf : Z * bytes) (offset write_tag fsync_tag : Z) : st R () :=
  _ ← st_lift (ok_or (try_u32 (len buf.2)) buf_too_large);
  r ← st_get;
  free ← st_lift (usize_sub (sq_capacity r) (sq_len r));
  if free <? 2 then st_lift (Err sq_full)
  else
    _ ← push (linked_write fd buf offset write_tag);
    push (linked_fsync fd fsync_tag).

Definition submit : st R Z := r_submit.
Definition submit_and_wait (want : Z) : st R Z := r_submit_and_wait want.

Definition pop_completion : st R (option Completion) := λ r, let (c, r) := cq_next r in (Ok c, r).

(** [completion().next()] takes the completion out of the queue.  A timeout is
    ignored by the code: both arms wait without bound. *)
Definition wait_for_at_least_one : st R () := λ r,
  match cq_next r with
  | (Some _, r) => (Ok tt, r)
  | (None, r) => (_ ← r_submit_and_wait 1; mret tt) r
  end.

Fixpoint drain_loop (fuel : nat) (sink : list Completion) : st R (list Completion) := λ r,
  match fuel with
  | O => (OutOfFuel, r)
  | S fuel =>
      match cq_next r with
      | (Some c, r) => drain_loop fuel (sink ++ [c]) r
      | (None, r) => (Ok sink, r)
      end
  end.

(** [let _ = self.wait_for_at_least_one(..)]: its error is dropped. *)
Definition drain_completions (fuel : nat) (sink : list Completion) : st R (list Completion * Z) := λ r,
  let '(waited, r) := wait_for_at_least_one r in
  match waited with
  | Ok _ | Err _ => (sink' ← drain_loop fuel sink; mret (sink', len sink' - len sink)) r
  | Panic => (Panic, r)
  | OutOfFuel => (OutOfFuel, r)
  end.
End Uring.

(** * What the wrapper promises *)

Section Promises.
Context {R : Type} `{RingLaws R}.

Lemma push_room e (r : R) :
  len (sq r) < sq_capacity r →
  ∃ r', push e r = (Ok tt, r') ∧ sq r' = sq r ++ [e] ∧ cq r' = cq r ∧ sq_capacity r' = sq_capacity r.
Proof.
  intros Hroom. unfold push. destruct (sq_push e r) as [r'|] eqn:E.
  - apply sq_push_Some in E as (_ & ? & ? & ?). eauto.
  - apply sq_push_None in E. lia.
Qed.

Lemma drain_loop_all fuel sink (r : R) :
  (length (cq r) < fuel)%nat →
  ∃ r', drain_loop fuel sink r = (Ok (sink ++ cq r), r') ∧ cq r' = [].
Proof.
  revert sink r. induction fuel as [|fuel IH]; intros sink r Hfuel; [lia|]. cbn [drain_loop].
  destruct (cq_next r) as [o r'] eqn:E. destruct (cq r) as [|c cs] eqn:Ec.
  - destruct (cq_next_nil _ _ _ Ec E) as (-> & Hn & _). exists r'. by rewrite app_nil_r.
  - destruct (cq_next_cons _ _ _ _ _ Ec E) as (-> & <- & _). cbn in Hfuel.
    destruct (IH (sink ++ [c]) r' ltac:(lia)) as (r2 & -> & Hr2). exists r2. by rewrite <-app_assoc.
Qed.
End Promises.

(** C32. The group-commit pair is all or nothing: [push_linked_write_then_fdatasync]
    either puts the write, flagged to be linked, and directly behind it the
    [fdatasync] at the end of the submission queue, or returns an error and
    leaves the queue as it was; and it succeeds exactly when two entries are free
    and the length fits in 32 bits.  It never leaves a write without its sync. *)
Theorem linked_pair_all_or_nothing `{RingLaws R} (r : R) fd buf offset write_tag fsync_tag
    (Hsq : len (sq r) ≤ sq_capacity r) :
  ∃ r', (if (len buf.2 <? 2 ^ 32) && (len (sq r) + 2 <=? sq_capacity r) then
    push_linked_write_then_fdatasync fd buf offset write_tag fsync_tag r = (Ok tt, r') ∧
    sq r' = sq r ++ [linked_write fd buf offset write_tag; linked_fsync fd fsync_tag]
  else ∃ e, push_linked_write_then_fdatasync fd buf offset write_tag fsync_tag r = (Err e, r') ∧ sq r' = sq r) ∧
  cq r' = cq r.
Proof.
  unfold push_linked_write_then_fdatasync, try_u32.
  destruct (len buf.2 <? 2 ^ 32); cbn [andb ok_or]; [|exists r; split; [by exists buf_too_large|done]].
  rewrite (run_lift _ _ _ (len buf.2)), run_get, (run_lift _ _ _ (sq_capacity r - len (sq r))); [|unfold usize_sub; rewrite sq_len_sq; by decide_bool|done].
  destruct (Z.leb_spec (len (sq r) + 2) (sq_capacity r)) as [Hroom|Hfull]; decide_bool.
  2: { exists r. split; [by exists sq_full|done]. }
  destruct (push_room (linked_write fd buf offset write_tag) r) as (r1 & E1 & Hs1 & Hc1 & Hk1); [lia|].
  destruct (push_room (linked_fsync fd fsync_tag) r1) as (r2 & E2 & Hs2 & Hc2 & Hk2).
  { rewrite Hs1, length_app. cbn. lia. }
  exists r2. rewrite (run_bind _ _ _ _ _ E1), E2, Hs2, Hs1, Hc2, Hc1. by rewrite <-app_assoc.
Qed.

(** A ring whose kernel completes everything on submission. *)
Record toy_ring := { ty_sq : list Sqe; ty_cq : list Completion; ty_capacity : Z }.

Definition toy_complete (e : Sqe) : Completion :=
  {| c_user_data := sqe_user_data e;
     c_result := match sqe_op e with SqeWrite _ _ n _ | SqeRead _ _ n _ => n | SqeFsync _ _ => 0 end;
     c_flags := 0 |}.

Definition toy_submit : st toy_ring Z := λ r,
  (Ok (len (ty_sq r)),
   {| ty_sq := []; ty_cq := ty_cq r ++ (toy_complete <$> ty_sq r); ty_capacity := ty_capacity r |}).

#[global] Instance toy_ring_ops : Ring toy_ring := {|
  sq_len r := len (ty_sq r); sq_capacity := ty_capacity;
  sq_push e r :=
    if len (ty_sq r) <? ty_capacity r
    then Some {| ty_sq := ty_sq r ++ [e]; ty_cq := ty_cq r; ty_capacity := ty_capacity r |} else None;
  r_submit := toy_submit; r_submit_and_wait _ := toy_submit;
  cq_next r :=
    match ty_cq r with
    | c :: cs => (Some c, {| ty_sq := ty_sq r; ty_cq := cs; ty_capacity := ty_capacity r |})
    | [] => (None, r)
    end |}.

#[global] Instance toy_ring_laws : RingLaws toy_ring.
Proof.
  refine {| sq := ty_sq; cq := ty_cq |}; cbn.
  - done.
  - intros e r r'. case_bool; [|done]. by intros [= <-].
  - intros e r. by case_bool.
  - intros r c cs r' o ->. by intros [= <- <-].
  - intros r r' o E. rewrite E. by intros [= <- <-].
  - intros n r o r' [= <- <-]. eauto.
  - done.
Defined.

Definition toy_empty : toy_ring := {| ty_sq := []; ty_cq := []; ty_capacity := 8 |}.

Lemma linked_pair_all_or_nothing_witness :
  ∃ r, push_linked_write_then_fdatasync 3 (4096, [1; 2]) 0 10 11 toy_empty = (Ok tt, r) ∧
    sqe_io_link <$> sq r = [true; false] ∧ sqe_user_data <$> sq r = [10; 11].
Proof.
  destruct (linked_pair_all_or_nothing toy_empty 3 (4096, [1; 2]) 0 10 11) as (r & [E Hsq] & _); [done|].
  exists r. split; [exact E|]. by rewrite Hsq.
Defined.

(** What [drain_completions] returns: a completion that was ready on entry is
    taken by the look before the wait and lost, although the comment says that
    it stays for the caller; the others all arrive. *)
Theorem drain_loses_ready_completion `{RingLaws R} fuel sink c cs (r : R) :
  cq r = c :: cs → (length cs < fuel)%nat →
  ∃ r', drain_completions fuel sink r = (Ok (sink ++ cs, len cs), r') ∧ cq r' = [].
Proof.
  intros Hcq Hfuel. unfold drain_completions, wait_for_at_least_one.
  destruct (cq_next r) as [o r1] eqn:E. destruct (cq_next_cons _ _ _ _ _ Hcq E) as (-> & Hc & _). rewrite <-Hc in *.
  destruct (drain_loop_all fuel sink r1 Hfuel) as (r2 & E2 & Hr2). exists r2.
  rewrite (run_bind _ _ _ _ _ E2). split; [|done]. cbn.
  by rewrite length_app, Nat2Z.inj_add, Z.add_simpl_l.
Qed.

Theorem drain_returns_arrivals `{RingLaws R} fuel sink (r : R) :
  cq r = [] → (length (cq (r_submit_and_wait 1 (cq_next r).2).2) < fuel)%nat →
  ∃ r', drain_completions fuel sink r =
    (let arrived := cq (r_submit_and_wait 1 (cq_next r).2).2 in Ok (sink ++ arrived, len arrived), r') ∧ cq r' = [].
Proof.
  intros Hcq Hfuel. unfold drain_completions, wait_for_at_least_one.
  destruct (cq_next r) as [o r0] eqn:E. destruct (cq_next_nil _ _ _ Hcq E) as (-> & Hc & _). cbn in Hfuel |- *.
  pose proof (submit_and_wait_returns 1 r0) as Hret. unfold mbind at 1, st_bind at 1.
  destruct (r_submit_and_wait 1 r0) as [[n|e| |] r1] eqn:Ew; cbn in *; try done.
  all: destruct (drain_loop_all fuel sink r1 Hfuel) as (r2 & E2 & Hr2); exists r2;
    rewrite (run_bind _ _ _ _ _ E2); split; [|done]; cbn; by rewrite length_app, Nat2Z.inj_add, Z.add_simpl_l.
Qed.
