(* ===== verification/SkipList.v ===== *)
(** The memtable: [crates/paddock-core/src/memtable/skiplist.rs].

    The nodes are the arena's contents: a map from addresses to nodes, each
    with its array of forward pointers; a null pointer is [None].  Reading
    through a pointer that is not a node, or past a forward array, is
    undefined behaviour in the code and [Panic] here, so a proof that an
    operation returns rules it out. *)

From S2P Require Import Prelude InternalKey Arena.

(** * Data *)

Definition MAX_HEIGHT : nat := 12.
Definition BRANCH : Z := 4.

(** [size_of::<NodeHeader>()] and [size_of::<AtomicPtr<_>>()]. *)
Definition NODE_HEADER_SIZE : Z := 24.
Definition PTR_SIZE : Z := 8.

Inductive OpType := NodePut | NodeTombstone.

#[global] Instance OpType_eq_dec : EqDecision OpType.
Proof. solve_decision. Defined.

Definition op_type_from_byte (b : Z) : option OpType :=
  if b =? 0 then Some NodePut else if b =? 1 then Some NodeTombstone else None.

(** [op as u8]. *)
Definition op_type_as_byte (op : OpType) : Z :=
  match op with NodePut => 0 | NodeTombstone => 1 end.

(** A node: the header's fields, the forward array, the inline key and value. *)
Record Node := {
  nd_height : nat;
  nd_op_type : Z;
  nd_seqno : Z;
  nd_forward : list (option Ptr);
  nd_key : bytes;
  nd_value : bytes
}.

Record SkipList := {
  sl_arena : Arena;
  sl_nodes : gmap Ptr Node;
  sl_head : Ptr;
  sl_max_height : nat;
  sl_rng_state : Z;
  sl_len : Z
}.

(** What a [NodeRef] lets a caller see. *)
Record MemEntry := { me_key : bytes; me_value : bytes; me_seqno : Z; me_op : OpType }.

#[global] Instance MemEntry_eq_dec : EqDecision MemEntry.
Proof. solve_decision. Defined.

(** [NodeRef::op_type], with its [panic!] on an invalid byte. *)
Definition node_op (n : Node) : outcome OpType := expect (op_type_from_byte (nd_op_type n)).

Definition node_entry (n : Node) : outcome MemEntry :=
  op ← node_op n;
  Ok {| me_key := nd_key n; me_value := nd_value n; me_seqno := nd_seqno n; me_op := op |}.

(** * Memory *)

Definition load_node (p : Ptr) (sl : SkipList) : outcome Node := expect (sl_nodes sl !! p).

Definition load_forward (p : Ptr) (i : nat) (sl : SkipList) : outcome (option Ptr) :=
  n ← load_node p sl; expect (nd_forward n !! i).

Definition node_set_forward (i : nat) (v : option Ptr) (n : Node) : Node :=
  {| nd_height := nd_height n; nd_op_type := nd_op_type n; nd_seqno := nd_seqno n;
     nd_forward := <[i := v]> (nd_forward n); nd_key := nd_key n; nd_value := nd_value n |}.

Definition set_nodes (m : gmap Ptr Node) (sl : SkipList) : SkipList :=
  {| sl_arena := sl_arena sl; sl_nodes := m; sl_head := sl_head sl;
     sl_max_height := sl_max_height sl; sl_rng_state := sl_rng_state sl; sl_len := sl_len sl |}.

Definition set_max_height (h : nat) (sl : SkipList) : SkipList :=
  {| sl_arena := sl_arena sl; sl_nodes := sl_nodes sl; sl_head := sl_head sl;
     sl_max_height := h; sl_rng_state := sl_rng_state sl; sl_len := sl_len sl |}.

Definition store_forward (p : Ptr) (i : nat) (v : option Ptr) : st SkipList () := λ sl,
  match sl_nodes sl !! p with
  | Some n =>
      if (i <? length (nd_forward n))%nat
      then (Ok tt, set_nodes (<[p := node_set_forward i v n]> (sl_nodes sl)) sl)
      else (Panic, sl)
  | None => (Panic, sl)
  end.

(** * Construction *)

Definition build_head (a : Arena) : outcome (Ptr * Node * Arena) :=
  '(p, a) ← allocate (NODE_HEADER_SIZE + Z.of_nat MAX_HEIGHT * PTR_SIZE) 8 a;
  Ok (p, {| nd_height := MAX_HEIGHT; nd_op_type := op_type_as_byte NodePut; nd_seqno := 0;
            nd_forward := replicate MAX_HEIGHT None; nd_key := []; nd_value := [] |}, a).

Definition skiplist_new : outcome SkipList :=
  '(p, n, a) ← build_head arena_new;
  Ok {| sl_arena := a; sl_nodes := {[p := n]}; sl_head := p; sl_max_height := 1;
        sl_rng_state := 0x9E3779B9; sl_len := 0 |}.

Definition skiplist_len (sl : SkipList) : Z := sl_len sl.
Definition skiplist_is_empty (sl : SkipList) : bool := skiplist_len sl =? 0.
Definition skiplist_bytes_used (sl : SkipList) : Z := ar_bytes_used (sl_arena sl).

(** * Levels *)

(** The [while] loop, which runs at most [MAX_HEIGHT - 1] times. *)
Fixpoint height_loop (fuel : nat) (h : nat) (s : Z) : nat :=
  match fuel with
  | O => h
  | S fuel =>
      if (h <? MAX_HEIGHT)%nat && (s mod BRANCH =? 0)
      then height_loop fuel (S h) (u32 (s * 0x9E3779B9)) else h
  end.

Definition xorshift32 (s : Z) : Z :=
  let s := Z.lxor s (u32 (Z.shiftl s 13)) in
  let s := Z.lxor s (Z.shiftr s 17) in
  Z.lxor s (u32 (Z.shiftl s 5)).

Definition random_height : st SkipList nat := λ sl,
  let s := xorshift32 (sl_rng_state sl) in
  (Ok (height_loop MAX_HEIGHT 1 s),
   {| sl_arena := sl_arena sl; sl_nodes := sl_nodes sl; sl_head := sl_head sl;
      sl_max_height := sl_max_height sl; sl_rng_state := s; sl_len := sl_len sl |}).

(** * Insertion *)

Definition allocate_node (key value : bytes) (seqno : Z) (op : OpType) (height : nat) :
    st SkipList Ptr := λ sl,
  let forward_size := Z.of_nat height * PTR_SIZE in
  let val := match op with NodePut => value | NodeTombstone => [] end in
  let total := NODE_HEADER_SIZE + forward_size + len key + len val in
  match allocate total 8 (sl_arena sl) with
  | Ok (raw, a) =>
      match try_u32 (len key), try_u32 (len val) with
      | Some _, Some _ =>
          let n := {| nd_height := height; nd_op_type := op_type_as_byte op; nd_seqno := seqno;
                      nd_forward := replicate height None; nd_key := key; nd_value := val |} in
          (Ok raw,
           {| sl_arena := a; sl_nodes := <[raw := n]> (sl_nodes sl); sl_head := sl_head sl;
              sl_max_height := sl_max_height sl; sl_rng_state := sl_rng_state sl;
              sl_len := sl_len sl |})
      | _, _ => (Panic, sl)
      end
  | Err e => (Err e, sl)
  | Panic => (Panic, sl)
  | OutOfFuel => (OutOfFuel, sl)
  end.

(** Whether the node behind a link sorts before the target. *)
Definition goes_before (sl : SkipList) (link : option Ptr) (key : bytes) (seqno : Z) : outcome bool :=
  match link with
  | None => Ok false
  | Some p =>
      n ← load_node p sl;
      Ok (match compare_internal_key (nd_key n) (nd_seqno n) key seqno with
          | Lt => true | _ => false end)
  end.

(** The loop of [find_predecessors]: a step moves forward or down. *)
Fixpoint predecessors_loop (fuel : nat) (sl : SkipList) (key : bytes) (seqno : Z) (level : nat)
    (cur : Ptr) (prev : list Ptr) (following : list (option Ptr)) :
    outcome (list Ptr * list (option Ptr)) :=
  match fuel with
  | O => OutOfFuel
  | S fuel =>
      forward_link ← load_forward cur level sl;
      go_forward ← goes_before sl forward_link key seqno;
      match go_forward, forward_link with
      | true, Some next => predecessors_loop fuel sl key seqno level next prev following
      | _, _ =>
          let prev := <[level := cur]> prev in
          let following := <[level := forward_link]> following in
          match level with
          | O => Ok (prev, following)
          | S level => predecessors_loop fuel sl key seqno level cur prev following
          end
      end
  end.

(** At every level at most every node is passed. *)
Definition search_fuel (sl : SkipList) : nat := Z.to_nat (sl_len sl) + 2.

Definition find_predecessors (sl : SkipList) (key : bytes) (seqno : Z) (prev : list Ptr)
    (following : list (option Ptr)) : outcome (list Ptr * list (option Ptr)) :=
  let active := sl_max_height sl in
  let prev := take active prev ++ replicate (MAX_HEIGHT - active) (sl_head sl) in
  match active with
  | O => Ok (prev, following)
  | S level =>
      predecessors_loop (MAX_HEIGHT * search_fuel sl) sl key seqno level (sl_head sl) prev following
  end.

(** The stores of the linking loop: the new node's own forward pointer, and the
    predecessor's, which publishes the node on the level.  One round is the two
    in the order of the source. *)
Inductive link_store : Set :=
| SetForward (level : nat)
| Publish (level : nat).

Definition run_store (node : Ptr) (prev : list Ptr) (following : list (option Ptr)) (store : link_store) :
    st SkipList () :=
  match store with
  | SetForward level => f ← st_lift (expect (following !! level)); store_forward node level f
  | Publish level => p ← st_lift (expect (prev !! level)); store_forward p level (Some node)
  end.

Fixpoint run_stores (node : Ptr) (prev : list Ptr) (following : list (option Ptr))
    (stores : list link_store) : st SkipList () :=
  match stores with
  | [] => mret tt
  | store :: stores => _ ← run_store node prev following store; run_stores node prev following stores
  end.

Definition level_stores (level : nat) : list link_store := [SetForward level; Publish level].

Definition link_level (node : Ptr) (prev : list Ptr) (following : list (option Ptr)) (level : nat) :
    st SkipList () :=
  run_stores node prev following (level_stores level).

Fixpoint link_levels (node : Ptr) (prev : list Ptr) (following : list (option Ptr))
    (levels : list nat) : st SkipList () :=
  match levels with
  | [] => mret tt
  | level :: levels => _ ← link_level node prev following level; link_levels node prev following levels
  end.

(** Everything [insert] does before the first link is published. *)
Definition insert_prepare (key value : bytes) (seqno : Z) (op : OpType) :
    st SkipList (Ptr * nat * list Ptr * list (option Ptr)) :=
  height ← random_height;
  node_ptr ← allocate_node key value seqno op height;
  sl ← st_get;
  '(predecessors, following) ← st_lift (find_predecessors sl key seqno
      (replicate MAX_HEIGHT (sl_head sl)) (replicate MAX_HEIGHT None));
  let active_max := sl_max_height sl in
  if (active_max <? height)%nat then
    let predecessors := take active_max predecessors ++
      replicate (height - active_max) (sl_head sl) ++ drop height predecessors in
    _ ← st_modify (set_max_height height);
    mret (node_ptr, height, predecessors, following)
  else mret (node_ptr, height, predecessors, following).

Definition count_insert (sl : SkipList) : SkipList :=
  {| sl_arena := sl_arena sl; sl_nodes := sl_nodes sl; sl_head := sl_head sl;
     sl_max_height := sl_max_height sl; sl_rng_state := sl_rng_state sl; sl_len := sl_len sl + 1 |}.

Definition skiplist_insert (key value : bytes) (seqno : Z) (op : OpType) : st SkipList Ptr :=
  '(node_ptr, height, predecessors, following) ← insert_prepare key value seqno op;
  _ ← link_levels node_ptr predecessors following (seq 0 height);
  _ ← st_modify count_insert;
  mret node_ptr.

(** * Lookup and iteration *)

(** The inner loop of [get]: forward on one level. *)
Fixpoint walk_level (fuel : nat) (sl : SkipList) (key : bytes) (snapshot : Z) (level : nat)
    (cur : Ptr) : outcome Ptr :=
  match fuel with
  | O => OutOfFuel
  | S fuel =>
      next ← load_forward cur level sl;
      go ← goes_before sl next key snapshot;
      match go, next with
      | true, Some next => walk_level fuel sl key snapshot level next
      | _, _ => Ok cur
      end
  end.

(** The outer loop, from [level] down. *)
Fixpoint walk_down (level : nat) (sl : SkipList) (key : bytes) (snapshot : Z) (cur : Ptr) :
    outcome Ptr :=
  match level with
  | O => Ok cur
  | S level =>
      cur ← walk_level (search_fuel sl) sl key snapshot level cur;
      walk_down level sl key snapshot cur
  end.

(** The two halves of [get]: the descent, and the load of the candidate behind
    the node it ends at. *)
Definition get_search (sl : SkipList) (key : bytes) (snapshot : Z) : outcome Ptr :=
  walk_down (sl_max_height sl) sl key snapshot (sl_head sl).

Definition get_candidate (sl : SkipList) (key : bytes) (snapshot : Z) (cur : Ptr) :
    outcome (option MemEntry) :=
  candidate ← load_forward cur 0 sl;
  match candidate with
  | None => Ok None
  | Some p =>
      n ← load_node p sl;
      if bytes_eqb (nd_key n) key && (nd_seqno n <=? snapshot)
      then e ← node_entry n; Ok (Some e) else Ok None
  end.

Definition skiplist_get (sl : SkipList) (key : bytes) (snapshot : Z) : outcome (option MemEntry) :=
  cur ← get_search sl key snapshot;
  get_candidate sl key snapshot cur.

(** Draining [Iter] from [cur]. *)
Fixpoint iter_entries (fuel : nat) (sl : SkipList) (cur : option Ptr) : outcome (list MemEntry) :=
  match fuel with
  | O => OutOfFuel
  | S fuel =>
      match cur with
      | None => Ok []
      | Some p =>
          n ← load_node p sl;
          e ← node_entry n;
          next ← load_forward p 0 sl;
          rest ← iter_entries fuel sl next;
          Ok (e :: rest)
      end
  end.

Definition skiplist_entries (sl : SkipList) : outcome (list MemEntry) :=
  first ← load_forward (sl_head sl) 0 sl;
  iter_entries (search_fuel sl) sl first.

(** * The abstract memtable: a sorted list *)

Definition entry_le (a b : MemEntry) : Prop :=
  ikey_le (me_key a) (me_seqno a) (me_key b) (me_seqno b).

(** [e] sorts strictly before the target. *)
Definition entry_before (key : bytes) (seqno : Z) (e : MemEntry) : bool :=
  match compare_internal_key (me_key e) (me_seqno e) key seqno with Lt => true | _ => false end.

(** A new entry goes before the first one that does not sort before it: an
    equal one included. *)
Fixpoint mem_insert (e : MemEntry) (l : list MemEntry) : list MemEntry :=
  match l with
  | [] => [e]
  | x :: l =>
      if entry_before (me_key e) (me_seqno e) x then x :: mem_insert e l else e :: x :: l
  end.

(** The newest visible version of a key. *)
Definition mem_visible (key : bytes) (snapshot : Z) (e : MemEntry) : bool :=
  bytes_eqb (me_key e) key && (me_seqno e <=? snapshot).

Definition mem_get (l : list MemEntry) (key : bytes) (snapshot : Z) : option MemEntry :=
  List.find (mem_visible key snapshot) l.

(** * Representation *)

(** The forward pointer of a node; [None] when there is no such slot. *)
Definition fwd (sl : SkipList) (p : Ptr) (lv : nat) : option (option Ptr) :=
  n ← sl_nodes sl !! p; nd_forward n !! lv.

(** Level [lv], from [p] on, is the chain [qs] and ends. *)
Fixpoint linked (sl : SkipList) (lv : nat) (p : Ptr) (qs : list Ptr) : Prop :=
  match qs with
  | [] => fwd sl p lv = Some None
  | q :: qs => fwd sl p lv = Some (Some q) ∧ linked sl lv q qs
  end.

(** The node at [p] holds the entry [e]. *)
Definition holds (sl : SkipList) (p : Ptr) (e : MemEntry) : Prop :=
  ∃ n, sl_nodes sl !! p = Some n ∧ nd_key n = me_key e ∧ nd_value n = me_value e ∧
    nd_seqno n = me_seqno e ∧ nd_op_type n = op_type_as_byte (me_op e) ∧
    length (nd_forward n) = nd_height n.

(** A list readers can search: level 0 is the nodes [ps] with the entries [l],
    sorted, and every level's chain is part of the one below. *)
Record sl_shape (sl : SkipList) (ps : list Ptr) (l : list MemEntry) (chains : nat → list Ptr) : Prop := {
  sh_nodes : Forall2 (holds sl) ps l;
  sh_nodup : NoDup (sl_head sl :: ps);
  sh_linked : ∀ lv, (lv < MAX_HEIGHT)%nat → linked sl lv (sl_head sl) (chains lv);
  sh_base : chains 0%nat = ps;
  sh_sub : ∀ lv, chains (S lv) `sublist_of` chains lv;
  sh_max : (1 ≤ sl_max_height sl ≤ MAX_HEIGHT)%nat;
  sh_sorted : StronglySorted entry_le l;
  sh_len : (length l < search_fuel sl)%nat
}.

Definition height_at (sl : SkipList) (p : Ptr) : nat :=
  match sl_nodes sl !! p with Some n => nd_height n | None => 0 end.

(** The chain of a level: the nodes that reach above it. *)
Definition level_chain (sl : SkipList) (ps : list Ptr) (lv : nat) : list Ptr :=
  filter (λ p, lv < height_at sl p)%nat ps.

(** A whole list, between two insertions. *)
Record sl_rep (sl : SkipList) (ps : list Ptr) (l : list MemEntry) : Prop := {
  sr_shape : sl_shape sl ps l (level_chain sl ps);
  sr_top : Forall (λ p, height_at sl p ≤ sl_max_height sl)%nat ps;
  sr_len : sl_len sl = len l;
  sr_arena : ∃ live, arena_inv (sl_arena sl) live ∧ Forall (λ r, 1 ≤ r.2) live ∧
    ∀ p n, sl_nodes sl !! p = Some n → p ∈ live.*1
}.

(** * Searching *)

Lemma linked_suffix sl lv p x q y : linked sl lv p (x ++ q :: y) → linked sl lv q y.
Proof. revert p. induction x as [|z x IH]; intros p; cbn; [by intros [_ ?]|]. intros [_ ?]. eauto. Qed.

(** The chain behind a node that is on it (or the head). *)
Lemma linked_from sl lv h x cur y qs :
  linked sl lv h qs → h :: qs = x ++ cur :: y → linked sl lv cur y.
Proof.
  intros Hl E. destruct x as [|z x]; cbn in E; simplify_eq; [done|]. by eapply linked_suffix.
Qed.

Lemma load_forward_fwd sl p lv v : fwd sl p lv = Some v → load_forward p lv sl = Ok v.
Proof.
  unfold fwd, load_forward, load_node. destruct (sl_nodes sl !! p) as [n|]; cbn; [|done].
  by intros ->.
Qed.

Section Search.
Context (sl : SkipList) (ps : list Ptr) (l : list MemEntry) (chains : nat → list Ptr).
Context (Hsh : sl_shape sl ps l chains) (key : bytes) (seqno : Z).

(** The nodes before the target and the rest. *)
Definition before_ptr (p : Ptr) : bool :=
  match sl_nodes sl !! p with
  | Some n => match compare_internal_key (nd_key n) (nd_seqno n) key seqno with Lt => true | _ => false end
  | None => false
  end.

Lemma before_holds p e : holds sl p e → before_ptr p = entry_before key seqno e.
Proof.
  intros (n & Hn & Hk & _ & Hs & _). unfold before_ptr, entry_before. by rewrite Hn, Hk, Hs.
Qed.

Lemma goes_before_ptr p e : holds sl p e → goes_before sl (Some p) key seqno = Ok (before_ptr p).
Proof. intros (n & Hn & _). unfold goes_before, load_node, before_ptr. by rewrite Hn. Qed.

(** The prefix and the suffix of the list around the target. *)
Definition low (qs : list Ptr) : list Ptr := filter (λ p, before_ptr p = true) qs.
Definition high (qs : list Ptr) : list Ptr := filter (λ p, before_ptr p = false) qs.

Lemma sorted_split : ps = low ps ++ high ps.
Proof.
  pose proof (sh_sorted _ _ _ _ Hsh) as Hs. pose proof (sh_nodes _ _ _ _ Hsh) as Hn.
  clear Hsh. induction Hn as [|p e ps' l' Hp Hn IH]; [done|]. unfold low, high in *. rewrite !filter_cons.
  inversion Hs as [|? ? Hs' Hall]; subst. specialize (IH Hs').
  destruct (before_ptr p) eqn:E.
  - rewrite decide_True, decide_False by done. cbn [app]. by rewrite <-IH.
  - rewrite decide_False, decide_True by done.
    assert (filter (λ q, before_ptr q = true) ps' = []) as Hnil; [|rewrite Hnil in *; cbn [app] in *; by rewrite <-IH].
    apply filter_none. intros q Hq.
    apply list_elem_of_lookup in Hq as [i Hi]. destruct (Forall2_lookup_l _ _ _ _ _ Hn Hi) as (e' & He' & Hq).
    rewrite (before_holds _ _ Hq). intros Eq. rewrite (before_holds _ _ Hp) in E.
    assert (entry_le e e') as Hle by (rewrite Forall_forall in Hall; apply Hall; by apply list_elem_of_lookup_2 in He').
    unfold entry_before in *. destruct (compare_internal_key (me_key e') _ _ _) eqn:C; try done.
    assert (ikey_le key seqno (me_key e) (me_seqno e)) as H1.
    { apply cik_ge. by destruct (compare_internal_key (me_key e) (me_seqno e) key seqno). }
    pose proof (ikey_le_trans _ _ _ _ _ _ H1 Hle) as H2. unfold ikey_le in H2.
    rewrite cik_antisym, C in H2. done.
Qed.

Lemma chains_sub lv : chains lv `sublist_of` ps.
Proof.
  rewrite <-(sh_base _ _ _ _ Hsh). induction lv as [|lv IH]; [done|].
  etrans; [apply (sh_sub _ _ _ _ Hsh)|done].
Qed.

Lemma low_before p qs : p ∈ low qs ↔ p ∈ qs ∧ before_ptr p = true.
Proof. unfold low. rewrite list_elem_of_filter. tauto. Qed.

Lemma high_after p qs : p ∈ high qs ↔ p ∈ qs ∧ before_ptr p = false.
Proof. unfold high. rewrite list_elem_of_filter. tauto. Qed.

Lemma chain_split lv : chains lv = low (chains lv) ++ high (chains lv).
Proof.
  pose proof (chains_sub lv) as Hsub. rewrite sorted_split in Hsub.
  apply sublist_app_r in Hsub as (b & a & E & Hb & Ha).
  assert (∀ x, x ∈ b → before_ptr x = true) as Hb'.
  { intros x Hx. eapply elem_of_sublist in Hx; [|exact Hb]. by apply low_before in Hx as [_ ?]. }
  assert (∀ x, x ∈ a → before_ptr x = false) as Ha'.
  { intros x Hx. eapply elem_of_sublist in Hx; [|exact Ha]. by apply high_after in Hx as [_ ?]. }
  rewrite E. unfold low, high. rewrite !filter_app.
  rewrite (filter_all _ b Hb'), (filter_none (λ p, before_ptr p = true) a) by (intros x Hx; by rewrite Ha').
  rewrite (filter_none (λ p, before_ptr p = false) b) by (intros x Hx; by rewrite Hb').
  by rewrite (filter_all _ a Ha'), app_nil_r.
Qed.

(** Where a walk on a level ends, and what is behind it. *)
Definition pred_at (lv : nat) : Ptr := List.last (low (chains lv)) (sl_head sl).
Definition succ_at (lv : nat) : option Ptr := head (high (chains lv)).

Lemma holds_in p : p ∈ ps → ∃ e, holds sl p e.
Proof.
  intros [i Hi]%list_elem_of_lookup. destruct (Forall2_lookup_l _ _ _ _ _ (sh_nodes _ _ _ _ Hsh) Hi) as (e & _ & ?).
  by exists e.
Qed.

(** A node on the way: [cur] with [y] still to pass on this level. *)
Definition on_way (lv : nat) (cur : Ptr) (y : list Ptr) : Prop :=
  ∃ x, sl_head sl :: low (chains lv) = x ++ cur :: y.

(** One load on level [lv]. *)
Lemma way_step lv cur y :
  (lv < MAX_HEIGHT)%nat → on_way lv cur y →
  match y with
  | q :: y => fwd sl cur lv = Some (Some q) ∧ goes_before sl (Some q) key seqno = Ok true ∧ on_way lv q y
  | [] => cur = pred_at lv ∧ fwd sl cur lv = Some (succ_at lv) ∧
      goes_before sl (succ_at lv) key seqno = Ok false
  end.
Proof.
  intros Hlv [x E]. pose proof (sh_linked _ _ _ _ Hsh lv Hlv) as Hl. rewrite chain_split in Hl.
  assert (sl_head sl :: low (chains lv) ++ high (chains lv) = x ++ cur :: y ++ high (chains lv)) as E'.
  { change (sl_head sl :: low (chains lv) ++ high (chains lv)) with ((sl_head sl :: low (chains lv)) ++ high (chains lv)).
    rewrite E. by rewrite <-app_assoc. }
  pose proof (linked_from _ _ _ _ _ _ _ Hl E') as Hfrom.
  assert (∀ q, q ∈ chains lv → ∃ e, holds sl q e) as Hin.
  { intros q Hq. apply holds_in. eapply elem_of_sublist; [exact Hq|apply chains_sub]. }
  destruct y as [|q y]; cbn [app linked] in Hfrom.
  - split; [|split].
    + unfold pred_at. destruct x as [|z x]; cbn in E.
      * injection E as <- ->. done.
      * injection E as <- ->. by rewrite last_last.
    + unfold succ_at. by destruct (high (chains lv)); cbn in *; [|destruct Hfrom].
    + unfold succ_at. destruct (high (chains lv)) as [|q a] eqn:Ea; [done|]. cbn [head].
      assert (q ∈ high (chains lv)) as [Hq Hb]%high_after by (rewrite Ea; apply list_elem_of_here).
      destruct (Hin q Hq) as [e He]. by rewrite (goes_before_ptr _ _ He), Hb.
  - destruct Hfrom as [Hf _]. split; [done|].
    assert (q ∈ low (chains lv)) as [Hq Hb]%low_before.
    { destruct x as [|z x]; cbn in E; injection E as <- ->; [apply list_elem_of_here|].
      apply elem_of_app. right. right. apply list_elem_of_here. }
    destruct (Hin q Hq) as [e He]. rewrite (goes_before_ptr _ _ He), Hb. split; [done|].
    exists (x ++ [cur]). by rewrite <-app_assoc.
Qed.

(** Going down a level keeps the place. *)
Lemma way_down lv : ∃ y, on_way lv (pred_at (S lv)) y.
Proof.
  assert (low (chains (S lv)) `sublist_of` low (chains lv)) as Hsub.
  { apply filter_sublist, (sh_sub _ _ _ _ Hsh). }
  unfold on_way, pred_at. destruct (low (chains (S lv))) as [|z b _] using rev_ind.
  - exists (low (chains lv)), []. done.
  - rewrite last_last. 
    assert (z ∈ low (chains lv)) as Hz
      by (eapply elem_of_sublist; [|exact Hsub]; apply elem_of_app; right; apply list_elem_of_here).
    apply list_elem_of_split in Hz as (b1 & b2 & ->). by exists b2, (sl_head sl :: b1).
Qed.

Lemma way_start lv : on_way lv (sl_head sl) (low (chains lv)).
Proof. by exists []. Qed.

Lemma way_length lv cur y : on_way lv cur y → (length y ≤ length l)%nat.
Proof.
  intros [x E]. apply (f_equal length) in E. cbn in E. rewrite length_app in E. cbn in E.
  pose proof (sublist_length _ _ (chains_sub lv)). pose proof (length_filter (λ p, before_ptr p = true) (chains lv)).
  rewrite (Forall2_length _ _ _ (sh_nodes _ _ _ _ Hsh)) in *. unfold low in E. lia.
Qed.

Lemma predecessors_loop_spec fuel level cur y prev following :
  (level < MAX_HEIGHT)%nat → on_way level cur y →
  (level * search_fuel sl + length y < fuel)%nat →
  length prev = MAX_HEIGHT → length following = MAX_HEIGHT →
  ∃ prev' following',
    predecessors_loop fuel sl key seqno level cur prev following = Ok (prev', following') ∧
    length prev' = MAX_HEIGHT ∧ length following' = MAX_HEIGHT ∧
    ∀ lv, (if decide (lv ≤ level)%nat
           then prev' !! lv = Some (pred_at lv) ∧ following' !! lv = Some (succ_at lv)
           else prev' !! lv = prev !! lv ∧ following' !! lv = following !! lv).
Proof.
  revert level cur y prev following.
  induction fuel as [|fuel IH]; intros level cur y prev following Hlv Hway Hfuel Hp Hf; [lia|].
  cbn [predecessors_loop]. pose proof (way_step level cur y Hlv Hway) as Hstep.
  destruct y as [|q y].
  - destruct Hstep as (-> & Hfwd & Hgo). rewrite (load_forward_fwd _ _ _ _ Hfwd). cbn [mbind outcome_bind].
    rewrite Hgo. cbn [mbind outcome_bind]. cbn [length] in Hfuel.
    assert (∀ lv : nat, lv ≠ level → <[level:=pred_at level]> prev !! lv = prev !! lv ∧
      <[level:=succ_at level]> following !! lv = following !! lv) as Hne
      by (intros lv Hlvne; by rewrite !list_lookup_insert_ne).
    destruct level as [|level].
    + eexists _, _. split; [done|]. rewrite !length_insert. split_and!; [done|done|].
      intros lv. case_decide; [|apply Hne; lia]. replace lv with 0%nat by lia.
      rewrite !list_lookup_insert_eq by lia. done.
    + destruct (way_down level) as [y Hy].
      destruct (IH level (pred_at (S level)) y (<[S level:=pred_at (S level)]> prev)
        (<[S level:=succ_at (S level)]> following)) as (prev' & following' & E & H1 & H2 & H3);
        [lia|done| |by rewrite length_insert..|].
      { pose proof (way_length _ _ _ Hy). pose proof (sh_len _ _ _ _ Hsh). cbn [Nat.mul] in Hfuel. lia. }
      exists prev', following'. split_and!; [done..|]. intros lv. specialize (H3 lv).
      destruct (decide (lv ≤ level)%nat); [rewrite decide_True by lia; done|].
      destruct (decide (lv ≤ S level)%nat); destruct H3 as [-> ->]; [|apply Hne; lia].
      replace lv with (S level) by lia. rewrite !list_lookup_insert_eq by lia. done.
  - destruct Hstep as (Hfwd & Hgo & Hway'). rewrite (load_forward_fwd _ _ _ _ Hfwd). cbn [mbind outcome_bind].
    rewrite Hgo. cbn [mbind outcome_bind]. apply (IH level q y); try done. cbn [length] in Hfuel. lia.
Qed.

Lemma walk_level_spec fuel lv cur y :
  (lv < MAX_HEIGHT)%nat → on_way lv cur y → (length y < fuel)%nat →
  walk_level fuel sl key seqno lv cur = Ok (pred_at lv).
Proof.
  revert cur y. induction fuel as [|fuel IH]; intros cur y Hlv Hway Hfuel; [lia|]. cbn [walk_level].
  pose proof (way_step lv cur y Hlv Hway) as Hstep. destruct y as [|q y].
  - destruct Hstep as (-> & Hfwd & Hgo). rewrite (load_forward_fwd _ _ _ _ Hfwd). cbn [mbind outcome_bind].
    by rewrite Hgo.
  - destruct Hstep as (Hfwd & Hgo & Hway'). rewrite (load_forward_fwd _ _ _ _ Hfwd). cbn [mbind outcome_bind].
    rewrite Hgo. cbn [mbind outcome_bind]. apply (IH q y); try done. cbn [length] in Hfuel. lia.
Qed.

Lemma walk_down_spec level cur y :
  (S level ≤ MAX_HEIGHT)%nat → on_way level cur y → walk_down (S level) sl key seqno cur = Ok (pred_at 0).
Proof.
  revert cur y. induction level as [|level IH]; intros cur y Hlv Hway; cbn [walk_down];
    pose proof (way_length _ _ _ Hway); pose proof (sh_len _ _ _ _ Hsh);
    rewrite (walk_level_spec _ _ _ y) by (lia || done); cbn [mbind outcome_bind]; [done|].
  destruct (way_down level) as [y' Hy]. apply (IH _ y'); [lia|done].
Qed.

Lemma get_search_spec : get_search sl key seqno = Ok (pred_at 0).
Proof.
  unfold get_search. pose proof (sh_max _ _ _ _ Hsh) as Hm. destruct (sl_max_height sl) as [|level]; [lia|].
  apply (walk_down_spec level _ (low (chains level))); [lia|apply way_start].
Qed.

(** The entries around the target. *)
Lemma entries_split :
  ∃ l1 l2, l = l1 ++ l2 ∧ Forall2 (holds sl) (low ps) l1 ∧ Forall2 (holds sl) (high ps) l2 ∧
    Forall (λ e, entry_before key seqno e = true) l1 ∧ Forall (λ e, entry_before key seqno e = false) l2.
Proof.
  pose proof (sh_nodes _ _ _ _ Hsh) as Hn. rewrite sorted_split in Hn.
  apply Forall2_app_inv_l in Hn as (l1 & l2 & H1 & H2 & ->). exists l1, l2. split_and!; try done.
  - apply Forall_forall. intros e [i Hi]%list_elem_of_lookup.
    destruct (Forall2_lookup_r _ _ _ _ _ H1 Hi) as (p & Hp & He). rewrite <-(before_holds _ _ He).
    apply list_elem_of_lookup_2 in Hp. by apply low_before in Hp as [_ ?].
  - apply Forall_forall. intros e [i Hi]%list_elem_of_lookup.
    destruct (Forall2_lookup_r _ _ _ _ _ H2 Hi) as (p & Hp & He). rewrite <-(before_holds _ _ He).
    apply list_elem_of_lookup_2 in Hp. by apply high_after in Hp as [_ ?].
Qed.

Lemma holds_entry p e n : holds sl p e → sl_nodes sl !! p = Some n → node_entry n = Ok e.
Proof.
  intros (n' & Hn' & Hk & Hv & Hs & Ho & _) Hn. rewrite Hn in Hn'. injection Hn' as <-.
  unfold node_entry, node_op. rewrite Ho. destruct e as [k v s []]; cbn in *; by subst.
Qed.

(** The first entry that is not before the target decides. *)
Definition first_at (l2 : list MemEntry) : option MemEntry :=
  match l2 with
  | e :: _ => if mem_visible key seqno e then Some e else None
  | [] => None
  end.

Lemma get_candidate_spec l1 l2 :
  l = l1 ++ l2 → Forall2 (holds sl) (low ps) l1 → Forall2 (holds sl) (high ps) l2 →
  get_candidate sl key seqno (pred_at 0) = Ok (first_at l2).
Proof.
  intros _ _ H2. unfold get_candidate.
  destruct (way_step 0 (pred_at 0) []) as (_ & Hfwd & _).
  { unfold MAX_HEIGHT. lia. }
  { unfold on_way, pred_at. destruct (low (chains 0)) as [|z b _] using rev_ind; [by exists []|].
    rewrite last_last. by exists (sl_head sl :: b). }
  rewrite (load_forward_fwd _ _ _ _ Hfwd). cbn [mbind outcome_bind]. unfold succ_at.
  rewrite (sh_base _ _ _ _ Hsh). destruct H2 as [|p e ps2 l2' Hp H2]; [done|]. cbn [head first_at].
  destruct Hp as (n & Hn & Hp). pose proof (holds_entry p e n ltac:(by exists n) Hn) as He.
  unfold load_node. rewrite Hn. cbn [expect mbind outcome_bind]. destruct Hp as (-> & _ & -> & _).
  unfold mem_visible. destruct (_ && _); [|done]. by rewrite He.
Qed.
End Search.

(** ** Lookups *)

Lemma before_not_visible key snapshot e :
  entry_before key snapshot e = true → mem_visible key snapshot e = false.
Proof.
  unfold entry_before, mem_visible, compare_internal_key. intros Hb.
  destruct (bytes_eqb (me_key e) key) eqn:E; [|done]. apply bytes_eqb_eq in E. rewrite E, bytes_cmp_refl in Hb.
  destruct (Z.compare_spec snapshot (me_seqno e)); try done. by apply Z.leb_gt.
Qed.

(** In a sorted list the first candidate is the newest visible version. *)
Lemma first_at_get key snapshot l1 l2 :
  StronglySorted entry_le (l1 ++ l2) →
  Forall (λ e, entry_before key snapshot e = true) l1 →
  Forall (λ e, entry_before key snapshot e = false) l2 →
  first_at key snapshot l2 = mem_get (l1 ++ l2) key snapshot.
Proof.
  intros Hs H1 H2. unfold mem_get. induction H1 as [|e l1 He _ IH]; cbn [app List.find].
  - destruct l2 as [|e l2]; [done|]. cbn [first_at List.find].
    destruct (mem_visible key snapshot e) eqn:Hv; [done|].
    destruct (List.find _ l2) as [y|] eqn:Hf; [|done]. exfalso.
    apply find_some in Hf as [Hy%list_elem_of_In Hvy].
    inversion Hs as [|? ? _ Hall]; subst. rewrite Forall_forall in Hall. pose proof (Hall y Hy) as Hle.
    inversion H2 as [|? ? He _]; subst. unfold mem_visible in Hv, Hvy.
    apply andb_true_iff in Hvy as [Hk%bytes_eqb_eq Hsn%Z.leb_le].
    assert (ikey_le key snapshot (me_key e) (me_seqno e)) as Hge.
    { apply cik_ge. unfold entry_before in He. by destruct (compare_internal_key _ _ _ _). }
    unfold entry_le in Hle. rewrite Hk in Hle.
    assert (me_key e = key) as Ek.
    { pose proof (ikey_le_key _ _ _ _ Hge) as K1. pose proof (ikey_le_key _ _ _ _ Hle) as K2.
      revert K1 K2. unfold bytes_leb. rewrite (bytes_cmp_antisym key (me_key e)).
      destruct (bytes_cmp key (me_key e)) eqn:C; cbn; try done. by apply bytes_cmp_eq in C. }
    rewrite Ek in *. apply ikey_le_same in Hge. rewrite (proj2 (bytes_eqb_eq _ _)) in Hv by done.
    apply Z.leb_gt in Hv. lia.
  - rewrite before_not_visible by done. apply IH. by inversion Hs.
Qed.

(** [get] answers with the newest visible version. *)
Lemma skiplist_get_spec sl ps l chains key snapshot :
  sl_shape sl ps l chains → skiplist_get sl key snapshot = Ok (mem_get l key snapshot).
Proof.
  intros Hsh. unfold skiplist_get. rewrite (get_search_spec _ _ _ _ Hsh). cbn [mbind outcome_bind].
  destruct (entries_split _ _ _ _ Hsh key snapshot) as (l1 & l2 & E & H1 & H2 & Hb & Ha).
  rewrite (get_candidate_spec _ _ _ _ Hsh _ _ l1 l2) by done. f_equal.
  pose proof (sh_sorted _ _ _ _ Hsh) as Hs. rewrite E in *. by apply first_at_get.
Qed.

(** ** Iteration *)

Lemma iter_linked sl p qs es fuel v :
  linked sl 0 p qs → Forall2 (holds sl) qs es → (length es < fuel)%nat → fwd sl p 0 = Some v →
  iter_entries fuel sl v = Ok es.
Proof.
  intros Hl Hes. revert p fuel v Hl.
  induction Hes as [|q e qs es Hq _ IH]; intros p fuel v Hl Hfuel Hv; (destruct fuel as [|fuel]; [lia|]).
  - cbn in Hl. rewrite Hl in Hv. by injection Hv as <-.
  - destruct Hl as [Hf Hl]. rewrite Hf in Hv. injection Hv as <-. cbn [iter_entries].
    pose proof Hq as (n & Hn & _). unfold load_node. rewrite Hn. cbn [expect mbind outcome_bind].
    rewrite (holds_entry _ _ _ _ Hq Hn). cbn [mbind outcome_bind].
    assert (∃ v, fwd sl q 0 = Some v) as [v Hfq] by (destruct qs; [|destruct Hl]; eauto).
    rewrite (load_forward_fwd _ _ _ _ Hfq). cbn [mbind outcome_bind].
    rewrite (IH q fuel v) by (done || cbn in Hfuel; lia). done.
Qed.

Lemma skiplist_entries_spec sl ps l chains :
  sl_shape sl ps l chains → skiplist_entries sl = Ok l.
Proof.
  intros Hsh. unfold skiplist_entries.
  pose proof (sh_linked _ _ _ _ Hsh 0%nat ltac:(unfold MAX_HEIGHT; lia)) as Hl. rewrite (sh_base _ _ _ _ Hsh) in Hl.
  assert (∃ v, fwd sl (sl_head sl) 0 = Some v) as [v Hv] by (destruct ps; [|destruct Hl]; eauto).
  rewrite (load_forward_fwd _ _ _ _ Hv). cbn [mbind outcome_bind].
  eapply iter_linked; [done|apply Hsh|apply Hsh|done].
Qed.

(** * Insertion *)

(** Two states whose nodes differ only in what their forward slots hold. *)
Definition node_frame (n : Node) : nat * Z * Z * nat * bytes * bytes :=
  (nd_height n, nd_op_type n, nd_seqno n, length (nd_forward n), nd_key n, nd_value n).

Record same_frame (sl sl' : SkipList) : Prop := {
  sf_head : sl_head sl' = sl_head sl;
  sf_max : sl_max_height sl' = sl_max_height sl;
  sf_len : sl_len sl' = sl_len sl;
  sf_arena : sl_arena sl' = sl_arena sl;
  sf_nodes : ∀ p, node_frame <$> sl_nodes sl' !! p = node_frame <$> sl_nodes sl !! p
}.

Lemma same_frame_refl sl : same_frame sl sl.
Proof. by split. Qed.

Lemma same_frame_trans sl1 sl2 sl3 : same_frame sl1 sl2 → same_frame sl2 sl3 → same_frame sl1 sl3.
Proof. intros [] []. split; intros; congruence. Qed.

Lemma holds_frame sl sl' p e : same_frame sl sl' → holds sl p e → holds sl' p e.
Proof.
  intros Hf (n & Hn & Hk & Hv & Hs & Ho & Hl). pose proof (sf_nodes _ _ Hf p) as E. rewrite Hn in E.
  destruct (sl_nodes sl' !! p) as [n'|] eqn:Hn'; [|done]. injection E as E1 E2 E3 E4 E5 E6.
  exists n'. split_and!; congruence.
Qed.

Lemma height_frame sl sl' p : same_frame sl sl' → height_at sl' p = height_at sl p.
Proof.
  intros Hf. unfold height_at. pose proof (sf_nodes _ _ Hf p) as E.
  destruct (sl_nodes sl' !! p), (sl_nodes sl !! p); simplify_eq/=; congruence.
Qed.

Lemma store_forward_ok sl p i v old :
  fwd sl p i = Some old →
  ∃ sl', store_forward p i v sl = (Ok tt, sl') ∧ same_frame sl sl' ∧
    ∀ q lv, fwd sl' q lv = if decide (q = p ∧ lv = i) then Some v else fwd sl q lv.
Proof.
  unfold fwd, store_forward. destruct (sl_nodes sl !! p) as [n|] eqn:Hn; cbn [mbind option_bind]; [|done]. intros Hi.
  apply lookup_lt_Some in Hi as Hlt. rewrite (proj2 (Nat.ltb_lt _ _)) by done. eexists. split; [done|]. split.
  - split; cbn; try done. intros q. destruct (decide (q = p)) as [->|Hne].
    + rewrite lookup_insert_eq, Hn. unfold node_frame. cbn. by rewrite length_insert.
    + by rewrite lookup_insert_ne.
  - intros q lv. cbn. destruct (decide (q = p)) as [->|Hne].
    + rewrite lookup_insert_eq, Hn. cbn. case_decide as E.
      * destruct E as [_ ->]. by rewrite list_lookup_insert_eq.
      * rewrite list_lookup_insert_ne by (intros ->; by apply E). done.
    + rewrite lookup_insert_ne by done. rewrite decide_False by (by intros [? _]). done.
Qed.

Lemma linked_ext sl sl' lv p qs :
  (∀ q, q ∈ p :: qs → fwd sl' q lv = fwd sl q lv) → linked sl lv p qs → linked sl' lv p qs.
Proof.
  revert p. induction qs as [|q qs IH]; intros p Hext; cbn [linked].
  - rewrite Hext by left. done.
  - rewrite Hext by left. intros [Hf Hl]. split; [done|]. apply IH; [|done]. intros z Hz. apply Hext. by right.
Qed.

Lemma last_cons_default {A} (x : A) b d : List.last (x :: b) d = List.last b x.
Proof.
  revert x d. induction b as [|y b IH]; intros x d; [done|].
  change (List.last (y :: b) d = List.last (y :: b) x). by rewrite !IH.
Qed.

Lemma last_default_in {A} (b : list A) d : List.last b d ∈ d :: b.
Proof.
  revert d. induction b as [|x b IH]; intros d; [left|]. rewrite last_cons_default. right. apply IH.
Qed.

(** Linking [new] between [b] and [a] on one level. *)
Lemma linked_insert sl sl' lv h b a new :
  linked sl lv h (b ++ a) → NoDup (h :: b ++ a) → new ∉ h :: b ++ a →
  (∀ q, q ≠ List.last b h → q ≠ new → fwd sl' q lv = fwd sl q lv) →
  fwd sl' new lv = Some (head a) → fwd sl' (List.last b h) lv = Some (Some new) →
  linked sl' lv h (b ++ new :: a).
Proof.
  revert h. induction b as [|x b IH]; intros h Hl Hnd Hnew Hext Hn Hp; cbn [app] in *.
  - cbn [List.last] in *. cbn [linked]. split; [done|]. destruct a as [|q a]; [done|]. split; [done|].
    destruct Hl as [_ Hl]. eapply linked_ext; [|exact Hl]. apply NoDup_cons in Hnd as [Hh _].
    intros z Hz. apply Hext; intros ->; [done|]. apply Hnew. by right.
  - destruct Hl as [Hf Hl]. apply NoDup_cons in Hnd as [Hh Hnd].
    rewrite last_cons_default in *. cbn [linked]. split.
    + rewrite Hext; [done| |].
      * intros ->. apply Hh. pose proof (last_default_in b x) as Hin.
        apply elem_of_cons in Hin as [E|Hin]; [rewrite E; left|].
        right. apply elem_of_app. by left.
      * intros ->. apply Hnew. left.
    + apply IH; try done. intros Hin. apply Hnew. by right.
Qed.

(** ** The abstract insertion *)

Lemma mem_insert_split e l1 l2 :
  Forall (λ x, entry_before (me_key e) (me_seqno e) x = true) l1 →
  Forall (λ x, entry_before (me_key e) (me_seqno e) x = false) l2 →
  mem_insert e (l1 ++ l2) = l1 ++ e :: l2.
Proof.
  intros H1 H2. induction H1 as [|x l1 Hx _ IH]; cbn [app mem_insert].
  - destruct H2 as [|x l2 Hx _]; cbn [mem_insert]; [done|]. by rewrite Hx.
  - rewrite Hx. by f_equal.
Qed.

Lemma entry_before_le e x :
  if entry_before (me_key e) (me_seqno e) x then entry_le x e else entry_le e x.
Proof.
  unfold entry_before, entry_le.
  destruct (compare_internal_key (me_key x) (me_seqno x) (me_key e) (me_seqno e)) eqn:E;
    [apply cik_ge|unfold ikey_le|apply cik_ge]; by rewrite E.
Qed.

Lemma entry_le_trans x y z : entry_le x y → entry_le y z → entry_le x z.
Proof. apply ikey_le_trans. Qed.

Lemma mem_insert_elem e l x : x ∈ mem_insert e l ↔ x = e ∨ x ∈ l.
Proof.
  induction l as [|y l IH]; cbn [mem_insert]; [rewrite elem_of_cons; tauto|].
  destruct (entry_before _ _ y); rewrite ?elem_of_cons, ?IH; tauto.
Qed.

Lemma mem_insert_perm e l : mem_insert e l ≡ₚ e :: l.
Proof.
  induction l as [|x l IH]; [done|]. cbn [mem_insert]. destruct (entry_before _ _ x); [|done].
  rewrite IH. apply perm_swap.
Qed.

Lemma mem_insert_sorted e l : StronglySorted entry_le l → StronglySorted entry_le (mem_insert e l).
Proof.
  induction 1 as [|x l Hs IH Hall]; cbn [mem_insert]; [repeat constructor|].
  pose proof (entry_before_le e x) as Hx. destruct (entry_before (me_key e) (me_seqno e) x).
  - constructor; [done|]. apply Forall_forall. intros y [->|Hy]%mem_insert_elem; [done|].
    rewrite Forall_forall in Hall. auto.
  - constructor; [by constructor|]. constructor; [done|].
    eapply Forall_impl; [exact Hall|]. intros y Hy. by eapply entry_le_trans.
Qed.

Lemma length_mem_insert e l : length (mem_insert e l) = S (length l).
Proof. induction l as [|x l IH]; cbn [mem_insert]; [done|]. destruct (entry_before _ _ x); cbn; lia. Qed.

(** ** Linking *)

Lemma run_stores_app node prev following a b sl :
  run_stores node prev following (a ++ b) sl =
  (_ ← run_stores node prev following a; run_stores node prev following b) sl.
Proof.
  revert sl. induction a as [|x a IH]; intros sl; [done|]. cbn [app run_stores]. unfold mbind, st_bind in *.
  destruct (run_store node prev following x sl) as [[[]| | |] sl']; done || apply IH.
Qed.

(** The loop is the sequence of its stores. *)
Lemma link_levels_stores node prev following levels sl :
  link_levels node prev following levels sl = run_stores node prev following (levels ≫= level_stores) sl.
Proof.
  revert sl. induction levels as [|level levels IH]; intros sl; [done|].
  change ((level :: levels) ≫= level_stores) with (level_stores level ++ (levels ≫= level_stores)).
  rewrite run_stores_app. cbn [link_levels]. unfold link_level, mbind, st_bind in *.
  destruct (run_stores node prev following (level_stores level) sl) as [[[]| | |] sl']; done || apply IH.
Qed.

Lemma length_level_stores levels : length (levels ≫= level_stores) = (2 * length levels)%nat.
Proof. induction levels as [|level levels IH]; [done|]. cbn in *. lia. Qed.

Section Link.
Context (sl0 : SkipList) (ps : list Ptr) (l : list MemEntry) (chains : nat → list Ptr).
Context (Hsh : sl_shape sl0 ps l chains) (Hlen : (S (length l) < search_fuel sl0)%nat).
Context (e : MemEntry) (new : Ptr) (height : nat) (prev : list Ptr) (following : list (option Ptr)).
Context (Hfresh : new ∉ sl_head sl0 :: ps) (Hholds : holds sl0 new e)
  (Hheight : (1 ≤ height ≤ MAX_HEIGHT)%nat)
  (Hslots : ∀ lv, (lv < height)%nat → is_Some (fwd sl0 new lv)).

Let b (lv : nat) : list Ptr := low sl0 (me_key e) (me_seqno e) (chains lv).
Let a (lv : nat) : list Ptr := high sl0 (me_key e) (me_seqno e) (chains lv).

Context (Hprev : ∀ lv, (lv < height)%nat →
  prev !! lv = Some (pred_at sl0 chains (me_key e) (me_seqno e) lv) ∧
  following !! lv = Some (succ_at sl0 chains (me_key e) (me_seqno e) lv)).

(** The chains when the levels below [k] are linked. *)
Definition linked_chain (k lv : nat) : list Ptr :=
  if decide (lv < k)%nat then b lv ++ new :: a lv else chains lv.

Record linked_upto (k : nat) (sl : SkipList) : Prop := {
  lu_frame : same_frame sl0 sl;
  lu_linked : ∀ lv, (lv < MAX_HEIGHT)%nat → linked sl lv (sl_head sl0) (linked_chain k lv)
}.

Lemma chain_eq lv : chains lv = b lv ++ a lv.
Proof. apply (chain_split _ _ _ _ Hsh). Qed.

Lemma slot_frame sl p lv : same_frame sl0 sl → is_Some (fwd sl0 p lv) → is_Some (fwd sl p lv).
Proof.
  intros Hf. unfold fwd. pose proof (sf_nodes _ _ Hf p) as E.
  destruct (sl_nodes sl0 !! p) as [n0|], (sl_nodes sl !! p) as [n|]; cbn; intros [v Hv]; try done.
  apply lookup_lt_is_Some_2. apply lookup_lt_Some in Hv. injection E as _ _ _ El _ _. lia.
Qed.

Lemma chain_nodup lv : NoDup (sl_head sl0 :: chains lv) ∧ new ∉ sl_head sl0 :: chains lv.
Proof.
  pose proof (chains_sub _ _ _ _ Hsh lv) as Hsub. split.
  - eapply sublist_NoDup; [apply (sh_nodup _ _ _ _ Hsh)|by apply sublist_skip].
  - intros Hin. apply Hfresh. eapply elem_of_sublist; [exact Hin|by apply sublist_skip].
Qed.

Lemma pred_slot sl lv :
  linked sl lv (sl_head sl0) (chains lv) →
  is_Some (fwd sl (pred_at sl0 chains (me_key e) (me_seqno e) lv) lv).
Proof.
  intros Hl. unfold pred_at. rewrite chain_eq in Hl. unfold b in Hl.
  destruct (low sl0 _ _ (chains lv)) as [|z c _] using rev_ind; cbn [List.last].
  - destruct (a lv); cbn in Hl; [|destruct Hl as [Hl _]]; rewrite Hl; done.
  - rewrite last_last. rewrite <-app_assoc in Hl. cbn [app] in Hl. apply linked_suffix in Hl.
    destruct (a lv); cbn in Hl; [|destruct Hl as [Hl _]]; rewrite Hl; done.
Qed.

Lemma pred_not_new k : pred_at sl0 chains (me_key e) (me_seqno e) k ≠ new.
Proof.
  assert (pred_at sl0 chains (me_key e) (me_seqno e) k ∈ sl_head sl0 :: b k) as Hpin by apply last_default_in.
  destruct (chain_nodup k) as [_ Hnew]. rewrite chain_eq in Hnew.
  intros E. apply Hnew. rewrite <-E. apply elem_of_cons in Hpin as [->|Hin]; [left|right].
  apply elem_of_app. by left.
Qed.

(** Setting the new node's own pointer changes nothing a reader reaches. *)
Lemma set_forward_ok k sl :
  (k < height)%nat → linked_upto k sl →
  ∃ sl', run_store new prev following (SetForward k) sl = (Ok tt, sl') ∧ linked_upto k sl' ∧
    fwd sl' new k = Some (succ_at sl0 chains (me_key e) (me_seqno e) k).
Proof.
  intros Hk [Hf Hl]. destruct (Hprev k Hk) as [_ Hs]. cbn [run_store].
  rewrite Hs. cbn [expect]. rewrite (run_lift _ _ _ _ eq_refl).
  destruct (slot_frame sl new k Hf (Hslots k Hk)) as [v1 Hv1].
  destruct (store_forward_ok sl new k (succ_at sl0 chains (me_key e) (me_seqno e) k) v1 Hv1)
    as (sl1 & E1 & Hf1 & Hfwd1).
  exists sl1. split; [done|]. split; [|by rewrite Hfwd1, decide_True].
  split; [by eapply same_frame_trans|]. intros lv Hlv. pose proof (Hl lv Hlv) as Hll.
  destruct (decide (lv = k)) as [->|Hne].
  - eapply linked_ext; [|exact Hll]. intros q Hq. rewrite Hfwd1, decide_False; [done|]. intros [-> _].
    unfold linked_chain in Hq. rewrite decide_False in Hq by lia. by destruct (chain_nodup k) as [_ []].
  - eapply linked_ext; [|exact Hll]. intros q _. rewrite Hfwd1, decide_False; [done|]. by intros [_ ->].
Qed.

(** Storing it in the predecessor then links the level. *)
Lemma publish_ok k sl :
  (k < height)%nat → linked_upto k sl → fwd sl new k = Some (succ_at sl0 chains (me_key e) (me_seqno e) k) →
  ∃ sl', run_store new prev following (Publish k) sl = (Ok tt, sl') ∧ linked_upto (S k) sl'.
Proof.
  intros Hk [Hf Hl] Hset. destruct (Hprev k Hk) as [Hp _]. cbn [run_store].
  rewrite Hp. cbn [expect]. rewrite (run_lift _ _ _ _ eq_refl). pose proof (pred_not_new k) as Hpn.
  pose proof (Hl k ltac:(lia)) as Hlk. unfold linked_chain in Hlk. rewrite decide_False in Hlk by lia.
  destruct (pred_slot sl k Hlk) as [v2 Hv2].
  set (p := pred_at sl0 chains (me_key e) (me_seqno e) k) in *.
  destruct (chain_nodup k) as [Hnd Hnew]. rewrite chain_eq in Hnd, Hnew, Hlk.
  destruct (store_forward_ok sl p k (Some new) v2 Hv2) as (sl2 & E2 & Hf2 & Hfwd2).
  exists sl2. split; [done|]. split; [by eapply same_frame_trans|].
  assert (∀ q lv, (q, lv) ≠ (p, k) → fwd sl2 q lv = fwd sl q lv) as Hother.
  { intros q lv Hn2. by rewrite Hfwd2, decide_False by (intros [-> ->]; done). }
  intros lv Hlv. unfold linked_chain. destruct (decide (lv = k)) as [->|Hne].
  - rewrite decide_True by lia. apply (linked_insert sl); try done.
    + intros q Hq1 Hq2. apply Hother. intros [= E]. by apply Hq1.
    + rewrite Hother; [done|]. by intros [= ->].
    + by rewrite Hfwd2, decide_True.
  - pose proof (Hl lv Hlv) as Hll. unfold linked_chain in Hll.
    destruct (decide (lv < k)%nat); [rewrite decide_True by lia|rewrite decide_False by lia];
      (eapply linked_ext; [|exact Hll]); intros q _; apply Hother; congruence.
Qed.

(** Every prefix of the stores runs, and two stores link one level. *)
Lemma run_stores_ok j n k sl :
  (k + n ≤ height)%nat → linked_upto k sl →
  ∃ sl', run_stores new prev following (take j (seq k n ≫= level_stores)) sl = (Ok tt, sl') ∧
    linked_upto (k + n `min` Nat.div2 j) sl'.
Proof.
  revert j k sl. induction n as [|n IH]; intros j k sl Hk Hl.
  { exists sl. cbn. rewrite take_nil, Nat.add_0_r. done. }
  cbn [seq]. unfold level_stores at 1. cbn [mbind list_bind app].
  destruct j as [|j]; [exists sl; cbn; by rewrite Nat.add_0_r|]. cbn [take run_stores].
  destruct (set_forward_ok k sl ltac:(lia) Hl) as (sl1 & E1 & Hl1 & Hset). rewrite (run_bind _ _ _ _ _ E1).
  destruct j as [|j]; [exists sl1; cbn; by rewrite Nat.add_0_r|]. cbn [take run_stores Nat.div2].
  destruct (publish_ok k sl1 ltac:(lia) Hl1 Hset) as (sl2 & E2 & Hl2). rewrite (run_bind _ _ _ _ _ E2).
  destruct (IH j (S k) sl2 ltac:(lia) Hl2) as (sl3 & E3 & Hl3). exists sl3. split; [done|].
  by rewrite <-Nat.succ_min_distr, <-Nat.add_succ_comm.
Qed.

(** From the first link on readers see the new entry, before it nothing. *)
Lemma linked_upto_shape k sl :
  linked_upto (S k) sl →
  sl_shape sl (b 0 ++ new :: a 0) (mem_insert e l) (linked_chain (S k)).
Proof.
  intros [Hf Hl]. destruct (entries_split _ _ _ _ Hsh (me_key e) (me_seqno e)) as (l1 & l2 & El & H1 & H2 & Hb & Ha).
  assert (mem_insert e l = l1 ++ e :: l2) as Ei by (rewrite El; by apply mem_insert_split). pose proof (sh_base _ _ _ _ Hsh) as Hbase.
  pose proof (chain_eq 0) as E0. split.
  - rewrite Ei. unfold b, a. rewrite Hbase. apply Forall2_app; [|constructor].
    + eapply Forall2_impl; [exact H1|]. intros. by eapply holds_frame.
    + by eapply holds_frame.
    + eapply Forall2_impl; [exact H2|]. intros. by eapply holds_frame.
  - rewrite (sf_head _ _ Hf). destruct (chain_nodup 0) as [Hnd Hnew]. rewrite E0 in Hnd, Hnew.
    apply NoDup_cons in Hnd as [Hh Hnd]. apply NoDup_cons. split.
    + intros [Hin|[Hin|Hin]%elem_of_cons]%elem_of_app; [by apply Hh, elem_of_app; left| |by apply Hh, elem_of_app; right].
      apply Hnew. rewrite Hin. left.
    + rewrite <-Permutation_middle. apply NoDup_cons. split; [|done]. intros Hin. apply Hnew. by right.
  - rewrite (sf_head _ _ Hf). exact Hl.
  - unfold linked_chain. by rewrite decide_True by lia.
  - intros lv. unfold linked_chain. pose proof (sh_sub _ _ _ _ Hsh lv) as Hsub.
    destruct (decide (S lv < S k)%nat); [rewrite decide_True by lia|].
    + apply sublist_app; [|apply sublist_skip]; by apply filter_sublist.
    + case_decide; [|done]. etrans; [exact Hsub|]. rewrite chain_eq. apply sublist_app; [done|]. by apply sublist_cons.
  - rewrite (sf_max _ _ Hf). apply Hsh.
  - apply mem_insert_sorted, Hsh.
  - rewrite length_mem_insert. unfold search_fuel. rewrite (sf_len _ _ Hf). exact Hlen.
Qed.

Lemma linked_upto_0 : linked_upto 0 sl0.
Proof.
  split; [apply same_frame_refl|]. intros lv Hlv. unfold linked_chain. rewrite decide_False by lia. by apply Hsh.
Qed.

Lemma linked_upto_0_shape sl : linked_upto 0 sl → sl_shape sl ps l chains.
Proof.
  intros [Hf Hl]. split; try apply Hsh.
  - eapply Forall2_impl; [apply Hsh|]. intros. by eapply holds_frame.
  - rewrite (sf_head _ _ Hf). apply Hsh.
  - rewrite (sf_head _ _ Hf). intros lv Hlv. specialize (Hl lv Hlv). unfold linked_chain in Hl.
    by rewrite decide_False in Hl by lia.
  - rewrite (sf_max _ _ Hf). apply Hsh.
  - unfold search_fuel. rewrite (sf_len _ _ Hf). apply Hsh.
Qed.
End Link.

(** ** The whole insertion *)

Lemma height_loop_range fuel h s :
  (1 ≤ h ≤ MAX_HEIGHT)%nat → (1 ≤ height_loop fuel h s ≤ MAX_HEIGHT)%nat.
Proof.
  revert h s. induction fuel as [|fuel IH]; intros h s Hh; cbn [height_loop]; [done|].
  destruct (Nat.ltb_spec h MAX_HEIGHT); cbn [andb]; [|done]. destruct (_ =? 0); [|done]. apply IH. lia.
Qed.

Lemma shape_ext_fuel sl sl' ps l chains :
  sl_shape sl ps l chains → sl_head sl' = sl_head sl → (length l < search_fuel sl')%nat →
  (1 ≤ sl_max_height sl' ≤ MAX_HEIGHT)%nat →
  (∀ p, p ∈ sl_head sl :: ps → sl_nodes sl' !! p = sl_nodes sl !! p) →
  sl_shape sl' ps l chains.
Proof.
  intros Hsh Hh Hl Hm Hn. split; try apply Hsh; try done.
  - apply Forall2_same_length_lookup_2; [by eapply Forall2_length, Hsh|].
    intros i p e Hp He. pose proof (Forall2_lookup_lr _ _ _ _ _ _ (sh_nodes _ _ _ _ Hsh) Hp He) as (n & Hn' & ?).
    exists n. split; [|done]. rewrite Hn; [done|]. right. by apply list_elem_of_lookup_2 in Hp.
  - rewrite Hh. apply Hsh.
  - rewrite Hh. intros lv Hlv. eapply linked_ext; [|by apply Hsh].
    intros q Hq. unfold fwd. rewrite Hn; [done|]. eapply elem_of_sublist; [exact Hq|].
    apply sublist_skip, (chains_sub _ _ _ _ Hsh).
Qed.

Lemma shape_ext sl sl' ps l chains :
  sl_shape sl ps l chains → sl_head sl' = sl_head sl → sl_len sl' = sl_len sl →
  (1 ≤ sl_max_height sl' ≤ MAX_HEIGHT)%nat →
  (∀ p, p ∈ sl_head sl :: ps → sl_nodes sl' !! p = sl_nodes sl !! p) →
  sl_shape sl' ps l chains.
Proof.
  intros Hsh Hh Hl. apply shape_ext_fuel; [done|done|]. unfold search_fuel. rewrite Hl. apply Hsh.
Qed.

(** The entry an insertion makes: a tombstone carries no value. *)
Definition entry_for (key value : bytes) (seqno : Z) (op : OpType) : MemEntry :=
  {| me_key := key; me_value := match op with NodePut => value | NodeTombstone => [] end;
     me_seqno := seqno; me_op := op |}.

Definition insert_fits (key value : bytes) : Prop := is_u32 (len key) ∧ is_u32 (len value).

(** A list ready for [e] to be linked in as the node [new]. *)
Record prepared (sl0 sl : SkipList) (ps : list Ptr) (l : list MemEntry) (e : MemEntry) (new : Ptr)
    (height : nat) (prev : list Ptr) (following : list (option Ptr)) : Prop := {
  pr_shape : sl_shape sl ps l (level_chain sl0 ps);
  pr_len : sl_len sl = len l;
  pr_fresh : new ∉ sl_head sl :: ps;
  pr_holds : holds sl new e;
  pr_height : (1 ≤ height ≤ MAX_HEIGHT)%nat;
  pr_slots : ∀ lv, (lv < height)%nat → is_Some (fwd sl new lv);
  pr_prev : ∀ lv, (lv < height)%nat →
    prev !! lv = Some (pred_at sl (level_chain sl0 ps) (me_key e) (me_seqno e) lv) ∧
    following !! lv = Some (succ_at sl (level_chain sl0 ps) (me_key e) (me_seqno e) lv);
  pr_heights : height_at sl new = height ∧ (∀ p, p ∈ ps → height_at sl p = height_at sl0 p);
  pr_max : (height ≤ sl_max_height sl)%nat ∧ Forall (λ p, height_at sl p ≤ sl_max_height sl)%nat ps;
  pr_arena : ∃ live, arena_inv (sl_arena sl) live ∧ Forall (λ r, 1 ≤ r.2) live ∧
    ∀ p n, sl_nodes sl !! p = Some n → p ∈ live.*1
}.

(** Allocating the node changes nothing a reader can reach. *)
Lemma allocate_node_ok sl ps l key value seqno op height :
  sl_rep sl ps l → insert_fits key value → (1 ≤ height ≤ MAX_HEIGHT)%nat →
  ∃ new sl', allocate_node key value seqno op height sl = (Ok new, sl') ∧
    (new ∉ sl_head sl :: ps) ∧ holds sl' new (entry_for key value seqno op) ∧
    (∀ lv, (lv < height)%nat → is_Some (fwd sl' new lv)) ∧ height_at sl' new = height ∧
    (∀ p, p ≠ new → sl_nodes sl' !! p = sl_nodes sl !! p) ∧
    sl_head sl' = sl_head sl ∧ sl_max_height sl' = sl_max_height sl ∧ sl_len sl' = sl_len sl ∧
    (∃ live, arena_inv (sl_arena sl') live ∧ Forall (λ r, 1 ≤ r.2) live ∧
      ∀ p n, sl_nodes sl' !! p = Some n → p ∈ live.*1).
Proof.
  intros Hrep [Hk Hv] Hh. destruct (sr_arena _ _ _ Hrep) as (live & Hinv & Hpos & Hdom).
  unfold allocate_node. set (val := match op with NodePut => value | NodeTombstone => [] end).
  assert (is_u32 (len val)) as Hval by (unfold val; destruct op; [done|unfold is_u32; cbn; lia]).
  set (total := _ + len val).
  assert (request_ok total 8) as Hreq.
  { unfold request_ok, total, NODE_HEADER_SIZE, PTR_SIZE, is_u32, MAX_HEIGHT in *. split_and!; [lia|lia|done|lia]. }
  destruct (allocate_ok total 8 (sl_arena sl) live Hinv Hreq) as (new & a & -> & Hinv' & _).
  rewrite (try_u32_ok _ Hk), (try_u32_ok _ Hval). eexists new, _. split; [done|].
  destruct (granted_bound total 8 Hreq) as (Hg & _ & _).
  pose proof (live_distinct _ _ _ _ Hinv' ltac:(lia) Hpos) as Hdist.
  assert (sl_nodes sl !! new = None) as Hnone.
  { destruct (sl_nodes sl !! new) as [n|] eqn:E; [|done]. apply Hdom in E.
    apply list_elem_of_fmap in E as (r & Er & Hr). rewrite Forall_forall in Hdist. by destruct (Hdist r Hr). }
  assert (∀ lv, (lv < MAX_HEIGHT)%nat → ∃ v, fwd sl (sl_head sl) lv = Some v) as Hhead.
  { intros lv Hlv. pose proof (sh_linked _ _ _ _ (sr_shape _ _ _ Hrep) lv Hlv) as Hl.
    destruct (level_chain sl ps lv); cbn in Hl; [|destruct Hl as [Hl _]]; eauto. }
  cbn [sl_nodes sl_head sl_max_height sl_len sl_arena]. split_and!; try done.
  - intros [E|Hin]%elem_of_cons.
    + subst new. destruct (Hhead 0%nat ltac:(unfold MAX_HEIGHT; lia)) as [v Hf]. unfold fwd in Hf. by rewrite Hnone in Hf.
    + destruct (holds_in _ _ _ _ (sr_shape _ _ _ Hrep) _ Hin) as (e & n & Hn & _). by rewrite Hnone in Hn.
  - eexists. cbn [sl_nodes]. split; [by rewrite lookup_insert_eq|]. cbn. rewrite length_replicate. done.
  - intros lv Hlv. unfold fwd. cbn [sl_nodes]. rewrite lookup_insert_eq. cbn [mbind option_bind nd_forward].
    by rewrite lookup_replicate_2.
  - unfold height_at. cbn [sl_nodes]. by rewrite lookup_insert_eq.
  - intros p Hp. by rewrite lookup_insert_ne.
  - exists ((new, granted total 8) :: live). split_and!; [done|constructor; [cbn; lia|done]|].
    intros p n [[<- _]|[Hne Hp]]%lookup_insert_Some; rewrite fmap_cons; [left|right; by eapply Hdom].
Qed.

Lemma find_predecessors_ok sl ps l chains key seqno :
  sl_shape sl ps l chains → (∀ lv, (sl_max_height sl ≤ lv)%nat → chains lv = []) →
  ∃ prev following,
    find_predecessors sl key seqno (replicate MAX_HEIGHT (sl_head sl)) (replicate MAX_HEIGHT None)
      = Ok (prev, following) ∧
    length prev = MAX_HEIGHT ∧ ∀ lv, (lv < MAX_HEIGHT)%nat →
      prev !! lv = Some (pred_at sl chains key seqno lv) ∧
      following !! lv = Some (succ_at sl chains key seqno lv).
Proof.
  intros Hsh Htop. unfold find_predecessors. pose proof (sh_max _ _ _ _ Hsh) as Hm.
  assert (∀ n, (n ≤ MAX_HEIGHT)%nat → take n (replicate MAX_HEIGHT (sl_head sl)) ++
    replicate (MAX_HEIGHT - n) (sl_head sl) = replicate MAX_HEIGHT (sl_head sl)) as Hrep.
  { intros n Hn. rewrite take_replicate, Nat.min_l, <-replicate_add by done. f_equal. lia. }
  rewrite Hrep by lia. destruct (sl_max_height sl) as [|level] eqn:Emax; [lia|].
  destruct (predecessors_loop_spec _ _ _ _ Hsh key seqno (MAX_HEIGHT * search_fuel sl) level (sl_head sl)
    (low sl key seqno (chains level)) (replicate MAX_HEIGHT (sl_head sl)) (replicate MAX_HEIGHT None))
    as (prev & following & E & Hp & Hf & Hlv); [lia|by apply way_start| |by rewrite length_replicate..|].
  { pose proof (way_length _ _ _ _ Hsh key seqno level _ _ (way_start sl chains key seqno level)).
    pose proof (sh_len _ _ _ _ Hsh). unfold MAX_HEIGHT in *. nia. }
  exists prev, following. split; [done|]. split; [done|]. intros lv Hl. specialize (Hlv lv).
  destruct (decide (lv ≤ level)%nat) as [|Hgt]; [done|]. destruct Hlv as [-> ->].
  unfold pred_at, succ_at. rewrite Htop by lia. change (low sl key seqno []) with (@nil Ptr).
  rewrite !lookup_replicate_2 by done. done.
Qed.

Lemma level_chain_top sl ps l lv :
  sl_rep sl ps l → (sl_max_height sl ≤ lv)%nat → level_chain sl ps lv = [].
Proof.
  intros Hrep Hlv. apply filter_none. intros p Hp. pose proof (sr_top _ _ _ Hrep) as Ht.
  rewrite Forall_forall in Ht. specialize (Ht p Hp). lia.
Qed.

Lemma level_chain_ext sl sl' ps lv :
  (∀ p, p ∈ ps → height_at sl' p = height_at sl p) → level_chain sl' ps lv = level_chain sl ps lv.
Proof.
  intros Hh. unfold level_chain. induction ps as [|p ps IH]; [done|]. rewrite !filter_cons.
  rewrite Hh by left. rewrite IH by (intros q Hq; apply Hh; by right). done.
Qed.

Lemma insert_prepare_ok sl ps l key value seqno op :
  sl_rep sl ps l → insert_fits key value →
  ∃ new height prev following sl',
    insert_prepare key value seqno op sl = (Ok (new, height, prev, following), sl') ∧
    prepared sl sl' ps l (entry_for key value seqno op) new height prev following.
Proof.
  intros Hrep Hfits. unfold insert_prepare.
  set (height := height_loop MAX_HEIGHT 1 (xorshift32 (sl_rng_state sl))).
  assert (1 ≤ height ≤ MAX_HEIGHT)%nat as Hh by (apply height_loop_range; unfold MAX_HEIGHT; lia).
  set (slr := (random_height sl).2).
  assert (sl_rep slr ps l) as Hrepr.
  { destruct Hrep as [Hsh Ht Hl Ha]. split; try done. by apply (shape_ext sl); [done..|apply Hsh|]. }
  rewrite (run_bind random_height _ sl height slr eq_refl).
  destruct (allocate_node_ok slr ps l key value seqno op height Hrepr Hfits Hh)
    as (new & sl1 & Ealloc & Hfresh & Hholds & Hslots & Hhn & Hsame & Hhead & Hmax & Hlen & Harena).
  rewrite (run_bind _ _ _ _ _ Ealloc), run_get.
  assert (∀ p, p ∈ sl_head slr :: ps → sl_nodes sl1 !! p = sl_nodes slr !! p) as Hsame'
    by (intros p Hp; apply Hsame; by intros ->).
  assert (∀ p, p ∈ ps → height_at sl1 p = height_at sl p) as Hheights
    by (intros p Hp; unfold height_at; by rewrite Hsame' by (by right)).
  pose proof (sh_max _ _ _ _ (sr_shape _ _ _ Hrepr)) as Hm.
  assert (sl_shape sl1 ps l (level_chain sl ps)) as Hsh1
    by (apply (shape_ext slr); [apply Hrepr|done|done|by rewrite Hmax|done]).
  destruct (find_predecessors_ok sl1 ps l (level_chain sl ps) key seqno Hsh1) as (prev & following & -> & Hpl & Hps).
  { rewrite Hmax. intros lv Hlv. by apply (level_chain_top sl ps l). }
  rewrite (run_lift _ _ _ _ eq_refl). pose proof (sr_top _ _ _ Hrep) as Htop. rewrite Forall_forall in Htop.
  destruct (Nat.ltb_spec (sl_max_height sl1) height) as [Hgt|Hle].
  - rewrite run_modify. eexists new, height, _, following, _. split; [reflexivity|]. split; try done.
    + by apply (shape_ext sl1); [done..|exact Hh|].
    + cbn. rewrite Hlen. apply Hrep.
    + by rewrite <-Hhead in Hfresh.
    + intros lv Hlv. destruct (Hps lv ltac:(lia)) as [Hp Hf]. split; [|done].
      destruct (decide (lv < sl_max_height sl1)%nat) as [Hlow|Hlow].
      * rewrite lookup_app_l, lookup_take_lt by (len_lia || done). done.
      * rewrite lookup_app_r, length_take, lookup_app_l, lookup_replicate_2 by len_lia.
        f_equal. unfold pred_at. rewrite (level_chain_top sl ps l lv Hrep); [done|].
        change (sl_max_height slr) with (sl_max_height sl) in Hmax. lia.
    + split; [done|]. apply Forall_forall. intros p Hp. change (height_at sl1 p ≤ height)%nat.
      rewrite Hheights by done. specialize (Htop p Hp). change (sl_max_height slr) with (sl_max_height sl) in Hmax. lia.
  - eexists new, height, prev, following, sl1. split; [reflexivity|]. split; try done.
    + rewrite Hlen. apply Hrep.
    + by rewrite <-Hhead in Hfresh.
    + intros lv Hlv. apply Hps. lia.
    + split; [done|]. apply Forall_forall. intros p Hp. rewrite Hheights by done. rewrite Hmax. by apply Htop.
Qed.

(** When every level of the new node is linked the list is whole again. *)
Lemma linked_all_rep sl0 sl1 sl2 ps l e new height prev following :
  prepared sl0 sl1 ps l e new height prev following →
  linked_upto sl1 (level_chain sl0 ps) e new height sl2 →
  sl_rep (count_insert sl2)
    (low sl1 (me_key e) (me_seqno e) ps ++ new :: high sl1 (me_key e) (me_seqno e) ps) (mem_insert e l).
Proof.
  intros [Hsh Hlen Hfresh Hholds Hh Hslots Hprev [Hhn Hhs] [Hmh Htop] Harena] Hup.
  pose proof (lu_frame _ _ _ _ _ _ Hup) as Hf. destruct height as [|k]; [lia|].
  assert (S (length l) < search_fuel sl1)%nat as Hlen' by (unfold search_fuel; lia).
  assert (sl_shape sl2
    (low sl1 (me_key e) (me_seqno e) (level_chain sl0 ps 0) ++ new :: high sl1 (me_key e) (me_seqno e) (level_chain sl0 ps 0))
    (mem_insert e l) (linked_chain sl1 (level_chain sl0 ps) e new (S k))) as Hsh2
    by (eapply linked_upto_shape; eauto).
  rewrite (sh_base _ _ _ _ Hsh) in Hsh2. set (ps' := _ ++ new :: _) in *.
  assert (∀ p, p ∈ ps' ↔ p = new ∨ p ∈ ps) as Hin.
  { intros p. unfold ps'. rewrite elem_of_app, elem_of_cons, low_before, high_after.
    destruct (before_ptr sl1 _ _ p); intuition congruence. }
  assert (∀ lv, level_chain sl2 ps' lv = linked_chain sl1 (level_chain sl0 ps) e new (S k) lv) as Hchains.
  { intros lv. rewrite (level_chain_ext sl1) by (intros p _; by apply height_frame).
    unfold level_chain, ps'. rewrite filter_app, filter_cons, Hhn. unfold low, high.
    rewrite (filter_comm (λ p, lv < height_at sl1 p)%nat (λ p, before_ptr sl1 (me_key e) (me_seqno e) p = true)).
    rewrite (filter_comm (λ p, lv < height_at sl1 p)%nat (λ p, before_ptr sl1 (me_key e) (me_seqno e) p = false)).
    fold (level_chain sl1 ps lv). rewrite (level_chain_ext sl0 sl1 ps lv Hhs).
    unfold linked_chain. case_decide; [done|]. symmetry. apply (chain_eq sl1 ps l (level_chain sl0 ps) Hsh e lv). }
  split.
  - assert (sl_shape sl2 ps' (mem_insert e l) (level_chain (count_insert sl2) ps')) as Hsh3.
    { change (level_chain (count_insert sl2) ps') with (level_chain sl2 ps').
      destruct Hsh2 as [S1 S2 S3 S4 S5 S6 S7 S8]. split; try done.
      - intros lv Hlv. rewrite Hchains. by apply S3.
      - by rewrite Hchains.
      - intros lv. rewrite !Hchains. apply S5. }
    apply (shape_ext_fuel sl2); [done|done| |apply Hsh3|done].
    rewrite length_mem_insert. unfold search_fuel. cbn [count_insert sl_len]. rewrite (sf_len _ _ Hf), Hlen. lia.
  - apply Forall_forall. intros p Hp. change (height_at sl2 p ≤ sl_max_height sl2)%nat.
    rewrite (height_frame _ _ _ Hf), (sf_max _ _ Hf). apply Hin in Hp as [->|Hp]; [by rewrite Hhn|].
    rewrite Forall_forall in Htop. by apply Htop.
  - cbn [count_insert sl_len]. rewrite (sf_len _ _ Hf), Hlen, length_mem_insert. lia.
  - destruct Harena as (live & Hinv & Hpos & Hdom). exists live. cbn [count_insert sl_arena sl_nodes].
    rewrite (sf_arena _ _ Hf). split_and!; [done..|]. intros p n Hn. pose proof (sf_nodes _ _ Hf p) as E.
    rewrite Hn in E. destruct (sl_nodes sl1 !! p) as [n'|] eqn:Hn'; [|done]. by eapply Hdom.
Qed.

(** Every prefix of the stores: nothing is visible before the second, which
    publishes level 0, and the whole entry from it on. *)
Lemma store_prefix_ok sl sl1 ps l e new height prev following j :
  prepared sl sl1 ps l e new height prev following →
  ∃ sl2, run_stores new prev following (take j (seq 0 height ≫= level_stores)) sl1 = (Ok tt, sl2) ∧
    linked_upto sl1 (level_chain sl ps) e new (height `min` Nat.div2 j) sl2 ∧
    ∃ ps' chains', sl_shape sl2 ps' (if decide (j < 2)%nat then l else mem_insert e l) chains'.
Proof.
  intros [Hsh Hlen Hfresh Hholds Hh Hslots Hprev _ _ _].
  assert (S (length l) < search_fuel sl1)%nat as Hlen' by (unfold search_fuel; lia).
  destruct (run_stores_ok sl1 ps l _ Hsh Hlen' e new height prev following Hfresh Hholds Hh Hslots Hprev j height 0%nat sl1)
    as (sl2 & E2 & Hup); [lia|by eapply linked_upto_0|].
  exists sl2. split; [done|]. split; [done|]. rewrite Nat.add_0_l in Hup. case_decide.
  - exists ps, (level_chain sl ps). assert (Nat.div2 j = 0%nat) as E by (destruct j as [|[|j]]; [done..|lia]).
    rewrite E, Nat.min_0_r in Hup. by eapply linked_upto_0_shape.
  - assert (height `min` Nat.div2 j ≠ 0)%nat as Hk by (destruct j as [|[|j]]; cbn [Nat.div2]; [lia..|generalize (Nat.div2 j); lia]).
    destruct (height `min` Nat.div2 j)%nat as [|k]; [done|]. eexists _, _. by eapply linked_upto_shape.
Qed.

(** The whole loop links every level. *)
Lemma link_all_ok sl sl1 ps l e new height prev following :
  prepared sl sl1 ps l e new height prev following →
  ∃ sl2, link_levels new prev following (seq 0 height) sl1 = (Ok tt, sl2) ∧
    linked_upto sl1 (level_chain sl ps) e new height sl2.
Proof.
  intros Hp. destruct (store_prefix_ok _ _ _ _ _ _ _ _ _ (2 * height) Hp) as (sl2 & E & Hup & _).
  exists sl2. rewrite link_levels_stores.
  rewrite take_ge in E by (rewrite length_level_stores, length_seq; lia).
  rewrite Nat.div2_double, Nat.min_id in Hup. done.
Qed.

(** Insertion refines [mem_insert]. *)
Lemma skiplist_insert_ok sl ps l key value seqno op :
  sl_rep sl ps l → insert_fits key value →
  ∃ new sl' ps', skiplist_insert key value seqno op sl = (Ok new, sl') ∧
    sl_rep sl' ps' (mem_insert (entry_for key value seqno op) l).
Proof.
  intros Hrep Hfits. unfold skiplist_insert.
  destruct (insert_prepare_ok sl ps l key value seqno op Hrep Hfits) as (new & height & prev & following & sl1 & E & Hp).
  rewrite (run_bind _ _ _ _ _ E).
  destruct (link_all_ok _ _ _ _ _ _ _ _ _ Hp) as (sl2 & E2 & Hup).
  rewrite (run_bind _ _ _ _ _ E2), run_modify. eexists new, _, _. split; [reflexivity|].
  by eapply linked_all_rep.
Qed.

Lemma skiplist_new_ok : ∃ sl, skiplist_new = Ok sl ∧ sl_rep sl [] [].
Proof.
  unfold skiplist_new, build_head.
  destruct (allocate_ok (NODE_HEADER_SIZE + Z.of_nat MAX_HEIGHT * PTR_SIZE) 8 arena_new [] arena_new_inv)
    as (p & a & -> & Hinv & _).
  { unfold request_ok, NODE_HEADER_SIZE, PTR_SIZE, MAX_HEIGHT. split_and!; [lia|lia|done|lia]. }
  cbn [mbind outcome_bind]. eexists. split; [reflexivity|]. split; [split| | |]; try done; cbn [sl_head sl_nodes sl_max_height sl_arena sl_len].
  - apply NoDup_singleton.
  - intros lv Hlv. unfold level_chain. cbn. unfold fwd. cbn [sl_nodes]. rewrite lookup_singleton_eq.
    cbn [mbind option_bind nd_forward]. by apply (lookup_replicate_2 MAX_HEIGHT None lv).
  - unfold MAX_HEIGHT. lia.
  - constructor.
  - unfold search_fuel. cbn. lia.
  - eexists. split_and!; [exact Hinv| |].
    + constructor; [|done]. cbn. unfold granted. lia.
    + intros q n Hq. apply lookup_singleton_Some in Hq as [-> _]. left.
Qed.

(** ** Runs of insertions *)

Record InsertArgs := { ia_key : bytes; ia_value : bytes; ia_seqno : Z; ia_op : OpType }.

Fixpoint insert_run (ops : list InsertArgs) : st SkipList () :=
  match ops with
  | [] => mret tt
  | o :: ops =>
      _ ← skiplist_insert (ia_key o) (ia_value o) (ia_seqno o) (ia_op o);
      insert_run ops
  end.

Definition insert_entry (o : InsertArgs) : MemEntry :=
  entry_for (ia_key o) (ia_value o) (ia_seqno o) (ia_op o).

Definition mem_insert_run (ops : list InsertArgs) (l : list MemEntry) : list MemEntry :=
  foldl (λ l o, mem_insert (insert_entry o) l) l ops.

Lemma length_mem_insert_run ops l : length (mem_insert_run ops l) = (length ops + length l)%nat.
Proof.
  unfold mem_insert_run. revert l. induction ops as [|o ops IH]; intros l; cbn [foldl length]; [done|].
  rewrite IH, length_mem_insert. lia.
Qed.

Lemma insert_run_ok ops sl ps l :
  Forall (λ o, insert_fits (ia_key o) (ia_value o)) ops → sl_rep sl ps l →
  ∃ sl' ps', insert_run ops sl = (Ok tt, sl') ∧ sl_rep sl' ps' (mem_insert_run ops l).
Proof.
  intros Hops. revert sl ps l. induction Hops as [|o ops Ho _ IH]; intros sl ps l Hrep; cbn [insert_run].
  { by exists sl, ps. }
  destruct (skiplist_insert_ok sl ps l (ia_key o) (ia_value o) (ia_seqno o) (ia_op o) Hrep Ho)
    as (new & sl1 & ps1 & E & Hrep1).
  rewrite (run_bind _ _ _ _ _ E). apply (IH sl1 ps1 _ Hrep1).
Qed.

(** * Properties *)

(** C12. The skip list refines a sorted list.  After any sequence of insertions
    into a new list, with whatever heights the generator drew, no step having
    followed a bad pointer: iterating yields the entries of the reference
    sorted list, which is sorted by key and newest version first; and looking
    up any key at any snapshot yields the newest version not above the
    snapshot, the last inserted among equal ones. *)
Theorem skiplist_refines_sorted_list (ops : list InsertArgs)
    (Hops : Forall (λ o, insert_fits (ia_key o) (ia_value o)) ops) :
  ∃ sl0 sl, skiplist_new = Ok sl0 ∧ insert_run ops sl0 = (Ok tt, sl) ∧
    skiplist_len sl = len ops ∧
    skiplist_entries sl = Ok (mem_insert_run ops []) ∧
    StronglySorted entry_le (mem_insert_run ops []) ∧
    ∀ key snapshot, skiplist_get sl key snapshot = Ok (mem_get (mem_insert_run ops []) key snapshot).
Proof.
  destruct skiplist_new_ok as (sl0 & Hnew & Hrep0).
  destruct (insert_run_ok ops sl0 [] [] Hops Hrep0) as (sl & ps & Hrun & Hrep).
  exists sl0, sl. pose proof (sr_shape _ _ _ Hrep) as Hsh. split_and!; [done|done| | |apply Hsh|].
  - unfold skiplist_len. rewrite (sr_len _ _ _ Hrep). f_equal. rewrite length_mem_insert_run. cbn. lia.
  - by eapply skiplist_entries_spec.
  - intros key snapshot. by eapply skiplist_get_spec.
Qed.

Lemma skiplist_refines_sorted_list_witness :
  let ops := [ {| ia_key := [98]; ia_value := [1]; ia_seqno := 1; ia_op := NodePut |};
               {| ia_key := [97]; ia_value := [2]; ia_seqno := 2; ia_op := NodePut |};
               {| ia_key := [98]; ia_value := [9]; ia_seqno := 3; ia_op := NodeTombstone |} ] in
  Forall (λ o, insert_fits (ia_key o) (ia_value o)) ops ∧
  ∃ sl0 sl, skiplist_new = Ok sl0 ∧ insert_run ops sl0 = (Ok tt, sl) ∧
    skiplist_get sl [98] 2 = Ok (Some {| me_key := [98]; me_value := [1]; me_seqno := 1; me_op := NodePut |}) ∧
    skiplist_get sl [98] 3 = Ok (Some {| me_key := [98]; me_value := []; me_seqno := 3; me_op := NodeTombstone |}).
Proof.
  cbn zeta. set (ops := [_; _; _]).
  assert (Forall (λ o, insert_fits (ia_key o) (ia_value o)) ops) as H
    by (repeat (constructor; [unfold insert_fits, is_u32; cbn; lia|]); constructor).
  split; [exact H|]. destruct (skiplist_refines_sorted_list ops H) as (sl0 & sl & H0 & H1 & _ & _ & _ & Hget).
  exists sl0, sl. split; [exact H0|]. split; [exact H1|]. rewrite !Hget. split; vm_compute; reflexivity.
Defined.

(** C20. An insertion is published in one step.  Its linking loop is a sequence
    of stores, two for each level: the new node's own forward pointer, then the
    predecessor's.  Stop the writer after any number of them: a reader that runs
    then finds and iterates exactly the old list before the second store, and
    exactly the list with the new entry from the second on.  After all of them
    only the count is missing for the result of [insert]. *)
Theorem skiplist_insert_publishes (sl : SkipList) (ps : list Ptr) (l : list MemEntry)
    (key value : bytes) (seqno : Z) (op : OpType)
    (Hrep : sl_rep sl ps l) (Hfits : insert_fits key value) :
  ∃ new height prev following sl1,
    let stores := seq 0 height ≫= level_stores in
    insert_prepare key value seqno op sl = (Ok (new, height, prev, following), sl1) ∧
    (∀ k, ∃ sl2, run_stores new prev following (take k stores) sl1 = (Ok tt, sl2) ∧
        let seen := if decide (k < 2)%nat then l else mem_insert (entry_for key value seqno op) l in
        skiplist_entries sl2 = Ok seen ∧
        ∀ key' snapshot, skiplist_get sl2 key' snapshot = Ok (mem_get seen key' snapshot)) ∧
    ∃ sl2, run_stores new prev following stores sl1 = (Ok tt, sl2) ∧
      skiplist_insert key value seqno op sl = (Ok new, count_insert sl2).
Proof.
  destruct (insert_prepare_ok sl ps l key value seqno op Hrep Hfits)
    as (new & height & prev & following & sl1 & E & Hp).
  exists new, height, prev, following, sl1. cbn zeta. split; [done|]. split.
  - intros k. destruct (store_prefix_ok _ _ _ _ _ _ _ _ _ k Hp) as (sl2 & E2 & _ & ps' & chains' & Hsh).
    exists sl2. split; [done|]. split; [by eapply skiplist_entries_spec|].
    intros key' snapshot. by eapply skiplist_get_spec.
  - destruct (link_all_ok _ _ _ _ _ _ _ _ _ Hp) as (sl2 & E2 & _). exists sl2.
    rewrite <-link_levels_stores. split; [done|]. unfold skiplist_insert.
    by rewrite (run_bind _ _ _ _ _ E), (run_bind _ _ _ _ _ E2), run_modify.
Qed.

Lemma skiplist_insert_publishes_witness :
  ∃ sl0, skiplist_new = Ok sl0 ∧ sl_rep sl0 [] [] ∧ insert_fits [97] [1] ∧
  ∃ new height prev following sl1,
    insert_prepare [97] [1] 7 NodePut sl0 = (Ok (new, height, prev, following), sl1) ∧
    ∃ sl2, run_stores new prev following (take 1 (seq 0 height ≫= level_stores)) sl1 = (Ok tt, sl2) ∧
      skiplist_get sl2 [97] 7 = Ok None.
Proof.
  destruct skiplist_new_ok as (sl0 & H0 & Hrep). exists sl0.
  assert (insert_fits [97] [1]) as Hfits by (unfold insert_fits, is_u32; cbn; lia).
  split; [exact H0|]. split; [exact Hrep|]. split; [exact Hfits|].
  destruct (skiplist_insert_publishes sl0 [] [] [97] [1] 7 NodePut Hrep Hfits)
    as (new & height & prev & following & sl1 & E & Hk & _).
  exists new, height, prev, following, sl1. split; [exact E|].
  destruct (Hk 1%nat) as (sl2 & E2 & _ & Hget). exists sl2. split; [exact E2|apply Hget].
Defined.

(** The order of the two stores matters.  With two keys in the list and a third
    going between them, a writer that published the node before setting its own
    pointer would for a moment show readers a list cut off behind the new node. *)
Theorem publishing_first_cuts_list :
  let put k := {| ia_key := [k]; ia_value := [k]; ia_seqno := 1; ia_op := NodePut |} in
  (sl0 ← skiplist_new;
   let (inserted, sl) := insert_run [put 97; put 99] sl0 in
   _ ← inserted;
   let (prepared, sl1) := insert_prepare [98] [98] 2 NodePut sl in
   '(new, _, prev, following) ← prepared;
   let (published, sl2) := run_stores new prev following [Publish 0] sl1 in
   _ ← published;
   before ← skiplist_get sl1 [99] 2;
   between ← skiplist_get sl2 [99] 2;
   Ok (before, between)) =
  Ok (Some (insert_entry (put 99)), None).
Proof. vm_compute. reflexivity. Qed.

(** A lookup is two steps, a descent and a load of the candidate, and a
    writer may run between them.  Here the only version of the key, at sequence
    number 5, is present throughout; the reader looks it up at snapshot 5 and
    stops its descent at the head; a newer version, which that snapshot cannot
    see, is inserted; and the reader finds nothing, though a lookup run before
    or after the insertion finds the version. *)
Theorem skiplist_get_race :
  let key := [107] in
  let five := {| ia_key := key; ia_value := [5]; ia_seqno := 5; ia_op := NodePut |} in
  let nine := {| ia_key := key; ia_value := [9]; ia_seqno := 9; ia_op := NodePut |} in
  (sl0 ← skiplist_new;
   let (inserted_five, sl) := insert_run [five] sl0 in
   _ ← inserted_five;
   before ← skiplist_get sl key 5;
   cur ← get_search sl key 5;
   let (inserted_nine, sl') := insert_run [nine] sl in
   _ ← inserted_nine;
   raced ← get_candidate sl' key 5 cur;
   after ← skiplist_get sl' key 5;
   Ok (before, raced, after)) =
  Ok (Some (insert_entry five), None, Some (insert_entry five)).
Proof. vm_compute. reflexivity. Qed.
