(* ===== verification/RawList.v ===== *)
(** The memtable in memory: [crates/paddock-core/src/memtable/skiplist.rs].

    [SkipList] keeps the nodes as records in a map.  Here they are the bytes
    that the code writes into the arena: the header with the lengths, the
    array of forward pointers, the key and the value, read back through the
    address arithmetic of [node_key_ptr] and [node_forward_ptr].  Insertion,
    lookup and iteration on these bytes simulate the operations on records,
    step by step. *)

From S2P Require Import Prelude InternalKey Arena RawMem SkipList.

(** * Nodes *)

(** The fields of [NodeHeader], in the order of [repr(C)]. *)
Definition header_bytes (height op_type key_len value_len seqno : Z) : bytes :=
  [height; op_type; 0; 0] ++ le_bytes 4 key_len ++ le_bytes 4 value_len ++ le_bytes 4 0 ++ le_bytes 8 seqno.

Definition node_height (p : Ptr) (m : Mem) : outcome Z := read_uint 1 p m.
Definition node_op_type (p : Ptr) (m : Mem) : outcome Z := read_uint 1 (ptr_add p 1) m.
Definition node_key_len (p : Ptr) (m : Mem) : outcome Z := read_uint 4 (ptr_add p 4) m.
Definition node_value_len (p : Ptr) (m : Mem) : outcome Z := read_uint 4 (ptr_add p 8) m.

Definition node_key_ptr (p : Ptr) (height : Z) : Ptr := ptr_add (ptr_add p NODE_HEADER_SIZE) (height * PTR_SIZE).

Definition node_forward_ptr (p : Ptr) (i : nat) : Ptr := ptr_add (ptr_add p NODE_HEADER_SIZE) (Z.of_nat i * PTR_SIZE).

(** ** [NodeRef] *)

Definition ref_seqno (p : Ptr) (m : Mem) : outcome Z := read_uint 8 (ptr_add p 16) m.

Definition ref_op_type (p : Ptr) (m : Mem) : outcome OpType :=
  raw ← node_op_type p m; expect (op_type_from_byte raw).

Definition ref_key (p : Ptr) (m : Mem) : outcome bytes :=
  height ← node_height p m;
  key_len ← node_key_len p m;
  read_bytes (node_key_ptr p height) key_len m.

Definition ref_value (p : Ptr) (m : Mem) : outcome bytes :=
  height ← node_height p m;
  key_len ← node_key_len p m;
  value_len ← node_value_len p m;
  read_bytes (ptr_add (node_key_ptr p height) key_len) value_len m.

Definition ref_entry (p : Ptr) (m : Mem) : outcome MemEntry :=
  key ← ref_key p m; value ← ref_value p m; seqno ← ref_seqno p m; op ← ref_op_type p m;
  Ok {| me_key := key; me_value := value; me_seqno := seqno; me_op := op |}.

(** Atomic loads and stores of a forward slot. *)
Definition forward_load (p : Ptr) (i : nat) (m : Mem) : outcome (option Ptr) := read_ptr (node_forward_ptr p i) m.
Definition forward_store (p : Ptr) (i : nat) (v : option Ptr) : st Mem () := mem_write (node_forward_ptr p i) (ptr_cells v).

(** * The list *)

Record RawList := {
  rl_arena : RawArena;
  rl_mem : Mem;
  rl_head : Ptr;
  rl_max_height : nat;
  rl_rng_state : Z;
  rl_len : Z
}.

Definition rl_set (a : RawArena) (m : Mem) (rl : RawList) : RawList :=
  {| rl_arena := a; rl_mem := m; rl_head := rl_head rl; rl_max_height := rl_max_height rl;
     rl_rng_state := rl_rng_state rl; rl_len := rl_len rl |}.

Definition on_arena {A} (f : st (RawArena * Mem) A) : st RawList A := λ rl,
  let '(r, (a, m)) := f (rl_arena rl, rl_mem rl) in (r, rl_set a m rl).

Definition on_mem {A} (f : st Mem A) : st RawList A := λ rl,
  let '(r, m) := f (rl_mem rl) in (r, rl_set (rl_arena rl) m rl).

Fixpoint write_nulls (p : Ptr) (slots : list nat) : st Mem () :=
  match slots with
  | [] => mret tt
  | i :: slots => _ ← forward_store p i None; write_nulls p slots
  end.

(** [u8::try_from]. *)
Definition try_u8 (z : Z) : option Z := if z <? 2 ^ 8 then Some z else None.

(** The header and the null pointers of a node. *)
Definition init_node (raw : Ptr) (header : bytes) (height : nat) : st Mem () :=
  _ ← mem_write raw (byte_cells header);
  write_nulls raw (seq 0 height).

Definition raw_build_head : st (RawArena * Mem) Ptr :=
  let forward_size := Z.of_nat MAX_HEIGHT * PTR_SIZE in
  raw ← raw_allocate (NODE_HEADER_SIZE + forward_size) 8;
  height ← st_lift (expect (try_u8 (Z.of_nat MAX_HEIGHT)));
  _ ← on_snd (init_node raw (header_bytes height (op_type_as_byte NodePut) 0 0 0) MAX_HEIGHT);
  mret raw.

Definition raw_list_new : outcome RawList :=
  match raw_build_head (raw_new, mem_empty) with
  | (Ok head, (a, m)) =>
      Ok {| rl_arena := a; rl_mem := m; rl_head := head; rl_max_height := 1; rl_rng_state := 0x9E3779B9; rl_len := 0 |}
  | (Err e, _) => Err e
  | (Panic, _) => Panic
  | (OutOfFuel, _) => OutOfFuel
  end.

Definition raw_random_height : st RawList nat := λ rl,
  let s := xorshift32 (rl_rng_state rl) in
  (Ok (height_loop MAX_HEIGHT 1 s),
   {| rl_arena := rl_arena rl; rl_mem := rl_mem rl; rl_head := rl_head rl; rl_max_height := rl_max_height rl;
      rl_rng_state := s; rl_len := rl_len rl |}).

(** The key and the value behind the forward pointers. *)
Definition write_key_value (key_dst : Ptr) (key value : bytes) (val_len : Z) : st Mem () :=
  _ ← mem_write key_dst (byte_cells key);
  if 0 <? val_len
  then mem_write (ptr_add key_dst (len key)) (byte_cells (take (Z.to_nat val_len) value))
  else mret tt.

Definition raw_allocate_node (key value : bytes) (seqno : Z) (op : OpType) (height : nat) : st RawList Ptr :=
  let forward_size := Z.of_nat height * PTR_SIZE in
  let key_len := len key in
  let val_len := match op with NodePut => len value | NodeTombstone => 0 end in
  let total := NODE_HEADER_SIZE + forward_size + key_len + val_len in
  raw ← on_arena (raw_allocate total 8);
  h ← st_lift (expect (try_u8 (Z.of_nat height)));
  k ← st_lift (expect (try_u32 key_len));
  v ← st_lift (expect (try_u32 val_len));
  _ ← on_mem (init_node raw (header_bytes h (op_type_as_byte op) k v seqno) height);
  _ ← on_mem (write_key_value (ptr_add raw (NODE_HEADER_SIZE + forward_size)) key value val_len);
  mret raw.

(** ** Searching *)

Definition raw_goes_before (m : Mem) (link : option Ptr) (key : bytes) (seqno : Z) : outcome bool :=
  match link with
  | None => Ok false
  | Some p =>
      k ← ref_key p m;
      s ← ref_seqno p m;
      Ok (match compare_internal_key k s key seqno with Lt => true | _ => false end)
  end.

Fixpoint raw_predecessors_loop (fuel : nat) (m : Mem) (key : bytes) (seqno : Z) (level : nat)
    (cur : Ptr) (prev : list Ptr) (following : list (option Ptr)) : outcome (list Ptr * list (option Ptr)) :=
  match fuel with
  | O => OutOfFuel
  | S fuel =>
      forward_link ← forward_load cur level m;
      go_forward ← raw_goes_before m forward_link key seqno;
      match go_forward, forward_link with
      | true, Some next => raw_predecessors_loop fuel m key seqno level next prev following
      | _, _ =>
          let prev := <[level := cur]> prev in
          let following := <[level := forward_link]> following in
          match level with
          | O => Ok (prev, following)
          | S level => raw_predecessors_loop fuel m key seqno level cur prev following
          end
      end
  end.

Definition raw_fuel (rl : RawList) : nat := Z.to_nat (rl_len rl) + 2.

Definition raw_find_predecessors (rl : RawList) (key : bytes) (seqno : Z) (prev : list Ptr)
    (following : list (option Ptr)) : outcome (list Ptr * list (option Ptr)) :=
  let active := rl_max_height rl in
  let prev := take active prev ++ replicate (MAX_HEIGHT - active) (rl_head rl) in
  match active with
  | O => Ok (prev, following)
  | S level =>
      raw_predecessors_loop (MAX_HEIGHT * raw_fuel rl) (rl_mem rl) key seqno level (rl_head rl) prev following
  end.

Fixpoint raw_walk_level (fuel : nat) (m : Mem) (key : bytes) (snapshot : Z) (level : nat) (cur : Ptr) : outcome Ptr :=
  match fuel with
  | O => OutOfFuel
  | S fuel =>
      next ← forward_load cur level m;
      go ← raw_goes_before m next key snapshot;
      match go, next with
      | true, Some next => raw_walk_level fuel m key snapshot level next
      | _, _ => Ok cur
      end
  end.

Fixpoint raw_walk_down (fuel level : nat) (m : Mem) (key : bytes) (snapshot : Z) (cur : Ptr) : outcome Ptr :=
  match level with
  | O => Ok cur
  | S level =>
      cur ← raw_walk_level fuel m key snapshot level cur;
      raw_walk_down fuel level m key snapshot cur
  end.

Definition raw_get (rl : RawList) (key : bytes) (snapshot : Z) : outcome (option MemEntry) :=
  let m := rl_mem rl in
  cur ← raw_walk_down (raw_fuel rl) (rl_max_height rl) m key snapshot (rl_head rl);
  candidate ← forward_load cur 0 m;
  match candidate with
  | None => Ok None
  | Some p =>
      k ← ref_key p m;
      s ← ref_seqno p m;
      if bytes_eqb k key && (s <=? snapshot) then e ← ref_entry p m; Ok (Some e) else Ok None
  end.

(** [Iter::next] until [cur] is null. *)
Fixpoint raw_iter (fuel : nat) (m : Mem) (cur : option Ptr) : outcome (list MemEntry) :=
  match fuel with
  | O => OutOfFuel
  | S fuel =>
      match cur with
      | None => Ok []
      | Some p =>
          next ← forward_load p 0 m;
          e ← ref_entry p m;
          rest ← raw_iter fuel m next;
          Ok (e :: rest)
      end
  end.

(** [IntoIterator for &SkipList]. *)
Definition raw_into_iter (rl : RawList) : outcome (option Ptr) := forward_load (rl_head rl) 0 (rl_mem rl).

Definition raw_entries (rl : RawList) : outcome (list MemEntry) :=
  first ← raw_into_iter rl;
  raw_iter (raw_fuel rl) (rl_mem rl) first.

(** ** Insertion *)

Definition raw_link_level (node : Ptr) (prev : list Ptr) (following : list (option Ptr)) (level : nat) : st RawList () :=
  f ← st_lift (expect (following !! level));
  _ ← on_mem (forward_store node level f);
  p ← st_lift (expect (prev !! level));
  on_mem (forward_store p level (Some node)).

Fixpoint raw_link_levels (node : Ptr) (prev : list Ptr) (following : list (option Ptr)) (levels : list nat) :
    st RawList () :=
  match levels with
  | [] => mret tt
  | level :: levels => _ ← raw_link_level node prev following level; raw_link_levels node prev following levels
  end.

Definition raw_set_max_height (h : nat) (rl : RawList) : RawList :=
  {| rl_arena := rl_arena rl; rl_mem := rl_mem rl; rl_head := rl_head rl; rl_max_height := h;
     rl_rng_state := rl_rng_state rl; rl_len := rl_len rl |}.

Definition raw_count (rl : RawList) : RawList :=
  {| rl_arena := rl_arena rl; rl_mem := rl_mem rl; rl_head := rl_head rl; rl_max_height := rl_max_height rl;
     rl_rng_state := rl_rng_state rl; rl_len := rl_len rl + 1 |}.

Definition raw_insert_prepare (key value : bytes) (seqno : Z) (op : OpType) :
    st RawList (Ptr * nat * list Ptr * list (option Ptr)) :=
  height ← raw_random_height;
  node_ptr ← raw_allocate_node key value seqno op height;
  rl ← st_get;
  '(predecessors, following) ← st_lift (raw_find_predecessors rl key seqno
      (replicate MAX_HEIGHT (rl_head rl)) (replicate MAX_HEIGHT None));
  let active_max := rl_max_height rl in
  if (active_max <? height)%nat then
    let predecessors := take active_max predecessors ++
      replicate (height - active_max) (rl_head rl) ++ drop height predecessors in
    _ ← st_modify (raw_set_max_height height);
    mret (node_ptr, height, predecessors, following)
  else mret (node_ptr, height, predecessors, following).

Definition raw_insert (key value : bytes) (seqno : Z) (op : OpType) : st RawList Ptr :=
  '(node_ptr, height, predecessors, following) ← raw_insert_prepare key value seqno op;
  _ ← raw_link_levels node_ptr predecessors following (seq 0 height);
  _ ← st_modify raw_count;
  mret node_ptr.

Fixpoint raw_insert_run (ops : list InsertArgs) : st RawList () :=
  match ops with
  | [] => mret tt
  | o :: ops => _ ← raw_insert (ia_key o) (ia_value o) (ia_seqno o) (ia_op o); raw_insert_run ops
  end.

(** * Nodes in memory *)

Definition node_header (n : Node) : bytes :=
  header_bytes (Z.of_nat (nd_height n)) (nd_op_type n) (len (nd_key n)) (len (nd_value n)) (nd_seqno n).

Definition forward_cells (l : list (option Ptr)) : list cell := concat (ptr_cells <$> l).

Definition node_cells (n : Node) : list cell :=
  byte_cells (node_header n) ++ forward_cells (nd_forward n) ++ byte_cells (nd_key n) ++ byte_cells (nd_value n).

Definition node_size (n : Node) : Z :=
  NODE_HEADER_SIZE + Z.of_nat (nd_height n) * PTR_SIZE + len (nd_key n) + len (nd_value n).

Record node_wf (n : Node) : Prop := {
  nw_height : (1 ≤ nd_height n ≤ MAX_HEIGHT)%nat;
  nw_forward : length (nd_forward n) = nd_height n;
  nw_op : 0 ≤ nd_op_type n < 256;
  nw_key : is_u32 (len (nd_key n));
  nw_value : is_u32 (len (nd_value n));
  nw_seqno : is_u64 (nd_seqno n)
}.

Lemma length_forward_cells l : length (forward_cells l) = (8 * length l)%nat.
Proof. induction l as [|v l IH]; [done|]. unfold forward_cells in *. cbn [fmap list_fmap concat]. rewrite length_app, IH. cbn. lia. Qed.
#[export] Hint Rewrite length_forward_cells : len.

Lemma length_node_header n : length (node_header n) = 24%nat.
Proof. unfold node_header, header_bytes. len_simpl. done. Qed.
#[export] Hint Rewrite length_node_header : len.

Lemma length_node_cells n : node_wf n → len (node_cells n) = node_size n.
Proof. intros [_ Hf _ _ _ _]. unfold node_cells, node_size, NODE_HEADER_SIZE, PTR_SIZE. len_simpl. rewrite Hf. lia. Qed.

(** A slot of the forward array. *)
Lemma forward_cells_at m p l i v :
  cells_at m p (forward_cells l) → l !! i = Some v → cells_at m (ptr_add p (Z.of_nat i * PTR_SIZE)) (ptr_cells v).
Proof.
  revert p i. induction l as [|w l IH]; intros p i Hc Hi; [done|].
  unfold forward_cells in Hc. cbn [fmap list_fmap concat] in Hc. apply cells_at_app in Hc as [Hw Hc].
  destruct i as [|i]; cbn in Hi; [injection Hi as ->; by rewrite ptr_add_0|].
  specialize (IH _ _ Hc Hi). rewrite ptr_add_add in IH.
  replace (Z.of_nat (S i) * PTR_SIZE) with (8 + Z.of_nat i * PTR_SIZE) by (unfold PTR_SIZE; lia). exact IH.
Qed.

Lemma forward_cells_insert l i v :
  (i < length l)%nat → ∃ a b c, forward_cells l = a ++ b ++ c ∧ len a = Z.of_nat i * PTR_SIZE ∧ length b = 8%nat ∧
    forward_cells (<[i := v]> l) = a ++ ptr_cells v ++ c.
Proof.
  revert i. induction l as [|w l IH]; intros i Hi; [cbn in Hi; lia|]. destruct i as [|i].
  - exists [], (ptr_cells w), (forward_cells l). done.
  - destruct (IH i ltac:(cbn in Hi; lia)) as (a & b & c & E & Ha & Hb & E'). exists (ptr_cells w ++ a), b, c.
    change (forward_cells (w :: l)) with (ptr_cells w ++ forward_cells l).
    change (<[S i:=v]> (w :: l)) with (w :: <[i:=v]> l).
    change (forward_cells (w :: <[i:=v]> l)) with (ptr_cells w ++ forward_cells (<[i:=v]> l)).
    rewrite E, E', <-!app_assoc. split_and!; try done. unfold PTR_SIZE in *. len_simpl. lia.
Qed.

Lemma byte_cells_app a b : byte_cells (a ++ b) = byte_cells a ++ byte_cells b.
Proof. apply fmap_app. Qed.

Lemma le_bytes_1 v : 0 ≤ v < 256 → le_bytes 1 v = [v].
Proof. intros Hv. unfold le_bytes. by rewrite Z.mod_small. Qed.

(** ** Reading a node *)

Section ReadNode.
Context (m : Mem) (p : Ptr) (n : Node).
Context (Hwf : node_wf n) (Hb : in_block m p (node_size n) = true) (Hc : cells_at (mem_cells m) p (node_cells n)).

Lemma node_block k d : 0 ≤ k → 0 ≤ d → k + d ≤ node_size n → in_block m (ptr_add p k) d = true.
Proof. apply (in_block_sub m p (node_size n)), Hb. Qed.

Lemma header_at : cells_at (mem_cells m) p (byte_cells (node_header n)).
Proof. apply cells_at_app in Hc as [H _]. exact H. Qed.

Lemma size_header : 24 ≤ node_size n - 8 * Z.of_nat (nd_height n).
Proof. unfold node_size, NODE_HEADER_SIZE, PTR_SIZE. lia. Qed.

(** The integer fields. *)
Lemma header_field a (k : nat) v b :
  node_header n = a ++ le_bytes k v ++ b → 0 ≤ v < 256 ^ Z.of_nat k → read_uint k (ptr_add p (len a)) m = Ok v.
Proof.
  intros E Hv. pose proof header_at as Hh. pose proof (length_node_header n) as Hl. rewrite E in Hh, Hl.
  rewrite !byte_cells_app in Hh. apply cells_at_app in Hh as [_ [Hh _]%cells_at_app].
  rewrite length_byte_cells in Hh. revert Hl. len_simpl. intros Hl.
  apply read_uint_at; [|done|done]. pose proof size_header. apply node_block; lia.
Qed.

Lemma read_height : node_height p m = Ok (Z.of_nat (nd_height n)).
Proof.
  unfold node_height. rewrite <-(ptr_add_0 p). destruct Hwf as [Hh _ _ _ _ _]. unfold MAX_HEIGHT in Hh.
  eapply (header_field []); [unfold node_header, header_bytes; by rewrite le_bytes_1 by lia|cbn; lia].
Qed.

Lemma read_op_type : node_op_type p m = Ok (nd_op_type n).
Proof.
  destruct Hwf as [_ _ Hop _ _ _].
  eapply (header_field [Z.of_nat (nd_height n)]); [unfold node_header, header_bytes; by rewrite le_bytes_1 by lia|cbn; lia].
Qed.

Lemma read_key_len : node_key_len p m = Ok (len (nd_key n)).
Proof.
  destruct Hwf as [_ _ _ Hk _ _].
  by eapply (header_field [Z.of_nat (nd_height n); nd_op_type n; 0; 0]).
Qed.

Lemma read_value_len : node_value_len p m = Ok (len (nd_value n)).
Proof.
  destruct Hwf as [_ _ _ Hk Hv _].
  pose proof (header_field ([Z.of_nat (nd_height n); nd_op_type n; 0; 0] ++ le_bytes 4 (len (nd_key n))) 4 (len (nd_value n))
    (le_bytes 4 0 ++ le_bytes 8 (nd_seqno n))) as H. apply H; [|done]. unfold node_header, header_bytes. by rewrite <-!app_assoc.
Qed.

Lemma read_seqno : ref_seqno p m = Ok (nd_seqno n).
Proof.
  destruct Hwf as [_ _ _ _ _ Hs].
  pose proof (header_field ([Z.of_nat (nd_height n); nd_op_type n; 0; 0] ++ le_bytes 4 (len (nd_key n)) ++
    le_bytes 4 (len (nd_value n)) ++ le_bytes 4 0) 8 (nd_seqno n) []) as H. apply H; [|done].
  unfold node_header, header_bytes. by rewrite app_nil_r, <-!app_assoc.
Qed.

(** The rest of the node. *)
Lemma tail_at :
  cells_at (mem_cells m) (ptr_add p NODE_HEADER_SIZE) (forward_cells (nd_forward n)) ∧
  cells_at (mem_cells m) (node_key_ptr p (Z.of_nat (nd_height n))) (byte_cells (nd_key n)) ∧
  cells_at (mem_cells m) (ptr_add (node_key_ptr p (Z.of_nat (nd_height n))) (len (nd_key n))) (byte_cells (nd_value n)).
Proof.
  destruct Hwf as [_ Hf _ _ _ _]. apply cells_at_app in Hc as [_ [H1 [H2 H3]%cells_at_app]%cells_at_app].
  revert H1 H2 H3. len_simpl. rewrite Hf. unfold node_key_ptr, NODE_HEADER_SIZE, PTR_SIZE. rewrite !ptr_add_add.
  rewrite Nat2Z.inj_mul, (Z.mul_comm (Z.of_nat 8)). done.
Qed.

Lemma read_key : ref_key p m = Ok (nd_key n).
Proof.
  unfold ref_key. rewrite read_height. cbn [mbind outcome_bind]. rewrite read_key_len. cbn [mbind outcome_bind].
  destruct tail_at as (_ & Hk & _). apply read_bytes_at; [|done|done]. unfold node_key_ptr. rewrite ptr_add_add.
  apply node_block; unfold node_size, NODE_HEADER_SIZE, PTR_SIZE; lia.
Qed.

Lemma read_value : ref_value p m = Ok (nd_value n).
Proof.
  unfold ref_value. rewrite read_height. cbn [mbind outcome_bind]. rewrite read_key_len. cbn [mbind outcome_bind].
  rewrite read_value_len. cbn [mbind outcome_bind].
  destruct tail_at as (_ & _ & Hv). apply read_bytes_at; [|done|done]. unfold node_key_ptr. rewrite !ptr_add_add.
  apply node_block; unfold node_size, NODE_HEADER_SIZE, PTR_SIZE; lia.
Qed.

Lemma read_entry e : node_entry n = Ok e → ref_entry p m = Ok e.
Proof.
  unfold node_entry, node_op, ref_entry, ref_op_type. rewrite read_key, read_value, read_seqno, read_op_type.
  cbn [mbind outcome_bind]. by destruct (op_type_from_byte (nd_op_type n)).
Qed.

Lemma read_forward i v : nd_forward n !! i = Some v → forward_load p i m = Ok v.
Proof.
  intros Hi. destruct tail_at as (Hfw & _). unfold forward_load. apply lookup_lt_Some in Hi as Hlt.
  rewrite (nw_forward _ Hwf) in Hlt. apply read_ptr_at; [|by eapply forward_cells_at].
  unfold node_forward_ptr. rewrite ptr_add_add. apply node_block; unfold node_size, NODE_HEADER_SIZE, PTR_SIZE; lia.
Qed.
End ReadNode.

(** * The list in memory is the list *)

(** The node is in memory, in a region of its own. *)
Record node_in (m : Mem) (live : list region) (p : Ptr) (n : Node) : Prop := {
  ni_wf : node_wf n;
  ni_cells : cells_at (mem_cells m) p (node_cells n);
  ni_region : (p, granted (node_size n) 8) ∈ live;
  ni_size : node_size n ≤ granted (node_size n) 8
}.

Record list_match (rl : RawList) (sl : SkipList) (live : list region) : Prop := {
  lm_arena : arena_match (rl_arena rl, rl_mem rl) (sl_arena sl);
  lm_inv : arena_inv (sl_arena sl) live;
  lm_nodes p n : sl_nodes sl !! p = Some n → node_in (rl_mem rl) live p n;
  lm_head : rl_head rl = sl_head sl;
  lm_max : rl_max_height rl = sl_max_height sl;
  lm_rng : rl_rng_state rl = sl_rng_state sl;
  lm_len : rl_len rl = sl_len sl
}.

Section Match.
Context (rl : RawList) (sl : SkipList) (live : list region) (Hm : list_match rl sl live).

Lemma load_match p n :
  load_node p sl = Ok n →
  node_wf n ∧ in_block (rl_mem rl) p (node_size n) = true ∧ cells_at (mem_cells (rl_mem rl)) p (node_cells n).
Proof.
  unfold load_node. destruct (sl_nodes sl !! p) as [n'|] eqn:E; [|done]. cbn. intros [= ->].
  destruct (lm_nodes _ _ _ Hm _ _ E) as [Hwf Hc Hr Hs]. split_and!; try done.
  change (rl_mem rl) with (rl_arena rl, rl_mem rl).2. eapply region_block; [apply Hm|apply Hm|exact Hr|].
  unfold node_size, NODE_HEADER_SIZE, PTR_SIZE in *. lia.
Qed.

Lemma forward_match p i v : load_forward p i sl = Ok v → forward_load p i (rl_mem rl) = Ok v.
Proof.
  unfold load_forward. destruct (load_node p sl) as [n| | |] eqn:E; try done. cbn.
  destruct (nd_forward n !! i) eqn:Ei; [|done]. intros [= ->]. apply load_match in E as (? & ? & ?). by eapply read_forward.
Qed.

Lemma goes_before_match link key seqno b :
  goes_before sl link key seqno = Ok b → raw_goes_before (rl_mem rl) link key seqno = Ok b.
Proof.
  destruct link as [p|]; cbn [goes_before raw_goes_before]; [|done]. destruct (load_node p sl) as [n| | |] eqn:E; try done.
  apply load_match in E as (? & ? & ?). by erewrite read_key, read_seqno by done.
Qed.

Lemma predecessors_match fuel key seqno level cur prev following r :
  predecessors_loop fuel sl key seqno level cur prev following = Ok r →
  raw_predecessors_loop fuel (rl_mem rl) key seqno level cur prev following = Ok r.
Proof.
  revert level cur prev following. induction fuel as [|fuel IH]; intros level cur prev following;
    cbn [predecessors_loop raw_predecessors_loop]; [done|].
  destruct (load_forward cur level sl) as [link| | |] eqn:E; try done. rewrite (forward_match _ _ _ E). cbn [mbind outcome_bind].
  destruct (goes_before sl link key seqno) as [b| | |] eqn:Eb; try done. rewrite (goes_before_match _ _ _ _ Eb).
  cbn [mbind outcome_bind]. destruct b, link, level; auto.
Qed.

Lemma find_predecessors_match key seqno prev following r :
  find_predecessors sl key seqno prev following = Ok r → raw_find_predecessors rl key seqno prev following = Ok r.
Proof.
  unfold find_predecessors, raw_find_predecessors, raw_fuel, search_fuel.
  rewrite (lm_max _ _ _ Hm), (lm_head _ _ _ Hm), (lm_len _ _ _ Hm).
  destruct (sl_max_height sl); [done|]. apply predecessors_match.
Qed.

Lemma walk_level_match fuel key snapshot level cur r :
  walk_level fuel sl key snapshot level cur = Ok r → raw_walk_level fuel (rl_mem rl) key snapshot level cur = Ok r.
Proof.
  revert cur. induction fuel as [|fuel IH]; intros cur; cbn [walk_level raw_walk_level]; [done|].
  destruct (load_forward cur level sl) as [link| | |] eqn:E; try done. rewrite (forward_match _ _ _ E). cbn [mbind outcome_bind].
  destruct (goes_before sl link key snapshot) as [b| | |] eqn:Eb; try done. rewrite (goes_before_match _ _ _ _ Eb).
  cbn [mbind outcome_bind]. destruct b, link; auto.
Qed.

Lemma walk_down_match level key snapshot cur r :
  walk_down level sl key snapshot cur = Ok r →
  raw_walk_down (raw_fuel rl) level (rl_mem rl) key snapshot cur = Ok r.
Proof.
  assert (raw_fuel rl = search_fuel sl) as -> by (unfold raw_fuel, search_fuel; by rewrite (lm_len _ _ _ Hm)).
  revert cur. induction level as [|level IH]; intros cur; cbn [walk_down raw_walk_down]; [done|].
  destruct (walk_level (search_fuel sl) sl key snapshot level cur) as [c| | |] eqn:E; try done.
  rewrite (walk_level_match _ _ _ _ _ _ E). cbn [mbind outcome_bind]. apply IH.
Qed.

Lemma get_match key snapshot r : skiplist_get sl key snapshot = Ok r → raw_get rl key snapshot = Ok r.
Proof.
  unfold skiplist_get, get_search, raw_get. rewrite (lm_max _ _ _ Hm), (lm_head _ _ _ Hm).
  destruct (walk_down _ sl key snapshot _) as [c| | |] eqn:E; try done. rewrite (walk_down_match _ _ _ _ _ E).
  cbn [mbind outcome_bind]. unfold get_candidate. destruct (load_forward c 0 sl) as [[p|]| | |] eqn:Ef; try done;
    rewrite (forward_match _ _ _ Ef); cbn [mbind outcome_bind]; [|done].
  destruct (load_node p sl) as [n| | |] eqn:En; try done. apply load_match in En as (? & ? & ?).
  erewrite read_key, read_seqno by done. cbn [mbind outcome_bind].
  destruct (bytes_eqb (nd_key n) key && _); [|done]. destruct (node_entry n) as [e| | |] eqn:Ee; try done.
  by erewrite read_entry by done.
Qed.

Lemma iter_match fuel cur r : iter_entries fuel sl cur = Ok r → raw_iter fuel (rl_mem rl) cur = Ok r.
Proof.
  revert cur r. induction fuel as [|fuel IH]; intros cur r; cbn [iter_entries raw_iter]; [done|].
  destruct cur as [p|]; [|done]. destruct (load_node p sl) as [n| | |] eqn:En; try done. cbn [mbind outcome_bind].
  apply load_match in En as (? & ? & ?). destruct (node_entry n) as [e| | |] eqn:Ee; try done. cbn [mbind outcome_bind].
  destruct (load_forward p 0 sl) as [link| | |] eqn:Ef; try done. rewrite (forward_match _ _ _ Ef). cbn [mbind outcome_bind].
  erewrite read_entry by done. cbn [mbind outcome_bind].
  destruct (iter_entries fuel sl link) as [rest| | |] eqn:Er; try done. by rewrite (IH _ _ Er).
Qed.

Lemma entries_match r : skiplist_entries sl = Ok r → raw_entries rl = Ok r.
Proof.
  unfold skiplist_entries, raw_entries, raw_into_iter. rewrite (lm_head _ _ _ Hm).
  destruct (load_forward (sl_head sl) 0 sl) as [link| | |] eqn:Ef; try done. rewrite (forward_match _ _ _ Ef).
  cbn [mbind outcome_bind]. assert (raw_fuel rl = search_fuel sl) as -> by (unfold raw_fuel, search_fuel; by rewrite (lm_len _ _ _ Hm)).
  apply iter_match.
Qed.
End Match.

(** ** Stores *)

Lemma on_mem_run {A} (f : st Mem A) rl r m' : f (rl_mem rl) = (r, m') → on_mem f rl = (r, rl_set (rl_arena rl) m' rl).
Proof. intros E. unfold on_mem. by rewrite E. Qed.

Lemma on_arena_run {A} (f : st (RawArena * Mem) A) rl r a m' :
  f (rl_arena rl, rl_mem rl) = (r, (a, m')) → on_arena f rl = (r, rl_set a m' rl).
Proof. intros E. unfold on_arena. by rewrite E. Qed.

Lemma node_cells_forward n i v m p :
  cells_at m p (node_cells n) → node_wf n → (i < nd_height n)%nat →
  cells_at (write_cells (node_forward_ptr p i) (ptr_cells v) m) p (node_cells (node_set_forward i v n)).
Proof.
  intros Hc Hwf Hi. rewrite <-(nw_forward _ Hwf) in Hi.
  destruct (forward_cells_insert (nd_forward n) i v Hi) as (a & b & c & E & Ha & Hb & E').
  unfold node_cells in *. cbn [node_set_forward nd_forward nd_key nd_value].
  change (node_header (node_set_forward i v n)) with (node_header n). rewrite E in Hc. rewrite E'.
  set (tl := byte_cells (nd_key n) ++ byte_cells (nd_value n)) in *. rewrite <-!app_assoc, (app_assoc _ a) in *.
  assert (node_forward_ptr p i = ptr_add p (len (byte_cells (node_header n) ++ a))) as ->.
  { unfold node_forward_ptr. rewrite ptr_add_add. f_equal. len_simpl. unfold NODE_HEADER_SIZE in *. lia. }
  by eapply cells_at_splice.
Qed.

Lemma store_match rl sl live p i v sl' :
  list_match rl sl live → store_forward p i v sl = (Ok tt, sl') →
  ∃ rl', on_mem (forward_store p i v) rl = (Ok tt, rl') ∧ list_match rl' sl' live.
Proof.
  intros Hm. unfold store_forward. destruct (sl_nodes sl !! p) as [n|] eqn:En; [|done].
  destruct (Nat.ltb_spec i (length (nd_forward n))) as [Hi|]; [|done]. intros [= <-].
  destruct (lm_nodes _ _ _ Hm _ _ En) as [Hwf Hc Hr Hs]. rewrite (nw_forward _ Hwf) in Hi.
  assert (NODE_HEADER_SIZE + Z.of_nat i * PTR_SIZE + 8 ≤ node_size n) as Hfit
    by (unfold node_size, NODE_HEADER_SIZE, PTR_SIZE; lia).
  destruct (write_inside (rl_arena rl, rl_mem rl) _ live p _ (NODE_HEADER_SIZE + Z.of_nat i * PTR_SIZE) (ptr_cells v)
    (lm_arena _ _ _ Hm) (lm_inv _ _ _ Hm) Hr) as (m' & Ew & Ec & Hm' & Hk);
    [unfold NODE_HEADER_SIZE, PTR_SIZE; lia|cbn; lia|]. cbn [fst snd] in *. rewrite <-ptr_add_add in Ew, Ec.
  eexists. split; [by apply on_mem_run|]. split; try apply Hm; [done|].
  intros q n' Hqn. cbn [set_nodes sl_nodes] in Hqn. apply lookup_insert_Some in Hqn as [[<- <-]|[Hne Hq]].
  - assert (node_size (node_set_forward i v n) = node_size n) as Esz by done. split; [|cbn; rewrite Ec|by rewrite Esz..].
    + destruct Hwf. split; try done. cbn. by rewrite length_insert.
    + by apply node_cells_forward.
  - destruct (lm_nodes _ _ _ Hm _ _ Hq) as [Hwf' Hc' Hr' Hs']. split; try done.
    apply (Hk q _ (node_cells n') Hr'); [done| |done]. by rewrite length_node_cells.
Qed.

Lemma link_level_match node prev following level rl sl live sl' :
  list_match rl sl live → link_level node prev following level sl = (Ok tt, sl') →
  ∃ rl', raw_link_level node prev following level rl = (Ok tt, rl') ∧ list_match rl' sl' live.
Proof.
  intros Hm E. unfold link_level, level_stores, raw_link_level in *. cbn [run_stores run_store] in E.
  destruct (following !! level) as [f|]; [|done]. cbn [expect] in *.
  rewrite (run_lift (Ok f) _ rl f eq_refl). unfold mbind, st_bind, st_lift in E.
  destruct (store_forward node level f sl) as [[[]|e| |] sl1] eqn:E1; try done.
  destruct (store_match _ _ _ _ _ _ _ Hm E1) as (rl1 & R1 & Hm1). rewrite (run_bind _ _ _ _ _ R1).
  destruct (prev !! level) as [p|]; [|done]. cbn [expect] in *.
  rewrite (run_lift (Ok p) _ rl1 p eq_refl). apply (store_match _ sl1); [done|].
  by destruct (store_forward p level (Some node) sl1) as [[[]|e| |] sl2].
Qed.

Lemma link_levels_match node prev following levels rl sl live sl' :
  list_match rl sl live → link_levels node prev following levels sl = (Ok tt, sl') →
  ∃ rl', raw_link_levels node prev following levels rl = (Ok tt, rl') ∧ list_match rl' sl' live.
Proof.
  revert rl sl. induction levels as [|level levels IH]; intros rl sl Hm E; cbn [link_levels raw_link_levels] in *.
  { injection E as <-. by exists rl. }
  unfold mbind at 1, st_bind at 1 in E. destruct (link_level node prev following level sl) as [[[]|e| |] sl1] eqn:E1; try done.
  destruct (link_level_match _ _ _ _ _ _ _ _ Hm E1) as (rl1 & R1 & Hm1). rewrite (run_bind _ _ _ _ _ R1). by apply (IH rl1 sl1).
Qed.

(** ** Allocation *)

Lemma write_nulls_ok a live p n k ra m pre j :
  arena_match (ra, m) a → arena_inv a ((p, n) :: live) → 1 ≤ n → cells_at (mem_cells m) p pre →
  len pre = NODE_HEADER_SIZE + Z.of_nat j * PTR_SIZE → len pre + Z.of_nat k * PTR_SIZE ≤ n →
  ∃ m', write_nulls p (seq j k) m = (Ok tt, m') ∧ cells_at (mem_cells m') p (pre ++ forward_cells (replicate k None)) ∧
    arena_match (ra, m') a ∧ regions_kept live m m'.
Proof.
  revert m pre j. induction k as [|k IH]; intros m pre j Hm Hinv Hn Hpre Ej Hfit; cbn [seq write_nulls replicate].
  { exists m. rewrite app_nil_r. by split_and!; [..|apply regions_kept_refl]. }
  destruct (append_region (ra, m) a live p n pre (ptr_cells None) Hm Hinv Hn Hpre) as (m1 & E1 & Hc1 & Hm1 & Hk1);
    [cbn; unfold PTR_SIZE in Hfit; lia|]. cbn [fst snd] in *.
  assert (node_forward_ptr p j = ptr_add p (len pre)) as Ep by (unfold node_forward_ptr; rewrite ptr_add_add; by rewrite Ej).
  destruct (IH m1 (pre ++ ptr_cells None) (S j) Hm1 Hinv Hn Hc1) as (m2 & E2 & Hc2 & Hm2 & Hk2).
  { len_simpl. unfold PTR_SIZE in *. lia. }
  { len_simpl. unfold PTR_SIZE in *. lia. }
  exists m2. unfold forward_store. rewrite Ep, (run_bind _ _ _ _ _ E1). split_and!; [done| |done|by eapply regions_kept_trans].
  change (forward_cells (None :: replicate k None)) with (ptr_cells None ++ forward_cells (replicate k None)).
  by rewrite app_assoc.
Qed.

Lemma init_node_ok a live p n h header ra m :
  arena_match (ra, m) a → arena_inv a ((p, n) :: live) → length header = 24%nat →
  NODE_HEADER_SIZE + Z.of_nat h * PTR_SIZE ≤ n →
  ∃ m', init_node p header h m = (Ok tt, m') ∧
    cells_at (mem_cells m') p (byte_cells header ++ forward_cells (replicate h None)) ∧
    arena_match (ra, m') a ∧ regions_kept live m m'.
Proof.
  intros Hm Hinv Hh Hfit. assert (1 ≤ n) as Hn by (unfold NODE_HEADER_SIZE, PTR_SIZE in *; lia).
  destruct (append_region (ra, m) a live p n [] (byte_cells header) Hm Hinv Hn) as (m1 & E1 & Hc1 & Hm1 & Hk1).
  { intros i c Hi. by rewrite lookup_nil in Hi. }
  { len_simpl. unfold NODE_HEADER_SIZE, PTR_SIZE in *. lia. }
  rewrite ptr_add_0 in E1. cbn [fst snd app] in *.
  destruct (write_nulls_ok a live p n h ra m1 (byte_cells header) 0 Hm1 Hinv Hn Hc1) as (m2 & E2 & Hc2 & Hm2 & Hk2).
  { len_simpl. unfold NODE_HEADER_SIZE, PTR_SIZE. lia. }
  { len_simpl. unfold NODE_HEADER_SIZE, PTR_SIZE in *. lia. }
  exists m2. unfold init_node. rewrite (run_bind _ _ _ _ _ E1). split_and!; try done. by eapply regions_kept_trans.
Qed.

Lemma write_key_value_ok a live p n pre key value val_len ra m :
  arena_match (ra, m) a → arena_inv a ((p, n) :: live) → 1 ≤ n → cells_at (mem_cells m) p pre →
  0 ≤ val_len ≤ len value → len pre + len key + val_len ≤ n →
  ∃ m', write_key_value (ptr_add p (len pre)) key value val_len m = (Ok tt, m') ∧
    cells_at (mem_cells m') p (pre ++ byte_cells key ++ byte_cells (take (Z.to_nat val_len) value)) ∧
    arena_match (ra, m') a ∧ regions_kept live m m'.
Proof.
  intros Hm Hinv Hn Hpre Hv Hfit. unfold write_key_value.
  destruct (append_region (ra, m) a live p n pre (byte_cells key) Hm Hinv Hn Hpre) as (m1 & E1 & Hc1 & Hm1 & Hk1);
    [len_simpl; lia|]. cbn [fst snd] in *. rewrite (run_bind _ _ _ _ _ E1). case_bool.
  - destruct (append_region (ra, m1) a live p n _ (byte_cells (take (Z.to_nat val_len) value)) Hm1 Hinv Hn Hc1)
      as (m2 & E2 & Hc2 & Hm2 & Hk2); [len_simpl; lia|]. cbn [fst snd] in *. rewrite <-app_assoc in Hc2. exists m2.
    rewrite length_app, Nat2Z.inj_add, length_byte_cells, <-ptr_add_add in E2.
    split_and!; try done. by eapply regions_kept_trans.
  - exists m1. replace (Z.to_nat val_len) with 0%nat by lia. rewrite take_0. cbn [byte_cells fmap list_fmap]. by rewrite app_nil_r.
Qed.

(** A fresh node joins the others. *)
Lemma nodes_add m m' live p n (nodes : gmap Ptr Node) :
  (∀ q k, nodes !! q = Some k → node_in m live q k) → regions_kept live m m' → node_wf n →
  cells_at (mem_cells m') p (node_cells n) → node_size n ≤ granted (node_size n) 8 →
  ∀ q k, <[p := n]> nodes !! q = Some k → node_in m' ((p, granted (node_size n) 8) :: live) q k.
Proof.
  intros Hall Hk Hwf Hc Hs q k [[<- <-]|[_ Hq]]%lookup_insert_Some; [split; try done; left|].
  destruct (Hall _ _ Hq) as [Hwf' Hc' Hr' Hs']. split; try done; [|by right].
  eapply Hk; [exact Hr'| |done]. by rewrite length_node_cells.
Qed.

Lemma node_request n : node_wf n → request_ok (node_size n) 8.
Proof.
  intros [Hh _ _ Hk Hv _]. unfold request_ok, node_size, NODE_HEADER_SIZE, PTR_SIZE, MAX_HEIGHT, is_u32 in *.
  split_and!; [lia|lia|done|lia].
Qed.

Definition fresh_node (key value : bytes) (seqno : Z) (op : OpType) (height : nat) : Node :=
  {| nd_height := height; nd_op_type := op_type_as_byte op; nd_seqno := seqno; nd_forward := replicate height None;
     nd_key := key; nd_value := match op with NodePut => value | NodeTombstone => [] end |}.

Lemma fresh_node_wf key value seqno op height :
  insert_fits key value → is_u64 seqno → (1 ≤ height ≤ MAX_HEIGHT)%nat → node_wf (fresh_node key value seqno op height).
Proof.
  intros [Hk Hv] Hs Hh. split; cbn; try done; [by rewrite length_replicate|by destruct op|].
  destruct op; [done|]. unfold is_u32. cbn. lia.
Qed.

Lemma allocate_node_match key value seqno op height rl sl live raw sl' :
  list_match rl sl live → insert_fits key value → is_u64 seqno → (1 ≤ height ≤ MAX_HEIGHT)%nat →
  allocate_node key value seqno op height sl = (Ok raw, sl') →
  ∃ rl' live', raw_allocate_node key value seqno op height rl = (Ok raw, rl') ∧ list_match rl' sl' live'.
Proof.
  intros Hm Hfits Hs Hh E. pose proof (fresh_node_wf key value seqno op height Hfits Hs Hh) as Hwf.
  set (n := fresh_node key value seqno op height) in *. pose proof (node_request n Hwf) as Hreq.
  destruct (granted_bound _ _ Hreq) as (Hg & Hsize & _).
  destruct (allocate_region _ _ (rl_arena rl, rl_mem rl) _ live (lm_arena _ _ _ Hm) (lm_inv _ _ _ Hm) Hreq)
    as (p & [ra m] & a' & Er & Ea & Hm1 & Hinv1 & _ & Hk1). cbn [fst snd] in *.
  unfold allocate_node in E. change (NODE_HEADER_SIZE + Z.of_nat height * PTR_SIZE + len key +
    len (match op with NodePut => value | NodeTombstone => [] end)) with (node_size n) in E. rewrite Ea in E.
  rewrite !try_u32_ok in E by apply Hwf. injection E as <- <-.
  assert (match op with NodePut => len value | NodeTombstone => 0 end = len (nd_value n)) as Ev by (by destruct op).
  unfold raw_allocate_node. rewrite Ev. change (len key) with (len (nd_key n)).
  change (NODE_HEADER_SIZE + Z.of_nat height * PTR_SIZE + len (nd_key n) + len (nd_value n)) with (node_size n).
  rewrite (run_bind _ _ _ _ _ (on_arena_run _ rl _ _ _ Er)).
  rewrite (run_lift _ _ _ (Z.of_nat height)) by (unfold try_u8, MAX_HEIGHT in *; by decide_bool).
  rewrite (run_lift _ _ _ (len (nd_key n))) by (by rewrite try_u32_ok by apply Hwf).
  rewrite (run_lift _ _ _ (len (nd_value n))) by (by rewrite try_u32_ok by apply Hwf).
  change (header_bytes _ _ _ _ _) with (node_header n).
  destruct (init_node_ok a' live p _ height (node_header n) ra m Hm1 Hinv1 (length_node_header n))
    as (m1 & E1 & Hc1 & Hm1' & Hk1'); [unfold node_size in *; cbn in *; lia|].
  rewrite (run_bind _ _ _ _ _ (on_mem_run _ (rl_set ra m rl) _ _ E1)).
  set (pre := byte_cells (node_header n) ++ _) in *.
  assert (len pre = NODE_HEADER_SIZE + Z.of_nat height * PTR_SIZE) as Epre
    by (unfold pre; len_simpl; unfold NODE_HEADER_SIZE, PTR_SIZE; lia).
  destruct (write_key_value_ok a' live p _ pre key value (len (nd_value n)) ra m1 Hm1' Hinv1 ltac:(lia) Hc1)
    as (m2 & E2 & Hc2 & Hm2 & Hk2);
    [unfold n; destruct op; cbn; lia|unfold node_size in *; cbn [n fresh_node nd_height nd_key] in *; lia|].
  rewrite <-Epre, (run_bind _ _ _ _ _ (on_mem_run _ (rl_set ra m1 rl) _ _ E2)).
  eexists _, _. split; [reflexivity|]. split; try apply Hm; [done|done|].
  apply (nodes_add (rl_mem rl)); [apply Hm|exact (regions_kept_trans _ _ _ _ Hk1 (regions_kept_trans _ _ _ _ Hk1' Hk2))|done| |done].
  unfold node_cells. unfold pre in Hc2. rewrite <-app_assoc in Hc2.
  assert (take (Z.to_nat (len (nd_value n))) value = nd_value n) as Etake
    by (unfold n; destruct op; cbn; [by rewrite Nat2Z.id, firstn_all|done]).
  rewrite Etake in Hc2. exact Hc2.
Qed.

(** ** Insertion *)

Lemma random_height_match rl sl live :
  list_match rl sl live →
  ∃ h rl1 sl1, random_height sl = (Ok h, sl1) ∧ raw_random_height rl = (Ok h, rl1) ∧
    (1 ≤ h ≤ MAX_HEIGHT)%nat ∧ list_match rl1 sl1 live.
Proof.
  intros Hm. unfold random_height, raw_random_height. rewrite (lm_rng _ _ _ Hm).
  eexists (height_loop MAX_HEIGHT 1 (xorshift32 (sl_rng_state sl))), _, _. split; [done|]. split; [done|].
  split; [apply height_loop_range; unfold MAX_HEIGHT; lia|]. destruct Hm. by split.
Qed.

Lemma insert_prepare_match key value seqno op rl sl live r sl' :
  list_match rl sl live → insert_fits key value → is_u64 seqno →
  insert_prepare key value seqno op sl = (Ok r, sl') →
  ∃ rl' live', raw_insert_prepare key value seqno op rl = (Ok r, rl') ∧ list_match rl' sl' live'.
Proof.
  intros Hm Hfits Hs E. unfold insert_prepare in E. unfold raw_insert_prepare.
  destruct (random_height_match _ _ _ Hm) as (h & rl1 & sl1 & E1 & R1 & Hh & Hm1).
  rewrite (run_bind _ _ _ _ _ E1) in E. rewrite (run_bind _ _ _ _ _ R1).
  unfold mbind at 1, st_bind at 1 in E. destruct (allocate_node key value seqno op h sl1) as [[raw| | |] sl2] eqn:E2; try done.
  destruct (allocate_node_match _ _ _ _ _ _ _ _ _ _ Hm1 Hfits Hs Hh E2) as (rl2 & live2 & R2 & Hm2).
  rewrite (run_bind _ _ _ _ _ R2), run_get. rewrite run_get in E.
  rewrite (lm_head _ _ _ Hm2), (lm_max _ _ _ Hm2). exists (if (sl_max_height sl2 <? h)%nat then raw_set_max_height h rl2 else rl2), live2.
  destruct (find_predecessors sl2 key seqno _ _) as [[prev following]| | |] eqn:Ef; try done.
  rewrite (run_lift _ _ _ _ eq_refl) in E. rewrite (run_lift _ _ _ _ (find_predecessors_match _ _ _ Hm2 _ _ _ _ _ Ef)).
  destruct (sl_max_height sl2 <? h)%nat; injection E as <- <-; (split; [reflexivity|]); [|done].
  destruct Hm2. by split.
Qed.

Lemma insert_match key value seqno op rl sl live p sl' :
  list_match rl sl live → insert_fits key value → is_u64 seqno →
  skiplist_insert key value seqno op sl = (Ok p, sl') →
  ∃ rl' live', raw_insert key value seqno op rl = (Ok p, rl') ∧ list_match rl' sl' live'.
Proof.
  intros Hm Hfits Hs E. unfold skiplist_insert in E. unfold raw_insert.
  unfold mbind at 1, st_bind at 1 in E. destruct (insert_prepare key value seqno op sl) as [[r| | |] sl1] eqn:E1; try done.
  destruct (insert_prepare_match _ _ _ _ _ _ _ _ _ Hm Hfits Hs E1) as (rl1 & live1 & R1 & Hm1).
  rewrite (run_bind _ _ _ _ _ R1). destruct r as [[[node h] prev] following].
  unfold mbind at 1, st_bind at 1 in E. destruct (link_levels node prev following (seq 0 h) sl1) as [[[]| | |] sl2] eqn:E2; try done.
  destruct (link_levels_match _ _ _ _ _ _ _ _ Hm1 E2) as (rl2 & R2 & Hm2). rewrite (run_bind _ _ _ _ _ R2).
  rewrite run_modify in *. injection E as <- <-. eexists _, live1. split; [reflexivity|].
  destruct Hm2. split; try done. cbn. congruence.
Qed.

Lemma insert_run_match ops rl sl live sl' :
  list_match rl sl live → Forall (λ o, insert_fits (ia_key o) (ia_value o) ∧ is_u64 (ia_seqno o)) ops →
  insert_run ops sl = (Ok tt, sl') → ∃ rl' live', raw_insert_run ops rl = (Ok tt, rl') ∧ list_match rl' sl' live'.
Proof.
  intros Hm Hops. revert rl sl live Hm. induction Hops as [|o ops [Hf Hs] _ IH]; intros rl sl live Hm E;
    cbn [insert_run raw_insert_run] in *; [injection E as <-; by exists rl, live|].
  unfold mbind at 1, st_bind at 1 in E. destruct (skiplist_insert _ _ _ _ sl) as [[p| | |] sl1] eqn:E1; try done.
  destruct (insert_match _ _ _ _ _ _ _ _ _ Hm Hf Hs E1) as (rl1 & live1 & R1 & Hm1).
  rewrite (run_bind _ _ _ _ _ R1). by eapply IH.
Qed.

Lemma raw_list_new_match :
  ∃ sl rl live, skiplist_new = Ok sl ∧ raw_list_new = Ok rl ∧ list_match rl sl live.
Proof.
  set (n := {| nd_height := MAX_HEIGHT; nd_op_type := op_type_as_byte NodePut; nd_seqno := 0;
               nd_forward := replicate MAX_HEIGHT None; nd_key := []; nd_value := [] |}).
  assert (node_wf n) as Hwf by (split; cbn; unfold MAX_HEIGHT, is_u32, is_u64; cbn; lia).
  pose proof (node_request n Hwf) as Hreq. destruct (granted_bound _ _ Hreq) as (Hg & Hsize & _).
  destruct (allocate_region _ _ _ _ _ raw_new_match arena_new_inv Hreq) as (p & [ra m] & a & Er & Ea & Hm & Hinv & _ & Hk).
  destruct (init_node_ok a [] p _ MAX_HEIGHT (node_header n) ra m Hm Hinv (length_node_header n)) as (m' & E & Hc & Hm' & _).
  { change (NODE_HEADER_SIZE + Z.of_nat MAX_HEIGHT * PTR_SIZE) with (node_size n). lia. }
  unfold skiplist_new, build_head, raw_list_new, raw_build_head.
  change (NODE_HEADER_SIZE + Z.of_nat MAX_HEIGHT * PTR_SIZE) with (node_size n). rewrite Ea. cbn [mbind outcome_bind].
  rewrite (run_bind _ _ _ _ _ Er), (run_lift _ _ _ (Z.of_nat MAX_HEIGHT) eq_refl).
  change (header_bytes _ _ 0 0 0) with (node_header n). rewrite (run_bind _ _ _ _ _ (on_snd_run _ ra _ _ _ E)).
  eexists _, _, [(p, granted (node_size n) 8)]. split; [reflexivity|]. split; [reflexivity|].
  split; [exact Hm'|exact Hinv| |reflexivity..]. cbn [sl_nodes rl_mem]. intros q k [<- <-]%lookup_singleton_Some.
  split; [done| |by apply list_elem_of_singleton|done].
  unfold node_cells. cbn [n nd_key nd_value byte_cells fmap list_fmap]. by rewrite !app_nil_r.
Qed.

(** * Heap typing *)

(** A node of the type the code casts pointers to: a height in range, and in
    every slot below it null or a node of the heap that reaches the level. *)
Definition node_typed (m : Mem) (heap : list Ptr) (p : Ptr) : Prop :=
  ∃ height, node_height p m = Ok height ∧ 1 ≤ height ≤ Z.of_nat MAX_HEIGHT ∧
  ∀ i : nat, Z.of_nat i < height →
  ∃ v, forward_load p i m = Ok v ∧
    ∀ q, v = Some q → q ∈ heap ∧ ∃ height', node_height q m = Ok height' ∧ Z.of_nat i < height'.

Section Typing.
Context (rl : RawList) (sl : SkipList) (live : list region) (Hm : list_match rl sl live).
Context (ps : list Ptr) (l : list MemEntry) (Hrep : sl_rep sl ps l).

Lemma height_match p n : sl_nodes sl !! p = Some n → node_wf n ∧ node_height p (rl_mem rl) = Ok (Z.of_nat (nd_height n)).
Proof.
  intros Hn. destruct (load_match rl sl live Hm p n) as (Hwf & Hb & Hc); [by unfold load_node; rewrite Hn|].
  split; [done|]. by eapply read_height.
Qed.

(** What a slot on the chain of its level points at. *)
Lemma slot_typed p lv x y :
  (lv < MAX_HEIGHT)%nat → sl_head sl :: level_chain sl ps lv = x ++ p :: y →
  ∃ v, forward_load p lv (rl_mem rl) = Ok v ∧
    ∀ q, v = Some q → q ∈ ps ∧ ∃ height', node_height q (rl_mem rl) = Ok height' ∧ Z.of_nat lv < height'.
Proof.
  intros Hlv E. pose proof (sh_linked _ _ _ _ (sr_shape _ _ _ Hrep) lv Hlv) as Hl.
  eapply linked_from in Hl; [|exact E].
  assert (∃ v, fwd sl p lv = Some v ∧ ∀ q, v = Some q → q ∈ y) as (v & Ef & Hy).
  { destruct y as [|q y]; cbn in Hl; [by exists None|]. destruct Hl as [Hf _]. exists (Some q).
    split; [done|]. intros ? [= <-]. apply list_elem_of_here. }
  exists v. split; [by eapply forward_match, load_forward_fwd|]. intros q ->. specialize (Hy q eq_refl).
  assert (q ∈ level_chain sl ps lv) as Hq.
  { destruct x as [|z x]; cbn in E; injection E as _ ->; [done|]. apply elem_of_app. right. by apply list_elem_of_further. }
  unfold level_chain in Hq. apply list_elem_of_filter in Hq as [Hh Hq]. split; [done|].
  unfold height_at in Hh. destruct (sl_nodes sl !! q) as [n|] eqn:En; [|lia].
  destruct (height_match q n En) as [_ ->]. eexists. split; [done|]. lia.
Qed.

Lemma typed_node p : p ∈ ps → node_typed (rl_mem rl) ps p.
Proof.
  intros Hp. destruct (holds_in _ _ _ _ (sr_shape _ _ _ Hrep) p Hp) as (e & n & Hn & _).
  destruct (height_match p n Hn) as [Hwf Hh]. exists (Z.of_nat (nd_height n)). split; [done|].
  destruct (nw_height _ Hwf) as [H1 H2]. split; [lia|]. intros i Hi.
  assert (p ∈ level_chain sl ps i) as (x & y & E)%list_elem_of_split.
  { apply list_elem_of_filter. split; [|done]. unfold height_at. rewrite Hn. lia. }
  apply (slot_typed p i (sl_head sl :: x) y); [lia|]. by rewrite E.
Qed.

Lemma typed_head : node_typed (rl_mem rl) ps (rl_head rl).
Proof.
  rewrite (lm_head _ _ _ Hm).
  pose proof (sh_linked _ _ _ _ (sr_shape _ _ _ Hrep) (MAX_HEIGHT - 1) ltac:(unfold MAX_HEIGHT; lia)) as Hl.
  assert (∃ n, sl_nodes sl !! sl_head sl = Some n ∧ is_Some (nd_forward n !! (MAX_HEIGHT - 1)%nat)) as (n & Hn & Hs).
  { destruct (level_chain _ _ _); cbn [linked] in Hl; [|destruct Hl as [Hl _]]; unfold fwd in Hl;
      destruct (sl_nodes sl !! sl_head sl) as [n|]; try done; exists n; (split; [done|]); by eexists. }
  destruct (height_match _ n Hn) as [Hwf Hh]. exists (Z.of_nat (nd_height n)). split; [done|].
  destruct (nw_height _ Hwf) as [H1 H2]. split; [lia|]. intros i Hi.
  by apply (slot_typed (sl_head sl) i [] (level_chain sl ps i)); [lia|].
Qed.

Lemma typed_entry p : p ∈ ps → ∃ e, ref_entry p (rl_mem rl) = Ok e ∧ e ∈ l.
Proof.
  intros [i Hi]%list_elem_of_lookup.
  destruct (Forall2_lookup_l _ _ _ _ _ (sh_nodes _ _ _ _ (sr_shape _ _ _ Hrep)) Hi) as (e & He & n & Hn & Hk & Hv & Hs & Ho & _).
  exists e. split; [|by eapply list_elem_of_lookup_2].
  destruct (load_match rl sl live Hm p n) as (Hwf & Hb & Hc); [by unfold load_node; rewrite Hn|].
  eapply read_entry; [done..|]. unfold node_entry, node_op. rewrite Ho, Hk, Hv, Hs. by destruct e as [? ? ? []].
Qed.
End Typing.

(** * Properties *)

(** C13. The memtable's bytes hold its entries.  Run any insertions on a new list
    whose nodes are bytes in arena slabs: no access leaves a live block, reads
    bytes that were not written or takes other bytes for a pointer; iterating
    yields the sorted entries, and looking up any key at any snapshot the
    newest version not above it, as read back from the bytes of the nodes; and
    dropping the arena then gives all memory back. *)
Theorem memtable_bytes_refine (ops : list InsertArgs)
    (Hops : Forall (λ o, insert_fits (ia_key o) (ia_value o) ∧ is_u64 (ia_seqno o)) ops) :
  ∃ rl0 rl m, raw_list_new = Ok rl0 ∧ raw_insert_run ops rl0 = (Ok tt, rl) ∧
    raw_entries rl = Ok (mem_insert_run ops []) ∧
    (∀ key snapshot, raw_get rl key snapshot = Ok (mem_get (mem_insert_run ops []) key snapshot)) ∧
    drop_arena (rl_arena rl) (rl_mem rl) = (Ok tt, m) ∧ mem_blocks m = ∅ ∧ mem_cells m = ∅.
Proof.
  destruct raw_list_new_match as (sl0 & rl0 & live0 & Enew & Rnew & Hm0).
  destruct skiplist_new_ok as (sl0' & Enew' & Hrep0). rewrite Enew in Enew'. injection Enew' as <-.
  destruct (insert_run_ok ops sl0 [] []) as (sl & ps & Erun & Hrep); [|done|].
  { eapply Forall_impl; [exact Hops|]. by intros o []. }
  destruct (insert_run_match _ _ _ _ _ Hm0 Hops Erun) as (rl & live & Rrun & Hm).
  destruct (drop_arena_ok _ _ (lm_arena _ _ _ Hm)) as (m & Ed & Hb & Hc). exists rl0, rl, m.
  split; [exact Rnew|]. split; [exact Rrun|]. split; [|split; [|exact (conj Ed (conj Hb Hc))]].
  - eapply entries_match; [exact Hm|]. eapply skiplist_entries_spec, Hrep.
  - intros key snapshot. eapply get_match; [exact Hm|]. eapply skiplist_get_spec, Hrep.
Qed.

Lemma memtable_bytes_refine_witness :
  let ops := [ {| ia_key := [98]; ia_value := [1]; ia_seqno := 1; ia_op := NodePut |};
               {| ia_key := [97; 0]; ia_value := [2; 3]; ia_seqno := 2; ia_op := NodePut |};
               {| ia_key := [98]; ia_value := [9]; ia_seqno := 3; ia_op := NodeTombstone |} ] in
  Forall (λ o, insert_fits (ia_key o) (ia_value o) ∧ is_u64 (ia_seqno o)) ops ∧
  ∃ rl0 rl, raw_list_new = Ok rl0 ∧ raw_insert_run ops rl0 = (Ok tt, rl) ∧
    raw_get rl [97; 0] 9 = Ok (Some (entry_for [97; 0] [2; 3] 2 NodePut)).
Proof.
  intros ops. assert (Forall (λ o, insert_fits (ia_key o) (ia_value o) ∧ is_u64 (ia_seqno o)) ops) as H
    by (repeat (constructor; [unfold insert_fits, is_u32, is_u64; cbn; lia|]); constructor).
  split; [exact H|]. destruct (memtable_bytes_refine ops H) as (rl0 & rl & m & Enew & Erun & _ & Hget & _).
  exists rl0, rl. split; [exact Enew|]. split; [exact Erun|]. rewrite Hget. reflexivity.
Defined.

(** C14. The memtable's heap is well typed after any insertions: the head and the
    node of every insertion have a height in range, every forward slot below
    the height holds null or the address of the node of an insertion that
    reaches the slot's level, and key, value, sequence number and operation of
    every node read back as an entry of the list, so the casts of raw
    pointers are to what is there and [op_type] does not panic. *)
Theorem memtable_heap_typed (ops : list InsertArgs)
    (Hops : Forall (λ o, insert_fits (ia_key o) (ia_value o) ∧ is_u64 (ia_seqno o)) ops) :
  ∃ rl0 rl heap, raw_list_new = Ok rl0 ∧ raw_insert_run ops rl0 = (Ok tt, rl) ∧
    NoDup (rl_head rl :: heap) ∧ length heap = length ops ∧
    Forall (node_typed (rl_mem rl) heap) (rl_head rl :: heap) ∧
    Forall (λ p, ∃ e, ref_entry p (rl_mem rl) = Ok e ∧ e ∈ mem_insert_run ops []) heap.
Proof.
  destruct raw_list_new_match as (sl0 & rl0 & live0 & Enew & Rnew & Hm0).
  destruct skiplist_new_ok as (sl0' & Enew' & Hrep0). rewrite Enew in Enew'. injection Enew' as <-.
  destruct (insert_run_ok ops sl0 [] []) as (sl & ps & Erun & Hrep); [|done|].
  { eapply Forall_impl; [exact Hops|]. by intros o []. }
  destruct (insert_run_match _ _ _ _ _ Hm0 Hops Erun) as (rl & live & Rrun & Hm). exists rl0, rl, ps.
  pose proof (sr_shape _ _ _ Hrep) as Hsh. split; [exact Rnew|]. split; [exact Rrun|].
  split; [rewrite (lm_head _ _ _ Hm); exact (sh_nodup _ _ _ _ Hsh)|]. split; [|split].
  - rewrite (Forall2_length _ _ _ (sh_nodes _ _ _ _ Hsh)). rewrite length_mem_insert_run. cbn. lia.
  - constructor; [by eapply typed_head|]. apply Forall_forall. intros p Hp. by eapply typed_node.
  - apply Forall_forall. intros p Hp. by eapply typed_entry.
Qed.

Lemma memtable_heap_typed_witness :
  let ops := [ {| ia_key := [98]; ia_value := [1]; ia_seqno := 1; ia_op := NodePut |};
               {| ia_key := [97; 0]; ia_value := []; ia_seqno := 2; ia_op := NodeTombstone |} ] in
  Forall (λ o, insert_fits (ia_key o) (ia_value o) ∧ is_u64 (ia_seqno o)) ops ∧
  ∃ rl0 rl heap, raw_list_new = Ok rl0 ∧ raw_insert_run ops rl0 = (Ok tt, rl) ∧ length heap = 2%nat ∧
    Forall (node_typed (rl_mem rl) heap) heap.
Proof.
  intros ops. assert (Forall (λ o, insert_fits (ia_key o) (ia_value o) ∧ is_u64 (ia_seqno o)) ops) as H
    by (repeat (constructor; [unfold insert_fits, is_u32, is_u64; cbn; lia|]); constructor).
  split; [exact H|]. destruct (memtable_heap_typed ops H) as (rl0 & rl & heap & Enew & Erun & _ & Hl & Ht & _).
  exists rl0, rl, heap. split; [exact Enew|]. split; [exact Erun|]. split; [exact Hl|].
  apply Forall_cons in Ht as [_ Ht]. exact Ht.
Defined.
