(* ===== verification/Merger.v ===== *)
(** The k-way merge: [crates/paddock-core/src/compaction/merger.rs].

    [KWayMerge] is generic over an iterator of records; the trait bound is the
    class [RecordStream], and what a client may expect of a stream is
    [yields].  The standard library's [BinaryHeap<Reverse<_>>] is a bag whose
    [pop] takes a least entry. *)

From S2P Require Import Prelude Varint Checksum Vfs Bloom SstFormat Block Crypto SstWriter.
From S2P Require Import SstReader InternalKey.

(** * Data *)

(** [Iterator<Item = Result<(Vec<u8>, LookupHit)>>]: [W] is what the iterator
    reads from. *)
Class RecordStream (I W : Type) := rs_next : W → st I (option (bytes * LookupHit)).

Record HeapEntry := { he_key : bytes; he_seqno : Z; he_hit : LookupHit; he_source : nat }.

(** [Ord::cmp]. *)
Definition heap_cmp (self other : HeapEntry) : comparison :=
  match bytes_cmp (he_key self) (he_key other) with
  | Eq =>
      match he_seqno other ?= he_seqno self with
      | Eq => (he_source self ?= he_source other)%nat
      | o => o
      end
  | o => o
  end.

Definition heap_eq (self other : HeapEntry) : bool :=
  match heap_cmp self other with Eq => true | _ => false end.

Definition heap_partial_cmp (self other : HeapEntry) : option comparison := Some (heap_cmp self other).

Record KWayMerge (I : Type) := {
  km_streams : list I;
  km_heap : list HeapEntry;
  km_primed : bool
}.
Arguments km_streams {I} _.
Arguments km_heap {I} _.
Arguments km_primed {I} _.

(** [BinaryHeap::pop] on [Reverse] entries: a least one, and the others. *)
Fixpoint heap_min (x : HeapEntry) (l : list HeapEntry) : HeapEntry * list HeapEntry :=
  match l with
  | [] => (x, [])
  | y :: l =>
      match heap_cmp y x with
      | Lt => let (m, rest) := heap_min y l in (m, x :: rest)
      | _ => let (m, rest) := heap_min x l in (m, y :: rest)
      end
  end.

Definition heap_pop (h : list HeapEntry) : option (HeapEntry * list HeapEntry) :=
  match h with [] => None | x :: l => Some (heap_min x l) end.

(** * Operations *)

Section Merge.
Context {I W : Type} `{RecordStream I W}.

Definition merge_new (streams : list I) : KWayMerge I :=
  {| km_streams := streams; km_heap := []; km_primed := false |}.

Definition input_count (m : KWayMerge I) : nat := length (km_streams m).

Definition km_set_heap (h : list HeapEntry) (m : KWayMerge I) : KWayMerge I :=
  {| km_streams := km_streams m; km_heap := h; km_primed := km_primed m |}.

Definition km_set_primed (m : KWayMerge I) : KWayMerge I :=
  {| km_streams := km_streams m; km_heap := km_heap m; km_primed := true |}.

Definition km_set_stream (source : nat) (s : I) (m : KWayMerge I) : KWayMerge I :=
  {| km_streams := <[source := s]> (km_streams m); km_heap := km_heap m; km_primed := km_primed m |}.

(** [self.streams[source].next()]: the stream advances even when it fails. *)
Definition pull (w : W) (source : nat) : st (KWayMerge I) (option (bytes * LookupHit)) := λ m,
  match km_streams m !! source with
  | None => (Panic, m)
  | Some s => let (item, s) := rs_next w s in (item, km_set_stream source s m)
  end.

Definition merge_advance (w : W) (source : nat) : st (KWayMerge I) bool :=
  item ← pull w source;
  match item with
  | Some (key, hit) =>
      _ ← st_modify (λ m, km_set_heap
        ({| he_key := key; he_seqno := hit_seqno hit; he_hit := hit; he_source := source |} :: km_heap m) m);
      mret true
  | None => mret false
  end.

Fixpoint advance_all (w : W) (sources : list nat) : st (KWayMerge I) () :=
  match sources with
  | [] => mret tt
  | source :: sources => _ ← merge_advance w source; advance_all w sources
  end.

Definition prime (w : W) : st (KWayMerge I) () :=
  m ← st_get;
  if km_primed m then mret tt
  else
    _ ← advance_all w (seq 0 (length (km_streams m)));
    st_modify km_set_primed.

Definition merge_next_record (w : W) : st (KWayMerge I) (option (bytes * LookupHit)) :=
  _ ← prime w;
  m ← st_get;
  match heap_pop (km_heap m) with
  | None => mret None
  | Some (top, rest) =>
      _ ← st_modify (km_set_heap rest);
      _ ← merge_advance w (he_source top);
      mret (Some (he_key top, he_hit top))
  end.

(** Draining the merge, as [for rec in merger] does. *)
Fixpoint merge_collect (fuel : nat) (w : W) : st (KWayMerge I) (list (bytes * LookupHit)) :=
  match fuel with
  | O => st_lift OutOfFuel
  | S fuel =>
      rec ← merge_next_record w;
      match rec with
      | None => mret []
      | Some rec => rest ← merge_collect fuel w; mret (rec :: rest)
      end
  end.

(** [KWayMerge] is an iterator of records too. *)
#[global] Instance merge_record_stream : RecordStream (KWayMerge I) W := merge_next_record.

(** * What a stream promises *)

(** The stream yields [recs], then ends. *)
Fixpoint yields (w : W) (recs : list (bytes * LookupHit)) (s : I) : Prop :=
  match recs with
  | [] => ∃ s', rs_next w s = (Ok None, s')
  | r :: recs => ∃ s', rs_next w s = (Ok (Some r), s') ∧ yields w recs s'
  end.

(** A property of streams that says what they still have to yield. *)
Class StreamLaw (Y : W → list (bytes * LookupHit) → I → Prop) :=
  stream_step w recs s :
    Y w recs s → ∃ s', rs_next w s = (Ok (head recs), s') ∧ (recs ≠ [] → Y w (tail recs) s').

(** The same for a stream that goes on returning [None] past its end. *)
Class FusedLaw (Y : W → list (bytes * LookupHit) → I → Prop) :=
  fused_step w recs s : Y w recs s → ∃ s', rs_next w s = (Ok (head recs), s') ∧ Y w (tail recs) s'.

#[global] Instance yields_law : StreamLaw yields.
Proof.
  intros w [|r recs] s; cbn.
  - intros [s' E]. by exists s'.
  - intros (s' & E & Hy). by exists s'.
Qed.
End Merge.

#[global] Instance sst_record_stream `{Crc32c} `{Xxh3} `{AesGcm} `{VfsFile F W} :
  RecordStream (SstStream F) W := stream_next_record.

(** * The merged sequence *)

(** A record of source [i], as the heap holds it. *)
Definition tag (i : nat) (r : bytes * LookupHit) : HeapEntry :=
  {| he_key := r.1; he_seqno := hit_seqno r.2; he_hit := r.2; he_source := i |}.

Definition untag (e : HeapEntry) : bytes * LookupHit := (he_key e, he_hit e).

Definition heap_le (a b : HeapEntry) : Prop := heap_cmp a b ≠ Gt.

(** Records in the order of the version keys. *)
Definition rec_le (a b : bytes * LookupHit) : Prop :=
  ikey_le a.1 (hit_seqno a.2) b.1 (hit_seqno b.2).

(** [out] interleaves the inputs: it restricts to each of them, sources in
    order, and has nothing else. *)
Definition interleaves (out : list HeapEntry) (inputs : list (list (bytes * LookupHit))) : Prop :=
  Forall (λ e, he_source e < length inputs)%nat out ∧
  ∀ i recs, inputs !! i = Some recs → filter (λ e, he_source e = i) out = tag i <$> recs.

Lemma heap_cmp_cik a b :
  heap_cmp a b = match compare_internal_key (he_key a) (he_seqno a) (he_key b) (he_seqno b) with
                 | Eq => (he_source a ?= he_source b)%nat | o => o end.
Proof. unfold heap_cmp, compare_internal_key. by destruct (bytes_cmp _ _). Qed.

Lemma heap_cmp_antisym a b : heap_cmp b a = CompOpp (heap_cmp a b).
Proof.
  rewrite !heap_cmp_cik. rewrite (cik_antisym (he_key a) (he_seqno a)).
  destruct (compare_internal_key _ _ _ _); cbn; try done. apply Nat.compare_antisym.
Qed.

Lemma heap_le_refl a : heap_le a a.
Proof. unfold heap_le. by rewrite heap_cmp_cik, cik_refl, Nat.compare_refl. Qed.

Lemma heap_le_trans a b c : heap_le a b → heap_le b c → heap_le a c.
Proof.
  unfold heap_le. rewrite !heap_cmp_cik.
  destruct (compare_internal_key (he_key a) _ (he_key b) _) eqn:E1; try done.
  - apply cik_eq in E1 as [-> ->].
    destruct (compare_internal_key (he_key b) _ (he_key c) _) eqn:E2; try done.
    rewrite !Nat.compare_le_iff. lia.
  - intros _. destruct (compare_internal_key (he_key b) _ (he_key c) _) eqn:E2; try done; intros _.
    + apply cik_eq in E2 as [<- <-]. by rewrite E1.
    + by rewrite (cik_lt_trans _ _ _ _ _ _ E1 E2).
Qed.

Lemma heap_le_total a b : heap_cmp b a ≠ Lt → heap_le a b.
Proof. unfold heap_le. rewrite (heap_cmp_antisym a b). by destruct (heap_cmp a b). Qed.

(** Within one source the heap's order is the records' order. *)
Lemma heap_le_tag i a b : heap_le (tag i a) (tag i b) ↔ rec_le a b.
Proof.
  unfold heap_le, rec_le, ikey_le. rewrite heap_cmp_cik. cbn.
  destruct (compare_internal_key _ _ _ _); [|done..]. rewrite Nat.compare_refl. done.
Qed.

Lemma heap_le_rec a b :
  he_seqno a = hit_seqno (he_hit a) → he_seqno b = hit_seqno (he_hit b) →
  heap_le a b → rec_le (untag a) (untag b).
Proof.
  unfold heap_le, rec_le, ikey_le, untag. rewrite heap_cmp_cik. cbn. intros -> ->.
  by destruct (compare_internal_key _ _ _ _).
Qed.

Lemma heap_min_spec x l m rest :
  heap_min x l = (m, rest) → m :: rest ≡ₚ x :: l ∧ Forall (heap_le m) (x :: l).
Proof.
  revert x m rest. induction l as [|y l IH]; intros x m rest; cbn [heap_min].
  { intros [= <- <-]. split; [done|]. constructor; [apply heap_le_refl|done]. }
  assert (∀ a b, heap_le a b → let (m', rest') := heap_min a l in
    (m', b :: rest') = (m, rest) → m :: rest ≡ₚ b :: a :: l ∧ Forall (heap_le m) (b :: a :: l)) as Hstep.
  { intros a b Hab. destruct (heap_min a l) as [m' rest'] eqn:E. intros [= <- <-].
    apply IH in E as [Hp Hall]. split; [by rewrite perm_swap, Hp|]. constructor; [|done].
    apply Forall_cons in Hall as [Ha _]. by eapply heap_le_trans. }
  destruct (heap_cmp y x) eqn:E.
  - pose proof (Hstep x y (heap_le_total x y ltac:(by rewrite E))) as Hs.
    destruct (heap_min x l). intros Heq. apply Hs in Heq as [Hp Hall]. split; [by rewrite perm_swap|].
    apply Forall_cons in Hall as [? [? ?]%Forall_cons]. by repeat constructor.
  - pose proof (Hstep y x ltac:(unfold heap_le; by rewrite E)) as Hs. by destruct (heap_min y l).
  - pose proof (Hstep x y (heap_le_total x y ltac:(by rewrite E))) as Hs.
    destruct (heap_min x l). intros Heq. apply Hs in Heq as [Hp Hall]. split; [by rewrite perm_swap|].
    apply Forall_cons in Hall as [? [? ?]%Forall_cons]. by repeat constructor.
Qed.

(** * The merge keeps its promise *)

Section Correct.
Context {I W : Type} `{RecordStream I W} (Y : W → list (bytes * LookupHit) → I → Prop) `{!StreamLaw Y}.

(** The next record of every source, from source [i] on. *)
Fixpoint heads (i : nat) (rems : list (list (bytes * LookupHit))) : list HeapEntry :=
  match rems with
  | [] => []
  | [] :: rems => heads (S i) rems
  | (r :: _) :: rems => tag i r :: heads (S i) rems
  end.

(** A source whose next record is already in the heap. *)
Definition behind (w : W) (s : I) (rem : list (bytes * LookupHit)) : Prop :=
  match rem with [] => True | _ :: rest => Y w rest s end.

(** A primed merge with [rems] still to come. *)
Record merge_at (w : W) (m : KWayMerge I) (rems : list (list (bytes * LookupHit))) : Prop := {
  ma_primed : km_primed m = true;
  ma_streams : Forall2 (behind w) (km_streams m) rems;
  ma_heap : km_heap m ≡ₚ heads 0 rems
}.

Lemma merge_at_mono w w' m rems :
  (∀ recs s, Y w recs s → Y w' recs s) → merge_at w m rems → merge_at w' m rems.
Proof.
  intros HY [Hp Hs Hh]. split; [done| |done]. eapply Forall2_impl; [exact Hs|].
  intros s [|r rem]; [done|]. apply HY.
Qed.

Lemma heads_app i l1 l2 : heads i (l1 ++ l2) = heads i l1 ++ heads (i + length l1) l2.
Proof.
  revert i. induction l1 as [|[|r rem] l1 IH]; intros i; cbn [heads app length].
  - by rewrite Nat.add_0_r.
  - rewrite IH. by rewrite Nat.add_succ_r.
  - rewrite IH. by rewrite Nat.add_succ_r.
Qed.

Lemma heads_elem i rems e :
  e ∈ heads i rems → ∃ j r rest, rems !! j = Some (r :: rest) ∧ e = tag (i + j) r.
Proof.
  revert i. induction rems as [|[|r rem] rems IH]; intros i; cbn [heads].
  - by intros ?%not_elem_of_nil.
  - intros (j & r & rest & Hj & ->)%IH. exists (S j), r, rest. by rewrite Nat.add_succ_r.
  - intros [->|(j & r' & rest & Hj & ->)%IH]%elem_of_cons.
    + exists 0%nat, r, rem. by rewrite Nat.add_0_r.
    + exists (S j), r', rest. by rewrite Nat.add_succ_r.
Qed.

(** Taking the head of one source and moving to the next one's. *)
Lemma heads_take rems j r rest :
  rems !! j = Some (r :: rest) →
  heads 0 rems ≡ₚ tag j r :: heads 0 (<[j := []]> rems) ∧
  heads 0 (<[j := rest]> rems) ≡ₚ option_list (tag j <$> head rest) ++ heads 0 (<[j := []]> rems).
Proof.
  intros Hj. pose proof (lookup_lt_Some _ _ _ Hj) as Hlt.
  rewrite !insert_take_drop by done. rewrite !heads_app, !Nat.add_0_l, length_take_le by lia.
  rewrite <-(take_drop_middle _ _ _ Hj) at 1.
  rewrite heads_app, Nat.add_0_l, length_take_le by lia. cbn [heads].
  split; [by rewrite Permutation_middle|]. destruct rest; cbn; [done|].
  by rewrite Permutation_middle.
Qed.

Lemma advance_spec w m j s recs :
  km_streams m !! j = Some s → Y w recs s →
  ∃ b s', merge_advance w j m =
      (Ok b, {| km_streams := <[j := s']> (km_streams m);
                km_heap := option_list (tag j <$> head recs) ++ km_heap m; km_primed := km_primed m |}) ∧
    behind w s' recs.
Proof.
  intros Hs Hy. unfold merge_advance.
  assert (∃ s', pull w j m = (Ok (head recs), km_set_stream j s' m) ∧ behind w s' recs) as (s' & E & Hb).
  { unfold pull. rewrite Hs. destruct (stream_step _ _ _ Hy) as (s' & -> & Hy'). exists s'. split; [done|].
    destruct recs; [done|]. by apply Hy'. }
  rewrite (run_bind _ _ _ _ _ E). destruct recs as [|[key hit] recs]; cbn [head].
  - by exists false, s'.
  - rewrite run_modify. by exists true, s'.
Qed.

(** Priming puts the first record of every source into the heap. *)
Lemma advance_all_spec w sdone todo rdone rtodo h :
  Forall2 (behind w) sdone rdone → Forall2 (λ s recs, Y w recs s) todo rtodo → h ≡ₚ heads 0 rdone →
  ∃ ss h', advance_all w (seq (length sdone) (length todo))
      {| km_streams := sdone ++ todo; km_heap := h; km_primed := false |} =
      (Ok tt, {| km_streams := ss; km_heap := h'; km_primed := false |}) ∧
    Forall2 (behind w) ss (rdone ++ rtodo) ∧ h' ≡ₚ heads 0 (rdone ++ rtodo).
Proof.
  intros Hd Ht. revert sdone rdone h Hd.
  induction Ht as [|s recs todo rtodo Hs _ IH]; intros sdone rdone h Hd Hh; cbn [length seq advance_all].
  { rewrite !app_nil_r. by exists sdone, h. }
  destruct (advance_spec w {| km_streams := sdone ++ s :: todo; km_heap := h; km_primed := false |}
    (length sdone) s recs) as (b & s' & E & Hb); [by apply list_lookup_middle|done|].
  rewrite (run_bind _ _ _ _ _ E). cbn [km_streams km_heap km_primed].
  rewrite insert_app_r_alt, Nat.sub_diag by lia. cbn [list_insert insert].
  change (s' :: todo) with ([s'] ++ todo). rewrite (assoc_L app).
  destruct (IH (sdone ++ [s']) (rdone ++ [recs]) (option_list (tag (length sdone) <$> head recs) ++ h))
    as (ss & h' & E' & Hss & Hh').
  - by apply Forall2_app; [|constructor].
  - rewrite Hh, heads_app, Nat.add_0_l, <-(Forall2_length _ _ _ Hd), (comm app). f_equiv.
    by destruct recs.
  - rewrite length_app in E'. cbn [length] in E'. rewrite Nat.add_1_r in E'. rewrite E'.
    rewrite <-(assoc_L app) in Hss, Hh'. by exists ss, h'.
Qed.

Lemma prime_spec w streams inputs :
  Forall2 (λ s recs, Y w recs s) streams inputs →
  ∃ m, prime w (merge_new streams) = (Ok tt, m) ∧ merge_at w m inputs.
Proof.
  intros Hy. destruct (advance_all_spec w [] streams [] inputs []) as (ss & h & E & Hss & Hh); [done..|].
  unfold prime. rewrite run_get. cbn [km_primed merge_new km_streams].
  cbn [length app] in E. rewrite (run_bind _ _ _ _ _ E). eexists. by split; [reflexivity|].
Qed.

Lemma heads_nil rems i : heads i rems = [] → Forall (λ rem, rem = []) rems.
Proof. revert i. induction rems as [|[|r rem] rems IH]; intros i; cbn [heads]; [done| |done]. eauto. Qed.

(** One call takes a least record among the sources' next ones. *)
Lemma next_record_spec w m rems :
  merge_at w m rems →
  (merge_next_record w m = (Ok None, m) ∧ Forall (λ rem, rem = []) rems) ∨
  ∃ j r rest m', rems !! j = Some (r :: rest) ∧ merge_next_record w m = (Ok (Some r), m') ∧
    merge_at w m' (<[j := rest]> rems) ∧ Forall (heap_le (tag j r)) (heads 0 rems).
Proof.
  intros [Hp Hs Hh]. unfold merge_next_record.
  assert (prime w m = (Ok tt, m)) as Hprime
    by (unfold prime; rewrite run_get; by rewrite Hp).
  rewrite (run_bind _ _ _ _ _ Hprime), run_get.
  destruct (km_heap m) as [|x l] eqn:Eh; cbn [heap_pop].
  { left. split; [done|]. symmetry in Hh. by apply Permutation_nil_r, heads_nil in Hh. }
  right. destruct (heap_min x l) as [top rest'] eqn:E. apply heap_min_spec in E as [Hperm Hmin].
  assert (top ∈ heads 0 rems) as (j & r & rest & Hj & ->)%heads_elem
    by (rewrite <-Hh, <-Hperm; left).
  destruct (heads_take rems j r rest Hj) as [Ht1 Ht2].
  destruct (Forall2_lookup_r _ _ _ _ _ Hs Hj) as (s & Hsj & Hb).
  rewrite run_modify. cbn [Nat.add tag he_source he_key he_hit].
  destruct (advance_spec w (km_set_heap rest' m) j s rest Hsj Hb) as (b & s' & E & Hb').
  rewrite (run_bind _ _ _ _ _ E). destruct r as [key hit].
  exists j, (key, hit), rest. eexists. split_and!; [done|reflexivity| |].
  - split; cbn; [done|by apply Forall2_insert|]. rewrite Ht2. f_equiv.
    apply (Permutation_cons_inv (a := tag j (key, hit))). by rewrite <-Ht1, <-Hh, <-Hperm.
  - by rewrite <-Hh.
Qed.

Lemma heads_in rems i r rest : rems !! i = Some (r :: rest) → tag i r ∈ heads 0 rems.
Proof. intros [-> _]%heads_take. left. Qed.

Lemma interleaves_cons j r rest rems out :
  rems !! j = Some (r :: rest) → interleaves out (<[j := rest]> rems) → interleaves (tag j r :: out) rems.
Proof.
  intros Hj [Hsrc Hf]. rewrite length_insert in Hsrc. split.
  - constructor; [|done]. cbn. by eapply lookup_lt_Some.
  - intros i recs Hi. rewrite filter_cons. destruct (decide (i = j)) as [->|Hne].
    + rewrite decide_True by done. rewrite Hi in Hj. injection Hj as ->. rewrite fmap_cons. f_equal.
      apply Hf, list_lookup_insert_eq. by eapply lookup_lt_Some.
    + rewrite decide_False by (cbn; congruence). apply Hf. by rewrite list_lookup_insert_ne.
Qed.

(** What comes out of the sources after a least head is not less. *)
Lemma interleaves_above j r rest rems out :
  rems !! j = Some (r :: rest) → Forall (StronglySorted rec_le) rems →
  Forall (heap_le (tag j r)) (heads 0 rems) → interleaves out (<[j := rest]> rems) →
  Forall (heap_le (tag j r)) out.
Proof.
  intros Hj Hsorted Hmin [Hsrc Hf]. rewrite Forall_forall in Hsrc, Hmin |- *. intros e He.
  destruct (lookup_lt_is_Some_2 _ _ (Hsrc e He)) as [recs Hrecs].
  assert (e ∈ tag (he_source e) <$> recs) as (x & Ex & Hx)%list_elem_of_fmap
    by (rewrite <-(Hf _ _ Hrecs); by apply list_elem_of_filter).
  rewrite Ex. set (i := he_source e) in *. destruct (decide (i = j)) as [->|Hne].
  - rewrite list_lookup_insert_eq in Hrecs by (by eapply lookup_lt_Some). injection Hrecs as <-.
    rewrite Forall_lookup in Hsorted. apply Hsorted, StronglySorted_cons in Hj as [Hr _].
    rewrite Forall_forall in Hr. by apply heap_le_tag, Hr.
  - rewrite list_lookup_insert_ne in Hrecs by done. destruct recs as [|y ys]; [by apply not_elem_of_nil in Hx|].
    eapply heap_le_trans; [by eapply Hmin, heads_in|].
    apply elem_of_cons in Hx as [->|Hx]; [apply heap_le_refl|].
    rewrite Forall_lookup in Hsorted. apply Hsorted, StronglySorted_cons in Hrecs as [Hr _].
    rewrite Forall_forall in Hr. by apply heap_le_tag, Hr.
Qed.

Lemma sum_length_insert (rems : list (list (bytes * LookupHit))) j r rest :
  rems !! j = Some (r :: rest) →
  sum_list_with length rems = S (sum_list_with length (<[j := rest]> rems)).
Proof.
  intros Hj. rewrite insert_take_drop by (by eapply lookup_lt_Some).
  rewrite <-(take_drop_middle _ _ _ Hj) at 1. rewrite !sum_list_with_app. cbn. lia.
Qed.

Lemma sorted_insert_rest rems j (r : bytes * LookupHit) rest :
  rems !! j = Some (r :: rest) → Forall (StronglySorted rec_le) rems →
  Forall (StronglySorted rec_le) (<[j := rest]> rems).
Proof.
  intros Hj Hs. apply Forall_insert; [done|]. rewrite Forall_lookup in Hs.
  by apply Hs, StronglySorted_cons in Hj as [_ ?].
Qed.

Lemma merge_collect_spec fuel w m rems :
  merge_at w m rems → Forall (StronglySorted rec_le) rems → (sum_list_with length rems < fuel)%nat →
  ∃ out m', merge_collect fuel w m = (Ok (untag <$> out), m') ∧
    interleaves out rems ∧ StronglySorted heap_le out.
Proof.
  revert m rems. induction fuel as [|fuel IH]; intros m rems Hm Hsorted Hfuel; [lia|].
  cbn [merge_collect]. destruct (next_record_spec w m rems Hm) as [[E Hnil]|(j & r & rest & m1 & Hj & E & Hm1 & Hmin)];
    rewrite (run_bind _ _ _ _ _ E).
  - exists [], m. split_and!; [done| |constructor]. split; [constructor|]. intros i recs Hi.
    rewrite Forall_lookup in Hnil. by rewrite (Hnil _ _ Hi).
  - destruct (IH m1 _ Hm1 (sorted_insert_rest _ _ _ _ Hj Hsorted)) as (out & m' & E' & Hint & Hso).
    { rewrite (sum_length_insert _ _ _ _ Hj) in Hfuel. lia. }
    rewrite (run_bind _ _ _ _ _ E'). exists (tag j r :: out), m'. split_and!.
    + by destruct r.
    + by eapply interleaves_cons.
    + apply StronglySorted_cons. split; [by eapply interleaves_above|done].
Qed.

Lemma next_record_primed w streams m rems :
  prime w (merge_new streams) = (Ok tt, m) → merge_at w m rems →
  merge_next_record w (merge_new streams) = merge_next_record w m.
Proof.
  intros E Hm. unfold merge_next_record. rewrite (run_bind _ _ _ _ _ E).
  assert (prime w m = (Ok tt, m)) as Hp by (unfold prime; rewrite run_get; by rewrite (ma_primed _ _ _ Hm)).
  by rewrite (run_bind _ _ _ _ _ Hp).
Qed.

Lemma interleaves_uncons e out rems :
  interleaves (e :: out) rems →
  ∃ r rest, rems !! he_source e = Some (r :: rest) ∧ e = tag (he_source e) r ∧
    interleaves out (<[he_source e := rest]> rems).
Proof.
  intros [[He Hsrc]%Forall_cons Hf]. destruct (lookup_lt_is_Some_2 _ _ He) as [recs Hrecs].
  pose proof (Hf _ _ Hrecs) as Hfe. rewrite filter_cons, decide_True in Hfe by done.
  destruct recs as [|r rest]; [done|]. rewrite fmap_cons in Hfe. injection Hfe as Hr Hrest.
  exists r, rest. split_and!; [done..|]. split; [by rewrite length_insert|]. intros i recs Hi.
  destruct (decide (i = he_source e)) as [->|Hne].
  - rewrite list_lookup_insert_eq in Hi by done. by injection Hi as <-.
  - rewrite list_lookup_insert_ne in Hi by done. rewrite <-(Hf _ _ Hi), filter_cons.
    by rewrite decide_False by congruence.
Qed.

(** A merge that has yet to yield [recs], whether it was primed or not. *)
Definition merge_rest (w : W) (recs : list (bytes * LookupHit)) (m : KWayMerge I) : Prop :=
  ∃ out rems, recs = untag <$> out ∧ interleaves out rems ∧ StronglySorted heap_le out ∧
    (merge_at w m rems ∨ ∃ streams, m = merge_new streams ∧ Forall2 (λ s recs, Y w recs s) streams rems).

Lemma merge_rest_mono w w' recs m :
  (∀ recs s, Y w recs s → Y w' recs s) → merge_rest w recs m → merge_rest w' recs m.
Proof.
  intros HY (out & rems & -> & Hi & Hs & Hm). exists out, rems. split_and!; [done..|].
  destruct Hm as [Hm|(streams & -> & Hy)]; [left; by eapply merge_at_mono|right].
  exists streams. split; [done|]. eapply Forall2_impl; [exact Hy|]. auto.
Qed.

(** The least head is the first record of the sorted interleaving: two records
    of different sources never compare equal. *)
Lemma least_head_first j r rest rems e out :
  rems !! j = Some (r :: rest) → Forall (heap_le (tag j r)) (heads 0 rems) →
  interleaves (e :: out) rems → StronglySorted heap_le (e :: out) → e = tag j r.
Proof.
  intros Hj Hmin Hi Hs. destruct (interleaves_uncons _ _ _ Hi) as (r' & rest' & Hr' & He & _).
  set (i := he_source e) in *. clearbody i. subst e.
  destruct (decide (i = j)) as [->|Hne]; [by rewrite Hj in Hr'; injection Hr' as -> ->|exfalso].
  assert (heap_le (tag j r) (tag i r')) as Hle by (rewrite Forall_forall in Hmin; by eapply Hmin, heads_in).
  assert (tag j r ∈ tag i r' :: out) as Hin.
  { eapply (list_elem_of_filter (λ e, he_source e = j)). rewrite (proj2 Hi j _ Hj). left. }
  apply StronglySorted_cons in Hs as [Hall _]. apply elem_of_cons in Hin as [Heq|Hin].
  { apply (f_equal he_source) in Heq. by cbn in Heq. }
  rewrite Forall_forall in Hall. specialize (Hall _ Hin). unfold heap_le in *.
  rewrite heap_cmp_antisym, heap_cmp_cik in Hall. rewrite heap_cmp_cik in Hle.
  cbn [he_key he_seqno he_source tag] in *. destruct (compare_internal_key _ _ _ _); try done.
  destruct (Nat.compare_spec j i); [congruence|by apply Hall|by apply Hle].
Qed.

(** A merge is itself a stream, and past its end it goes on returning [None]. *)
#[global] Instance merge_rest_law : FusedLaw (H := merge_record_stream) merge_rest.
Proof.
  assert (∀ w m out rems, merge_at w m rems → interleaves out rems → StronglySorted heap_le out →
    ∃ m', merge_next_record w m = (Ok (head (untag <$> out)), m') ∧ merge_rest w (tail (untag <$> out)) m')
    as Hstep.
  { intros w m out rems Hm Hi Hs.
    destruct (next_record_spec w m rems Hm) as [[E Hnil]|(j & r & rest & m1 & Hj & E & Hm1 & Hmin)].
    - destruct out as [|e out].
      + exists m. split; [done|]. exists [], rems. split_and!; [done..|by left].
      + apply interleaves_uncons in Hi as (r & rest & Hr & _). rewrite Forall_lookup in Hnil. by apply Hnil in Hr.
    - destruct out as [|e out]; [by pose proof (proj2 Hi j _ Hj)|].
      pose proof (least_head_first _ _ _ _ _ _ Hj Hmin Hi Hs) as ->. exists m1. split; [by destruct r|].
      apply interleaves_uncons in Hi as (r' & rest' & Hr & _ & Hi). cbn [he_source tag] in *.
      rewrite Hj in Hr. injection Hr as <- <-. apply StronglySorted_cons in Hs as [_ Hs].
      exists out, (<[j := rest]> rems). split_and!; [done..|by left]. }
  intros w recs m (out & rems & -> & Hi & Hs & [Hm|(streams & -> & Hy)]).
  { by apply (Hstep w m out rems). }
  destruct (prime_spec w streams rems Hy) as (m & E & Hm). unfold rs_next, merge_record_stream.
  rewrite (next_record_primed _ _ _ _ E Hm). by apply (Hstep w m out rems).
Qed.

Lemma merge_new_rest w streams inputs :
  Forall2 (λ s recs, Y w recs s) streams inputs → Forall (StronglySorted rec_le) inputs →
  ∃ out, interleaves out inputs ∧ StronglySorted heap_le out ∧
    merge_rest w (untag <$> out) (merge_new streams).
Proof.
  intros Hy Hs. destruct (prime_spec w streams inputs Hy) as (m & E & Hm).
  destruct (merge_collect_spec (S (sum_list_with length inputs)) w m inputs Hm Hs ltac:(lia)) as (out & m' & _ & Hi & Ho).
  exists out. split_and!; [done..|]. exists out, inputs. split_and!; [done..|right]. by exists streams.
Qed.

(** The whole merge, from construction. *)
Lemma merge_spec w streams inputs fuel :
  Forall2 (λ s recs, Y w recs s) streams inputs → Forall (StronglySorted rec_le) inputs →
  (sum_list_with length inputs < fuel)%nat →
  ∃ out m', merge_collect fuel w (merge_new streams) = (Ok (untag <$> out), m') ∧
    interleaves out inputs ∧ StronglySorted heap_le out.
Proof.
  intros Hy Hs Hfuel. destruct (prime_spec w streams inputs Hy) as (m & E & Hm).
  destruct (merge_collect_spec fuel w m inputs Hm Hs Hfuel) as (out & m' & E' & Hout). exists out, m'.
  split; [|done]. rewrite <-E'. destruct fuel as [|fuel]; [done|]. cbn [merge_collect].
  unfold mbind at 1 3, st_bind. by rewrite (next_record_primed _ _ _ _ E Hm).
Qed.
End Correct.

(** An interleaving holds the records of its inputs and no others. *)
Lemma interleaves_perm_from k out inputs :
  Forall (λ e, k ≤ he_source e < k + length inputs)%nat out →
  (∀ i recs, inputs !! i = Some recs → filter (λ e, he_source e = k + i)%nat out = tag (k + i) <$> recs) →
  untag <$> out ≡ₚ concat inputs.
Proof.
  revert k out. induction inputs as [|recs inputs IH]; intros k out Hsrc Hf; cbn [length concat] in *.
  { destruct out as [|e out]; [done|]. apply Forall_cons in Hsrc as [? _]. lia. }
  rewrite <-(filter_app_complement (λ e, he_source e = k) out), fmap_app. f_equiv.
  - specialize (Hf 0%nat recs eq_refl). rewrite Nat.add_0_r in Hf. rewrite Hf, <-list_fmap_compose.
    rewrite (list_fmap_ext _ id); [by rewrite list_fmap_id|by intros ? []].
  - apply (IH (S k)).
    + rewrite Forall_forall in Hsrc |- *. intros e [Hne He]%list_elem_of_filter. specialize (Hsrc e He).
      cbn in Hne. lia.
    + intros i recs' Hi. rewrite list_filter_filter. specialize (Hf (S i) recs' Hi).
      rewrite Nat.add_succ_r in Hf. cbn [Nat.add]. rewrite <-Hf. apply list_filter_iff. intros e. lia.
Qed.

Lemma interleaves_perm out inputs : interleaves out inputs → untag <$> out ≡ₚ concat inputs.
Proof.
  intros [Hsrc Hf]. apply (interleaves_perm_from 0); [|done].
  eapply Forall_impl; [exact Hsrc|]. intros e Hlt. cbn in Hlt. lia.
Qed.

(** Its records are sorted when it is. *)
Lemma interleaves_sorted out inputs :
  interleaves out inputs → StronglySorted heap_le out → StronglySorted rec_le (untag <$> out).
Proof.
  intros [Hsrc Hf] Hs.
  assert (Forall (λ e, he_seqno e = hit_seqno (he_hit e)) out) as Htag.
  { rewrite Forall_forall in Hsrc |- *. intros e He.
    destruct (lookup_lt_is_Some_2 _ _ (Hsrc e He)) as [recs Hrecs].
    assert (e ∈ tag (he_source e) <$> recs) as (x & -> & _)%list_elem_of_fmap; [|done].
    rewrite <-(Hf _ _ Hrecs). by apply list_elem_of_filter. }
  clear Hsrc Hf. induction Hs as [|e out Hs IH He]; [constructor|].
  apply Forall_cons in Htag as [Hte Htag]. rewrite fmap_cons. constructor; [by apply IH|].
  rewrite Forall_fmap. rewrite Forall_forall in He, Htag |- *. intros x Hx. cbn.
  apply heap_le_rec; auto.
Qed.

(** ** Streams over a list, the streams of a unit test: each item is a record or
    an error *)

Definition list_next (_ : ()) : st (list (outcome (bytes * LookupHit))) (option (bytes * LookupHit)) := λ l,
  match l with
  | [] => (Ok None, [])
  | item :: l => (r ← item; Ok (Some r), l)
  end.

#[global] Instance list_record_stream : RecordStream (list (outcome (bytes * LookupHit))) () := list_next.

Definition version (k : bytes) (s : Z) (v : bytes) : bytes * LookupHit :=
  (k, {| hit_seqno := s; hit_op := OpPut; hit_value := v |}).

(** * Properties *)

(** C18. The merge is a sorted, complete interleaving.  Over any streams that
    yield sorted records, draining it terminates without error; the output is
    in the heap's order (key, then newest version, then lowest source index,
    so that the newest input wins a tie); it restricts to every input in that
    input's own order; and forgetting the sources it is a sorted permutation
    of all input records, none dropped and none duplicated. *)
Theorem merge_sorted_interleaving {I W : Type} `{RecordStream I W} (w : W) (streams : list I)
    (inputs : list (list (bytes * LookupHit)))
    (Hyields : Forall2 (λ s recs, yields w recs s) streams inputs)
    (Hsorted : Forall (StronglySorted rec_le) inputs) :
  ∃ out m', merge_collect (S (sum_list_with length inputs)) w (merge_new streams) = (Ok (untag <$> out), m') ∧
    StronglySorted heap_le out ∧ interleaves out inputs ∧
    StronglySorted rec_le (untag <$> out) ∧ untag <$> out ≡ₚ concat inputs.
Proof.
  destruct (merge_spec yields w streams inputs (S (sum_list_with length inputs)) Hyields Hsorted)
    as (out & m' & E & Hint & Hs); [lia|].
  exists out, m'. split_and!; [done..|by eapply interleaves_sorted|by apply interleaves_perm].
Qed.

Lemma merge_sorted_interleaving_witness :
  let newer := [version [97] 9 [1]; version [98] 5 [2]] in
  let older := [version [97] 9 [3]; version [97] 2 [4]] in
  Forall2 (λ s recs, yields tt recs s) [Ok <$> newer; Ok <$> older] [newer; older] ∧
  ∃ m', merge_collect 5 tt (merge_new [Ok <$> newer; Ok <$> older]) =
    (Ok [version [97] 9 [1]; version [97] 9 [3]; version [97] 2 [4]; version [98] 5 [2]], m').
Proof.
  cbn zeta. set (newer := [version [97] 9 [1]; version [98] 5 [2]]). set (older := [version [97] 9 [3]; version [97] 2 [4]]).
  assert (Forall2 (λ s recs, yields tt recs s) [Ok <$> newer; Ok <$> older] [newer; older]) as Hy
    by (repeat constructor; cbn; repeat (eexists; split; [reflexivity|]); eexists; reflexivity).
  split; [exact Hy|].
  assert (Forall (StronglySorted rec_le) [newer; older]) as Hs by (repeat constructor; vm_compute; discriminate).
  destruct (merge_sorted_interleaving tt _ _ Hy Hs) as (out & m' & E & _).
  exists m'. rewrite (surjective_pairing (merge_collect 5 tt _)).
  change (S (sum_list_with length [newer; older])) with 5%nat in E. rewrite E at 2. cbn [snd].
  apply (f_equal (λ r, (r, m'))). vm_compute. reflexivity.
Defined.

(** The limit of the merge's error handling: a read error loses a record
    that was read without error.  A source yields a record and then fails once:
    the first call returns the error, the record, already popped, is dropped,
    and the calls after it go on as if it had never been. *)
Theorem merge_error_drops_record :
  let lost := version [97] 1 [1] in
  let kept := version [98] 1 [2] in
  let m := merge_new [[Ok lost; Err (Io IoUnexpectedEof)]; [Ok kept]] in
  ∃ m1 m2 m3, merge_next_record tt m = (Err (Io IoUnexpectedEof), m1) ∧
    merge_next_record tt m1 = (Ok (Some kept), m2) ∧
    merge_next_record tt m2 = (Ok None, m3).
Proof. cbn zeta. eexists _, _, _. split_and!; vm_compute; reflexivity. Qed.
