(* ===== verification/Versions.v ===== *)
(** Multi-version contents: what a key holds at a snapshot.

    The memtables, the tables and the merge all carry versions, a key with a
    sequence number, an operation and a value.  [newest] says which version of
    a key a snapshot sees in a collection of versions; the read paths of
    [crates/paddock-core/src/engine.rs] are proved against it. *)

From S2P Require Import Prelude Varint Checksum Vfs Bloom SstFormat Block Crypto SstWriter.
From S2P Require Import SstReader InternalKey Merger.

(** The better of two candidates: the higher sequence number, the first on a
    tie. *)
Definition pick (a b : option LookupHit) : option LookupHit :=
  match a, b with
  | Some h, Some h' => if hit_seqno h <? hit_seqno h' then Some h' else Some h
  | Some h, None => Some h
  | None, b => b
  end.

Definition candidate (key : bytes) (snapshot : Z) (r : bytes * LookupHit) : option LookupHit :=
  if bytes_eqb r.1 key && (hit_seqno r.2 <=? snapshot) then Some r.2 else None.

(** The version of [key] that [snapshot] sees among [vs]. *)
Definition newest (vs : list (bytes * LookupHit)) (key : bytes) (snapshot : Z) : option LookupHit :=
  foldr (λ r best, pick (candidate key snapshot r) best) None vs.

(** * Laws of [newest] *)

Lemma pick_None_r a : pick a None = a.
Proof. by destruct a. Qed.

Lemma pick_assoc a b c : pick a (pick b c) = pick (pick a b) c.
Proof.
  destruct a as [a|], b as [b|], c as [c|]; cbn; try done; repeat (case_bool; cbn); try done; try lia.
Qed.

Lemma newest_app l1 l2 key snapshot :
  newest (l1 ++ l2) key snapshot = pick (newest l1 key snapshot) (newest l2 key snapshot).
Proof.
  unfold newest. induction l1 as [|r l1 IH]; [done|]. cbn [app foldr]. by rewrite IH, pick_assoc.
Qed.

Lemma candidate_Some key snapshot r h :
  candidate key snapshot r = Some h ↔ r = (key, h) ∧ hit_seqno h ≤ snapshot.
Proof.
  destruct r as [k h']. unfold candidate. cbn [fst snd]. split.
  - destruct (bytes_eqb k key) eqn:E; [|done]. cbn. case_bool; [|done]. intros [= ->].
    apply bytes_eqb_eq in E as ->. done.
  - intros [[= -> ->] Hs]. rewrite (proj2 (bytes_eqb_eq key key) eq_refl). cbn. by decide_bool.
Qed.

Lemma newest_in vs key snapshot h :
  newest vs key snapshot = Some h → (key, h) ∈ vs ∧ hit_seqno h ≤ snapshot.
Proof.
  induction vs as [|r vs IH]; [done|]. cbn [newest foldr]. fold (newest vs key snapshot).
  destruct (candidate key snapshot r) as [c|] eqn:E.
  - apply candidate_Some in E as [-> Hc]. destruct (newest vs key snapshot) as [h'|]; cbn.
    + case_bool; intros [= <-]; [destruct (IH eq_refl); split; [by right|done]|split; [left|done]].
    + intros [= <-]. split; [left|done].
  - cbn. intros Hn. destruct (IH Hn). split; [by right|done].
Qed.

Lemma newest_None vs key snapshot :
  newest vs key snapshot = None ↔ ∀ h, (key, h) ∈ vs → snapshot < hit_seqno h.
Proof.
  split.
  - intros Hn h Hin. destruct (Z.lt_ge_cases snapshot (hit_seqno h)) as [|Hs]; [done|].
    apply list_elem_of_split in Hin as (l1 & l2 & ->). rewrite newest_app in Hn.
    cbn [newest foldr] in Hn. rewrite (proj2 (candidate_Some key snapshot (key, h) h)) in Hn by done.
    fold (newest l2 key snapshot) in Hn.
    destruct (newest l1 key snapshot), (newest l2 key snapshot); cbn in Hn; repeat (case_bool; cbn in Hn); done.
  - intros Hall. destruct (newest vs key snapshot) as [h|] eqn:E; [|done].
    apply newest_in in E as [Hin Hs]. specialize (Hall h Hin). lia.
Qed.

Lemma newest_max vs key snapshot h h' :
  newest vs key snapshot = Some h → (key, h') ∈ vs → hit_seqno h' ≤ snapshot → hit_seqno h' ≤ hit_seqno h.
Proof.
  intros Hn (l1 & l2 & ->)%list_elem_of_split Hs. rewrite newest_app in Hn.
  cbn [newest foldr] in Hn. rewrite (proj2 (candidate_Some key snapshot (key, h') h')) in Hn by done.
  fold (newest l2 key snapshot) in Hn.
  destruct (newest l1 key snapshot), (newest l2 key snapshot); cbn in Hn; repeat (case_bool; cbn in Hn);
    injection Hn as <-; lia.
Qed.

(** ** Versions in order *)

(** The records of one version. *)
Definition same_ver (key : bytes) (s : Z) (r : bytes * LookupHit) : Prop := r.1 = key ∧ hit_seqno r.2 = s.

#[global] Instance same_ver_dec key s r : Decision (same_ver key s r).
Proof. unfold same_ver. apply _. Defined.

Lemma newest_head vs key snapshot h :
  newest vs key snapshot = Some h → head (filter (same_ver key (hit_seqno h)) vs) = Some (key, h).
Proof.
  intros Hn. pose proof (newest_in _ _ _ _ Hn) as [_ Hs]. revert Hn.
  induction vs as [|r vs IH]; [done|]. cbn [newest foldr]. fold (newest vs key snapshot). intros Hn.
  rewrite filter_cons. destruct (candidate key snapshot r) as [c|] eqn:E.
  - apply candidate_Some in E as [-> Hc]. destruct (newest vs key snapshot) as [h'|]; cbn in Hn.
    + case_bool; injection Hn as ->.
      * rewrite decide_False by (unfold same_ver; cbn; lia). by apply IH.
      * by rewrite decide_True.
    + injection Hn as ->. by rewrite decide_True.
  - rewrite decide_False; [by apply IH|]. destruct r as [k h']. intros [Hk Hh]. cbn in Hk, Hh. subst k.
    rewrite (proj2 (candidate_Some key snapshot (key, h') h')) in E by (split; [done|lia]). done.
Qed.

(** [newest] depends only on the order within each version. *)
Lemma newest_by_version vs vs' key snapshot :
  (∀ k s, filter (same_ver k s) vs = filter (same_ver k s) vs') →
  newest vs key snapshot = newest vs' key snapshot.
Proof.
  intros Hv. assert (∀ r, r ∈ vs ↔ r ∈ vs') as Hin.
  { intros r. specialize (Hv r.1 (hit_seqno r.2)).
    assert (∀ l : list (bytes * LookupHit), r ∈ l ↔ r ∈ filter (same_ver r.1 (hit_seqno r.2)) l) as Hf
      by (intros l; rewrite list_elem_of_filter; unfold same_ver; tauto).
    rewrite (Hf vs), (Hf vs'). by rewrite Hv. }
  destruct (newest vs key snapshot) as [h|] eqn:E.
  - destruct (newest vs' key snapshot) as [h'|] eqn:E'.
    + pose proof (newest_head _ _ _ _ E) as Hh. pose proof (newest_head _ _ _ _ E') as Hh'.
      destruct (newest_in _ _ _ _ E) as [Hi Hs], (newest_in _ _ _ _ E') as [Hi' Hs'].
      assert (hit_seqno h = hit_seqno h') as Heq.
      { apply Z.le_antisymm; [apply (newest_max _ _ _ _ _ E'); [by apply Hin|done]|].
        apply (newest_max _ _ _ _ _ E); [by apply Hin|done]. }
      rewrite Heq, Hv, Hh' in Hh. congruence.
    + destruct (newest_in _ _ _ _ E) as [Hi Hs]. rewrite newest_None in E'.
      specialize (E' h (proj1 (Hin _) Hi)). lia.
  - symmetry. rewrite newest_None in E |- *. intros h Hh. by apply E, Hin.
Qed.

(** Among sorted versions the first visible one is the newest. *)
Lemma newest_sorted vs key snapshot :
  StronglySorted rec_le vs →
  newest vs key snapshot =
    snd <$> List.find (λ r, bytes_eqb r.1 key && (hit_seqno r.2 <=? snapshot)) vs.
Proof.
  induction 1 as [|r vs _ IH Hr]; [done|]. cbn [newest foldr List.find]. fold (newest vs key snapshot).
  unfold candidate at 1. destruct (bytes_eqb r.1 key && _) eqn:E; [|by rewrite <-IH]. cbn.
  destruct (newest vs key snapshot) as [h|] eqn:En; [|done]. cbn. case_bool; [exfalso|done].
  apply newest_in in En as [Hin _]. rewrite Forall_forall in Hr. specialize (Hr _ Hin).
  apply andb_true_iff in E as [Ek%bytes_eqb_eq _]. unfold rec_le, ikey_le, compare_internal_key in Hr.
  cbn [fst snd] in Hr. rewrite Ek, bytes_cmp_refl in Hr. apply Hr, Z.compare_gt_iff. lia.
Qed.

(** ** The merge keeps what snapshots see *)

Lemma split_source k (out : list HeapEntry) :
  StronglySorted (λ a b, he_source a ≤ he_source b)%nat out → Forall (λ e, k ≤ he_source e)%nat out →
  out = filter (λ e, he_source e = k) out ++ filter (λ e, he_source e ≠ k) out.
Proof.
  induction 1 as [|e out Hs IH He]; [done|]. intros [Hse Hsrc]%Forall_cons.
  rewrite !filter_cons. destruct (decide (he_source e = k)) as [Hk|Hk].
  - rewrite (decide_False (P := he_source e ≠ k)) by tauto. cbn [app]. f_equal. by apply IH.
  - rewrite (decide_True (P := he_source e ≠ k)) by done.
    assert (∀ x, x ∈ out → he_source x ≠ k) as Hne
      by (intros x Hx; rewrite Forall_forall in He; specialize (He x Hx); cbn in He; lia).
    rewrite (filter_none (λ x, he_source x = k) out), (filter_all (λ x, he_source x ≠ k) out)
      by (intros x Hx; specialize (Hne x Hx); tauto). done.
Qed.

Lemma in_order_from k (out : list HeapEntry) inputs :
  StronglySorted (λ a b, he_source a ≤ he_source b)%nat out →
  Forall (λ e, k ≤ he_source e < k + length inputs)%nat out →
  (∀ i recs, inputs !! i = Some recs → filter (λ e, he_source e = k + i)%nat out = tag (k + i) <$> recs) →
  untag <$> out = concat inputs.
Proof.
  revert k out. induction inputs as [|recs inputs IH]; intros k out Hs Hsrc Hf; cbn [length concat] in *.
  { destruct out as [|e out]; [done|]. apply Forall_cons in Hsrc as [? _]. lia. }
  rewrite (split_source k out Hs), fmap_app by (eapply Forall_impl; [exact Hsrc|]; cbn; lia). f_equal.
  - specialize (Hf 0%nat recs eq_refl). rewrite Nat.add_0_r in Hf. rewrite Hf, <-list_fmap_compose.
    rewrite (list_fmap_ext _ id); [by rewrite list_fmap_id|by intros ? []].
  - apply (IH (S k)).
    + by apply StronglySorted_filter.
    + rewrite Forall_forall in Hsrc |- *. intros e [Hne He]%list_elem_of_filter. specialize (Hsrc e He).
      cbn in Hne. lia.
    + intros i recs' Hi. rewrite list_filter_filter. specialize (Hf (S i) recs' Hi).
      rewrite Nat.add_succ_r in Hf. cbn [Nat.add]. rewrite <-Hf. apply list_filter_iff. intros e. lia.
Qed.

Lemma filter_concat {A} (P : A → Prop) `{!∀ x, Decision (P x)} (ls : list (list A)) :
  filter P (concat ls) = concat (filter P <$> ls).
Proof. induction ls as [|l ls IH]; [done|]. rewrite fmap_cons. cbn [concat]. by rewrite filter_app, IH. Qed.

Lemma filter_fmap_iff {A B} (f : A → B) (P : B → Prop) (Q : A → Prop) `{!∀ x, Decision (P x)}
    `{!∀ x, Decision (Q x)} (l : list A) :
  (∀ x, x ∈ l → P (f x) ↔ Q x) → filter P (f <$> l) = f <$> filter Q l.
Proof.
  induction l as [|x l IH]; intros Hx; [done|]. rewrite fmap_cons, !filter_cons.
  rewrite IH by (intros y Hy; apply Hx; by right). pose proof (Hx x (list_elem_of_here _ _)) as Hxx.
  destruct (decide (P (f x))), (decide (Q x)); tauto || done.
Qed.

(** Every entry of an interleaving is a tagged record of its source. *)
Lemma interleaves_tagged out inputs e :
  interleaves out inputs → e ∈ out →
  ∃ recs r, inputs !! he_source e = Some recs ∧ r ∈ recs ∧ e = tag (he_source e) r.
Proof.
  intros [Hsrc Hf] He. rewrite Forall_forall in Hsrc.
  destruct (lookup_lt_is_Some_2 _ _ (Hsrc e He)) as [recs Hrecs].
  assert (e ∈ tag (he_source e) <$> recs) as (r & Er & Hr)%list_elem_of_fmap
    by (rewrite <-(Hf _ _ Hrecs); by apply list_elem_of_filter).
  by exists recs, r.
Qed.

Lemma merged_filter_version out inputs k s :
  interleaves out inputs → StronglySorted heap_le out →
  filter (same_ver k s) (untag <$> out) = filter (same_ver k s) (concat inputs).
Proof.
  intros Hi Hs. set (P := λ e, he_key e = k ∧ he_seqno e = s).
  assert (∀ e, e ∈ out → same_ver k s (untag e) ↔ P e) as HP.
  { intros e He. destruct (interleaves_tagged _ _ _ Hi He) as (recs & r & _ & _ & ->). done. }
  rewrite (filter_fmap_iff untag _ P out HP), filter_concat. destruct Hi as [Hsrc Hf]. apply (in_order_from 0).
  - apply (StronglySorted_filter _ P) in Hs.
    assert (Forall P (filter P out)) as Hall by (apply Forall_forall; by intros e [? _]%list_elem_of_filter).
    induction Hs as [|e l Hs IH He]; [constructor|]. apply Forall_cons in Hall as [Hpe Hall].
    constructor; [by apply IH|]. rewrite Forall_forall in He, Hall |- *. intros x Hx.
    specialize (He x Hx). destruct Hpe as [Ek Es], (Hall x Hx) as [Ek' Es'].
    unfold heap_le in He. rewrite heap_cmp_cik, Ek, Es, Ek', Es', cik_refl in He. by apply Nat.compare_le_iff.
  - rewrite Forall_forall in Hsrc |- *. intros e [_ He]%list_elem_of_filter. rewrite length_fmap.
    specialize (Hsrc e He). lia.
  - intros i recs' Hi'. rewrite list_lookup_fmap in Hi'. apply fmap_Some in Hi' as (recs & Hi & ->).
    cbn [Nat.add]. rewrite filter_comm, (Hf i recs Hi). by apply filter_fmap_iff.
Qed.

(** What a snapshot sees in the merged sequence is what it sees in the sources,
    newest first. *)
Lemma newest_merged out inputs key snapshot :
  interleaves out inputs → StronglySorted heap_le out →
  newest (untag <$> out) key snapshot = newest (concat inputs) key snapshot.
Proof. intros Hi Hs. apply newest_by_version. intros k s. by apply merged_filter_version. Qed.
