(* ===== verification/History.v ===== *)
(** Histories: the abstract contents of the database.

    A history is the list of versions committed so far, newest first.  Memtables,
    tables and log segments each hold a part of it, possibly overlapping;
    [represents] says when some sources together hold exactly one history, and
    then no snapshot tells them apart ([represents_view]).  The engine
    ([crates/paddock-core/src/engine.rs]) keeps one history in memory and on
    disk. *)

From S2P Require Import Prelude Varint Checksum Vfs WalBatch Bloom SstFormat Block Crypto SstWriter.
From S2P Require Import SstReader InternalKey Merger Versions.

(** A version: a key and what was written to it. *)
Abbreviation version := (prod bytes LookupHit).

(** * Commits *)

(** The version an operation makes. *)
Definition op_version (seqno : Z) (op : Op) : version :=
  match op with
  | Put key value => (key, {| hit_seqno := seqno; hit_op := OpPut; hit_value := value |})
  | Delete key => (key, {| hit_seqno := seqno; hit_op := OpTombstone; hit_value := [] |})
  end.

(** A batch's versions, its last operation first. *)
Definition batch_versions (seqno : Z) (batch : WriteBatch) : list version :=
  reverse (op_version seqno <$> ops batch).

Definition commit_history (seqno : Z) (batch : WriteBatch) (hist : list version) : list version :=
  batch_versions seqno batch ++ hist.

(** The history a log records, its oldest commit first. *)
Definition log_history (log : list (Z * WriteBatch)) : list version :=
  foldl (λ hist c, commit_history c.1 c.2 hist) [] log.

(** * Views *)

(** Two collections of versions that no snapshot tells apart. *)
Definition same_view (vs vs' : list version) : Prop :=
  ∀ key snapshot, newest vs key snapshot = newest vs' key snapshot.

#[global] Instance same_view_equiv : Equivalence same_view.
Proof.
  split.
  - by intros vs key snapshot.
  - intros vs vs' Hv key snapshot. by rewrite Hv.
  - intros v1 v2 v3 H12 H23 key snapshot. by rewrite H12.
Qed.

#[global] Instance same_view_app : Proper (same_view ==> same_view ==> same_view) app.
Proof. intros v1 v2 Hv u1 u2 Hu key snapshot. by rewrite !newest_app, Hv, Hu. Qed.

(** ** The first record of a version *)

Definition first_ver (key : bytes) (s : Z) (vs : list version) : option version :=
  head (filter (same_ver key s) vs).

Definition covers (vs : list version) (key : bytes) (s : Z) : Prop := is_Some (first_ver key s vs).

(** Collections that agree on the first record of every version. *)
Definition same_vers (vs vs' : list version) : Prop := ∀ key s, first_ver key s vs = first_ver key s vs'.

Lemma first_ver_app key s a b :
  first_ver key s (a ++ b) = match first_ver key s a with Some v => Some v | None => first_ver key s b end.
Proof. unfold first_ver. rewrite filter_app. by destruct (filter _ a). Qed.

Lemma first_ver_Some key s vs v : first_ver key s vs = Some v → v ∈ vs ∧ v.1 = key ∧ hit_seqno v.2 = s.
Proof.
  unfold first_ver. intros Hv. assert (v ∈ filter (same_ver key s) vs) as [[? ?] ?]%list_elem_of_filter; [|done].
  destruct (filter _ vs); [done|]. injection Hv as ->. left.
Qed.

Lemma first_ver_elem v vs : v ∈ vs → covers vs v.1 (hit_seqno v.2).
Proof.
  intros Hv. unfold covers, first_ver.
  assert (v ∈ filter (same_ver v.1 (hit_seqno v.2)) vs) as Hf by (by apply list_elem_of_filter).
  destruct (filter _ vs); [by apply not_elem_of_nil in Hf|by eexists].
Qed.

#[global] Instance same_vers_equiv : Equivalence same_vers.
Proof.
  split.
  - by intros vs key s.
  - intros vs vs' Hv key s. by rewrite Hv.
  - intros v1 v2 v3 H12 H23 key s. by rewrite H12.
Qed.

#[global] Instance same_vers_app : Proper (same_vers ==> same_vers ==> same_vers) app.
Proof. intros v1 v2 Hv u1 u2 Hu key s. by rewrite !first_ver_app, Hv, Hu. Qed.

Lemma newest_first_ver vs key snapshot h :
  newest vs key snapshot = Some h ↔
  first_ver key (hit_seqno h) vs = Some (key, h) ∧ hit_seqno h ≤ snapshot ∧
  ∀ s, s ≤ snapshot → covers vs key s → s ≤ hit_seqno h.
Proof.
  split.
  - intros Hn. split_and!; [by eapply newest_head|by eapply newest_in|].
    intros s Hs [[k h'] Hv]. apply first_ver_Some in Hv as (Hin & Ek & Es). cbn in Ek, Es. subst.
    by eapply newest_max.
  - intros (Hf & Hs & Hmax). pose proof (first_ver_Some _ _ _ _ Hf) as (Hin & _ & _).
    destruct (newest vs key snapshot) as [h'|] eqn:E.
    + pose proof (newest_in _ _ _ _ E) as [Hin' Hs']. pose proof (newest_max _ _ _ _ _ E Hin Hs) as Hle.
      specialize (Hmax (hit_seqno h') Hs' (first_ver_elem _ _ Hin')). apply newest_head in E.
      assert (hit_seqno h' = hit_seqno h) as Eq by lia. unfold first_ver in Hf. rewrite Eq in E. congruence.
    + rewrite newest_None in E. specialize (E h Hin). lia.
Qed.

(** What a snapshot sees depends only on those records. *)
#[global] Instance same_vers_view : subrelation same_vers same_view.
Proof.
  intros vs vs' Hv key snapshot.
  assert (∀ h, newest vs key snapshot = Some h ↔ newest vs' key snapshot = Some h) as Hiff.
  { intros h. rewrite !newest_first_ver, Hv. unfold covers. by setoid_rewrite (Hv key _). }
  destruct (newest vs key snapshot) as [h|]; [by symmetry; apply Hiff|].
  destruct (newest vs' key snapshot) as [h|]; [by apply Hiff|done].
Qed.

(** * Sources of a history *)

(** ... and have the same records. *)
Definition same_source (vs vs' : list version) : Prop := same_vers vs vs' ∧ ∀ v, v ∈ vs ↔ v ∈ vs'.

#[global] Instance same_source_equiv : Equivalence same_source.
Proof.
  split.
  - by intros vs.
  - intros vs vs' [Hv Hi]. split; [by symmetry|]. intros v. by rewrite Hi.
  - intros v1 v2 v3 [H12 I12] [H23 I23]. split; [by etrans|]. intros v. by rewrite I12.
Qed.

#[global] Instance same_source_app : Proper (same_source ==> same_source ==> same_source) app.
Proof.
  intros v1 v2 [Hv Iv] u1 u2 [Hu Iu]. split; [by apply same_vers_app|]. intros v. by rewrite !elem_of_app, Iv, Iu.
Qed.

(** A source with nothing but versions of the history. *)
Definition sub_history (src hist : list version) : Prop :=
  (∀ key s v, first_ver key s src = Some v → first_ver key s hist = Some v) ∧ ∀ v, v ∈ src → v ∈ hist.

Record represents (srcs : list (list version)) (hist : list version) : Prop := {
  rp_sub : Forall (λ src, sub_history src hist) srcs;
  rp_cover key s : covers hist key s → ∃ src, src ∈ srcs ∧ covers src key s
}.

Lemma sub_history_nil hist : sub_history [] hist.
Proof. split; [by intros key s v|]. by intros v ?%not_elem_of_nil. Qed.

Lemma sub_history_app a b hist : sub_history a hist → sub_history b hist → sub_history (a ++ b) hist.
Proof.
  intros [Ha Ia] [Hb Ib]. split; [|by intros v [?|?]%elem_of_app; auto]. intros key s v. rewrite first_ver_app.
  destruct (first_ver key s a) eqn:E; [|apply Hb]. intros [= ->]. by apply Ha.
Qed.

#[global] Instance sub_history_proper : Proper (same_source ==> eq ==> iff) sub_history.
Proof. intros a b [Hab Iab] h _ <-. unfold sub_history. setoid_rewrite (Hab _ _). by setoid_rewrite Iab. Qed.

Lemma sub_history_concat srcs hist :
  Forall (λ src, sub_history src hist) srcs → sub_history (concat srcs) hist.
Proof.
  induction 1 as [|src srcs Hs _ IH]; [apply sub_history_nil|]. cbn. by apply sub_history_app.
Qed.

(** Every version of a source has its version in the history. *)
Lemma sub_history_elem src hist v :
  sub_history src hist → v ∈ src → ∃ v', v' ∈ hist ∧ v'.1 = v.1 ∧ hit_seqno v'.2 = hit_seqno v.2.
Proof.
  intros [Hsub _] [v' Hv']%first_ver_elem. exists v'. by apply first_ver_Some, Hsub.
Qed.

Lemma sub_history_bound src hist (lo hi : Z) :
  sub_history src hist → Forall (λ v, lo ≤ hit_seqno v.2 ≤ hi) hist → Forall (λ v, lo ≤ hit_seqno v.2 ≤ hi) src.
Proof.
  intros Hsub Hb. rewrite Forall_forall in Hb |- *. intros v Hv.
  destruct (sub_history_elem _ _ _ Hsub Hv) as (v' & Hin & _ & <-). by apply Hb.
Qed.

Lemma covers_app a b key s : covers (a ++ b) key s ↔ covers a key s ∨ covers b key s.
Proof.
  unfold covers. rewrite first_ver_app. destruct (first_ver key s a); [|by split; [right|intros [[]|]]].
  split; [by left; eexists|by eexists].
Qed.

Lemma covers_concat srcs key s : covers (concat srcs) key s ↔ ∃ src, src ∈ srcs ∧ covers src key s.
Proof.
  induction srcs as [|src srcs IH]; cbn [concat].
  - split; [by intros []|]. by intros (src & ?%not_elem_of_nil & _).
  - rewrite covers_app, IH. split.
    + intros [Hc|(x & Hx & Hc)]; [exists src|exists x]; split; [left|done|by right|done].
    + intros (x & [->|Hx]%elem_of_cons & Hc); [by left|right; by exists x].
Qed.

(** Every record of a source is in the history. *)
Lemma represents_elem srcs hist v : represents srcs hist → v ∈ concat srcs → v ∈ hist.
Proof. intros [[_ Hin]%sub_history_concat _]. apply Hin. Qed.

Lemma represents_vers srcs hist : represents srcs hist → same_vers (concat srcs) hist.
Proof.
  intros [Hsub Hcov] key s. apply sub_history_concat in Hsub as [Hsub _].
  destruct (first_ver key s (concat srcs)) as [v|] eqn:E; [by symmetry; apply Hsub|].
  destruct (first_ver key s hist) as [v|] eqn:E'; [exfalso|done].
  destruct (Hcov key s) as (src & Hin & Hc); [by exists v|].
  assert (covers (concat srcs) key s) as [v' Hv'] by (apply covers_concat; by exists src). congruence.
Qed.

Lemma represents_view srcs hist : represents srcs hist → same_view (concat srcs) hist.
Proof. intros Hr. by apply same_vers_view, represents_vers. Qed.

Lemma represents_nil : represents [[]] [].
Proof. split; [constructor; [apply sub_history_nil|constructor]|]. by intros key s []. Qed.

(** An empty source changes nothing. *)
Lemma represents_empty srcs hist : represents srcs hist → represents ([] :: srcs) hist.
Proof.
  intros [Hs Hc]. split; [constructor; [apply sub_history_nil|done]|]. intros key s Hk. destruct (Hc key s Hk) as (src & Hin & Hsrc).
  exists src. split; [by right|done].
Qed.

(** Sources replaced by one that agrees with them. *)
Lemma represents_merge a b c hist :
  same_source c (concat b) → represents (a ++ b) hist → represents (a ++ [c]) hist.
Proof.
  intros Hc [[Ha Hb]%Forall_app Hcov]. split.
  - apply Forall_app. split; [done|]. constructor; [|done]. rewrite Hc. by apply sub_history_concat.
  - intros key s Hk. destruct (Hcov key s Hk) as (src & [Hin|Hin]%elem_of_app & Hsrc).
    { exists src. split; [apply elem_of_app; by left|done]. }
    exists c. split; [apply elem_of_app; right; by left|]. unfold covers. rewrite (proj1 Hc).
    apply covers_concat. by exists src.
Qed.

(** ** Commits *)

Definition newer_part (new hist : list version) : Prop :=
  ∀ v v', v ∈ new → v' ∈ hist → hit_seqno v'.2 < hit_seqno v.2.

Lemma sub_history_grow src new hist :
  newer_part new hist → sub_history src hist → sub_history src (new ++ hist).
Proof.
  intros Hnew [Hsub Hin]. split; [|intros v Hv; apply elem_of_app; auto]. intros key s v Hv%Hsub. rewrite first_ver_app, Hv.
  destruct (first_ver key s new) as [v'|] eqn:E; [exfalso|done].
  apply first_ver_Some in E as (Hin0 & _ & <-), Hv as (Hin' & _ & Hs). specialize (Hnew _ _ Hin0 Hin'). lia.
Qed.

Lemma sub_history_new new hist : sub_history new (new ++ hist).
Proof. split; [|intros v Hv; apply elem_of_app; by left]. intros key s v Hv. by rewrite first_ver_app, Hv. Qed.

Lemma batch_versions_seqno seqno batch v : v ∈ batch_versions seqno batch → hit_seqno v.2 = seqno.
Proof.
  unfold batch_versions. intros (op & -> & _)%elem_of_reverse%list_elem_of_fmap. by destruct op.
Qed.

Lemma batch_newer seqno batch hist (n : Z) :
  Forall (λ v, hit_seqno v.2 ≤ n) hist → n < seqno → newer_part (batch_versions seqno batch) hist.
Proof.
  intros Hb Hn v v' Hv Hv'. rewrite Forall_forall in Hb. specialize (Hb v' Hv').
  rewrite (batch_versions_seqno _ _ _ Hv). lia.
Qed.

(** A commit goes to the first source. *)
Lemma represents_commit src srcs new hist :
  newer_part new hist → represents (src :: srcs) hist → represents ((new ++ src) :: srcs) (new ++ hist).
Proof.
  intros Hnew [[Hs Hss]%Forall_cons Hcov]. split.
  - constructor.
    + apply sub_history_app; [apply sub_history_new|by apply sub_history_grow].
    + eapply Forall_impl; [exact Hss|]. intros x. by apply sub_history_grow.
  - intros key s [Hk|Hk]%covers_app.
    + exists (new ++ src). split; [left|]. apply covers_app. by left.
    + destruct (Hcov key s Hk) as (x & [->|Hin]%elem_of_cons & Hx).
      * exists (new ++ src). split; [left|]. apply covers_app. by right.
      * exists x. split; [by right|done].
Qed.

Lemma represents_ext src src' srcs hist :
  same_source src src' → represents (src' :: srcs) hist → represents (src :: srcs) hist.
Proof.
  intros Hv [[Hs Hss]%Forall_cons Hcov]. split; [constructor; [by rewrite Hv|done]|].
  intros key s Hk. destruct (Hcov key s Hk) as (x & [->|Hin]%elem_of_cons & Hx).
  - exists src. split; [left|]. unfold covers. by rewrite (proj1 Hv).
  - exists x. split; [by right|done].
Qed.

Lemma log_history_snoc log seqno batch :
  log_history (log ++ [(seqno, batch)]) = commit_history seqno batch (log_history log).
Proof. unfold log_history. by rewrite foldl_app. Qed.
