(* ===== verification/SstTable.v ===== *)
(** Open tables as the engine and compaction see them: a reader together with
    the records it stands for.  [table_of] holds of what the table writer
    ([sstable/writer.rs]) made and the reader ([sstable/reader.rs]) opened, and
    survives every write to another file. *)

From S2P Require Import Prelude Varint Checksum Vfs VfsLaws Bloom SstFormat Block Crypto SstWriter.
From S2P Require Import SstReader Frames InternalKey Merger.

(** Records in the order of the version keys. *)
Definition ver_le (a b : BlockRecord) : Prop :=
  ikey_le (br_key a) (br_seqno a) (br_key b) (br_seqno b).

(** The record behind an entry of a scan. *)
Definition record_of (e : bytes * LookupHit) : BlockRecord :=
  {| br_key := e.1; br_value := hit_value e.2; br_seqno := hit_seqno e.2; br_op := hit_op e.2 |}.

Lemma entry_of_record e : entry_of (record_of e) = e.
Proof. by destruct e as [key []]. Qed.

Lemma record_of_entry r : record_of (entry_of r) = r.
Proof. by destruct r. Qed.

Lemma record_of_entries (rs : list BlockRecord) : record_of <$> (entry_of <$> rs) = rs.
Proof.
  rewrite <-list_fmap_compose, (list_fmap_ext _ id); [apply list_fmap_id|].
  intros ? r _. apply record_of_entry.
Qed.

Lemma ver_le_key a b : ver_le a b → key_le a b.
Proof. apply ikey_le_key. Qed.

Lemma sorted_ver_keys rs : StronglySorted ver_le rs → StronglySorted key_le rs.
Proof.
  induction 1 as [|r rs Hs IH Hr]; constructor; [done|]. eapply Forall_impl; [exact Hr|apply ver_le_key].
Qed.

Lemma sorted_entries rs : StronglySorted ver_le rs ↔ StronglySorted rec_le (entry_of <$> rs).
Proof.
  induction rs as [|r rs IH]; [split; constructor|].
  rewrite fmap_cons, !StronglySorted_cons, Forall_fmap, IH. done.
Qed.

(** What a scan of a table returns. *)
Abbreviation entries := (fmap (M := list) entry_of).

(** The merge of some tables, newest first: every record once, sorted, records
    with equal version keys in the order of the tables. *)
Definition merged (tables : list (list BlockRecord)) (rs : list BlockRecord) : Prop :=
  ∃ out : list HeapEntry, rs = record_of <$> (untag <$> out) ∧
    interleaves out (entries <$> tables) ∧ StronglySorted heap_le out.

Lemma concat_entries (tables : list (list BlockRecord)) :
  concat (entries <$> tables) = entry_of <$> concat tables.
Proof. induction tables as [|t ts IH]; [done|]. rewrite fmap_cons. cbn [concat]. by rewrite IH, fmap_app. Qed.

Lemma merged_perm tables rs : merged tables rs → rs ≡ₚ concat tables.
Proof.
  intros (out & -> & Hp%interleaves_perm & _). rewrite Hp, concat_entries. by rewrite record_of_entries.
Qed.

Lemma merged_sorted tables rs : merged tables rs → StronglySorted ver_le rs.
Proof.
  intros (out & -> & Hi & Hs). apply sorted_entries. rewrite <-list_fmap_compose.
  rewrite (list_fmap_ext _ id); [|intros ? e _; apply entry_of_record]. rewrite list_fmap_id.
  by eapply interleaves_sorted.
Qed.

Lemma open_inner_file `{Crc32c} `{Xxh3} `{AesGcm} `{VfsFile F W} (f : F) crypto (w : W) r :
  open_inner f crypto w = Ok r → tr_file r = f ∧ tr_crypto r = crypto.
Proof.
  unfold open_inner. intros Ho.
  repeat first [progress simplify_eq | apply bind_Ok in Ho as (? & _ & Ho) | case_match]; done.
Qed.

Section Tables.
Context `{Crc32cLaws} `{Xxh3} `{AesGcmLaws} {F W : Type} `{VfsLaws F W} `{!ReliableReads F W}.

Record table_of (r : SstReader F) (w : W) (rs : list BlockRecord) : Prop := {
  to_reader : ∃ chunks entries, reader_of r w rs chunks entries;
  to_size : is_u64 (len (contents (tr_file r) w));
  to_live : live w (tr_file r);
  to_small : Forall record_small rs;
  to_sorted : StronglySorted ver_le rs
}.

Lemma decode_disk_empty crypto off plain chunk :
  decode_disk crypto off [] = Ok plain → opens_as plain chunk → False.
Proof.
  unfold decode_disk, debug_assert. intros Hd (br & Hbr & _). destruct crypto as [ctx|].
  - destruct aead_open as [|p]; [done|]. cbn in Hd.
    rewrite (proj2 (Z.eqb_neq _ _)) in Hd by (unfold TAG_LEN; lia). done.
  - by injection Hd as <-.
Qed.

(** Reading a block depends on the file's bytes only. *)
Lemma read_data_block_frame (r : SstReader F) h w w' plain chunk :
  block_handle_ok h → is_u64 (len (contents (tr_file r) w)) →
  contents (tr_file r) w' = contents (tr_file r) w → opens_as plain chunk →
  read_data_block r h w = Ok plain → read_data_block r h w' = Ok plain.
Proof.
  intros (Ho & Hl & _) Hu Hc Hop. unfold read_data_block, is_u64, is_u32 in *.
  destruct (vf_read_at (tr_file r) (bh_length h) (bh_offset h) w) as [b| | |] eqn:E; try done.
  apply read_at_Ok in E as [[Hn|Hb] ->]; [| |lia|done].
  { rewrite Hn. intros Hd. by destruct (decode_disk_empty _ _ _ _ Hd Hop). }
  rewrite read_at_reliable by (rewrite ?Hc; unfold is_u64; lia). by rewrite Hc.
Qed.

Lemma table_of_frame r w w' rs :
  table_of r w rs → contents (tr_file r) w' = contents (tr_file r) w → live w' (tr_file r) →
  table_of r w' rs.
Proof.
  intros [(chunks & entries & [Hcat Hb Hi Hbl]) Hsize Hlive Hsmall Hsort] Hc Hl'.
  split; [|by rewrite Hc|done..]. exists chunks, entries. split; [done| |done..].
  eapply Forall2_impl; [exact Hb|]. intros chunk e (Hh & Hlast & plain & Hr & Hop).
  split_and!; [done|done|]. exists plain. split; [|done]. by eapply read_data_block_frame.
Qed.

Lemma table_of_writes r f w w' rs :
  only_writes f w w' → f ≠ tr_file r → table_of r w rs → table_of r w' rs.
Proof. intros Ho Hne Ht. eapply table_of_frame; [done|by apply Ho|by apply Ho, Ht]. Qed.

Lemma table_of_names r p w w' rs : only_names p w w' → table_of r w rs → table_of r w' rs.
Proof. intros Ho Ht. eapply table_of_frame; [done|by apply Ho, Ht|by apply Ho, Ht]. Qed.

(** ** Streaming a table *)

(** A stream over a table whose file is one of [G]. *)
Definition sst_yields (G : F → Prop) (w : W) (recs : list (bytes * LookupHit)) (s : SstStream F) : Prop :=
  ∃ r rs chunks entries, G (tr_file r) ∧ is_u64 (len (contents (tr_file r) w)) ∧ live w (tr_file r) ∧
    reader_of r w rs chunks entries ∧ stream_at r chunks entries s recs.

#[global] Instance sst_yields_law G : StreamLaw (sst_yields G).
Proof.
  intros w recs s (r & rs & chunks & entries & HG & Hu & Hl & Hr & Hs).
  destruct (stream_next_spec r w rs chunks entries Hr s recs Hs) as (s' & E & Hs'). exists s'.
  split; [exact E|]. intros _. by exists r, rs, chunks, entries.
Qed.

Lemma sst_yields_mono (G : F → Prop) w w' recs s :
  (∀ f, G f → live w f → contents f w' = contents f w ∧ live w' f) →
  sst_yields G w recs s → sst_yields G w' recs s.
Proof.
  intros Hsame (r & rs & chunks & entries & HG & Hu & Hl & [Hcat Hb Hi Hbl] & Hs).
  destruct (Hsame _ HG Hl) as [Hc Hl'].
  exists r, rs, chunks, entries. split_and!; [done|by rewrite Hc|done| |done].
  split; [done| |done..]. eapply Forall2_impl; [exact Hb|]. intros chunk e (Hh & Hlast & plain & Hr & Hop).
  split_and!; [done|done|]. exists plain. split; [|done]. by eapply read_data_block_frame.
Qed.

Lemma sst_yields_frame G f w w' recs s :
  only_writes f w w' → ¬ G f → sst_yields G w recs s → sst_yields G w' recs s.
Proof. intros Ho Hf. apply sst_yields_mono. intros g Hg Hl. split; [apply Ho; congruence|by apply Ho]. Qed.

Lemma sst_yields_names G p w w' recs s :
  only_names p w w' → sst_yields G w recs s → sst_yields G w' recs s.
Proof. intros Ho. apply sst_yields_mono. intros g Hg Hl. split; by apply Ho. Qed.

Lemma table_stream (G : F → Prop) r w rs :
  table_of r w rs → G (tr_file r) → ∃ s, scan_stream r = Ok s ∧ sst_yields G w (entry_of <$> rs) s.
Proof.
  intros [(chunks & entries & Hr) Hu Hl _ _] HG.
  destruct (stream_all_records r w rs chunks entries Hr) as (s & E & Hs). exists s. split; [done|].
  by exists r, rs, chunks, entries.
Qed.

(** ** Making a table *)

(** A finished table opens. *)
Lemma image_table_of (f : F) crypto alg rs w :
  table_image crypto alg rs (contents f w) → Forall record_small rs → keys_size rs < 2 ^ 30 →
  StronglySorted ver_le rs →
  ∃ r, open_inner f (decrypts crypto) w = Ok r ∧ fh_max_seqno (tr_header r) = max_seqno_of rs ∧
    (live w f → table_of r w rs).
Proof.
  intros Himg Hrs Hks Hs.
  destruct (open_image f w crypto alg rs Himg Hrs Hks) as (r & chunks & entries & Ho & Hr & Hn & Hm).
  exists r. split_and!; [done..|]. intros Hl. destruct (open_inner_file _ _ _ _ Ho) as [Ef _].
  destruct Himg as [Hsize _ _]. split; [by exists chunks, entries| |by rewrite Ef|done..].
  rewrite Ef. unfold is_u64. lia.
Qed.

Lemma write_table_of f alg n p crypto rs w :
  crypto_ok crypto → contents f w = [] → table_fits n p rs → StronglySorted ver_le rs →
  wp (write_table f alg n p crypto rs) (λ _ _, write_faults F W)
    (λ f' w', f' = f ∧ table_image crypto alg rs (contents f w') ∧
       ∃ r, open_inner f (decrypts crypto) w' = Ok r ∧
         fh_max_seqno (tr_header r) = max_seqno_of rs ∧ (live w' f → table_of r w' rs)) w.
Proof.
  intros Hk Hc Hfits Hs. eapply wp_mono;
    [apply (wp_write_table crypto Hk f alg n p rs w Hc Hfits (sorted_ver_keys _ Hs))|auto|].
  cbn beta. intros f' w' [-> Himg]. split_and!; [done..|]. destruct Hfits as (Hrs & Hks & _).
  by apply (image_table_of f crypto alg rs w').
Qed.

(** A table under a new name. *)
Lemma wp_new_table path alg n p crypto rs w :
  vfs_ok w → path_ok F W path → named w path = None → crypto_ok crypto → table_fits n p rs → StronglySorted ver_le rs →
  wp (f ← open_writable path; write_table f alg n p crypto rs)
    (λ _ w', write_faults F W ∧ only_names path w w')
    (λ f w', only_names path w w' ∧ named w' path = Some f ∧ ¬ live w f ∧
       table_image crypto alg rs (contents f w') ∧
       ∃ r, open_inner f (decrypts crypto) w' = Ok r ∧ tr_file r = f ∧ tr_crypto r = decrypts crypto ∧
         fh_max_seqno (tr_header r) = max_seqno_of rs ∧ table_of r w' rs) w.
Proof.
  intros Hok Hpath Hfree Hkey Hfits Hs. apply wp_bind. unfold wp at 1.
  pose proof (open_writable_only path w Hpath) as Honly. pose proof (open_writable_returns path w) as Hret.
  destruct (open_writable path w) as [[f|e| |] w1] eqn:Eo; try done; [|by split; [eapply open_writable_Err|]].
  cbn [snd] in Honly. destruct (open_writable_Ok _ _ _ _ Eo Hpath Hok) as [Hn Hl].
  destruct (open_writable_new _ _ _ _ Eo Hpath Hok Hfree) as [Hnew Hempty].
  pose proof (write_table_of f alg n p crypto rs w1 Hkey Hempty Hfits Hs) as Hwt.
  pose proof (write_table_only f alg n p crypto rs w1) as Hwo. unfold wp in *.
  destruct (write_table f alg n p crypto rs w1) as [[f'|e| |] w2]; cbn [snd] in Hwo; try done;
    assert (only_names path w w2) as Hnames by (by eapply only_names_new); [|done].
  destruct Hwt as (-> & Himg & r & Hopen & Hmax & Htab). destruct (open_inner_file _ _ _ _ Hopen) as [Ef Ec].
  split_and!; [done|by rewrite (ow_named _ _ _ Hwo)|done|done|].
  exists r. split_and!; [done..|]. by apply Htab, Hwo.
Qed.
End Tables.
