(* ===== verification/Compact.v ===== *)
(** Compaction: [crates/paddock-core/src/compaction/compact.rs].

    [compact_sstables] streams its inputs through the merge into a new table
    and opens that table. *)

From S2P Require Import Prelude Varint Checksum Vfs VfsLaws Bloom SstFormat Block Crypto SstWriter.
From S2P Require Import SstReader Frames InternalKey Merger SstTable.

(** * Data *)

Record CompactionConfig := {
  cc_bloom : BloomParams;
  cc_bloom_capacity_floor : Z;
  cc_checksum : Algorithm;
  cc_encryption : option (AeadKey * Z)
}.

Definition compaction_config_default : CompactionConfig :=
  {| cc_bloom := params_default; cc_bloom_capacity_floor := 1024; cc_checksum := AlgCrc32c;
     cc_encryption := None |}.

Record CompactionOutput (F : Type) := { co_reader : SstReader F; co_records_emitted : Z }.
Arguments co_reader {F} _.
Arguments co_records_emitted {F} _.

(** * Operations *)

Section Compaction.
Context `{Crc32c} `{Xxh3} `{AesGcm} {F W : Type} `{Vfs F W}.

Definition estimate_total_entries (inputs : list (SstReader F)) : Z :=
  let sum := foldl (λ sum sst, Z.min (sum + bh_length (ft_index_handle (tr_footer sst))) U64_MAX) 0 inputs in
  Z.max sum 1024.

Fixpoint open_streams (inputs : list (SstReader F)) : outcome (list (SstStream F)) :=
  match inputs with
  | [] => Ok []
  | sst :: inputs => s ← scan_stream sst; ss ← open_streams inputs; Ok (s :: ss)
  end.

(** The [while let] loop: merge, write, count.  Every iteration takes a record
    off the inputs. *)
Fixpoint compact_loop (fuel : nat) (emitted : Z) :
    st (KWayMerge (SstStream F) * (SstWriter F * W)) Z :=
  match fuel with
  | O => st_lift OutOfFuel
  | S fuel =>
      '(_, (_, w)) ← st_get;
      rec ← on_fst (merge_next_record w);
      match rec with
      | None => mret emitted
      | Some (key, hit) =>
          _ ← on_snd (sst_add key (hit_value hit) (hit_seqno hit) (hit_op hit));
          compact_loop fuel (emitted + 1)
      end
  end.

Definition create_output (file : F) (capacity : Z) (config : CompactionConfig) : st W (SstWriter F) :=
  match cc_encryption config with
  | Some (key, sst_id) =>
      create_encrypted file (cc_checksum config) capacity (cc_bloom config) key sst_id
  | None => create_with_filter_capacity file (cc_checksum config) capacity (cc_bloom config)
  end.

Definition open_output (path : string) (config : CompactionConfig) (w : W) : outcome (SstReader F) :=
  match cc_encryption config with
  | Some (key, sst_id) => f ← open_readonly path w; sst_open_encrypted f key sst_id w
  | None => f ← open_readonly path w; sst_open f w
  end.

Definition merge_into (fuel : nat) (merger : KWayMerge (SstStream F)) (writer : SstWriter F) : st W Z :=
  λ w,
  let '(r, (_, (_, w))) :=
    (emitted ← compact_loop fuel 0; _ ← on_snd sst_finish; mret emitted) (merger, (writer, w)) in
  (r, w).

Definition compact_sstables (fuel : nat) (inputs : list (SstReader F)) (output_path : string)
    (config : CompactionConfig) : st W (CompactionOutput F) :=
  streams ← st_lift (open_streams inputs);
  let bloom_capacity := Z.max (cc_bloom_capacity_floor config) (estimate_total_entries inputs) in
  writer_file ← open_writable output_path;
  writer ← create_output writer_file bloom_capacity config;
  emitted ← merge_into fuel (merge_new streams) writer;
  w ← st_get;
  reader ← st_lift (open_output output_path config w);
  mret {| co_reader := reader; co_records_emitted := emitted |}.
End Compaction.

(** * The loop writes the merged records *)

Definition config_ctx (config : CompactionConfig) : option EncryptionCtx :=
  match cc_encryption config with
  | Some (key, sst_id) => Some {| ec_aead := aead_new key; ec_sstable_id := sst_id |}
  | None => None
  end.

(** The outcome of the loop, from that of the writes. *)
Definition loop_outcome (r : outcome ()) (n : Z) : outcome Z :=
  match r with Ok _ => Ok n | Err e => Err e | Panic => Panic | OutOfFuel => OutOfFuel end.

Section CompactSpec.
Context `{Crc32cLaws} `{Xxh3} `{AesGcmLaws} {F W : Type} `{VfsLaws F W} `{!ReliableReads F W}.
Context (G : F → Prop).

(** One iteration, when the write succeeds and when it does not. *)
Lemma compact_loop_step fuel emitted (m m1 : KWayMerge (SstStream F)) (s s1 : SstWriter F * W) e rs :
  merge_next_record s.2 m = (Ok (Some e), m1) →
  sst_add e.1 (hit_value e.2) (hit_seqno e.2) (hit_op e.2) s = (Ok tt, s1) →
  compact_loop (S fuel) emitted (m, s) = compact_loop fuel (emitted + 1) (m1, s1) ∧
  sst_add_all (record_of e :: rs) s = sst_add_all rs s1.
Proof.
  intros E Eadd. destruct e as [key hit], s as [sw w]. cbn [fst snd] in *. split.
  - cbn [compact_loop]. rewrite run_get, (run_bind _ _ _ _ _ (on_fst_run _ _ _ _ _ E)).
    by rewrite (run_bind _ _ _ _ _ (on_snd_run _ _ _ _ _ Eadd)).
  - cbn [sst_add_all]. by rewrite (run_bind _ _ _ _ _ Eadd).
Qed.

Lemma compact_loop_stop fuel emitted (m m1 : KWayMerge (SstStream F)) (s s1 : SstWriter F * W) e rs r n :
  merge_next_record s.2 m = (Ok (Some e), m1) →
  sst_add e.1 (hit_value e.2) (hit_seqno e.2) (hit_op e.2) s = (r, s1) → r ≠ Ok tt →
  compact_loop (S fuel) emitted (m, s) = (loop_outcome r n, (m1, s1)) ∧
  sst_add_all (record_of e :: rs) s = (r, s1).
Proof.
  intros E Eadd Hr. destruct e as [key hit], s as [sw w]. cbn [fst snd] in *. split.
  - cbn [compact_loop]. rewrite run_get, (run_bind _ _ _ _ _ (on_fst_run _ _ _ _ _ E)).
    unfold mbind, st_bind. rewrite (on_snd_run _ _ _ _ _ Eadd). by destruct r as [[]| | |].
  - cbn [sst_add_all]. unfold mbind, st_bind. cbn [record_of br_key br_value br_seqno br_op fst snd].
    rewrite Eadd. by destruct r as [[]| | |].
Qed.

Lemma compact_loop_spec fuel emitted m rems (s : SstWriter F * W) :
  merge_at (sst_yields G) s.2 m rems → Forall (StronglySorted rec_le) rems →
  (sum_list_with length rems < fuel)%nat → ¬ G (sw_file s.1) →
  ∃ out m', interleaves out rems ∧ StronglySorted heap_le out ∧
    let '(r, s') := sst_add_all (record_of <$> (untag <$> out)) s in
    compact_loop fuel emitted (m, s) = (loop_outcome r (emitted + len out), (m', s')).
Proof.
  revert emitted m rems s. induction fuel as [|fuel IH]; intros emitted m rems s Hm Hsorted Hfuel HG; [lia|].
  destruct (next_record_spec _ s.2 m rems Hm) as [[E Hnil]|(j & e & rest & m1 & Hj & E & Hm1 & Hmin)].
  { exists [], m. split_and!; [|constructor|].
    - split; [constructor|]. intros i recs Hi. rewrite Forall_lookup in Hnil. by rewrite (Hnil _ _ Hi).
    - cbn [compact_loop]. rewrite run_get. destruct s as [sw w].
      rewrite (run_bind _ _ _ _ _ (on_fst_run _ _ _ _ _ E)). cbn. by rewrite Z.add_0_r. }
  pose proof (sorted_insert_rest _ _ _ _ Hj Hsorted) as Hsorted1.
  rewrite (sum_length_insert _ _ _ _ Hj) in Hfuel.
  destruct (sst_add e.1 (hit_value e.2) (hit_seqno e.2) (hit_op e.2) s) as [r s1] eqn:Eadd.
  destruct (sst_add_framed e.1 (hit_value e.2) (hit_seqno e.2) (hit_op e.2) s) as [Hfile Honly].
  rewrite Eadd in Hfile, Honly. cbn [fst snd] in Hfile, Honly.
  assert (∀ out, interleaves out (<[j:=rest]> rems) → StronglySorted heap_le out →
    interleaves (tag j e :: out) rems ∧ StronglySorted heap_le (tag j e :: out)) as Hcons.
  { intros out Hi Hs. split; [by eapply interleaves_cons|].
    apply StronglySorted_cons. split; [by eapply interleaves_above|done]. }
  assert (∀ out, record_of <$> (untag <$> tag j e :: out) = record_of e :: (record_of <$> (untag <$> out)))
    as Hrec by by destruct e.
  destruct (decide (r = Ok tt)) as [->|Hr].
  - destruct (IH (emitted + 1) m1 (<[j:=rest]> rems) s1) as (out & m' & Hi & Hs & Hrun); [|done|lia|by rewrite Hfile|].
    { eapply merge_at_mono; [|exact Hm1]. intros recs st. by apply (sst_yields_frame G (sw_file s.1)). }
    exists (tag j e :: out), m'. rewrite Hrec.
    destruct (compact_loop_step fuel emitted m m1 s s1 e (record_of <$> (untag <$> out)) E Eadd) as [-> ->].
    split_and!; [by apply Hcons..|]. destruct (sst_add_all _ s1) as [r s']. rewrite Hrun. do 2 f_equal. len_lia.
  - destruct (merge_collect_spec _ fuel s.2 m1 _ Hm1 Hsorted1) as (out & _ & _ & Hi & Hs); [lia|].
    exists (tag j e :: out), m1. rewrite Hrec.
    destruct (compact_loop_stop fuel emitted m m1 s s1 e (record_of <$> (untag <$> out)) r
      (emitted + len (tag j e :: out)) E Eadd Hr) as [-> ->]. split_and!; [by apply Hcons..|done].
Qed.

(** The loop from construction on: the heap is filled by the first call. *)
Lemma compact_loop_new fuel streams inputs (s : SstWriter F * W) :
  Forall2 (λ st recs, sst_yields G s.2 recs st) streams inputs → Forall (StronglySorted rec_le) inputs →
  (sum_list_with length inputs < fuel)%nat → ¬ G (sw_file s.1) →
  ∃ out m', interleaves out inputs ∧ StronglySorted heap_le out ∧
    let '(r, s') := sst_add_all (record_of <$> (untag <$> out)) s in
    compact_loop fuel 0 (merge_new streams, s) = (loop_outcome r (len out), (m', s')).
Proof.
  intros Hy Hs Hfuel HG. destruct (prime_spec _ s.2 streams inputs Hy) as (m & E & Hm).
  destruct (compact_loop_spec fuel 0 m inputs s Hm Hs Hfuel HG) as (out & m' & Hi & Ho & Hrun).
  exists out, m'. split_and!; [done..|]. destruct (sst_add_all _ s) as [r s']. rewrite Z.add_0_l in Hrun.
  rewrite <-Hrun. destruct fuel as [|fuel]; [lia|]. cbn [compact_loop]. rewrite !run_get.
  destruct s as [sw w]. unfold on_fst, mbind, st_bind. cbn [fst snd] in *.
  by rewrite (next_record_primed _ _ _ _ _ E Hm).
Qed.

(** Creating the output and merging into it writes the table of the merged
    records. *)
Lemma compact_write fuel streams inputs (f : F) capacity config (w : W) :
  Forall2 (λ st recs, sst_yields G w recs st) streams inputs → Forall (StronglySorted rec_le) inputs →
  (sum_list_with length inputs < fuel)%nat → ¬ G f →
  ∃ out, interleaves out inputs ∧ StronglySorted heap_le out ∧
    let '(r, w') := write_table f (cc_checksum config) capacity (cc_bloom config) (config_ctx config)
      (record_of <$> (untag <$> out)) w in
    (writer ← create_output f capacity config; merge_into fuel (merge_new streams) writer) w =
      (_ ← r; Ok (len out), w').
Proof.
  intros Hy Hs Hfuel HG.
  assert (create_output f capacity config =
    create_inner f (cc_checksum config) capacity (cc_bloom config) (config_ctx config)) as Hcreate
    by (unfold create_output, config_ctx; by destruct (cc_encryption config) as [[? ?]|]).
  rewrite Hcreate. unfold write_table.
  pose proof (create_inner_only f (cc_checksum config) capacity (cc_bloom config) (config_ctx config) w) as Honly.
  destruct (create_inner _ _ _ _ _ w) as [[sw|e| |] w1] eqn:E.
  2-4: destruct (merge_spec _ w streams inputs fuel Hy Hs Hfuel) as (out & m' & _ & Hi & Ho);
    exists out; split_and!; [done..|]; unfold mbind, st_bind; by rewrite E.
  cbn [snd] in Honly. pose proof (create_inner_file _ _ _ _ _ _ _ _ E) as Hfile.
  destruct (compact_loop_new fuel streams inputs (sw, w1)) as (out & m' & Hi & Ho & Hrun);
    [|done|done|cbn; by rewrite Hfile|].
  { eapply Forall2_impl; [exact Hy|]. intros st recs. by apply (sst_yields_frame G f). }
  exists out. split_and!; [done..|]. rewrite (run_bind _ _ _ _ _ E). unfold merge_into, mbind, st_bind.
  destruct (sst_add_all _ (sw, w1)) as [[[]|e| |] [sw2 w2]]; cbn [loop_outcome] in Hrun; rewrite Hrun; try done.
  unfold on_snd. cbn [fst snd]. by destruct (sst_finish (sw2, w2)) as [[f'|e| |] [sw3 w3]].
Qed.
End CompactSpec.

Lemma keys_size_perm rs rs' : rs ≡ₚ rs' → keys_size rs = keys_size rs'.
Proof. unfold keys_size. induction 1; cbn [foldr]; lia. Qed.

Lemma table_fits_perm n p rs rs' : rs ≡ₚ rs' → table_fits n p rs' → table_fits n p rs.
Proof.
  intros Hp (Hs & Hk & Hrest). split; [by rewrite Hp|]. split; [|done]. by rewrite (keys_size_perm _ _ Hp).
Qed.

Section CompactOk.
Context `{Crc32cLaws} `{Xxh3} `{AesGcmLaws} {F W : Type} `{VfsLaws F W} `{!ReliableReads F W}.

Definition tables_of (w : W) (inputs : list (SstReader F)) (tables : list (list BlockRecord)) : Prop :=
  Forall2 (λ r rs, table_of r w rs) inputs tables.

Lemma tables_of_names p w w' inputs tables :
  only_names p w w' → tables_of w inputs tables → tables_of w' inputs tables.
Proof. intros Ho Ht. eapply Forall2_impl; [exact Ht|]. intros r rs. by apply table_of_names with p. Qed.

Lemma open_streams_ok (w : W) inputs tables :
  tables_of w inputs tables →
  ∃ streams, open_streams inputs = Ok streams ∧
    Forall2 (λ st recs, sst_yields (λ f, f ∈ tr_file <$> inputs) w recs st) streams (entries <$> tables).
Proof.
  intros Ht.
  assert (∀ G : F → Prop, (∀ r, r ∈ inputs → G (tr_file r)) → ∃ streams, open_streams inputs = Ok streams ∧
    Forall2 (λ st recs, sst_yields G w recs st) streams (entries <$> tables)) as Hgen.
  { intros G. induction Ht as [|r rs inputs tables Hr _ IH]; intros HG; [by exists []|].
    destruct IH as (ss & E & Hss); [intros; apply HG; by right|].
    destruct (table_stream G r w rs Hr) as (s & Es & Hs); [apply HG; left|].
    exists (s :: ss). cbn [open_streams]. rewrite Es. cbn [mbind outcome_bind]. rewrite E.
    split; [done|]. rewrite fmap_cons. by constructor. }
  apply Hgen. intros r Hr. by apply list_elem_of_fmap_2.
Qed.

Lemma sum_length_entries (tables : list (list BlockRecord)) :
  sum_list_with length (entries <$> tables) = length (concat tables).
Proof.
  induction tables as [|t ts IH]; [done|]. rewrite fmap_cons. cbn [sum_list_with concat].
  by rewrite IH, length_app, length_fmap.
Qed.

(** What the caller needs to hold: the output's name is a good one and free, the key is a key,
    and the merged table is within the format's limits. *)
Record compact_pre (inputs : list (SstReader F)) (tables : list (list BlockRecord)) (path : string)
    (config : CompactionConfig) (w : W) : Prop := {
  cp_ok : vfs_ok w;
  cp_tables : tables_of w inputs tables;
  cp_path : path_ok F W path;
  cp_free : named w path = None;
  cp_key : crypto_ok (config_ctx config);
  cp_fits : table_fits (Z.max (cc_bloom_capacity_floor config) (estimate_total_entries inputs))
    (cc_bloom config) (concat tables)
}.

Lemma new_not_input w inputs tables f : tables_of w inputs tables → ¬ live w f → f ∉ tr_file <$> inputs.
Proof.
  intros Ht Hnew (r & -> & Hr)%list_elem_of_fmap. apply Hnew.
  apply list_elem_of_lookup in Hr as [i Hi]. destruct (Forall2_lookup_l _ _ _ _ _ Ht Hi) as (rs & _ & Hrs).
  apply Hrs.
Qed.

Lemma tables_sorted w inputs tables :
  tables_of w inputs tables → Forall (StronglySorted rec_le) (entries <$> tables).
Proof.
  intros Ht. apply Forall_fmap, Forall_lookup. intros i rs Hi.
  destruct (Forall2_lookup_r _ _ _ _ _ Ht Hi) as (r & _ & Hrs). by apply sorted_entries, Hrs.
Qed.

Lemma open_output_ok path config (w : W) f :
  vfs_ok w → named w path = Some f → open_output path config w = open_inner f (decrypts (config_ctx config)) w.
Proof.
  intros Hok Hn. unfold open_output, sst_open_encrypted, sst_open, config_ctx.
  rewrite (open_readonly_named path w f Hok Hn). by destruct (cc_encryption config) as [[key id]|].
Qed.

Lemma wp_compact fuel inputs tables path config (w : W) :
  compact_pre inputs tables path config w → (length (concat tables) < fuel)%nat →
  wp (compact_sstables fuel inputs path config) (λ _ w', write_faults F W ∧ only_names path w w')
    (λ out w', only_names path w w' ∧ named w' path = Some (tr_file (co_reader out)) ∧
       ¬ live w (tr_file (co_reader out)) ∧ tr_crypto (co_reader out) = decrypts (config_ctx config) ∧
       ∃ rs, merged tables rs ∧ co_records_emitted out = len rs ∧ table_of (co_reader out) w' rs ∧
         table_image (config_ctx config) (cc_checksum config) rs (contents (tr_file (co_reader out)) w')) w.
Proof.
  intros [Hok Ht Hpath Hfree Hkey Hfits] Hfuel. unfold compact_sstables.
  destruct (open_streams_ok w inputs tables Ht) as (streams & Es & Hy).
  apply wp_bind. eapply wp_lift_Ok; [exact Es|]. set (capacity := Z.max _ _) in *.
  pose proof (open_writable_only path w Hpath) as Honly. pose proof (open_writable_returns path w) as Hret.
  apply wp_bind. unfold wp at 1. destruct (open_writable path w) as [[f|e| |] w1] eqn:Eo; try done;
    [|by split; [eapply open_writable_Err|]].
  cbn [snd] in Honly. destruct (open_writable_Ok _ _ _ _ Eo Hpath Hok) as [Hn Hl].
  destruct (open_writable_new _ _ _ _ Eo Hpath Hok Hfree) as [Hnew Hempty].
  pose proof (new_not_input _ _ _ _ Ht Hnew) as Hnotin.
  destruct (compact_write (λ g, g ∈ tr_file <$> inputs) fuel streams (entries <$> tables) f capacity config w1)
    as (out & Hi & Hs & Hrun); [| | |done|].
  { eapply Forall2_impl; [exact Hy|]. intros st recs. by apply sst_yields_names with path. }
  { by eapply tables_sorted. }
  { by rewrite sum_length_entries. }
  set (rs := record_of <$> (untag <$> out)) in *. assert (merged tables rs) as Hm by by exists out.
  pose proof (write_table_only f (cc_checksum config) capacity (cc_bloom config) (config_ctx config) rs w1) as Hwo.
  pose proof (write_table_of f (cc_checksum config) capacity (cc_bloom config) (config_ctx config) rs w1 Hkey Hempty
    (table_fits_perm _ _ _ _ (merged_perm _ _ Hm) Hfits) (merged_sorted _ _ Hm)) as Hwt.
  unfold wp in Hwt |- *. rewrite (run_assoc _ (λ writer, merge_into fuel (merge_new streams) writer)).
  destruct (write_table _ _ _ _ _ rs w1) as [[f'|e| |] w2]; cbn [mbind outcome_bind snd] in Hrun, Hwo; try done;
    assert (only_names path w w2) as Hnames by (by eapply only_names_new).
  2: by rewrite (run_bind_Err _ _ _ _ _ Hrun).
  destruct Hwt as (-> & Himg & r & Hopen & _ & Htab). rewrite (run_bind _ _ _ _ _ Hrun), run_get.
  rewrite (run_lift _ _ _ r)
    by (erewrite open_output_ok; [exact Hopen|by apply Hnames|by rewrite (ow_named _ _ _ Hwo)]).
  destruct (open_inner_file _ _ _ _ Hopen) as [Ef Ec].
  cbn [mret st_ret co_reader co_records_emitted]. rewrite Ef. split_and!; try done.
  - by rewrite (ow_named _ _ _ Hwo).
  - exists rs. split_and!; [done| |by apply Htab, Hwo|done]. unfold rs. by rewrite !length_fmap.
Qed.
End CompactOk.

(** * Properties *)

(** C11. Compaction keeps every record.  Given open input tables, newest first,
    a free output name and sizes within the format's limits, it terminates; it
    fails only when the store fails to write; otherwise the new table scans to
    the merge of the inputs: every record of every input exactly once, sorted
    by key and newest version first, the newer input first on equal versions,
    and the count returned is theirs.  Success or not, the inputs and every
    other file stay readable as they were. *)
Theorem compact_preserves_records `{Crc32cLaws} `{Xxh3} `{AesGcmLaws} {F W : Type} `{VfsLaws F W}
    `{!ReliableReads F W} (fuel : nat) (inputs : list (SstReader F)) (tables : list (list BlockRecord))
    (path : string) (config : CompactionConfig) (w : W)
    (Hpre : compact_pre inputs tables path config w) (Hfuel : (length (concat tables) < fuel)%nat) :
  match compact_sstables fuel inputs path config w with
  | (Ok out, w') => only_names path w w' ∧ tables_of w' inputs tables ∧
      ∃ rs, merged tables rs ∧ rs ≡ₚ concat tables ∧ StronglySorted ver_le rs ∧
        co_records_emitted out = len rs ∧ sst_scan (co_reader out) w' = Ok (entries rs)
  | (Err _, w') => write_faults F W ∧ only_names path w w' ∧ tables_of w' inputs tables
  | (Panic, _) | (OutOfFuel, _) => False
  end.
Proof.
  pose proof (wp_compact fuel inputs tables path config w Hpre Hfuel) as Hw. unfold wp in Hw.
  destruct (compact_sstables fuel inputs path config w) as [[out|e| |] w']; try done.
  - destruct Hw as (Hn & _ & _ & _ & rs & Hm & He & [(chunks & ents & Hr) _ _ _ _] & _).
    split_and!; [done|by eapply tables_of_names; [done|apply Hpre]|].
    exists rs. split_and!; [done|by apply merged_perm|by eapply merged_sorted|done|].
    by eapply scan_all_records.
  - destruct Hw as [Hf Hn]. split_and!; [done..|]. eapply tables_of_names; [done|apply Hpre].
Qed.

Definition small_filter : BloomParams := {| num_hashes := 1; bits_per_key := 0 |}.

(** A new table in memory. *)
Lemma mem_new_table path rs (w : MemVfs) :
  vfs_ok w → named w path = None → table_fits 0 small_filter rs → StronglySorted ver_le rs →
  ∃ (w' : MemVfs) (r : SstReader MemFile),
    vfs_ok w' ∧ only_names path w w' ∧ table_of r w' rs.
Proof.
  intros Hok Hfree Hfits Hs.
  pose proof (wp_new_table path AlgCrc32c 0 small_filter None rs w Hok I Hfree I Hfits Hs) as Hw. unfold wp in Hw.
  destruct ((open_writable path ≫= _) w) as [[f|e| |] w']; [|by destruct Hw as [[] _]|done..].
  destruct Hw as (Hn & _ & _ & _ & r & _ & _ & _ & _ & Ht). exists w', r. split_and!; [by apply Hn|done..].
Qed.

Definition newer_table : list BlockRecord := [rec_put [97] [9] 9; rec_put [98] [8] 8].
Definition older_table : list BlockRecord := [rec_put [97] [1] 1; rec_put [99] [2] 2].

Lemma small_fits n rs :
  forallb (λ r, (len (br_key r) + len (br_value r) <? 1000) && (0 <=? br_seqno r) && (br_seqno r <? 1000)) rs = true →
  (length rs ≤ 10)%nat → table_fits n small_filter rs.
Proof.
  intros Hrs Hlen.
  assert (Forall (λ r, len (br_key r) + len (br_value r) < 1000 ∧ 0 ≤ br_seqno r < 1000) rs) as Hf.
  { apply Forall_forall. intros r Hr%list_elem_of_In. pose proof (proj1 (forallb_forall _ rs) Hrs r Hr) as Hb.
    cbn beta in Hb. lia. }
  split; [|split].
  - eapply Forall_impl; [exact Hf|]. intros r Hr. cbn beta in Hr. unfold record_small, is_u64. lia.
  - assert (keys_size rs ≤ 2000 * len rs) as Hk; [|lia].
    clear Hrs Hlen. unfold keys_size. induction Hf as [|r rs Hr _ IH]; cbn [foldr length]; lia.
  - unfold is_u8. cbn. lia.
Qed.

Lemma compact_preserves_records_witness :
  ∃ (w : MemVfs) (inputs : list (SstReader MemFile)) (out : CompactionOutput MemFile) (w' : MemVfs),
    compact_pre inputs [newer_table; older_table] "/c" {| cc_bloom := small_filter;
      cc_bloom_capacity_floor := 1; cc_checksum := AlgCrc32c; cc_encryption := None |} w ∧
    compact_sstables 5 inputs "/c" {| cc_bloom := small_filter;
      cc_bloom_capacity_floor := 1; cc_checksum := AlgCrc32c; cc_encryption := None |} w = (Ok out, w') ∧
    co_records_emitted out = 4.
Proof.
  set (config := {| cc_bloom := small_filter; cc_bloom_capacity_floor := 1; cc_checksum := AlgCrc32c;
                    cc_encryption := None |}).
  destruct (mem_new_table "/a" older_table mem_new) as (w1 & r1 & Hok1 & Hn1 & Ht1);
    [exact mem_new_ok|reflexivity|by apply small_fits; [|cbn; lia]|repeat constructor; discriminate|].
  assert (named w1 "/b" = None) as Hb by (rewrite (on_named _ _ _ Hn1); [reflexivity|discriminate]).
  destruct (mem_new_table "/b" newer_table w1) as (w2 & r2 & Hok2 & Hn2 & Ht2);
    [exact Hok1|exact Hb|by apply small_fits; [|cbn; lia]|repeat constructor; discriminate|].
  assert (named w2 "/c" = None) as Hc
    by (rewrite (on_named _ _ _ Hn2), (on_named _ _ _ Hn1); [reflexivity|discriminate..]).
  assert (compact_pre [r2; r1] [newer_table; older_table] "/c" config w2) as Hpre.
  { split; [exact Hok2| |exact I|exact Hc|exact I|by apply small_fits; [|cbn; lia]].
    constructor; [exact Ht2|]. constructor; [|constructor]. exact (table_of_names _ _ _ _ _ Hn2 Ht1). }
  exists w2, [r2; r1].
  pose proof (compact_preserves_records 5 [r2; r1] [newer_table; older_table] "/c" config w2 Hpre) as Hthm.
  specialize (Hthm ltac:(cbn; lia)).
  destruct (compact_sstables 5 [r2; r1] "/c" config w2) as [[out|e| |] w']; [|destruct Hthm as [[] _]|destruct Hthm..].
  exists out, w'. split; [exact Hpre|]. split; [reflexivity|].
  destruct Hthm as (_ & _ & rs & _ & Hperm & _ & He & _). rewrite He, (Permutation_length Hperm). reflexivity.
Defined.
