(* ===== verification/UnitTable.v ===== *)
(** The tests of the tables and their merge: those in [sstable/] and
    [compaction/], on [MemVfs] with the bitwise CRC32C.

    Left out is [bloom_filter_prunes_negative_lookups], which measures how well
    the real xxh3 spreads its keys. *)

From S2P Require Import Prelude TestKit Checksum Vfs Bloom SstFormat Block Crypto SstWriter SstReader.
From S2P Require Import VfsLaws Frames FileNames UnitCodec Merger Compact.

(** * [sstable/block.rs] *)

Definition record (key value : bytes) (seqno : Z) (op : RecordOp) : BlockRecord :=
  {| br_key := key; br_value := value; br_seqno := seqno; br_op := op |}.

Definition build (rs : list BlockRecord) : outcome bytes :=
  b ← builder_add_all builder_new rs;
  '(out, _) ← builder_finish b;
  Ok out.

Definition is_checksum_mismatch (e : Error) : bool := match e with ChecksumMismatch _ _ _ => true | _ => false end.

Definition block_tests : list test := [
  Test "empty_block_has_only_trailer" (
    out ← build [];
    assert_eq (len out) (4 + 4));
  Test "single_record_round_trip" (
    out ← build [record (lit "key") (lit "value") 7 OpPut];
    r ← unwrap (block_open out);
    first ← iter_next (block_iter r);
    '(rec, it) ← expect first;
    _ ← assert_eq rec (record (lit "key") (lit "value") 7 OpPut);
    second ← iter_next it;
    assert_that (match second with None => true | Some _ => false end));
  Test "many_records_iterate_in_order" (
    let records := (λ i, record (numbered_key i) (lit "v-" ++ padded 0 i) (i + 1) OpPut) <$> upto 100 in
    out ← build records;
    r ← unwrap (block_open out);
    collected ← block_records r;
    assert_eq (br_key <$> (collected : list BlockRecord)) (br_key <$> records));
  Test "prefix_compression_shrinks_block_for_shared_prefixes" (
    shared_bytes ← build ((λ i, record (lit "long_shared_prefix_" ++ padded 5 i) (lit "v") (i + 1) OpPut) <$> upto 50);
    unique_bytes ← build ((λ i, record (lit "UNIQUE-" ++ padded 5 i ++ lit "-prefix-burn-" ++ padded 20 0) (lit "v") (i + 1) OpPut) <$> upto 50);
    assert_that (len shared_bytes <? len unique_bytes));
  Test "corrupted_crc_is_detected" (
    out ← build [record (lit "k") (lit "v") 1 OpPut];
    err ← unwrap_err (block_open (alter (λ b, Z.lxor b 0x55) (length out - 1)%nat out));
    assert_that (is_checksum_mismatch err))
].

Definition block_seek_tests : list test := [
  Test "seek_finds_exact_match" (
    out ← build ((λ i, record (numbered_key i) (lit "v") (i + 1) OpPut) <$> upto 64);
    r ← unwrap (block_open out);
    found ← block_seek r (lit "key-00032");
    rec ← expect found;
    assert_eq (br_key rec) (lit "key-00032"));
  Test "seek_returns_first_key_geq_target_when_no_exact_match" (
    out ← build ((λ k, record k (lit "v") 1 OpPut) <$> [lit "alpha"; lit "bravo"; lit "delta"; lit "echo"]);
    r ← unwrap (block_open out);
    found ← block_seek r (lit "charlie");
    rec ← expect found;
    assert_eq (br_key rec) (lit "delta"));
  Test "seek_past_last_key_returns_none" (
    out ← build ((λ k, record k (lit "v") 1 OpPut) <$> [lit "alpha"; lit "bravo"; lit "delta"]);
    r ← unwrap (block_open out);
    found ← block_seek r (lit "zzz");
    assert_that (match found with None => true | Some _ => false end));
  Test "restart_array_grows_every_interval_records" (
    out ← build ((λ i, record (numbered_key i) (lit "v") 1 OpPut) <$> upto (Z.to_nat (RESTART_INTERVAL * 3 + 2)));
    r ← unwrap (block_open out);
    assert_eq (num_restarts r) 4);
  Test "tombstone_stores_empty_value" (
    out ← build [record (lit "k") [] 9 OpTombstone];
    r ← unwrap (block_open out);
    first ← iter_next (block_iter r);
    '(rec, _) ← expect first;
    _ ← assert_eq (br_op rec) OpTombstone;
    _ ← assert_eq (br_value rec) [];
    assert_eq (br_seqno rec) 9);
  Test "block_trailer_layout_is_stable" (
    out ← build [record (lit "k") (lit "v") 1 OpPut];
    num ← slice out (len out - 8) (len out - 4);
    _ ← assert_eq (le_val num) 1;
    _ ← slice out (len out - 4) (len out);
    Ok tt);
  Test "zerocopy_traits_compile" (
    let bh := {| bh_offset := 0; bh_length := 0; bh_checksum := 0 |} in
    let _bytes := block_handle_as_bytes bh in Ok tt)
].

(** * [sstable/format.rs] *)

#[global] Instance CompressionAlg_eq_dec : EqDecision CompressionAlg.
Proof. solve_decision. Defined.

Definition zero_handle : BlockHandle := {| bh_offset := 0; bh_length := 0; bh_checksum := 0 |}.

Definition empty_header : FileHeader :=
  file_header_new_signed 0 CompNone AlgCrc32c 0 0 0 0 FILE_HEADER_REGION_SIZE.

Definition flipping_any_signed_byte_invalidates_file_header : outcome () :=
  let b := file_header_as_bytes empty_header in
  each (seq 0 (length b)) (λ i, each (seq 0 8) (λ bit,
    parsed ← expect (file_header_from_bytes (flip_bit b i bit));
    assert_that (negb (file_header_is_valid parsed)))).

Definition sst_format_tests : list test := [
  Test "file_header_size_matches_constant" (
    assert_eq (len (file_header_as_bytes empty_header)) FILE_HEADER_SIZE);
  Test "footer_size_matches_constant" (
    assert_eq (len (footer_as_bytes (footer_new_signed zero_handle zero_handle zero_handle))) FOOTER_SIZE);
  Test "block_handle_size_is_16_bytes" (assert_eq BLOCK_HANDLE_SIZE 16);
  Test "signed_file_header_validates" (
    let h := file_header_new_signed CHECKSUMMED CompNone AlgCrc32c 42 7 1 42
               (FILE_HEADER_REGION_SIZE + 7 * DEFAULT_BLOCK_SIZE) in
    assert_that (file_header_is_valid h));
  Test "flipping_any_signed_byte_invalidates_file_header" flipping_any_signed_byte_invalidates_file_header;
  Test "signed_footer_validates" (
    let bh := {| bh_offset := 8192; bh_length := 123; bh_checksum := 0xDEADBEEF |} in
    assert_that (footer_is_valid (footer_new_signed bh bh bh)));
  Test "footer_with_wrong_magic_is_invalid" (
    let f := footer_new_signed zero_handle zero_handle zero_handle in
    let f := {| ft_index_handle := ft_index_handle f; ft_filter_handle := ft_filter_handle f;
                ft_meta_handle := ft_meta_handle f; ft_footer_magic := 0xDEADBEEF;
                ft_format_version := ft_format_version f; ft_footer_crc32c := ft_footer_crc32c f |} in
    assert_that (negb (footer_is_valid f)));
  Test "compression_and_record_op_tags_round_trip" (
    _ ← each [CompNone; Lz4; Zstd] (λ alg, assert_eq (compression_from_byte (compression_as_byte alg)) (Some alg));
    _ ← assert_eq (compression_from_byte 99) None;
    _ ← each [OpPut; OpTombstone] (λ op, assert_eq (record_op_from_byte (record_op_as_byte op)) (Some op));
    assert_eq (record_op_from_byte 99) None)
].

(** * [sstable/writer.rs] *)

Definition add_to (sw : SstWriter MemFile) (r : BlockRecord) : st MemVfs (SstWriter MemFile) :=
  '(_, sw) ← st_unwrap (owning sw (sst_add (br_key r) (br_value r) (br_seqno r) (br_op r)));
  mret sw.

Fixpoint add_records (sw : SstWriter MemFile) (rs : list BlockRecord) : st MemVfs (SstWriter MemFile) :=
  match rs with
  | [] => mret sw
  | r :: rs => sw ← add_to sw r; add_records sw rs
  end.

Definition finish_table (sw : SstWriter MemFile) : st MemVfs () :=
  _ ← st_unwrap (owning sw sst_finish);
  mret tt.

(** [SstWriter::create(vfs.open_writable(path).unwrap(), Algorithm::Crc32c).unwrap()]. *)
Definition create_table (path : string) : st MemVfs (SstWriter MemFile) :=
  f ← st_unwrap (open_writable path);
  st_unwrap (sst_create f AlgCrc32c).

(** A table of the given records, in blocks of [block_size] bytes. *)
Definition table_with (block_size : Z) (rs : list BlockRecord) : st MemVfs () :=
  writer ← create_table "sst";
  let writer := set_block_size block_size writer in
  writer ← add_records writer rs;
  finish_table writer.

Definition size_of_file (path : string) (w : MemVfs) : outcome Z :=
  f ← unwrap (open_readonly path w);
  unwrap (vf_size f w).

Definition sst_writer_tests : list test := [
  Test "empty_writer_with_filter_disabled_has_only_layout_overhead" (run (
    f ← st_unwrap (open_writable "sst");
    writer ← st_unwrap (create_with_filter_capacity f AlgCrc32c 0 params_default);
    _ ← finish_table writer;
    w ← st_get;
    size ← st_lift (size_of_file "sst" w);
    st_lift (assert_eq size (FILE_HEADER_REGION_SIZE + 8 + FOOTER_SIZE))) mem_new);
  Test "single_record_writer_seals_one_block" (run (
    writer ← create_table "sst";
    writer ← add_to writer (record (lit "hello") (lit "world") 1 OpPut);
    _ ← finish_table writer;
    w ← st_get;
    size ← st_lift (size_of_file "sst" w);
    st_lift (assert_that (FILE_HEADER_REGION_SIZE * 2 <=? size))) mem_new);
  Test "many_records_flow_into_multiple_blocks" (run (
    table_with 512 ((λ i, record (numbered_key i) (lit "value-" ++ padded 5 i) (i + 1) OpPut) <$> upto 1024)) mem_new);
  Test "footer_lands_in_last_64_bytes" (run (
    writer ← create_table "sst";
    writer ← add_to writer (record (lit "k") (lit "v") 1 OpPut);
    _ ← finish_table writer;
    w ← st_get;
    st_lift (
      r ← unwrap (open_readonly "sst" w);
      size ← unwrap (vf_size r w);
      buf ← unwrap (vf_read_at r FOOTER_SIZE (size - FOOTER_SIZE) w);
      footer ← expect (footer_from_bytes buf);
      assert_that (footer_is_valid footer))) mem_new)
].

(** * [sstable/reader.rs] *)

Definition build_table (path : string) (rs : list BlockRecord) : st MemVfs () :=
  writer ← create_table path;
  writer ← add_records writer rs;
  finish_table writer.

(** [SstReader::open(vfs.open_readonly(path).unwrap()).unwrap()]. *)
Definition open_table (path : string) : st MemVfs (SstReader MemFile) := λ w,
  (f ← unwrap (open_readonly path w); unwrap (sst_open f w), w).

(** [r.get(key, u64::MAX).unwrap()], with the AVX2 probe. *)
Definition get_latest (r : SstReader MemFile) (key : bytes) : st MemVfs (option LookupHit) := λ w,
  (unwrap (sst_get true key U64_MAX w r).1, w).

(** Every record is found, with its value. *)
Definition get_each (rs : list BlockRecord) (w : MemVfs) : st (SstReader MemFile) () :=
  st_each rs (λ x,
    found ← st_unwrap (sst_get true (br_key x) U64_MAX w);
    hit ← st_lift (expect found);
    st_lift (assert_eq (hit_value hit) (br_value x))).

Definition get_all_back (block_size : Z) (rs : list BlockRecord) : outcome () := run (
  _ ← table_with block_size rs;
  r ← open_table "sst";
  w ← st_get;
  st_lift (run (get_each rs w) r)) mem_new.

(** The order of [sort] on keys. *)
Definition bytes_le (a b : bytes) : Prop := bytes_leb a b = true.

#[global] Instance bytes_le_dec : RelDecision bytes_le.
Proof. intros a b. unfold bytes_le. apply _. Defined.

Definition scan_in_order (block_size : Z) (rs : list BlockRecord) : outcome () := run (
  _ ← table_with block_size rs;
  r ← open_table "sst";
  w ← st_get;
  all ← st_lift (unwrap (sst_scan r w));
  _ ← st_lift (assert_eq (len all) (len rs));
  let keys := all.*1 in
  st_lift (assert_eq keys (merge_sort bytes_le keys))) mem_new.

Definition sst_reader_tests : list test := [
  Test "open_then_get_single_record" (run (
    _ ← build_table "sst" [record (lit "k") (lit "v") 1 OpPut];
    r ← open_table "sst";
    found ← get_latest r (lit "k");
    hit ← st_lift (expect found);
    st_lift (assert_eq hit {| hit_seqno := 1; hit_op := OpPut; hit_value := lit "v" |})) mem_new);
  Test "get_missing_key_returns_none" (run (
    _ ← build_table "sst" [record (lit "a") (lit "1") 1 OpPut];
    r ← open_table "sst";
    found ← get_latest r (lit "z");
    st_lift (assert_eq found None)) mem_new);
  Test "get_across_many_blocks" (
    get_all_back 512 ((λ i, record (numbered_key i) (lit "value-" ++ padded 5 i) (i + 1) OpPut) <$> upto 256));
  Test "tombstones_round_trip" (run (
    _ ← build_table "sst" [record (lit "alive") (lit "v") 1 OpPut; record (lit "dead") [] 2 OpTombstone];
    r ← open_table "sst";
    alive ← get_latest r (lit "alive");
    alive ← st_lift (expect alive);
    _ ← st_lift (assert_eq (hit_op alive) OpPut);
    dead ← get_latest r (lit "dead");
    dead ← st_lift (expect dead);
    _ ← st_lift (assert_eq (hit_op dead) OpTombstone);
    st_lift (assert_eq (hit_value dead) [])) mem_new);
  Test "scan_returns_records_in_order" (
    scan_in_order 256 ((λ i, record (numbered_key i) (lit "v") (i + 1) OpPut) <$> upto 50))
].

Definition corrupted_footer_is_rejected : outcome () := run (
  _ ← build_table "sst" [record (lit "k") (lit "v") 1 OpPut];
  w ← st_get;
  r ← st_lift (unwrap (open_readonly "sst" w));
  size ← st_lift (unwrap (vf_size r w));
  all ← st_lift (unwrap (vf_read_at r size 0 w));
  wf ← st_unwrap (open_writable "sst_corrupt");
  _ ← st_unwrap (vf_append wf (alter (λ b, Z.lxor b 0xFF) (length all - 1)%nat all));
  w ← st_get;
  err ← st_lift (f ← unwrap (open_readonly "sst_corrupt" w); unwrap_err (sst_open f w));
  st_lift (assert_that (is_corruption err || is_invalid_format err))) mem_new.

(** * Tables of any records *)

Lemma add_records_run rs : ∀ sw w sw' w',
  sst_add_all rs (sw, w) = (Ok tt, (sw', w')) → add_records sw rs w = (Ok sw', w').
Proof.
  induction rs as [|r rs IH]; intros sw w sw' w' E; cbn [sst_add_all add_records] in *; [by injection E as <- <-|].
  unfold mbind, st_bind in E. unfold add_to.
  destruct (sst_add (br_key r) (br_value r) (br_seqno r) (br_op r) (sw, w)) as [[[]| | |] [sw1 w1]] eqn:E1; try done.
  rewrite (run_bind _ _ _ sw1 w1); [by apply IH|]. rewrite (run_bind _ _ _ (tt, sw1) w1); [done|].
  unfold st_unwrap, owning. by rewrite E1.
Qed.

Lemma merge_sort_keys keys : StronglySorted bytes_le keys → merge_sort bytes_le keys = keys.
Proof.
  intros Hs. assert (AntiSymm eq bytes_le) by (intros a b; apply bytes_leb_antisym).
  assert (Transitive bytes_le) by (intros a b c; apply bytes_leb_trans).
  assert (Total bytes_le).
  { intros a b. unfold bytes_le, bytes_leb. rewrite (bytes_cmp_antisym a b). destruct (bytes_cmp a b); auto. }
  apply (StronglySorted_unique bytes_le); [by apply (StronglySorted_merge_sort _)|done|apply merge_sort_Permutation].
Qed.

Section AnyTable.
Context (block_size : Z) (rs : list BlockRecord).
Context (Hsize : 0 ≤ block_size ≤ 2 ^ 29) (Hfits : table_fits 10000 params_default rs) (Hsorted : StronglySorted key_le rs).

Lemma table_with_image :
  ∃ w, table_with block_size rs mem_new = (Ok tt, w) ∧ mv_files w !! "sst" = Some 0 ∧
    table_image None AlgCrc32c rs (contents (F := MemFile) (W := MemVfs) 0 w).
Proof.
  set (w0 := {| mv_files := {[ "sst" := 0 ]}; mv_inodes := {[ 0 := [] ]}; mv_next := 1 |}).
  assert (open_writable "sst" mem_new = (Ok 0, w0)) as E0 by done.
  pose proof (wp_create_inner (F := MemFile) (W := MemVfs) None 0 AlgCrc32c 10000 params_default rs w0 eq_refl Hfits) as Hc.
  pose proof (create_inner_only (F := MemFile) (W := MemVfs) 0 AlgCrc32c 10000 params_default None w0) as Hn0.
  unfold wp in Hc. destruct (create_inner 0 AlgCrc32c 10000 params_default None w0) as [[sw|e| |] w1] eqn:E1; try done.
  destruct Hfits as (Hrs & Hks & _). pose proof (keys_size_length rs) as Hl.
  set (sw1 := set_block_size block_size sw).
  assert (sst_inv None 0 AlgCrc32c (sw_block_size sw1) [] [] (sw1, w1)) as Hinv.
  { destruct Hc as [H1 H2 H3 H4 [Hb1 Hb2] H6 H7 H8 H9 H10 H11 H12 H13]. constructor.
    1: by destruct H1; split.
    all: first [exact H2|exact H3|exact H4|by split|exact Hsize|exact H8|exact H9|exact H10|exact H11|exact H12|exact H13|idtac].
    change (sw_data_builder (sw1, w1).1) with (sw_data_builder sw).
    cbn [builder_add_all] in Hb2. injection Hb2 as Hb2. cbn [fst] in Hb2. rewrite <- Hb2. cbn. lia. }
  pose proof (wp_sst_add_all (F := MemFile) (W := MemVfs) None I 0 AlgCrc32c rs [] [] (sw1, w1) Hinv Hrs Hsorted
    ltac:(cbn [length]; lia)) as Ha.
  pose proof (sst_add_all_framed (F := MemFile) (W := MemVfs) rs (sw1, w1)) as [Hf2 Hn1].
  unfold wp in Ha. destruct (sst_add_all rs (sw1, w1)) as [[[]|e| |] [sw2 w2]] eqn:E2; try done.
  destruct Ha as (chunks & cur & Hinv2 & Hcat & Hlen). cbn [length app concat] in *.
  pose proof (wp_sst_finish (F := MemFile) (W := MemVfs) None I 0 AlgCrc32c chunks cur (sw2, w2) rs Hinv2 Hcat ltac:(lia) Hks) as Hfin.
  pose proof (sst_finish_framed (F := MemFile) (W := MemVfs) (sw2, w2)) as [_ Hn2].
  unfold wp in Hfin. destruct (sst_finish (sw2, w2)) as [[f|e| |] [sw3 w3]] eqn:E3; try done.
  destruct Hfin as [-> Himg]. exists w3. split; [|split; [|exact Himg]].
  - unfold table_with, create_table, finish_table. rewrite (run_bind _ _ _ sw w1).
    2: { rewrite (run_bind _ _ _ 0 w0) by (unfold st_unwrap; by rewrite E0). unfold st_unwrap, sst_create, create_with_filter_capacity.
         by rewrite E1. }
    fold sw1. rewrite (run_bind _ _ _ _ _ (add_records_run _ _ _ _ _ E2)).
    rewrite (run_bind _ _ _ (0, sw3) w3); [done|]. unfold st_unwrap, owning. by rewrite E3.
  - pose proof (ow_named _ _ _ Hn2 "sst") as H2. pose proof (ow_named _ _ _ Hn1 "sst") as H1.
    pose proof (ow_named _ _ _ Hn0 "sst") as H0. cbn in H0, H1, H2. by rewrite H2, H1, H0.
Qed.
(** The table opens for its reader. *)
Lemma table_opens :
  ∃ w r chunks entries, table_with block_size rs mem_new = (Ok tt, w) ∧
    open_table "sst" w = (Ok r, w) ∧ reader_of r w rs chunks entries.
Proof.
  destruct table_with_image as (w & E & Hname & Himg). destruct Hfits as (Hrs & Hks & _).
  destruct (open_image (F := MemFile) (W := MemVfs) 0 w None AlgCrc32c rs Himg Hrs Hks) as (r & chunks & entries & Eo & Hr & _).
  exists w, r, chunks, entries. split; [done|split; [|done]].
  unfold open_table. assert (open_readonly "sst" w = Ok 0) as -> by (cbn; unfold mem_open_readonly; by rewrite Hname).
  cbn [mbind outcome_bind unwrap]. unfold sst_open. cbn [decrypts] in Eo. by rewrite Eo.
Qed.

Lemma get_each_finds w chunks entries (Hnd : NoDup (br_key <$> rs)) xs : ∀ r,
  reader_of r w rs chunks entries → Forall (λ x, x ∈ rs ∧ br_seqno x ≤ U64_MAX) xs →
  ∃ r', get_each xs w r = (Ok tt, r').
Proof.
  unfold get_each. induction xs as [|x xs IH]; intros r Hr Hxs; cbn [st_each]; [by exists r|].
  apply Forall_cons in Hxs as [[Hx Hv] Hxs].
  pose proof (get_finds r w rs chunks entries Hr Hsorted Hnd true x U64_MAX Hx Hv) as Eg.
  pose proof (sst_get_reader true (br_key x) U64_MAX w r) as Hsame.
  destruct (sst_get true (br_key x) U64_MAX w r) as [g r1] eqn:E. cbn [fst snd] in *. subst g.
  assert (reader_of r1 w rs chunks entries) as Hr1 by (destruct Hsame as [-> | ->]; [done|by destruct Hr; split]).
  destruct (IH r1 Hr1 Hxs) as [r' E']. exists r'. rewrite (run_bind _ _ _ tt r1); [done|].
  rewrite (run_bind _ _ _ (Some (into_hit x)) r1) by (unfold st_unwrap; by rewrite E).
  rewrite (run_lift _ _ _ (into_hit x)) by done. unfold st_lift. by rewrite (assert_eq_refl (br_value x)).
Qed.

(** A key of a table with one version per key is found there. *)
Theorem get_all_back_holds : NoDup (br_key <$> rs) → get_all_back block_size rs = Ok tt.
Proof.
  intros Hnd. destruct table_opens as (w & r & chunks & entries & E1 & E2 & Hr).
  destruct (get_each_finds w chunks entries Hnd rs r Hr) as [r' E3].
  { apply Forall_forall. intros x Hx. split; [done|]. destruct Hfits as (Hrs & _).
    rewrite Forall_forall in Hrs. specialize (Hrs x Hx). unfold record_small, is_u64, U64_MAX in *. lia. }
  unfold get_all_back, run. rewrite (run_bind _ _ _ _ _ E1), (run_bind _ _ _ _ _ E2), run_get.
  unfold st_lift, run. by rewrite E3.
Qed.

(** A scan yields the table, in the order of its keys. *)
Theorem scan_in_order_holds : scan_in_order block_size rs = Ok tt.
Proof.
  destruct table_opens as (w & r & chunks & entries & E1 & E2 & Hr).
  unfold scan_in_order, run. rewrite (run_bind _ _ _ _ _ E1), (run_bind _ _ _ _ _ E2), run_get.
  rewrite (run_lift _ _ _ (entry_of <$> rs)) by (by rewrite (scan_all_records r w rs chunks entries Hr)).
  rewrite (run_lift _ _ _ tt) by (rewrite length_fmap; apply assert_eq_refl).
  unfold st_lift. rewrite merge_sort_keys; [by rewrite assert_eq_refl|].
  rewrite <- list_fmap_compose. by apply sorted_keys.
Qed.
End AnyTable.

Lemma block_tests_pass : all_pass block_tests = true.
Proof. evaluate. Qed.

Lemma block_seek_tests_pass : all_pass block_seek_tests = true.
Proof. evaluate. Qed.

Lemma sst_format_tests_pass : all_pass sst_format_tests = true.
Proof. evaluate. Qed.

(** A check of the conditions above, with keys that increase. *)
Definition table_check (rs : list BlockRecord) : bool :=
  forallb (λ r, (len (br_key r) + len (br_value r) <=? 2 ^ 30) && (0 <=? br_seqno r) && (br_seqno r <=? 2 ^ 63)) rs &&
  (keys_size rs <? 2 ^ 30) && increasing (br_key <$> rs).

Lemma table_check_ok rs :
  table_check rs = true →
  table_fits 10000 params_default rs ∧ StronglySorted key_le rs ∧ NoDup (br_key <$> rs).
Proof.
  unfold table_check. rewrite !andb_true_iff. intros [[Hrs Hks%Z.ltb_lt] Hi%increasing_sorted].
  split; [split; [|by repeat split; cbn; try lia]|split; [|by apply sorted_lt_nodup]].
  - apply Forall_forall. intros x Hx. rewrite forallb_forall in Hrs. specialize (Hrs x (proj1 (list_elem_of_In _ _) Hx)).
    unfold record_small, is_u64. lia.
  - apply sorted_keys. induction Hi as [|a keys Hk IH Hall]; constructor; [done|].
    apply (Forall_impl _ _ _ Hall). intros b Hb. unfold bytes_leb. by rewrite Hb.
Qed.

Lemma table_with_runs block_size rs :
  0 ≤ block_size ≤ 2 ^ 29 → table_check rs = true → run (table_with block_size rs) mem_new = Ok tt.
Proof.
  intros Hb (Hf & Hs & _)%table_check_ok. destruct (table_with_image block_size rs Hb Hf Hs) as (w & E & _).
  unfold run. by rewrite E.
Qed.

Lemma sst_writer_tests_pass : all_pass sst_writer_tests = true.
Proof.
  each_test.
  3: apply table_with_runs; [lia|lazy; reflexivity].
  all: evaluate.
Qed.

Lemma sst_reader_tests_pass : all_pass sst_reader_tests = true.
Proof.
  each_test.
  3: { assert (table_check ((λ i, record (numbered_key i) (lit "value-" ++ padded 5 i) (i + 1) OpPut) <$> upto 256) = true)
         as (Hf & Hs & Hn)%table_check_ok by (lazy; reflexivity). by apply get_all_back_holds. }
  4: { assert (table_check ((λ i, record (numbered_key i) (lit "v") (i + 1) OpPut) <$> upto 50) = true)
         as (Hf & Hs & Hn)%table_check_ok by (lazy; reflexivity). by apply scan_in_order_holds. }
  all: evaluate.
Qed.

Lemma corrupted_footer_passes : corrupted_footer_is_rejected = Ok tt.
Proof. evaluate. Qed.
