(* ===== verification/UnitMerge.v ===== *)
(** The tests of the merge and of compaction: those in [compaction/], on lists
    of records and on [MemVfs] with the bitwise CRC32C.

    Left out is [large_compaction_preserves_ordering_and_count], whose claim
    [compact_preserves_records] makes for every set of tables. *)

From S2P Require Import Prelude TestKit Checksum Vfs Bloom SstFormat Block Crypto SstWriter SstReader.
From S2P Require Import InternalKey Merger Compact UnitCodec UnitTable.

(** * [compaction/merger.rs] *)

Definition list_stream := list (outcome (bytes * LookupHit)).

Definition stream (records : list (bytes * Z * bytes)) : list_stream :=
  (λ '(k, s, v), Ok (k, {| hit_seqno := s; hit_op := OpPut; hit_value := v |})) <$> records.

(** [m.map(|r| r.unwrap()).collect()]; the merge ends within [fuel] records. *)
Definition collect_merged (fuel : nat) (m : KWayMerge list_stream) : outcome (list (bytes * LookupHit)) :=
  unwrap (run (merge_collect fuel tt) m).

Definition collect_keys (m : KWayMerge list_stream) : outcome (list (bytes * Z)) :=
  recs ← collect_merged 10 m;
  Ok ((λ '(k, h), (k, hit_seqno h)) <$> (recs : list (bytes * LookupHit))).

(** The check on every consecutive pair. *)
Definition pair_ordered (k1 : bytes) (s1 : Z) (k2 : bytes) (s2 : Z) : outcome () :=
  match bytes_cmp k1 k2 with
  | Lt => Ok tt
  | Eq => assert_that (s2 <=? s1)
  | Gt => Panic
  end.

Fixpoint windows_ordered (recs : list (bytes * LookupHit)) : outcome () :=
  match recs with
  | (k1, h1) :: ((k2, h2) :: _) as rest =>
      _ ← pair_ordered k1 (hit_seqno h1) k2 (hit_seqno h2);
      windows_ordered rest
  | _ => Ok tt
  end.

Definition shard_stream (shard : Z) : list_stream :=
  stream ((λ i, (lit "k-" ++ padded 4 i, shard * 1000 + i, lit "s" ++ padded 0 shard ++ lit "-i" ++ padded 0 i)) <$> upto 250).

Definition next_of (m : KWayMerge list_stream) : outcome (option (bytes * LookupHit) * KWayMerge list_stream) :=
  let (r, m) := merge_next_record tt m in
  rec ← unwrap r;
  Ok (rec, m).

Definition merger_tests : list test := [
  Test "empty_merger_yields_nothing" (
    '(rec, _) ← next_of (merge_new []);
    assert_that (match rec with None => true | Some _ => false end));
  Test "single_input_passes_through" (
    let s := stream [(lit "a", 1, lit "1"); (lit "b", 2, lit "2"); (lit "c", 3, lit "3")] in
    keys ← collect_keys (merge_new [s]);
    assert_eq keys [(lit "a", 1); (lit "b", 2); (lit "c", 3)]);
  Test "two_disjoint_inputs_interleave_by_key" (
    let s1 := stream [(lit "a", 1, []); (lit "c", 3, [])] in
    let s2 := stream [(lit "b", 2, []); (lit "d", 4, [])] in
    keys ← collect_keys (merge_new [s1; s2]);
    assert_eq keys.*1 [lit "a"; lit "b"; lit "c"; lit "d"]);
  Test "same_key_different_seqnos_emerge_newest_first" (
    let s_new := stream [(lit "X", 100, lit "new")] in
    let s_old := stream [(lit "X", 50, lit "old")] in
    keys ← collect_keys (merge_new [s_new; s_old]);
    assert_eq keys.*2 [100; 50]);
  Test "same_key_same_seqno_resolves_toward_lower_source_index" (
    let s_new := stream [(lit "X", 7, lit "new")] in
    let s_old := stream [(lit "X", 7, lit "old")] in
    '(first, m) ← next_of (merge_new [s_new; s_old]);
    '(_, first) ← expect first;
    _ ← assert_eq (hit_value first) (lit "new");
    '(second, m) ← next_of m;
    '(_, second) ← expect second;
    _ ← assert_eq (hit_value second) (lit "old");
    '(third, _) ← next_of m;
    assert_that (match third with None => true | Some _ => false end));
  Test "large_interleaved_workload_emerges_globally_sorted" (
    merged ← collect_merged 1001 (merge_new (shard_stream <$> upto 4));
    _ ← assert_eq (len merged) 1000;
    windows_ordered merged)
].

(** * [compaction/compact.rs] *)

(** [compact_sstables] of the tables at the paths, newest first. *)
Definition compact_paths (paths : list string) (out : string) : st MemVfs (CompactionOutput MemFile) :=
  w ← st_get;
  readers ← st_lift (mapM (λ path, run (open_table path) w) paths);
  st_unwrap (compact_sstables 100 readers out compaction_config_default).

Definition read_all (r : SstReader MemFile) : st MemVfs (list (bytes * Z * RecordOp * bytes)) := λ w,
  (recs ← unwrap (sst_scan r w);
   Ok ((λ '(k, h), (k, hit_seqno h, hit_op h, hit_value h)) <$> (recs : list (bytes * LookupHit))), w).

(** Two tables with a version of the same key each. *)
Definition two_versions : st MemVfs () :=
  _ ← build_table "new.sst" [record (lit "k") (lit "new") 100 OpPut];
  build_table "old.sst" [record (lit "k") (lit "old") 50 OpPut].

Definition compact_tests : list test := [
  Test "compacts_two_disjoint_tables_into_one" (run (
    _ ← build_table "a.sst" [record (lit "alpha") (lit "1") 1 OpPut; record (lit "bravo") (lit "2") 2 OpPut];
    _ ← build_table "b.sst" [record (lit "charlie") (lit "3") 3 OpPut; record (lit "delta") (lit "4") 4 OpPut];
    out ← compact_paths ["b.sst"; "a.sst"] "merged.sst";
    _ ← st_lift (assert_eq (co_records_emitted out) 4);
    records ← read_all (co_reader out);
    st_lift (assert_eq ((λ r, r.1.1.1) <$> (records : list (bytes * Z * RecordOp * bytes)))
      [lit "alpha"; lit "bravo"; lit "charlie"; lit "delta"])) mem_new);
  Test "duplicate_keys_appear_in_newest_first_order" (run (
    _ ← two_versions;
    out ← compact_paths ["new.sst"; "old.sst"] "merged.sst";
    _ ← st_lift (assert_eq (co_records_emitted out) 2);
    records ← read_all (co_reader out);
    st_lift (match records with
      | r0 :: r1 :: _ =>
          _ ← assert_eq (r0.1.1.2, r0.2) (100, lit "new");
          assert_eq (r1.1.1.2, r1.2) (50, lit "old")
      | _ => Panic
      end)) mem_new);
  Test "point_lookup_via_merged_reader_finds_newest_version" (run (
    _ ← two_versions;
    out ← compact_paths ["new.sst"; "old.sst"] "m.sst";
    found ← get_latest (co_reader out) (lit "k");
    hit ← st_lift (expect found);
    _ ← st_lift (assert_eq (hit_value hit) (lit "new"));
    st_lift (assert_eq (hit_seqno hit) 100)) mem_new)
].

(** * The tests pass *)

Lemma merger_tests_pass : all_pass merger_tests = true.
Proof. evaluate. Qed.

Lemma compact_tests_pass : all_pass compact_tests = true.
Proof. evaluate. Qed.
