(* ===== verification/UnitMemtable.v ===== *)
(** The tests of the memtable: those in [memtable/arena.rs], on the arena of
    [RawMem], and those in [memtable/skiplist.rs].

    Left out is [multi_threaded_reads_during_single_writer_inserts], which
    needs threads; [skiplist_insert_publishes] states what its readers see. *)

From S2P Require Import Prelude Vfs VfsLaws FileNames TestKit InternalKey Arena RawMem SkipList.

(** * [memtable/arena.rs] *)

Section ArenaTests.
(** Where the global allocator puts each block. *)
Context (base : Z → Z).

(** [p.as_ptr() as usize]. *)
Definition addr (p : Ptr) : Z := base (p_slab p) + p_offset p.

Definition fresh_arena : RawArena * Mem := (raw_new, mem_empty).

Definition used_is (P : Z → bool) : st (RawArena * Mem) () :=
  '(a, _) ← st_get;
  st_lift (assert_that (P (bytes_used a))).

Definition reserved_is (P : Z → bool) : st (RawArena * Mem) () :=
  '(a, _) ← st_get;
  st_lift (assert_that (P (bytes_reserved a))).

Definition arena_tests : list test := [
  Test "empty_arena_holds_nothing" (run (
    _ ← used_is (Z.eqb 0);
    reserved_is (Z.eqb 0)) fresh_arena);
  Test "single_allocation_returns_aligned_pointer" (run (
    p ← raw_allocate 13 8;
    _ ← st_lift (assert_eq (addr p mod 8) 0);
    used_is (Z.leb 13)) fresh_arena);
  Test "allocations_do_not_overlap" (run (
    p1 ← raw_allocate 100 1;
    p2 ← raw_allocate 100 1;
    p3 ← raw_allocate 100 1;
    _ ← st_lift (assert_that (addr p1 + 100 <=? addr p2));
    st_lift (assert_that (addr p2 + 100 <=? addr p3))) fresh_arena);
  Test "copy_bytes_round_trips" (run (
    let src := lit "hello arena, this is a test payload!" in
    p ← copy_bytes src;
    '(_, m) ← st_get;
    st_lift (view ← read_bytes p (len src) m; assert_eq view src)) fresh_arena);
  Test "growth_handles_allocations_larger_than_initial_slab" (run (
    let big := INITIAL_SLAB_SIZE * 4 in
    p ← raw_allocate big 8;
    _ ← st_lift (assert_eq (addr p mod 8) 0);
    reserved_is (Z.leb big)) fresh_arena);
  Test "many_small_allocations_grow_arena" (run (
    _ ← st_each (upto (Z.to_nat 10000)) (λ _, _ ← raw_allocate 64 8; mret tt);
    reserved_is (Z.ltb INITIAL_SLAB_SIZE)) fresh_arena);
  Test "alignment_request_is_respected_after_unaligned_allocation" (run (
    _ ← raw_allocate 1 1;
    p ← raw_allocate 8 8;
    st_lift (assert_eq (addr p mod 8) 0)) fresh_arena);
  Test "non_power_of_two_alignment_panics" (should_panic (run (raw_allocate 8 3) fresh_arena))
].
End ArenaTests.

(** * [memtable/skiplist.rs] *)

(** A test of one fresh list. *)
Definition with_list (body : st SkipList ()) : outcome () :=
  s ← skiplist_new;
  run body s.

Definition insert (key value : bytes) (seqno : Z) (op : OpType) : st SkipList () :=
  _ ← skiplist_insert key value seqno op;
  mret tt.

Definition lookup_at (key : bytes) (snapshot : Z) : st SkipList (option MemEntry) := λ s,
  (skiplist_get s key snapshot, s).

(** [s.get(key, snapshot).unwrap()]. *)
Definition found_at (key : bytes) (snapshot : Z) : st SkipList MemEntry :=
  found ← lookup_at key snapshot;
  st_lift (expect found).

(** [s.iter().map(|n| n.key().to_vec()).collect()]. *)
Definition keys_of : st SkipList (list bytes) := λ s,
  (nodes ← skiplist_entries s; Ok (me_key <$> (nodes : list MemEntry)), s).

Definition is_none {A} (o : option A) : bool := match o with None => true | Some _ => false end.

Definition skiplist_tests : list test := [
  Test "empty_skip_list_returns_none" (with_list (
    s ← st_get;
    _ ← st_lift (assert_that (skiplist_is_empty s));
    _ ← st_lift (assert_eq (skiplist_len s) 0);
    found ← lookup_at (lit "any") U64_MAX;
    st_lift (assert_that (is_none found))));
  Test "single_insert_then_get" (with_list (
    _ ← insert (lit "foo") (lit "bar") 1 NodePut;
    n ← found_at (lit "foo") U64_MAX;
    _ ← st_lift (assert_eq (me_key n) (lit "foo"));
    _ ← st_lift (assert_eq (me_value n) (lit "bar"));
    _ ← st_lift (assert_eq (me_seqno n) 1);
    st_lift (assert_eq (me_op n) NodePut)));
  Test "ordered_inserts_round_trip" (with_list (
    _ ← st_each (zip (upto 3) [lit "alpha"; lit "bravo"; lit "charlie"]) (λ '(i, key), insert key key (i + 1) NodePut);
    keys ← keys_of;
    st_lift (assert_eq keys [lit "alpha"; lit "bravo"; lit "charlie"])));
  Test "reverse_order_inserts_still_iterate_sorted" (with_list (
    _ ← insert (lit "c") (lit "3") 1 NodePut;
    _ ← insert (lit "a") (lit "1") 2 NodePut;
    _ ← insert (lit "b") (lit "2") 3 NodePut;
    keys ← keys_of;
    st_lift (assert_eq keys [lit "a"; lit "b"; lit "c"])));
  Test "newer_seqno_shadows_older" (with_list (
    _ ← insert (lit "k") (lit "old") 1 NodePut;
    _ ← insert (lit "k") (lit "new") 5 NodePut;
    n ← found_at (lit "k") U64_MAX;
    _ ← st_lift (assert_eq (me_value n) (lit "new"));
    st_lift (assert_eq (me_seqno n) 5)));
  Test "snapshot_isolation_hides_future_writes" (with_list (
    _ ← insert (lit "k") (lit "v1") 10 NodePut;
    _ ← insert (lit "k") (lit "v2") 20 NodePut;
    n ← found_at (lit "k") 15;
    st_lift (assert_eq (me_value n) (lit "v1"))));
  Test "snapshot_before_any_write_returns_none" (with_list (
    _ ← insert (lit "k") (lit "v") 100 NodePut;
    found ← lookup_at (lit "k") 99;
    st_lift (assert_that (is_none found))));
  Test "tombstone_recorded_with_zero_value_len" (with_list (
    _ ← insert (lit "k") (lit "discarded") 1 NodeTombstone;
    n ← found_at (lit "k") U64_MAX;
    _ ← st_lift (assert_eq (me_op n) NodeTombstone);
    _ ← st_lift (assert_eq (me_value n) []);
    st_lift (assert_eq (me_key n) (lit "k"))))
].

(** [(seqno, key, value)] for the inserts of a loop, from the given number on. *)
Fixpoint number (seqno : Z) (kvs : list (bytes * bytes)) : list InsertArgs :=
  match kvs with
  | [] => []
  | (k, v) :: kvs => {| ia_key := k; ia_value := v; ia_seqno := seqno; ia_op := NodePut |} :: number (seqno + 1) kvs
  end.

Definition insert_each (ops : list InsertArgs) : st SkipList () :=
  st_each ops (λ o, insert (ia_key o) (ia_value o) (ia_seqno o) (ia_op o)).

(** The [BTreeMap]; the test only looks its entries up. *)
Definition reference (ops : list InsertArgs) : gmap bytes (bytes * Z) :=
  foldl (λ m o, <[ia_key o := (ia_value o, ia_seqno o)]> m) ∅ ops.

Definition matches_btree_map (kvs : list (bytes * bytes)) : outcome () := with_list (
  let ops := number 1 kvs in
  _ ← insert_each ops;
  st_each (map_to_list (reference ops)) (λ '(key, (value, expected_seqno)),
    n ← found_at key U64_MAX;
    _ ← st_lift (assert_eq (me_value n) value);
    st_lift (assert_eq (me_seqno n) expected_seqno))).

(** The keys and values of the test: a linear congruential generator. *)
Fixpoint lcg_kvs (n : nat) (rng : Z) : list (bytes * bytes) :=
  match n with
  | O => []
  | S n =>
      let rng := u32 (u32 (rng * 1103515245) + 12345) in
      (padded 0 (rng mod 256), padded 0 (rng / 256)) :: lcg_kvs n rng
  end.

Definition matches_btree_map_on_random_inserts : outcome () :=
  matches_btree_map (lcg_kvs 2000 0x00C0FFEE).

(** [k >= p] for every key and the one before it. *)
Fixpoint each_not_below (prev : option bytes) (keys : list bytes) : outcome () :=
  match keys with
  | [] => Ok tt
  | k :: keys =>
      _ ← match prev with Some p => assert_that (bytes_leb p k) | None => Ok tt end;
      each_not_below (Some k) keys
  end.

Definition iter_in_order (inputs : list bytes) : outcome () := with_list (
  _ ← insert_each (number 1 ((λ k, (k, lit "v")) <$> inputs));
  keys ← keys_of;
  _ ← st_lift (each_not_below None keys);
  st_lift (assert_eq (size (list_to_set keys : gset bytes)) (length inputs))).

Definition iter_visits_every_key_in_order : outcome () := iter_in_order (numbered_key <$> upto 500).

(** * Lists of any insertions *)

Lemma insert_each_run ops sl : insert_each ops sl = insert_run ops sl.
Proof.
  unfold insert_each. revert sl. induction ops as [|o ops IH]; intros sl; cbn [st_each insert_run]; [done|].
  unfold insert, mbind, st_bind, mret, st_ret.
  destruct (skiplist_insert (ia_key o) (ia_value o) (ia_seqno o) (ia_op o) sl) as [[p| | |] sl1]; done || apply IH.
Qed.

(** What the list shows after the insertions. *)
Lemma insert_each_ok ops :
  Forall (λ o, insert_fits (ia_key o) (ia_value o)) ops →
  ∃ sl0 sl, skiplist_new = Ok sl0 ∧ insert_each ops sl0 = (Ok tt, sl) ∧
    skiplist_entries sl = Ok (mem_insert_run ops []) ∧ StronglySorted entry_le (mem_insert_run ops []) ∧
    ∀ key snapshot, skiplist_get sl key snapshot = Ok (mem_get (mem_insert_run ops []) key snapshot).
Proof.
  intros Hops. destruct skiplist_new_ok as (sl0 & Hnew & Hrep0).
  destruct (insert_run_ok ops sl0 [] [] Hops Hrep0) as (sl & ps & Hrun & Hrep).
  exists sl0, sl. rewrite insert_each_run. split_and!; [done|done| |apply (sr_shape _ _ _ Hrep)|].
  - eapply skiplist_entries_spec, Hrep.
  - intros key snapshot. eapply skiplist_get_spec, Hrep.
Qed.

(** A newer version of its key is what a lookup finds. *)
Lemma mem_get_insert e l k snapshot :
  (∀ x, x ∈ l → me_key x = me_key e → me_seqno x < me_seqno e) → me_seqno e ≤ snapshot →
  mem_get (mem_insert e l) k snapshot = if bytes_eqb (me_key e) k then Some e else mem_get l k snapshot.
Proof.
  intros Hnew Hs. unfold mem_get. induction l as [|x l IH]; cbn [mem_insert List.find].
  { unfold mem_visible. rewrite (proj2 (Z.leb_le _ _) Hs), andb_true_r. by destruct (bytes_eqb _ _). }
  destruct (entry_before (me_key e) (me_seqno e) x) eqn:Eb; cbn [List.find].
  - rewrite IH by (intros y Hy; apply Hnew; by right). destruct (bytes_eqb (me_key e) k) eqn:Ek; [|done].
    apply bytes_eqb_eq in Ek as <-. destruct (mem_visible _ _ x) eqn:Ev; [|done].
    apply andb_true_iff in Ev as [Ek%bytes_eqb_eq _]. specialize (Hnew x ltac:(by left) Ek).
    unfold entry_before, compare_internal_key in Eb. rewrite Ek, bytes_cmp_refl in Eb.
    destruct (Z.compare_spec (me_seqno e) (me_seqno x)); done || lia.
  - unfold mem_visible at 1. rewrite (proj2 (Z.leb_le _ _) Hs), andb_true_r. by destruct (bytes_eqb _ _).
Qed.

Definition newest (m : gmap bytes (bytes * Z)) (key : bytes) : option MemEntry :=
  (λ '(v, s), {| me_key := key; me_value := v; me_seqno := s; me_op := NodePut |}) <$> m !! key.

(** The reference map and the sorted list agree. *)
Lemma number_newest kvs : ∀ s l m,
  (∀ x, x ∈ l → me_seqno x < s) → (∀ key, mem_get l key U64_MAX = newest m key) → s + len kvs ≤ 2 ^ 64 →
  ∀ key, mem_get (mem_insert_run (number s kvs) l) key U64_MAX =
    newest (foldl (λ m o, <[ia_key o := (ia_value o, ia_seqno o)]> m) m (number s kvs)) key.
Proof.
  induction kvs as [|[k v] kvs IH]; intros s l m Hl Hm Hs key; cbn [number mem_insert_run foldl]; [apply Hm|].
  cbn [length] in Hs. apply IH; [| |lia].
  - intros x [->|Hx]%mem_insert_elem; [cbn; lia|]. specialize (Hl x Hx). lia.
  - intros key'. rewrite mem_get_insert by (cbn; unfold U64_MAX; first [lia|intros x Hx _; by apply Hl]).
    cbn [insert_entry entry_for me_key ia_key ia_value ia_seqno ia_op]. unfold newest.
    destruct (bytes_eqb k key') eqn:Ek.
    + apply bytes_eqb_eq in Ek as ->. by rewrite lookup_insert_eq.
    + rewrite lookup_insert_ne; [apply Hm|]. intros ->. by rewrite (proj2 (bytes_eqb_eq _ _)) in Ek.
Qed.

Lemma number_fits s kvs :
  Forall (λ kv, insert_fits kv.1 kv.2) kvs → Forall (λ o, insert_fits (ia_key o) (ia_value o)) (number s kvs).
Proof.
  intros H. revert s. induction H as [|[k v] kvs Hkv _ IH]; intros s; cbn [number]; constructor; [done|apply IH].
Qed.

Lemma st_each_ok {S A} (l : list A) (body : A → st S ()) s :
  (∀ x, x ∈ l → body x s = (Ok tt, s)) → st_each l body s = (Ok tt, s).
Proof.
  induction l as [|x l IH]; intros H; cbn [st_each]; [done|].
  rewrite (run_bind _ _ _ tt s) by (apply H; by left). apply IH. intros y Hy. apply H. by right.
Qed.

(** The list agrees with a map on any inserts. *)
Theorem matches_btree_map_holds kvs :
  Forall (λ kv, insert_fits kv.1 kv.2) kvs → len kvs < 2 ^ 64 → matches_btree_map kvs = Ok tt.
Proof.
  intros Hfit Hlen. destruct (insert_each_ok (number 1 kvs) (number_fits _ _ Hfit)) as (sl0 & sl & E0 & E1 & _ & _ & Hget).
  unfold matches_btree_map, with_list. rewrite E0. cbn [mbind outcome_bind]. unfold run.
  rewrite (run_bind _ _ _ _ _ E1). rewrite st_each_ok; [done|]. intros [key [v s]] Hk%elem_of_map_to_list.
  pose proof (number_newest kvs 1 [] ∅ ltac:(by intros x ?%not_elem_of_nil) ltac:(done) ltac:(lia) key) as Hn.
  unfold newest in Hn. unfold reference in Hk. rewrite Hk in Hn. cbn [fmap option_fmap option_map] in Hn.
  rewrite (run_bind _ _ _ {| me_key := key; me_value := v; me_seqno := s; me_op := NodePut |} sl).
  2: { unfold found_at, lookup_at, mbind, st_bind. rewrite Hget, Hn. done. }
  cbn [me_value me_seqno]. rewrite (run_lift _ _ _ tt) by apply assert_eq_refl. unfold st_lift. by rewrite assert_eq_refl.
Qed.

Lemma number_keys kvs : ∀ s l, me_key <$> mem_insert_run (number s kvs) l ≡ₚ kvs.*1 ++ (me_key <$> l).
Proof.
  induction kvs as [|[k v] kvs IH]; intros s l; cbn [number mem_insert_run foldl]; [done|].
  etrans; [apply IH|]. rewrite mem_insert_perm, !fmap_cons. cbn [fst]. symmetry. apply Permutation_middle.
Qed.

Lemma each_not_below_ok keys : ∀ prev,
  StronglySorted (λ a b, bytes_leb a b = true) (option_list prev ++ keys) → each_not_below prev keys = Ok tt.
Proof.
  induction keys as [|k keys IH]; intros prev Hs; cbn [each_not_below]; [done|]. destruct prev as [p|]; cbn in Hs.
  - inversion Hs as [|? ? Hk Hall]; subst. inversion Hall as [|? ? Hp _]; subst. rewrite Hp. by apply (IH (Some k)).
  - by apply (IH (Some k)).
Qed.

Lemma entry_le_keys l : StronglySorted entry_le l → StronglySorted (λ a b, bytes_leb a b = true) (me_key <$> l).
Proof.
  induction 1 as [|x l _ IH Hall]; [constructor|]. rewrite fmap_cons. constructor; [done|]. apply Forall_fmap.
  apply (Forall_impl _ _ _ Hall). intros y. unfold entry_le, ikey_le, compare_internal_key, bytes_leb. cbn.
  by destruct (bytes_cmp (me_key x) (me_key y)).
Qed.

(** Iteration yields every key, in order. *)
Theorem iter_in_order_holds inputs :
  NoDup inputs → Forall (λ k, is_u32 (len k)) inputs → iter_in_order inputs = Ok tt.
Proof.
  intros Hnd Hlen. set (kvs := (λ k, (k, lit "v")) <$> inputs). assert (kvs.*1 = inputs) as Hkeys.
  { unfold kvs. rewrite <-list_fmap_compose. apply list_fmap_id. }
  destruct (insert_each_ok (number 1 kvs)) as (sl0 & sl & E0 & E1 & E2 & Hsort & _).
  { apply number_fits, Forall_fmap. apply (Forall_impl _ _ _ Hlen). intros k Hk. by split. }
  unfold iter_in_order, with_list. fold kvs. rewrite E0. cbn [mbind outcome_bind]. unfold run.
  rewrite (run_bind _ _ _ _ _ E1). pose proof (number_keys kvs 1 []) as Hp. rewrite Hkeys, app_nil_r in Hp.
  rewrite (run_bind _ _ _ (me_key <$> mem_insert_run (number 1 kvs) []) sl) by (unfold keys_of; by rewrite E2).
  rewrite (run_lift _ _ _ tt) by (by apply each_not_below_ok, entry_le_keys). unfold st_lift.
  rewrite size_list_to_set by (by rewrite Hp). by rewrite Hp, assert_eq_refl.
Qed.

(** * The tests pass *)

Lemma lcg_fits n rng : Forall (λ kv, insert_fits kv.1 kv.2) (lcg_kvs n rng).
Proof.
  revert rng. induction n as [|n IH]; intros rng; cbn [lcg_kvs]; constructor; [|apply IH].
  unfold insert_fits, is_u32. cbn [fst snd]. set (x := u32 _).
  pose proof (padded_length 0 (x mod 256)). pose proof (padded_length 0 (x / 256)). lia.
Qed.

Lemma length_lcg n rng : length (lcg_kvs n rng) = n.
Proof. revert rng. induction n as [|n IH]; intros rng; cbn [lcg_kvs length]; [done|]. by rewrite IH. Qed.

Lemma random_inserts_pass : matches_btree_map_on_random_inserts = Ok tt.
Proof. apply matches_btree_map_holds; [apply lcg_fits|]. rewrite length_lcg. lia. Qed.

Lemma iter_visits_passes : iter_visits_every_key_in_order = Ok tt.
Proof.
  apply iter_in_order_holds.
  - apply sorted_lt_nodup, increasing_sorted. lazy. reflexivity.
  - apply Forall_fmap, Forall_forall. intros n _. unfold is_u32, numbered_key. cbn [compose].
    pose proof (padded_length 5 n). rewrite length_app. change (length (lit "key-")) with 4%nat. lia.
Qed.

Lemma skiplist_tests_pass : all_pass skiplist_tests = true.
Proof. evaluate. Qed.

(** Running on from a computed result. *)
Lemma run_first {S A B} (m : st S A) (f : A → st S B) s a : (m s).1 = Ok a → (x ← m; f x) s = f a (m s).2.
Proof. intros E. destruct (m s) as [r s'] eqn:Em. cbn in E. subst r. by apply run_bind. Qed.

Lemma aligned_address base p : (∀ b, base b mod 8 = 0) → p_offset p mod 8 = 0 → assert_eq (addr base p mod 8) 0 = Ok tt.
Proof. intros Hb Hp. unfold addr. rewrite Z.add_mod, Hb, Hp by lia. apply assert_eq_refl. Qed.

(** Wherever the allocator puts the slabs, aligned as their layout asks. *)
Theorem arena_tests_pass base : (∀ b, base b mod 8 = 0) → all_pass (arena_tests base) = true.
Proof.
  intros Hb. each_test; unfold run.
  - evaluate.
  - erewrite run_first by evaluate. rewrite (run_lift _ _ _ tt) by (by apply aligned_address). evaluate.
  - do 3 erewrite run_first by evaluate. unfold addr. cbn [p_slab p_offset].
    rewrite (run_lift _ _ _ tt) by (apply assert_true; lia). unfold st_lift. apply assert_true. lia.
  - evaluate.
  - erewrite run_first by evaluate. rewrite (run_lift _ _ _ tt) by (by apply aligned_address). evaluate.
  - evaluate.
  - do 2 erewrite run_first by evaluate. unfold st_lift. by apply aligned_address.
  - evaluate.
Qed.
