(* ===== verification/RangeIter.v ===== *)
(** Range scans: [DbRangeIter], [memtable_source] and [sstable_source] of
    [crates/paddock-core/src/engine.rs].

    A scan merges the memtables' and the tables' records in range, drops what
    its snapshot does not see, and yields the newest version of every key that
    is not a deletion. *)

From S2P Require Import Prelude Varint Checksum Vfs VfsLaws Bloom SstFormat Block Crypto SstWriter.
From S2P Require Import SstReader InternalKey Arena SkipList Merger Versions SstTable.

(** * Data *)

(** [std::ops::Bound<Vec<u8>>]. *)
Inductive Bound := Included (b : bytes) | Excluded (b : bytes) | Unbounded.

Record RangeRecord := { rr_key : bytes; rr_value : bytes; rr_seqno : Z }.

#[global] Instance RangeRecord_eq_dec : EqDecision RangeRecord.
Proof. solve_decision. Defined.

(** [stream.skip_while(..).take_while(..)]: the two flags are the adaptors'. *)
Record SstSource (F : Type) := {
  so_stream : SstStream F;
  so_start : Bound;
  so_end : Bound;
  so_started : bool;
  so_finished : bool
}.
Arguments so_stream {F} _.
Arguments so_start {F} _.
Arguments so_end {F} _.
Arguments so_started {F} _.
Arguments so_finished {F} _.

(** [BoxedRecordStream]: the two iterators that are boxed. *)
Inductive BoxedRecordStream (F : Type) :=
  | MemtableItems (items : list (bytes * LookupHit))
  | SstableItems (src : SstSource F).
Arguments MemtableItems {F} _.
Arguments SstableItems {F} _.

Record DbRangeIter (F : Type) := {
  di_end : Bound;
  di_snapshot : Z;
  di_merger : KWayMerge (BoxedRecordStream F);
  di_last_emitted_key : option bytes
}.
Arguments di_end {F} _.
Arguments di_snapshot {F} _.
Arguments di_merger {F} _.
Arguments di_last_emitted_key {F} _.

(** * Bounds *)

(** The keys before a range's start. *)
Definition before_start (start : Bound) (key : bytes) : bool :=
  match start with
  | Included b => bytes_ltb key b
  | Excluded b => bytes_leb key b
  | Unbounded => false
  end.

(** [end_excludes]. *)
Definition end_excludes (end_ : Bound) (key : bytes) : bool :=
  match end_ with
  | Included e => bytes_ltb e key
  | Excluded e => bytes_leb e key
  | Unbounded => false
  end.

(** The predicate of [take_while]. *)
Definition within_end (end_ : Bound) (key : bytes) : bool :=
  match end_ with
  | Included b => bytes_leb key b
  | Excluded b => bytes_ltb key b
  | Unbounded => true
  end.

(** * Sources *)

Definition mem_record_op (op : OpType) : RecordOp :=
  match op with NodePut => OpPut | NodeTombstone => OpTombstone end.

Definition mem_record (e : MemEntry) : bytes * LookupHit :=
  (me_key e, {| hit_seqno := me_seqno e; hit_op := mem_record_op (me_op e); hit_value := me_value e |}).

(** The loop of [memtable_source], with its [continue]s and [break]s. *)
Fixpoint memtable_items (start end_ : Bound) (nodes : list MemEntry) : list (bytes * LookupHit) :=
  match nodes with
  | [] => []
  | node :: nodes =>
      if before_start start (me_key node) then memtable_items start end_ nodes
      else if end_excludes end_ (me_key node) then []
      else mem_record node :: memtable_items start end_ nodes
  end.

Section Range.
Context `{Crc32c} `{Xxh3} `{AesGcm} {F W : Type} `{VfsFile F W}.

Definition memtable_source (memtable : SkipList) (start end_ : Bound) : outcome (BoxedRecordStream F) :=
  nodes ← skiplist_entries memtable;
  Ok (MemtableItems (memtable_items start end_ nodes)).

Definition sstable_source (stream : SstStream F) (start end_ : Bound) : BoxedRecordStream F :=
  SstableItems {| so_stream := stream; so_start := start; so_end := end_;
                  so_started := false; so_finished := false |}.

Definition so_set (stream : SstStream F) (started finished : bool) (src : SstSource F) : SstSource F :=
  {| so_stream := stream; so_start := so_start src; so_end := so_end src;
     so_started := started; so_finished := finished |}.

(** [SkipWhile::next]: pull until the predicate fails for the first time; an
    error is not skipped.  Every round takes a record off the table. *)
Fixpoint skip_next (fuel : nat) (w : W) : st (SstSource F) (option (bytes * LookupHit)) := λ src,
  match fuel with
  | O => (OutOfFuel, src)
  | S fuel =>
      match stream_next_record w (so_stream src) with
      | (Ok None, s) => (Ok None, so_set s (so_started src) (so_finished src) src)
      | (Ok (Some rec), s) =>
          if so_started src || negb (before_start (so_start src) rec.1)
          then (Ok (Some rec), so_set s true (so_finished src) src)
          else skip_next fuel w (so_set s (so_started src) (so_finished src) src)
      | (Err e, s) => (Err e, so_set s true (so_finished src) src)
      | (Panic, s) => (Panic, so_set s (so_started src) (so_finished src) src)
      | (OutOfFuel, s) => (OutOfFuel, so_set s (so_started src) (so_finished src) src)
      end
  end.

(** [TakeWhile::next] around it; an error is passed on. *)
Definition sstable_next (fuel : nat) (w : W) : st (SstSource F) (option (bytes * LookupHit)) :=
  src ← st_get;
  if so_finished src then mret None
  else
    rec ← skip_next fuel w;
    match rec with
    | None => mret None
    | Some rec =>
        if within_end (so_end src) rec.1 then mret (Some rec)
        else _ ← st_modify (λ src, so_set (so_stream src) (so_started src) true src); mret None
    end.

Definition boxed_next (env : nat * W) : st (BoxedRecordStream F) (option (bytes * LookupHit)) := λ b,
  match b with
  | MemtableItems [] => (Ok None, MemtableItems [])
  | MemtableItems (rec :: items) => (Ok (Some rec), MemtableItems items)
  | SstableItems src => let (r, src) := sstable_next env.1 env.2 src in (r, SstableItems src)
  end.

#[global] Instance boxed_record_stream : RecordStream (BoxedRecordStream F) (nat * W) := boxed_next.

(** * The iterator *)

Fixpoint memtable_sources (memtables : list SkipList) (start end_ : Bound) :
    outcome (list (BoxedRecordStream F)) :=
  match memtables with
  | [] => Ok []
  | m :: ms => s ← memtable_source m start end_; ss ← memtable_sources ms start end_; Ok (s :: ss)
  end.

Fixpoint sstable_sources (readers : list (SstReader F)) (start end_ : Bound) :
    outcome (list (BoxedRecordStream F)) :=
  match readers with
  | [] => Ok []
  | r :: rs =>
      stream ← scan_stream r;
      ss ← sstable_sources rs start end_;
      Ok (sstable_source stream start end_ :: ss)
  end.

(** [DbRangeIter::new], given the memtables (the active one first, then the
    immutable ones) and the tables of the pinned state. *)
Definition range_new (memtables : list SkipList) (readers : list (SstReader F)) (start end_ : Bound)
    (snapshot : Z) : outcome (DbRangeIter F) :=
  mems ← memtable_sources memtables start end_;
  ssts ← sstable_sources readers start end_;
  Ok {| di_end := end_; di_snapshot := snapshot; di_merger := merge_new (mems ++ ssts);
        di_last_emitted_key := None |}.

Definition di_set_merger (m : KWayMerge (BoxedRecordStream F)) (it : DbRangeIter F) : DbRangeIter F :=
  {| di_end := di_end it; di_snapshot := di_snapshot it; di_merger := m;
     di_last_emitted_key := di_last_emitted_key it |}.

Definition di_set_last (key : bytes) (it : DbRangeIter F) : DbRangeIter F :=
  {| di_end := di_end it; di_snapshot := di_snapshot it; di_merger := di_merger it;
     di_last_emitted_key := Some key |}.

Definition merger_next (env : nat * W) : st (DbRangeIter F) (option (bytes * LookupHit)) := λ it,
  let (r, m) := merge_next_record env (di_merger it) in (r, di_set_merger m it).

(** [Iterator::next]. *)
Fixpoint range_next (fuel : nat) (env : nat * W) : st (DbRangeIter F) (option RangeRecord) :=
  match fuel with
  | O => st_lift OutOfFuel
  | S fuel =>
      merged ← merger_next env;
      it ← st_get;
      match merged with
      | None => mret None
      | Some (key, hit) =>
          if end_excludes (di_end it) key then mret None
          else if di_snapshot it <? hit_seqno hit then range_next fuel env
          else if bool_decide (di_last_emitted_key it = Some key) then range_next fuel env
          else
            _ ← st_modify (di_set_last key);
            match hit_op hit with
            | OpTombstone => range_next fuel env
            | OpPut =>
                mret (Some {| rr_key := key; rr_value := hit_value hit; rr_seqno := hit_seqno hit |})
            end
      end
  end.

(** [collect_records]. *)
Fixpoint collect_records (fuel : nat) (env : nat * W) (next_fuel : nat) :
    st (DbRangeIter F) (list RangeRecord) :=
  match fuel with
  | O => st_lift OutOfFuel
  | S fuel =>
      rec ← range_next next_fuel env;
      match rec with
      | None => mret []
      | Some rec => rest ← collect_records fuel env next_fuel; mret (rec :: rest)
      end
  end.
End Range.

(** * Ranges of sorted records *)

Definition in_range (start end_ : Bound) (key : bytes) : bool :=
  negb (before_start start key) && negb (end_excludes end_ key).

Lemma bytes_ltb_leb a b : bytes_ltb a b = negb (bytes_leb b a).
Proof. unfold bytes_ltb, bytes_leb. rewrite (bytes_cmp_antisym a b). by destruct (bytes_cmp a b). Qed.

Lemma before_start_down start k k' :
  bytes_leb k k' = true → before_start start k' = true → before_start start k = true.
Proof.
  intros Hk. destruct start as [b|b|]; cbn; try done; [|by apply bytes_leb_trans].
  rewrite !bytes_ltb_leb. destruct (bytes_leb b k) eqn:E; [|done].
  by rewrite (bytes_leb_trans _ _ _ E Hk).
Qed.

Lemma end_excludes_up end_ k k' :
  bytes_leb k k' = true → end_excludes end_ k = true → end_excludes end_ k' = true.
Proof.
  intros Hk. destruct end_ as [b|b|]; cbn; try done; [|intros Hb; by eapply bytes_leb_trans].
  rewrite !bytes_ltb_leb. destruct (bytes_leb k' b) eqn:E; [|done].
  by rewrite (bytes_leb_trans _ _ _ Hk E).
Qed.

Lemma within_end_excludes end_ key : within_end end_ key = negb (end_excludes end_ key).
Proof. destruct end_; cbn; rewrite ?bytes_ltb_leb, ?negb_involutive; done. Qed.

Fixpoint take_while {A} (P : A → bool) (l : list A) : list A :=
  match l with [] => [] | x :: l => if P x then x :: take_while P l else [] end.

Fixpoint skip_while {A} (P : A → bool) (l : list A) : list A :=
  match l with [] => [] | x :: l => if P x then skip_while P l else x :: l end.

(** The records of a range. *)
Definition in_range_recs (start end_ : Bound) (l : list (bytes * LookupHit)) : list (bytes * LookupHit) :=
  filter (λ r, in_range start end_ r.1 = true) l.

Lemma rec_le_key a b : rec_le a b → bytes_leb a.1 b.1 = true.
Proof. apply ikey_le_key. Qed.

Lemma take_while_range end_ l :
  StronglySorted rec_le l →
  take_while (λ r, within_end end_ r.1) l = filter (λ r, end_excludes end_ r.1 = false) l.
Proof.
  induction 1 as [|r l _ IH Hr]; [done|]. cbn [take_while]. rewrite filter_cons, within_end_excludes.
  destruct (end_excludes end_ r.1) eqn:E; cbn [negb].
  - rewrite decide_False by done. symmetry. apply filter_none. intros x Hx.
    rewrite Forall_forall in Hr. by rewrite (end_excludes_up _ _ _ (rec_le_key _ _ (Hr x Hx)) E).
  - rewrite decide_True by done. by rewrite IH.
Qed.

Lemma skip_while_range start l :
  StronglySorted rec_le l →
  skip_while (λ r, before_start start r.1) l = filter (λ r, before_start start r.1 = false) l.
Proof.
  induction 1 as [|r l _ IH Hr]; [done|]. cbn [skip_while]. rewrite filter_cons.
  destruct (before_start start r.1) eqn:E; [by rewrite decide_False|].
  rewrite decide_True by done. f_equal. symmetry. apply filter_all. intros x Hx.
  rewrite Forall_forall in Hr. destruct (before_start start x.1) eqn:Ex; [|done].
  by rewrite (before_start_down _ _ _ (rec_le_key _ _ (Hr x Hx)) Ex) in E.
Qed.

(** Both adaptors together. *)
Lemma range_view start end_ l :
  StronglySorted rec_le l →
  take_while (λ r, within_end end_ r.1) (skip_while (λ r, before_start start r.1) l) =
    in_range_recs start end_ l.
Proof.
  intros Hs. rewrite skip_while_range, take_while_range by (done || by apply StronglySorted_filter).
  unfold in_range_recs. rewrite list_filter_filter. apply list_filter_iff. intros r. unfold in_range.
  destruct (before_start start r.1), (end_excludes end_ r.1); cbn; intuition congruence.
Qed.

Lemma memtable_items_range start end_ l :
  StronglySorted entry_le l → memtable_items start end_ l = in_range_recs start end_ (mem_record <$> l).
Proof.
  induction 1 as [|e l _ IH He]; [done|]. cbn [memtable_items]. rewrite fmap_cons.
  unfold in_range_recs, in_range in *. rewrite filter_cons. cbn [mem_record fst].
  destruct (before_start start (me_key e)) eqn:Eb; [by rewrite decide_False|].
  destruct (end_excludes end_ (me_key e)) eqn:Ee; cbn [negb andb].
  - rewrite decide_False by done. symmetry. apply filter_none. intros x (y & -> & Hy)%list_elem_of_fmap.
    rewrite Forall_forall in He. cbn [mem_record fst].
    rewrite (end_excludes_up _ _ _ (ikey_le_key _ _ _ _ (He y Hy)) Ee). by rewrite andb_false_r.
  - rewrite decide_True by done. by rewrite IH.
Qed.

(** * The sources yield the records of the range *)

Section SourceSpec.
Context `{Crc32cLaws} `{Xxh3} `{AesGcmLaws} {F W : Type} `{VfsLaws F W} `{!ReliableReads F W}.

(** The files of the tables that are read. *)
Context (G : F → Prop).

(** What is left of a stream that has [all] to yield, after the skipping. *)
Definition unskipped (src : SstSource F) (all : list (bytes * LookupHit)) : list (bytes * LookupHit) :=
  if so_started src then all else skip_while (λ r, before_start (so_start src) r.1) all.

(** What both adaptors let through. *)
Definition adapted (src : SstSource F) (all : list (bytes * LookupHit)) : list (bytes * LookupHit) :=
  if so_finished src then [] else take_while (λ r, within_end (so_end src) r.1) (unskipped src all).

Definition source_yields (env : nat * W) (recs : list (bytes * LookupHit)) (b : BoxedRecordStream F) : Prop :=
  match b with
  | MemtableItems items => recs = items
  | SstableItems src =>
      ∃ all, sst_yields G env.2 all (so_stream src) ∧ (length all < env.1)%nat ∧ recs = adapted src all
  end.

Lemma skip_next_spec fuel (w : W) src all :
  sst_yields G w all (so_stream src) → (length all < fuel)%nat →
  ∃ src', skip_next fuel w src = (Ok (head (unskipped src all)), src') ∧
    ∀ x v, unskipped src all = x :: v →
      ∃ s, src' = so_set s true (so_finished src) src ∧ sst_yields G w v s ∧ (length v < length all)%nat.
Proof.
  revert src all. induction fuel as [|fuel IH]; intros src all Hy Hfuel; [lia|]. cbn [skip_next].
  destruct (stream_step _ _ _ Hy) as (s & E & Hy'). unfold rs_next, sst_record_stream in E. rewrite E.
  unfold unskipped in *. destruct all as [|x all]; cbn [head].
  { exists (so_set s (so_started src) (so_finished src) src). by destruct (so_started src). }
  cbn [skip_while tail length] in *. specialize (Hy' ltac:(done)). destruct (so_started src) eqn:Es; cbn [orb].
  - eexists. split; [done|]. intros y v [= <- <-]. exists s. split_and!; (done || lia).
  - destruct (before_start (so_start src) x.1) eqn:Eb; cbn [negb].
    + destruct (IH (so_set s false (so_finished src) src) all Hy' ltac:(lia)) as (src' & E' & Hsrc).
      cbn [so_started so_start so_set] in *. exists src'. split; [done|]. intros y v Hv.
      destruct (Hsrc y v Hv) as (s' & -> & Hs' & Hlen). exists s'. split_and!; (done || lia).
    + eexists. split; [done|]. intros y v [= <- <-]. exists s. split_and!; (done || lia).
Qed.

#[global] Instance source_yields_law : StreamLaw source_yields.
Proof.
  intros [fuel w] recs [items|src]; cbn.
  { intros ->. unfold rs_next, boxed_record_stream, boxed_next. destruct items as [|x items]; by eexists. }
  intros (all & Hy & Hfuel & ->). unfold rs_next, boxed_record_stream, boxed_next, sstable_next, adapted.
  cbn [fst snd]. rewrite run_get. destruct (so_finished src) eqn:Ef; [by eexists|].
  destruct (skip_next_spec fuel w src all Hy Hfuel) as (src' & E & Hsrc). rewrite (run_bind _ _ _ _ _ E).
  destruct (unskipped src all) as [|x v]; cbn [head take_while]; [by eexists|].
  destruct (Hsrc x v eq_refl) as (s & -> & Hv & Hlen).
  destruct (within_end (so_end src) x.1); [|by eexists]. eexists. split; [done|]. intros _.
  exists v. cbn [so_stream so_set fst snd tail]. split_and!; [done|lia|]. by rewrite Ef.
Qed.

(** What is left to read does not depend on the other files. *)
Lemma source_yields_mono (fuel fuel' : nat) (w w' : W) recs b :
  (fuel ≤ fuel')%nat → (∀ f, G f → live w f → contents f w' = contents f w ∧ live w' f) →
  source_yields (fuel, w) recs b → source_yields (fuel', w') recs b.
Proof.
  intros Hle Hsame. destruct b as [items|src]; [done|]. intros (all & Hy & Hl & Hr). exists all.
  split_and!; [by eapply sst_yields_mono|cbn in *; lia|done].
Qed.

(** ** Opening the sources *)

(** A memtable that readers can walk, with its entries. *)
Definition memtable_of (m : SkipList) (l : list MemEntry) : Prop := ∃ ps chains, sl_shape m ps l chains.

Lemma memtable_sources_ok start end_ memtables ls env :
  Forall2 memtable_of memtables ls →
  ∃ ss, memtable_sources memtables start end_ = Ok ss ∧
    Forall2 (λ s recs, source_yields env recs s) ss
      ((λ l, in_range_recs start end_ (mem_record <$> l)) <$> ls).
Proof.
  induction 1 as [|m l ms ls (ps & chains & Hsh) _ IH]; [by exists []|]. destruct IH as (ss & E & Hss).
  cbn [memtable_sources]. unfold memtable_source. rewrite (skiplist_entries_spec _ _ _ _ Hsh).
  cbn [mbind outcome_bind]. rewrite E. cbn [mbind outcome_bind]. eexists. split; [done|].
  rewrite fmap_cons. constructor; [|done]. cbn. symmetry. apply memtable_items_range, Hsh.
Qed.

Lemma sstable_sources_ok start end_ readers tables (fuel : nat) (w : W) :
  Forall2 (λ r rs, table_of r w rs) readers tables → Forall (λ r, G (tr_file r)) readers →
  Forall (λ rs, length rs < fuel)%nat tables →
  ∃ ss, sstable_sources readers start end_ = Ok ss ∧
    Forall2 (λ s recs, source_yields (fuel, w) recs s) ss
      ((λ rs, in_range_recs start end_ (entries rs)) <$> tables).
Proof.
  induction 1 as [|r rs readers tables Hr _ IH]; intros HG Hlen; [by exists []|].
  apply Forall_cons in Hlen as [Hl Hlen]. apply Forall_cons in HG as [Hg HG]. destruct (IH HG Hlen) as (ss & E & Hss).
  destruct (table_stream G r w rs Hr Hg) as (s & Es & Hs).
  cbn [sstable_sources]. rewrite Es. cbn [mbind outcome_bind]. rewrite E. cbn [mbind outcome_bind].
  eexists. split; [done|]. rewrite fmap_cons. constructor; [|done]. exists (entries rs). cbn.
  split_and!; [done|by rewrite length_fmap|]. unfold adapted, unskipped. cbn.
  symmetry. apply range_view, sorted_entries, Hr.
Qed.
End SourceSpec.

(** * The iterator *)

(** What the iterator makes of the merged records. *)
Fixpoint range_of (end_ : Bound) (snapshot : Z) (last : option bytes) (recs : list (bytes * LookupHit)) :
    list RangeRecord :=
  match recs with
  | [] => []
  | (key, hit) :: recs =>
      if end_excludes end_ key then []
      else if snapshot <? hit_seqno hit then range_of end_ snapshot last recs
      else if bool_decide (last = Some key) then range_of end_ snapshot last recs
      else
        match hit_op hit with
        | OpTombstone => range_of end_ snapshot (Some key) recs
        | OpPut =>
            {| rr_key := key; rr_value := hit_value hit; rr_seqno := hit_seqno hit |} ::
            range_of end_ snapshot (Some key) recs
        end
  end.

Section IterSpec.
Context `{Crc32c} `{Xxh3} `{AesGcm} {F W : Type} `{VfsFile F W}.
Context (Y : nat * W → list (bytes * LookupHit) → KWayMerge (BoxedRecordStream F) → Prop).
Context `{!FusedLaw (H := merge_record_stream) Y}.

(** An iterator that still has [recs] to merge. *)
Record iter_at (env : nat * W) (end_ : Bound) (snapshot : Z) (last : option bytes)
    (recs : list (bytes * LookupHit)) (it : DbRangeIter F) : Prop := {
  ia_end : di_end it = end_;
  ia_snapshot : di_snapshot it = snapshot;
  ia_last : di_last_emitted_key it = last;
  ia_inside : Forall (λ r, end_excludes end_ r.1 = false) recs;
  ia_merger : Y env recs (di_merger it)
}.

Lemma iter_at_mono env env' end_ snapshot last recs it :
  (∀ recs m, Y env recs m → Y env' recs m) →
  iter_at env end_ snapshot last recs it → iter_at env' end_ snapshot last recs it.
Proof. intros HY []. split; auto. Qed.

Lemma merger_next_spec env end_ snapshot last recs it :
  iter_at env end_ snapshot last recs it →
  ∃ it', merger_next env it = (Ok (head recs), it') ∧ iter_at env end_ snapshot last (tail recs) it'.
Proof.
  intros [He Hs Hl Hin Hm]. destruct (fused_step _ _ _ Hm) as (m & E & Hm').
  unfold rs_next, merge_record_stream in E. exists (di_set_merger m it).
  split; [by unfold merger_next; rewrite E|]. split; try done.
  destruct recs; [done|]. by apply Forall_cons in Hin as [_ ?].
Qed.

(** One call returns the next record of the range, and the iterator is left
    with the others; past the end it stays there. *)
Lemma range_next_spec fuel env end_ snapshot last recs it :
  iter_at env end_ snapshot last recs it → (length recs < fuel)%nat →
  ∃ it' last' recs', range_next fuel env it = (Ok (head (range_of end_ snapshot last recs)), it') ∧
    range_of end_ snapshot last' recs' = tail (range_of end_ snapshot last recs) ∧
    (length recs' ≤ Nat.pred (length recs))%nat ∧ iter_at env end_ snapshot last' recs' it'.
Proof.
  revert last recs it. induction fuel as [|fuel IH]; intros last recs it Hit Hfuel; [lia|].
  cbn [range_next]. destruct (merger_next_spec _ _ _ _ _ _ Hit) as (it1 & E & Hit1).
  rewrite (run_bind _ _ _ _ _ E), run_get. destruct recs as [|[key hit] recs]; cbn [head tail] in *.
  { exists it1, last, []. by split_and!. }
  pose proof (ia_inside _ _ _ _ _ _ Hit) as [Hin _]%Forall_cons. cbn [fst] in Hin.
  cbn [range_of length Nat.pred] in *. rewrite (ia_end _ _ _ _ _ _ Hit1), (ia_snapshot _ _ _ _ _ _ Hit1), Hin.
  rewrite (ia_last _ _ _ _ _ _ Hit1).
  assert (∀ last1 it2, iter_at env end_ snapshot last1 recs it2 →
    ∃ it' last' recs', range_next fuel env it2 = (Ok (head (range_of end_ snapshot last1 recs)), it') ∧
      range_of end_ snapshot last' recs' = tail (range_of end_ snapshot last1 recs) ∧
      (length recs' ≤ length recs)%nat ∧ iter_at env end_ snapshot last' recs' it') as Hgo.
  { intros last1 it2 Hit2. destruct (IH last1 recs it2 Hit2 ltac:(lia)) as (it' & last' & recs' & ? & ? & ? & ?).
    exists it', last', recs'. split_and!; (done || lia). }
  destruct (snapshot <? hit_seqno hit); [by apply Hgo|].
  destruct (bool_decide (last = Some key)); [by apply Hgo|].
  assert (iter_at env end_ snapshot (Some key) recs (di_set_last key it1)) as Htake by by destruct Hit1; split.
  rewrite run_modify. destruct (hit_op hit); [|by apply Hgo].
  exists (di_set_last key it1), (Some key), recs. by split_and!.
Qed.

Lemma collect_records_spec n env next_fuel end_ snapshot last recs it :
  iter_at env end_ snapshot last recs it → (length recs < next_fuel)%nat → (length recs < n)%nat →
  (collect_records n env next_fuel it).1 = Ok (range_of end_ snapshot last recs).
Proof.
  revert last recs it. induction n as [|n IH]; intros last recs it Hit Hf Hn; [lia|]. cbn [collect_records].
  destruct (range_next_spec next_fuel env end_ snapshot last recs it Hit Hf)
    as (it' & last' & recs' & E & Hrest & Hlen & Hit').
  rewrite (run_bind _ _ _ _ _ E). destruct (range_of end_ snapshot last recs) as [|r rest] eqn:Er; [done|].
  cbn [head tail] in *. assert (recs ≠ []) as Hne by by intros ->.
  assert (length recs' < length recs)%nat as Hlt by (destruct recs; [done|cbn in *; lia]).
  specialize (IH last' recs' it' Hit' ltac:(lia) ltac:(lia)). rewrite Hrest in IH.
  destruct (collect_records n env next_fuel it') as [o it2] eqn:Ec. cbn [fst] in IH. rewrite IH in Ec.
  by rewrite (run_bind _ _ _ _ _ Ec).
Qed.
End IterSpec.

(** ** What a sorted merge makes of it *)

Definition rr_lt (a b : RangeRecord) : Prop := bytes_ltb (rr_key a) (rr_key b) = true.

(** The record of a live version. *)
Definition put_of (r : RangeRecord) : LookupHit :=
  {| hit_seqno := rr_seqno r; hit_op := OpPut; hit_value := rr_value r |}.

(** The keys emitted so far do not come back. *)
Definition after_last (last : option bytes) (recs : list (bytes * LookupHit)) : Prop :=
  ∀ k x, last = Some k → x ∈ recs → bytes_leb k x.1 = true.

Lemma newest_skip_ver key hit recs k snapshot :
  (snapshot < hit_seqno hit ∨ key ≠ k) → newest ((key, hit) :: recs) k snapshot = newest recs k snapshot.
Proof.
  intros Hc. cbn [newest foldr]. assert (candidate k snapshot (key, hit) = None) as ->; [|done].
  destruct (candidate k snapshot (key, hit)) eqn:E; [|done].
  apply candidate_Some in E as [[= -> ->] Hs]. destruct Hc; [lia|done].
Qed.

Lemma newest_head_ver key hit recs snapshot :
  StronglySorted rec_le ((key, hit) :: recs) → hit_seqno hit ≤ snapshot →
  newest ((key, hit) :: recs) key snapshot = Some hit.
Proof.
  intros Hs Hle. rewrite newest_sorted by done. cbn [List.find fst snd].
  rewrite (proj2 (bytes_eqb_eq key key) eq_refl). cbn. by decide_bool.
Qed.

Lemma range_of_keys end_ snapshot last recs r :
  r ∈ range_of end_ snapshot last recs → ∃ h, (rr_key r, h) ∈ recs.
Proof.
  revert last. induction recs as [|[key hit] recs IH]; intros last; cbn [range_of]; [by intros ?%not_elem_of_nil|].
  assert (∀ last', r ∈ range_of end_ snapshot last' recs → ∃ h, (rr_key r, h) ∈ (key, hit) :: recs) as Hgo
    by (intros last' (h & Hh)%IH; exists h; by right).
  destruct (end_excludes end_ key); [by intros ?%not_elem_of_nil|].
  destruct (snapshot <? hit_seqno hit); [apply Hgo|]. destruct (bool_decide _); [apply Hgo|].
  destruct (hit_op hit); [|apply Hgo].
  intros [->|Hr]%elem_of_cons; [exists hit; left|by apply (Hgo (Some key))].
Qed.

(** Past the first version of a key, the key is settled. *)
Lemma range_of_step key hit last recs r snapshot :
  StronglySorted rec_le ((key, hit) :: recs) → after_last last ((key, hit) :: recs) → last ≠ Some key →
  (Some key ≠ Some (rr_key r) ∧ newest recs (rr_key r) snapshot = Some (put_of r)) ↔
  (key ≠ rr_key r ∧ last ≠ Some (rr_key r) ∧ newest ((key, hit) :: recs) (rr_key r) snapshot = Some (put_of r)).
Proof.
  intros Hs Hlast Hne. split.
  - intros [Hk Hn]. assert (key ≠ rr_key r) as Hkey by congruence. rewrite newest_skip_ver by auto.
    split_and!; [done| |done]. intros Hl. apply Hkey. apply bytes_leb_antisym.
    + apply newest_in in Hn as [Hin _]. apply StronglySorted_cons in Hs as [Hall _].
      rewrite Forall_forall in Hall. apply (rec_le_key _ _ (Hall _ Hin)).
    + apply (Hlast _ (key, hit) Hl). left.
  - intros (Hk & _ & Hn). rewrite newest_skip_ver in Hn by auto. split; [congruence|done].
Qed.

Lemma range_of_spec end_ snapshot last recs :
  StronglySorted rec_le recs → Forall (λ r, end_excludes end_ r.1 = false) recs → after_last last recs →
  StronglySorted rr_lt (range_of end_ snapshot last recs) ∧
  ∀ r, r ∈ range_of end_ snapshot last recs ↔
    last ≠ Some (rr_key r) ∧ newest recs (rr_key r) snapshot = Some (put_of r).
Proof.
  revert last. induction recs as [|[key hit] recs IH]; intros last Hs Hend Hlast.
  { cbn. split; [constructor|]. intros r. split; [by intros ?%not_elem_of_nil|by intros [_ ?]]. }
  apply Forall_cons in Hend as [He Hend]. pose proof Hs as [Hle Hs']%StronglySorted_cons.
  cbn [range_of fst] in *. rewrite He.
  assert (after_last last recs) as Hlast' by (intros k x ? ?; apply (Hlast k); [done|by right]).
  destruct (Z.ltb_spec snapshot (hit_seqno hit)) as [Hhi|Hlo].
  { destruct (IH last Hs' Hend Hlast') as [Hsort Hiff]. split; [done|]. intros r. rewrite Hiff.
    by rewrite newest_skip_ver by auto. }
  case_bool_decide as Hdup.
  { destruct (IH last Hs' Hend Hlast') as [Hsort Hiff]. split; [done|]. intros r. rewrite Hiff.
    split; intros [Hl Hn]; (split; [done|]); rewrite newest_skip_ver in *; auto; right; congruence. }
  assert (after_last (Some key) recs) as Hkey.
  { intros k x [= <-] Hx. rewrite Forall_forall in Hle. apply (rec_le_key _ _ (Hle x Hx)). }
  destruct (IH (Some key) Hs' Hend Hkey) as [Hsort Hiff].
  pose proof (newest_head_ver key hit recs snapshot Hs Hlo) as Hfirst.
  assert (∀ r, r ∈ range_of end_ snapshot (Some key) recs ↔ key ≠ rr_key r ∧ last ≠ Some (rr_key r) ∧
    newest ((key, hit) :: recs) (rr_key r) snapshot = Some (put_of r)) as Htl
    by (intros r; rewrite Hiff; by apply range_of_step).
  destruct (hit_op hit) eqn:Hop; [split|split; [done|]].
  - apply StronglySorted_cons. split; [|done]. apply Forall_forall. intros r Hr. unfold rr_lt. cbn.
    rewrite bytes_ltb_leb. destruct (bytes_leb (rr_key r) key) eqn:E; [exfalso|done].
    pose proof (proj1 (Htl r) Hr) as [Hk _]. apply Hk. apply bytes_leb_antisym; [|done].
    destruct (range_of_keys _ _ _ _ _ Hr) as (h & Hh). by apply (Hkey key (rr_key r, h)).
  - intros r. rewrite elem_of_cons, Htl. split.
    + intros [->|(Hk & Hl & Hn)]; [|done]. cbn [rr_key]. split; [done|]. rewrite Hfirst. by destruct hit; cbn in *; subst.
    + intros [Hl Hn]. destruct (decide (key = rr_key r)) as [->|Hk]; [left|by right].
      rewrite Hfirst in Hn. injection Hn as ->. by destruct r.
  - intros r. rewrite Htl. split; [tauto|]. intros [Hl Hn]. split; [|done]. intros ->.
    rewrite Hfirst in Hn. injection Hn as ->. done.
Qed.

(** * The whole scan *)

(** The versions of a memtable. *)
Abbreviation mem_records := (fmap (M := list) mem_record).

(** The versions of some memtables and tables, each list newest source first. *)
Definition sources_of (ls : list (list MemEntry)) (tables : list (list BlockRecord)) :
    list (list (bytes * LookupHit)) :=
  (mem_records <$> ls) ++ (entries <$> tables).

Definition versions_of (ls : list (list MemEntry)) (tables : list (list BlockRecord)) :
    list (bytes * LookupHit) :=
  concat (sources_of ls tables).

Lemma newest_range start end_ vs key snapshot :
  newest (in_range_recs start end_ vs) key snapshot =
    if in_range start end_ key then newest vs key snapshot else None.
Proof.
  unfold in_range_recs. induction vs as [|[k h] vs IH]; [by destruct (in_range start end_ key)|].
  rewrite filter_cons. destruct (decide (k = key)) as [->|Hne].
  - cbn [fst]. destruct (in_range start end_ key).
    + rewrite decide_True by done. unfold newest in IH |- *. cbn [foldr]. by rewrite IH.
    + by rewrite decide_False.
  - rewrite newest_skip_ver by auto. cbn [fst]. destruct (decide _); [|done]. by rewrite newest_skip_ver by auto.
Qed.

Lemma mem_sorted l : StronglySorted entry_le l → StronglySorted rec_le (mem_record <$> l).
Proof.
  induction 1 as [|e l _ IH He]; [constructor|]. rewrite fmap_cons. constructor; [done|]. by apply Forall_fmap.
Qed.

Lemma concat_in_range start end_ (srcs : list (list (bytes * LookupHit))) :
  concat (in_range_recs start end_ <$> srcs) = in_range_recs start end_ (concat srcs).
Proof. symmetry. apply filter_concat. Qed.

Section Scan.
Context `{Crc32cLaws} `{Xxh3} `{AesGcmLaws} {F W : Type} `{VfsLaws F W} `{!ReliableReads F W}.

Lemma sources_sorted memtables ls readers tables start end_ (w : W) :
  Forall2 memtable_of memtables ls → Forall2 (λ r rs, table_of r w rs) readers tables →
  Forall (StronglySorted rec_le) (in_range_recs start end_ <$> sources_of ls tables).
Proof.
  intros Hm Ht. apply Forall_fmap, Forall_forall. intros l Hl. apply StronglySorted_filter.
  apply elem_of_app in Hl as [(x & -> & [i Hx]%list_elem_of_lookup)%list_elem_of_fmap|
    (x & -> & [i Hx]%list_elem_of_lookup)%list_elem_of_fmap].
  - destruct (Forall2_lookup_r _ _ _ _ _ Hm Hx) as (m & _ & ps & chains & Hsh). apply mem_sorted, Hsh.
  - destruct (Forall2_lookup_r _ _ _ _ _ Ht Hx) as (r & _ & Hr). apply sorted_entries, Hr.
Qed.

(** The sources of a new iterator over tables in files of [G], merged. *)
Lemma range_new_merged (G : F → Prop) memtables ls readers tables start end_ snapshot fuel (w : W) :
  Forall2 memtable_of memtables ls → Forall2 (λ r rs, table_of r w rs) readers tables →
  Forall (λ r, G (tr_file r)) readers → (length (versions_of ls tables) < fuel)%nat →
  ∃ it out, range_new memtables readers start end_ snapshot = Ok it ∧
    interleaves out (in_range_recs start end_ <$> sources_of ls tables) ∧ StronglySorted heap_le out ∧
    iter_at (merge_rest (source_yields G)) (fuel, w) end_ snapshot None (untag <$> out) it.
Proof.
  intros Hm Ht HG Hlen. unfold range_new.
  destruct (memtable_sources_ok G start end_ memtables ls (fuel, w) Hm) as (ms & -> & Hms).
  destruct (sstable_sources_ok G start end_ readers tables fuel w Ht HG) as (ss & -> & Hss).
  { apply Forall_forall. intros rs Hrs. eapply Nat.le_lt_trans; [|exact Hlen].
    unfold versions_of, sources_of. rewrite concat_app, length_app.
    apply list_elem_of_split in Hrs as (l1 & l2 & ->). rewrite fmap_app, concat_app, length_app, fmap_cons.
    cbn [concat]. rewrite length_app, length_fmap. lia. }
  cbn [mbind outcome_bind].
  assert (Forall2 (λ s recs, source_yields G (fuel, w) recs s) (ms ++ ss)
    (in_range_recs start end_ <$> sources_of ls tables)) as Hsrc.
  { unfold sources_of. rewrite fmap_app, <-!list_fmap_compose. by apply Forall2_app. }
  destruct (merge_new_rest (source_yields G) (fuel, w) _ _ Hsrc) as (out & Hi & Ho & Hy).
  { by eapply sources_sorted. }
  eexists _, out. split_and!; [done..|]. split; try done.
  rewrite (interleaves_perm _ _ Hi), concat_in_range. apply Forall_forall.
  intros r [Hr _]%list_elem_of_filter. unfold in_range in Hr.
  by destruct (end_excludes end_ r.1); rewrite ?andb_false_r in Hr.
Qed.

(** What it has to return: the newest visible versions of the keys in range. *)
Lemma range_new_ok (G : F → Prop) memtables ls readers tables start end_ snapshot fuel (w : W) :
  Forall2 memtable_of memtables ls → Forall2 (λ r rs, table_of r w rs) readers tables →
  Forall (λ r, G (tr_file r)) readers → (length (versions_of ls tables) < fuel)%nat →
  ∃ it recs, range_new memtables readers start end_ snapshot = Ok it ∧ (length recs < fuel)%nat ∧
    iter_at (merge_rest (source_yields G)) (fuel, w) end_ snapshot None recs it ∧
    StronglySorted rr_lt (range_of end_ snapshot None recs) ∧
    ∀ r, r ∈ range_of end_ snapshot None recs ↔ in_range start end_ (rr_key r) = true ∧
      newest (versions_of ls tables) (rr_key r) snapshot = Some (put_of r).
Proof.
  intros Hm Ht HG Hlen.
  destruct (range_new_merged G memtables ls readers tables start end_ snapshot fuel w Hm Ht HG Hlen)
    as (it & out & E & Hi & Ho & Hit).
  pose proof (interleaves_perm _ _ Hi) as Hperm. rewrite concat_in_range in Hperm.
  destruct (range_of_spec end_ snapshot None (untag <$> out)) as [Hsort Hiff].
  { by eapply interleaves_sorted. }
  { by apply Hit. }
  { by intros k x. }
  exists it, (untag <$> out). split_and!; [done| |done|done|].
  - rewrite Hperm. eapply Nat.le_lt_trans; [apply length_filter|exact Hlen].
  - intros r. rewrite Hiff, (newest_merged _ _ _ _ Hi Ho), concat_in_range, newest_range.
    fold (versions_of ls tables). destruct (in_range start end_ (rr_key r)); intuition congruence.
Qed.

Lemma range_scan memtables ls readers tables start end_ snapshot fuel (w : W) :
  Forall2 memtable_of memtables ls → Forall2 (λ r rs, table_of r w rs) readers tables →
  (length (versions_of ls tables) < fuel)%nat →
  ∃ it out, range_new memtables readers start end_ snapshot = Ok it ∧
    (collect_records fuel (fuel, w) fuel it).1 = Ok out ∧ StronglySorted rr_lt out ∧
    ∀ r, r ∈ out ↔ in_range start end_ (rr_key r) = true ∧
      newest (versions_of ls tables) (rr_key r) snapshot = Some (put_of r).
Proof.
  intros Hm Ht Hlen.
  destruct (range_new_ok (λ _, True) memtables ls readers tables start end_ snapshot fuel w Hm Ht)
    as (it & recs & E & Hl & Hit & Hout); [by apply Forall_forall|done|].
  exists it, (range_of end_ snapshot None recs). split_and!; [done| |apply Hout..].
  by apply (collect_records_spec (merge_rest (source_yields (λ _, True)))).
Qed.
End Scan.
