(* ===== verification/Engine.v ===== *)
(** The engine: [crates/paddock-core/src/engine.rs].

    [Db] with its configuration, the published [EngineState], and the writer's
    context; opening with log replay, commits, rotation, flush, compaction,
    point reads and range scans, over any file system.  An operation runs to
    its end: where the code releases the lock in the middle ([compact_all],
    [flush]) the parts are definitions of their own, so that interleavings can
    be stated.  A memtable, shared through [Arc] in the code, is owned by the
    one list that refers to it. *)

From S2P Require Import Prelude Varint Checksum Vfs VfsLaws WalBatch WalFormat WalLayout WalWriter.
From S2P Require Import WalReader Bloom SstFormat Block Crypto SstWriter SstReader Frames FileNames.
From S2P Require Import InternalKey Arena SkipList Merger Versions SstTable Compact RangeIter.

(** * Data *)

Record DbConfig := {
  memtable_threshold_bytes : Z;
  bloom_bits_per_key : Z;
  bloom_num_hashes : Z;
  sstable_capacity_hint : Z;
  master_key : option MasterKey
}.

Definition db_config_default : DbConfig :=
  {| memtable_threshold_bytes := 4 * 1024 * 1024; bloom_bits_per_key := 10; bloom_num_hashes := 8;
     sstable_capacity_hint := 10000; master_key := None |}.

Definition bloom_params (c : DbConfig) : BloomParams :=
  {| num_hashes := bloom_num_hashes c; bits_per_key := bloom_bits_per_key c |}.

Record Snapshot := { snap_seqno : Z }.

Record LiveSst (F : Type) := { ls_id : Z; ls_reader : SstReader F }.
Arguments ls_id {F} _.
Arguments ls_reader {F} _.

Record ImmutableMemtable := { im_memtable : SkipList; im_wal_segment_id : Z }.

Record EngineState (F : Type) := {
  active_memtable : SkipList;
  immutable_memtables : list ImmutableMemtable;
  sstables : list (LiveSst F)
}.
Arguments active_memtable {F} _.
Arguments immutable_memtables {F} _.
Arguments sstables {F} _.

Record WriterCtx (F : Type) := {
  wc_wal : SegmentWriter F;
  wc_wal_segment_id : Z;
  wc_active_memtable_bytes : Z;
  wc_next_file_number : Z
}.
Arguments wc_wal {F} _.
Arguments wc_wal_segment_id {F} _.
Arguments wc_active_memtable_bytes {F} _.
Arguments wc_next_file_number {F} _.

Record Db (F : Type) := {
  db_data_dir : string;
  db_config : DbConfig;
  db_seqno : Z;
  db_state : EngineState F;
  db_ctx : WriterCtx F
}.
Arguments db_data_dir {F} _.
Arguments db_config {F} _.
Arguments db_seqno {F} _.
Arguments db_state {F} _.
Arguments db_ctx {F} _.

(** * Field updates *)

Section Fields.
Context {F : Type}.

Definition db_set_seqno (n : Z) (db : Db F) : Db F :=
  {| db_data_dir := db_data_dir db; db_config := db_config db; db_seqno := n; db_state := db_state db;
     db_ctx := db_ctx db |}.

(** [self.state.store(..)]. *)
Definition db_set_state (s : EngineState F) (db : Db F) : Db F :=
  {| db_data_dir := db_data_dir db; db_config := db_config db; db_seqno := db_seqno db; db_state := s;
     db_ctx := db_ctx db |}.

Definition db_set_ctx (c : WriterCtx F) (db : Db F) : Db F :=
  {| db_data_dir := db_data_dir db; db_config := db_config db; db_seqno := db_seqno db;
     db_state := db_state db; db_ctx := c |}.

Definition wc_set_wal (wal : SegmentWriter F) (c : WriterCtx F) : WriterCtx F :=
  {| wc_wal := wal; wc_wal_segment_id := wc_wal_segment_id c;
     wc_active_memtable_bytes := wc_active_memtable_bytes c;
     wc_next_file_number := wc_next_file_number c |}.

Definition wc_set_bytes (n : Z) (c : WriterCtx F) : WriterCtx F :=
  {| wc_wal := wc_wal c; wc_wal_segment_id := wc_wal_segment_id c; wc_active_memtable_bytes := n;
     wc_next_file_number := wc_next_file_number c |}.

Definition wc_set_next (n : Z) (c : WriterCtx F) : WriterCtx F :=
  {| wc_wal := wc_wal c; wc_wal_segment_id := wc_wal_segment_id c;
     wc_active_memtable_bytes := wc_active_memtable_bytes c; wc_next_file_number := n |}.

Definition es_set_active (m : SkipList) (s : EngineState F) : EngineState F :=
  {| active_memtable := m; immutable_memtables := immutable_memtables s; sstables := sstables s |}.

Definition es_set_sstables (l : list (LiveSst F)) (s : EngineState F) : EngineState F :=
  {| active_memtable := active_memtable s; immutable_memtables := immutable_memtables s; sstables := l |}.
End Fields.

(** * Writes *)

Fixpoint apply_ops (seqno : Z) (ops : list Op) : st SkipList () :=
  match ops with
  | [] => mret tt
  | Put key value :: ops => _ ← skiplist_insert key value seqno NodePut; apply_ops seqno ops
  | Delete key :: ops => _ ← skiplist_insert key [] seqno NodeTombstone; apply_ops seqno ops
  end.

Definition apply_batch_to_memtable (seqno : Z) (batch : WriteBatch) : st SkipList () :=
  apply_ops seqno (ops batch).

Section Engine.
Context `{Crc32c} `{Xxh3} `{AesGcm} `{Hkdf} {F W : Type} `{Vfs F W}.

(** Running an operation of the log, or of the active memtable. *)
Definition on_wal {A} (m : st (SegmentWriter F * W) A) : st (Db F * W) A := λ '(db, w),
  let '(r, (wal, w)) := m (wc_wal (db_ctx db), w) in
  (r, (db_set_ctx (wc_set_wal wal (db_ctx db)) db, w)).

Definition on_active {A} (m : st SkipList A) : st (Db F * W) A := λ '(db, w),
  let '(r, mem) := m (active_memtable (db_state db)) in
  (r, (db_set_state (es_set_active mem (db_state db)) db, w)).

(** [let n = ctx.next_file_number; ctx.next_file_number += 1]. *)
Definition reserve_file_number : st (Db F * W) Z :=
  '(db, _) ← st_get;
  let n := wc_next_file_number (db_ctx db) in
  next ← st_lift (expect (checked_add n 1));
  _ ← on_fst (st_modify (λ db, db_set_ctx (wc_set_next next (db_ctx db)) db));
  mret n.

(** The state with the active memtable moved to the front of the queue. *)
Definition rotated (new_active : SkipList) (outgoing_wal_id : Z) (prev : EngineState F) : EngineState F :=
  {| active_memtable := new_active;
     immutable_memtables := {| im_memtable := active_memtable prev;
                               im_wal_segment_id := outgoing_wal_id |} :: immutable_memtables prev;
     sstables := sstables prev |}.

Definition rotate_memtable_locked : st (Db F * W) () :=
  '(db, _) ← st_get;
  new_active ← st_lift skiplist_new;
  let outgoing_wal_id := wc_wal_segment_id (db_ctx db) in
  _ ← on_fst (st_modify (λ db, db_set_state (rotated new_active outgoing_wal_id (db_state db)) db));
  new_segment_id ← reserve_file_number;
  new_file ← on_snd (open_writable (wal_segment_path (db_data_dir db) new_segment_id));
  first_seqno ← st_lift (expect (checked_add (db_seqno db) 1));
  new_wal ← on_snd (create new_file new_segment_id first_seqno);
  on_fst (st_modify (λ db, db_set_ctx
    {| wc_wal := new_wal; wc_wal_segment_id := new_segment_id; wc_active_memtable_bytes := 0;
       wc_next_file_number := wc_next_file_number (db_ctx db) |} db)).

Definition commit_batch (batch : WriteBatch) : st (Db F * W) () :=
  '(db, _) ← st_get;
  _ ← on_fst (st_modify (λ db, db_set_seqno (u64 (db_seqno db + 1)) db));
  seqno ← st_lift (expect (checked_add (db_seqno db) 1));
  encoded ← st_lift (encode batch);
  _ ← on_wal (append_record seqno encoded);
  _ ← on_wal sync;
  _ ← on_active (apply_batch_to_memtable seqno batch);
  total ← st_lift (expect (checked_add (wc_active_memtable_bytes (db_ctx db)) (len encoded)));
  _ ← on_fst (st_modify (λ db, db_set_ctx (wc_set_bytes total (db_ctx db)) db));
  if memtable_threshold_bytes (db_config db) <=? total then rotate_memtable_locked else mret tt.

Definition put (key value : bytes) : st (Db F * W) () := commit_batch (batch_put batch_new key value).
Definition delete (key : bytes) : st (Db F * W) () := commit_batch (batch_delete batch_new key).
Definition write_batch (batch : WriteBatch) : st (Db F * W) () := commit_batch batch.

(** * Flush *)

(** The key of a table, when there is a master key. *)
Definition engine_crypto (config : DbConfig) (id : Z) : outcome (option EncryptionCtx) :=
  match master_key config with
  | Some master =>
      key ← derive_sstable_key master id;
      Ok (Some {| ec_aead := aead_new key; ec_sstable_id := id |})
  | None => Ok None
  end.

Definition open_sst_reader (file : F) (sstable_id : Z) (mk : option MasterKey) (w : W) :
    outcome (SstReader F) :=
  match mk with
  | Some master => key ← derive_sstable_key master sstable_id; sst_open_encrypted file key sstable_id w
  | None => sst_open file w
  end.

Definition flush_record (e : MemEntry) : BlockRecord :=
  {| br_key := me_key e; br_value := me_value e; br_seqno := me_seqno e;
     br_op := mem_record_op (me_op e) |}.

(** The state with the new table in front and the flushed memtable gone. *)
Definition flushed (id : Z) (reader : SstReader F) (wal_id : Z) (prev : EngineState F) : EngineState F :=
  {| active_memtable := active_memtable prev;
     immutable_memtables := filter (λ m, im_wal_segment_id m ≠ wal_id) (immutable_memtables prev);
     sstables := {| ls_id := id; ls_reader := reader |} :: sstables prev |}.

(** Writing the memtable's table and opening it. *)
Definition write_memtable (mem : SkipList) (file_number : Z) : st (Db F * W) (SstReader F) :=
  '(db, _) ← st_get;
  let path := sst_path (db_data_dir db) file_number in
  file ← on_snd (open_writable path);
  crypto ← st_lift (engine_crypto (db_config db) file_number);
  nodes ← st_lift (skiplist_entries mem);
  _ ← on_snd (write_table file AlgCrc32c (Z.max (skiplist_len mem) 1) (bloom_params (db_config db)) crypto
                (flush_record <$> nodes));
  '(_, w) ← st_get;
  f ← st_lift (open_readonly path w);
  st_lift (open_sst_reader f file_number (master_key (db_config db)) w).

(** [let _ = self.vfs.remove(&path)]: the result is dropped. *)
Definition try_remove (path : string) : st (Db F * W) () := λ '(db, w),
  match remove path w with
  | (Ok _, w) | (Err _, w) => (Ok tt, (db, w))
  | (Panic, w) => (Panic, (db, w))
  | (OutOfFuel, w) => (OutOfFuel, (db, w))
  end.

Definition flush_one (im : ImmutableMemtable) : st (Db F * W) () :=
  file_number ← reserve_file_number;
  reader ← write_memtable (im_memtable im) file_number;
  _ ← on_fst (st_modify (λ db,
        db_set_state (flushed file_number reader (im_wal_segment_id im) (db_state db)) db));
  '(db, _) ← st_get;
  if negb (im_wal_segment_id im =? 0)
  then try_remove (wal_segment_path (db_data_dir db) (im_wal_segment_id im))
  else mret tt.

(** The loop of [flush]: every round takes the oldest memtable off the queue. *)
Fixpoint flush_loop (fuel : nat) : st (Db F * W) () :=
  match fuel with
  | O => st_lift OutOfFuel
  | S fuel =>
      '(db, _) ← st_get;
      match last (immutable_memtables (db_state db)) with
      | None => mret tt
      | Some im => _ ← flush_one im; flush_loop fuel
      end
  end.

Definition flush : st (Db F * W) () :=
  '(db, _) ← st_get;
  _ ← (if negb (skiplist_is_empty (active_memtable (db_state db))) then rotate_memtable_locked else mret tt);
  '(db, _) ← st_get;
  flush_loop (S (length (immutable_memtables (db_state db)))).

Definition close : st (Db F * W) () := flush.

(** * Compaction *)

Definition compact_config (config : DbConfig) (output_id : Z) : outcome CompactionConfig :=
  encryption ← match master_key config with
               | Some m => key ← derive_sstable_key m output_id; Ok (Some (key, output_id))
               | None => Ok None
               end;
  Ok {| cc_bloom := bloom_params config; cc_bloom_capacity_floor := sstable_capacity_hint config;
        cc_checksum := AlgCrc32c; cc_encryption := encryption |}.

(** The merge of the chosen inputs into a new table. *)
Definition compact_run (fuel : nat) (inputs : list (LiveSst F)) : st (Db F * W) (Z * SstReader F) :=
  output_id ← reserve_file_number;
  '(db, _) ← st_get;
  config ← st_lift (compact_config (db_config db) output_id);
  output ← on_snd (compact_sstables fuel (ls_reader <$> inputs) (sst_path (db_data_dir db) output_id) config);
  mret (output_id, co_reader output).

(** The state with the inputs replaced by the output, which goes to the front. *)
Definition compacted (output_id : Z) (reader : SstReader F) (inputs : list (LiveSst F))
    (prev : EngineState F) : EngineState F :=
  es_set_sstables ({| ls_id := output_id; ls_reader := reader |} ::
    filter (λ sst, ls_id sst ∉ ls_id <$> inputs) (sstables prev)) prev.

(** The swap, on whatever state is current, with the capacity it computes. *)
Definition compact_publish (output_id : Z) (reader : SstReader F) (inputs : list (LiveSst F)) :
    st (Db F * W) () :=
  '(db, _) ← st_get;
  _ ← st_lift (usize_sub (len (sstables (db_state db))) (len inputs));
  on_fst (st_modify (λ db, db_set_state (compacted output_id reader inputs (db_state db)) db)).

Fixpoint remove_inputs (dir : string) (inputs : list (LiveSst F)) : st (Db F * W) () :=
  match inputs with
  | [] => mret tt
  | input :: inputs => _ ← try_remove (sst_path dir (ls_id input)); remove_inputs dir inputs
  end.

Definition compact_all (fuel : nat) : st (Db F * W) () :=
  '(db, _) ← st_get;
  let inputs := sstables (db_state db) in
  if len inputs <? 2 then mret tt
  else
    '(output_id, reader) ← compact_run fuel inputs;
    _ ← compact_publish output_id reader inputs;
    remove_inputs (db_data_dir db) inputs.

(** * Reads *)

Definition snapshot (db : Db F) : Snapshot := {| snap_seqno := db_seqno db |}.
Definition current_seqno (db : Db F) : Z := db_seqno db.
Definition sstable_count (db : Db F) : Z := len (sstables (db_state db)).

(** What a memtable's node, or a table's hit, says about its key. *)
Definition node_value (e : MemEntry) : option bytes :=
  match me_op e with NodePut => Some (me_value e) | NodeTombstone => None end.

Definition hit_result (hit : LookupHit) : option bytes :=
  match hit_op hit with OpPut => Some (hit_value hit) | OpTombstone => None end.

Fixpoint get_immutables (key : bytes) (seqno : Z) (ims : list ImmutableMemtable) :
    outcome (option (option bytes)) :=
  match ims with
  | [] => Ok None
  | im :: ims =>
      node ← skiplist_get (im_memtable im) key seqno;
      match node with
      | Some e => Ok (Some (node_value e))
      | None => get_immutables key seqno ims
      end
  end.

(** The tables, newest first; a lookup counts the misses its filter saved. *)
Fixpoint get_sstables (avx2 : bool) (key : bytes) (seqno : Z) (w : W) (ssts : list (LiveSst F)) :
    outcome (option bytes) * list (LiveSst F) :=
  match ssts with
  | [] => (Ok None, [])
  | sst :: ssts =>
      let '(r, reader) := sst_get avx2 key seqno w (ls_reader sst) in
      let sst := {| ls_id := ls_id sst; ls_reader := reader |} in
      match r with
      | Ok (Some hit) => (Ok (hit_result hit), sst :: ssts)
      | Ok None => let '(r, ssts) := get_sstables avx2 key seqno w ssts in (r, sst :: ssts)
      | Err e => (Err e, sst :: ssts)
      | Panic => (Panic, sst :: ssts)
      | OutOfFuel => (OutOfFuel, sst :: ssts)
      end
  end.

Definition get_at (avx2 : bool) (key : bytes) (snap : Snapshot) : st (Db F * W) (option bytes) :=
  '(db, w) ← st_get;
  let state := db_state db in
  node ← st_lift (skiplist_get (active_memtable state) key (snap_seqno snap));
  match node with
  | Some e => mret (node_value e)
  | None =>
      found ← st_lift (get_immutables key (snap_seqno snap) (immutable_memtables state));
      match found with
      | Some v => mret v
      | None =>
          let '(r, ssts) := get_sstables avx2 key (snap_seqno snap) w (sstables state) in
          _ ← on_fst (st_modify (λ db, db_set_state (es_set_sstables ssts (db_state db)) db));
          st_lift r
      end
  end.

Definition get (avx2 : bool) (key : bytes) : st (Db F * W) (option bytes) :=
  '(db, _) ← st_get; get_at avx2 key (snapshot db).

Definition range_bounds (start end_ : Bound) (snap : Snapshot) (db : Db F) : outcome (DbRangeIter F) :=
  let state := db_state db in
  range_new (active_memtable state :: (im_memtable <$> immutable_memtables state))
    (ls_reader <$> sstables state) start end_ (snap_seqno snap).

Definition range (start end_exclusive : bytes) (db : Db F) : outcome (DbRangeIter F) :=
  range_bounds (Included start) (Excluded end_exclusive) (snapshot db) db.

Definition scan_all (db : Db F) : outcome (DbRangeIter F) :=
  range_bounds Unbounded Unbounded (snapshot db) db.

(** * Opening *)

(** [.iter().copied().max()]. *)
Definition max_of (l : list Z) : option Z :=
  match l with [] => None | x :: l => Some (foldl Z.max x l) end.

(** [.unwrap_or_default()] on a directory listing. *)
Definition names_in (dir : string) (w : W) : outcome (list string) :=
  match list_dir dir w with
  | Ok names => Ok names
  | Err _ => Ok []
  | Panic => Panic
  | OutOfFuel => OutOfFuel
  end.

Fixpoint open_ssts (dir : string) (mk : option MasterKey) (ids : list Z) (max_seen_seqno : Z) (w : W) :
    outcome (list (LiveSst F) * Z) :=
  match ids with
  | [] => Ok ([], max_seen_seqno)
  | n :: ids =>
      file ← open_readonly (sst_path dir n) w;
      reader ← open_sst_reader file n mk w;
      '(ssts, m) ← open_ssts dir mk ids (Z.max max_seen_seqno (fh_max_seqno (tr_header reader))) w;
      Ok ({| ls_id := n; ls_reader := reader |} :: ssts, m)
  end.

(** The callback of the replay, over the memtable and the highest sequence
    number seen. *)
Definition replay_record (view : RecordView) : st (SkipList * Z) () :=
  _ ← st_modify (λ '(mem, m), (mem, Z.max m (rv_seqno view)));
  batch ← st_lift (decode (rv_payload view));
  on_fst (apply_batch_to_memtable (rv_seqno view) batch).

Fixpoint replay_segments (dir : string) (segments : list Z) (w : W) : st (SkipList * Z) () :=
  match segments with
  | [] => mret tt
  | seg :: segments =>
      file ← st_lift (open_readonly (wal_segment_path dir seg) w);
      _ ← recover replay_record file w;
      replay_segments dir segments w
  end.

Definition open_with (dir : string) (config : DbConfig) : st W (Db F) :=
  w ← st_get;
  names ← st_lift (names_in dir w);
  let wal_segments := merge_sort Z.le (omap parse_wal_segment_name names) in
  next ← st_lift (expect (checked_add (default 0 (max_of wal_segments)) 1));
  let sst_files := omap parse_sst_name names in
  next_file_number ← st_lift (match max_of sst_files with
                              | Some max_sst => n ← expect (checked_add max_sst 1); Ok (Z.max next n)
                              | None => Ok next
                              end);
  let sst_sorted := merge_sort Z.ge sst_files in
  '(ssts, max_sst_seqno) ← st_lift (open_ssts dir (master_key config) sst_sorted 0 w);
  memtable ← st_lift skiplist_new;
  '(memtable, max_seen_seqno) ← st_lift (let '(r, a) := replay_segments dir wal_segments w (memtable, max_sst_seqno) in
                                          _ ← r; Ok a);
  let wal_segment_id := next_file_number in
  next_file_number ← st_lift (expect (checked_add next_file_number 1));
  wal_file ← open_writable (wal_segment_path dir wal_segment_id);
  first_seqno ← st_lift (expect (checked_add max_seen_seqno 1));
  wal ← create wal_file wal_segment_id first_seqno;
  mret {| db_data_dir := dir; db_config := config; db_seqno := max_seen_seqno;
          db_state := {| active_memtable := memtable; immutable_memtables := []; sstables := ssts |};
          db_ctx := {| wc_wal := wal; wc_wal_segment_id := wal_segment_id; wc_active_memtable_bytes := 0;
                       wc_next_file_number := next_file_number |} |}.

Definition open_db (dir : string) : st W (Db F) := open_with dir db_config_default.
End Engine.
