(* ===== verification/UnitEngine.v ===== *)
(** The tests of the engine, those in [engine.rs] and [tests/engine_e2e.rs], on
    [MemVfs] with the bitwise CRC32C and a concrete cipher and key derivation.

    Left out are the tests that put many keys through the engine and look each
    of them up again; what they sample, [engine_refines_map],
    [engine_get_refines_map] and [engine_settles] state of every script. *)

From S2P Require Import Prelude TestKit Checksum Vfs WalBatch SstFormat Crypto SkipList RangeIter Engine.
From S2P Require Import UnitCodec UnitTable.

(** * A client *)

Definition session := st (Db MemFile * MemVfs).

(** [{ let db = Db::open_with(vfs.clone(), dir, config).unwrap(); body }]. *)
Definition with_db {F W A} `{Vfs F W} (dir : string) (config : DbConfig) (body : st (Db F * W) A) : st W A := λ w,
  match open_with dir config w with
  | (Ok db, w) => let '(r, (_, w)) := body (db, w) in (r, w)
  | (r, w) => (_ ← unwrap r; Panic, w)
  end.

Definition opened {A} (body : session A) : st MemVfs A := with_db "/db" db_config_default body.

(** A test of one fresh database. *)
Definition fresh (body : session ()) : outcome () := run (opened body) mem_new.

Section Calls.
Context {F W : Type} `{Vfs F W}.

Definition do_put (key value : bytes) : st (Db F * W) () := st_unwrap (put key value).
Definition do_delete (key : bytes) : st (Db F * W) () := st_unwrap (delete key).
Definition do_flush : st (Db F * W) () := st_unwrap flush.
Definition do_compact_all : st (Db F * W) () := st_unwrap (compact_all 1000).

Definition get_is (key : bytes) (expected : option bytes) : st (Db F * W) () :=
  found ← st_unwrap (get true key);
  st_lift (assert_eq found expected).
End Calls.

Definition take_snapshot : session Snapshot :=
  '(db, _) ← st_get;
  mret (snapshot db).

Definition get_at_is (key : bytes) (snap : Snapshot) (expected : option bytes) : session () :=
  found ← st_unwrap (get_at true key snap);
  st_lift (assert_eq found expected).

Definition count_is (n : Z) : session () :=
  '(db, _) ← st_get;
  st_lift (assert_eq (sstable_count db) n).

(** [iter.map(|r| r.unwrap()).map(|r| (r.key, r.value)).collect()]. *)
Definition collect_iter (it : Db MemFile → outcome (DbRangeIter MemFile)) : session (list (bytes * bytes)) :=
  '(db, w) ← st_get;
  recs ← st_lift (it ← unwrap (it db); unwrap (run (collect_records 100 (100%nat, w) 100) it));
  mret ((λ r, (rr_key r, rr_value r)) <$> (recs : list RangeRecord)).

Definition collect_kv (start end_ : bytes) : session (list (bytes * bytes)) := collect_iter (range start end_).

Definition kvs_are (found expected : list (bytes * bytes)) : session () := st_lift (assert_eq found expected).

(** * [engine.rs] *)

Definition k3 (i : Z) : bytes := lit "k-" ++ padded 3 i.
Definition v3 (i : Z) : bytes := lit "v-" ++ padded 3 i.

Definition seqno_above (s : Z) : session () :=
  '(db, _) ← st_get;
  st_lift (assert_that (s <? current_seqno db)).

Definition engine_tests : list test := [
  Test "put_then_get_round_trips" (fresh (
    _ ← do_put (lit "alpha") (lit "one");
    _ ← do_put (lit "bravo") (lit "two");
    _ ← get_is (lit "alpha") (Some (lit "one"));
    _ ← get_is (lit "bravo") (Some (lit "two"));
    get_is (lit "missing") None));
  Test "delete_hides_a_previous_put" (fresh (
    _ ← do_put (lit "k") (lit "v");
    _ ← get_is (lit "k") (Some (lit "v"));
    _ ← do_delete (lit "k");
    get_is (lit "k") None));
  Test "snapshot_sees_old_value_after_overwrite" (fresh (
    _ ← do_put (lit "k") (lit "v1");
    snap ← take_snapshot;
    _ ← do_put (lit "k") (lit "v2");
    _ ← get_at_is (lit "k") snap (Some (lit "v1"));
    get_is (lit "k") (Some (lit "v2"))));
  Test "flush_drains_memtable_to_sstable_and_reads_still_work" (fresh (
    _ ← st_each (upto 50) (λ i, do_put (k3 i) (v3 i));
    _ ← count_is 0;
    _ ← do_flush;
    _ ← count_is 1;
    st_each (upto 50) (λ i, get_is (k3 i) (Some (v3 i)))));
  Test "after_flush_overwrites_still_shadow_sstable_value" (fresh (
    _ ← do_put (lit "k") (lit "first");
    _ ← do_flush;
    _ ← do_put (lit "k") (lit "second");
    _ ← get_is (lit "k") (Some (lit "second"));
    _ ← do_flush;
    _ ← count_is 2;
    get_is (lit "k") (Some (lit "second"))));
  Test "recovery_replays_wal_into_a_fresh_memtable" (run (
    _ ← opened (
      _ ← do_put (lit "persist") (lit "yes");
      do_put (lit "x") (lit "y"));
    opened (
      _ ← get_is (lit "persist") (Some (lit "yes"));
      get_is (lit "x") (Some (lit "y")))) mem_new);
  Test "recovery_then_flush_emits_an_sstable" (run (
    _ ← opened (st_each (upto 20) (λ i, do_put (lit "k" ++ padded 0 i) (lit "v" ++ padded 0 i)));
    opened (
      _ ← do_flush;
      '(db, _) ← st_get;
      _ ← st_lift (assert_that (1 <=? sstable_count db));
      st_each (upto 20) (λ i, get_is (lit "k" ++ padded 0 i) (Some (lit "v" ++ padded 0 i))))) mem_new)
].

Definition engine_more_tests : list test := [
  Test "delete_then_flush_persists_tombstone" (fresh (
    _ ← do_put (lit "k") (lit "v");
    _ ← do_flush;
    _ ← do_delete (lit "k");
    _ ← do_flush;
    get_is (lit "k") None));
  Test "seqno_advances_monotonically" (fresh (
    '(db, _) ← st_get;
    _ ← do_put (lit "a") (lit "1");
    _ ← seqno_above (current_seqno db);
    '(db, _) ← st_get;
    _ ← do_put (lit "b") (lit "2");
    seqno_above (current_seqno db)))
].

(** * [tests/engine_e2e.rs] *)

(** One round of the reopen test: what the last round wrote, then the next value. *)
Definition reopen_round (expected_second next : bytes) : session () :=
  _ ← get_is (lit "first") (Some (lit "hello"));
  _ ← get_is (lit "second") (Some expected_second);
  _ ← do_put (lit "second") next;
  do_flush.

Definition round_value (round : Z) : bytes := lit "v-" ++ padded 0 round.

Definition e2e_write_tests : list test := [
  Test "writes_survive_repeated_reopen_cycles" (run (
    _ ← opened (
      _ ← do_put (lit "first") (lit "hello");
      _ ← do_put (lit "second") (lit "world");
      do_flush);
    _ ← st_each (upto 4) (λ round,
      opened (reopen_round (if round =? 0 then lit "world" else round_value (round - 1)) (round_value round)));
    opened (
      _ ← get_is (lit "first") (Some (lit "hello"));
      get_is (lit "second") (Some (lit "v-3")))) mem_new);
  Test "batch_write_is_atomic_across_keys" (fresh (
    let batch := batch_put batch_new (lit "k1") (lit "v1") in
    let batch := batch_put batch (lit "k2") (lit "v2") in
    let batch := batch_delete batch (lit "k3") in
    _ ← st_unwrap (write_batch batch);
    _ ← get_is (lit "k1") (Some (lit "v1"));
    _ ← get_is (lit "k2") (Some (lit "v2"));
    get_is (lit "k3") None));
  Test "snapshots_remain_stable_across_flush" (fresh (
    _ ← do_put (lit "k") (lit "v0");
    snap ← take_snapshot;
    _ ← do_put (lit "k") (lit "v1");
    _ ← do_flush;
    _ ← do_put (lit "k") (lit "v2");
    _ ← do_flush;
    _ ← get_at_is (lit "k") snap (Some (lit "v0"));
    get_is (lit "k") (Some (lit "v2"))))
].

Definition e2e_compact_tests : list test := [
  Test "compact_all_preserves_newest_value_on_duplicate_keys" (fresh (
    _ ← do_put (lit "k") (lit "v0");
    _ ← do_flush;
    _ ← do_put (lit "k") (lit "v1");
    _ ← do_flush;
    _ ← do_put (lit "k") (lit "v2");
    _ ← do_flush;
    _ ← count_is 3;
    _ ← do_compact_all;
    _ ← count_is 1;
    get_is (lit "k") (Some (lit "v2"))));
  Test "compact_all_preserves_tombstones" (fresh (
    _ ← do_put (lit "alive") (lit "v");
    _ ← do_put (lit "dead") (lit "v");
    _ ← do_flush;
    _ ← do_delete (lit "dead");
    _ ← do_flush;
    _ ← count_is 2;
    _ ← do_compact_all;
    _ ← count_is 1;
    _ ← get_is (lit "alive") (Some (lit "v"));
    get_is (lit "dead") None));
  Test "compact_all_is_a_noop_when_only_one_sstable_exists" (fresh (
    _ ← do_put (lit "k") (lit "v");
    _ ← do_flush;
    _ ← count_is 1;
    _ ← do_compact_all;
    _ ← count_is 1;
    get_is (lit "k") (Some (lit "v"))))
].

(** [MasterKey::from_bytes([b; 32])] and the configuration with it. *)
Definition encrypted (b : Z) : DbConfig :=
  {| memtable_threshold_bytes := memtable_threshold_bytes db_config_default;
     bloom_bits_per_key := bloom_bits_per_key db_config_default;
     bloom_num_hashes := bloom_num_hashes db_config_default;
     sstable_capacity_hint := sstable_capacity_hint db_config_default;
     master_key := Some {| master_key_bytes := replicate 32 b |} |}.

Definition put_and_flush (b : Z) : st MemVfs () :=
  with_db "/db" (encrypted b) (_ ← do_put (lit "k") (lit "v"); do_flush).

Definition e2e_encrypted_tests : list test := [
  Test "opening_encrypted_db_without_key_fails" (run (
    _ ← put_and_flush 0xDE;
    w ← st_get;
    err ← st_lift (unwrap_err (run (open_db (F := MemFile) "/db") w));
    st_lift (assert_that (is_invalid_format err))) mem_new);
  Test "opening_with_wrong_master_key_yields_auth_failure" (run (
    _ ← put_and_flush 0xAA;
    with_db "/db" (encrypted 0xBB) (
      s ← st_get;
      _ ← st_lift (unwrap_err (run (get true (lit "k")) s));
      mret tt)) mem_new)
].

Definition e2e_range_tests : list test := [
  Test "range_over_empty_db_is_empty" (fresh (
    kvs ← collect_kv [] [0xFF];
    kvs_are kvs []));
  Test "range_returns_all_keys_in_ascending_order_from_memtable" (fresh (
    _ ← do_put (lit "c") (lit "3");
    _ ← do_put (lit "a") (lit "1");
    _ ← do_put (lit "b") (lit "2");
    kvs ← collect_kv [] [0xFF];
    kvs_are kvs [(lit "a", lit "1"); (lit "b", lit "2"); (lit "c", lit "3")]));
  Test "range_obeys_half_open_bounds" (fresh (
    _ ← st_each ((Z.add 97) <$> upto 7) (λ c, do_put [c] [c]);
    kvs ← collect_kv (lit "c") (lit "f");
    st_lift (assert_eq kvs.*1 [lit "c"; lit "d"; lit "e"])));
  Test "range_merges_memtable_and_multiple_sstables" (fresh (
    _ ← do_put (lit "alpha") (lit "v1");
    _ ← do_put (lit "charlie") (lit "v1");
    _ ← do_flush;
    _ ← do_put (lit "bravo") (lit "v1");
    _ ← do_flush;
    _ ← do_put (lit "delta") (lit "v1");
    kvs ← collect_kv [] [0xFF];
    st_lift (assert_eq kvs.*1 [lit "alpha"; lit "bravo"; lit "charlie"; lit "delta"])));
  Test "range_picks_newest_version_when_key_lives_in_multiple_sources" (fresh (
    _ ← do_put (lit "k") (lit "v0");
    _ ← do_flush;
    _ ← do_put (lit "k") (lit "v1");
    _ ← do_flush;
    _ ← do_put (lit "k") (lit "v2");
    kvs ← collect_kv [] [0xFF];
    kvs_are kvs [(lit "k", lit "v2")]));
  Test "range_skips_tombstoned_keys" (fresh (
    _ ← do_put (lit "alive") (lit "yes");
    _ ← do_put (lit "dead") (lit "v");
    _ ← do_flush;
    _ ← do_delete (lit "dead");
    kvs ← collect_kv [] [0xFF];
    kvs_are kvs [(lit "alive", lit "yes")]));
  Test "range_at_snapshot_hides_later_writes" (fresh (
    _ ← do_put (lit "a") (lit "v0");
    _ ← do_put (lit "b") (lit "v0");
    snap ← take_snapshot;
    _ ← do_put (lit "a") (lit "v1");
    _ ← do_put (lit "c") (lit "v0");
    kvs ← collect_iter (range_bounds Unbounded Unbounded snap);
    kvs_are kvs [(lit "a", lit "v0"); (lit "b", lit "v0")]));
  Test "scan_all_returns_every_live_key_in_order" (fresh (
    _ ← st_each (upto 40) (λ i, do_put (k3 i) (lit "v"));
    _ ← do_flush;
    kvs ← collect_iter scan_all;
    st_lift (assert_eq kvs.*1 (merge_sort bytes_le (k3 <$> upto 40)))));
  Test "tombstones_survive_through_multiple_flush_rounds" (fresh (
    _ ← st_each (upto 30) (λ i, do_put (k3 i) (lit "value"));
    _ ← do_flush;
    _ ← st_each (Z.mul 2 <$> upto 15) (λ i, do_delete (k3 i));
    _ ← do_flush;
    st_each (upto 30) (λ i, get_is (k3 i) (if Z.even i then None else Some (lit "value")))))
].

(** * The tests pass *)

Lemma engine_tests_pass : all_pass engine_tests = true.
Proof. evaluate. Qed.

Lemma engine_more_tests_pass : all_pass engine_more_tests = true.
Proof. evaluate. Qed.

Lemma e2e_write_tests_pass : all_pass e2e_write_tests = true.
Proof. evaluate. Qed.

Lemma e2e_compact_tests_pass : all_pass e2e_compact_tests = true.
Proof. evaluate. Qed.

Lemma e2e_encrypted_tests_pass : all_pass e2e_encrypted_tests = true.
Proof. evaluate. Qed.

Lemma e2e_range_tests_pass : all_pass e2e_range_tests = true.
Proof. evaluate. Qed.
