(* ===== verification/UnitIo.v ===== *)
(** The tests of the I/O layer, those in [io/]: [MemVfs], the aligned buffers
    on a bump heap, [LinuxVfs], [DirectFile] and [Mmap] on the disk that splits
    transfers, and [Uring] on a ring that completes what is submitted.

    The temporary directory of a test is a fresh disk, and the host is taken to
    support [O_DIRECT] and io_uring: the early returns of
    [skip_if_no_o_direct] and [ring_or_skip] are not taken.  The ring stands for
    the kernel, so the files behind its descriptors are not there. *)

From S2P Require Import Prelude Checksum Vfs VfsLaws FileNames TestKit LinuxFile LinuxVfs LinuxLaws Arena.
From S2P Require Import AlignedBuf DirectFile Mmap Uring Crypto Engine UnitCodec UnitTable UnitEngine.

Definition is_io (e : Error) : bool := match e with Io _ => true | _ => false end.

(** * [io/vfs.rs] *)

(** [vfs.open_readonly(path).unwrap()] and [f.size().unwrap()]. *)
Definition open_ro {F W} `{Vfs F W} (path : string) : st W F := λ w, (unwrap (open_readonly path w), w).
Definition size_is {F W} `{VfsFile F W} (f : F) (n : Z) : st W () := λ w,
  (size ← unwrap (vf_size f w); assert_eq size n, w).
Definition read_is {F W} `{VfsFile F W} (f : F) (offset : Z) (expected : bytes) : st W () := λ w,
  (buf ← unwrap (vf_read_at f (len expected) offset w); assert_eq buf expected, w).

(** The entries of a directory, sorted. *)
Definition list_is {F W} `{Vfs F W} (dir : string) (expected : list string) : st W () := λ w,
  (names ← unwrap (list_dir dir w); assert_eq (merge_sort string_le names) expected, w).

Definition mem_vfs_tests : list test := [
  Test "append_then_read_round_trips" (run (
    f ← st_unwrap (open_writable "/wal/000001.log");
    off_a ← st_unwrap (vf_append f (lit "hello"));
    off_b ← st_unwrap (vf_append f (lit " world"));
    _ ← st_lift (assert_eq off_a 0);
    _ ← st_lift (assert_eq off_b 5);
    _ ← size_is f 11;
    reader ← open_ro "/wal/000001.log";
    read_is reader 0 (lit "hello world")) mem_new);
  Test "read_past_end_is_error" (run (
    w ← st_unwrap (open_writable "a");
    _ ← st_unwrap (vf_append w (lit "abc"));
    r ← open_ro "a";
    s ← st_get;
    err ← st_lift (unwrap_err (vf_read_at r 10 0 s));
    st_lift (assert_that (match err with Io IoUnexpectedEof => true | _ => false end))) mem_new);
  Test "rename_moves_content_atomically" (run (
    f ← st_unwrap (open_writable "tmp");
    _ ← st_unwrap (vf_append f (lit "draft"));
    _ ← st_unwrap (rename "tmp" "final");
    r ← open_ro "final";
    _ ← size_is r 5;
    w ← st_get;
    err ← st_lift (unwrap_err (open_readonly "tmp" w));
    st_lift (assert_that (is_io err))) mem_new);
  Test "remove_is_idempotent" (run (
    _ ← st_unwrap (remove "nope");
    f ← st_unwrap (open_writable "doomed");
    _ ← st_unwrap (vf_append f (lit "x"));
    _ ← st_unwrap (remove "doomed");
    st_unwrap (remove "doomed")) mem_new);
  Test "list_filters_to_immediate_children_of_dir" (run (
    _ ← st_each ["wal/1.log"; "wal/2.log"; "sst/a.sst"; "wal/sub/3.log"] (λ path,
      f ← st_unwrap (open_writable path);
      _ ← st_unwrap (vf_append f (lit "x"));
      mret tt);
    _ ← list_is "wal" ["1.log"; "2.log"];
    list_is "sst" ["a.sst"]) mem_new);
  Test "shared_handle_sees_appends_from_other_writer" (run (
    a ← st_unwrap (open_writable "shared");
    b ← st_unwrap (open_writable "shared");
    _ ← st_unwrap (vf_append a (lit "AAA"));
    _ ← st_unwrap (vf_append b (lit "BBB"));
    _ ← size_is a 6;
    size_is b 6) mem_new)
].

(** * [io/aligned_buf.rs] *)

(** [AlignedBuf::new(n).unwrap()]. *)
Definition new_buf (n : Z) : st heap AlignedBuf :=
  b ← aligned_new n;
  st_lift (expect b).

Definition with_buf (n : Z) (check : AlignedBuf → outcome ()) : outcome () :=
  run (b ← new_buf n; st_lift (check b)) heap_new.

(** [buf[i] = b] and [buf[i]]. *)
Definition set_byte (i : Z) (b : Z) (buf : AlignedBuf) : AlignedBuf := fill_at i [b] buf.
Definition byte_is (buf : AlignedBuf) (i b : Z) : outcome () := x ← index (buf_deref buf) i; assert_eq x b.

Definition acquired : st (BufferPool * heap) AlignedBuf :=
  b ← acquire;
  st_lift (expect b).

Definition idle_is (n : Z) : st (BufferPool * heap) () :=
  '(p, _) ← st_get;
  st_lift (assert_eq (idle_count p) n).

(** On a pool of [capacity] pages. *)
Definition with_pool (body : st (BufferPool * heap) ()) (capacity : Z) : outcome () :=
  pool ← pool_new 4096 PAGE_SIZE capacity;
  run body (pool, heap_new).

Definition aligned_buf_tests : list test := [
  Test "round_up_handles_aligned_and_unaligned" (
    each [(0, 0); (1, 4096); (4095, 4096); (4096, 4096); (4097, 8192)] (λ '(value, expected),
      r ← page_round_up value 4096; assert_eq r expected));
  Test "aligned_buf_pointer_is_page_aligned" (with_buf 8192 (λ buf,
    _ ← assert_eq (buf_as_ptr buf mod PAGE_SIZE) 0;
    _ ← assert_eq (buf_len buf) 8192;
    assert_eq (buf_alignment buf) PAGE_SIZE));
  Test "aligned_buf_rounds_length_up" (
    _ ← with_buf 1 (λ buf, assert_eq (buf_len buf) PAGE_SIZE);
    with_buf (PAGE_SIZE + 1) (λ buf, assert_eq (buf_len buf) (2 * PAGE_SIZE)));
  Test "aligned_buf_zero_length_request_yields_one_page" (with_buf 0 (λ buf,
    _ ← assert_eq (buf_len buf) PAGE_SIZE;
    assert_that (negb (buf_is_empty buf))));
  Test "aligned_buf_is_zero_initialised" (with_buf 8192 (λ buf,
    assert_that (forallb (Z.eqb 0) (buf_deref buf))));
  Test "aligned_buf_supports_mutation_via_deref" (with_buf 4096 (λ buf,
    let buf := set_byte 0 0xAA buf in
    let buf := set_byte 4095 0xBB buf in
    _ ← byte_is buf 0 0xAA;
    byte_is buf 4095 0xBB));
  Test "aligned_buf_custom_alignment_64_is_cache_line" (run (
    b ← with_alignment 128 64;
    buf ← st_lift (expect b);
    _ ← st_lift (assert_eq (buf_as_ptr buf mod 64) 0);
    _ ← st_lift (assert_eq (buf_len buf) 128);
    st_lift (assert_eq (buf_alignment buf) 64)) heap_new);
  Test "aligned_buf_rejects_non_power_of_two_alignment" (should_panic (run (with_alignment 4096 3) heap_new));
  Test "buffer_pool_acquires_fresh_then_recycles" (with_pool (
    _ ← idle_is 0;
    buf_a ← acquired;
    _ ← st_lift (assert_eq (buf_len buf_a) 4096);
    _ ← release buf_a;
    _ ← idle_is 1;
    buf_b ← acquired;
    _ ← idle_is 0;
    release buf_b) 4);
  Test "buffer_pool_caps_at_capacity" (with_pool (
    _ ← st_each (upto 5) (λ _, b ← acquired; release b);
    idle_is 1) 2);
  Test "buffer_pool_rejects_mismatched_buffer_on_release" (with_pool (
    foreign ← on_snd (new_buf 8192);
    _ ← release foreign;
    idle_is 0) 4)
].

(** * [io/linux_vfs.rs] *)

Definition temp_root : path := of_string "/tmp/paddock".
Definition temp_vfs : LinuxVfs := {| lv_root := temp_root |}.

#[local] Instance temp_calls : PathCalls Z slow_disk := slow_calls temp_root.
#[local] Instance temp_linux_vfs : Vfs (LinuxFile Z) slow_disk := linux_vfs temp_vfs.

Definition refused {A} (r : outcome A) : outcome () := _ ← unwrap_err r; Ok tt.

Definition linux_vfs_tests : list test := [
  Test "append_then_read_round_trips" (run (
    f ← st_unwrap (open_writable "hello.txt");
    off_a ← st_unwrap (vf_append f (lit "Hello, "));
    off_b ← st_unwrap (vf_append f (lit "PaddockKV!"));
    _ ← st_lift (assert_eq off_a 0);
    _ ← st_lift (assert_eq off_b 7);
    _ ← st_unwrap (vf_sync f);
    r ← open_ro "hello.txt";
    read_is r 0 (lit "Hello, PaddockKV!")) slow_empty);
  Test "write_at_overwrites_existing_range" (run (
    f ← st_unwrap (open_writable "overlay");
    _ ← st_unwrap (vf_append f (replicate 32 0));
    _ ← st_unwrap (vf_write_at f (lit "BACKFILL") 4);
    _ ← st_unwrap (vf_sync f);
    r ← open_ro "overlay";
    read_is r 0 (replicate 4 0 ++ lit "BACKFILL" ++ replicate 20 0)) slow_empty);
  Test "rename_then_remove" (run (
    f ← st_unwrap (open_writable "first");
    _ ← st_unwrap (vf_append f (lit "data"));
    _ ← st_unwrap (rename "first" "second");
    w ← st_get;
    _ ← st_lift (refused (open_readonly "first" w));
    r ← open_ro "second";
    _ ← size_is r 4;
    _ ← st_unwrap (remove "second");
    w ← st_get;
    _ ← st_lift (refused (open_readonly "second" w));
    st_unwrap (remove "second")) slow_empty);
  Test "list_returns_files_in_root" (run (
    _ ← st_each ["a.sst"; "b.sst"; "wal-1.log"] (λ name, _ ← st_unwrap (open_writable name); mret tt);
    list_is "" ["a.sst"; "b.sst"; "wal-1.log"]) slow_empty);
  Test "resolve_refuses_path_escape" (
    _ ← refused (run (open_writable "../escaped") slow_empty);
    refused (run (open_writable "/etc/passwd") slow_empty));
  Test "db_round_trip_on_linux_vfs" (run (
    _ ← with_db "." db_config_default (
      _ ← do_put (lit "alpha") (lit "one");
      _ ← do_put (lit "bravo") (lit "two");
      _ ← do_flush;
      get_is (lit "alpha") (Some (lit "one")));
    with_db "." db_config_default (
      _ ← get_is (lit "alpha") (Some (lit "one"));
      get_is (lit "bravo") (Some (lit "two")))) slow_empty)
].

(** * [io/direct.rs] *)

(** A descriptor with [O_DIRECT] on blocks of 512 bytes; [open(2)] creates, and
    [fallocate(2)] appends zeros. *)
#[local] Instance temp_direct : DirectCalls Z slow_disk := o_direct 512 _.
#[local] Instance temp_open : OpenCalls Z slow_disk := {|
  o_open := λ opts p, if oo_create opts then p_open_create p else p_open_read p;
  o_fallocate := λ f n, w ← st_get; size ← st_lift (k_len f w); write_all_at (Z.to_nat n) f (zeros (n - size)) size |}.

Definition temp_file : path := of_string "/tmp/paddock/direct".

(** A test of a fresh file and a buffer of 4096 bytes. *)
Definition with_direct (body : DirectFile Z → AlignedBuf → st slow_disk ()) : outcome () := run (
  file ← st_unwrap (direct_create temp_file);
  buf ← st_lift (run (new_buf 4096) heap_new);
  body file buf) slow_empty.

Definition direct_tests : list test := [
  Test "alignment_checks_reject_unaligned_offset" (with_direct (λ file buf,
    w ← st_get;
    err ← st_lift (unwrap_err (run (read_at_aligned file 1 w) buf));
    st_lift (assert_that (is_io err))));
  Test "alignment_checks_reject_unaligned_length" (with_direct (λ file buf,
    file ← st_lift (direct_set_block_size 8192 file);
    w ← st_get;
    err ← st_lift (unwrap_err (run (read_at_aligned file 0 w) buf));
    st_lift (assert_that (is_io err))));
  Test "write_then_read_round_trips" (with_direct (λ file back,
    let out := fill_buf ((λ i, i mod 256) <$> upto 4096) back in
    _ ← st_unwrap (write_at_aligned file out 0);
    _ ← st_unwrap (direct_fdatasync file);
    w ← st_get;
    let '(r, back) := read_at_aligned file 0 w back in
    _ ← st_lift (unwrap r);
    st_lift (assert_eq (buf_as_slice back) (buf_as_slice out))));
  Test "fallocate_extends_file" (with_direct (λ file _,
    _ ← st_unwrap (direct_fallocate file (64 * 1024));
    w ← st_get;
    size ← st_lift (unwrap (k_len (direct_as_file file) w));
    st_lift (assert_eq size (64 * 1024))))
].

(** * [io/mmap.rs] *)

(** A test of the map of a file with the given contents. *)
Definition with_map (d : bytes) (body : Mmap → st (slow_disk * address_space) ()) : outcome () := run (
  _ ← on_fst (f ← p_open_create temp_file; st_unwrap (write_all_at (length d) f d 0));
  m ← st_unwrap (mmap_open (F := Z) temp_file);
  body m) (slow_empty, space_new).

Definition slice_is (m : Mmap) (expected : bytes) : st (slow_disk * address_space) () := λ s,
  (b ← as_slice m s; assert_eq b expected, s).

Definition mmap_tests : list test := [
  Test "open_and_read_full_file" (with_map (lit "PaddockKV mmap test payload") (λ m,
    _ ← st_lift (assert_eq (mmap_len m) 27);
    slice_is m (lit "PaddockKV mmap test payload")));
  Test "deref_to_slice_works" (with_map (lit "hello") (λ m, slice_is m (lit "hello")));
  Test "advise_random_is_accepted" (with_map (zeros 8192) (λ m,
    _ ← st_unwrap (advise m AdviceRandom);
    st_unwrap (advise m AdviceWillNeed)));
  Test "advise_range_rejects_oversized_request" (with_map (zeros 4096) (λ m s,
    (err ← unwrap_err (run (advise_range m AdviceDontNeed 0 8192) s); assert_that (is_io err), s)));
  Test "empty_file_is_rejected" (run (
    _ ← on_fst (p_open_create temp_file);
    s ← st_get;
    err ← st_lift (unwrap_err (run (mmap_open (F := Z) temp_file) s));
    st_lift (assert_that (is_io err))) (slow_empty, space_new))
].

(** * [io/uring.rs] *)

Definition pop_one : st toy_ring Completion :=
  c ← pop_completion;
  st_lift (expect c).

(** [while let Some(c) = ring.pop_completion()]. *)
Fixpoint pop_tags (fuel : nat) (tags : list Z) : st toy_ring (list Z) :=
  match fuel with
  | O => st_lift OutOfFuel
  | S fuel =>
      c ← pop_completion;
      match c with
      | None => mret tags
      | Some c => _ ← st_lift (assert_that (completion_ok c)); pop_tags fuel (tags ++ [c_user_data c])
      end
  end.

(** A page of zeros in memory, and some descriptor. *)
Definition page : Z * bytes := (PAGE_SIZE, zeros 4096).

Definition uring_tests (fd : Z) : list test := [
  Test "new_constructs_a_ring" (run (
    ring ← st_get;
    st_lift (assert_eq (pending_submissions ring) 0)) toy_empty);
  Test "write_and_complete_round_trip" (run (
    _ ← st_unwrap (push_write fd page 0 0x42);
    submitted ← st_unwrap (submit_and_wait 1);
    _ ← st_lift (assert_eq submitted 1);
    c ← pop_one;
    _ ← st_lift (assert_eq (c_user_data c) 0x42);
    st_lift (assert_eq (transferred c) (Some 4096))) toy_empty);
  Test "fdatasync_returns_a_completion" (run (
    _ ← st_unwrap (push_fdatasync fd 0xCC);
    _ ← st_unwrap (submit_and_wait 1);
    c ← pop_one;
    _ ← st_lift (assert_eq (c_user_data c) 0xCC);
    st_lift (assert_that (completion_ok c))) toy_empty);
  Test "linked_write_then_fdatasync_yields_two_completions" (run (
    _ ← st_unwrap (push_linked_write_then_fdatasync fd page 0 1 2);
    _ ← st_unwrap (submit_and_wait 2);
    tags ← pop_tags 10 [];
    st_lift (assert_eq (merge_sort Z.le tags) [1; 2])) toy_empty)
].

(** * The tests pass *)

Lemma mem_vfs_tests_pass : all_pass mem_vfs_tests = true.
Proof. evaluate. Qed.

Lemma aligned_buf_tests_pass : all_pass aligned_buf_tests = true.
Proof. evaluate. Qed.

Lemma linux_vfs_tests_pass : all_pass linux_vfs_tests = true.
Proof. evaluate. Qed.

Lemma direct_tests_pass : all_pass direct_tests = true.
Proof. evaluate. Qed.

Lemma mmap_tests_pass : all_pass mmap_tests = true.
Proof. evaluate. Qed.

Lemma uring_tests_pass fd : all_pass (uring_tests fd) = true.
Proof. evaluate. Qed.
