(* ===== verification/EngineSteps.v ===== *)
(** What the operations of [crates/paddock-core/src/engine.rs] leave alone.

    [steps R m]: whatever [m] returns, an error included, the databases before
    and behind it are related by [R].  The rules follow the [do] blocks; two
    relations are used, on the sequence number and on the memtables. *)

From S2P Require Import Prelude Varint Checksum Vfs VfsLaws WalBatch WalFormat WalLayout WalWriter.
From S2P Require Import WalReader Bloom SstFormat Block Crypto SstWriter SstReader Frames FileNames.
From S2P Require Import InternalKey Arena SkipList Merger Versions SstTable Compact RangeIter Engine.

(** * The rules *)

Section Steps.
Context {F W : Type} (R : Db F → Db F → Prop) `{!PreOrder R}.

Definition steps {A} (m : st (Db F * W) A) : Prop := ∀ s, R s.1 (m s).2.1.

Lemma steps_ret {A} (a : A) : steps (mret a).
Proof. intros s. cbn. reflexivity. Qed.

Lemma steps_lift {A} (o : outcome A) : steps (st_lift o).
Proof. intros s. cbn. reflexivity. Qed.

Lemma steps_get : steps st_get.
Proof. intros s. cbn. reflexivity. Qed.

Lemma steps_bind {A B} (m : st (Db F * W) A) (f : A → st (Db F * W) B) :
  steps m → (∀ a, steps (f a)) → steps (m ≫= f).
Proof.
  intros Hm Hf s. unfold mbind, st_bind. specialize (Hm s). destruct (m s) as [[a|e| |] s']; try done.
  etrans; [exact Hm|apply Hf].
Qed.

Lemma steps_modify (f : Db F → Db F) : (∀ db, R db (f db)) → steps (on_fst (st_modify f)).
Proof. intros Hf [db w]. apply Hf. Qed.

Lemma steps_on_snd {A} (m : st W A) : steps (on_snd m).
Proof. intros [db w]. unfold on_snd. cbn. destruct (m w). cbn. reflexivity. Qed.

Lemma steps_on_wal {A} (m : st (SegmentWriter F * W) A) :
  (∀ wal db, R db (db_set_ctx (wc_set_wal wal (db_ctx db)) db)) → steps (on_wal m).
Proof. intros HR [db w]. unfold on_wal. destruct (m _) as [r [wal w']]. apply HR. Qed.

Lemma steps_on_active {A} (m : st SkipList A) :
  (∀ mem db, R db (db_set_state (es_set_active mem (db_state db)) db)) → steps (on_active m).
Proof. intros HR [db w]. unfold on_active. destruct (m _) as [r mem]. apply HR. Qed.

Lemma steps_try_remove `{Vfs F W} p : steps (try_remove p).
Proof. intros [db w]. unfold try_remove. destruct (remove p w) as [[]]; cbn; reflexivity. Qed.
End Steps.

Create HintDb steps.
#[export] Hint Extern 1 (steps _ _) =>
  first [apply steps_ret | apply steps_lift | apply steps_get | apply steps_on_snd | apply steps_try_remove];
  apply _ : steps.

(** Follows a [do] block; what is left are the changes of the database. *)
Ltac steps :=
  repeat match goal with
  | |- steps _ (_ ≫= _) => apply steps_bind; [apply _| |intros ?]
  | |- steps _ (on_fst (st_modify _)) => apply steps_modify; intros ?; try done
  | |- steps _ (on_wal _) => apply steps_on_wal; intros ? ?; try done
  | |- steps _ (on_active _) => apply steps_on_active; intros ? ?; try done
  | |- steps _ (let '(_, _) := ?x in _) => destruct x
  | |- steps _ (if ?x then _ else _) => destruct x
  | |- steps _ (match ?x with _ => _ end) => destruct x
  end; auto with steps.

(** * The sequence number *)

(** Only a commit takes one. *)
Definition same_seqno {F} (db db' : Db F) : Prop := db_seqno db' = db_seqno db.

#[global] Instance same_seqno_preorder {F} : PreOrder (@same_seqno F).
Proof. split; [done|]. unfold same_seqno. intros a b c -> ->. done. Qed.

Section Seqno.
Context `{Crc32c} `{Xxh3} `{AesGcm} `{Hkdf} {F W : Type} `{Vfs F W}.

Abbreviation keeps m := (steps (W := W) (same_seqno (F := F)) m).

Lemma keeps_reserve : keeps reserve_file_number.
Proof. unfold reserve_file_number. steps. Qed.
#[local] Hint Resolve keeps_reserve : steps.

Lemma keeps_rotate : keeps rotate_memtable_locked.
Proof. unfold rotate_memtable_locked. steps. Qed.
#[local] Hint Resolve keeps_rotate : steps.

Lemma keeps_flush_one im : keeps (flush_one im).
Proof. unfold flush_one, write_memtable. steps. Qed.
#[local] Hint Resolve keeps_flush_one : steps.

Lemma keeps_flush_loop fuel : keeps (flush_loop fuel).
Proof. induction fuel; cbn [flush_loop]; steps. Qed.
#[local] Hint Resolve keeps_flush_loop : steps.

Lemma keeps_flush : keeps flush.
Proof. unfold flush. steps. Qed.

Lemma keeps_remove_inputs dir inputs : keeps (remove_inputs dir inputs).
Proof. induction inputs; cbn [remove_inputs]; steps. Qed.
#[local] Hint Resolve keeps_remove_inputs : steps.

Lemma keeps_compact fuel : keeps (compact_all fuel).
Proof. unfold compact_all, compact_run, compact_publish. steps. Qed.

Lemma commit_seqno batch (s : Db F * W) :
  db_seqno s.1 + 1 < 2 ^ 64 → 0 ≤ db_seqno s.1 → db_seqno (commit_batch batch s).2.1 = db_seqno s.1 + 1.
Proof.
  intros Hs Hpos. destruct s as [db w]. unfold commit_batch. rewrite run_get. cbn [fst] in *.
  erewrite run_bind by reflexivity. match goal with |- db_seqno (?m ?s).2.1 = _ => assert (keeps m) as Hk end.
  { steps. }
  specialize (Hk (db_set_seqno (u64 (db_seqno db + 1)) db, w)). unfold same_seqno in Hk. cbn [fst] in Hk.
  etrans; [exact Hk|]. cbn. unfold u64. by rewrite Z.mod_small by lia.
Qed.
End Seqno.

(** * The memtables *)

(** The active memtable and its account are the same, and the queue has lost
    some memtables at most. *)
Record fewer_memtables {F} (db db' : Db F) : Prop := {
  fm_config : db_config db' = db_config db;
  fm_active : active_memtable (db_state db') = active_memtable (db_state db);
  fm_bytes : wc_active_memtable_bytes (db_ctx db') = wc_active_memtable_bytes (db_ctx db);
  fm_queue : immutable_memtables (db_state db') ⊆ immutable_memtables (db_state db)
}.

#[global] Instance fewer_memtables_preorder {F} : PreOrder (@fewer_memtables F).
Proof. split; [by intros db; split|]. intros a b c [] []. split; [congruence..|set_solver]. Qed.

Section Memtables.
Context `{Crc32c} `{Xxh3} `{AesGcm} `{Hkdf} {F W : Type} `{Vfs F W}.

Abbreviation shrinks m := (steps (W := W) (fewer_memtables (F := F)) m).

Lemma shrinks_reserve : shrinks reserve_file_number.
Proof. unfold reserve_file_number. steps. Qed.
#[local] Hint Resolve shrinks_reserve : steps.

Lemma shrinks_flush_one im : shrinks (flush_one im).
Proof.
  unfold flush_one, write_memtable. steps. split; [done..|]. cbn. intros x. rewrite list_elem_of_filter. by intros [].
Qed.
#[local] Hint Resolve shrinks_flush_one : steps.

Lemma shrinks_flush_loop fuel : shrinks (flush_loop fuel).
Proof. induction fuel; cbn [flush_loop]; steps. Qed.

Lemma shrinks_remove_inputs dir inputs : shrinks (remove_inputs dir inputs).
Proof. induction inputs; cbn [remove_inputs]; steps. Qed.
#[local] Hint Resolve shrinks_remove_inputs : steps.

Lemma shrinks_compact fuel : shrinks (compact_all fuel).
Proof. unfold compact_all, compact_run, compact_publish. steps. Qed.
End Memtables.
