(* ===== verification/EngineInv.v ===== *)
(** What the engine maintains ([crates/paddock-core/src/engine.rs]).

    The abstract database is a history.  [db_inv] relates a database to its
    history, in memory and on disk: the memtables and the tables represent it;
    the log segments and the table files that are named represent it too, so
    that opening the directory again finds it; numbers not handed out are free;
    and a queued memtable holds whatever its log segment records. *)

From S2P Require Import Prelude Varint Checksum Vfs VfsLaws WalBatch WalFormat WalLayout WalWriter.
From S2P Require Import WalReader Bloom SstFormat Block Crypto SstWriter SstReader Frames FileNames.
From S2P Require Import InternalKey Arena SkipList Merger Versions History SstTable Compact RangeIter Engine.

(** * Memtables *)

Definition mem_ok (m : SkipList) (l : list MemEntry) : Prop := ∃ ps, sl_rep m ps l.

Lemma mem_ok_memtable_of m l : mem_ok m l → memtable_of m l.
Proof. intros [ps Hrep]. exists ps. eexists. apply Hrep. Qed.

Definition op_entry (seqno : Z) (op : Op) : MemEntry :=
  match op with
  | Put key value => entry_for key value seqno NodePut
  | Delete key => entry_for key [] seqno NodeTombstone
  end.

Definition mem_apply (seqno : Z) (ops : list Op) (l : list MemEntry) : list MemEntry :=
  foldl (λ l op, mem_insert (op_entry seqno op) l) l ops.

Lemma op_fits_insert op :
  op_fits op → match op with Put key value => insert_fits key value | Delete key => insert_fits key [] end.
Proof. destruct op; unfold op_fits, insert_fits, is_u32; cbn; lia. Qed.

Lemma apply_ops_ok seqno ops m l :
  mem_ok m l → Forall op_fits ops →
  ∃ m', apply_ops seqno ops m = (Ok tt, m') ∧ mem_ok m' (mem_apply seqno ops l).
Proof.
  intros Hm Hops. revert m l Hm. induction Hops as [|op ops Hop%op_fits_insert _ IH]; intros m l [ps Hrep].
  { by exists m; split; [|exists ps]. }
  destruct op as [key value|key]; cbn [apply_ops];
    edestruct (skiplist_insert_ok m ps l key) as (new & m1 & ps1 & E & Hrep1); try done;
    rewrite (run_bind _ _ _ _ _ E); apply IH; by exists ps1.
Qed.

Lemma mem_record_entry seqno op : mem_record (op_entry seqno op) = op_version seqno op.
Proof. by destruct op. Qed.

(** An insertion is seen as the newest of its version. *)
Lemma mem_insert_filter e l k s :
  filter (same_ver k s) (mem_record <$> mem_insert e l) = filter (same_ver k s) (mem_record e :: (mem_record <$> l)).
Proof.
  induction l as [|x l IH]; [done|]. cbn [mem_insert]. destruct (entry_before _ _ x) eqn:E; [|done].
  rewrite !fmap_cons. rewrite (filter_cons _ (mem_record x)), IH, !filter_cons.
  destruct (decide (same_ver k s (mem_record x))) as [[Ek Es]|]; [|by destruct (decide _)].
  destruct (decide (same_ver k s (mem_record e))) as [[Ek' Es']|]; [|done].
  cbn in Ek, Es, Ek', Es'. unfold entry_before in E. by rewrite Ek, Es, Ek', Es', cik_refl in E.
Qed.

Lemma mem_apply_vers seqno ops l :
  same_source (mem_record <$> mem_apply seqno ops l) (reverse (op_version seqno <$> ops) ++ (mem_record <$> l)).
Proof.
  revert l. induction ops as [|op ops IH]; intros l; [done|].
  cbn [mem_apply foldl]. fold (mem_apply seqno ops (mem_insert (op_entry seqno op) l)). rewrite IH.
  rewrite fmap_cons, reverse_cons, <-app_assoc. cbn [app]. rewrite <-mem_record_entry.
  apply same_source_app; [done|]. split; [intros key s; unfold first_ver; by rewrite mem_insert_filter|].
  intros v. by rewrite mem_insert_perm.
Qed.

Lemma mem_insert_in e l x : x ∈ mem_insert e l → x = e ∨ x ∈ l.
Proof.
  induction l as [|y l IH]; cbn [mem_insert]; [by intros ?%list_elem_of_singleton; left|].
  destruct (entry_before _ _ y).
  - intros [->|Hx]%elem_of_cons; [right; left|]. destruct (IH Hx) as [->|]; [by left|]. right. by right.
  - intros [->|Hx]%elem_of_cons; [by left|by right].
Qed.

Lemma mem_apply_in seqno ops l x :
  x ∈ mem_apply seqno ops l → x ∈ l ∨ ∃ op, op ∈ ops ∧ x = op_entry seqno op.
Proof.
  revert l. induction ops as [|op ops IH]; intros l; cbn; [by left|].
  intros [Hx|(op' & Hop & ->)]%IH; [|right; exists op'; split; [by right|done]].
  apply mem_insert_in in Hx as [->|Hx]; [|by left]. right. exists op. split; [left|done].
Qed.

(** * Sources in order of age *)

Definition newer_than (s t : list (bytes * LookupHit)) : Prop :=
  ∀ a b, a ∈ s → b ∈ t → hit_seqno b.2 ≤ hit_seqno a.2.

Definition by_age (srcs : list (list (bytes * LookupHit))) : Prop := StronglySorted newer_than srcs.

(** The read path: the first source with a visible version. *)
Fixpoint first_hit (srcs : list (list (bytes * LookupHit))) (key : bytes) (snapshot : Z) : option LookupHit :=
  match srcs with
  | [] => None
  | s :: srcs =>
      match newest s key snapshot with
      | Some h => Some h
      | None => first_hit srcs key snapshot
      end
  end.

(** For one key its own versions have to be in order. *)
Definition newer_for (key : bytes) (s t : list (bytes * LookupHit)) : Prop :=
  ∀ h h', (key, h) ∈ s → (key, h') ∈ t → hit_seqno h' ≤ hit_seqno h.

Definition aged_for (key : bytes) (srcs : list (list (bytes * LookupHit))) : Prop :=
  StronglySorted (newer_for key) srcs.

Definition newer_forb (key : bytes) (s t : list (bytes * LookupHit)) : bool :=
  forallb (λ a, forallb (λ b, negb (bool_decide (a.1 = key ∧ b.1 = key)) || (hit_seqno b.2 <=? hit_seqno a.2)) t) s.

Fixpoint aged_forb (key : bytes) (srcs : list (list (bytes * LookupHit))) : bool :=
  match srcs with
  | [] => true
  | s :: srcs => forallb (newer_forb key s) srcs && aged_forb key srcs
  end.

Lemma newer_forb_true key s t : newer_forb key s t = true → newer_for key s t.
Proof.
  intros Hb h h' Hh%list_elem_of_In Hh'%list_elem_of_In.
  pose proof (proj1 (forallb_forall _ _) (proj1 (forallb_forall _ _) Hb _ Hh) _ Hh') as Hle. cbn in Hle.
  rewrite bool_decide_eq_true_2 in Hle by done. by apply Z.leb_le.
Qed.

Lemma aged_forb_true key srcs : aged_forb key srcs = true → aged_for key srcs.
Proof.
  induction srcs as [|s srcs IH]; [constructor|]. intros [Hs Hr]%andb_true_iff. constructor; [by apply IH|].
  apply Forall_forall. intros t Ht%list_elem_of_In. apply newer_forb_true. exact (proj1 (forallb_forall _ _) Hs t Ht).
Qed.

Lemma by_age_for key srcs : by_age srcs → aged_for key srcs.
Proof.
  induction 1 as [|s srcs _ IH Hs]; constructor; [done|]. eapply Forall_impl; [exact Hs|].
  intros t Ht h h' Hh Hh'. exact (Ht _ _ Hh Hh').
Qed.

Lemma first_hit_newest srcs key snapshot :
  aged_for key srcs → first_hit srcs key snapshot = newest (concat srcs) key snapshot.
Proof.
  induction 1 as [|s srcs _ IH Hs]; [done|]. cbn [first_hit concat]. rewrite newest_app, IH.
  destruct (newest s key snapshot) as [h|] eqn:E; [|done].
  destruct (newest (concat srcs) key snapshot) as [h'|] eqn:E'; [|done]. cbn. case_bool; [exfalso|done].
  apply newest_in in E as [Hin _], E' as [Hin' _].
  apply list_elem_of_In, in_concat in Hin' as (t & Ht%list_elem_of_In & Hin'%list_elem_of_In).
  rewrite Forall_forall in Hs. pose proof (Hs t Ht _ _ Hin Hin') as Hle. lia.
Qed.

(** * The invariant *)

(** The sizes of records that a table of the format can hold. *)
Definition op_small (op : Op) : Prop := record_small (flush_record (op_entry 0 op)).

Definition mem_small (l : list MemEntry) : Prop := Forall (λ e, record_small (flush_record e)) l.

(** What the log may record; the next sequence number must exist too. *)
Definition commit_ok (c : Z * WriteBatch) : Prop :=
  0 ≤ c.1 < U64_MAX ∧ batch_fits c.2 ∧ Forall op_small (ops c.2).

Definition wire_commit (c : Z * WriteBatch) : Z * bytes := (c.1, wire_batch c.2).

Section Inv.
Context `{Crc32cLaws} `{Xxh3} `{AesGcmLaws} `{HkdfLaws} {F W : Type} `{VfsLaws F W} `{!ReliableReads F W}.

Definition db_memtables (db : Db F) : list SkipList :=
  active_memtable (db_state db) :: (im_memtable <$> immutable_memtables (db_state db)).

Definition db_readers (db : Db F) : list (SstReader F) := ls_reader <$> sstables (db_state db).

Definition db_wal (db : Db F) : SegmentWriter F := wc_wal (db_ctx db).

Definition db_next (db : Db F) : Z := wc_next_file_number (db_ctx db).

(** The log segments of the memtables, the active one first. *)
Definition db_wal_ids (db : Db F) : list Z :=
  wc_wal_segment_id (db_ctx db) :: (im_wal_segment_id <$> immutable_memtables (db_state db)).

Definition wal_named (dir : string) (w : W) (n : Z) : option F := named w (wal_segment_path dir n).
Definition sst_named (dir : string) (w : W) (n : Z) : option F := named w (sst_path dir n).

(** ** In memory *)

(** What reads depend on.  It holds after failed operations too. *)
Record db_content (db : Db F) (w : W) (ls : list (list MemEntry)) (tables : list (list BlockRecord)) : Prop := {
  dc_mems : Forall2 mem_ok (db_memtables db) ls;
  dc_tables : tables_of w (db_readers db) tables
}.

(** The files: numbers not handed out are free, and the log is not a table. *)
Record db_files (db : Db F) (w : W) : Prop := {
  df_ok : vfs_ok w;
  df_dir : dir_ok F W (db_data_dir db);
  df_next : 0 ≤ db_next db;
  df_free n : db_next db ≤ n → is_u64 n →
    sst_named (db_data_dir db) w n = None ∧ wal_named (db_data_dir db) w n = None;
  df_wal : live w (file (db_wal db));
  df_apart : Forall (λ r, tr_file r ≠ file (db_wal db)) (db_readers db)
}.

(** The numbers: live tables and queued logs have numbers of their own. *)
Record db_numbers (db : Db F) : Prop := {
  dn_ssts : NoDup (ls_id <$> sstables (db_state db));
  dn_ssts_lt : Forall (λ n, 0 ≤ n < db_next db) (ls_id <$> sstables (db_state db));
  dn_wals : NoDup (db_wal_ids db);
  dn_wals_lt : Forall (λ n, 0 ≤ n < db_next db) (db_wal_ids db)
}.

Record db_core (db : Db F) (w : W) (ls : list (list MemEntry)) (tables : list (list BlockRecord)) : Prop := {
  co_content : db_content db w ls tables;
  co_files : db_files db w;
  co_numbers : db_numbers db;
  co_seqno : is_u64 (db_seqno db);
  co_small : Forall mem_small ls
}.

(** ** On disk *)

(** A log segment that records the commits [log], and perhaps the beginning of
    a record that was being written when the machine stopped. *)
Record log_file (w : W) (f : F) (id : Z) (log : list (Z * WriteBatch)) : Prop := {
  lf_commits : Forall commit_ok log;
  lf_size : is_u64 (len (contents f w));
  lf_bytes : ∃ first area rest, is_u64 first ∧ Forall record_ok rest ∧
    contents f w = segment_header_as_bytes (segment_header_new_signed id first) ++ area ∧
    area `prefix_of` records_bytes 0 ((wire_commit <$> log) ++ rest) ∧
    complete_records 0 ((wire_commit <$> log) ++ rest) (len area) = wire_commit <$> log
}.

(** A table of the records [rs], under the key of its number. *)
Record table_file (config : DbConfig) (w : W) (f : F) (id : Z) (rs : list BlockRecord) : Prop := {
  tf_image : ∃ crypto, engine_crypto config id = Ok crypto ∧ table_image crypto AlgCrc32c rs (contents f w);
  tf_small : Forall record_small rs;
  tf_keys : keys_size rs < 2 ^ 30;
  tf_sorted : StronglySorted ver_le rs
}.

(** The files of a directory, with what they hold: [log n] in segment [n] and
    [tab n] in table [n].  Each holds a part of the history, together they hold
    all of it, and no other file has a name that the engine would take for one
    of its own. *)
Record disk_ok (dir : string) (config : DbConfig) (w : W) (hist : list version)
    (log : Z → list (Z * WriteBatch)) (tab : Z → list BlockRecord) : Prop := {
  dk_logs n f : is_u64 n → wal_named dir w n = Some f →
    log_file w f n (log n) ∧ sub_history (log_history (log n)) hist;
  dk_tabs n f : is_u64 n → sst_named dir w n = Some f →
    table_file config w f n (tab n) ∧ sub_history (entries (tab n)) hist;
  dk_cover key s : covers hist key s →
    (∃ n, is_u64 n ∧ is_Some (wal_named dir w n) ∧ covers (log_history (log n)) key s) ∨
    (∃ n, is_u64 n ∧ is_Some (sst_named dir w n) ∧ covers (entries (tab n)) key s);
  dk_names name n : is_Some (named w (dir +:+ "/" +:+ name)) →
    (parse_wal_segment_name name = Some n → name = wal_segment_name n) ∧
    (parse_sst_name name = Some n → name = sst_name n)
}.

(** How memory and disk go together. *)
Record db_links (db : Db F) (w : W) (ls : list (list MemEntry)) (tables : list (list BlockRecord))
    (log : Z → list (Z * WriteBatch)) (tab : Z → list BlockRecord) : Prop := {
  dl_wal : wal_named (db_data_dir db) w (wc_wal_segment_id (db_ctx db)) = Some (file (db_wal db));
  dl_mems : Forall2 (λ id l, ∀ key s, covers (log_history (log id)) key s → covers (mem_records l) key s)
    (db_wal_ids db) ls;
  dl_tables : Forall2 (λ id rs, tab id = rs) (ls_id <$> sstables (db_state db)) tables
}.

(** The log writer is in step with its segment, which has no torn end. *)
Definition log_open (db : Db F) (w : W) (log : Z → list (Z * WriteBatch)) : Prop :=
  let id := wc_wal_segment_id (db_ctx db) in
  ∃ first, is_u64 first ∧ writer_ok (segment_header_as_bytes (segment_header_new_signed id first))
    (records_bytes 0 (wire_commit <$> log id)) (db_wal db, w).

(** ** The whole *)

Record db_inv (db : Db F) (w : W) (hist : list version) (ls : list (list MemEntry))
    (tables : list (list BlockRecord)) : Prop := {
  dv_core : db_core db w ls tables;
  dv_bound : Forall (λ v, 0 ≤ hit_seqno v.2 ≤ db_seqno db) hist;
  dv_rep : represents (sources_of ls tables) hist;
  dv_disk : ∃ log tab, disk_ok (db_data_dir db) (db_config db) w hist log tab ∧
    db_links db w ls tables log tab ∧ log_open db w log
}.
End Inv.
