(* ===== verification/EngineDisk.v ===== *)
(** What the operations of [crates/paddock-core/src/engine.rs] do to the files:
    a commit appends to one segment, rotation and flush add files under fresh
    numbers, flush and compaction unlink files whose versions are elsewhere.
    Each keeps the directory's files a representation of the history. *)

From stdpp Require Import functions.
From S2P Require Import Prelude Varint Checksum Vfs VfsLaws WalBatch WalFormat WalLayout WalWriter.
From S2P Require Import WalReader Bloom SstFormat Block Crypto SstWriter SstReader Frames FileNames.
From S2P Require Import InternalKey Arena SkipList Merger Versions History SstTable Compact RangeIter Engine.
From S2P Require Import EngineInv.

Section Disk.
Context `{Crc32cLaws} `{Xxh3} `{AesGcmLaws} `{HkdfLaws} {F W : Type} `{VfsLaws F W} `{!ReliableReads F W}.
Context (dir : string) (config : DbConfig).

(** [p] may be gone from [w'], and nothing else changed. *)
Definition unlinked (p : string) (w w' : W) : Prop :=
  only_names (F := F) p w w' ∧ (named (F := F) w' p = None ∨ named (F := F) w' p = named w p).

Lemma log_file_frame (w w' : W) (f : F) id log :
  contents f w' = contents f w → log_file w f id log → log_file w' f id log.
Proof. intros E [? ? (first & ?)]. split; [done|by rewrite E|]. exists first. by rewrite E. Qed.

Lemma table_file_frame (w w' : W) (f : F) id rs :
  contents f w' = contents f w → table_file config w f id rs → table_file config w' f id rs.
Proof. intros E [(crypto & ? & ?) ? ? ?]. split; [|done..]. exists crypto. by rewrite E. Qed.

(** ** Names *)

Definition names_ok (w : W) : Prop := ∀ name n, is_Some (named (F := F) w (dir +:+ "/" +:+ name)) →
  (parse_wal_segment_name name = Some n → name = wal_segment_name n) ∧
  (parse_sst_name name = Some n → name = sst_name n).

Lemma names_ok_wal n (w w' : W) :
  is_u64 n → only_names (F := F) (wal_segment_path dir n) w w' → names_ok w → names_ok w'.
Proof.
  intros Hn Ho Hok name m Hnamed.
  destruct (decide (dir +:+ "/" +:+ name = wal_segment_path dir n)) as [->%path_inj|Hne].
  - rewrite wal_not_sst, parse_wal_roundtrip by done. split; [by intros [= ->]|done].
  - apply Hok. by rewrite <-(on_named _ _ _ Ho).
Qed.

Lemma names_ok_sst n (w w' : W) :
  is_u64 n → only_names (F := F) (sst_path dir n) w w' → names_ok w → names_ok w'.
Proof.
  intros Hn Ho Hok name m Hnamed.
  destruct (decide (dir +:+ "/" +:+ name = sst_path dir n)) as [->%path_inj|Hne].
  - rewrite sst_not_wal, parse_sst_roundtrip by done. split; [done|by intros [= ->]].
  - apply Hok. by rewrite <-(on_named _ _ _ Ho).
Qed.

(** A change of one name leaves the files of the others. *)
Lemma wal_named_other p n (w w' : W) :
  only_names (F := F) p w w' → wal_segment_path dir n ≠ p → wal_named (F := F) dir w' n = wal_named dir w n.
Proof. intros Ho Hp. apply (on_named _ _ _ Ho). done. Qed.

Lemma sst_named_other p n (w w' : W) :
  only_names (F := F) p w w' → sst_path dir n ≠ p → sst_named (F := F) dir w' n = sst_named dir w n.
Proof. intros Ho Hp. apply (on_named _ _ _ Ho). done. Qed.

Lemma named_contents p q (w w' : W) (f : F) :
  only_names p w w' → vfs_ok w → named w q = Some f → contents f w' = contents f w.
Proof. intros Ho Hok Hq. apply (on_contents _ _ _ Ho). by eapply named_live. Qed.

(** A state with the same files. *)
Lemma disk_same (w w' : W) hist log tab :
  (∀ p, named (F := F) w' p = named w p) → (∀ f : F, contents f w' = contents f w) →
  disk_ok dir config w hist log tab → disk_ok dir config w' hist log tab.
Proof.
  intros Hn Hc [Hlogs Htabs Hcov Hnames]. unfold wal_named, sst_named in *. split; unfold wal_named, sst_named.
  - intros n f Hid. rewrite Hn. intros Hf. destruct (Hlogs n f Hid Hf). split; [eapply log_file_frame; [apply Hc|done]|done].
  - intros n f Hid. rewrite Hn. intros Hf. destruct (Htabs n f Hid Hf). split; [eapply table_file_frame; [apply Hc|done]|done].
  - intros key s [(n & Hk)|(n & Hk)]%Hcov; [left|right]; exists n; by rewrite Hn.
  - intros name n. rewrite Hn. apply Hnames.
Qed.

(** ** A commit *)

Lemma disk_commit id f seqno batch (w w' : W) hist log tab :
  vfs_ok w → only_writes f w w' → is_u64 id → wal_named dir w id = Some f →
  log_file w' f id (log id ++ [(seqno, batch)]) → newer_part (batch_versions seqno batch) hist →
  disk_ok dir config w hist log tab →
  disk_ok dir config w' (commit_history seqno batch hist) (<[id := log id ++ [(seqno, batch)]]> log) tab.
Proof.
  intros Hok Ho Hid Hf Hlog Hnew [Hlogs Htabs Hcov Hnames].
  assert (∀ n, wal_named (F := F) dir w' n = wal_named dir w n) as Ewal by (intros n; apply (ow_named _ _ _ Ho)).
  assert (∀ n, sst_named (F := F) dir w' n = sst_named dir w n) as Esst by (intros n; apply (ow_named _ _ _ Ho)).
  split.
  - intros n g Hn Hg. rewrite Ewal in Hg. destruct (Hlogs n g Hn Hg) as [Hl Hsub].
    destruct (decide (n = id)) as [->|Hne].
    + rewrite fn_lookup_insert. assert (g = f) as -> by congruence. split; [done|].
      rewrite log_history_snoc. apply sub_history_app; [apply sub_history_new|by apply sub_history_grow].
    + rewrite fn_lookup_insert_ne by done. split; [|by apply sub_history_grow].
      eapply log_file_frame; [|done]. apply (ow_frame _ _ _ Ho). intros <-.
      apply Hne. apply (wal_path_inj dir); [done..|]. by eapply named_inj.
  - intros n g Hn Hg. rewrite Esst in Hg. destruct (Htabs n g Hn Hg) as [Hl Hsub].
    split; [|by apply sub_history_grow]. eapply table_file_frame; [|done]. apply (ow_frame _ _ _ Ho). intros <-.
    apply (sst_wal_path_ne dir n id Hn). by eapply named_inj.
  - intros key s [Hc|Hc]%covers_app.
    + left. exists id. rewrite fn_lookup_insert, Ewal, Hf. split_and!; [done|by eexists|].
      rewrite log_history_snoc. apply covers_app. by left.
    + destruct (Hcov key s Hc) as [(n & Hn & Hs & Hcn)|(n & Hn & Hs & Hcn)].
      * left. exists n. rewrite Ewal. split_and!; [done..|]. destruct (decide (n = id)) as [->|Hne].
        -- rewrite fn_lookup_insert, log_history_snoc. apply covers_app. by right.
        -- by rewrite fn_lookup_insert_ne.
      * right. exists n. by rewrite Esst.
  - intros name n. rewrite (ow_named _ _ _ Ho). apply Hnames.
Qed.

(** The beginning of a record at the end of a segment changes nothing. *)
Lemma disk_torn id f (w w' : W) hist log tab :
  vfs_ok w → only_writes f w w' → is_u64 id → wal_named dir w id = Some f → log_file w' f id (log id) →
  disk_ok dir config w hist log tab → disk_ok dir config w' hist log tab.
Proof.
  intros Hok Ho Hid Hf Hlog [Hlogs Htabs Hcov Hnames].
  assert (∀ n, wal_named (F := F) dir w' n = wal_named dir w n) as Ewal by (intros n; apply (ow_named _ _ _ Ho)).
  assert (∀ n, sst_named (F := F) dir w' n = sst_named dir w n) as Esst by (intros n; apply (ow_named _ _ _ Ho)).
  split.
  - intros n g Hn Hg. rewrite Ewal in Hg. destruct (Hlogs n g Hn Hg) as [Hl Hsub]. split; [|done].
    destruct (decide (n = id)) as [->|Hne]; [by assert (g = f) as -> by congruence|].
    eapply log_file_frame; [|done]. apply (ow_frame _ _ _ Ho). intros <-.
    apply Hne. apply (wal_path_inj dir); [done..|]. by eapply named_inj.
  - intros n g Hn Hg. rewrite Esst in Hg. destruct (Htabs n g Hn Hg) as [Hl Hsub].
    split; [|done]. eapply table_file_frame; [|done]. apply (ow_frame _ _ _ Ho). intros <-.
    apply (sst_wal_path_ne dir n id Hn). by eapply named_inj.
  - intros key s Hc. setoid_rewrite Ewal. setoid_rewrite Esst. by apply Hcov.
  - intros name n. rewrite (ow_named _ _ _ Ho). apply Hnames.
Qed.

(** ** New files *)

Lemma disk_new_log n f (w w' : W) hist log tab :
  vfs_ok w → is_u64 n → wal_named (F := F) dir w n = None → only_names (wal_segment_path dir n) w w' →
  wal_named dir w' n = Some f → log_file w' f n [] →
  disk_ok dir config w hist log tab → disk_ok dir config w' hist (<[n := []]> log) tab.
Proof.
  intros Hok Hn Hfree Ho Hf Hlog [Hlogs Htabs Hcov Hnames].
  assert (∀ m, is_u64 m → m ≠ n → wal_named (F := F) dir w' m = wal_named dir w m) as Ewal.
  { intros m Hm Hne. eapply wal_named_other; [done|]. intros E. apply Hne. by eapply wal_path_inj. }
  assert (∀ m, is_u64 m → sst_named (F := F) dir w' m = sst_named dir w m) as Esst.
  { intros m Hm. eapply sst_named_other; [done|]. by apply sst_wal_path_ne. }
  split.
  - intros m g Hm Hg. destruct (decide (m = n)) as [->|Hne].
    + rewrite fn_lookup_insert. assert (g = f) as -> by congruence. split; [done|apply sub_history_nil].
    + rewrite fn_lookup_insert_ne, Ewal in * by done. destruct (Hlogs m g Hm Hg). split; [|done].
      eapply log_file_frame; [|done]. by eapply named_contents.
  - intros m g Hm Hg. rewrite Esst in Hg by done. destruct (Htabs m g Hm Hg). split; [|done].
    eapply table_file_frame; [|done]. by eapply named_contents.
  - intros key s Hc. destruct (Hcov key s Hc) as [(m & Hm & Hs & Hcm)|(m & Hm & Hs & Hcm)].
    + left. exists m. assert (m ≠ n) by (intros ->; rewrite Hfree in Hs; by destruct Hs).
      by rewrite Ewal, fn_lookup_insert_ne.
    + right. exists m. by rewrite Esst.
  - by eapply names_ok_wal.
Qed.

Lemma disk_new_table n f rs (w w' : W) hist log tab :
  vfs_ok w → is_u64 n → sst_named (F := F) dir w n = None → only_names (sst_path dir n) w w' →
  sst_named dir w' n = Some f → table_file config w' f n rs → sub_history (entries rs) hist →
  disk_ok dir config w hist log tab → disk_ok dir config w' hist log (<[n := rs]> tab).
Proof.
  intros Hok Hn Hfree Ho Hf Htab Hsub [Hlogs Htabs Hcov Hnames].
  assert (∀ m, is_u64 m → wal_named (F := F) dir w' m = wal_named dir w m) as Ewal.
  { intros m Hm. eapply wal_named_other; [done|]. intros E. symmetry in E. by apply sst_wal_path_ne in E. }
  assert (∀ m, is_u64 m → m ≠ n → sst_named (F := F) dir w' m = sst_named dir w m) as Esst.
  { intros m Hm Hne. eapply sst_named_other; [done|]. intros E. apply Hne. by eapply sst_path_inj. }
  split.
  - intros m g Hm Hg. rewrite Ewal in Hg by done. destruct (Hlogs m g Hm Hg). split; [|done].
    eapply log_file_frame; [|done]. by eapply named_contents.
  - intros m g Hm Hg. destruct (decide (m = n)) as [->|Hne].
    + rewrite fn_lookup_insert. assert (g = f) as -> by congruence. done.
    + rewrite fn_lookup_insert_ne, Esst in * by done. destruct (Htabs m g Hm Hg). split; [|done].
      eapply table_file_frame; [|done]. by eapply named_contents.
  - intros key s Hc. destruct (Hcov key s Hc) as [(m & Hm & Hs & Hcm)|(m & Hm & Hs & Hcm)].
    + left. exists m. by rewrite Ewal.
    + right. exists m. assert (m ≠ n) by (intros ->; rewrite Hfree in Hs; by destruct Hs).
      by rewrite Esst, fn_lookup_insert_ne.
  - by eapply names_ok_sst.
Qed.

(** ** Unlinking *)

Lemma unlinked_named p q (w w' : W) (f : F) : unlinked p w w' → named w' q = Some f → named w q = Some f.
Proof.
  intros [Ho Hp] Hq. destruct (decide (q = p)) as [->|Hne]; [destruct Hp; congruence|].
  by rewrite <-(on_named _ _ _ Ho).
Qed.

(** A file whose versions other files hold can go. *)
Lemma disk_unlinked p (w w' : W) hist log tab :
  vfs_ok w → unlinked p w w' → names_ok w' →
  (∀ key s, covers hist key s →
    (∃ n, is_u64 n ∧ is_Some (wal_named (F := F) dir w n) ∧ wal_segment_path dir n ≠ p ∧
       covers (log_history (log n)) key s) ∨
    (∃ n, is_u64 n ∧ is_Some (sst_named (F := F) dir w n) ∧ sst_path dir n ≠ p ∧ covers (entries (tab n)) key s)) →
  disk_ok dir config w hist log tab → disk_ok dir config w' hist log tab.
Proof.
  intros Hok Hu Hnames' Hcov' [Hlogs Htabs _ _]. pose proof Hu as [Ho _]. split; [| | |done].
  - intros m g Hm Hg%(unlinked_named _ _ _ _ _ Hu). destruct (Hlogs m g Hm Hg). split; [|done].
    eapply log_file_frame; [|done]. by eapply named_contents.
  - intros m g Hm Hg%(unlinked_named _ _ _ _ _ Hu). destruct (Htabs m g Hm Hg). split; [|done].
    eapply table_file_frame; [|done]. by eapply named_contents.
  - intros key s Hc. destruct (Hcov' key s Hc) as [(m & Hm & Hs & Hne & Hcm)|(m & Hm & Hs & Hne & Hcm)].
    + left. exists m. by rewrite (wal_named_other _ _ _ _ Ho Hne).
    + right. exists m. by rewrite (sst_named_other _ _ _ _ Ho Hne).
Qed.

Lemma disk_unlinked_log n (w w' : W) hist log tab :
  vfs_ok w → is_u64 n → unlinked (wal_segment_path dir n) w w' →
  (∀ key s, covers (log_history (log n)) key s → covers hist key s →
    ∃ m, is_u64 m ∧ is_Some (sst_named (F := F) dir w m) ∧ covers (entries (tab m)) key s) →
  disk_ok dir config w hist log tab → disk_ok dir config w' hist log tab.
Proof.
  intros Hok Hn Hu Hother Hd. eapply disk_unlinked; [done|done| | |done].
  { eapply names_ok_wal; [done|apply Hu|exact (dk_names _ _ _ _ _ _ Hd)]. }
  assert (∀ m, is_u64 m → sst_path dir m ≠ wal_segment_path dir n) as Hne by (intros; by apply sst_wal_path_ne).
  intros key s Hc. destruct (dk_cover _ _ _ _ _ _ Hd key s Hc) as [(m & Hm & Hs & Hcm)|(m & Hm & Hs & Hcm)].
  - destruct (decide (m = n)) as [->|Hmn].
    + right. destruct (Hother key s Hcm Hc) as (k & Hk & Hks & Hck). exists k. split_and!; auto.
    + left. exists m. split_and!; [done..| |done]. intros E. apply Hmn. by eapply wal_path_inj.
  - right. exists m. split_and!; auto.
Qed.

Lemma disk_unlinked_table n k (w w' : W) hist log tab :
  vfs_ok w → is_u64 n → unlinked (sst_path dir n) w w' → is_u64 k → k ≠ n → is_Some (sst_named (F := F) dir w k) →
  (∀ key s, covers (entries (tab n)) key s → covers (entries (tab k)) key s) →
  disk_ok dir config w hist log tab → disk_ok dir config w' hist log tab.
Proof.
  intros Hok Hn Hu Hk Hkn Hks Hother Hd. eapply disk_unlinked; [done|done| | |done].
  { eapply (names_ok_sst n); [done|apply Hu|exact (dk_names _ _ _ _ _ _ Hd)]. }
  assert (∀ m, is_u64 m → m ≠ n → sst_path dir m ≠ sst_path dir n) as Hne
    by (intros m Hm Hmn E; apply Hmn; by eapply sst_path_inj).
  intros key s Hc. destruct (dk_cover _ _ _ _ _ _ Hd key s Hc) as [(m & Hm & Hs & Hcm)|(m & Hm & Hs & Hcm)].
  - left. exists m. split_and!; [done..| |done]. intros E. symmetry in E. by apply sst_wal_path_ne in E.
  - right. destruct (decide (m = n)) as [->|Hmn]; [exists k|exists m]; split_and!; auto.
Qed.
End Disk.
