(* ===== verification/EngineReads.v ===== *)
(** The read paths of [crates/paddock-core/src/engine.rs] against the history:
    point lookups and range scans. *)

From S2P Require Import Prelude Varint Checksum Vfs VfsLaws WalBatch WalFormat WalLayout WalWriter.
From S2P Require Import WalReader Bloom SstFormat Block Crypto SstWriter SstReader Frames FileNames.
From S2P Require Import InternalKey Arena SkipList Merger Versions History SstTable Compact RangeIter.
From S2P Require Import Engine EngineInv.

(** * Memtables *)

Lemma mem_get_newest l key snapshot :
  StronglySorted entry_le l →
  newest (mem_records l) key snapshot = (λ e, (mem_record e).2) <$> mem_get l key snapshot.
Proof.
  intros Hs. rewrite newest_sorted by (by apply mem_sorted). unfold mem_get.
  clear Hs. induction l as [|e l IH]; [done|]. rewrite fmap_cons. cbn [List.find mem_record fst snd hit_seqno].
  unfold mem_visible at 1. by destruct (bytes_eqb (me_key e) key && (me_seqno e <=? snapshot)).
Qed.

Lemma mem_ok_sorted m l : mem_ok m l → StronglySorted entry_le l.
Proof. intros [ps Hrep]. apply (sr_shape _ _ _ Hrep). Qed.

Lemma mem_lookup m l key snapshot :
  mem_ok m l →
  ∃ node, skiplist_get m key snapshot = Ok node ∧
    newest (mem_records l) key snapshot = (λ e, (mem_record e).2) <$> node.
Proof.
  intros Hm. pose proof (mem_ok_sorted _ _ Hm) as Hs. destruct Hm as [ps Hrep].
  exists (mem_get l key snapshot). split; [|by apply mem_get_newest].
  eapply skiplist_get_spec. apply (sr_shape _ _ _ Hrep).
Qed.

Lemma node_value_result e : node_value e = hit_result (mem_record e).2.
Proof. by destruct e as [? ? ? []]. Qed.

Lemma get_immutables_spec key snapshot ims ls :
  Forall2 mem_ok (im_memtable <$> ims) ls →
  get_immutables key snapshot ims = Ok (hit_result <$> first_hit (mem_records <$> ls) key snapshot).
Proof.
  revert ls. induction ims as [|im ims IH]; intros ls Hls; [by apply Forall2_nil_inv_l in Hls as ->|].
  apply Forall2_cons_inv_l in Hls as (l & ls' & Hm & Hls & ->). cbn [get_immutables].
  destruct (mem_lookup _ _ key snapshot Hm) as (node & -> & Hn). cbn [mbind outcome_bind].
  rewrite fmap_cons. cbn [first_hit]. rewrite Hn. destruct node as [e|]; cbn [fmap option_fmap option_map].
  - by rewrite node_value_result.
  - by apply IH.
Qed.

(** * Tables *)

Lemma table_lookup_newest rs key snapshot :
  StronglySorted ver_le rs → newest (entries rs) key snapshot = table_lookup rs key snapshot.
Proof.
  intros Hs. rewrite newest_sorted by (by apply sorted_entries). unfold table_lookup.
  clear Hs. induction rs as [|r rs IH]; [done|]. rewrite fmap_cons. cbn [List.find entry_of fst snd into_hit hit_seqno].
  unfold visible at 1. by destruct (bytes_eqb (br_key r) key && (br_seqno r <=? snapshot)).
Qed.

Section Reads.
Context `{Crc32cLaws} `{Xxh3} `{AesGcmLaws} {F W : Type} `{VfsLaws F W} `{!ReliableReads F W}.

Lemma table_of_same r r' (w : W) rs : same_reader r r' → table_of r w rs → table_of r' w rs.
Proof.
  intros [->| ->]; [done|]. intros [(chunks & ents & [Hcat Hb Hi Hbl]) Hsize Hlive Hsmall Hsort].
  split; [|done..]. exists chunks, ents. by split.
Qed.

Lemma table_get_exact avx2 key snapshot (w : W) r rs :
  table_of r w rs → NoDup (br_key <$> rs) →
  (sst_get avx2 key snapshot w r).1 = Ok (newest (entries rs) key snapshot).
Proof.
  intros [(chunks & ents & Hr) _ _ _ Hs] Hnd. rewrite (table_lookup_newest rs key snapshot Hs).
  eapply get_exact; [exact Hr|by apply sorted_ver_keys|done].
Qed.

Lemma table_get_sound avx2 key snapshot (w : W) r rs :
  table_of r w rs →
  ∃ res, (sst_get avx2 key snapshot w r).1 = Ok res ∧
    ∀ hit, res = Some hit → (key, hit) ∈ entries rs ∧ hit_seqno hit ≤ snapshot.
Proof.
  intros [(chunks & ents & Hr) _ _ _ _]. destruct (get_sound r w rs chunks ents Hr avx2 key snapshot) as (res & E & Hres).
  exists res. split; [done|]. intros hit Hhit. destruct (Hres hit Hhit) as (x & Hx & <- & <- & Hs).
  split; [|done]. change (br_key x, into_hit x) with (entry_of x). by apply list_elem_of_fmap_2.
Qed.

(** The tables after a lookup: the same, but for their counters. *)
Definition same_ssts (ssts ssts' : list (LiveSst F)) : Prop :=
  Forall2 (λ a b, ls_id a = ls_id b ∧ same_reader (ls_reader a) (ls_reader b)) ssts ssts'.

Lemma same_ssts_refl ssts : same_ssts ssts ssts.
Proof. apply Forall_Forall2_diag, Forall_forall. intros x _. split; [done|by left]. Qed.

Lemma get_sstables_same avx2 key snapshot (w : W) ssts :
  same_ssts ssts (get_sstables avx2 key snapshot w ssts).2.
Proof.
  induction ssts as [|sst ssts IH]; [constructor|]. cbn [get_sstables].
  pose proof (sst_get_reader avx2 key snapshot w (ls_reader sst)) as Hr.
  destruct (sst_get avx2 key snapshot w (ls_reader sst)) as [r reader]. cbn [snd] in Hr.
  destruct r as [[hit|]| | |]; cbn [snd]; try (by constructor; [|apply same_ssts_refl]).
  destruct (get_sstables avx2 key snapshot w ssts) as [r ssts']. by constructor.
Qed.

Lemma get_sstables_exact avx2 key snapshot (w : W) ssts tables :
  tables_of w (ls_reader <$> ssts) tables → Forall (λ rs, NoDup (br_key <$> rs)) tables →
  (get_sstables avx2 key snapshot w ssts).1 = Ok (first_hit (entries <$> tables) key snapshot ≫= hit_result).
Proof.
  revert tables. induction ssts as [|sst ssts IH]; intros tables Ht Hnd; [by apply Forall2_nil_inv_l in Ht as ->|].
  apply Forall2_cons_inv_l in Ht as (rs & tables' & Hr & Ht & ->). apply Forall_cons in Hnd as [Hn Hnd].
  cbn [get_sstables]. pose proof (table_get_exact avx2 key snapshot w _ rs Hr Hn) as Hg.
  destruct (sst_get avx2 key snapshot w (ls_reader sst)) as [r reader]. cbn [fst] in Hg. subst r.
  rewrite fmap_cons. cbn [first_hit]. destruct (newest (entries rs) key snapshot) as [h|]; [done|].
  specialize (IH tables' Ht Hnd). by destruct (get_sstables avx2 key snapshot w ssts).
Qed.

Lemma get_sstables_sound avx2 key snapshot (w : W) ssts tables :
  tables_of w (ls_reader <$> ssts) tables →
  ∃ res, (get_sstables avx2 key snapshot w ssts).1 = Ok res ∧
    ∀ v, res = Some v → ∃ h, (key, h) ∈ concat (entries <$> tables) ∧ hit_seqno h ≤ snapshot ∧
      hit_result h = Some v.
Proof.
  revert tables. induction ssts as [|sst ssts IH]; intros tables Ht; [by exists None|].
  apply Forall2_cons_inv_l in Ht as (rs & tables' & Hr & Ht & ->). cbn [get_sstables].
  destruct (table_get_sound avx2 key snapshot w _ rs Hr) as (res & Hg & Hres).
  destruct (sst_get avx2 key snapshot w (ls_reader sst)) as [r reader]. cbn [fst] in Hg. subst r.
  rewrite fmap_cons. cbn [concat]. destruct res as [h|].
  - exists (hit_result h). split; [done|]. intros v Hv. destruct (Hres h eq_refl) as [Hin Hs].
    exists h. split_and!; [by apply elem_of_app; left|done|done].
  - destruct (IH tables' Ht) as (res & Hg & Hres'). exists res.
    destruct (get_sstables avx2 key snapshot w ssts) as [r ssts']. split; [done|]. intros v Hv.
    destruct (Hres' v Hv) as (h & Hin & Hs & Hh). exists h. split_and!; [by apply elem_of_app; right|done|done].
Qed.

(** * Point lookups *)

Lemma same_ssts_ids ssts ssts' : same_ssts ssts ssts' → ls_id <$> ssts' = ls_id <$> ssts.
Proof. induction 1 as [|a b l l' [Hab _] _ IH]; [done|]. rewrite !fmap_cons. congruence. Qed.

Lemma same_ssts_readers ssts ssts' :
  same_ssts ssts ssts' → Forall2 same_reader (ls_reader <$> ssts) (ls_reader <$> ssts').
Proof. intros Hs. apply Forall2_fmap. eapply Forall2_impl; [exact Hs|]. by intros ? ? [_ ?]. Qed.

(** The database with the readers that a lookup leaves. *)
Definition db_counted (ssts : list (LiveSst F)) (db : Db F) : Db F :=
  db_set_state (es_set_sstables ssts (db_state db)) db.

Lemma db_counted_same db : db_counted (sstables (db_state db)) db = db.
Proof. by destruct db as [? ? ? []]. Qed.

Lemma db_content_counted db (w : W) ls tables ssts' :
  db_content db w ls tables → same_ssts (sstables (db_state db)) ssts' → db_content (db_counted ssts' db) w ls tables.
Proof.
  intros [Hm Ht] Hsame%same_ssts_readers. split; [done|].
  unfold tables_of, db_readers in *. cbn. clear -Ht Hsame.
  revert tables Ht. induction Hsame as [|r r' l l' Hr _ IH]; intros tables Ht; [by apply Forall2_nil_inv_l in Ht as ->|].
  apply Forall2_cons_inv_l in Ht as (rs & tables' & Hrs & Ht & ->). constructor; [|by apply IH].
  by eapply table_of_same.
Qed.

(** The answer of a lookup, and what it leaves. *)
Lemma get_at_run avx2 key snap db (w : W) ls tables :
  db_content db w ls tables →
  ∃ ssts, same_ssts (sstables (db_state db)) ssts ∧
    get_at avx2 key snap (db, w) =
      (match first_hit (mem_records <$> ls) key (snap_seqno snap) with
       | Some h => Ok (hit_result h)
       | None => (get_sstables avx2 key (snap_seqno snap) w (sstables (db_state db))).1
       end, (db_counted ssts db, w)).
Proof.
  intros Hinv. pose proof Hinv as [Hm Ht]. unfold db_memtables in Hm.
  apply Forall2_cons_inv_l in Hm as (l & ls' & Hact & Him & ->). unfold get_at. rewrite run_get.
  destruct (mem_lookup _ _ key (snap_seqno snap) Hact) as (node & Eg & Hn). rewrite (run_lift _ _ _ _ Eg).
  rewrite fmap_cons. cbn [first_hit]. rewrite Hn. destruct node as [e|]; cbn [fmap option_fmap option_map].
  { exists (sstables (db_state db)). rewrite <-node_value_result, db_counted_same. split; [apply same_ssts_refl|done]. }
  rewrite (run_lift _ _ _ _ (get_immutables_spec key (snap_seqno snap) _ _ Him)).
  destruct (first_hit (mem_records <$> ls') key (snap_seqno snap)) as [h|]; cbn [fmap option_fmap option_map].
  { exists (sstables (db_state db)). rewrite db_counted_same. split; [apply same_ssts_refl|done]. }
  pose proof (get_sstables_same avx2 key (snap_seqno snap) w (sstables (db_state db))) as Hsame.
  destruct (get_sstables avx2 key (snap_seqno snap) w (sstables (db_state db))) as [r ssts']. cbn [fst snd] in *.
  exists ssts'. split; [done|]. by destruct r.
Qed.

Lemma first_hit_app srcs srcs' key snapshot :
  first_hit (srcs ++ srcs') key snapshot =
    match first_hit srcs key snapshot with Some h => Some h | None => first_hit srcs' key snapshot end.
Proof. induction srcs as [|s srcs IH]; [done|]. cbn [app first_hit]. by destruct (newest s key snapshot). Qed.

Lemma first_hit_in srcs key snapshot h :
  first_hit srcs key snapshot = Some h → (key, h) ∈ concat srcs ∧ hit_seqno h ≤ snapshot.
Proof.
  induction srcs as [|s srcs IH]; [done|]. cbn [first_hit concat].
  destruct (newest s key snapshot) as [h'|] eqn:E.
  - intros [= ->]. apply newest_in in E as [Hin Hs]. split; [by apply elem_of_app; left|done].
  - intros Hf. destruct (IH Hf). split; [by apply elem_of_app; right|done].
Qed.

Lemma lookup_exact avx2 key snap db (w : W) ls tables hist :
  db_content db w ls tables → represents (sources_of ls tables) hist → aged_for key (sources_of ls tables) →
  Forall (λ rs, NoDup (br_key <$> rs)) tables →
  ∃ db', get_at avx2 key snap (db, w) =
      (Ok (newest hist key (snap_seqno snap) ≫= hit_result), (db', w)) ∧ db_content db' w ls tables.
Proof.
  intros Hinv Hrep Hage Hsingle.
  destruct (get_at_run avx2 key snap db w ls tables Hinv) as (ssts & Hsame & ->).
  exists (db_counted ssts db). split; [|by apply db_content_counted].
  rewrite <-(represents_view _ _ Hrep key), <-first_hit_newest by done. unfold sources_of.
  rewrite first_hit_app. destruct (first_hit (mem_records <$> ls) key (snap_seqno snap)) as [h|]; [done|].
  by rewrite (get_sstables_exact avx2 key (snap_seqno snap) w _ tables) by (done || apply Hinv).
Qed.

(** A lookup never fails and never invents a value. *)
Lemma lookup_sound avx2 key snap db (w : W) ls tables :
  db_content db w ls tables →
  ∃ res ssts, same_ssts (sstables (db_state db)) ssts ∧ get_at avx2 key snap (db, w) = (Ok res, (db_counted ssts db, w)) ∧
    ∀ v, res = Some v → ∃ h, (key, h) ∈ versions_of ls tables ∧ hit_seqno h ≤ snap_seqno snap ∧
      hit_op h = OpPut ∧ hit_value h = v.
Proof.
  intros Hinv. destruct (get_at_run avx2 key snap db w ls tables Hinv) as (ssts & Hsame & ->).
  assert (∀ h v, hit_result h = Some v → hit_op h = OpPut ∧ hit_value h = v) as Hres
    by (intros h v; unfold hit_result; destruct (hit_op h); [by intros [= <-]|done]).
  unfold versions_of, sources_of. rewrite concat_app.
  destruct (first_hit (mem_records <$> ls) key (snap_seqno snap)) as [h|] eqn:Eh.
  - exists (hit_result h), ssts. split_and!; [done..|]. intros v Hv. apply first_hit_in in Eh as [Hin Hs].
    exists h. split_and!; [by apply elem_of_app; left|done|apply (Hres h v Hv)..].
  - destruct (get_sstables_sound avx2 key (snap_seqno snap) w (sstables (db_state db)) tables) as (res & Hg & Hv);
      [apply Hinv|]. rewrite Hg. exists res, ssts. split_and!; [done..|]. intros v Hr.
    destruct (Hv v Hr) as (h & Hin & Hs & Hh). exists h. split_and!; [by apply elem_of_app; right|done|apply (Hres h v Hh)..].
Qed.

(** * Range scans *)

Lemma scan_exact db (w : W) ls tables hist start end_ snap (fuel : nat) :
  db_content db w ls tables → represents (sources_of ls tables) hist →
  (length (versions_of ls tables) < fuel)%nat →
  ∃ it out, range_bounds start end_ snap db = Ok it ∧
    (collect_records fuel (fuel, w) fuel it).1 = Ok out ∧ StronglySorted rr_lt out ∧
    ∀ r, r ∈ out ↔ in_range start end_ (rr_key r) = true ∧
      newest hist (rr_key r) (snap_seqno snap) = Some (put_of r).
Proof.
  intros Hinv Hrep Hfuel.
  destruct (range_scan (db_memtables db) ls (db_readers db) tables start end_ (snap_seqno snap) fuel w)
    as (it & out & E & Hc & Hs & Hiff); [|apply Hinv|done|].
  { eapply Forall2_impl; [apply Hinv|]. apply mem_ok_memtable_of. }
  exists it, out. split_and!; [done..|]. intros r.
  by rewrite Hiff, (represents_view _ _ Hrep (rr_key r)).
Qed.
End Reads.
