(* ===== verification/EngineWrites.v ===== *)
(** The write path of [crates/paddock-core/src/engine.rs]: file numbers, rotation
    and commits keep the invariant, and a commit adds its batch to the
    history. *)

From stdpp Require Import functions.
From S2P Require Import Prelude Varint Checksum Vfs VfsLaws WalBatch WalFormat WalLayout WalWriter.
From S2P Require Import WalReader Bloom SstFormat Block Crypto SstWriter SstReader Frames FileNames.
From S2P Require Import InternalKey Arena SkipList Merger Versions History SstTable Compact RangeIter Engine.
From S2P Require Import EngineInv EngineDisk.

(** * Sources *)

Lemma versions_cons l ls tables : versions_of (l :: ls) tables = mem_records l ++ versions_of ls tables.
Proof. done. Qed.

Lemma sources_cons l ls tables : sources_of (l :: ls) tables = mem_records l :: sources_of ls tables.
Proof. done. Qed.

Lemma sources_in (srcs : list (list version)) s v : s ∈ srcs → v ∈ s → v ∈ concat srcs.
Proof.
  intros Hs Hv. apply list_elem_of_In, in_concat. exists s. split; by apply list_elem_of_In.
Qed.

Lemma by_age_empty srcs : by_age srcs → by_age ([] :: srcs).
Proof. intros Hs. constructor; [done|]. apply Forall_forall. by intros t _ a b ?%not_elem_of_nil. Qed.

(** ** Applying a batch *)

Lemma op_small_seqno seqno op : is_u64 seqno → op_small op → record_small (flush_record (op_entry seqno op)).
Proof. destruct op; unfold op_small, record_small; cbn; intros ? [? _]; by split. Qed.

Lemma mem_apply_by_age seqno ops l ls tables :
  by_age (sources_of (l :: ls) tables) →
  Forall (λ v, hit_seqno v.2 ≤ seqno) (versions_of (l :: ls) tables) →
  by_age (sources_of (mem_apply seqno ops l :: ls) tables).
Proof.
  rewrite !sources_cons, versions_cons. intros [Hage Hl]%StronglySorted_inv [_ Hb]%Forall_app.
  constructor; [done|]. rewrite Forall_forall in Hl. rewrite Forall_forall in Hb. apply Forall_forall. intros t Ht a b Ha Hbt.
  apply list_elem_of_fmap in Ha as (e & -> & [He|(op & _ & ->)]%mem_apply_in).
  - apply (Hl t Ht); [by apply list_elem_of_fmap_2|done].
  - rewrite mem_record_entry. specialize (Hb b (sources_in _ _ _ Ht Hbt)). by destruct op.
Qed.

Lemma mem_apply_small seqno ops l :
  is_u64 seqno → Forall op_small ops → mem_small l → mem_small (mem_apply seqno ops l).
Proof.
  intros Hs Hops Hl. apply Forall_forall. intros e [He|(op & Hop & ->)]%mem_apply_in.
  - unfold mem_small in Hl. rewrite Forall_forall in Hl. by apply Hl.
  - rewrite Forall_forall in Hops. by apply op_small_seqno, Hops.
Qed.

Lemma records_bytes_snoc `{Crc32c} pos rs r :
  records_bytes pos (rs ++ [r]) = records_bytes pos rs ++ record_bytes (pos + len (records_bytes pos rs)) r.
Proof.
  revert pos. induction rs as [|x rs IH]; intros pos; cbn [app records_bytes].
  - by rewrite app_nil_r, Z.add_0_r.
  - rewrite IH, <-app_assoc. do 3 f_equal. len_simpl. lia.
Qed.

Section Writes.
Context `{Crc32cLaws} `{Xxh3} `{AesGcmLaws} `{HkdfLaws} {F W : Type} `{VfsLaws F W} `{!ReliableReads F W}.

Lemma wp_on_wal {A} (m : st (SegmentWriter F * W) A) E Q db w :
  wp m (λ e s, E e (db_set_ctx (wc_set_wal s.1 (db_ctx db)) db, s.2))
       (λ a s, Q a (db_set_ctx (wc_set_wal s.1 (db_ctx db)) db, s.2)) (db_wal db, w) →
  wp (on_wal m) E Q (db, w).
Proof. unfold wp, on_wal. cbn. fold (db_wal db). by destruct (m (db_wal db, w)) as [[] [wal w']]. Qed.

Lemma wp_on_active {A} (m : st SkipList A) a mem' E Q (db : Db F) (w : W) :
  m (active_memtable (db_state db)) = (Ok a, mem') →
  Q a (db_set_state (es_set_active mem' (db_state db)) db, w) → wp (on_active m) E Q (db, w).
Proof. intros E' HQ. unfold wp, on_active. by rewrite E'. Qed.

Lemma tables_of_writes f (w w' : W) readers tables :
  only_writes f w w' → Forall (λ r, tr_file r ≠ f) readers → tables_of w readers tables →
  tables_of w' readers tables.
Proof.
  intros Ho Hf Ht. induction Ht as [|r rs readers tables Hr _ IH]; [constructor|].
  apply Forall_cons in Hf as [Hne Hf]. constructor; [|by apply IH].
  eapply table_of_writes; [exact Ho| |exact Hr]. congruence.
Qed.

(** A framed operation of the log. *)
Lemma wp_framed {A} (m : st (SegmentWriter F * W) A) E Q s :
  framed file m s → wp m E Q s →
  wp m (λ e s', E e s' ∧ file s'.1 = file s.1 ∧ only_writes (file s.1) s.2 s'.2)
       (λ a s', Q a s' ∧ file s'.1 = file s.1 ∧ only_writes (file s.1) s.2 s'.2) s.
Proof.
  intros [Hf Ho]. unfold wp. destruct (m s) as [[a|e| |] s']; cbn [fst snd] in *; by try split_and!.
Qed.

(** ** Field updates *)

(** What a write to the log leaves. *)
Lemma core_wal db (w w' : W) wal ls tables :
  db_core db w ls tables → file wal = file (db_wal db) → only_writes (file (db_wal db)) w w' →
  db_core (db_set_ctx (wc_set_wal wal (db_ctx db)) db) w' ls tables.
Proof.
  intros [[Hm Ht] [Hok Hdir Hn Hfree Hlive Hap] [] Hseq Hs] Hfile Ho. split; [split|split|by split|done..].
  - done.
  - by eapply tables_of_writes.
  - by apply Ho.
  - done.
  - done.
  - intros n Hle Hu. unfold sst_named, wal_named. rewrite !(ow_named _ _ _ Ho). by apply Hfree.
  - unfold db_wal. cbn. rewrite Hfile. by apply Ho.
  - unfold db_wal. cbn. by rewrite Hfile.
Qed.

Lemma core_seqno db (w : W) n ls tables :
  db_core db w ls tables → is_u64 n → db_core (db_set_seqno n db) w ls tables.
Proof. intros [[] [] [] Hseq Hs] Hu. split; [by split..|done|done]. Qed.

Lemma core_bytes db (w : W) n ls tables :
  db_core db w ls tables → db_core (db_set_ctx (wc_set_bytes n (db_ctx db)) db) w ls tables.
Proof. intros [[] [] [] Hseq Hs]. split; [by split..|done|done]. Qed.

Lemma core_apply db (w : W) m' seqno ops l ls tables :
  db_core db w (l :: ls) tables → is_u64 seqno → Forall op_small ops → mem_ok m' (mem_apply seqno ops l) →
  db_core (db_set_state (es_set_active m' (db_state db)) db) w (mem_apply seqno ops l :: ls) tables.
Proof.
  intros [[Hm Ht] [] [] Hseq Hs] Hu Hops Hm'. apply Forall_cons in Hs as [Hl Hs].
  apply Forall2_cons in Hm as [_ Hm]. split; [split; [by constructor|done]|by split..|done|].
  constructor; [|done]. by apply mem_apply_small.
Qed.

(** ** Numbers and new files *)

Definition db_reserved (db : Db F) : Db F := db_set_ctx (wc_set_next (db_next db + 1) (db_ctx db)) db.

Lemma wp_reserve db (w : W) (E : Error → Db F * W → Prop) Q :
  0 ≤ db_next db → db_next db + 1 < 2 ^ 64 → Q (db_next db) (db_reserved db, w) →
  wp reserve_file_number E Q (db, w).
Proof.
  intros Hn Hlt HQ. unfold reserve_file_number. apply wp_bind, wp_get. apply wp_bind.
  apply wp_lift_Ok with (db_next db + 1).
  { unfold checked_add. fold (db_next db). by decide_bool. }
  apply wp_bind, wp_on_fst, wp_modify, wp_ret. exact HQ.
Qed.

Lemma core_reserved db (w : W) ls tables : db_core db w ls tables → db_core (db_reserved db) w ls tables.
Proof.
  intros [[] [Hok Hdir Hn Hfree Hlive Hap] [Hnd Hlt Hwd Hwl] Hseq Hs].
  assert (db_next (db_reserved db) = db_next db + 1) as Enext by done. split; [by split|split|split|done..]; try done.
  - lia.
  - intros n Hle. apply Hfree. lia.
  - eapply Forall_impl; [exact Hlt|]. cbn beta. intros n ?. lia.
  - eapply Forall_impl; [exact Hwl|]. cbn beta. intros n ?. lia.
Qed.

Lemma links_ctx (db db' : Db F) (w : W) ls tables log tab :
  db_data_dir db' = db_data_dir db → db_state db' = db_state db → db_wal db' = db_wal db →
  wc_wal_segment_id (db_ctx db') = wc_wal_segment_id (db_ctx db) →
  db_links db w ls tables log tab → db_links db' w ls tables log tab.
Proof.
  intros Ed Es Ew Ei [Hw Hm Ht]. unfold db_wal_ids in Hm.
  split; unfold db_wal_ids; by rewrite ?Ed, ?Es, ?Ew, ?Ei.
Qed.

Lemma log_open_ctx (db db' : Db F) (w : W) log :
  db_wal db' = db_wal db → wc_wal_segment_id (db_ctx db') = wc_wal_segment_id (db_ctx db) →
  log_open db w log → log_open db' w log.
Proof. intros Ew Ei. unfold log_open. by rewrite Ew, Ei. Qed.

Lemma inv_reserved db (w : W) hist ls tables :
  db_inv db w hist ls tables → db_inv (db_reserved db) w hist ls tables.
Proof.
  intros [Hc Hb Hr (log & tab & Hd & Hl & Hlo)]. split; [by apply core_reserved|done..|].
  exists log, tab. split_and!; [done|by eapply links_ctx; [..|exact Hl]|by eapply log_open_ctx; [..|exact Hlo]].
Qed.

Lemma inv_bytes db (w : W) n hist ls tables :
  db_inv db w hist ls tables → db_inv (db_set_ctx (wc_set_bytes n (db_ctx db)) db) w hist ls tables.
Proof.
  intros [Hc Hb Hr (log & tab & Hd & Hl & Hlo)]. split; [by apply core_bytes|done..|].
  exists log, tab. split_and!; [done|by eapply links_ctx; [..|exact Hl]|by eapply log_open_ctx; [..|exact Hlo]].
Qed.

(** A path of the number just handed out. *)
Definition new_path (db : Db F) (p : string) : Prop :=
  is_u64 (db_next db - 1) ∧
  (p = sst_path (db_data_dir db) (db_next db - 1) ∨ p = wal_segment_path (db_data_dir db) (db_next db - 1)).

Lemma core_names db (w w' : W) p ls tables :
  only_names p w w' → new_path db p → db_core db w ls tables → db_core db w' ls tables.
Proof.
  intros Ho [Hu Hp] [[Hm Ht] [Hok Hdir Hn Hfree Hlive Hap] Hnum Hseq Hs].
  split; [split; [done|by eapply tables_of_names]|split|done..]; try done.
  - by apply Ho.
  - intros n Hle Hn64. unfold sst_named, wal_named. rewrite !(on_named _ _ _ Ho); [by apply Hfree| |]; intros <-.
    + destruct Hp as [Hp|Hp]; [by symmetry in Hp; apply sst_wal_path_ne in Hp|].
      apply wal_path_inj in Hp; [lia|done..].
    + destruct Hp as [Hp|Hp]; [apply sst_path_inj in Hp; [lia|done..]|by apply sst_wal_path_ne in Hp].
  - by apply Ho.
Qed.

Lemma content_names db (w w' : W) p ls tables :
  only_names p w w' → db_content db w ls tables → db_content db w' ls tables.
Proof. intros Ho [Hm Ht]. split; [done|by eapply tables_of_names]. Qed.

Lemma writer_names hdr recs (wal : SegmentWriter F) p (w w' : W) :
  only_names p w w' → live w (file wal) → writer_ok hdr recs (wal, w) → writer_ok hdr recs (wal, w').
Proof.
  intros Ho Hl [Hc ? ? ?]. split; [|done..]. cbn [fst snd] in *. by rewrite (on_contents _ _ _ Ho).
Qed.

Lemma log_open_names p (db : Db F) (w w' : W) log :
  only_names p w w' → live w (file (db_wal db)) → log_open db w log → log_open db w' log.
Proof. intros Ho Hl (first & Hf & Hw). exists first. split; [done|]. by eapply writer_names. Qed.

(** ** Rotation *)

Definition db_rotated (m : SkipList) (db : Db F) : Db F :=
  db_set_state (rotated m (wc_wal_segment_id (db_ctx db)) (db_state db)) db.

Definition db_seated (m : SkipList) (wal : SegmentWriter F) (db : Db F) : Db F :=
  db_set_ctx {| wc_wal := wal; wc_wal_segment_id := db_next db; wc_active_memtable_bytes := 0;
                wc_next_file_number := db_next db + 1 |} (db_rotated m db).

Lemma rotated_content m db (w : W) ls tables :
  mem_ok m [] → db_content db w ls tables → db_content (db_rotated m db) w ([] :: ls) tables.
Proof. intros Hm [Hms Ht]. split; [|done]. unfold db_memtables, db_rotated. cbn. by constructor. Qed.

(** Seating the new log. *)
Lemma core_seated m wal db (w w' : W) ls tables :
  mem_ok m [] → db_core db w ls tables → is_u64 (db_next db) →
  only_names (wal_segment_path (db_data_dir db) (db_next db)) w w' → ¬ live w (file wal) → live w' (file wal) →
  db_core (db_seated m wal db) w' ([] :: ls) tables.
Proof.
  intros Hm Hcore Hn64 Ho Hnew Hlive.
  assert (db_core (db_reserved db) w' ls tables) as [Hc [Hok Hdir Hn Hfree _ Hap] [Hnd Hlt Hwd Hwl] Hseq Hs].
  { eapply core_names; [exact Ho| |by apply core_reserved]. unfold new_path.
    change (db_next (db_reserved db)) with (db_next db + 1). rewrite Z.add_simpl_r. split; [done|by right]. }
  split; [|split|split|..]; try done.
  - pose proof (rotated_content m (db_reserved db) w' ls tables Hm Hc) as [? ?]. by split.
  - apply Forall_forall. intros r Hr. change (db_wal _) with wal. intros E. apply Hnew. rewrite <-E.
    apply list_elem_of_lookup in Hr as [i Hi].
    destruct (Forall2_lookup_l _ _ _ _ _ (dc_tables _ _ _ _ (co_content _ _ _ _ Hcore)) Hi) as (rs & _ & Hrs). apply Hrs.
  - change (NoDup (db_next db :: db_wal_ids db)). constructor; [|exact Hwd]. intros Hin.
    destruct (co_numbers _ _ _ _ Hcore) as [_ _ _ Hwl0]. rewrite Forall_forall in Hwl0. specialize (Hwl0 _ Hin). lia.
  - change (Forall (λ n, 0 ≤ n < db_next db + 1) (db_next db :: db_wal_ids db)).
    constructor; [|exact Hwl]. unfold is_u64 in Hn64. lia.
  - constructor; [by constructor|done].
Qed.

Lemma links_seated m wal db (w w' : W) ls tables log tab :
  only_names (wal_segment_path (db_data_dir db) (db_next db)) w w' →
  wal_named (db_data_dir db) w' (db_next db) = Some (file wal) → db_numbers db →
  db_links db w ls tables log tab →
  db_links (db_seated m wal db) w' ([] :: ls) tables (<[db_next db := []]> log) tab.
Proof.
  intros Ho Hw [_ _ _ Hlt] [_ Hm Ht]. split; [done| |done].
  change (db_wal_ids _) with (db_next db :: db_wal_ids db). constructor.
  - rewrite fn_lookup_insert. by intros key s [].
  - apply Forall2_same_length_lookup. rewrite Forall2_same_length_lookup in Hm. destruct Hm as [Hlen Hm].
    split; [done|]. intros i id l Hi Hl. rewrite fn_lookup_insert_ne; [by eapply Hm|].
    rewrite Forall_lookup in Hlt. specialize (Hlt _ _ Hi). lia.
Qed.

(** A new, empty file, and a writer for it. *)
Lemma wp_new_log path id seqno (w : W) :
  vfs_ok w → path_ok F W path → named w path = None →
  wp (f ← open_writable path; create f id seqno)
    (λ _ w', write_faults F W ∧ only_names path w w')
    (λ wal w', only_names path w w' ∧ ¬ live w (file wal) ∧ live w' (file wal) ∧ named w' path = Some (file wal) ∧
       writer_ok (segment_header_as_bytes (segment_header_new_signed id seqno)) [] (wal, w')) w.
Proof.
  intros Hok Hpath Hfree. apply wp_bind. unfold wp at 1.
  pose proof (open_writable_only path w Hpath) as Honly. pose proof (open_writable_returns path w) as Hret.
  destruct (open_writable path w) as [[f|e| |] w1] eqn:Eo; try done; [|by split; [eapply open_writable_Err|]].
  cbn [snd] in Honly. destruct (open_writable_Ok _ _ _ _ Eo Hpath Hok) as [Hn Hl].
  destruct (open_writable_new _ _ _ _ Eo Hpath Hok Hfree) as [Hnew Hempty].
  pose proof (create_wp f id seqno w1 Hempty) as Hc. pose proof (wal_create_only f id seqno w1) as Hwo.
  unfold wp in *. destruct (create f id seqno w1) as [[wal|e| |] w2]; cbn [snd] in Hwo; try done;
    assert (only_names path w w2) as Hnames by (by eapply only_names_new).
  - destruct Hc as [<- Hw]. split_and!; [done..|by apply Hwo|by rewrite (ow_named _ _ _ Hwo)|done].
  - by destruct Hc as [? _].
Qed.

(** A segment without a torn end. *)
Lemma log_file_exact (f : F) id log first (w : W) :
  is_u64 first → Forall commit_ok log →
  contents f w = segment_header_as_bytes (segment_header_new_signed id first) ++ records_bytes 0 (wire_commit <$> log) →
  is_u64 (len (segment_header_as_bytes (segment_header_new_signed id first) ++ records_bytes 0 (wire_commit <$> log))) →
  log_file w f id log.
Proof.
  intros Hf Hlog Hc Hu. split; [done|by rewrite Hc|]. exists first, (records_bytes 0 (wire_commit <$> log)), [].
  rewrite app_nil_r. split_and!; [done|constructor|done|done|apply complete_records_all].
Qed.

(** A segment just created. *)
Lemma new_log_file (wal : SegmentWriter F) id seqno (w : W) :
  is_u64 id → is_u64 seqno → writer_ok (segment_header_as_bytes (segment_header_new_signed id seqno)) [] (wal, w) →
  log_file w (file wal) id [].
Proof.
  intros Hid Hs [Hc _ _ _]. cbn [fst snd] in Hc. apply (log_file_exact _ _ _ seqno); [done|done|done|].
  rewrite app_nil_r, length_segment_header. unfold is_u64. lia.
Qed.

(** What the operations on the engine's state leave alone. *)
Record same_db (db db' : Db F) : Prop := {
  sd_dir : db_data_dir db' = db_data_dir db;
  sd_config : db_config db' = db_config db;
  sd_seqno : db_seqno db' = db_seqno db
}.

(** A rotation queues the active memtable. *)
Record rotation (db db' : Db F) : Prop := {
  ro_same : same_db db db';
  ro_queue : immutable_memtables (db_state db') =
    {| im_memtable := active_memtable (db_state db);
       im_wal_segment_id := wc_wal_segment_id (db_ctx db) |} :: immutable_memtables (db_state db);
  ro_next : db_next db' = db_next db + 1
}.

Lemma inv_seated m wal db (w w' : W) hist ls tables :
  mem_ok m [] → db_inv db w hist ls tables → is_u64 (db_next db) → is_u64 (db_seqno db + 1) →
  only_names (wal_segment_path (db_data_dir db) (db_next db)) w w' → ¬ live w (file wal) → live w' (file wal) →
  wal_named (db_data_dir db) w' (db_next db) = Some (file wal) →
  writer_ok (segment_header_as_bytes (segment_header_new_signed (db_next db) (db_seqno db + 1))) [] (wal, w') →
  db_inv (db_seated m wal db) w' hist ([] :: ls) tables.
Proof.
  intros Hm [Hc Hb Hr (log & tab & Hd & Hl & _)] Hn Hs Ho Hnew Hlive Hnamed Hw.
  destruct (df_free _ _ (co_files _ _ _ _ Hc) (db_next db)) as [_ Hfree]; [lia|done|].
  pose proof (df_ok _ _ (co_files _ _ _ _ Hc)) as Hok.
  split; [by eapply core_seated|done|by apply represents_empty|].
  exists (<[db_next db := []]> log), tab. split_and!.
  - eapply disk_new_log; [exact Hok|done|done|done|done| |done]. by eapply new_log_file.
  - eapply links_seated; [exact Ho|done|apply Hc|done].
  - exists (db_seqno db + 1). split; [done|]. change (wc_wal_segment_id _) with (db_next db).
    by rewrite fn_lookup_insert.
Qed.

Lemma wp_rotate db (w : W) hist ls tables :
  db_inv db w hist ls tables → db_next db + 1 < 2 ^ 64 → db_seqno db + 1 < 2 ^ 64 →
  wp rotate_memtable_locked
    (λ _ s, write_faults F W ∧ db_content s.1 s.2 ([] :: ls) tables)
    (λ _ s, db_inv s.1 s.2 hist ([] :: ls) tables ∧ rotation db s.1) (db, w).
Proof.
  intros Hinv Hnext Hsq. pose proof (dv_core _ _ _ _ _ Hinv) as Hcore.
  pose proof (df_next _ _ (co_files _ _ _ _ Hcore)) as Hn0. pose proof (co_seqno _ _ _ _ Hcore) as Hs64.
  assert (is_u64 (db_next db)) as Hn64 by (unfold is_u64; lia).
  unfold rotate_memtable_locked. apply wp_bind, wp_get.
  destruct skiplist_new_ok as (m & Em & Hrep). assert (mem_ok m []) as Hm by (by exists []).
  apply wp_bind. eapply wp_lift_Ok; [exact Em|]. apply wp_bind, wp_on_fst, wp_modify. fold (db_rotated m db).
  apply wp_bind, wp_reserve; [done|done|]. change (db_next (db_rotated m db)) with (db_next db).
  destruct (df_free _ _ (co_files _ _ _ _ Hcore) (db_next db)) as [_ Hfree]; [lia|done|].
  set (path := wal_segment_path (db_data_dir db) (db_next db)) in *.
  pose proof (wp_new_log path (db_next db) (db_seqno db + 1) w (df_ok _ _ (co_files _ _ _ _ Hcore))
    (wal_path_ok _ _ Hn64 (df_dir _ _ (co_files _ _ _ _ Hcore))) Hfree) as Hnew.
  assert (∀ w', only_names path w w' → db_content (db_reserved (db_rotated m db)) w' ([] :: ls) tables) as Hc.
  { intros w' Ho. destruct (rotated_content m db w ls tables Hm (co_content _ _ _ _ Hcore)) as [? ?].
    eapply content_names; [exact Ho|by split]. }
  unfold wp in Hnew. unfold wp, on_snd, mbind, st_bind in *. cbn [fst snd].
  destruct (open_writable path w) as [[f|e| |] w1]; try done; [|by destruct Hnew; split; [|apply Hc]].
  unfold st_lift, checked_add, expect. unfold is_u64 in Hs64. decide_bool. cbn [fst snd].
  destruct (create f (db_next db) (db_seqno db + 1) w1) as [[wal|e| |] w2]; try done;
    [|by destruct Hnew; split; [|apply Hc]].
  destruct Hnew as (Ho & Hnl & Hl & Hnm & Hw). split.
  - apply (inv_seated m wal db w w2 hist ls tables); try done. unfold is_u64. lia.
  - by split.
Qed.

(** ** Commits *)

(** The limits of a commit: the batch fits its encoding, its records fit a
    table, and no counter overflows. *)
Record commit_fits (db : Db F) (batch : WriteBatch) : Prop := {
  cf_batch : batch_fits batch;
  cf_small : Forall op_small (ops batch);
  cf_seqno : db_seqno db + 2 < 2 ^ 64;
  cf_next : db_next db + 1 < 2 ^ 64;
  cf_log : SEGMENT_HEADER_SIZE + bytes_written (db_wal db) +
    len (record_bytes (bytes_written (db_wal db)) (db_seqno db + 1, wire_batch batch)) ≤ MAX_FILE_SIZE;
  cf_bytes : 0 ≤ wc_active_memtable_bytes (db_ctx db) ∧
    wc_active_memtable_bytes (db_ctx db) + len (wire_batch batch) < 2 ^ 64
}.

Lemma wal_sync_wp hdr recs (s : SegmentWriter F * W) :
  writer_ok hdr recs s → wp sync (λ _ _, write_faults F W) (λ _ s', writer_ok hdr recs s') s.
Proof.
  destruct s as [sw w]. intros [Hc Hw Ho Hm]. unfold sync. apply wp_bind, wp_get, wp_on_snd, wp_sync.
  - intros w' Hsame. split; cbn [fst snd] in *; [by rewrite Hsame|done..].
  - by intros.
Qed.

(** The log part of a commit: everything but the log is as it was. *)
Lemma wp_log_commit db (w : W) seqno payload ls tables hdr recs :
  db_core db w ls tables → writer_ok hdr recs (db_wal db, w) →
  seg_fits hdr (len recs + len (record_bytes (len recs) (seqno, payload))) →
  wp (_ ← on_wal (append_record seqno payload); on_wal sync)
    (λ _ s, write_faults F W ∧ db_content s.1 s.2 ls tables)
    (λ _ s, ∃ wal, s.1 = db_set_ctx (wc_set_wal wal (db_ctx db)) db ∧ file wal = file (db_wal db) ∧
       only_writes (file (db_wal db)) w s.2 ∧ db_core s.1 s.2 ls tables ∧
       writer_ok hdr (recs ++ record_bytes (len recs) (seqno, payload)) (wal, s.2)) (db, w).
Proof.
  intros Hcore Hw Hu. apply wp_bind, wp_on_wal.
  eapply wp_mono; [apply wp_framed; [apply append_record_framed|by apply (append_record_wp hdr recs)]| |].
  - intros e [wal w1] ([Hf _] & Hfile & Ho). split; [done|]. by eapply co_content, core_wal.
  - intros start [wal w1] ((_ & _ & Hw1) & Hfile & Ho). cbn [fst snd] in *.
    pose proof (core_wal db w w1 wal ls tables Hcore Hfile Ho) as Hcore1. apply wp_on_wal.
    eapply wp_mono; [apply wp_framed; [apply wal_sync_framed|by apply (wal_sync_wp hdr (recs ++ record_bytes (len recs) (seqno, payload)))]| |].
    + intros e [wal2 w2] (Hf & Hfile2 & Ho2). split; [done|]. by eapply co_content, core_wal.
    + intros _ [wal2 w2] (Hw2 & Hfile2 & Ho2). exists wal2. cbn [fst snd] in *.
      change (db_wal (db_set_ctx _ db)) with wal in Hfile2, Ho2. split_and!; [done|congruence| |by eapply core_wal|done].
      etrans; [exact Ho|]. by rewrite <-Hfile.
Qed.

(** What a commit leaves when it fails: the old contents or the new. *)
Definition commit_failed (seqno : Z) (batch : WriteBatch) (tables : list (list BlockRecord))
    (hist : list version) (s : Db F * W) : Prop :=
  write_faults F W ∧ ∃ ls', db_content s.1 s.2 ls' tables ∧
    (represents (sources_of ls' tables) hist ∨
     represents (sources_of ls' tables) (commit_history seqno batch hist)).

Record commit_done (db : Db F) (batch : WriteBatch) (ls : list (list MemEntry)) (tables : list (list BlockRecord))
    (hist : list version) (s : Db F * W) (ls' : list (list MemEntry)) : Prop := {
  cd_inv : db_inv s.1 s.2 (commit_history (db_seqno db) batch hist) ls' tables;
  cd_age : by_age (sources_of ls tables) → by_age (sources_of ls' tables);
  cd_same : same_db db s.1
}.

(** The batch is in the log and its number handed out, the memtable lags. *)
Record logged (db : Db F) (w : W) (batch : WriteBatch) (hist : list version) (ls : list (list MemEntry))
    (tables : list (list BlockRecord)) : Prop := {
  lg_core : db_core db w ls tables;
  lg_bound : Forall (λ v, 0 ≤ hit_seqno v.2 ≤ db_seqno db - 1) hist;
  lg_seqno : 0 < db_seqno db;
  lg_rep : represents (sources_of ls tables) hist;
  lg_disk : ∃ log tab,
    let id := wc_wal_segment_id (db_ctx db) in
    let log' := <[id := log id ++ [(db_seqno db, batch)]]> log in
    disk_ok (db_data_dir db) (db_config db) w (commit_history (db_seqno db) batch hist) log' tab ∧
    db_links db w ls tables log tab ∧ log_open db w log'
}.

Lemma links_apply db (w : W) m' seqno batch l ls tables log tab :
  let id := wc_wal_segment_id (db_ctx db) in
  NoDup (db_wal_ids db) → db_links db w (l :: ls) tables log tab →
  db_links (db_set_state (es_set_active m' (db_state db)) db) w (mem_apply seqno (ops batch) l :: ls) tables
    (<[id := log id ++ [(seqno, batch)]]> log) tab.
Proof.
  intros id Hnd [Hw Hm Ht]. unfold db_wal_ids in Hnd, Hm. fold id in Hnd, Hm.
  apply Forall2_cons in Hm as [Hact Hm]. apply NoDup_cons in Hnd as [Hid _]. split; [done| |done].
  change (db_wal_ids _) with (id :: (im_wal_segment_id <$> immutable_memtables (db_state db))). constructor.
  - rewrite fn_lookup_insert, log_history_snoc. intros key s Hc.
    unfold covers. rewrite (proj1 (mem_apply_vers _ _ _)). fold (covers (reverse (op_version seqno <$> ops batch) ++ mem_records l) key s).
    unfold commit_history, batch_versions in Hc. rewrite covers_app in *. destruct Hc; [by left|right; by apply Hact].
  - apply Forall2_same_length_lookup. rewrite Forall2_same_length_lookup in Hm. destruct Hm as [Hlen Hm].
    split; [done|]. intros i id' l' Hi Hl. rewrite fn_lookup_insert_ne; [by eapply Hm|].
    intros <-. apply Hid. by eapply list_elem_of_lookup_2.
Qed.

Lemma logged_apply db (w : W) m' batch hist l ls tables :
  logged db w batch hist (l :: ls) tables → Forall op_small (ops batch) →
  mem_ok m' (mem_apply (db_seqno db) (ops batch) l) →
  db_inv (db_set_state (es_set_active m' (db_state db)) db) w (commit_history (db_seqno db) batch hist)
    (mem_apply (db_seqno db) (ops batch) l :: ls) tables.
Proof.
  intros [Hc Hb Hs0 Hr (log & tab & Hd & Hl & Hlo)] Hsmall Hm'. pose proof (co_seqno _ _ _ _ Hc) as Hu. split.
  - by apply core_apply.
  - apply Forall_app. split.
    + apply Forall_forall. intros v ->%batch_versions_seqno. cbn. lia.
    + eapply Forall_impl; [exact Hb|]. intros v Hv. cbn in *. lia.
  - rewrite sources_cons in *. eapply represents_ext; [apply mem_apply_vers|].
    apply (represents_commit _ _ (batch_versions (db_seqno db) batch)); [|done].
    eapply (batch_newer _ _ _ (db_seqno db - 1)); [|lia]. eapply Forall_impl; [exact Hb|]. cbn. lia.
  - eexists _, tab. split_and!; [exact Hd|apply links_apply; [apply Hc|done]|]. by eapply log_open_ctx; [..|exact Hlo].
Qed.

(** The end of a commit. *)
Lemma wp_apply_commit db (w : W) batch bytes size threshold hist l ls tables :
  logged db w batch hist (l :: ls) tables → db_seqno db + 1 < 2 ^ 64 → db_next db + 1 < 2 ^ 64 →
  0 ≤ bytes → 0 ≤ size → bytes + size < 2 ^ 64 → Forall op_small (ops batch) → Forall op_fits (ops batch) →
  wp (_ ← on_active (apply_batch_to_memtable (db_seqno db) batch);
      total ← st_lift (expect (checked_add bytes size));
      _ ← on_fst (st_modify (λ db, db_set_ctx (wc_set_bytes total (db_ctx db)) db));
      if threshold <=? total then rotate_memtable_locked else mret tt)
    (λ _, commit_failed (db_seqno db) batch tables hist)
    (λ _ s, ∃ ls', commit_done db batch (l :: ls) tables hist s ls') (db, w).
Proof.
  intros Hlg Hs Hn Hb0 Hz0 Hbz Hsmall Hfit. pose proof (lg_core _ _ _ _ _ _ Hlg) as Hcore.
  assert (mem_ok (active_memtable (db_state db)) l) as Hmem
    by (pose proof (dc_mems _ _ _ _ (co_content _ _ _ _ Hcore)) as Hms; by apply Forall2_cons in Hms as [? _]).
  destruct (apply_ops_ok (db_seqno db) (ops batch) _ _ Hmem Hfit) as (m' & Eapply & Hm').
  apply wp_bind. eapply wp_on_active; [exact Eapply|].
  apply wp_bind, wp_lift_Ok with (bytes + size); [unfold checked_add; by decide_bool|].
  apply wp_bind, wp_on_fst, wp_modify.
  pose proof (logged_apply db w m' batch hist l ls tables Hlg Hsmall Hm') as Hinv1.
  apply (inv_bytes _ _ (bytes + size)) in Hinv1.
  assert (by_age (sources_of (l :: ls) tables) →
    by_age (sources_of (mem_apply (db_seqno db) (ops batch) l :: ls) tables)) as Hage.
  { intros Ha. apply mem_apply_by_age; [done|]. pose proof (rp_sub _ _ (lg_rep _ _ _ _ _ _ Hlg)) as Hsub.
    pose proof (sub_history_bound _ _ _ _ (sub_history_concat _ _ Hsub) (lg_bound _ _ _ _ _ _ Hlg)) as Hbd.
    eapply Forall_impl; [exact Hbd|]. cbn. lia. }
  case_bool.
  - eapply wp_mono; [apply (wp_rotate _ _ _ _ _ Hinv1); done| |].
    + intros e s [Hf Hc]. split; [done|]. exists ([] :: mem_apply (db_seqno db) (ops batch) l :: ls).
      split; [done|right]. apply represents_empty, Hinv1.
    + intros _ s (Hinv2 & Hrot). exists ([] :: mem_apply (db_seqno db) (ops batch) l :: ls).
      split; [done|intros; by apply by_age_empty, Hage|]. destruct (ro_same _ _ Hrot). by split.
  - apply wp_ret. by exists (mem_apply (db_seqno db) (ops batch) l :: ls).
Qed.

Lemma inv_wal_id db (w : W) hist ls tables :
  db_inv db w hist ls tables → db_next db < 2 ^ 64 → is_u64 (wc_wal_segment_id (db_ctx db)).
Proof.
  intros [Hc _ _ _] Hn. destruct (co_numbers _ _ _ _ Hc) as [_ _ _ Hlt].
  apply Forall_cons in Hlt as [Hid _]. unfold is_u64. lia.
Qed.

(** The batch reached the log. *)
Lemma inv_logged db (w w' : W) wal batch hist ls tables log tab first :
  let id := wc_wal_segment_id (db_ctx db) in
  let seqno := db_seqno db + 1 in
  let recs := records_bytes 0 (wire_commit <$> log id) in
  let hdr := segment_header_as_bytes (segment_header_new_signed id first) in
  let db' := db_set_ctx (wc_set_wal wal (db_ctx db)) (db_set_seqno seqno db) in
  db_inv db w hist ls tables → commit_fits db batch → is_u64 first →
  disk_ok (db_data_dir db) (db_config db) w hist log tab → db_links db w ls tables log tab →
  writer_ok hdr recs (db_wal db, w) →
  file wal = file (db_wal db) → only_writes (file (db_wal db)) w w' → db_core db' w' ls tables →
  writer_ok hdr (recs ++ record_bytes (len recs) (seqno, wire_batch batch)) (wal, w') →
  logged db' w' batch hist ls tables.
Proof.
  intros id seqno recs hdr db' Hinv [Hfits Hsmall Hsq Hnext Hlog _] Hfirst Hd Hl Hw Hfile Ho Hcore' Hw'.
  pose proof (inv_wal_id _ _ _ _ _ Hinv ltac:(lia)) as Hid. fold id in Hid. destruct Hinv as [Hcore Hb Hr _].
  pose proof (co_seqno _ _ _ _ Hcore) as [Hs0 _]. pose proof (wo_written _ _ _ Hw) as Hwr.
  cbn [fst] in Hwr. rewrite Hwr in Hlog.
  split; [done| |change (db_seqno db') with (db_seqno db + 1); lia|done|].
  { change (db_seqno db') with (db_seqno db + 1). by rewrite Z.add_simpl_r. }
  assert (records_bytes 0 (wire_commit <$> log id ++ [(seqno, batch)]) =
    recs ++ record_bytes (len recs) (seqno, wire_batch batch)) as Erecs.
  { rewrite fmap_app. change (wire_commit <$> [(seqno, batch)]) with [(seqno, wire_batch batch)].
    by rewrite records_bytes_snoc, Z.add_0_l. }
  destruct (dk_logs _ _ _ _ _ _ Hd _ _ Hid (dl_wal _ _ _ _ _ _ Hl)) as [[Hok _ _] _].
  exists log, tab. change (wc_wal_segment_id (db_ctx db')) with id. change (db_seqno db') with seqno.
  cbn zeta. split_and!.
  - eapply (disk_commit _ _ _ (file (db_wal db))); [apply Hcore|exact Ho|done|apply Hl| | |exact Hd].
    + pose proof (wo_contents _ _ _ Hw') as Hc. cbn [fst snd] in Hc. rewrite Hfile in Hc.
      eapply (log_file_exact _ _ _ first); [done| |by rewrite Erecs|].
      * apply Forall_app_2; [done|]. constructor; [|done]. split_and!; [..|done|done]; cbn; unfold U64_MAX; lia.
      * rewrite Erecs, !length_app, length_segment_header. unfold is_u64, SEGMENT_HEADER_SIZE, MAX_FILE_SIZE in *. fold seqno in Hlog. lia.
    + eapply (batch_newer _ _ _ (db_seqno db)); [|unfold seqno; lia].
      eapply Forall_impl; [exact Hb|]. cbn. lia.
  - destruct Hl as [Hnm Hm Ht]. split; [|done..].
    unfold wal_named. rewrite (ow_named _ _ _ Ho). change (db_wal db') with wal. by rewrite Hfile.
  - exists first. split; [done|]. change (wc_wal_segment_id (db_ctx db')) with id. rewrite fn_lookup_insert, Erecs. done.
Qed.

Lemma wp_commit db (w : W) batch hist ls tables :
  db_inv db w hist ls tables → commit_fits db batch →
  wp (commit_batch batch)
    (λ _, commit_failed (db_seqno db + 1) batch tables hist)
    (λ _ s, ∃ ls', commit_done (db_set_seqno (db_seqno db + 1) db) batch ls tables hist s ls') (db, w).
Proof.
  intros Hinv Hfits. pose proof Hinv as [Hcore Hb Hr (log & tab & Hd & Hl & first & Hfirst & Hw)].
  pose proof Hfits as [[Hops Hfit] Hsmall Hsq Hnext Hlog [Hb0 Hbytes]].
  pose proof (wo_written _ _ _ Hw) as Hwr. cbn [fst] in Hwr. rewrite Hwr in Hlog.
  pose proof (co_seqno _ _ _ _ Hcore) as [Hs0 _]. set (seqno := db_seqno db + 1) in *.
  pose proof (Forall2_length _ _ _ (dc_mems _ _ _ _ (co_content _ _ _ _ Hcore))) as Hlen.
  destruct ls as [|l ls]; [done|]. clear Hlen.
  unfold commit_batch. apply wp_bind, wp_get, wp_bind, wp_on_fst, wp_modify.
  replace (u64 (db_seqno db + 1)) with seqno by (unfold u64, seqno; rewrite Z.mod_small; lia).
  apply wp_bind. apply wp_lift_Ok with seqno; [unfold checked_add; by decide_bool|].
  apply wp_bind. apply wp_lift_Ok with (wire_batch batch);
    [unfold encode; by rewrite encode_into_ok|].
  pose proof (core_seqno db w seqno _ _ Hcore ltac:(unfold is_u64; lia)) as Hcore1.
  apply (wp_assoc _ (λ _, on_wal sync)), wp_bind.
  eapply wp_mono; [apply (wp_log_commit _ w seqno (wire_batch batch) _ _ _ _ Hcore1 Hw)| |].
  { unfold seg_fits, SEGMENT_HEADER_SIZE in *. rewrite length_segment_header. lia. }
  { intros e s [Hf Hc]. split; [done|]. exists (l :: ls). split; [done|by left]. }
  intros _ [db2 w2] (wal & Edb & Hfile & Ho & Hcore2 & Hw2). cbn [fst snd] in Edb, Ho, Hcore2, Hw2. subst db2.
  pose proof (inv_logged db w w2 wal batch hist _ tables log tab first Hinv Hfits Hfirst Hd Hl Hw Hfile Ho Hcore2 Hw2) as Hlg.
  eapply wp_mono; [apply (wp_apply_commit _ w2 batch _ _ _ hist l ls tables Hlg); try done|done|].
  - change (seqno + 1 < 2 ^ 64). lia.
  - len_lia.
  - intros _ s (ls' & [Hi Ha Hs]). exists ls'. split; [done..|]. destruct Hs. by split.
Qed.
End Writes.
