(* ===== verification/EngineFlush.v ===== *)
(** Flush, in [crates/paddock-core/src/engine.rs]: the oldest queued memtable
    becomes the newest table and its log segment is unlinked; the history stays,
    in memory and on disk. *)

From stdpp Require Import functions.
From S2P Require Import Prelude Varint Checksum Vfs VfsLaws WalBatch WalFormat WalLayout WalWriter.
From S2P Require Import WalReader Bloom SstFormat Block Crypto SstWriter SstReader Frames FileNames.
From S2P Require Import InternalKey Arena SkipList Merger Versions History SstTable Compact RangeIter Engine.
From S2P Require Import EngineInv EngineDisk EngineWrites.

(** The filter parameters a table accepts. *)
Definition config_ok (config : DbConfig) : Prop :=
  1 ≤ bloom_num_hashes config ≤ 16 ∧ is_u8 (bloom_bits_per_key config).

(** A memtable that fits a table. *)
Definition flush_fits (l : list MemEntry) : Prop := keys_size (flush_record <$> l) < 2 ^ 30.

(** * The records of a memtable *)

Abbreviation flush_records := (fmap (M := list) flush_record).

Lemma flush_entries l : entries (flush_records l) = mem_records l.
Proof. rewrite <-list_fmap_compose. apply list_fmap_ext. by intros ? [] _. Qed.

Lemma flush_sorted l : StronglySorted entry_le l → StronglySorted ver_le (flush_records l).
Proof. intros Hs. apply sorted_entries. rewrite flush_entries. by apply mem_sorted. Qed.

Lemma flush_table_fits config l :
  config_ok config → mem_small l → flush_fits l →
  table_fits (Z.max (len l) 1) (bloom_params config) (flush_records l).
Proof.
  intros [Hh Hb] Hs Hk. pose proof (keys_size_length (flush_records l)) as Hl. unfold flush_fits in Hk.
  rewrite length_fmap in Hl. split_and!; [|done|apply Hh|apply Hh|done| |].
  - unfold mem_small in Hs. by apply Forall_fmap.
  - cbn. unfold is_u8 in Hb. nia.
  - cbn. unfold is_u8 in Hb. nia.
Qed.

(** Moving the oldest memtable to the front of the tables keeps the sources. *)
Lemma sources_flush ls l tables :
  sources_of ls (flush_records l :: tables) = sources_of (ls ++ [l]) tables.
Proof. unfold sources_of. rewrite fmap_cons, flush_entries, fmap_app, <-app_assoc. done. Qed.

Section Flush.
Context `{Crc32cLaws} `{Xxh3} `{AesGcmLaws} `{HkdfLaws} {F W : Type} `{VfsLaws F W} `{!ReliableReads F W}.

(** The key of a table, as the writer and the reader derive it. *)
Lemma engine_crypto_ok config id :
  ∃ crypto, engine_crypto config id = Ok crypto ∧ crypto_ok crypto ∧
    ∀ (f : F) (w : W), open_sst_reader f id (master_key config) w = open_inner f (decrypts crypto) w.
Proof.
  unfold engine_crypto, open_sst_reader. destruct (master_key config) as [master|]; [|by exists None].
  unfold derive_sstable_key.
  destruct (hkdf_expand_ok (master_key_bytes master) (sstable_info id) KEY_LEN) as (okm & -> & Hl);
    [unfold KEY_LEN; lia|]. by eexists.
Qed.

(** ** Writing the table *)

Record new_table (db : Db F) (n : Z) (rs : list BlockRecord) (w : W) (r : SstReader F) (w' : W) : Prop := {
  nt_names : only_names (sst_path (db_data_dir db) n) w w';
  nt_named : sst_named (db_data_dir db) w' n = Some (tr_file r);
  nt_new : ¬ live w (tr_file r);
  nt_table : table_of r w' rs;
  nt_file : table_file (db_config db) w' (tr_file r) n rs
}.

Lemma wp_write_memtable mem l n db (w : W) :
  mem_ok mem l → mem_small l → flush_fits l → config_ok (db_config db) →
  vfs_ok w → path_ok F W (sst_path (db_data_dir db) n) → sst_named (F := F) (db_data_dir db) w n = None →
  wp (write_memtable mem n)
    (λ _ s, write_faults F W ∧ s.1 = db ∧ only_names (sst_path (db_data_dir db) n) w s.2)
    (λ r s, s.1 = db ∧ new_table db n (flush_records l) w r s.2) (db, w).
Proof.
  intros [ps Hrep] Hs Hk Hcfg Hok Hpath Hfree. set (path := sst_path (db_data_dir db) n).
  destruct (engine_crypto_ok (db_config db) n) as (crypto & Ecr & Hcr & Eopen).
  pose proof (skiplist_entries_spec _ _ _ _ (sr_shape _ _ _ Hrep)) as Een.
  assert (StronglySorted ver_le (flush_records l)) as Hsort by apply flush_sorted, (sr_shape _ _ _ Hrep).
  pose proof (wp_new_table path AlgCrc32c _ _ crypto _ w Hok Hpath Hfree Hcr (flush_table_fits _ _ Hcfg Hs Hk) Hsort) as Hnew.
  unfold write_memtable. apply wp_bind, wp_get. fold path. unfold skiplist_len. rewrite (sr_len _ _ _ Hrep).
  unfold wp, mbind, st_bind, on_snd, st_lift, st_get in *. rewrite Ecr, Een. cbn [fst snd].
  destruct (open_writable path w) as [[f|e| |] w1]; try done; [|by destruct Hnew].
  destruct (write_table f AlgCrc32c _ _ crypto _ w1) as [[f'|e| |] w2]; cbn [fst snd] in *; try done;
    [|by destruct Hnew].
  destruct Hnew as (Hn & Hnm & Hnl & Himg & r & Hr & Ef & _ & _ & Htab). subst f'.
  rewrite (open_readonly_named _ _ _ (on_ok _ _ _ Hn Hok) Hnm), Eopen, Hr. split; [done|].
  split; [done|done|done|done|]. split; [by exists crypto| |done|done].
  unfold mem_small in Hs. by apply Forall_fmap.
Qed.

(** ** Publishing it *)

Definition db_flushed (n : Z) (r : SstReader F) (wal_id : Z) (db : Db F) : Db F :=
  db_set_state (flushed n r wal_id (db_state db)) db.

Lemma queue_filter (ims : list ImmutableMemtable) im :
  NoDup (im_wal_segment_id <$> ims ++ [im]) →
  filter (λ m, im_wal_segment_id m ≠ im_wal_segment_id im) (ims ++ [im]) = ims.
Proof.
  rewrite fmap_app. intros (_ & Hd & _)%NoDup_app. rewrite filter_app, (filter_all _ ims), (filter_none _ [im]).
  - apply app_nil_r.
  - by intros x ->%list_elem_of_singleton [].
  - intros x Hx E. apply (Hd (im_wal_segment_id x)); [by apply list_elem_of_fmap_2|]. rewrite E. left.
Qed.

Lemma core_flushed n r l im ims db (w w' : W) ls tables :
  n = db_next db - 1 → is_u64 n → immutable_memtables (db_state db) = ims ++ [im] →
  n ∉ (ls_id <$> sstables (db_state db)) →
  new_table db n (flush_records l) w r w' → live w (file (db_wal db)) →
  db_core db w (ls ++ [l]) tables →
  db_core (db_flushed n r (im_wal_segment_id im) db) w' ls (flush_records l :: tables).
Proof.
  intros -> Hn Hq Hid [Ho Hnm Hnew Htab Hfile] Hlw Hcore.
  apply (core_names _ _ _ _ _ _ Ho) in Hcore as [[Hm Ht] [Hok Hdir Hnx Hfree Hlive Hap] [Hnd Hlt Hwd Hwl] Hseq Hs];
    [|split; [done|by left]].
  unfold db_memtables, db_wal_ids in *. rewrite Hq in *. pose proof Hwd as [_ Hwq]%NoDup_cons.
  pose proof (queue_filter _ _ Hwq) as Ef. apply Forall_app in Hs as [Hs _].
  split; [split|split|split|done|done]; unfold db_memtables, db_readers, db_wal_ids; cbn; rewrite ?Hq, ?Ef; try done.
  - rewrite fmap_app in Hm. cbn in Hm. rewrite app_comm_cons in Hm.
    apply Forall2_app_inv in Hm as [Hm _]; [done|]. apply Forall2_length in Hm.
    rewrite !length_app in Hm. cbn in *. lia.
  - by constructor.
  - constructor; [|done]. intros E. apply Hnew. by rewrite E.
  - constructor; [|done]. exact Hid.
  - constructor; [|done]. unfold is_u64 in Hn. fold (db_next db). change (db_next (db_flushed _ _ _ db)) with (db_next db). lia.
  - rewrite fmap_app, app_comm_cons in Hwd. by apply NoDup_app in Hwd as [? _].
  - rewrite fmap_app, app_comm_cons in Hwl. by apply Forall_app in Hwl as [? _].
Qed.

Lemma links_flushed n r l im ims db (w w' : W) ls tables log tab :
  immutable_memtables (db_state db) = ims ++ [im] → NoDup (db_wal_ids db) →
  n ∉ (ls_id <$> sstables (db_state db)) →
  only_names (sst_path (db_data_dir db) n) w w' → is_u64 n →
  db_links db w (ls ++ [l]) tables log tab →
  db_links (db_flushed n r (im_wal_segment_id im) db) w' ls (flush_records l :: tables) log
    (<[n := flush_records l]> tab) ∧
  (∀ key s, covers (log_history (log (im_wal_segment_id im))) key s → covers (mem_records l) key s).
Proof.
  intros Hq Hwd Hid Ho Hn [Hw Hm Ht]. unfold db_wal_ids in *. rewrite Hq in *.
  pose proof Hwd as [_ Hwq]%NoDup_cons. pose proof (queue_filter _ _ Hwq) as Ef.
  rewrite fmap_app, app_comm_cons in Hm. apply Forall2_app_inv in Hm as [Hm Hl].
  2: { apply Forall2_length in Hm. rewrite !length_app in Hm. cbn in *. lia. }
  apply Forall2_cons in Hl as [Hl _]. split; [|done].
  split; unfold db_wal_ids; cbn; rewrite ?Hq, ?Ef; try done.
  - unfold wal_named. rewrite (on_named _ _ _ Ho); [done|]. intros E. symmetry in E. by apply sst_wal_path_ne in E.
  - constructor; [apply fn_lookup_insert|]. apply Forall2_same_length_lookup.
    rewrite Forall2_same_length_lookup in Ht. destruct Ht as [Hlen Ht]. split; [done|]. intros i id rs Hi Hrs.
    rewrite fn_lookup_insert_ne; [by eapply Ht|]. intros ->. apply Hid. by eapply list_elem_of_lookup_2.
Qed.

(** The memtable is a table, its log segment is still there. *)
Lemma inv_flushed n r l im ims db (w w' : W) hist ls tables :
  n = db_next db - 1 → is_u64 n → immutable_memtables (db_state db) = ims ++ [im] →
  n ∉ (ls_id <$> sstables (db_state db)) → sst_named (F := F) (db_data_dir db) w n = None →
  new_table db n (flush_records l) w r w' → db_inv db w hist (ls ++ [l]) tables →
  let db' := db_flushed n r (im_wal_segment_id im) db in
  db_inv db' w' hist ls (flush_records l :: tables) ∧
  ∃ log tab, disk_ok (db_data_dir db) (db_config db) w' hist log tab ∧
    db_links db' w' ls (flush_records l :: tables) log tab ∧ log_open db' w' log ∧
    ∀ key s, covers (log_history (log (im_wal_segment_id im))) key s → covers (entries (flush_records l)) key s.
Proof.
  intros En Hn Hq Hid Hfree Hnew [Hc Hb Hr (log & tab & Hd & Hl & Hlo)]. pose proof (co_files _ _ _ _ Hc) as Hf.
  pose proof (df_ok _ _ Hf) as Hok. pose proof (df_wal _ _ Hf) as Hlw.
  apply (log_open_names _ _ _ _ _ (nt_names _ _ _ _ _ _ Hnew) Hlw) in Hlo.
  assert (log_open (db_flushed n r (im_wal_segment_id im) db) w' log) as Hlo' by (by eapply log_open_ctx; [..|exact Hlo]).
  destruct (links_flushed n r l im ims db w w' ls tables log tab) as [Hl' Hcov]; try done; [apply Hc|apply Hnew|].
  assert (disk_ok (db_data_dir db) (db_config db) w' hist log (<[n := flush_records l]> tab)) as Hd'.
  { eapply disk_new_table; [exact Hok|done|done|apply Hnew|apply Hnew|apply Hnew| |done].
    rewrite flush_entries. pose proof (rp_sub _ _ Hr) as Hsub. rewrite Forall_forall in Hsub. apply Hsub.
    unfold sources_of. apply elem_of_app. left. apply list_elem_of_fmap_2. apply elem_of_app. right. by left. }
  split; [|exists log, (<[n := flush_records l]> tab); rewrite flush_entries; done].
  split; [by eapply core_flushed|done|by rewrite sources_flush|]. by eexists _, _.
Qed.

(** ** Unlinking the log segment *)

Lemma wp_try_remove p db (w : W) (E : Error → Db F * W → Prop) Q :
  path_ok F W p → (∀ w', unlinked (F := F) p w w' → Q tt (db, w')) → wp (try_remove p) E Q (db, w).
Proof.
  intros Hpath HQ. unfold wp, try_remove. pose proof (remove_only p w Hpath) as Ho. pose proof (remove_returns p w) as Hret.
  destruct (remove p w) as [[[]|e| |] w'] eqn:Er; cbn [fst snd] in *; try done; apply HQ; split; try done.
  - left. by eapply remove_Ok.
  - by eapply remove_Err.
Qed.

Lemma core_unlinked p db (w w' : W) ls tables :
  unlinked (F := F) p w w' → db_core db w ls tables → db_core db w' ls tables.
Proof.
  intros Hu [[Hm Ht] [Hok Hdir Hn Hfree Hlive Hap] Hnum Hseq Hs]. pose proof Hu as [Ho _].
  split; [split; [done|by eapply tables_of_names]|split|done..]; try done.
  - by apply Ho.
  - intros n Hle Hn64. destruct (Hfree n Hle Hn64) as [Hf1 Hf2]. unfold sst_named, wal_named in *.
    split; apply eq_None_not_Some; intros [f Hf%(unlinked_named _ _ _ _ _ Hu)]; congruence.
  - by apply Ho.
Qed.

Lemma links_unlinked p db (w w' : W) ls tables log tab :
  unlinked (F := F) p w w' →
  wal_segment_path (db_data_dir db) (wc_wal_segment_id (db_ctx db)) ≠ p →
  db_links db w ls tables log tab → db_links db w' ls tables log tab.
Proof.
  intros [Ho _] Hp [Hw Hm Ht]. split; [|done..]. by rewrite (wal_named_other _ _ _ _ _ Ho Hp).
Qed.

(** Unlinking a segment whose versions are in the newest table. *)
Lemma inv_unlinked_log n id sst db (w w' : W) hist ls rs tables :
  is_u64 id → is_u64 n → id ≠ wc_wal_segment_id (db_ctx db) → is_u64 (wc_wal_segment_id (db_ctx db)) →
  unlinked (F := F) (wal_segment_path (db_data_dir db) id) w w' →
  head (sstables (db_state db)) = Some sst → ls_id sst = n → is_Some (sst_named (F := F) (db_data_dir db) w n) →
  (∃ log tab, disk_ok (db_data_dir db) (db_config db) w hist log tab ∧ db_links db w ls (rs :: tables) log tab ∧
     log_open db w log ∧ ∀ key s, covers (log_history (log id)) key s → covers (entries rs) key s) →
  db_inv db w hist ls (rs :: tables) → db_inv db w' hist ls (rs :: tables).
Proof.
  intros Hid Hn Hne Hact Hu Hhead Esst Hnm (log & tab & Hd & Hl & Hlo & Hcov) [Hc Hb Hr _].
  pose proof (co_files _ _ _ _ Hc) as Hf. split; [by eapply core_unlinked|done|done|].
  exists log, tab. split_and!.
  - eapply disk_unlinked_log; [apply Hf|exact Hid|exact Hu| |done]. intros key s Hk _. exists n.
    split_and!; [done..|]. pose proof (dl_tables _ _ _ _ _ _ Hl) as Ht.
    destruct (sstables (db_state db)) as [|sst' ssts]; [done|]. injection Hhead as ->.
    apply Forall2_cons in Ht as [Ht _]. rewrite Esst in Ht. rewrite Ht. by apply Hcov.
  - eapply links_unlinked; [exact Hu| |done]. intros E. apply Hne. symmetry. by eapply wal_path_inj.
  - eapply log_open_names; [apply Hu|apply Hf|done].
Qed.

(** ** One memtable *)

(** What a flush leaves alone, and what is queued afterwards. *)
Record flush_step (db db' : Db F) (ims : list ImmutableMemtable) : Prop := {
  fs_same : same_db db db';
  fs_active : active_memtable (db_state db') = active_memtable (db_state db);
  fs_queue : immutable_memtables (db_state db') = ims;
  fs_next : db_next db' = db_next db + 1
}.

Lemma content_reserved db (w w' : W) p ls tables :
  only_names p w w' → db_content db w ls tables → db_content (db_reserved db) w' ls tables.
Proof. intros Ho [? ?]. eapply content_names; [exact Ho|by split]. Qed.

Lemma wp_flush_one im ims l db (w : W) hist ls tables :
  db_inv db w hist (ls ++ [l]) tables → immutable_memtables (db_state db) = ims ++ [im] →
  db_next db + 1 < 2 ^ 64 → config_ok (db_config db) → flush_fits l →
  wp (flush_one im)
    (λ _ s, write_faults F W ∧ db_content s.1 s.2 (ls ++ [l]) tables)
    (λ _ s, db_inv s.1 s.2 hist ls (flush_records l :: tables) ∧ flush_step db s.1 ims) (db, w).
Proof.
  intros Hinv Hq Hnext Hcfg Hk. pose proof Hinv as [[[Hm Ht] Hf Hnum Hs64 Hsm] _ _ _].
  pose proof (df_next _ _ Hf) as Hn0. assert (is_u64 (db_next db)) as Hn64 by (unfold is_u64; lia).
  destruct (df_free _ _ Hf (db_next db)) as [Hfree _]; [lia|done|].
  assert (mem_ok (im_memtable im) l) as Hl.
  { unfold db_memtables in Hm. rewrite Hq, fmap_app, app_comm_cons in Hm.
    apply Forall2_app_inv in Hm as [_ Hl]; [by apply Forall2_cons in Hl as [? _]|].
    apply Forall2_length in Hm. rewrite !length_app in Hm. cbn in *. lia. }
  apply Forall_app in Hsm as [_ [Hsl _]%Forall_cons].
  unfold flush_one. apply wp_bind, wp_reserve; [done..|]. apply wp_bind.
  eapply wp_mono; [apply (wp_write_memtable _ l _ (db_reserved db)); try done; [apply Hf|apply sst_path_ok, Hf; done]| |].
  { intros e [db' w'] (Hw & Edb & Ho). cbn [fst snd] in *. subst db'. split; [done|].
    eapply content_reserved; [exact Ho|by split]. }
  intros r [db' w'] [Edb Hnew]. cbn [fst snd] in *. subst db'.
  apply wp_bind, wp_on_fst, wp_modify. fold (db_flushed (db_next db) r (im_wal_segment_id im) (db_reserved db)).
  set (db' := db_flushed _ _ _ _) in *. apply wp_bind, wp_get.
  pose proof (inv_reserved _ _ _ _ _ Hinv) as Hinv1. destruct (inv_flushed (db_next db) r l im ims (db_reserved db) w w' hist ls tables)
    as [Hinv2 Hdisk]; try done.
  { change (db_next (db_reserved db)) with (db_next db + 1). lia. }
  { intros Hin. destruct Hnum as [_ Hlt _ _]. rewrite Forall_forall in Hlt. specialize (Hlt _ Hin). lia. }
  assert (flush_step db db' ims) as Hstep.
  { split; [done..| |done]. cbn. rewrite Hq. apply queue_filter.
    destruct Hnum as [_ _ [_ Hnd]%NoDup_cons _]. by rewrite Hq in Hnd. }
  destruct (negb _) eqn:E0; [|by apply wp_ret].
  destruct Hnum as [_ _ Hwd Hwl]. unfold db_wal_ids in Hwd, Hwl. rewrite Hq in Hwd, Hwl.
  apply NoDup_cons in Hwd as [Hact _]. apply Forall_cons in Hwl as [Hactl Hwl].
  assert (im_wal_segment_id im ∈ im_wal_segment_id <$> ims ++ [im]) as Him
    by (apply list_elem_of_fmap_2, elem_of_app; right; left).
  rewrite Forall_forall in Hwl. specialize (Hwl _ Him). cbn [fst snd] in *.
  apply wp_try_remove; [apply wal_path_ok; [unfold is_u64; lia|apply Hf]|]. intros w2 Hu. split; [|done].
  eapply (inv_unlinked_log (db_next db) (im_wal_segment_id im)); try done; [unfold is_u64; lia| |unfold is_u64; cbn; lia|].
  - intros E. apply Hact. cbn [fst snd] in E. change (wc_wal_segment_id (db_ctx db')) with (wc_wal_segment_id (db_ctx db)) in E. by rewrite <-E.
  - cbn [fst snd]. rewrite (nt_named _ _ _ _ _ _ Hnew : sst_named (db_data_dir db') w' _ = _). by eexists.
Qed.

(** ** The loop *)

Lemma inv_queue_length db (w : W) hist l ls tables :
  db_inv db w hist (l :: ls) tables → length (immutable_memtables (db_state db)) = length ls.
Proof.
  intros [[[Hm _] _ _ _ _] _ _ _]. apply Forall2_length in Hm. unfold db_memtables in Hm. cbn in Hm.
  rewrite length_fmap in Hm. lia.
Qed.

(** Flushes move sources, they do not change them. *)
Record flush_done (db : Db F) (w : W) (hist : list version) (srcs : list (list version)) (db' : Db F)
    (l : list MemEntry) (tables : list (list BlockRecord)) : Prop := {
  fd_inv : db_inv db' w hist [l] tables;
  fd_sources : sources_of [l] tables = srcs;
  fd_same : same_db db db'
}.

Definition flush_failed (srcs : list (list version)) (s : Db F * W) : Prop :=
  write_faults F W ∧ ∃ ls tables, db_content s.1 s.2 ls tables ∧ sources_of ls tables = srcs.

Lemma same_db_trans (db1 db2 db3 : Db F) : same_db db1 db2 → same_db db2 db3 → same_db db1 db3.
Proof. intros [] []. split; congruence. Qed.

Lemma wp_flush_loop fuel db (w : W) hist l ls tables :
  (length ls < fuel)%nat → db_inv db w hist (l :: ls) tables → db_next db + len ls < 2 ^ 64 →
  config_ok (db_config db) → Forall flush_fits ls →
  wp (flush_loop fuel) (λ _, flush_failed (sources_of (l :: ls) tables))
    (λ _ s, ∃ tables', flush_done db s.2 hist (sources_of (l :: ls) tables) s.1 l tables') (db, w).
Proof.
  revert fuel db w tables. induction ls as [|x ls IH] using rev_ind; intros fuel db w tables Hfuel Hinv Hnext Hcfg Hk;
    (destruct fuel as [|fuel]; [lia|]); cbn [flush_loop]; apply wp_bind, wp_get;
    pose proof (inv_queue_length _ _ _ _ _ _ Hinv) as Hq.
  - apply nil_length_inv in Hq as ->. apply wp_ret. by exists tables.
  - destruct (immutable_memtables (db_state db)) as [|im0 ims0] eqn:Eq; [rewrite length_app in Hq; cbn in Hq; lia|].
    destruct (exists_last (l := im0 :: ims0) ltac:(done)) as (ims & im & E). rewrite E in *. rewrite last_snoc.
    rewrite length_app in Hfuel, Hnext. cbn in Hfuel, Hnext. apply Forall_app in Hk as [Hk [Hx _]%Forall_cons].
    apply wp_bind. rewrite app_comm_cons in *.
    eapply wp_mono; [apply (wp_flush_one im ims x db w hist (l :: ls) tables Hinv Eq); [lia|done..]| |].
    + intros e s [Hf Hc]. split; [done|]. by eexists _, _.
    + intros _ [db1 w1] [Hinv1 [Hsame Hact Hqueue Hn1]]. cbn [fst snd] in *.
      pose proof (sd_config _ _ Hsame) as Ecfg.
      eapply wp_mono; [apply (IH fuel db1 w1 (flush_records x :: tables)); [lia|exact Hinv1|lia|by rewrite Ecfg|done]| |].
      * intros e s. by rewrite sources_flush.
      * intros _ s (tables' & [Hi Hs Hsm]). exists tables'. rewrite sources_flush in Hs.
        split; [done..|]. by eapply same_db_trans.
Qed.

(** ** The operation *)

Lemma mem_ok_is_empty m l : mem_ok m l → skiplist_is_empty m = true ↔ l = [].
Proof.
  intros [ps Hrep]. unfold skiplist_is_empty, skiplist_len. rewrite (sr_len _ _ _ Hrep), Z.eqb_eq.
  destruct l; cbn; split; intros; (done || lia).
Qed.

(** The tables a flush makes: one of every queued memtable, and one of the active
    memtable if it holds anything. *)
Definition flush_count (db : Db F) : Z :=
  len (immutable_memtables (db_state db)) + (if skiplist_is_empty (active_memtable (db_state db)) then 0 else 1).

Lemma length_sources ls tables : length (sources_of ls tables) = (length ls + length tables)%nat.
Proof. unfold sources_of. by rewrite length_app, !length_fmap. Qed.

Lemma wp_flush db (w : W) hist ls tables :
  db_inv db w hist ls tables → db_next db + len ls + 1 < 2 ^ 64 → db_seqno db + 1 < 2 ^ 64 →
  config_ok (db_config db) → Forall flush_fits ls →
  wp flush
    (λ _ s, write_faults F W ∧ ∃ ls' tables', db_content s.1 s.2 ls' tables' ∧ represents (sources_of ls' tables') hist)
    (λ _ s, ∃ tables', db_inv s.1 s.2 hist [[]] tables' ∧ same_db db s.1 ∧
       (by_age (sources_of ls tables) → by_age (sources_of [[]] tables')) ∧ len tables' = len tables + flush_count db) (db, w).
Proof.
  intros Hinv Hnext Hsq Hcfg Hk. pose proof Hinv as [[[Hm _] _ _ _ _] _ Hrep _].
  destruct ls as [|l ls]; [by apply Forall2_length in Hm|]. apply Forall2_cons in Hm as [Hm _].
  unfold flush. apply wp_bind, wp_get, wp_bind. pose proof (mem_ok_is_empty _ _ Hm) as Hempty.
  destruct (skiplist_is_empty (active_memtable (db_state db))) eqn:Eempty; cbn [negb].
  - apply wp_ret, wp_bind, wp_get. rewrite (proj1 Hempty eq_refl) in *. rewrite (inv_queue_length _ _ _ _ _ _ Hinv).
    apply Forall_cons in Hk as [_ Hk]. cbn [length] in Hnext.
    eapply wp_mono; [apply (wp_flush_loop _ db w hist [] ls tables); (done || lia)| |].
    + intros e s (Hf & ls' & ts & Hc & Es). split; [done|]. exists ls', ts. by rewrite Es.
    + intros _ s (ts & [Hi Es Hsm]). exists ts. apply (f_equal length) in Es as El. rewrite Es. split_and!; [done..|].
      rewrite !length_sources in El. unfold flush_count. rewrite (inv_queue_length _ _ _ _ _ _ Hinv), Eempty.
      cbn [length] in *. lia.
  - eapply wp_mono; [apply (wp_rotate _ _ _ _ _ Hinv); (done || lia)| |].
    { intros e s [Hf Hc]. split; [done|]. exists ([] :: l :: ls), tables. split; [done|by apply represents_empty]. }
    intros _ [db1 w1] [Hinv1 [Hsame _ Hn1]]. cbn [fst snd] in *. apply wp_bind, wp_get.
    rewrite (inv_queue_length _ _ _ _ _ _ Hinv1). pose proof (sd_config _ _ Hsame) as Ecfg.
    eapply wp_mono; [apply (wp_flush_loop _ db1 w1 hist [] (l :: ls) tables); [lia|done|lia|by rewrite Ecfg|done]| |].
    + intros e s (Hf & ls' & ts & Hc & Es). split; [done|]. exists ls', ts. rewrite Es. split; [done|]. by apply represents_empty.
    + intros _ s (ts & [Hi Es Hsm]). exists ts. apply (f_equal length) in Es as El. rewrite Es.
      split_and!; [done|by eapply same_db_trans|apply by_age_empty|]. rewrite !length_sources in El. unfold flush_count.
      rewrite Eempty, (inv_queue_length _ _ _ _ _ _ Hinv). cbn [length] in *. lia.
Qed.
End Flush.
