(* ===== verification/EngineCompact.v ===== *)
(** Compaction, in [crates/paddock-core/src/engine.rs]: all live tables become
    one, their files are unlinked, and the history stays, in memory and on
    disk.  The operation runs here without interruption; [compact_publish] on a
    state that changed since [compact_run] is the subject of [EngineRaces]. *)

From stdpp Require Import functions.
From S2P Require Import Prelude Varint Checksum Vfs VfsLaws WalBatch WalFormat WalLayout WalWriter.
From S2P Require Import WalReader Bloom SstFormat Block Crypto SstWriter SstReader Frames FileNames.
From S2P Require Import InternalKey Arena SkipList Merger Versions History SstTable Compact RangeIter Engine.
From S2P Require Import EngineInv EngineDisk EngineWrites EngineFlush.

(** * The merged records *)

Lemma merged_vers tables rs : merged tables rs → same_source (entries rs) (concat (entries <$> tables)).
Proof.
  intros Hm. split; [|intros v; rewrite concat_entries; by rewrite (merged_perm _ _ Hm)].
  destruct Hm as (out & -> & Hi & Hs). intros key s. unfold first_ver. rewrite <-(merged_filter_version out _ key s Hi Hs).
  do 2 f_equal. rewrite <-list_fmap_compose, <-list_fmap_compose. apply list_fmap_ext.
  intros ? e _. apply entry_of_record.
Qed.

Lemma merged_represents ls tables rs hist :
  merged tables rs → represents (sources_of ls tables) hist → represents (sources_of ls [rs]) hist.
Proof. intros Hm Hr. unfold sources_of in *. eapply represents_merge; [|exact Hr]. by apply merged_vers. Qed.

Lemma by_age_merge a b c :
  (∀ v, v ∈ c → v ∈ concat b) → by_age (a ++ b) → by_age (a ++ [c]).
Proof.
  intros Hc. unfold by_age. induction a as [|s a IH]; cbn [app].
  - intros _. by repeat constructor.
  - intros [Hs Hf]%StronglySorted_inv. constructor; [by apply IH|]. apply Forall_app in Hf as [Ha Hb].
    apply Forall_app. split; [done|]. constructor; [|done]. intros x y Hx Hy%Hc.
    apply list_elem_of_In, in_concat in Hy as (t & Ht%list_elem_of_In & Hy%list_elem_of_In).
    rewrite Forall_forall in Hb. by apply (Hb t Ht).
Qed.

Lemma merged_by_age ls tables rs :
  merged tables rs → by_age (sources_of ls tables) → by_age (sources_of ls [rs]).
Proof.
  intros Hm. apply by_age_merge. intros v (r & -> & Hr)%list_elem_of_fmap.
  rewrite concat_entries. apply list_elem_of_fmap_2. by rewrite <-(merged_perm _ _ Hm).
Qed.

Section CompactAll.
Context `{Crc32cLaws} `{Xxh3} `{AesGcmLaws} `{HkdfLaws} {F W : Type} `{VfsLaws F W} `{!ReliableReads F W}.

(** The limits of a compaction: the merged table and its filter fit the
    format. *)
Record compact_fits (db : Db F) (tables : list (list BlockRecord)) : Prop := {
  pf_keys : keys_size (concat tables) < 2 ^ 30;
  pf_filter : 0 ≤ Z.max (sstable_capacity_hint (db_config db)) (estimate_total_entries (db_readers db)) *
    bloom_bits_per_key (db_config db) < 2 ^ 34;
  pf_next : db_next db + 1 < 2 ^ 64
}.

(** The output's configuration has the key of its number. *)
Lemma compact_config_ok (config : DbConfig) id :
  ∃ cc crypto, compact_config config id = Ok cc ∧ engine_crypto config id = Ok crypto ∧ crypto_ok crypto ∧
    config_ctx cc = crypto ∧ cc_bloom cc = bloom_params config ∧
    cc_bloom_capacity_floor cc = sstable_capacity_hint config ∧ cc_checksum cc = AlgCrc32c.
Proof.
  unfold compact_config, engine_crypto. destruct (master_key config) as [master|]; [|by eexists _, None].
  unfold derive_sstable_key.
  destruct (hkdf_expand_ok (master_key_bytes master) (sstable_info id) KEY_LEN) as (okm & -> & Hl);
    [unfold KEY_LEN; lia|]. by eexists _, _.
Qed.

Lemma tables_small (w : W) (readers : list (SstReader F)) tables :
  tables_of w readers tables → Forall record_small (concat tables).
Proof.
  induction 1 as [|r rs readers tables Hr _ IH]; [constructor|]. cbn. apply Forall_app_2; [apply Hr|done].
Qed.

(** ** The merge *)

Lemma wp_compact_run fuel db (w : W) hist ls tables :
  db_inv db w hist ls tables → compact_fits db tables → config_ok (db_config db) →
  (length (concat tables) < fuel)%nat →
  wp (compact_run fuel (sstables (db_state db)))
    (λ _ s, write_faults F W ∧ db_content s.1 s.2 ls tables)
    (λ out s, out.1 = db_next db ∧ s.1 = db_reserved db ∧
       ∃ rs, merged tables rs ∧ new_table db (db_next db) rs w out.2 s.2) (db, w).
Proof.
  intros Hinv [Hk Hfl Hnext] [Hh Hbits] Hfuel. pose proof Hinv as [[[Hm Ht] Hf _ _ _] _ _ _].
  pose proof (df_next _ _ Hf) as Hn0. assert (is_u64 (db_next db)) as Hn64 by (unfold is_u64; lia).
  destruct (df_free _ _ Hf (db_next db)) as [Hfree _]; [lia|done|].
  unfold compact_run. apply wp_bind, wp_reserve; [done..|]. apply wp_bind, wp_get.
  destruct (compact_config_ok (db_config db) (db_next db)) as (cc & crypto & Ecc & Ecr & Hcr & Ectx & Ebl & Efl & Eck).
  apply wp_bind. eapply wp_lift_Ok; [exact Ecc|]. apply wp_bind, wp_on_snd.
  eapply wp_mono; [apply (wp_compact fuel (db_readers db) tables (sst_path (db_data_dir db) (db_next db)) cc w); [|done]| |].
  - split; [apply Hf|done|by apply sst_path_ok, Hf|exact Hfree|by rewrite Ectx|]. rewrite Efl, Ebl.
    split_and!; [by eapply tables_small|done|apply Hh|apply Hh|done|apply Hfl|apply Hfl].
  - intros e w' [Hw Ho]. split; [done|]. eapply content_reserved; [exact Ho|by split].
  - intros out w' (Ho & Hnm & Hnl & _ & rs & Hmg & _ & Htab & Himg). rewrite Ectx, Eck in Himg.
    apply wp_ret. split_and!; [done..|]. exists rs. split; [done|]. split; [done..|].
    pose proof (merged_perm _ _ Hmg) as Hp. split; [by exists crypto|apply Htab| |by eapply merged_sorted].
    by rewrite (keys_size_perm _ _ Hp).
Qed.

(** ** The swap *)

Definition db_compacted (n : Z) (r : SstReader F) (db : Db F) : Db F :=
  db_set_state (es_set_sstables [{| ls_id := n; ls_reader := r |}] (db_state db)) db.

Lemma compacted_all n r db :
  db_set_state (compacted n r (sstables (db_state db)) (db_state db)) db = db_compacted n r db.
Proof.
  unfold db_compacted, compacted. rewrite filter_none; [done|].
  intros sst Hsst Hn. apply Hn. by apply list_elem_of_fmap_2.
Qed.

Lemma core_compacted n r rs db (w w' : W) ls tables :
  n = db_next db - 1 → is_u64 n → new_table db n rs w r w' →
  db_core db w ls tables → db_core (db_compacted n r db) w' ls [rs].
Proof.
  intros -> Hn [Ho Hnm Hnew Htab Hfile] Hcore. pose proof (df_wal _ _ (co_files _ _ _ _ Hcore)) as Hlw.
  apply (core_names _ _ _ _ _ _ Ho) in Hcore as [[Hm Ht] [Hok Hdir Hnx Hfree Hlive Hap] [Hnd Hlt Hwd Hwl] Hseq Hs];
    [|split; [done|by left]].
  split; [split|split|split|done|done]; try done.
  - constructor; [done|by apply Forall2_nil].
  - constructor; [|done]. intros E. apply Hnew. cbn in E. by rewrite E.
  - constructor; [apply not_elem_of_nil|constructor].
  - constructor; [|done]. unfold is_u64 in Hn. change (0 ≤ db_next db - 1 < db_next db). lia.
Qed.

(** The state after the swap: the output is live, the inputs are still files. *)
Record swapped (n : Z) (ids : list Z) (rs : list BlockRecord) (log : Z → list (Z * WriteBatch))
    (tab : Z → list BlockRecord) (hist : list version) (ls : list (list MemEntry)) (db : Db F) (w : W) : Prop := {
  sp_core : db_core db w ls [rs];
  sp_disk : disk_ok (db_data_dir db) (db_config db) w hist log tab;
  sp_links : db_links db w ls [rs] log tab;
  sp_open : log_open db w log;
  sp_named : is_Some (sst_named (F := F) (db_data_dir db) w n);
  sp_output : is_u64 n ∧ tab n = rs ∧ n ∉ ids;
  sp_inputs : Forall (λ id, is_u64 id ∧ ∀ key s, covers (entries (tab id)) key s → covers (entries rs) key s) ids
}.

Lemma inv_swapped n r rs db (w w' : W) hist ls tables :
  n = db_next db - 1 → is_u64 n → sst_named (F := F) (db_data_dir db) w n = None →
  merged tables rs → new_table db n rs w r w' → Forall (λ id, 0 ≤ id < n) (ls_id <$> sstables (db_state db)) →
  db_inv db w hist ls tables →
  ∃ log tab, swapped n (ls_id <$> sstables (db_state db)) rs log tab hist ls (db_compacted n r db) w'.
Proof.
  intros En Hn Hfree Hm Hnew Hlt [Hc Hb Hr (log & tab & Hd & Hl & Hlo)]. pose proof (co_files _ _ _ _ Hc) as Hf.
  pose proof (df_ok _ _ Hf) as Hok. pose proof Hl as [Hw Hmem Ht].
  exists log, (<[n := rs]> tab). rewrite Forall_forall in Hlt. split.
  - by eapply core_compacted.
  - eapply disk_new_table; [exact Hok|done|done|apply Hnew|apply Hnew|apply Hnew| |done].
    rewrite (merged_vers _ _ Hm). apply sub_history_concat. pose proof (rp_sub _ _ Hr) as Hsub.
    unfold sources_of in Hsub. by apply Forall_app in Hsub as [_ ?].
  - split; [|done|by constructor; [apply fn_lookup_insert|]].
    unfold wal_named. rewrite (on_named _ _ _ (nt_names _ _ _ _ _ _ Hnew)); [done|].
    intros E. symmetry in E. by apply sst_wal_path_ne in E.
  - eapply log_open_ctx; [done|done|]. eapply log_open_names; [apply Hnew|apply Hf|done].
  - rewrite (nt_named _ _ _ _ _ _ Hnew : sst_named (db_data_dir (db_compacted n r db)) w' n = _). by eexists.
  - split_and!; [done|apply fn_lookup_insert|]. intros Hin%Hlt. lia.
  - apply Forall_forall. intros id Hin. specialize (Hlt id Hin). split; [unfold is_u64 in *; lia|].
    rewrite fn_lookup_insert_ne by lia. intros key s Hk. unfold covers. rewrite (proj1 (merged_vers _ _ Hm)).
    apply covers_concat. apply list_elem_of_lookup in Hin as [i Hi].
    destruct (Forall2_lookup_l _ _ _ _ _ Ht Hi) as (rs' & Hrs' & Etab). exists (entries rs').
    split; [|by rewrite <-Etab]. apply list_elem_of_fmap_2. by eapply list_elem_of_lookup_2.
Qed.

(** ** Unlinking the inputs *)

Lemma wp_remove_inputs n inputs rs log tab hist ls db (w : W) (E : Error → Db F * W → Prop) :
  swapped n (ls_id <$> inputs) rs log tab hist ls db w →
  wp (remove_inputs (db_data_dir db) inputs) E
    (λ _ s, s.1 = db ∧ swapped n [] rs log tab hist ls db s.2) (db, w).
Proof.
  revert w. induction inputs as [|input inputs IH]; intros w Hsw; cbn [remove_inputs]; [by apply wp_ret|].
  apply wp_bind. destruct Hsw as [Hc Hd Hl Hlo Hnm (Hn & Etab & Hnot) Hin].
  rewrite fmap_cons in *. apply Forall_cons in Hin as [[Hid Hcov] Hin]. apply not_elem_of_cons in Hnot as [Hne Hnot].
  pose proof (co_files _ _ _ _ Hc) as Hf. apply wp_try_remove; [by apply sst_path_ok, Hf|]. intros w' Hu. apply IH.
  split; [by eapply core_unlinked| | | | |done|done].
  - eapply (disk_unlinked_table _ _ (ls_id input) n); [apply Hf|done|exact Hu|done|done|done| |done]. by rewrite Etab.
  - eapply links_unlinked; [exact Hu| |done]. intros E'. symmetry in E'. by apply sst_wal_path_ne in E'.
  - eapply log_open_names; [apply Hu|apply Hf|done].
  - rewrite (sst_named_other _ _ _ _ _ (proj1 Hu)); [done|]. intros E'. apply Hne. by eapply sst_path_inj.
Qed.

(** ** The operation *)

Lemma wp_compact_all fuel db (w : W) hist ls tables :
  db_inv db w hist ls tables → compact_fits db tables → config_ok (db_config db) →
  (length (concat tables) < fuel)%nat →
  wp (compact_all fuel)
    (λ _ s, write_faults F W ∧ db_content s.1 s.2 ls tables)
    (λ _ s, ∃ tables', db_inv s.1 s.2 hist ls tables' ∧ same_db db s.1 ∧
       ((length tables < 2)%nat ∧ tables' = tables ∨
        (2 ≤ length tables)%nat ∧ ∃ rs, merged tables rs ∧ tables' = [rs])) (db, w).
Proof.
  intros Hinv Hfits Hcfg Hfuel. unfold compact_all. apply wp_bind, wp_get.
  pose proof (Forall2_length _ _ _ (dc_tables _ _ _ _ (co_content _ _ _ _ (dv_core _ _ _ _ _ Hinv)))) as Hlen.
  unfold db_readers in Hlen. rewrite length_fmap in Hlen. case_bool.
  { apply wp_ret. exists tables. split_and!; [done|done|left]. split; [lia|done]. }
  apply wp_bind. eapply wp_mono; [by eapply wp_compact_run|done|].
  intros [n r] [db1 w1] (En & Edb & rs & Hm & Hnew). cbn [fst snd] in *. subst n db1.
  pose proof Hinv as [Hc Hb Hr _]. destruct Hfits as [_ _ Hnext].
  pose proof (df_next _ _ (co_files _ _ _ _ Hc)) as Hn0. assert (is_u64 (db_next db)) as Hn64 by (unfold is_u64; lia).
  destruct (df_free _ _ (co_files _ _ _ _ Hc) (db_next db)) as [Hfree _]; [lia|done|].
  unfold compact_publish. apply wp_bind, wp_bind, wp_get. apply wp_bind.
  apply wp_lift_Ok with 0; [unfold usize_sub; by rewrite Z.leb_refl, Z.sub_diag|]. apply wp_on_fst, wp_modify.
  change (sstables (db_state db)) with (sstables (db_state (db_reserved db))). rewrite compacted_all.
  destruct (inv_swapped (db_next db) r rs (db_reserved db) w w1 hist ls tables) as (log & tab & Hsw); try done.
  { change (db_next (db_reserved db)) with (db_next db + 1). lia. }
  { destruct Hnew. by split. }
  { apply (co_numbers _ _ _ _ Hc). }
  { by apply inv_reserved. }
  eapply wp_mono; [exact (wp_remove_inputs _ _ _ _ _ _ _ _ _ (λ _ _, False) Hsw)|done|].
  intros _ [db2 w2] [Edb [Hc2 Hd2 Hl2 Hlo2 _ _ _]]. cbn [fst snd] in *. subst db2. exists [rs].
  split_and!; [|by split|right; split; [lia|by exists rs]]. split; [done|done|by eapply merged_represents|by exists log, tab].
Qed.
End CompactAll.
