(* ===== verification/EngineOpen.v ===== *)
(** Opening a directory, in [crates/paddock-core/src/engine.rs]: the listing
    finds the files, the tables are opened newest first, the segments are
    replayed oldest first, and the database that comes back has the history the
    files hold. *)

From stdpp Require Import functions.
From S2P Require Import Prelude Varint Checksum Vfs VfsLaws WalBatch WalFormat WalLayout WalWriter.
From S2P Require Import WalReader Bloom SstFormat Block Crypto SstWriter SstReader Frames FileNames.
From S2P Require Import InternalKey Arena SkipList Merger Versions History SstTable Compact RangeIter Engine.
From S2P Require Import EngineInv EngineDisk EngineWrites EngineFlush.

(** * The listing *)

Lemma parse_digits_bound acc cs n : 0 ≤ acc < 2 ^ 64 → parse_digits acc cs = Some n → is_u64 n.
Proof.
  revert acc. induction cs as [|c cs IH]; intros acc Ha; cbn [parse_digits].
  { by intros [= <-]. }
  destruct (digit_of_ascii c) as [d|] eqn:Ed; [|done]. cbn [mbind option_bind].
  assert (0 ≤ d) as Hd by (unfold digit_of_ascii in Ed; case_match; simplify_eq; lia).
  case_bool; [|done]. apply IH. lia.
Qed.

Lemma parse_u64_bound s n : parse_u64 s = Some n → is_u64 n.
Proof.
  unfold parse_u64. destruct (String.list_ascii_of_string s) as [|c cs]; [done|].
  destruct (Ascii.eqb _ _); [destruct cs; [done|]|]; apply parse_digits_bound; lia.
Qed.

Lemma parse_wal_bound name n : parse_wal_segment_name name = Some n → is_u64 n.
Proof.
  unfold parse_wal_segment_name. destruct (strip_prefix _ _) as [r|]; [|done]. cbn.
  destruct (strip_suffix _ r) as [s|]; [|done]. apply parse_u64_bound.
Qed.

Lemma parse_sst_bound name n : parse_sst_name name = Some n → is_u64 n.
Proof. unfold parse_sst_name. destruct (strip_suffix _ _) as [s|]; [|done]. apply parse_u64_bound. Qed.

(** Names that a parser tells apart have distinct numbers. *)
Lemma NoDup_omap_names (parse : string → option Z) (print : Z → string) names :
  NoDup names → (∀ name n, name ∈ names → parse name = Some n → name = print n) → NoDup (omap parse names).
Proof.
  intros Hnd. induction Hnd as [|name names Hin _ IH]; intros Hp; [constructor|].
  assert (NoDup (omap parse names)) as Hrest by (apply IH; intros ? ? ?; apply Hp; by right).
  cbn. destruct (parse name) as [n|] eqn:E; [|done]. constructor; [|done].
  intros (name' & Hin' & E')%list_elem_of_omap. apply Hin.
  rewrite (Hp name n) by (done || left). by rewrite <-(Hp name' n) by (done || by right).
Qed.

Lemma max_of_spec l : l ≠ [] → ∃ m, max_of l = Some m ∧ m ∈ l ∧ Forall (λ n, n ≤ m) l.
Proof.
  destruct l as [|x l]; [done|]. intros _. exists (foldl Z.max x l). split; [done|].
  revert x. induction l as [|y l IH]; intros x; cbn [foldl]; [split; [left|by repeat constructor]|].
  destruct (IH (Z.max x y)) as [Hin [Hle Hall]%Forall_cons]. split.
  - apply elem_of_cons in Hin as [->|Hin]; [|by right; right].
    destruct (Z.max_spec x y) as [[_ ->]|[_ ->]]; [right; left|left].
  - repeat constructor; [lia|lia|done].
Qed.

(** The number for the new segment. *)
Definition next_number (wals ssts : list Z) : Z :=
  Z.max (default 0 (max_of wals) + 1) (default 0 (max_of ssts) + 1).

Lemma next_number_spec wals ssts (hi : Z) :
  0 ≤ hi → Forall (λ n, 0 ≤ n ≤ hi) wals → Forall (λ n, 0 ≤ n ≤ hi) ssts →
  0 ≤ next_number wals ssts ≤ hi + 1 ∧
  Forall (λ n, n < next_number wals ssts) wals ∧ Forall (λ n, n < next_number wals ssts) ssts.
Proof.
  intros Hhi.
  assert (∀ l, Forall (λ n, 0 ≤ n ≤ hi) l →
    0 ≤ default 0 (max_of l) ≤ hi ∧ Forall (λ n, n ≤ default 0 (max_of l)) l) as Hmax.
  { intros l Hl. destruct (decide (l = [])) as [->|Hne]; [cbn; split; [lia|constructor]|].
    destruct (max_of_spec l Hne) as (m & -> & Hin & Hle). rewrite Forall_forall in Hl. by split; [apply Hl|]. }
  intros [Hw Hwl]%Hmax [Hs Hsl]%Hmax. unfold next_number.
  split_and!; [lia|lia| |]; eapply Forall_impl; try done; cbn; lia.
Qed.

(** * What a replay builds *)

Definition mem_replay (log : list (Z * WriteBatch)) (l : list MemEntry) : list MemEntry :=
  foldl (λ l c, mem_apply c.1 (ops c.2) l) l log.

Lemma log_history_app a b : log_history (a ++ b) = log_history b ++ log_history a.
Proof.
  induction b as [|[seqno batch] b IH] using rev_ind; [by rewrite app_nil_r|].
  rewrite app_assoc, !log_history_snoc, IH. unfold commit_history. by rewrite app_assoc.
Qed.

Lemma mem_replay_vers log l :
  same_source (mem_records (mem_replay log l)) (log_history log ++ mem_records l).
Proof.
  induction log as [|[seqno batch] log IH] using rev_ind; [done|].
  unfold mem_replay in *. rewrite foldl_app, log_history_snoc. cbn [foldl fst snd].
  rewrite mem_apply_vers, IH. unfold commit_history, batch_versions. by rewrite app_assoc.
Qed.

Lemma mem_replay_small log l : mem_small l → Forall commit_ok log → mem_small (mem_replay log l).
Proof.
  intros Hl Hlog. revert l Hl. induction Hlog as [|[seqno batch] log (Hs & _ & Hops) _ IH]; intros l Hl; [done|].
  apply IH. apply Forall_forall. cbn [fst snd] in *.
  intros x [Hx|(op & Hop & ->)]%mem_apply_in; [by apply (proj1 (Forall_forall _ _) Hl)|].
  apply op_small_seqno; [|by apply (proj1 (Forall_forall _ _) Hops)]. unfold is_u64, U64_MAX in *. lia.
Qed.

Lemma commits_ok log : Forall commit_ok log → Forall record_ok (wire_commit <$> log).
Proof.
  intros Hlog. apply Forall_fmap. eapply Forall_impl; [exact Hlog|]. intros [seqno batch] [Hs _].
  unfold record_ok, is_u64, U64_MAX in *. cbn in *. lia.
Qed.

(** * Sequence numbers *)

Lemma foldl_max_le l (x b : Z) : foldl Z.max x l ≤ b ↔ x ≤ b ∧ Forall (λ n, n ≤ b) l.
Proof.
  revert x. induction l as [|y l IH]; intros x; cbn [foldl]; [by split; [intros; split|intros []]|].
  rewrite IH, Forall_cons, Z.max_lub_iff. tauto.
Qed.

Lemma log_history_seqno log v : v ∈ log_history log → hit_seqno v.2 ∈ log.*1.
Proof.
  induction log as [|[seqno batch] log IH] using rev_ind; [by intros ?%not_elem_of_nil|].
  rewrite log_history_snoc, fmap_app. unfold commit_history. rewrite !elem_of_app.
  intros [->%batch_versions_seqno|Hv]; [right; left|left; by apply IH].
Qed.

Lemma max_seqno_covers rs key s : covers (entries rs) key s → s ≤ max_seqno_of rs.
Proof.
  intros [v (Hin & _ & <-)%first_ver_Some]. apply list_elem_of_fmap in Hin as (r & -> & Hr).
  assert (max_seqno_of rs ≤ max_seqno_of rs) as [_ Hall]%foldl_max_le by done.
  rewrite Forall_forall in Hall. apply (Hall (br_seqno r)). by apply list_elem_of_fmap_2.
Qed.

Section Open.
Context `{Crc32cLaws} `{Xxh3} `{AesGcmLaws} `{HkdfLaws} {F W : Type} `{VfsLaws F W} `{!ReliableReads F W}.

Lemma names_in_spec dir (w : W) :
  dir_ok F W dir → vfs_ok w →
  ∃ names, names_in (F := F) dir w = Ok names ∧ NoDup names ∧
    ∀ name, name ∈ names ↔ contains_slash name = false ∧ is_Some (named (F := F) w (dir +:+ "/" +:+ name)).
Proof.
  intros Hdir Hok. unfold names_in. pose proof (list_dir_returns dir w) as Hret.
  destruct (list_dir dir w) as [names|e| |] eqn:E; try done.
  - exists names. split; [done|]. by apply (list_dir_Ok dir w names).
  - apply list_dir_Err in E; [|done]; destruct E as [E|E]; [by apply no_read_faults in E|].
    exists []. split_and!; [done|constructor|]. intros name. rewrite elem_of_nil, E.
    split; [done|]. by intros [_ []].
Qed.

(** The numbers of the files that are there. *)
Record listed (dir : string) (w : W) (wals ssts : list Z) : Prop := {
  li_wals n : n ∈ wals ↔ is_u64 n ∧ is_Some (wal_named (F := F) dir w n);
  li_ssts n : n ∈ ssts ↔ is_u64 n ∧ is_Some (sst_named (F := F) dir w n);
  li_nodup : NoDup ssts
}.

Lemma names_listed dir (w : W) names :
  NoDup names → names_ok (F := F) dir w →
  (∀ name, name ∈ names ↔ contains_slash name = false ∧ is_Some (named (F := F) w (dir +:+ "/" +:+ name))) →
  listed dir w (omap parse_wal_segment_name names) (omap parse_sst_name names).
Proof.
  intros Hnd Hok Hin. split.
  - intros n. rewrite list_elem_of_omap. split.
    + intros (name & [_ Hs]%Hin & Hp). pose proof (parse_wal_bound _ _ Hp). split; [done|].
      destruct (Hok name n Hs) as [Hw _]. unfold wal_named, wal_segment_path. by rewrite <-Hw.
    + intros [Hn Hs]. exists (wal_segment_name n). rewrite parse_wal_roundtrip, Hin by done.
      split; [|done]. split; [by apply plain_no_slash, wal_name_plain|done].
  - intros n. rewrite list_elem_of_omap. split.
    + intros (name & [_ Hs]%Hin & Hp). pose proof (parse_sst_bound _ _ Hp). split; [done|].
      destruct (Hok name n Hs) as [_ Hw]. unfold sst_named, sst_path. by rewrite <-Hw.
    + intros [Hn Hs]. exists (sst_name n). rewrite parse_sst_roundtrip, Hin by done.
      split; [|done]. split; [by apply plain_no_slash, sst_name_plain|done].
  - apply (NoDup_omap_names _ sst_name); [done|]. intros name n [_ Hs]%Hin. by apply Hok.
Qed.

(** ** Replay *)

Lemma feed_replay log m l (hi : Z) :
  mem_ok m l → Forall commit_ok log →
  ∃ m', feed replay_record (wire_commit <$> log) (m, hi) = (Ok tt, (m', foldl Z.max hi log.*1)) ∧
    mem_ok m' (mem_replay log l).
Proof.
  intros Hm Hlog. revert m l hi Hm. induction Hlog as [|[seqno batch] log (_ & Hfit & _) _ IH]; intros m l hi Hm.
  { by exists m. }
  destruct (apply_ops_ok seqno (ops batch) m l Hm (proj2 Hfit)) as (m1 & E & Hm1).
  destruct (IH m1 _ (Z.max hi seqno) Hm1) as (m' & E' & Hm'). exists m'. split; [|done].
  cbn [fmap list_fmap feed]. rewrite (run_bind _ _ _ tt (m1, Z.max hi seqno)); [exact E'|].
  unfold replay_record.
  cbn [wire_commit view_of rv_seqno rv_payload fst snd]. erewrite run_bind by done.
  rewrite (run_bind (st_lift _) _ _ batch _) by (unfold st_lift; by rewrite decode_wire).
  unfold apply_batch_to_memtable. unfold on_fst. by rewrite E.
Qed.

Lemma replay_log (f : F) id log (w : W) m l (hi : Z) :
  is_u64 id → log_file w f id log → mem_ok m l →
  ∃ out m', recover replay_record f w (m, hi) = (Ok out, (m', foldl Z.max hi log.*1)) ∧
    mem_ok m' (mem_replay log l).
Proof.
  intros Hid [Hlog Hsize (first & area & rest & Hf & Hrest & Hc & Hpre & Hgood)] Hm.
  rewrite Hc, length_app, length_segment_header in Hsize.
  destruct (recover_prefix replay_record f w id first ((wire_commit <$> log) ++ rest) area (m, hi) Hc Hid Hf)
    as (out & _ & _ & Hrun); [|by apply Forall_app_2; [apply commits_ok|]|done|].
  { unfold is_u64, SEGMENT_HEADER_SIZE in *. lia. }
  rewrite Hgood in Hrun. destruct (feed_replay log m l hi Hm Hlog) as (m' & E & Hm').
  exists out, m'. split; [|done]. rewrite Hrun. by rewrite (run_bind _ _ _ _ _ E).
Qed.

Lemma replay_logs dir wals log (w : W) m l (hi : Z) :
  vfs_ok w →
  Forall (λ n, is_u64 n ∧ ∃ f, wal_named dir w n = Some f ∧ log_file w f n (log n)) wals → mem_ok m l →
  ∃ m', replay_segments dir wals w (m, hi) = (Ok tt, (m', foldl Z.max hi (concat (log <$> wals)).*1)) ∧
    mem_ok m' (mem_replay (concat (log <$> wals)) l).
Proof.
  intros Hok Hw. revert m l hi. induction Hw as [|n wals (Hn & f & Hf & Hlog) _ IH]; intros m l hi Hm; [by exists m|].
  destruct (replay_log f n (log n) w m l hi Hn Hlog Hm) as (out & m1 & E1 & Hm1).
  destruct (IH m1 _ (foldl Z.max hi (log n).*1) Hm1) as (m' & E' & Hm'). exists m'.
  cbn [replay_segments fmap list_fmap concat]. rewrite fmap_app, foldl_app. split.
  - rewrite (run_bind (st_lift _) _ _ f _) by (unfold st_lift; by rewrite (open_readonly_named _ _ _ Hok Hf)).
    by rewrite (run_bind _ _ _ _ _ E1).
  - unfold mem_replay in *. by rewrite foldl_app.
Qed.

(** ** Tables *)

Lemma open_tables dir config ids tab (w : W) (hi : Z) :
  vfs_ok w →
  Forall (λ n, ∃ f, sst_named dir w n = Some f ∧ table_file config w f n (tab n)) ids →
  ∃ ssts : list (LiveSst F),
    open_ssts dir (master_key config) ids hi w = Ok (ssts, foldl Z.max hi ((λ n, max_seqno_of (tab n)) <$> ids)) ∧
    ls_id <$> ssts = ids ∧ tables_of w (ls_reader <$> ssts) (tab <$> ids).
Proof.
  intros Hok Hids. revert hi. induction Hids as [|n ids (f & Hf & Htf) _ IH]; intros hi.
  { exists []. split_and!; [done|done|by apply Forall2_nil]. }
  destruct Htf as [(crypto & Ecr & Himg) Hs Hk Hsort].
  destruct (image_table_of f crypto AlgCrc32c (tab n) w Himg Hs Hk Hsort) as (r & Eo & Emax & Htab).
  destruct (engine_crypto_ok config n) as (crypto' & Ecr' & _ & Eopen).
  assert (crypto' = crypto) as -> by congruence.
  destruct (IH (Z.max hi (max_seqno_of (tab n)))) as (ssts & E & Eids & Ht).
  exists ({| ls_id := n; ls_reader := r |} :: ssts). cbn [open_ssts].
  rewrite (open_readonly_named _ _ _ Hok Hf). cbn [mbind outcome_bind]. rewrite Eopen, Eo. cbn [mbind outcome_bind]. rewrite Emax, E. split_and!.
  - done.
  - cbn. by rewrite Eids.
  - constructor; [|done]. apply Htab. by eapply named_live.
Qed.

(** ** The whole *)

(** The limits of a directory: room for two more file numbers and one more
    commit, and a path the file system takes as a directory. *)
Record dir_fits (dir : string) (w : W) (hist : list version) : Prop := {
  of_dir : dir_ok F W dir;
  of_files n : is_u64 n → is_Some (wal_named (F := F) dir w n) ∨ is_Some (sst_named (F := F) dir w n) → n + 2 < 2 ^ 64;
  of_seqno : Forall (λ v, 0 ≤ hit_seqno v.2 < U64_MAX) hist
}.

(** The memtable and the tables found on disk hold the history. *)
Lemma found_represents dir config (w : W) wals ssts hist log tab :
  listed dir w wals ssts → disk_ok dir config w hist log tab →
  represents (sources_of [mem_replay (concat (log <$> wals)) []] (tab <$> ssts)) hist.
Proof.
  intros [Hw Hs _] [Hlogs Htabs Hcov _]. set (logs := concat (log <$> wals)).
  assert (same_source (mem_records (mem_replay logs [])) (log_history logs)) as Hmem
    by (rewrite mem_replay_vers, app_nil_r; done).
  assert (∀ n, n ∈ wals → ∀ key s, covers (log_history (log n)) key s → covers (log_history logs) key s) as Hin.
  { intros n Hn key s Hc. apply list_elem_of_split in Hn as (a & b & E). unfold logs.
    rewrite E, fmap_app, fmap_cons, concat_app. cbn [concat]. rewrite !log_history_app, !covers_app. auto. }
  split.
  - constructor.
    + rewrite Hmem. unfold logs. assert (Forall (λ n, sub_history (log_history (log n)) hist) wals) as Hall.
      { apply Forall_forall. intros n [Hn [f Hf]]%Hw. by apply (Hlogs n f). }
      clear -Hall. induction Hall as [|n wals Hn _ IH]; [apply sub_history_nil|].
      cbn. rewrite log_history_app. by apply sub_history_app.
    + apply Forall_fmap, Forall_fmap, Forall_forall. intros n [Hn [f Hf]]%Hs. by apply (Htabs n f).
  - intros key s Hc. destruct (Hcov key s Hc) as [(n & Hn & Hf & Hcn)|(n & Hn & Hf & Hcn)].
    + exists (mem_records (mem_replay logs [])). split; [left|]. unfold covers. rewrite (proj1 Hmem).
      apply (Hin n); [by apply Hw|done].
    + exists (entries (tab n)). split; [|done]. right. apply list_elem_of_fmap_2, list_elem_of_fmap_2. by apply Hs.
Qed.

(** The highest sequence number bounds the history. *)
Definition max_found (wals ssts : list Z) (log : Z → list (Z * WriteBatch)) (tab : Z → list BlockRecord) : Z :=
  foldl Z.max (foldl Z.max 0 ((λ n, max_seqno_of (tab n)) <$> ssts)) (concat (log <$> wals)).*1.

Lemma max_found_covers dir config (w : W) wals ssts hist log tab :
  listed dir w wals ssts → disk_ok dir config w hist log tab →
  ∀ v, v ∈ hist → hit_seqno v.2 ≤ max_found wals ssts log tab.
Proof.
  intros [Hw Hs _] Hd v Hv.
  assert (max_found wals ssts log tab ≤ max_found wals ssts log tab) as [[_ Ht]%foldl_max_le Hl]%foldl_max_le by done.
  rewrite Forall_fmap, Forall_forall in Ht. rewrite Forall_forall in Hl.
  destruct (dk_cover _ _ _ _ _ _ Hd _ _ (first_ver_elem v hist Hv)) as [(n & Hn & Hf & Hc)|(n & Hn & Hf & Hc)].
  - destruct Hc as [v' (Hin & _ & <-)%first_ver_Some]. apply Hl.
    apply log_history_seqno, list_elem_of_fmap in Hin as (c & -> & Hc). apply list_elem_of_fmap_2.
    apply list_elem_of_In, in_concat. exists (log n). split; apply list_elem_of_In; [|done].
    apply list_elem_of_fmap_2. by apply Hw.
  - apply max_seqno_covers in Hc. etrans; [exact Hc|]. apply (Ht n). by apply Hs.
Qed.

Lemma max_found_bound dir config (w : W) wals ssts hist log tab :
  listed dir w wals ssts → disk_ok dir config w hist log tab →
  Forall (λ v, 0 ≤ hit_seqno v.2 < U64_MAX) hist → 0 ≤ max_found wals ssts log tab < U64_MAX.
Proof.
  intros [Hw Hs _] Hd Hh.
  assert (max_found wals ssts log tab ≤ max_found wals ssts log tab) as [[Hlo _]%foldl_max_le _]%foldl_max_le by done.
  split; [done|]. enough (max_found wals ssts log tab ≤ U64_MAX - 1) by lia.
  unfold max_found. rewrite !foldl_max_le. split_and!; [unfold U64_MAX; lia| |].
  - apply Forall_fmap, Forall_forall. intros n [Hn [f Hf]]%Hs.
    destruct (dk_tabs _ _ _ _ _ _ Hd n f Hn Hf) as [_ Hsub]. apply foldl_max_le. split; [unfold U64_MAX; lia|].
    apply (sub_history_bound _ _ 0 (U64_MAX - 1)) in Hsub; [|eapply Forall_impl; [exact Hh|]; cbn; lia].
    rewrite Forall_fmap in Hsub. apply Forall_fmap. eapply Forall_impl; [exact Hsub|]. intros r Hr. cbn in *. lia.
  - apply Forall_fmap, Forall_forall. intros c Hc. apply list_elem_of_In, in_concat in Hc as (cs & Hcs & Hc).
    apply list_elem_of_In, list_elem_of_fmap in Hcs as (n & -> & [Hn [f Hf]]%Hw). apply list_elem_of_In in Hc.
    destruct (dk_logs _ _ _ _ _ _ Hd n f Hn Hf) as [[Hok _ _] _]. rewrite Forall_forall in Hok.
    destruct (Hok c Hc) as [? _]. cbn. lia.
Qed.

Lemma listed_perm dir (w : W) wals wals' ssts ssts' :
  wals ≡ₚ wals' → ssts ≡ₚ ssts' → listed dir w wals ssts → listed dir w wals' ssts'.
Proof.
  intros Hw Hs [Hwi Hsi Hnd]. split.
  - intros n. by rewrite <-Hw.
  - intros n. by rewrite <-Hs.
  - by rewrite <-Hs.
Qed.

(** No file has a number past those listed. *)
Lemma listed_free dir (w : W) wals ids id n :
  listed dir w wals ids → Forall (λ n, n < id) wals → Forall (λ n, n < id) ids → is_u64 n → id ≤ n →
  wal_named (F := F) dir w n = None ∧ sst_named (F := F) dir w n = None.
Proof.
  intros Hli Hwlt Hslt Hn Hle. rewrite Forall_forall in Hwlt. rewrite Forall_forall in Hslt.
  split; apply eq_None_not_Some; intros Hs; [specialize (Hwlt n)|specialize (Hslt n)].
  - rewrite (li_wals _ _ _ _ Hli) in Hwlt. specialize (Hwlt (conj Hn Hs)). lia.
  - rewrite (li_ssts _ _ _ _ Hli) in Hslt. specialize (Hslt (conj Hn Hs)). lia.
Qed.

(** The state [open_with] returns. *)
Definition opened (dir : string) (config : DbConfig) (seqno : Z) (mem : SkipList) (ssts : list (LiveSst F))
    (wal : SegmentWriter F) (id : Z) : Db F :=
  {| db_data_dir := dir; db_config := config; db_seqno := seqno;
     db_state := {| active_memtable := mem; immutable_memtables := []; sstables := ssts |};
     db_ctx := {| wc_wal := wal; wc_wal_segment_id := id; wc_active_memtable_bytes := 0;
                  wc_next_file_number := id + 1 |} |}.

(** The new segment and the state around it. *)
Section Opened.
Variables (dir : string) (config : DbConfig) (w w' : W) (wals ids : list Z) (hist : list version)
  (log : Z → list (Z * WriteBatch)) (tab : Z → list BlockRecord) (mem : SkipList) (ssts : list (LiveSst F))
  (wal : SegmentWriter F) (id : Z).
Let l := mem_replay (concat (log <$> wals)) [].
Let m := max_found wals ids log tab.

Hypotheses (Hok : vfs_ok w) (Hli : listed dir w wals ids) (Hd : disk_ok dir config w hist log tab)
  (Hfits : dir_fits dir w hist) (Hid : is_u64 id) (Hwlt : Forall (λ n, n < id) wals)
  (Hslt : Forall (λ n, n < id) ids) (Hmem : mem_ok mem l) (Eids : ls_id <$> ssts = ids)
  (Htabs : tables_of w (ls_reader <$> ssts) (tab <$> ids)) (Ho : only_names (wal_segment_path dir id) w w')
  (Hnew : ¬ live w (file wal)) (Hlive : live w' (file wal)) (Hnm : wal_named dir w' id = Some (file wal))
  (Hwr : writer_ok (segment_header_as_bytes (segment_header_new_signed id (m + 1))) [] (wal, w')).

Lemma opened_max : 0 ≤ m < U64_MAX.
Proof. apply (max_found_bound dir config w wals ids hist log tab Hli Hd (of_seqno _ _ _ Hfits)). Qed.

Lemma opened_core : db_core (opened dir config m mem ssts wal id) w' [l] (tab <$> ids).
Proof.
  pose proof opened_max as Hm. split.
  - split; [by constructor|]. by eapply tables_of_names.
  - split; cbn; [by apply Ho|apply Hfits|unfold is_u64 in Hid; lia| |done|].
    + intros n Hle Hn. change (id + 1 ≤ n) in Hle. destruct (listed_free dir w wals ids id n) as [Hw Hs]; [done..|lia|].
      rewrite (wal_named_other dir _ n w w' Ho), (sst_named_other dir _ n w w' Ho); [done| |].
      * by apply sst_wal_path_ne.
      * intros E%wal_path_inj; [lia|done..].
    + apply Forall_forall. intros r Hr E. apply Hnew. unfold db_wal in E. cbn in E. rewrite <-E.
      apply list_elem_of_lookup in Hr as [i Hi]. destruct (Forall2_lookup_l _ _ _ _ _ Htabs Hi) as (rs & _ & Hrs).
      apply Hrs.
  - assert (Forall (λ n, 0 ≤ n < id + 1) ids) as Hids.
    { apply Forall_forall. intros n Hn. rewrite Forall_forall in Hslt. specialize (Hslt n Hn).
      apply (li_ssts _ _ _ _ Hli) in Hn as [Hn _]. unfold is_u64 in Hn. lia. }
    unfold is_u64 in Hid. split; cbn; rewrite ?Eids; [apply Hli|done|apply NoDup_singleton|].
    constructor; [|done]. cbn. unfold db_next. cbn. lia.
  - unfold is_u64, U64_MAX in *. cbn. lia.
  - constructor; [|done]. apply mem_replay_small; [constructor|]. apply Forall_concat, Forall_fmap, Forall_forall.
    intros n [Hn [f Hf]]%(li_wals _ _ _ _ Hli). apply (dk_logs _ _ _ _ _ _ Hd n f Hn Hf).
Qed.

Lemma opened_inv : db_inv (opened dir config m mem ssts wal id) w' hist [l] (tab <$> ids).
Proof.
  pose proof opened_max as Hm. assert (is_u64 (m + 1)) as Hm64 by (unfold is_u64, U64_MAX in *; lia).
  split; [apply opened_core| |by eapply found_represents|].
  - pose proof (of_seqno _ _ _ Hfits) as Hseq. cbn. rewrite Forall_forall in Hseq |- *. intros v Hv.
    specialize (Hseq v Hv). cbn in Hseq.
    pose proof (max_found_covers dir config w wals ids hist log tab Hli Hd v Hv) as Hle. fold m in Hle. lia.
  - exists (<[id := []]> log), tab. split_and!.
    + eapply disk_new_log; [done|done|by eapply listed_free|done|done| |done]. by eapply new_log_file.
    + split; cbn; [done| |].
      * constructor; [|done]. rewrite fn_lookup_insert. by intros key s [].
      * rewrite Eids. clear. induction ids; constructor; done.
    + exists (m + 1). split; [done|]. cbn. by rewrite fn_lookup_insert.
Qed.
End Opened.

Lemma listed_numbers dir (w : W) wals ssts hist :
  listed dir w wals ssts → dir_fits dir w hist →
  Forall (λ n, 0 ≤ n ≤ 2 ^ 64 - 3) wals ∧ Forall (λ n, 0 ≤ n ≤ 2 ^ 64 - 3) ssts.
Proof.
  intros Hli [_ Hfiles _]. split; apply Forall_forall; intros n.
  - intros [Hn Hs]%(li_wals _ _ _ _ Hli). specialize (Hfiles n Hn (or_introl Hs)). unfold is_u64 in Hn. lia.
  - intros [Hn Hs]%(li_ssts _ _ _ _ Hli). specialize (Hfiles n Hn (or_intror Hs)). unfold is_u64 in Hn. lia.
Qed.

(** The arithmetic of the file numbers does not overflow. *)
Lemma next_number_ok wals ssts :
  Forall (λ n, 0 ≤ n ≤ 2 ^ 64 - 3) wals → Forall (λ n, 0 ≤ n ≤ 2 ^ 64 - 3) ssts →
  expect (checked_add (default 0 (max_of wals)) 1) = Ok (default 0 (max_of wals) + 1) ∧
  match max_of ssts with
  | Some max_sst =>
      n ← expect (checked_add max_sst 1);
      Ok (Z.max (default 0 (max_of wals) + 1) n)
  | None => Ok (default 0 (max_of wals) + 1)
  end = Ok (next_number wals ssts).
Proof.
  intros Hw Hs. pose proof (next_number_spec wals [] (2 ^ 64 - 3) ltac:(lia) Hw ltac:(constructor)) as [Hn _].
  pose proof (next_number_spec [] ssts (2 ^ 64 - 3) ltac:(lia) ltac:(constructor) Hs) as [Hn' _].
  unfold next_number, checked_add in *. cbn [max_of from_option] in *.
  split; [by decide_bool|]. destruct (max_of ssts) as [n|]; cbn [from_option default] in *.
  - unfold expect, Datatypes.id in *. rewrite (proj2 (Z.ltb_lt _ _)) by lia. done.
  - f_equal. destruct (decide (wals = [])) as [->|Hne]; [done|].
    destruct (max_of_spec wals Hne) as (m & -> & Hin & _). rewrite Forall_forall in Hw. specialize (Hw m Hin).
    cbn in *. lia.
Qed.

Lemma wp_open dir config (w : W) hist log tab :
  vfs_ok w → disk_ok dir config w hist log tab → dir_fits dir w hist →
  wp (open_with dir config) (λ _ _, write_faults F W)
    (λ db w', db_data_dir db = dir ∧ db_config db = config ∧
       ((∃ p, only_names p w w') ∧ ¬ live w (file (db_wal db))) ∧
       ∃ l tables, db_inv db w' hist [l] tables) w.
Proof.
  intros Hok Hd Hfits. destruct (names_in_spec dir w (of_dir _ _ _ Hfits) Hok) as (names & En & Hnd & Hin).
  pose proof (names_listed dir w names Hnd (dk_names _ _ _ _ _ _ Hd) Hin) as Hli0.
  unfold open_with. apply wp_bind, wp_get, wp_bind. eapply wp_lift_Ok; [exact En|].
  set (wals := merge_sort Z.le _). set (ssts := omap parse_sst_name names) in *. set (ids := merge_sort Z.ge ssts).
  assert (ids ≡ₚ ssts) as Eids by apply merge_sort_Permutation.
  assert (listed dir w wals ids) as Hli by (eapply listed_perm; [symmetry; apply merge_sort_Permutation|by symmetry|done]).
  assert (listed dir w wals ssts) as Hli' by (by eapply listed_perm; [..|exact Hli]).
  destruct (listed_numbers dir w wals ssts hist Hli' Hfits) as [Hwn Hsn].
  destruct (next_number_ok wals ssts Hwn Hsn) as [E1 E2].
  destruct (next_number_spec wals ssts (2 ^ 64 - 3) ltac:(lia) Hwn Hsn) as (Hid & Hwlt & Hslt).
  rewrite <-Eids in Hslt. set (id := next_number wals ssts) in *.
  apply wp_bind. eapply wp_lift_Ok; [exact E1|]. apply wp_bind. eapply wp_lift_Ok; [exact E2|].
  destruct (open_tables dir config ids tab w 0 Hok) as (lives & E3 & Elives & Htabs).
  { apply Forall_forall. intros n [Hn [f Hf]]%(li_ssts _ _ _ _ Hli). exists f. split; [done|].
    by apply (dk_tabs _ _ _ _ _ _ Hd). }
  apply wp_bind. eapply wp_lift_Ok; [exact E3|].
  destruct skiplist_new_ok as (m0 & Em & Hrep). apply wp_bind. eapply wp_lift_Ok; [exact Em|].
  destruct (replay_logs dir wals log w m0 [] (foldl Z.max 0 ((λ n, max_seqno_of (tab n)) <$> ids)))
    as (m & E4 & Hm); [done| |by exists []|].
  { apply Forall_forall. intros n [Hn [f Hf]]%(li_wals _ _ _ _ Hli). split; [done|]. exists f. split; [done|].
    by apply (dk_logs _ _ _ _ _ _ Hd). }
  apply wp_bind. eapply wp_lift_Ok; [by rewrite E4|]. fold (max_found wals ids log tab).
  pose proof (max_found_bound dir config w wals ids hist log tab Hli Hd (of_seqno _ _ _ Hfits)) as Hmax.
  set (seqno := max_found wals ids log tab) in *.
  apply wp_bind. eapply wp_lift_Ok with (id + 1); [unfold checked_add; by decide_bool|].
  assert (wal_named (F := F) dir w id = None) as Hfree.
  { eapply listed_free; [exact Hli|done|done|unfold is_u64; lia|done]. }
  assert (path_ok F W (wal_segment_path dir id)) as Hpath
    by (apply wal_path_ok; [unfold is_u64; lia|apply Hfits]).
  pose proof (wp_new_log (wal_segment_path dir id) id (seqno + 1) w Hok Hpath Hfree) as Hnew.
  unfold wp in Hnew. unfold wp, on_snd, mbind, st_bind in *.
  destruct (open_writable _ w) as [[f|e| |] w1]; try done; [|by destruct Hnew].
  unfold st_lift, checked_add, expect. unfold U64_MAX in Hmax. decide_bool. cbn [fst snd].
  destruct (create f id (seqno + 1) w1) as [[wal|e| |] w2]; try done; [|by destruct Hnew].
  destruct Hnew as (Ho & Hnl & Hl & Hnm & Hwr). split_and!; [done..|by eexists|done|].
  eexists _, _. eapply opened_inv; try done. unfold is_u64. lia.
Qed.

(** ** Directories to open *)

Lemma inv_dir_fits db (w : W) hist ls tables :
  db_inv db w hist ls tables →
  db_next db + 1 < 2 ^ 64 → db_seqno db < U64_MAX → dir_fits (db_data_dir db) w hist.
Proof.
  intros [Hc Hb _ _] Hnext Hseq. split; [apply Hc| |].
  - intros n Hn Hs. assert (¬ db_next db ≤ n) as Hlt; [|lia]. intros Hle.
    destruct (df_free _ _ (co_files _ _ _ _ Hc) n Hle Hn) as [E1 E2]. rewrite E1, E2 in Hs. by destruct Hs as [[]|[]].
  - eapply Forall_impl; [exact Hb|]. cbn. lia.
Qed.

Lemma disk_empty dir config (w : W) :
  (∀ name, named (F := F) w (dir +:+ "/" +:+ name) = None) → disk_ok dir config w [] (λ _, []) (λ _, []).
Proof.
  intros Hnone. split.
  - intros n f _ Hf. by rewrite (Hnone _ : wal_named dir w n = None) in Hf.
  - intros n f _ Hf. by rewrite (Hnone _ : sst_named dir w n = None) in Hf.
  - by intros key s [].
  - intros name n [f Hf]. by rewrite Hnone in Hf.
Qed.

Lemma empty_dir_fits dir (w : W) :
  dir_ok F W dir → (∀ name, named (F := F) w (dir +:+ "/" +:+ name) = None) → dir_fits dir w [].
Proof.
  intros Hdir Hnone. split; [done| |constructor]. intros n _.
  rewrite (Hnone _ : wal_named dir w n = None), (Hnone _ : sst_named dir w n = None). by intros [[]|[]].
Qed.

(** ** A crash in the middle of a commit *)

(** [w'] is what a commit of [batch] that did not finish leaves: some prefix of
    its log record. *)
Definition cut_commit (db : Db F) (batch : WriteBatch) (w w' : W) : Prop :=
  only_writes (file (db_wal db)) w w' ∧
  ∃ part, contents (file (db_wal db)) w' = contents (file (db_wal db)) w ++ part ∧
    part `prefix_of` record_bytes (bytes_written (db_wal db)) (db_seqno db + 1, wire_batch batch).

Lemma cut_log_file db batch (w w' : W) log first :
  let id := wc_wal_segment_id (db_ctx db) in
  let seqno := db_seqno db + 1 in
  let recs := records_bytes 0 (wire_commit <$> log) in
  Forall commit_ok log → is_u64 first → 0 ≤ db_seqno db → commit_fits db batch → cut_commit db batch w w' →
  writer_ok (segment_header_as_bytes (segment_header_new_signed id first)) recs (db_wal db, w) →
  log_file w' (file (db_wal db)) id log ∨ log_file w' (file (db_wal db)) id (log ++ [(seqno, batch)]).
Proof.
  intros id seqno recs Hlog Hfirst Hs0 [Hfits Hsmall Hsq Hnext Hroom _] [Ho (part & Hc & Hpart)] [Hw Hwr _ _].
  cbn [fst snd] in Hw, Hwr. rewrite Hw, <-app_assoc in Hc. rewrite Hwr in Hpart, Hroom.
  fold seqno in Hpart, Hroom. set (r := (seqno, wire_batch batch)) in *.
  assert (records_bytes 0 ((wire_commit <$> log) ++ [r]) = recs ++ record_bytes (len recs) r) as Erecs
    by (rewrite records_bytes_snoc, Z.add_0_l; done).
  assert (recs ++ part `prefix_of` recs ++ record_bytes (len recs) r) as Hpre by (by apply prefix_app).
  assert (len part ≤ len (record_bytes (len recs) r)) as Hlen by (apply prefix_length in Hpart; lia).
  assert (is_u64 (len (contents (file (db_wal db)) w'))) as Hsize.
  { rewrite Hc, !length_app, length_segment_header. unfold is_u64, SEGMENT_HEADER_SIZE, MAX_FILE_SIZE in *. lia. }
  assert (commit_ok (seqno, batch)) as Hok by (split_and!; [..|done|done]; cbn; unfold U64_MAX; lia).
  assert (Forall record_ok [r]) as Hr by (constructor; [|done]; unfold record_ok, is_u64; cbn; unfold seqno; lia).
  destruct (complete_records_app 0 (wire_commit <$> log) [r] (len (recs ++ part))) as [k Hk].
  { fold recs. len_lia. }
  destruct k as [|k].
  - left. split; [done|done|]. exists first, (recs ++ part), [r].
    split_and!; [done|done|done|by rewrite Erecs|]. by rewrite Hk, app_nil_r.
  - right. split; [by apply Forall_app_2; [|constructor]|done|]. exists first, (recs ++ part), [].
    rewrite fmap_app, app_nil_r. change (wire_commit <$> [(seqno, batch)]) with [r].
    split_and!; [done|constructor|done|by rewrite Erecs|]. rewrite Hk. by destruct k.
Qed.

Lemma cut_disk db batch (w w' : W) hist ls tables :
  db_inv db w hist ls tables → commit_fits db batch → cut_commit db batch w w' →
  ∃ hist' log tab, (hist' = hist ∨ hist' = commit_history (db_seqno db + 1) batch hist) ∧
    disk_ok (db_data_dir db) (db_config db) w' hist' log tab.
Proof.
  intros Hinv Hfits Hcut. pose proof (inv_wal_id _ _ _ _ _ Hinv) as Hid.
  destruct Hinv as [Hc Hb _ (log & tab & Hd & Hl & first & Hfirst & Hwr)].
  specialize (Hid ltac:(destruct Hfits; lia)). set (id := wc_wal_segment_id (db_ctx db)) in *.
  pose proof (dl_wal _ _ _ _ _ _ Hl) as Hnm. fold id in Hnm. pose proof (df_ok _ _ (co_files _ _ _ _ Hc)) as Hok.
  pose proof (co_seqno _ _ _ _ Hc) as [Hs0 _].
  destruct (dk_logs _ _ _ _ _ _ Hd _ _ Hid Hnm) as [[Hlog _ _] _].
  destruct (cut_log_file db batch w w' (log id) first Hlog Hfirst Hs0 Hfits Hcut Hwr) as [Hf|Hf].
  - exists hist, log, tab. split; [by left|]. eapply disk_torn; [exact Hok|apply Hcut|exact Hid|done|done|done].
  - eexists _, _, tab. split; [by right|]. eapply disk_commit; [exact Hok|apply Hcut|exact Hid|done|done| |done].
    eapply (batch_newer _ _ _ (db_seqno db)); [|lia]. eapply Forall_impl; [exact Hb|]. cbn. lia.
Qed.

Lemma cut_dir_fits db batch (w w' : W) hist hist' ls tables :
  db_inv db w hist ls tables → commit_fits db batch → cut_commit db batch w w' →
  hist' = hist ∨ hist' = commit_history (db_seqno db + 1) batch hist → dir_fits (db_data_dir db) w' hist'.
Proof.
  intros Hinv [_ _ Hsq Hnext _ _] [Ho _] Hor. pose proof (co_seqno _ _ _ _ (dv_core _ _ _ _ _ Hinv)) as [Hs0 _].
  destruct (inv_dir_fits _ _ _ _ _ Hinv Hnext) as [Hdir Hfiles Hseq]; [unfold U64_MAX; lia|]. split; [done| |].
  - intros n. unfold wal_named, sst_named. rewrite !(ow_named _ _ _ Ho). apply Hfiles.
  - destruct Hor as [->| ->]; [done|]. apply Forall_app_2; [|done].
    apply Forall_forall. intros v ->%batch_versions_seqno. unfold U64_MAX. lia.
Qed.
End Open.
