(* ===== verification/EngineRun.v ===== *)
(** Scripts of operations on a database ([crates/paddock-core/src/engine.rs]),
    against a plain map from keys to values.

    [run_script] opens a directory and runs writes, flushes, compactions and
    reopenings; [spec_cmd] is what each does to the map.  [room] checks, on the
    concrete state, that the next command stays within the limits of the formats
    and counters. *)

From stdpp Require Import functions.
From S2P Require Import Prelude Varint Checksum Vfs VfsLaws WalBatch WalFormat WalLayout WalWriter.
From S2P Require Import WalReader Bloom SstFormat Block Crypto SstWriter SstReader Frames FileNames.
From S2P Require Import InternalKey Arena SkipList Merger Versions History SstTable Compact RangeIter Engine.
From S2P Require Import EngineInv EngineDisk EngineReads EngineWrites EngineFlush EngineCompact EngineOpen.

(** * The specification *)

Abbreviation kv := (gmap bytes bytes).

Definition spec_op (m : kv) (op : Op) : kv :=
  match op with
  | Put key value => <[key := value]> m
  | Delete key => base.delete key m
  end.

Definition spec_batch (batch : WriteBatch) (m : kv) : kv := foldl spec_op m (ops batch).

Inductive cmd :=
  | CmdWrite (batch : WriteBatch)
  | CmdFlush
  | CmdCompact
  | CmdReopen.

Definition spec_cmd (m : kv) (c : cmd) : kv :=
  match c with
  | CmdWrite batch => spec_batch batch m
  | CmdFlush | CmdCompact | CmdReopen => m
  end.

Definition is_reopen (c : cmd) : bool := match c with CmdReopen => true | _ => false end.

(** * Histories and maps *)

(** The map a snapshot sees. *)
Definition shows (hist : list version) (snapshot : Z) (m : kv) : Prop :=
  ∀ key, newest hist key snapshot ≫= hit_result = m !! key.

Definition bounded (hist : list version) (snapshot : Z) : Prop := Forall (λ v, hit_seqno v.2 ≤ snapshot) hist.

Lemma newest_bounded hist key s s' : bounded hist s → bounded hist s' → newest hist key s = newest hist key s'.
Proof.
  intros Hs Hs'. unfold newest. induction hist as [|v hist IH]; [done|].
  apply Forall_cons in Hs as [Hv Hs], Hs' as [Hv' Hs']. cbn [foldr]. rewrite IH by done.
  unfold candidate. by rewrite !(proj2 (Z.leb_le _ _)) by done.
Qed.

Lemma shows_bounded hist s s' m : bounded hist s → bounded hist s' → shows hist s m → shows hist s' m.
Proof. intros Hs Hs' Hm key. by rewrite <-Hm, (newest_bounded hist key s s'). Qed.

(** A version on top of all others. *)
Lemma shows_op hist s m op :
  bounded hist s → shows hist s m → shows (op_version s op :: hist) s (spec_op m op).
Proof.
  intros Hb Hm key. change (newest (op_version s op :: hist) key s)
    with (pick (candidate key s (op_version s op)) (newest hist key s)).
  assert (∀ h, newest hist key s = Some h → hit_seqno h ≤ s) as Hle by (intros h [_ Hh]%newest_in; done).
  destruct op as [k v|k]; unfold candidate; cbn [op_version spec_op fst snd hit_seqno]; rewrite Z.leb_refl, andb_true_r;
    destruct (bytes_eqb k key) eqn:E.
  - apply bytes_eqb_eq in E as ->. rewrite lookup_insert_eq.
    destruct (newest hist key s) as [h|]; cbn; [|done]. specialize (Hle h eq_refl). by decide_bool.
  - rewrite lookup_insert_ne; [apply Hm|]. intros ->. by rewrite (proj2 (bytes_eqb_eq key key) eq_refl) in E.
  - apply bytes_eqb_eq in E as ->. rewrite lookup_delete_eq.
    destruct (newest hist key s) as [h|]; cbn; [|done]. specialize (Hle h eq_refl). by decide_bool.
  - rewrite lookup_delete_ne; [apply Hm|]. intros ->. by rewrite (proj2 (bytes_eqb_eq key key) eq_refl) in E.
Qed.

Lemma shows_commit hist s seqno batch m :
  bounded hist s → s < seqno → shows hist s m → shows (commit_history seqno batch hist) seqno (spec_batch batch m).
Proof.
  intros Hb Hs Hm. assert (bounded hist seqno) as Hb' by (eapply Forall_impl; [exact Hb|]; cbn; lia).
  apply (shows_bounded _ _ seqno) in Hm; [|done..]. unfold commit_history, batch_versions, spec_batch.
  induction (ops batch) as [|op l IH] using rev_ind; [done|].
  rewrite fmap_app, reverse_app, foldl_app. apply shows_op; [|done].
  apply Forall_app_2; [|done]. apply Forall_forall. intros v Hv.
  by rewrite (batch_versions_seqno seqno {| ops := l |} v Hv).
Qed.

(** Later commits do not show at an earlier snapshot. *)
Lemma newest_later new hist key s :
  Forall (λ v, s < hit_seqno v.2) new → newest (new ++ hist) key s = newest hist key s.
Proof.
  intros Hnew. rewrite newest_app. enough (newest new key s = None) as -> by done.
  apply newest_None. intros h Hh. rewrite Forall_forall in Hnew. by apply (Hnew _ Hh).
Qed.

(** * Scripts *)

#[global] Instance op_small_dec op : Decision (op_small op).
Proof. unfold op_small. apply _. Defined.
#[global] Instance flush_fits_dec l : Decision (flush_fits l).
Proof. unfold flush_fits. apply _. Defined.

(** [keys_size] of the records a stream yields. *)
Definition entries_size (es : list version) : Z := foldr (λ e n, len e.1 + 64 + n) 0 es.

Section Scripts.
Context `{Crc32c} `{Xxh3} `{AesGcm} `{Hkdf} {F W : Type} `{Vfs F W}.

(** [Db::open] again on the same directory, with the old handle dropped. *)
Definition reopen : st (Db F * W) () :=
  '(db, _) ← st_get;
  db' ← on_snd (open_with (db_data_dir db) (db_config db));
  on_fst (st_modify (λ _, db')).

Definition run_cmd (fuel : nat) (c : cmd) : st (Db F * W) () :=
  match c with
  | CmdWrite batch => write_batch batch
  | CmdFlush => flush
  | CmdCompact => compact_all fuel
  | CmdReopen => reopen
  end.

Fixpoint run_cmds (fuel : nat) (cmds : list cmd) : st (Db F * W) () :=
  match cmds with
  | [] => mret tt
  | c :: cmds => _ ← run_cmd fuel c; run_cmds fuel cmds
  end.

Definition run_script (fuel : nat) (dir : string) (config : DbConfig) (cmds : list cmd) (w : W) :
    outcome () * (option (Db F) * W) :=
  match open_with dir config w with
  | (Ok db, w) => let '(r, (db, w)) := run_cmds fuel cmds (db, w) in (r, (Some db, w))
  | (Err e, w) => (Err e, (None, w))
  | (Panic, w) => (Panic, (None, w))
  | (OutOfFuel, w) => (OutOfFuel, (None, w))
  end.

(** ** Limits *)

Definition mem_room (m : SkipList) : bool :=
  match skiplist_entries m with Ok l => bool_decide (flush_fits l) | _ => false end.

Definition load_table (fuel : nat) (w : W) (r : SstReader F) : option (list version) :=
  match scan_stream r with
  | Ok s => match (stream_collect fuel w s).1 with Ok es => Some es | _ => None end
  | _ => None
  end.

Definition load_tables (fuel : nat) (w : W) (db : Db F) : option (list (list version)) :=
  mapM (load_table fuel w) (ls_reader <$> sstables (db_state db)).

Definition counter_room (batch : WriteBatch) (db : Db F) : bool :=
  let wal := wc_wal (db_ctx db) in
  (db_seqno db + 2 <? 2 ^ 64) && (wc_next_file_number (db_ctx db) + 1 <? 2 ^ 64) &&
  (SEGMENT_HEADER_SIZE + bytes_written wal +
     len (record_bytes (bytes_written wal) (db_seqno db + 1, wire_batch batch)) <=? MAX_FILE_SIZE) &&
  (0 <=? wc_active_memtable_bytes (db_ctx db)) &&
  (wc_active_memtable_bytes (db_ctx db) + len (wire_batch batch) <? 2 ^ 64).

Definition write_room (batch : WriteBatch) (db : Db F) : bool :=
  bool_decide (batch_fits batch) && bool_decide (Forall op_small (ops batch)) && counter_room batch db.

Definition flush_room (db : Db F) : bool :=
  let mems := active_memtable (db_state db) :: (im_memtable <$> immutable_memtables (db_state db)) in
  (wc_next_file_number (db_ctx db) + len mems + 1 <? 2 ^ 64) && (db_seqno db + 1 <? 2 ^ 64) && forallb mem_room mems.

Definition compact_room (fuel : nat) (db : Db F) (w : W) : bool :=
  let capacity := Z.max (sstable_capacity_hint (db_config db))
                    (estimate_total_entries (ls_reader <$> sstables (db_state db))) in
  let bits := capacity * bloom_bits_per_key (db_config db) in
  (0 <=? bits) && (bits <? 2 ^ 34) && (wc_next_file_number (db_ctx db) + 1 <? 2 ^ 64) &&
  match load_tables fuel w db with
  | Some es => (entries_size (concat es) <? 2 ^ 30) && bool_decide (length (concat es) < fuel)%nat
  | None => false
  end.

Definition reopen_room (db : Db F) : bool :=
  (wc_next_file_number (db_ctx db) + 1 <? 2 ^ 64) && (db_seqno db <? U64_MAX).

Definition room (fuel : nat) (c : cmd) (s : Db F * W) : bool :=
  match c with
  | CmdWrite batch => write_room batch s.1
  | CmdFlush => flush_room s.1
  | CmdCompact => compact_room fuel s.1 s.2
  | CmdReopen => reopen_room s.1
  end.

(** Every table holds one version per key. *)
Definition single_versions (fuel : nat) (db : Db F) (w : W) : bool :=
  match load_tables fuel w db with
  | Some es => forallb (λ e, bool_decide (NoDup e.*1)) es
  | None => false
  end.

(** There is room for every command of a script where it runs. *)
Fixpoint cmds_room (fuel : nat) (cmds : list cmd) (s : Db F * W) : bool :=
  match cmds with
  | [] => true
  | c :: cmds =>
      room fuel c s &&
      match run_cmd fuel c s with
      | (Ok _, s) => cmds_room fuel cmds s
      | _ => true
      end
  end.

Definition script_room (fuel : nat) (dir : string) (config : DbConfig) (cmds : list cmd) (w : W) : bool :=
  match open_with dir config w with
  | (Ok db, w) => cmds_room fuel cmds (db, w)
  | _ => true
  end.
End Scripts.

(** * Reads *)

Section ReadsMap.
Context `{Crc32cLaws} `{Xxh3} `{AesGcmLaws} `{HkdfLaws} {F W : Type} `{VfsLaws F W} `{!ReliableReads F W}.

(** Range scans at [snap] return the map: every range ends, in key order, with
    exactly the map's entries in it. *)
Definition reads_at (db : Db F) (w : W) (snap : Snapshot) (m : kv) : Prop :=
  ∀ start end_, ∃ n : nat, ∀ fuel, (n < fuel)%nat →
  ∃ it out, range_bounds start end_ snap db = Ok it ∧
    (collect_records fuel (fuel, w) fuel it).1 = Ok out ∧ StronglySorted rr_lt out ∧
    (λ r, (rr_key r, rr_value r)) <$> out ≡ₚ
      filter (λ e, in_range start end_ e.1 = true) (map_to_list m).

Lemma rr_sorted_NoDup out : StronglySorted rr_lt out → NoDup ((λ r, (rr_key r, rr_value r)) <$> out).
Proof.
  induction 1 as [|r out _ IH Hr]; [constructor|]. rewrite fmap_cons. constructor; [|done].
  intros (r' & [= E _] & Hin)%list_elem_of_fmap. rewrite Forall_forall in Hr. specialize (Hr r' Hin).
  unfold rr_lt, bytes_ltb in Hr. by rewrite E, bytes_cmp_refl in Hr.
Qed.

Lemma shows_range hist s m start end_ out :
  shows hist s m → StronglySorted rr_lt out →
  (∀ r, r ∈ out ↔ in_range start end_ (rr_key r) = true ∧ newest hist (rr_key r) s = Some (put_of r)) →
  (λ r, (rr_key r, rr_value r)) <$> out ≡ₚ filter (λ e, in_range start end_ e.1 = true) (map_to_list m).
Proof.
  intros Hm Hs Hiff. apply NoDup_Permutation.
  { by apply rr_sorted_NoDup. }
  { apply NoDup_filter, NoDup_map_to_list. }
  intros [k v]. rewrite list_elem_of_fmap, list_elem_of_filter, elem_of_map_to_list, <-Hm. cbn [fst]. split.
  - intros (r & [= -> ->] & [Hin ->]%Hiff). done.
  - intros [Hin Hv]. destruct (newest hist k s) as [[s' op v']|] eqn:En; [|done].
    destruct op; [|done]. injection Hv as ->. exists {| rr_key := k; rr_value := v; rr_seqno := s' |}.
    split; [done|]. by apply Hiff.
Qed.

Lemma shows_scan db (w : W) ls tables hist start end_ snap (fuel : nat) m :
  db_content db w ls tables → represents (sources_of ls tables) hist → shows hist (snap_seqno snap) m →
  (length (versions_of ls tables) < fuel)%nat →
  ∃ it out, range_bounds start end_ snap db = Ok it ∧
    (collect_records fuel (fuel, w) fuel it).1 = Ok out ∧ StronglySorted rr_lt out ∧
    (λ r, (rr_key r, rr_value r)) <$> out ≡ₚ filter (λ e, in_range start end_ e.1 = true) (map_to_list m).
Proof.
  intros Hc Hr Hm Hfuel.
  destruct (scan_exact db w ls tables hist start end_ snap fuel Hc Hr Hfuel) as (it & out & E & Eo & Hs & Hiff).
  exists it, out. split_and!; [done..|]. by eapply shows_range.
Qed.

Lemma shows_reads db (w : W) ls tables hist snap m :
  db_content db w ls tables → represents (sources_of ls tables) hist → shows hist (snap_seqno snap) m →
  reads_at db w snap m.
Proof.
  intros Hc Hr Hm start end_. exists (length (versions_of ls tables)). intros fuel. by eapply shows_scan.
Qed.

(** * Room *)

Lemma write_room_fits batch (db : Db F) : write_room batch db = true → commit_fits db batch.
Proof.
  unfold write_room, counter_room. rewrite !andb_true_iff, !bool_decide_eq_true, !Z.ltb_lt, !Z.leb_le.
  intros [[? ?] [[[[? ?] ?] ?] ?]]. by split.
Qed.

Lemma mem_room_fits ms ls :
  Forall2 mem_ok ms ls → forallb mem_room ms = true → Forall flush_fits ls.
Proof.
  induction 1 as [|m l ms ls [ps Hrep] _ IH]; [done|]. cbn [forallb]. rewrite andb_true_iff. intros [Hm Hms].
  constructor; [|by apply IH]. unfold mem_room in Hm.
  rewrite (skiplist_entries_spec _ _ _ _ (sr_shape _ _ _ Hrep)) in Hm. by apply bool_decide_eq_true in Hm.
Qed.

Lemma load_table_entries fuel (w : W) (r : SstReader F) rs es :
  table_of r w rs → load_table fuel w r = Some es → es = entries rs.
Proof.
  intros [(chunks & ents & Hr) _ _ _ _]. unfold load_table.
  destruct (stream_all_records r w rs chunks ents Hr) as (s & -> & Hs).
  destruct (stream_collect fuel w s) as [[out| | |] s'] eqn:E; try done. cbn [fst]. intros [= <-].
  destruct (stream_collect_Ok r w rs chunks ents Hr fuel s _ out Hs) as [-> _]; [by rewrite E|done].
Qed.

Lemma load_tables_entries fuel (w : W) (db : Db F) ls tables es :
  db_content db w ls tables → load_tables fuel w db = Some es → es = entries <$> tables.
Proof.
  intros [_ Ht]. unfold load_tables. fold (db_readers db). rewrite mapM_Some. revert tables Ht.
  intros tables Ht Hes. revert tables Ht. induction Hes as [|r e readers es Hr _ IH]; intros tables Ht.
  { by apply Forall2_nil_inv_l in Ht as ->. }
  apply Forall2_cons_inv_l in Ht as (rs & tables' & Hrs & Ht & ->). rewrite fmap_cons.
  by rewrite (load_table_entries _ _ _ _ _ Hrs Hr), (IH tables' Ht).
Qed.

Lemma entries_keys_size rs : entries_size (entries rs) = keys_size rs.
Proof. unfold entries_size, keys_size. induction rs as [|r rs IH]; [done|]. cbn. by rewrite <-IH. Qed.

Lemma compact_room_fits fuel (db : Db F) (w : W) ls tables :
  db_content db w ls tables → compact_room fuel db w = true →
  compact_fits db tables ∧ (length (concat tables) < fuel)%nat.
Proof.
  intros Hc. unfold compact_room. rewrite !andb_true_iff, !Z.ltb_lt, Z.leb_le. intros [[[Hb0 Hb] Hn] Hl].
  destruct (load_tables fuel w db) as [es|] eqn:E; [|done].
  apply (load_tables_entries _ _ _ _ _ _ Hc) in E as ->. rewrite concat_entries, entries_keys_size, length_fmap in Hl.
  rewrite andb_true_iff, Z.ltb_lt, bool_decide_eq_true in Hl. destruct Hl. done.
Qed.

Lemma single_versions_NoDup fuel (db : Db F) (w : W) ls tables :
  db_content db w ls tables → single_versions fuel db w = true → Forall (λ rs, NoDup (br_key <$> rs)) tables.
Proof.
  intros Hc. unfold single_versions. destruct (load_tables fuel w db) as [es|] eqn:E; [|done].
  apply (load_tables_entries _ _ _ _ _ _ Hc) in E as ->. intros Hall. apply Forall_forall. intros rs Hrs.
  pose proof (proj1 (forallb_forall _ _) Hall (entries rs)) as Hnd. cbn beta in Hnd.
  assert ((entries rs).*1 = br_key <$> rs) as Ek by (rewrite <-list_fmap_compose; by apply list_fmap_ext).
  rewrite <-Ek. eapply bool_decide_eq_true, Hnd. apply list_elem_of_In. by apply list_elem_of_fmap_2.
Qed.

(** * Runs *)

(** The state [s] holds the history [hist], which shows [m]; while the
    directory has not been opened again ([aged]) sources are in order of age. *)
Record holds (dir : string) (config : DbConfig) (aged : bool) (s : Db F * W) (hist : list version) (m : kv) : Prop := {
  ho_inv : ∃ ls tables, db_inv s.1 s.2 hist ls tables ∧ (aged = true → by_age (sources_of ls tables));
  ho_dir : db_data_dir s.1 = dir;
  ho_config : db_config s.1 = config;
  ho_shows : shows hist (db_seqno s.1) m
}.

Lemma inv_bounded db (w : W) hist ls tables : db_inv db w hist ls tables → bounded hist (db_seqno db).
Proof. intros [_ Hb _ _]. eapply Forall_impl; [exact Hb|]. cbn. lia. Qed.

Lemma holds_same dir config aged aged' (s s' : Db F * W) hist m ls tables :
  holds dir config aged s hist m → same_db s.1 s'.1 → db_inv s'.1 s'.2 hist ls tables →
  (aged' = true → by_age (sources_of ls tables)) → holds dir config aged' s' hist m.
Proof.
  intros [_ Hd Hc Hs] [E1 E2 E3] Hinv Hage. split; [by exists ls, tables|congruence|congruence|by rewrite E3].
Qed.

Lemma inv_table_count db (w : W) hist ls tables : db_inv db w hist ls tables → sstable_count db = len tables.
Proof.
  intros [[[_ Ht] _ _ _ _] _ _ _]. apply Forall2_length in Ht. unfold db_readers in Ht. rewrite length_fmap in Ht.
  unfold sstable_count. lia.
Qed.

(** What one command adds to the history, and what it does to the sequence
    number and the number of tables. *)
Definition cmd_effect (s : Db F * W) (c : cmd) (new : list version) (s' : Db F * W) : Prop :=
  match c with
  | CmdWrite batch => new = batch_versions (db_seqno s.1 + 1) batch ∧ db_seqno s'.1 = db_seqno s.1 + 1
  | CmdFlush =>
      new = [] ∧ db_seqno s'.1 = db_seqno s.1 ∧ sstable_count s'.1 = sstable_count s.1 + flush_count s.1
  | CmdCompact =>
      new = [] ∧ db_seqno s'.1 = db_seqno s.1 ∧
      sstable_count s'.1 = (if sstable_count s.1 <? 2 then sstable_count s.1 else 1)
  | CmdReopen => True
  end.

(** What one command does: the history grows by versions above it. *)
Definition cmd_post (dir : string) (config : DbConfig) (aged : bool) (s : Db F * W) (hist : list version) (m : kv)
    (c : cmd) (s' : Db F * W) : Prop :=
  ∃ new, holds dir config (aged && negb (is_reopen c)) s' (new ++ hist) (spec_cmd m c) ∧
    (is_reopen c = false → db_seqno s.1 ≤ db_seqno s'.1 ∧ Forall (λ v, db_seqno s.1 < hit_seqno v.2) new) ∧
    cmd_effect s c new s'.

Lemma wp_write_cmd dir config aged (s : Db F * W) hist m batch :
  holds dir config aged s hist m → write_room batch s.1 = true →
  wp (write_batch batch) (λ _ _, write_faults F W) (λ _, cmd_post dir config aged s hist m (CmdWrite batch)) s.
Proof.
  intros [(ls & tables & Hinv & Hage) Hd Hc Hs] Hroom%write_room_fits. destruct s as [db w]. cbn [fst snd] in *.
  eapply wp_mono; [by apply (wp_commit db w batch hist ls tables)|by intros e s' [? _]|].
  intros _ s' (ls' & [Hinv' Hage' [E1 E2 E3]]). cbn [db_set_seqno db_data_dir db_config db_seqno] in *.
  exists (batch_versions (db_seqno db + 1) batch). rewrite andb_true_r. split_and!; [| |by split].
  - split; [exists ls', tables; split; [done|by auto]|congruence|congruence|]. rewrite E3.
    apply (shows_commit _ (db_seqno db)); [by eapply inv_bounded|lia|done].
  - intros _. cbn [fst]. rewrite E3. split; [lia|]. apply Forall_forall. intros v ->%batch_versions_seqno. lia.
Qed.

Lemma wp_flush_cmd dir config aged (s : Db F * W) hist m :
  config_ok config → holds dir config aged s hist m → flush_room s.1 = true →
  wp flush (λ _ _, write_faults F W) (λ _, cmd_post dir config aged s hist m CmdFlush) s.
Proof.
  intros Hcfg Hho Hroom. pose proof Hho as [(ls & tables & Hinv & Hage) _ Hc _]. destruct s as [db w]. cbn [fst snd] in *.
  pose proof (dc_mems _ _ _ _ (co_content _ _ _ _ (dv_core _ _ _ _ _ Hinv))) as Hm.
  unfold flush_room in Hroom. fold (db_memtables db) (db_next db) in Hroom.
  rewrite !andb_true_iff, !Z.ltb_lt, (Forall2_length _ _ _ Hm) in Hroom. destruct Hroom as [[Hn Hsq] Hk].
  eapply wp_mono; [apply (wp_flush db w hist ls tables); [done|done|done|by rewrite Hc|by eapply mem_room_fits]|by intros e s' [? _]|].
  intros _ s' (tables' & Hinv' & Hsame & Hage' & Hcount). exists []. rewrite andb_true_r. cbn [app].
  split_and!; [| |split_and!; [done|apply Hsame|]].
  - by eapply holds_same; [exact Hho|done|exact Hinv'|auto].
  - intros _. cbn [fst]. rewrite (sd_seqno _ _ Hsame). split; [lia|constructor].
  - cbn [fst]. by rewrite (inv_table_count _ _ _ _ _ Hinv), (inv_table_count _ _ _ _ _ Hinv').
Qed.

Lemma wp_compact_cmd dir config aged fuel (s : Db F * W) hist m :
  config_ok config → holds dir config aged s hist m → compact_room fuel s.1 s.2 = true →
  wp (compact_all fuel) (λ _ _, write_faults F W) (λ _, cmd_post dir config aged s hist m CmdCompact) s.
Proof.
  intros Hcfg Hho Hroom. pose proof Hho as [(ls & tables & Hinv & Hage) _ Hc _]. destruct s as [db w]. cbn [fst snd] in *.
  apply (compact_room_fits _ _ _ ls tables) in Hroom as [Hfits Hfuel]; [|apply Hinv].
  eapply wp_mono; [apply (wp_compact_all fuel db w hist ls tables); (done || by rewrite Hc)|by intros e s' [? _]|].
  intros _ s' (tables' & Hinv' & Hsame & Ht). exists []. rewrite andb_true_r. cbn [app].
  split_and!; [| |split_and!; [done|apply Hsame|]].
  - eapply holds_same; [exact Hho|done|exact Hinv'|]. intros Ha.
    destruct Ht as [[_ ->]|(_ & rs & Hmg & ->)]; [auto|]. eapply merged_by_age; [done|by auto].
  - intros _. cbn [fst]. rewrite (sd_seqno _ _ Hsame). split; [lia|constructor].
  - cbn [fst]. rewrite (inv_table_count _ _ _ _ _ Hinv), (inv_table_count _ _ _ _ _ Hinv').
    destruct Ht as [[Hl ->]|(Hl & rs & Hmg & ->)]; cbn [length]; case_bool; (done || lia).
Qed.

(** Opening a directory that holds a history. *)
Lemma wp_open_holds dir config (w : W) hist log tab (s : Z) m :
  vfs_ok w → disk_ok dir config w hist log tab → dir_fits dir w hist → bounded hist s → shows hist s m →
  wp (open_with dir config) (λ _ _, write_faults F W) (λ db w', holds dir config false (db, w') hist m) w.
Proof.
  intros Hok Hd Hfits Hb Hm. eapply wp_mono; [by apply (wp_open dir config w hist log tab)|done|].
  intros db w' (Ed & Ec & _ & l & tables & Hinv). split; [by exists [l], tables|done|done|].
  apply (shows_bounded _ s); [done|by eapply inv_bounded|done].
Qed.

Lemma wp_reopen_cmd dir config aged (s : Db F * W) hist m :
  holds dir config aged s hist m → reopen_room s.1 = true →
  wp reopen (λ _ _, write_faults F W) (λ _, cmd_post dir config aged s hist m CmdReopen) s.
Proof.
  intros [(ls & tables & Hinv & _) Hd Hc Hs] Hroom. destruct s as [db w]. cbn [fst snd] in *.
  unfold reopen_room in Hroom. fold (db_next db) in Hroom. rewrite andb_true_iff, !Z.ltb_lt in Hroom.
  destruct Hroom as [Hn Hsq]. pose proof Hinv as [Hcore _ _ (log & tab & Hdk & _)].
  pose proof (inv_dir_fits _ _ _ _ _ Hinv Hn Hsq) as Hfits. rewrite Hd, Hc in *.
  unfold reopen. apply wp_bind, wp_get. rewrite Hd, Hc. apply wp_bind, wp_on_snd.
  eapply wp_mono; [apply (wp_open_holds dir config w hist log tab (db_seqno db) m); [apply Hcore|done..|by eapply inv_bounded|done]|done|].
  intros db' w' Hho. apply wp_on_fst, wp_modify. exists []. rewrite andb_false_r. by split_and!.
Qed.

Lemma wp_cmd dir config aged fuel c (s : Db F * W) hist m :
  config_ok config → holds dir config aged s hist m → room fuel c s = true →
  wp (run_cmd fuel c) (λ _ _, write_faults F W) (λ _, cmd_post dir config aged s hist m c) s.
Proof.
  intros Hcfg Hho. destruct c; cbn [run_cmd room]; intros Hroom.
  - by apply wp_write_cmd.
  - by apply wp_flush_cmd.
  - by apply wp_compact_cmd.
  - by apply wp_reopen_cmd.
Qed.

Definition no_reopen (cmds : list cmd) : bool := forallb (negb ∘ is_reopen) cmds.

Lemma wp_cmds dir config fuel cmds aged (s : Db F * W) hist m :
  config_ok config → holds dir config aged s hist m → cmds_room fuel cmds s = true →
  wp (run_cmds fuel cmds) (λ _ _, write_faults F W)
    (λ _ s', ∃ new, holds dir config (aged && no_reopen cmds) s' (new ++ hist) (foldl spec_cmd m cmds) ∧
       (no_reopen cmds = true → db_seqno s.1 ≤ db_seqno s'.1 ∧ Forall (λ v, db_seqno s.1 < hit_seqno v.2) new)) s.
Proof.
  intros Hcfg. revert aged s hist m. induction cmds as [|c cmds IH]; intros aged s hist m Hho Hroom; cbn [run_cmds].
  { apply wp_ret. exists []. rewrite andb_true_r. split; [done|]. intros _. split; [lia|constructor]. }
  cbn [cmds_room] in Hroom. apply andb_true_iff in Hroom as [Hr Hrest].
  pose proof (wp_cmd dir config aged fuel c s hist m Hcfg Hho Hr) as Hwp.
  apply wp_bind. unfold wp in Hwp. unfold wp at 1. destruct (run_cmd fuel c s) as [[[]|e| |] s1]; try done.
  destruct Hwp as (new & Hho1 & Hnew & _). eapply wp_mono; [exact (IH _ s1 (new ++ hist) (spec_cmd m c) Hho1 Hrest)|done|].
  intros _ s2 (new2 & Hho2 & Hnew2). exists (new2 ++ new). rewrite <-app_assoc. cbn [no_reopen forallb foldl].
  change (forallb (negb ∘ is_reopen) cmds) with (no_reopen cmds). unfold compose. split.
  - by rewrite andb_assoc.
  - intros [Hc Hcs]%andb_true_iff. apply negb_true_iff in Hc. destruct (Hnew Hc) as [Hle Hn], (Hnew2 Hcs) as [Hle2 Hn2].
    split; [lia|]. apply Forall_app_2; [|done]. eapply Forall_impl; [exact Hn2|]. cbn. lia.
Qed.

(** From an empty directory. *)
Lemma open_empty dir config (w : W) :
  vfs_ok w → (∀ name, named (F := F) w (dir +:+ "/" +:+ name) = None) → dir_ok F W dir →
  wp (open_with dir config) (λ _ _, write_faults F W) (λ db w', holds dir config true (db, w') [] ∅) w.
Proof.
  intros Hok Hnone Hdir.
  eapply wp_mono; [apply (wp_open dir config w [] (λ _, []) (λ _, []) Hok); [by apply disk_empty|by apply empty_dir_fits]|done|].
  intros db w' (Ed & Ec & _ & l & tables & Hinv). split; [exists [l], tables; split; [done|intros _]|done|done|done].
  pose proof (rp_sub _ _ (dv_rep _ _ _ _ _ Hinv)) as Hsub. clear -Hsub.
  assert (∀ src : list version, sub_history src [] → src = []) as Hnil.
  { intros [|v src] Hs; [done|]. destruct (sub_history_elem _ _ v Hs) as (v' & ?%not_elem_of_nil & _); [left|done]. }
  unfold by_age. induction Hsub as [|src srcs Hs _ IH]; constructor; [done|]. rewrite (Hnil src Hs).
  apply Forall_forall. by intros t _ a b ?%not_elem_of_nil.
Qed.

Lemma script_holds fuel dir config cmds (w : W) :
  vfs_ok w → (∀ name, named (F := F) w (dir +:+ "/" +:+ name) = None) → dir_ok F W dir →
  config_ok config → script_room fuel dir config cmds w = true →
  match run_script fuel dir config cmds w with
  | (Ok _, (db, w')) =>
      ∃ db' hist, db = Some db' ∧ holds dir config (no_reopen cmds) (db', w') hist (foldl spec_cmd ∅ cmds)
  | (Err _, _) => write_faults F W
  | _ => False
  end.
Proof.
  intros Hok Hnone Hdir Hcfg Hroom. pose proof (open_empty dir config w Hok Hnone Hdir) as Hopen.
  unfold run_script, script_room in *. unfold wp in Hopen.
  destruct (open_with dir config w) as [[db|e| |] w1]; try done.
  pose proof (wp_cmds dir config fuel cmds true (db, w1) [] ∅ Hcfg Hopen Hroom) as Hrun. unfold wp in Hrun.
  destruct (run_cmds fuel cmds (db, w1)) as [[[]|e| |] [db2 w2]]; try done.
  destruct Hrun as (new & Hho & _). by exists db2, (new ++ []).
Qed.

(** After a crash in the middle of a write. *)
Lemma cut_holds dir config aged db batch (w1 w2 : W) hist m :
  holds dir config aged (db, w1) hist m → commit_fits db batch →
  cut_commit db batch w1 w2 →
  ∃ m', (m' = m ∨ m' = spec_batch batch m) ∧
    wp (open_with dir config) (λ _ _, write_faults F W)
      (λ db' w', ∃ hist', holds dir config false (db', w') hist' m') w2.
Proof.
  intros [(ls & tables & Hinv & _) Ed Ec Hs] Hbatch Hcut. cbn [fst snd] in *.
  destruct (cut_disk db batch w1 w2 hist ls tables Hinv Hbatch Hcut) as (hist' & log & tab & Hor & Hd).
  pose proof (cut_dir_fits _ _ _ _ _ hist' _ _ Hinv Hbatch Hcut Hor) as Hfits. rewrite Ed, Ec in *.
  pose proof (inv_bounded _ _ _ _ _ Hinv) as Hb. assert (vfs_ok w2) as Hok2 by (apply Hcut, Hinv).
  assert (∃ s m', (m' = m ∨ m' = spec_batch batch m) ∧ bounded hist' s ∧ shows hist' s m') as (s & m' & Hm & Hb' & Hs').
  { destruct Hor as [->| ->]; [exists (db_seqno db), m; auto|]. exists (db_seqno db + 1), (spec_batch batch m).
    split_and!; [by right| |apply (shows_commit _ (db_seqno db)); [done|lia|done]].
    apply Forall_app_2; [apply Forall_forall; by intros v ->%batch_versions_seqno|].
    eapply Forall_impl; [exact Hb|]. cbn. lia. }
  exists m'. split; [done|]. eapply wp_mono; [by apply (wp_open_holds dir config w2 hist' log tab s m')|done|].
  intros db' w' Hho. by exists hist'.
Qed.
End ReadsMap.

(** * Properties *)

Section Claims.
Context `{Crc32cLaws} `{Xxh3} `{AesGcmLaws} `{HkdfLaws} {F W : Type} `{VfsLaws F W} `{!ReliableReads F W}.
Variables (fuel : nat) (dir : string) (config : DbConfig) (w : W).
Hypotheses (Hok : vfs_ok w) (Hempty : ∀ name, named (F := F) w (dir +:+ "/" +:+ name) = None)
  (Hdir : dir_ok F W dir) (Hcfg : config_ok config).

(** C1. The database is a map.  Open an empty directory and run any script of
    writes, flushes, compactions and reopenings that stays within the limits of
    the formats: no step panics or loops, it fails only if the file system does,
    and at the end a scan of any range returns, in key order, exactly the
    entries of the map that the script's writes build. *)
Theorem engine_refines_map (cmds : list cmd) (Hroom : script_room fuel dir config cmds w = true) :
  match run_script fuel dir config cmds w with
  | (Ok _, (Some db, w')) => reads_at db w' (snapshot db) (foldl spec_cmd ∅ cmds)
  | (Err _, _) => write_faults F W
  | _ => False
  end.
Proof.
  pose proof (script_holds fuel dir config cmds w Hok Hempty Hdir Hcfg Hroom) as Hrun.
  destruct (run_script fuel dir config cmds w) as [[[]|e| |] [db w']]; try done.
  destruct Hrun as (db' & hist & -> & [(ls & tables & Hinv & _) _ _ Hs]). eapply shows_reads; [apply Hinv..|done].
Qed.

(** C3. Snapshots are stable.  A snapshot taken after one script still shows
    exactly the map of that moment after any further writes, flushes and
    compactions. *)
Theorem engine_snapshot_stable (before after : list cmd) (db : Db F) (w1 : W)
    (Hroom : script_room fuel dir config before w = true)
    (Hbefore : run_script fuel dir config before w = (Ok tt, (Some db, w1)))
    (Hroom' : cmds_room fuel after (db, w1) = true) (Hopen : no_reopen after = true) :
  match run_cmds fuel after (db, w1) with
  | (Ok _, (db', w')) => reads_at db' w' (snapshot db) (foldl spec_cmd ∅ before)
  | (Err _, _) => write_faults F W
  | _ => False
  end.
Proof.
  pose proof (script_holds fuel dir config before w Hok Hempty Hdir Hcfg Hroom) as Hrun.
  rewrite Hbefore in Hrun. destruct Hrun as (db0 & hist & [= <-] & Hho).
  pose proof (wp_cmds dir config fuel after _ (db, w1) hist _ Hcfg Hho Hroom') as Hrun. unfold wp in Hrun.
  destruct (run_cmds fuel after (db, w1)) as [[[]|e| |] [db' w']]; try done.
  destruct Hrun as (new & [(ls & tables & Hinv & _) _ _ _] & Hnew). destruct (Hnew Hopen) as [_ Hnew'].
  eapply shows_reads; [apply Hinv..|]. intros key. rewrite newest_later by done. apply Hho.
Qed.

(** C2. Crash recovery.  Let a script have run, and let a further batch be cut
    off anywhere while its record goes to the log.  Opening the directory then
    succeeds (unless the file system fails) and finds exactly the map of the
    script, or that map with the whole batch applied: no acknowledged write is
    lost and the batch is never torn. *)
Theorem engine_crash_recovery (cmds : list cmd) (batch : WriteBatch) (db : Db F) (w1 w2 : W)
    (Hroom : script_room fuel dir config cmds w = true)
    (Hrun : run_script fuel dir config cmds w = (Ok tt, (Some db, w1)))
    (Hbatch : write_room batch db = true) (Hcut : cut_commit db batch w1 w2) :
  match open_with dir config w2 with
  | (Ok db', w') =>
      let m := foldl spec_cmd ∅ cmds in
      reads_at db' w' (snapshot db') m ∨ reads_at db' w' (snapshot db') (spec_batch batch m)
  | (Err _, _) => write_faults F W
  | _ => False
  end.
Proof.
  pose proof (script_holds fuel dir config cmds w Hok Hempty Hdir Hcfg Hroom) as Hscript.
  rewrite Hrun in Hscript. destruct Hscript as (db0 & hist & [= <-] & Hho).
  apply write_room_fits in Hbatch.
  destruct (cut_holds dir config _ db batch w1 w2 hist _ Hho Hbatch Hcut) as (m' & Hm' & Hopen).
  unfold wp in Hopen. destruct (open_with dir config w2) as [[db'|e| |] w']; try done.
  destruct Hopen as (hist' & [(ls & tables & Hinv & _) _ _ Hs]).
  assert (reads_at db' w' (snapshot db') m') as Hreads by (by eapply shows_reads; [apply Hinv..|]).
  destruct Hm' as [->| ->]; [by left|by right].
Qed.

(** C16. Point lookups on the map.  After a script without reopenings, where no
    table holds a key twice, [get] returns exactly what the map holds under the
    key, and changes nothing but the filters' counters. *)
Theorem engine_get_refines_map (cmds : list cmd) (db : Db F) (w1 : W) (avx2 : bool) (key : bytes)
    (Hroom : script_room fuel dir config cmds w = true)
    (Hrun : run_script fuel dir config cmds w = (Ok tt, (Some db, w1)))
    (Hopen : no_reopen cmds = true) (Hsingle : single_versions fuel db w1 = true) :
  ∃ db', get avx2 key (db, w1) = (Ok (foldl spec_cmd ∅ cmds !! key), (db', w1)).
Proof.
  pose proof (script_holds fuel dir config cmds w Hok Hempty Hdir Hcfg Hroom) as Hscript.
  rewrite Hrun in Hscript. destruct Hscript as (db0 & hist & [= <-] & [(ls & tables & Hinv & Hage) _ _ Hs]).
  rewrite <-Hs. cbn [fst snd] in *. pose proof Hinv as [[Hc _ _ _ _] _ Hrep _].
  destruct (lookup_exact avx2 key (snapshot db) db w1 ls tables hist Hc Hrep (by_age_for _ _ (Hage Hopen)))
    as (db' & E & _).
  { by eapply single_versions_NoDup. }
  exists db'. unfold get. rewrite run_get. exact E.
Qed.
End Claims.

(** C17. Point lookups never invent a value.  On any database that holds a history,
    whatever its tables, [get_at] returns without error or panic, and a value it
    returns is the value of a version of that key that is in the database, was
    put, and is not above the snapshot. *)
Theorem engine_get_sound `{Crc32cLaws} `{Xxh3} `{AesGcmLaws} {F W : Type} `{VfsLaws F W}
    `{!ReliableReads F W} (db : Db F) (w : W) (ls : list (list MemEntry)) (tables : list (list BlockRecord))
    (avx2 : bool) (key : bytes) (snap : Snapshot) (Hinv : db_content db w ls tables) :
  ∃ res db', get_at avx2 key snap (db, w) = (Ok res, (db', w)) ∧ db_content db' w ls tables ∧
    ∀ v, res = Some v → ∃ h, (key, h) ∈ versions_of ls tables ∧ hit_seqno h ≤ snap_seqno snap ∧
      hit_op h = OpPut ∧ hit_value h = v.
Proof.
  destruct (lookup_sound avx2 key snap db w ls tables Hinv) as (res & ssts & Hsame & E & Hres).
  exists res, (db_counted ssts db). split_and!; [done|by apply db_content_counted|done].
Qed.

(** ** The properties on a concrete database *)

Definition demo_config : DbConfig :=
  {| memtable_threshold_bytes := 4096; bloom_bits_per_key := 10; bloom_num_hashes := 2;
     sstable_capacity_hint := 4; master_key := None |}.

Definition demo_script : list cmd :=
  [CmdWrite {| ops := [Put [97] [1]; Put [98] [2]] |}; CmdFlush;
   CmdWrite {| ops := [Put [97] [3]; Delete [98]] |}; CmdFlush; CmdCompact;
   CmdWrite {| ops := [Put [99] [4]] |}; CmdReopen; CmdWrite {| ops := [Put [100] [5]] |}].

Definition demo_run (cmds : list cmd) : outcome () * (option (Db MemFile) * MemVfs) :=
  run_script 20 "/db" demo_config cmds mem_new.

Lemma demo_names name : named (F := MemFile) mem_new ("/db" +:+ "/" +:+ name) = None.
Proof. reflexivity. Qed.

Lemma demo_config_ok : config_ok demo_config.
Proof. unfold config_ok, is_u8. cbn. lia. Qed.

Lemma engine_refines_map_witness :
  script_room (F := MemFile) 20 "/db" demo_config demo_script mem_new = true ∧
  ∃ db w, demo_run demo_script = (Ok tt, (Some db, w)) ∧
    reads_at db w (snapshot db) {[ [97] := [3]; [99] := [4]; [100] := [5] ]}.
Proof.
  assert (script_room (F := MemFile) 20 "/db" demo_config demo_script mem_new = true) as Hroom
    by (vm_compute; reflexivity).
  split; [exact Hroom|].
  pose proof (engine_refines_map 20 "/db" demo_config mem_new mem_new_ok demo_names eq_refl demo_config_ok
    demo_script Hroom) as H.
  unfold demo_run. destruct (run_script 20 "/db" demo_config demo_script mem_new) as [[[]|e| |] [[db|] w]]; try destruct H.
  exists db, w. split; [reflexivity|exact H].
Defined.

Lemma engine_snapshot_stable_witness :
  ∃ (db : Db MemFile) (w1 : MemVfs) (db' : Db MemFile) (w' : MemVfs),
    demo_run [CmdWrite {| ops := [Put [97] [1]; Put [98] [2]] |}; CmdFlush] = (Ok tt, (Some db, w1)) ∧
    run_cmds 20 [CmdWrite {| ops := [Put [97] [3]; Delete [98]] |}; CmdFlush; CmdCompact] (db, w1)
      = (Ok tt, (db', w')) ∧
    reads_at db' w' (snapshot db) {[ [97] := [1]; [98] := [2] ]}.
Proof.
  set (before := [CmdWrite {| ops := [Put [97] [1]; Put [98] [2]] |}; CmdFlush]).
  set (after := [CmdWrite {| ops := [Put [97] [3]; Delete [98]] |}; CmdFlush; CmdCompact]).
  assert (script_room (F := MemFile) 20 "/db" demo_config before mem_new = true) as Hroom by (vm_compute; reflexivity).
  assert (match demo_run before with (Ok _, (Some db, w)) => cmds_room 20 after (db, w) | _ => false end = true) as Hafter
    by (vm_compute; reflexivity).
  unfold demo_run in *.
  destruct (run_script 20 "/db" demo_config before mem_new) as [[[]|e| |] [[db|] w1]] eqn:E; try discriminate Hafter.
  pose proof (engine_snapshot_stable 20 "/db" demo_config mem_new mem_new_ok demo_names eq_refl demo_config_ok
    before after db w1 Hroom E Hafter eq_refl) as H.
  exists db, w1. destruct (run_cmds 20 after (db, w1)) as [[[]|e| |] [db' w']]; try destruct H.
  exists db', w'. split; [reflexivity|]. split; [reflexivity|exact H].
Defined.

(** The first [n] bytes of the next record reach the log. *)
Definition demo_cut (n : nat) (batch : WriteBatch) (db : Db MemFile) (w : MemVfs) : MemVfs :=
  let wal := wc_wal (db_ctx db) in
  (vf_append (file wal) (take n (record_bytes (bytes_written wal) (db_seqno db + 1, wire_batch batch))) w).2.

Lemma demo_cut_commit n batch db w : cut_commit db batch w (demo_cut n batch db w).
Proof.
  unfold demo_cut. split; [apply mem_set_only|]. eexists. split; [apply mem_contents_set_eq|]. apply prefix_take.
Qed.

Lemma engine_crash_recovery_witness :
  ∃ (db : Db MemFile) (w1 : MemVfs) (db' : Db MemFile) (w' : MemVfs),
    demo_run demo_script = (Ok tt, (Some db, w1)) ∧
    open_with "/db" demo_config (demo_cut 9 {| ops := [Put [97] [6]; Put [98] [7]] |} db w1) = (Ok db', w') ∧
    let m : kv := {[ [97] := [3]; [99] := [4]; [100] := [5] ]} in
    (reads_at db' w' (snapshot db') m ∨ reads_at db' w' (snapshot db') (<[[98] := [7]]> (<[[97] := [6]]> m))).
Proof.
  set (batch := {| ops := [Put [97] [6]; Put [98] [7]] |}).
  assert (script_room (F := MemFile) 20 "/db" demo_config demo_script mem_new = true) as Hroom
    by (vm_compute; reflexivity).
  assert (match demo_run demo_script with (Ok _, (Some db, w)) => write_room batch db | _ => false end = true) as Hafter
    by (vm_compute; reflexivity).
  unfold demo_run in *.
  destruct (run_script 20 "/db" demo_config demo_script mem_new) as [[[]|e| |] [[db|] w1]] eqn:E; try discriminate Hafter.
  pose proof (engine_crash_recovery 20 "/db" demo_config mem_new mem_new_ok demo_names eq_refl demo_config_ok
    demo_script batch db w1 (demo_cut 9 batch db w1) Hroom E Hafter (demo_cut_commit 9 batch db w1)) as H.
  exists db, w1. destruct (open_with "/db" demo_config (demo_cut 9 batch db w1)) as [[db'|e| |] w']; try destruct H.
  - exists db', w'. split; [reflexivity|]. split; [reflexivity|left; exact H].
  - exists db', w'. split; [reflexivity|]. split; [reflexivity|right; exact H].
Defined.

Lemma engine_get_refines_map_witness :
  ∃ (db : Db MemFile) (w1 : MemVfs) (db' db'' : Db MemFile),
    demo_run (take 4 demo_script ++ [CmdWrite {| ops := [Put [99] [4]] |}]) = (Ok tt, (Some db, w1)) ∧
    get false [97] (db, w1) = (Ok (Some [3]), (db', w1)) ∧ get true [98] (db, w1) = (Ok None, (db'', w1)).
Proof.
  set (script := take 4 demo_script ++ [CmdWrite {| ops := [Put [99] [4]] |}]).
  assert (script_room (F := MemFile) 20 "/db" demo_config script mem_new = true) as Hroom
    by (vm_compute; reflexivity).
  assert (match demo_run script with (Ok _, (Some db, w)) => single_versions 20 db w | _ => false end = true) as Hs
    by (vm_compute; reflexivity).
  unfold demo_run in *.
  destruct (run_script 20 "/db" demo_config script mem_new) as [[[]|e| |] [[db|] w1]] eqn:E; try discriminate Hs.
  pose proof (λ b key, engine_get_refines_map 20 "/db" demo_config mem_new mem_new_ok demo_names eq_refl demo_config_ok
    script db w1 b key Hroom E eq_refl Hs) as H.
  destruct (H false [97]) as [db1 H1], (H true [98]) as [db2 H2].
  exists db, w1, db1, db2. split; [reflexivity|]. split; [exact H1|exact H2].
Defined.

Lemma engine_get_sound_witness :
  ∃ (db : Db MemFile) (w : MemVfs) ls tables res db',
    demo_run demo_script = (Ok tt, (Some db, w)) ∧ db_content db w ls tables ∧
    get_at false [97] {| snap_seqno := 3 |} (db, w) = (Ok res, (db', w)) ∧
    ∀ v, res = Some v → ∃ h, ([97], h) ∈ versions_of ls tables ∧ hit_seqno h ≤ 3 ∧ hit_op h = OpPut ∧ hit_value h = v.
Proof.
  assert (script_room (F := MemFile) 20 "/db" demo_config demo_script mem_new = true) as Hroom
    by (vm_compute; reflexivity).
  pose proof (script_holds 20 "/db" demo_config demo_script mem_new mem_new_ok demo_names eq_refl demo_config_ok Hroom) as H.
  unfold demo_run. destruct (run_script 20 "/db" demo_config demo_script mem_new) as [[[]|e| |] [db w]]; try destruct H.
  destruct H as (hist & -> & [(ls & tables & [[Hc _ _ _ _] _ _ _] & _) _ _ _]).
  destruct (engine_get_sound x w ls tables false [97] {| snap_seqno := 3 |} Hc) as (res & db' & E & _ & Hres).
  exists x, w, ls, tables, res, db'. split; [reflexivity|]. split; [exact Hc|]. split; [exact E|exact Hres].
Defined.
