(* ===== verification/EngineIters.v ===== *)
(** Iterators that stay open ([crates/paddock-core/src/engine.rs]).

    A [DbRangeIter] reads its tables as it goes, while the database goes on: its
    tables may be merged away and unlinked, and new files written.  The first
    part shows which files an operation touches: the log it appends to, files
    that are new, and names.  The second shows that an iterator returns the map
    of the moment it was made, however its calls and the database's operations
    alternate. *)

From S2P Require Import Prelude Varint Checksum Vfs VfsLaws WalBatch WalFormat WalLayout WalWriter.
From S2P Require Import WalReader Bloom SstFormat Block Crypto SstWriter SstReader Frames FileNames.
From S2P Require Import InternalKey Arena SkipList Merger Versions History SstTable Compact RangeIter Engine.
From S2P Require Import EngineInv EngineDisk EngineReads EngineWrites EngineFlush EngineCompact EngineOpen EngineRun.

(** * Calls of an iterator between operations *)

Inductive iter_cmd := IterNext | IterCmd (c : cmd).

(** The operations among them. *)
Definition commands (steps : list iter_cmd) : list cmd :=
  omap (λ s, match s with IterNext => None | IterCmd c => Some c end) steps.

(** The number of calls. *)
Definition nexts (steps : list iter_cmd) : nat :=
  length (filter (λ s, match s with IterNext => true | IterCmd _ => false end = true) steps).

Section Runs.
Context `{Crc32c} `{Xxh3} `{AesGcm} `{Hkdf} {F W : Type} `{Vfs F W}.

Definition iter_next_step (k : nat) : st (DbRangeIter F * (Db F * W)) (option RangeRecord) :=
  '(_, (_, w)) ← st_get;
  on_fst (range_next k (k, w)).

(** The records that the calls return. *)
Fixpoint run_iter (fuel k : nat) (steps : list iter_cmd) :
    st (DbRangeIter F * (Db F * W)) (list (option RangeRecord)) :=
  match steps with
  | [] => mret []
  | IterNext :: steps => rec ← iter_next_step k; recs ← run_iter fuel k steps; mret (rec :: recs)
  | IterCmd c :: steps => _ ← on_snd (run_cmd fuel c); run_iter fuel k steps
  end.
End Runs.

(** * The files an operation touches *)

Section Files.
Context `{Crc32cLaws} `{Xxh3} `{AesGcmLaws} `{HkdfLaws} {F W : Type} `{VfsLaws F W}.

(** Live files stay as they are, the log that is written to excepted. *)
Definition keeps_files (s s' : Db F * W) : Prop :=
  ∀ f, live s.2 f → f ≠ file (db_wal s.1) →
    live s'.2 f ∧ contents f s'.2 = contents f s.2 ∧ f ≠ file (db_wal s'.1).

#[local] Instance keeps_files_preorder : PreOrder keeps_files.
Proof.
  split; [by intros s f|]. intros s1 s2 s3 H12 H23 f Hl Hf. destruct (H12 f Hl Hf) as (Hl2 & Hc2 & Hf2).
  destruct (H23 f Hl2 Hf2) as (Hl3 & Hc3 & Hf3). split_and!; [done|congruence|done].
Qed.

Lemma keeps_writes (db db' : Db F) (w w' : W) :
  only_writes (file (db_wal db)) w w' → file (db_wal db') = file (db_wal db) → keeps_files (db, w) (db', w').
Proof. intros Ho E f Hl Hf. cbn [fst snd] in *. rewrite E. split_and!; [by apply Ho|apply Ho; congruence|done]. Qed.

Lemma keeps_names p (db db' : Db F) (w w' : W) :
  only_names p w w' → file (db_wal db') = file (db_wal db) ∨ ¬ live w (file (db_wal db')) →
  keeps_files (db, w) (db', w').
Proof.
  intros Ho E f Hl Hf. cbn [fst snd] in *. split_and!; [by apply Ho|by apply Ho|].
  intros ->. destruct E as [E|E]; congruence.
Qed.

(** What the operations rely on: numbers not handed out are free, and those
    handed out make file names. *)
Record tidy (s : Db F * W) : Prop := {
  ti_ok : vfs_ok s.2;
  ti_dir : dir_ok F W (db_data_dir s.1);
  ti_next : 0 ≤ db_next s.1;
  ti_free n : db_next s.1 ≤ n → is_u64 n →
    sst_named (F := F) (db_data_dir s.1) s.2 n = None ∧ wal_named (F := F) (db_data_dir s.1) s.2 n = None;
  ti_wals : Forall is_u64 (db_wal_ids s.1);
  ti_ssts : Forall is_u64 (ls_id <$> sstables (db_state s.1))
}.

Definition moves (s s' : Db F * W) : Prop := tidy s' ∧ keeps_files s s'.

Lemma moves_trans s1 s2 s3 : moves s1 s2 → (tidy s2 → moves s2 s3) → moves s1 s3.
Proof. intros [Ht Hk] Hm. destruct (Hm Ht) as [Ht' Hk']. split; [done|by etrans]. Qed.

Lemma inv_tidy db (w : W) hist ls tables : db_inv db w hist ls tables → db_next db < 2 ^ 64 → tidy (db, w).
Proof.
  intros [[_ [Hok Hdir Hn Hfree _ _] [_ Hs _ Hw] _ _] _ _ _] Hnext. split; cbn [fst snd]; try done;
    (eapply Forall_impl; [eassumption|]); unfold is_u64; cbn; lia.
Qed.

(** A write to the log. *)
Lemma moves_wal (db db' : Db F) (w w' : W) :
  tidy (db, w) → only_writes (file (db_wal db)) w w' → file (db_wal db') = file (db_wal db) →
  db_data_dir db' = db_data_dir db → db_next db' = db_next db → db_wal_ids db' = db_wal_ids db →
  db_state db' = db_state db → moves (db, w) (db', w').
Proof.
  intros [Hok Hdir Hn Hfree Hw Hs] Ho Ef Ed En Ew Es. cbn [fst snd] in *. split; [|by apply keeps_writes].
  split; cbn [fst snd]; rewrite ?Ed, ?En, ?Ew, ?Es; try done; [by apply Ho|].
  intros n. unfold sst_named, wal_named. rewrite !(ow_named _ _ _ Ho). apply Hfree.
Qed.

(** A new file under the next number. *)
Lemma moves_new p (db db' : Db F) (w w' : W) :
  tidy (db, w) → is_u64 (db_next db) →
  p = sst_path (db_data_dir db) (db_next db) ∨ p = wal_segment_path (db_data_dir db) (db_next db) →
  only_names p w w' → file (db_wal db') = file (db_wal db) ∨ ¬ live w (file (db_wal db')) →
  db_data_dir db' = db_data_dir db → db_next db' = db_next db + 1 →
  Forall is_u64 (db_wal_ids db') → Forall is_u64 (ls_id <$> sstables (db_state db')) → moves (db, w) (db', w').
Proof.
  intros [Hok Hdir Hn Hfree _ _] Hu Hp Ho Ef Ed En Hw Hs. cbn [fst snd] in *. split; [|by eapply keeps_names].
  split; cbn [fst snd]; rewrite ?Ed, ?En; try done; [by apply Ho|lia|].
  intros n Hle Hn64. unfold sst_named, wal_named. rewrite !(on_named _ _ _ Ho); [apply Hfree; [lia|done]| |]; intros <-.
  - destruct Hp as [Hp|Hp]; [by symmetry in Hp; apply sst_wal_path_ne in Hp|]. apply wal_path_inj in Hp; [lia|done..].
  - destruct Hp as [Hp|Hp]; [apply sst_path_inj in Hp; [lia|done..]|by apply sst_wal_path_ne in Hp].
Qed.

(** A name that goes away. *)
Lemma moves_unlinked p (db : Db F) (w w' : W) : tidy (db, w) → unlinked (F := F) p w w' → moves (db, w) (db, w').
Proof.
  intros [Hok Hdir Hn Hfree Hw Hs] Hu. pose proof Hu as [Ho _]. split; [|eapply keeps_names; [done|by left]].
  split; cbn [fst snd] in *; try done; [by apply Ho|]. intros n Hle Hn64. destruct (Hfree n Hle Hn64) as [E1 E2].
  unfold sst_named, wal_named in *. split; apply eq_None_not_Some; intros [f Hf%(unlinked_named _ _ _ _ _ Hu)]; congruence.
Qed.
End Files.

(** ** The operations *)

Section Moves.
Context `{Crc32cLaws} `{Xxh3} `{AesGcmLaws} `{HkdfLaws} {F W : Type} `{VfsLaws F W}.

Lemma wlp_open_new p (w : W) (Q : F → W → Prop) :
  vfs_ok w → path_ok F W p → named w p = None → (∀ f w', only_names p w w' → ¬ live w f → Q f w') →
  wlp (open_writable p) Q w.
Proof.
  intros Hok Hp Hn HQ f w' E. pose proof (open_writable_only p w Hp) as Ho. rewrite E in Ho.
  apply HQ; [done|]. by eapply open_writable_new.
Qed.

Lemma wlp_reserve (db : Db F) (w : W) (Q : Z → Db F * W → Prop) :
  0 ≤ db_next db → (is_u64 (db_next db) → Q (db_next db) (db_reserved db, w)) → wlp reserve_file_number Q (db, w).
Proof.
  intros Hn HQ. unfold reserve_file_number. apply wlp_bind, wlp_get, wlp_bind, wlp_lift. intros next En.
  apply wlp_bind, wlp_on_fst, wlp_modify, wlp_ret. unfold checked_add in En. fold (db_next db) in *.
  destruct (Z.ltb_spec (db_next db + 1) (2 ^ 64)); [|done]. injection En as <-. apply HQ. unfold is_u64. lia.
Qed.

Lemma wlp_try_remove p (db : Db F) (w : W) (Q : () → Db F * W → Prop) :
  path_ok F W p → (∀ w', unlinked (F := F) p w w' → Q tt (db, w')) → wlp (try_remove p) Q (db, w).
Proof.
  intros Hp HQ a s' E. pose proof (wp_try_remove p db w (λ _ _, False) Q Hp HQ) as Hwp. unfold wp in Hwp.
  by rewrite E in Hwp.
Qed.

(** Appending to the log. *)
Lemma wlp_wal_moves {A} (m : st (SegmentWriter F * W) A) (db : Db F) (w : W) (Q : A → Db F * W → Prop) :
  tidy (db, w) → (∀ s, framed file m s) →
  (∀ a wal w', moves (db, w) (db_set_ctx (wc_set_wal wal (db_ctx db)) db, w') →
    Q a (db_set_ctx (wc_set_wal wal (db_ctx db)) db, w')) → wlp (on_wal m) Q (db, w).
Proof.
  intros Ht Hm HQ a s' E. unfold on_wal in E. destruct (Hm (wc_wal (db_ctx db), w)) as [Ef Ho].
  destruct (m _) as [r [wal w1]]. injection E as -> <-. apply HQ. by apply moves_wal.
Qed.

Lemma rotate_moves (db : Db F) (w : W) :
  tidy (db, w) → wlp rotate_memtable_locked (λ _, moves (db, w)) (db, w).
Proof.
  intros Ht. pose proof Ht as [Hok Hdir Hn Hfree Hw Hs]. cbn [fst snd] in *. unfold rotate_memtable_locked.
  apply wlp_bind, wlp_get, wlp_bind, wlp_lift. intros new _. apply wlp_bind, wlp_on_fst, wlp_modify.
  apply wlp_bind, wlp_reserve; [done|]. intros Hu. change (db_next _) with (db_next db) in *.
  apply wlp_bind, wlp_on_snd, wlp_open_new; [done|by apply wal_path_ok|by apply Hfree|]. intros f w1 Ho Hnew.
  apply wlp_bind, wlp_lift. intros first _. apply wlp_bind, wlp_on_snd. intros wal w2 Ec.
  pose proof (wal_create_only f (db_next db) first w1) as Hcr. rewrite Ec in Hcr.
  pose proof (wal_create_file _ _ _ _ _ _ Ec) as <-. apply wlp_on_fst, wlp_modify.
  eapply moves_new; [done|done|by right|by eapply only_names_new|by right|done|done| |done].
  constructor; [done|exact Hw].
Qed.

Lemma commit_moves batch (db : Db F) (w : W) :
  tidy (db, w) → wlp (commit_batch batch) (λ _, moves (db, w)) (db, w).
Proof.
  intros Ht. unfold commit_batch. apply wlp_bind, wlp_get, wlp_bind, wlp_on_fst, wlp_modify.
  apply wlp_bind, wlp_lift. intros seqno _. apply wlp_bind, wlp_lift. intros encoded _.
  set (db0 := db_set_seqno _ db).
  assert (moves (db, w) (db0, w)) as M0 by (by apply moves_wal).
  apply wlp_bind, wlp_wal_moves; [apply M0|apply append_record_framed|]. intros off wal1 w1 M1.
  apply wlp_bind, wlp_wal_moves; [apply M1|apply wal_sync_framed|]. intros [] wal2 w2 M2.
  assert (moves (db, w) (db_set_ctx (wc_set_wal wal2 (db_ctx (db_set_ctx (wc_set_wal wal1 (db_ctx db0)) db0)))
    (db_set_ctx (wc_set_wal wal1 (db_ctx db0)) db0), w2)) as M
    by (eapply moves_trans; [exact M0|intros _]; by eapply moves_trans; [exact M1|intros _]).
  apply wlp_bind. intros [] s3 E3. unfold on_active in E3. destruct (apply_batch_to_memtable _ _ _) as [r mem].
  injection E3 as -> <-. apply wlp_bind, wlp_lift. intros total _. apply wlp_bind, wlp_on_fst, wlp_modify.
  match goal with |- wlp _ _ (?x, w2) => set (db3 := x) end.
  assert (moves (db, w) (db3, w2)) as M3 by (destruct M as [[] ?]; by split; [split|]).
  destruct (_ <=? total); [|by apply wlp_ret]. eapply wlp_mono; [apply rotate_moves, M3|].
  intros [] s' M4. by eapply moves_trans; [exact M3|intros _].
Qed.

Lemma write_memtable_names mem n (db : Db F) (w : W) :
  vfs_ok w → path_ok F W (sst_path (db_data_dir db) n) → sst_named (F := F) (db_data_dir db) w n = None →
  wlp (write_memtable mem n) (λ _ s', s'.1 = db ∧ only_names (sst_path (db_data_dir db) n) w s'.2) (db, w).
Proof.
  intros Hok Hp Hn. unfold write_memtable. apply wlp_bind, wlp_get, wlp_bind, wlp_on_snd, wlp_open_new; [done..|].
  intros f w1 Ho Hnew. apply wlp_bind, wlp_lift. intros crypto _. apply wlp_bind, wlp_lift. intros nodes _.
  apply wlp_bind, wlp_on_snd. intros g w2 Et.
  match type of Et with write_table ?f ?a ?n ?p ?c ?rs ?w = _ => pose proof (write_table_only f a n p c rs w) as Hw end.
  rewrite Et in Hw. apply wlp_bind, wlp_get, wlp_bind, wlp_lift. intros f' _. apply wlp_lift. intros r _.
  split; [done|]. by eapply only_names_new.
Qed.

Lemma flush_one_moves im (db : Db F) (w : W) :
  tidy (db, w) → is_u64 (im_wal_segment_id im) → wlp (flush_one im) (λ _, moves (db, w)) (db, w).
Proof.
  intros Ht Him. pose proof Ht as [Hok Hdir Hn Hfree [Hw Hws]%Forall_cons Hs]. cbn [fst snd] in *. unfold flush_one.
  apply wlp_bind, wlp_reserve; [done|]. intros Hu. apply wlp_bind.
  eapply wlp_mono; [apply write_memtable_names; [done|by apply sst_path_ok|by apply Hfree]|].
  intros r [db1 w1] [E1 Ho]. cbn [fst snd] in *. subst db1. apply wlp_bind, wlp_on_fst, wlp_modify.
  match goal with |- wlp _ _ (?x, w1) => set (db2 := x) end.
  assert (moves (db, w) (db2, w1)) as M.
  { eapply moves_new; [done|done|by left|exact Ho|by left|done|done| |by constructor].
    constructor; [done|]. rewrite Forall_forall in Hws |- *. intros i (m & -> & Hm)%list_elem_of_fmap.
    apply list_elem_of_filter in Hm as [_ Hm]. by apply Hws, list_elem_of_fmap_2. }
  apply wlp_bind, wlp_get. destruct (negb _); [|by apply wlp_ret].
  apply wlp_try_remove; [by apply wal_path_ok|]. intros w2 Hun.
  eapply moves_trans; [exact M|]. intros Ht2. by eapply moves_unlinked.
Qed.

Lemma flush_loop_moves fuel (db : Db F) (w : W) :
  tidy (db, w) → wlp (flush_loop fuel) (λ _, moves (db, w)) (db, w).
Proof.
  revert db w. induction fuel as [|fuel IH]; intros db w Ht; cbn [flush_loop]; [by intros ? ? [=]|].
  apply wlp_bind, wlp_get. destruct (last _) as [im|] eqn:El; [|by apply wlp_ret].
  assert (is_u64 (im_wal_segment_id im)) as Him.
  { destruct Ht as [_ _ _ _ [_ Hws]%Forall_cons _]. rewrite Forall_forall in Hws. apply Hws, list_elem_of_fmap_2.
    apply last_Some in El as [l El]. cbn [fst]. rewrite El. apply elem_of_app. right. left. }
  apply wlp_bind. eapply wlp_mono; [by apply flush_one_moves|]. intros [] [db1 w1] M1.
  eapply wlp_mono; [apply IH, M1|]. intros [] s' M2. by eapply moves_trans; [exact M1|intros _].
Qed.

Lemma flush_moves (db : Db F) (w : W) : tidy (db, w) → wlp flush (λ _, moves (db, w)) (db, w).
Proof.
  intros Ht. unfold flush. apply wlp_bind, wlp_get, wlp_bind.
  match goal with |- wlp ?m ?R _ => apply (wlp_mono m (λ _, moves (db, w)) R) end.
  - destruct (negb _); [by apply rotate_moves|by apply wlp_ret].
  - intros [] [db1 w1] M1. apply wlp_bind, wlp_get. eapply wlp_mono; [apply flush_loop_moves, M1|].
    intros [] s' M2. by eapply moves_trans; [exact M1|intros _].
Qed.

Lemma compact_loop_only fuel emitted m (s : SstWriter F * W) :
  let s' := (compact_loop fuel emitted (m, s)).2.2 in
  sw_file s'.1 = sw_file s.1 ∧ only_writes (sw_file s.1) s.2 s'.2.
Proof.
  revert emitted m s. induction fuel as [|fuel IH]; intros emitted m [sw w]; cbn [compact_loop fst snd]; [done|].
  rewrite run_get. unfold mbind, st_bind, on_fst. destruct (merge_next_record w m) as [[[[key hit]|]|e| |] m1]; try done.
  unfold on_snd. pose proof (sst_add_framed key (hit_value hit) (hit_seqno hit) (hit_op hit) (sw, w)) as [Ef Ho].
  destruct (sst_add _ _ _ _ _) as [[[]|e| |] s1]; cbn [fst snd] in *; try done.
  destruct (IH (emitted + 1) m1 s1) as [Ef' Ho']. split; [congruence|]. etrans; [done|]. by rewrite <-Ef.
Qed.

Lemma merge_into_only fuel m (sw : SstWriter F) (w : W) : only_writes (sw_file sw) w (merge_into fuel m sw w).2.
Proof.
  unfold merge_into, mbind, st_bind. pose proof (compact_loop_only fuel 0 m (sw, w)) as [Ef Ho].
  destruct (compact_loop fuel 0 _) as [[n|e| |] [m1 [sw1 w1]]]; cbn [fst snd] in *; try done.
  unfold on_snd. pose proof (sst_finish_framed (sw1, w1)) as [_ Ho1]. cbn [fst snd] in Ho1.
  destruct (sst_finish _) as [[g|e| |] [sw2 w2]]; cbn [fst snd] in *; (etrans; [done|]; by rewrite <-Ef).
Qed.

Lemma compact_sstables_names fuel inputs p config (w : W) :
  vfs_ok w → path_ok F W p → named w p = None →
  wlp (compact_sstables fuel inputs p config) (λ _ w', only_names p w w') w.
Proof.
  intros Hok Hp Hn. unfold compact_sstables. apply wlp_bind, wlp_lift. intros streams _.
  apply wlp_bind, wlp_open_new; [done..|]. intros f w1 Ho Hnew. apply wlp_bind. intros sw w2 Ec.
  assert (only_writes f w1 w2 ∧ sw_file sw = f) as [Hw2 <-].
  { unfold create_output, create_encrypted, create_with_filter_capacity in Ec.
    destruct (cc_encryption config) as [[? ?]|];
      match type of Ec with create_inner ?f ?a ?n ?p ?c ?w = _ => pose proof (create_inner_only f a n p c w) as Hw end;
      rewrite Ec in Hw; (split; [done|by eapply create_inner_file]). }
  apply wlp_bind. intros n w3 Em. pose proof (merge_into_only fuel (merge_new streams) sw w2) as Hw3. rewrite Em in Hw3.
  apply wlp_bind, wlp_get, wlp_bind, wlp_lift. intros r _. apply wlp_ret.
  eapply only_names_new; [exact Ho|exact Hnew|by etrans].
Qed.

Lemma remove_inputs_moves inputs (db : Db F) (w : W) :
  tidy (db, w) → Forall is_u64 (ls_id <$> inputs) →
  wlp (remove_inputs (db_data_dir db) inputs) (λ _, moves (db, w)) (db, w).
Proof.
  intros Ht Hin. revert w Ht. induction inputs as [|sst inputs IH]; intros w Ht; cbn [remove_inputs]; [by apply wlp_ret|].
  apply Forall_cons in Hin as [Hs Hin]. apply wlp_bind, wlp_try_remove; [by apply sst_path_ok, Ht|].
  intros w1 Hun. pose proof (moves_unlinked _ _ _ _ Ht Hun) as M1. eapply wlp_mono; [apply IH; [done|apply M1]|].
  intros [] s' M2. by eapply moves_trans; [exact M1|intros _].
Qed.

Lemma compact_moves fuel (db : Db F) (w : W) : tidy (db, w) → wlp (compact_all fuel) (λ _, moves (db, w)) (db, w).
Proof.
  intros Ht. pose proof Ht as [Hok Hdir Hn Hfree Hw Hs]. cbn [fst snd] in *. unfold compact_all, compact_run.
  apply wlp_bind, wlp_get. destruct (_ <? 2); [by apply wlp_ret|].
  do 2 apply wlp_bind. apply wlp_reserve; [done|]. intros Hu. apply wlp_bind, wlp_get, wlp_bind, wlp_lift. intros config _.
  apply wlp_bind, wlp_on_snd.
  eapply wlp_mono; [apply compact_sstables_names; [done|by apply sst_path_ok|by apply Hfree]|].
  intros out w1 Ho. apply wlp_ret. unfold compact_publish. apply wlp_bind, wlp_bind, wlp_get, wlp_bind, wlp_lift. intros n _.
  apply wlp_on_fst, wlp_modify. match goal with |- wlp _ _ (?x, w1) => set (db2 := x) end.
  assert (moves (db, w) (db2, w1)) as M.
  { eapply moves_new; [done|done|by left|exact Ho|by left|done|done|exact Hw|]. cbn. constructor; [done|].
    rewrite Forall_forall in Hs |- *. intros i (m & -> & Hm)%list_elem_of_fmap.
    apply list_elem_of_filter in Hm as [_ Hm]. by apply Hs, list_elem_of_fmap_2. }
  eapply wlp_mono; [apply (remove_inputs_moves _ db2); [apply M|done]|].
  intros [] s' M2. by eapply moves_trans; [exact M|intros _].
Qed.
End Moves.

(** ** One command *)

Section Commands.
Context `{Crc32cLaws} `{Xxh3} `{AesGcmLaws} `{HkdfLaws} {F W : Type} `{VfsLaws F W} `{!ReliableReads F W}.

Lemma room_next fuel c (s : Db F * W) : room fuel c s = true → db_next s.1 < 2 ^ 64.
Proof.
  destruct c; cbn [room]; intros Hr.
  - apply write_room_fits in Hr as []. lia.
  - unfold flush_room in Hr. rewrite !andb_true_iff, Z.ltb_lt in Hr. unfold db_next. lia.
  - unfold compact_room in Hr. rewrite !andb_true_iff, !Z.ltb_lt in Hr. unfold db_next. lia.
  - unfold reopen_room in Hr. rewrite !andb_true_iff, !Z.ltb_lt in Hr. unfold db_next. lia.
Qed.

Lemma reopen_files dir config aged (s : Db F * W) hist m :
  holds dir config aged s hist m → reopen_room s.1 = true → wlp reopen (λ _, keeps_files s) s.
Proof.
  intros [(ls & tables & Hinv & _) Hd Hc Hs] Hroom. destruct s as [db w]. cbn [fst snd] in *.
  unfold reopen_room in Hroom. fold (db_next db) in Hroom. rewrite andb_true_iff, !Z.ltb_lt in Hroom.
  destruct Hroom as [Hn Hsq]. pose proof Hinv as [Hcore _ _ (log & tab & Hdk & _)].
  pose proof (inv_dir_fits _ _ _ _ _ Hinv Hn Hsq) as Hfits.
  unfold reopen. apply wlp_bind, wlp_get, wlp_bind, wlp_on_snd. intros db' w' E.
  pose proof (wp_open (db_data_dir db) (db_config db) w hist log tab (df_ok _ _ (co_files _ _ _ _ Hcore)) Hdk Hfits) as Hwp.
  unfold wp in Hwp. rewrite E in Hwp. destruct Hwp as (_ & _ & [[p Ho] Hnew] & _).
  apply wlp_on_fst, wlp_modify. eapply keeps_names; [exact Ho|by right].
Qed.

Lemma cmd_files dir config aged fuel c (s : Db F * W) hist m :
  holds dir config aged s hist m → room fuel c s = true → wlp (run_cmd fuel c) (λ _, keeps_files s) s.
Proof.
  intros Hho Hroom. pose proof (room_next _ _ _ Hroom) as Hn. destruct s as [db w]. cbn [fst snd] in *.
  assert (tidy (db, w)) as Ht by (destruct (ho_inv _ _ _ _ _ _ Hho) as (ls & tables & Hinv & _); by eapply inv_tidy).
  assert (∀ m : st (Db F * W) (), wlp m (λ _, moves (db, w)) (db, w) → wlp m (λ _, keeps_files (db, w)) (db, w)) as Hgo
    by (intros m' Hm; eapply wlp_mono; [exact Hm|by intros [] s' [_ ?]]).
  destruct c; cbn [run_cmd room] in *; [apply Hgo, commit_moves, Ht|apply Hgo, flush_moves, Ht|
    apply Hgo, compact_moves, Ht|by eapply reopen_files].
Qed.

(** * The iterator *)

Section Isolated.
Variables (dir : string) (config : DbConfig) (fuel k : nat) (start end_ : Bound) (snap : Z) (G : F → Prop).
Hypothesis (Hcfg : config_ok config).

Abbreviation rest_of := (iter_at (merge_rest (source_yields (W := W) G))).

(** What an open iterator relies on. *)
Record open_iter (it : DbRangeIter F) (s : Db F * W) (last : option bytes) (recs : list (bytes * LookupHit)) : Prop := {
  oi_live f : G f → live s.2 f;
  oi_wal : ¬ G (file (db_wal s.1));
  oi_fuel : (length recs < k)%nat;
  oi_rest : rest_of (k, s.2) end_ snap last recs it
}.

Lemma open_iter_keeps it s s' last recs : keeps_files s s' → open_iter it s last recs → open_iter it s' last recs.
Proof.
  intros Hk [Hl Hw Hf Hr].
  assert (∀ f, G f → live s'.2 f ∧ contents f s'.2 = contents f s.2 ∧ f ≠ file (db_wal s'.1)) as Hkeep
    by (intros f Hg; apply Hk; [by apply Hl|by intros ->]).
  split; [by apply Hkeep|by intros (_ & _ & ?)%Hkeep|done|].
  eapply iter_at_mono; [|exact Hr]. intros recs' m. apply merge_rest_mono. intros recs2 b.
  apply source_yields_mono; [done|]. intros f Hg _. by destruct (Hkeep f Hg) as (? & ? & _).
Qed.

Lemma open_iter_next it s last recs :
  open_iter it s last recs →
  ∃ it' last' recs', iter_next_step k (it, s) = (Ok (head (range_of end_ snap last recs)), (it', s)) ∧
    range_of end_ snap last' recs' = tail (range_of end_ snap last recs) ∧ open_iter it' s last' recs'.
Proof.
  intros [Hl Hw Hf Hr]. destruct s as [db w].
  destruct (range_next_spec _ k (k, w) end_ snap last recs it Hr Hf) as (it' & last' & recs' & E & Ht & Hlen & Hr').
  exists it', last', recs'. split_and!; [|done|].
  - unfold iter_next_step. rewrite run_get. by apply on_fst_run.
  - split; [done..|lia|done].
Qed.

Lemma wp_run_iter steps aged s hist m it last recs :
  holds dir config aged s hist m → cmds_room fuel (commands steps) s = true → open_iter it s last recs →
  wp (run_iter fuel k steps) (λ _ _, write_faults F W)
    (λ outs s', outs = (λ i, range_of end_ snap last recs !! i) <$> seq 0 (nexts steps) ∧
       ∃ aged' hist', holds dir config aged' s'.2 hist' (foldl spec_cmd m (commands steps))) (it, s).
Proof.
  revert aged s hist m it last recs. induction steps as [|[|c] steps IH]; intros aged s hist m it last recs Hho Hroom Hit.
  - apply wp_ret. split; [done|]. by exists aged, hist.
  - cbn [run_iter]. destruct (open_iter_next _ _ _ _ Hit) as (it' & last' & recs' & E & Ht & Hit').
    apply wp_bind. unfold wp at 1. rewrite E. apply wp_bind. eapply wp_mono; [by apply (IH aged s hist m it' last' recs')|done|].
    intros outs s' [-> Hho']. apply wp_ret. split; [|done]. rewrite Ht.
    change (nexts (IterNext :: steps)) with (S (nexts steps)). cbn [seq]. rewrite <-fmap_S_seq, fmap_cons, <-list_fmap_compose.
    f_equal; [by destruct (range_of _ _ _ _)|]. apply list_fmap_ext. intros _ i _. cbn. by destruct (range_of _ _ _ _).
  - cbn [run_iter commands omap list_omap cmds_room] in *. apply andb_true_iff in Hroom as [Hr Hrest].
    pose proof (wp_cmd dir config aged fuel c s hist m Hcfg Hho Hr) as Hwp.
    pose proof (cmd_files dir config aged fuel c s hist m Hho Hr) as Hfiles.
    apply wp_bind, wp_on_snd. unfold wp in Hwp. unfold wp at 1. destruct (run_cmd fuel c s) as [[[]|e| |] s1] eqn:E; try done.
    destruct Hwp as (new & Hho1 & _). specialize (Hfiles _ _ E).
    eapply wp_mono; [eapply (IH _ s1 _ _ it last recs Hho1 Hrest); exact (open_iter_keeps _ _ _ _ _ Hfiles Hit)|done|].
    intros outs s' Hout. exact Hout.
Qed.
End Isolated.
End Commands.

(** * The property *)

Section IterClaim.
Context `{Crc32cLaws} `{Xxh3} `{AesGcmLaws} `{HkdfLaws} {F W : Type} `{VfsLaws F W} `{!ReliableReads F W}.

(** A new iterator, and what it has to return. *)
Lemma open_iter_new dir config aged (db : Db F) (w : W) hist m start end_ :
  holds dir config aged (db, w) hist m →
  ∃ it recs (n : nat), range_bounds start end_ (snapshot db) db = Ok it ∧
    StronglySorted rr_lt (range_of end_ (db_seqno db) None recs) ∧
    (λ r, (rr_key r, rr_value r)) <$> range_of end_ (db_seqno db) None recs ≡ₚ
      filter (λ e, in_range start end_ e.1 = true) (map_to_list m) ∧
    ∀ k, (n < k)%nat →
      open_iter k end_ (db_seqno db) (λ f, live w f ∧ f ≠ file (db_wal db)) it (db, w) None recs.
Proof.
  intros [(ls & tables & [[[Hm Ht] Hf _ _ _] _ Hrep _] & _) _ _ Hs]. cbn [fst snd] in *.
  set (G := λ f, live w f ∧ f ≠ file (db_wal db)).
  assert (Forall (λ r, G (tr_file r)) (db_readers db)) as HG.
  { pose proof (df_apart _ _ Hf) as Hap. rewrite Forall_lookup in Hap |- *. intros i r Hi.
    destruct (Forall2_lookup_l _ _ _ _ _ Ht Hi) as (rs & _ & Hr). split; [apply Hr|by eapply Hap]. }
  set (n := length (versions_of ls tables)).
  destruct (range_new_ok G (db_memtables db) ls (db_readers db) tables start end_ (db_seqno db) (S n) w)
    as (it & recs & E & Hlen & Hit & Hsort & Hiff); [|done|done|unfold n; lia|].
  { eapply Forall2_impl; [exact Hm|]. apply mem_ok_memtable_of. }
  exists it, recs, n. split_and!; [done|done| |].
  - eapply shows_range; [exact Hs|done|]. intros r. rewrite Hiff. by rewrite (represents_view _ _ Hrep (rr_key r)).
  - intros k Hk. split; cbn [fst snd]; [by intros f []|by intros []|lia|].
    eapply iter_at_mono; [|exact Hit]. intros recs' mg. apply merge_rest_mono. intros recs2 b.
    by apply source_yields_mono; [lia|].
Qed.

(** C4. An open iterator is isolated.  Take a range iterator at any moment of a
    script and let its calls alternate with any further writes, flushes,
    compactions and reopenings: no call panics, fails or loops, the calls return
    in key order exactly the entries that the map had in the range when the
    iterator was made, then [None] for ever, although its tables may be merged
    and unlinked meanwhile; and the operations work on the map as if there were
    no iterator. *)
Theorem engine_iterator_isolated (fuel : nat) (dir : string) (config : DbConfig) (w : W)
    (Hok : vfs_ok w) (Hempty : ∀ name, named (F := F) w (dir +:+ "/" +:+ name) = None)
    (Hdir : dir_ok F W dir) (Hcfg : config_ok config)
    (before : list cmd) (steps : list iter_cmd) (db : Db F) (w1 : W) (start end_ : Bound)
    (Hroom : script_room fuel dir config before w = true)
    (Hbefore : run_script fuel dir config before w = (Ok tt, (Some db, w1)))
    (Hroom' : cmds_room fuel (commands steps) (db, w1) = true) :
  ∃ it out (n : nat), range_bounds start end_ (snapshot db) db = Ok it ∧ StronglySorted rr_lt out ∧
    (λ r, (rr_key r, rr_value r)) <$> out ≡ₚ
      filter (λ e, in_range start end_ e.1 = true) (map_to_list (foldl spec_cmd ∅ before)) ∧
    ∀ k, (n < k)%nat →
    match run_iter fuel k steps (it, (db, w1)) with
    | (Ok outs, (_, (db', w'))) =>
        outs = (λ i, out !! i) <$> seq 0 (nexts steps) ∧
        reads_at db' w' (snapshot db') (foldl spec_cmd ∅ (before ++ commands steps))
    | (Err _, _) => write_faults F W
    | _ => False
    end.
Proof.
  pose proof (script_holds fuel dir config before w Hok Hempty Hdir Hcfg Hroom) as Hrun.
  rewrite Hbefore in Hrun. destruct Hrun as (db0 & hist & [= <-] & Hho).
  destruct (open_iter_new dir config _ db w1 hist _ start end_ Hho) as (it & recs & n & E & Hsort & Hperm & Hit).
  eexists it, _, n. split_and!; [done..|]. intros k Hk.
  pose proof (wp_run_iter dir config fuel k end_ _ _ Hcfg steps _ (db, w1) hist _ it None recs Hho Hroom' (Hit k Hk)) as Hwp.
  unfold wp in Hwp. destruct (run_iter fuel k steps (it, (db, w1))) as [[outs|e| |] [it' [db' w']]]; try done.
  destruct Hwp as [-> (aged' & hist' & [(ls & tables & Hinv & _) _ _ Hs])]. split; [done|].
  rewrite foldl_app. eapply shows_reads; [apply Hinv..|done].
Qed.
End IterClaim.

(** ** On a concrete database *)

Definition demo_iter_before : list cmd :=
  [CmdWrite {| ops := [Put [97] [1]; Put [98] [2]] |}; CmdFlush; CmdWrite {| ops := [Put [98] [3]; Put [99] [4]] |}; CmdFlush].

Definition demo_iter_steps : list iter_cmd :=
  [IterNext; IterCmd (CmdWrite {| ops := [Put [99] [5]; Delete [98]] |}); IterCmd CmdCompact; IterNext;
   IterCmd CmdReopen; IterNext; IterCmd CmdFlush; IterNext].

Lemma engine_iterator_isolated_witness :
  ∃ (db : Db MemFile) (w1 : MemVfs) it out (n : nat), demo_run demo_iter_before = (Ok tt, (Some db, w1)) ∧
    range_bounds (Included [98]) Unbounded (snapshot db) db = Ok it ∧
    (λ r, (rr_key r, rr_value r)) <$> out ≡ₚ [([98], [3]); ([99], [4])] ∧
    ∀ k, (n < k)%nat → ∃ it' db' w',
      run_iter 20 k demo_iter_steps (it, (db, w1)) =
        (Ok [out !! 0%nat; out !! 1%nat; out !! 2%nat; out !! 3%nat], (it', (db', w'))) ∧
      reads_at db' w' (snapshot db') {[ [97] := [1]; [99] := [5] ]}.
Proof.
  assert (script_room (F := MemFile) 20 "/db" demo_config demo_iter_before mem_new = true) as Hroom
    by (vm_compute; reflexivity).
  assert (match demo_run demo_iter_before with
    | (Ok _, (Some db, w)) => cmds_room 20 (commands demo_iter_steps) (db, w) | _ => false end = true) as Hafter
    by (vm_compute; reflexivity).
  unfold demo_run in *.
  destruct (run_script 20 "/db" demo_config demo_iter_before mem_new) as [[[]|e| |] [[db|] w1]] eqn:E;
    try discriminate Hafter.
  destruct (engine_iterator_isolated 20 "/db" demo_config mem_new mem_new_ok demo_names eq_refl demo_config_ok
    demo_iter_before demo_iter_steps db w1 (Included [98]) Unbounded Hroom E Hafter) as (it & out & n & Eit & _ & Hout & Hrun).
  exists db, w1, it, out, n. split; [reflexivity|]. split; [exact Eit|]. split.
  { rewrite Hout. vm_compute. constructor. }
  intros k Hk. specialize (Hrun k Hk).
  destruct (run_iter 20 k demo_iter_steps (it, (db, w1))) as [[outs|e| |] [it' [db' w']]]; try destruct Hrun.
  exists it', db', w'. subst outs. split; [reflexivity|assumption].
Defined.
