(* ===== verification/EngineFaults.v ===== *)
(** Failing disks ([crates/paddock-core/src/engine.rs]).

    A command of the engine that reports an I/O error leaves a database whose
    reads still return the map of before, or for a write also the map with the
    whole batch.  [Faulty] is a file system whose calls fail where a plan says,
    an append with half of its bytes written; on it the error paths run. *)

From S2P Require Import Prelude Varint Checksum Vfs VfsLaws WalBatch WalFormat WalLayout WalWriter.
From S2P Require Import WalReader Bloom SstFormat Block Crypto SstWriter SstReader Frames FileNames.
From S2P Require Import InternalKey Arena SkipList Merger Versions History SstTable Compact RangeIter Engine.
From S2P Require Import EngineInv EngineDisk EngineReads EngineWrites EngineFlush EngineCompact EngineOpen EngineRun EngineSteps.

(** * A file system that fails by plan *)

(** Every call that writes takes the next entry of the plan: [true] fails. *)
Section Faulty.
Context {F W : Type} `{Vfs F W}.

Definition faulty : Type := W * list bool.

Definition planned {A} (fail : st W ()) (run : st W A) : st faulty A := λ '(w, plan),
  match plan with
  | true :: plan => let '(_, w) := fail w in (Err (Io IoOther), (w, plan))
  | false :: plan => let '(r, w) := run w in (r, (w, plan))
  | [] => let '(r, w) := run w in (r, (w, []))
  end.

(** A failed append has written the first half. *)
Definition half_append (f : F) (d : bytes) : st W () := _ ← vf_append f (take (length d / 2) d); mret tt.

#[global] Instance faulty_file : VfsFile F faulty := {|
  vf_append f d := planned (half_append f d) (vf_append f d);
  vf_write_at f d off := planned (mret tt) (vf_write_at f d off);
  vf_sync f := planned (mret tt) (vf_sync f);
  vf_read_at f n off s := vf_read_at f n off s.1;
  vf_size f s := vf_size f s.1 |}.

#[global] Instance faulty_vfs : Vfs F faulty := {|
  vfs_file := faulty_file;
  open_writable p := planned (mret tt) (open_writable p);
  open_readonly p s := open_readonly p s.1;
  rename p q := planned (mret tt) (rename p q);
  remove p := planned (mret tt) (remove p);
  list_dir d s := list_dir d s.1 |}.
End Faulty.
Arguments faulty : clear implicits.

Section FaultyLaws.
Context {F W : Type} `{VfsLaws F W}.

(** A planned call is the call, or its failure. *)
Lemma planned_run {A} (fail : st W ()) (run : st W A) s r s' :
  planned fail run s = (r, s') →
  (∃ w', run s.1 = (r, w') ∧ s'.1 = w') ∨ (r = Err (Io IoOther) ∧ s'.1 = (fail s.1).2).
Proof.
  destruct s as [w [|[] plan]]; unfold planned; cbn.
  - destruct (run w) as [r' w']. intros [= <- <-]. left. by exists w'.
  - destruct (fail w) as [r' w']. intros [= <- <-]. by right.
  - destruct (run w) as [r' w']. intros [= <- <-]. left. by exists w'.
Qed.

(** What holds of both outcomes holds of the state behind a planned call. *)
Lemma planned_state {A} (P : W → Prop) (fail : st W ()) (run : st W A) s :
  P (run s.1).2 → P (fail s.1).2 → P (planned fail run s).2.1.
Proof.
  intros Hr Hf. destruct (planned fail run s) as [r s'] eqn:E. cbn [fst snd].
  apply planned_run in E as [(w' & E & <-)|[_ ->]]; [by rewrite E in Hr|done].
Qed.

Lemma planned_returns {A} (fail : st W ()) (run : st W A) s : returns (run s.1).1 → returns (planned fail run s).1.
Proof.
  intros Hr. destruct (planned fail run s) as [r s'] eqn:E.
  apply planned_run in E as [(w' & E & _)|[-> _]]; [by rewrite E in Hr|done].
Qed.

Lemma half_append_run f d (w : W) : (half_append f d w).2 = (vf_append f (take (length d / 2) d) w).2.
Proof. unfold half_append, mbind, st_bind. by destruct (vf_append _ _ _) as [[]]. Qed.

#[global] Instance faulty_file_laws : FileLaws F (faulty W).
Proof.
  refine {| contents := λ f s, contents f s.1; write_faults := True; read_faults := read_faults F W |}.
  - intros f d s s' off E. apply planned_run in E as [(w' & E & <-)|[? _]]; [|done]. by eapply append_Ok.
  - intros f d s s' e E. split; [by left|]. apply planned_run in E as [(w' & E & ->)|[_ ->]]; [by eapply append_Err|].
    rewrite half_append_run. pose proof (append_returns f (take (length d / 2) d) s.1) as Hr.
    destruct (vf_append f (take (length d / 2) d) s.1) as [[off|e'| |] w'] eqn:Ea; try done.
    + apply append_Ok in Ea as [Ec _]. eexists. split; [apply prefix_take|done].
    + apply append_Err in Ea as [_ (p & Hp & Ec)]. exists p. split; [|done]. etrans; [done|]. apply prefix_take.
  - intros f d s. apply planned_returns, append_returns.
  - intros f g d s Hfg. apply (planned_state (λ w, contents g w = contents g s.1)); [by apply append_frame|].
    rewrite half_append_run. by apply append_frame.
  - intros f d off s s' E. apply planned_run in E as [(w' & E & <-)|[? _]]; [|done]. by apply write_at_Ok.
  - intros. by left.
  - intros f d off s Hoff. by apply planned_returns, write_at_returns.
  - intros f g d off s Hfg. apply (planned_state (λ w, contents g w = contents g s.1)); [by apply write_at_frame|done].
  - intros f g s. apply (planned_state (λ w, contents g w = contents g s.1)); [apply sync_contents|done].
  - done.
  - intros f s. apply planned_returns, sync_returns.
  - intros f n off s b. exact (read_at_Ok f n off s.1 b).
  - intros f n off s b. exact (read_at_sub f n off s.1 b).
  - intros f n off s e. exact (read_at_Err f n off s.1 e).
  - intros f n off s. exact (read_at_returns f n off s.1).
  - intros f s n. exact (size_Ok f s.1 n).
  - intros f s e. exact (size_Err f s.1 e).
  - intros f s. exact (size_returns f s.1).
Defined.

#[global] Instance faulty_state : VfsState F (faulty W) := {|
  vfs_ok := λ s, vfs_ok s.1; path_ok := path_ok F W; dir_ok := dir_ok F W;
  named := λ s p, named s.1 p; live := λ s f, live s.1 f |}.

Lemma only_writes_fst f (s s' : faulty W) : only_writes f s.1 s'.1 → only_writes f s s'.
Proof. intros []. by split. Qed.

Lemma only_names_fst p (s s' : faulty W) : only_names (F := F) p s.1 s'.1 → only_names (F := F) p s s'.
Proof. intros []. by split. Qed.

#[global] Instance faulty_vfs_laws : VfsLaws F (faulty W).
Proof.
  split.
  - exact (path_ok_in (F := F) (W := W)).
  - intros s p f. exact (named_path s.1 p f).
  - intros s p f. exact (named_live s.1 p f).
  - intros s p q f. exact (named_inj s.1 p q f).
  - intros f d s. apply only_writes_fst, (planned_state (only_writes f s.1)); [apply append_only|].
    rewrite half_append_run. apply append_only.
  - intros f d off s. apply only_writes_fst, (planned_state (only_writes f s.1)); [apply write_at_only|done].
  - intros f s. apply only_writes_fst, (planned_state (only_writes f s.1)); [apply sync_only|done].
  - intros p s Hp. apply only_names_fst, (planned_state (only_names p s.1)); [by apply open_writable_only|done].
  - intros p s. apply planned_returns, open_writable_returns.
  - done.
  - intros p s s' f E. apply planned_run in E as [(w' & E & <-)|[? _]]; [|done]. exact (open_writable_Ok _ _ _ _ E).
  - intros p s s' f E. apply planned_run in E as [(w' & E & <-)|[? _]]; [|done]. exact (open_writable_new _ _ _ _ E).
  - intros p s s' f g E. apply planned_run in E as [(w' & E & <-)|[? _]]; [|done]. exact (open_writable_old _ _ _ _ _ E).
  - intros p s f. exact (open_readonly_Ok p s.1 f).
  - intros p s e. exact (open_readonly_Err p s.1 e).
  - intros p s. exact (open_readonly_returns p s.1).
  - intros p s Hp. apply only_names_fst, (planned_state (only_names p s.1)); [by apply remove_only|done].
  - intros p s s' E. apply planned_run in E as [(w' & E & <-)|[? _]]; [|done]. exact (remove_Ok _ _ _ E).
  - intros p s s' e E Hp. apply planned_run in E as [(w' & E & <-)|[_ E]]; [exact (remove_Err _ _ _ _ E Hp)|].
    right. change (named s'.1 p = named s.1 p). by rewrite E.
  - intros p s. apply planned_returns, remove_returns.
  - intros dir s names. exact (list_dir_Ok dir s.1 names).
  - intros dir s e. exact (list_dir_Err dir s.1 e).
  - intros dir s. exact (list_dir_returns dir s.1).
Qed.

#[global] Instance faulty_reads `{!ReliableReads F W} : ReliableReads F (faulty W).
Proof. split. exact (no_read_faults (F := F) (W := W)). Qed.
End FaultyLaws.

(** * Reads after a failure *)

Section Failures.
Context `{Crc32cLaws} `{Xxh3} `{AesGcmLaws} `{HkdfLaws} {F W : Type} `{VfsLaws F W} `{!ReliableReads F W}.

(** A database that can be read: its contents represent [hist], which shows
    [m0] at the sequence number [s0] of before and [m] now. *)
Definition readable (s0 : Z) (m0 m : kv) (s : Db F * W) : Prop :=
  ∃ ls tables hist, db_content s.1 s.2 ls tables ∧ represents (sources_of ls tables) hist ∧
    shows hist s0 m0 ∧ shows hist (db_seqno s.1) m.

Lemma readable_reads s0 m0 m (s : Db F * W) :
  readable s0 m0 m s →
  reads_at s.1 s.2 {| snap_seqno := s0 |} m0 ∧ reads_at s.1 s.2 (snapshot s.1) m.
Proof. intros (ls & tables & hist & Hc & Hr & Hs0 & Hs). split; by eapply shows_reads. Qed.

Lemma write_failed dir config aged (s s' : Db F * W) hist m batch e :
  holds dir config aged s hist m → write_room batch s.1 = true →
  write_batch batch s = (Err e, s') →
  write_faults F W ∧ (readable (db_seqno s.1) m m s' ∨ readable (db_seqno s.1) m (spec_batch batch m) s').
Proof.
  intros [(ls & tables & Hinv & _) _ _ Hs] Hroom%write_room_fits E. destruct s as [db w]. cbn [fst snd] in *.
  pose proof (wp_Err _ _ _ _ _ _ (wp_commit db w batch hist ls tables Hinv Hroom) E) as [Hf (ls' & Hc & Hr)].
  split; [done|]. pose proof (inv_bounded _ _ _ _ _ Hinv) as Hb. pose proof (co_seqno _ _ _ _ (dv_core _ _ _ _ _ Hinv)) as [Hs0 _].
  pose proof (commit_seqno batch (db, w)) as Hseq. unfold write_batch in E. rewrite E in Hseq. cbn [fst snd] in Hseq.
  specialize (Hseq ltac:(destruct Hroom; lia) Hs0).
  destruct Hr as [Hr|Hr]; [left|right]; eexists ls', tables, _; (split_and!; [done|exact Hr| |]); rewrite ?Hseq.
  - done.
  - apply (shows_bounded _ (db_seqno db)); [done| |done]. eapply Forall_impl; [exact Hb|]. cbn. lia.
  - intros key. unfold commit_history. rewrite newest_later; [apply Hs|].
    apply Forall_forall. intros v ->%batch_versions_seqno. lia.
  - by apply (shows_commit _ (db_seqno db)); [|lia|].
Qed.

Lemma flush_failed dir config aged (s s' : Db F * W) hist m e :
  config_ok config → holds dir config aged s hist m → flush_room s.1 = true → flush s = (Err e, s') →
  write_faults F W ∧ readable (db_seqno s.1) m m s'.
Proof.
  intros Hcfg [(ls & tables & Hinv & _) _ Hc Hs] Hroom E. destruct s as [db w]. cbn [fst snd] in *.
  pose proof (dc_mems _ _ _ _ (co_content _ _ _ _ (dv_core _ _ _ _ _ Hinv))) as Hm.
  unfold flush_room in Hroom. fold (db_memtables db) (db_next db) in Hroom.
  rewrite !andb_true_iff, !Z.ltb_lt, (Forall2_length _ _ _ Hm) in Hroom. destruct Hroom as [[Hn Hsq] Hk].
  pose proof (keeps_flush (db, w)) as Hseq. unfold same_seqno in Hseq. rewrite E in Hseq. cbn [fst snd] in Hseq.
  eapply wp_Err in E; [|apply (wp_flush db w hist ls tables); [done|done|done|by rewrite Hc|by eapply mem_room_fits]].
  destruct E as [Hf (ls' & tables' & Hc' & Hr)]. split; [done|]. exists ls', tables', hist. by rewrite Hseq.
Qed.

Lemma compact_failed dir config aged fuel (s s' : Db F * W) hist m e :
  config_ok config → holds dir config aged s hist m → compact_room fuel s.1 s.2 = true →
  compact_all fuel s = (Err e, s') → write_faults F W ∧ readable (db_seqno s.1) m m s'.
Proof.
  intros Hcfg [(ls & tables & Hinv & _) _ Hc Hs] Hroom E. destruct s as [db w]. cbn [fst snd] in *.
  apply (compact_room_fits _ _ _ ls tables) in Hroom as [Hfits Hfuel]; [|apply Hinv].
  pose proof (keeps_compact fuel (db, w)) as Hseq. unfold same_seqno in Hseq. rewrite E in Hseq. cbn [fst snd] in Hseq.
  eapply wp_Err in E; [|apply (wp_compact_all fuel db w hist ls tables); (done || by rewrite Hc)].
  destruct E as [Hf Hc']. split; [done|]. exists ls, tables, hist. rewrite Hseq. split_and!; [done|apply Hinv|done|done].
Qed.
End Failures.

(** * Properties *)

(** C5. A failed command leaves the database readable.  Let a script have run, and
    let a further write, flush or compaction report an error: the disk failed,
    the map of the script is still what its snapshot reads, and a new snapshot
    reads that map or, if the command was a write, that map with the whole
    batch. *)
Theorem engine_error_keeps_reads `{Crc32cLaws} `{Xxh3} `{AesGcmLaws} `{HkdfLaws} {F W : Type} `{VfsLaws F W}
    `{!ReliableReads F W} (fuel : nat) (dir : string) (config : DbConfig) (w : W)
    (Hok : vfs_ok w) (Hempty : ∀ name, named (F := F) w (dir +:+ "/" +:+ name) = None)
    (Hdir : dir_ok F W dir) (Hcfg : config_ok config)
    (cmds : list cmd) (c : cmd) (db db' : Db F) (w1 w' : W) (e : Error)
    (Hroom : script_room fuel dir config cmds w = true)
    (Hrun : run_script fuel dir config cmds w = (Ok tt, (Some db, w1)))
    (Hc : is_reopen c = false) (Hcroom : room fuel c (db, w1) = true)
    (Herr : run_cmd fuel c (db, w1) = (Err e, (db', w'))) :
  let m := foldl spec_cmd ∅ cmds in
  write_faults F W ∧ reads_at db' w' (snapshot db) m ∧
  (reads_at db' w' (snapshot db') m ∨ reads_at db' w' (snapshot db') (spec_cmd m c)).
Proof.
  pose proof (script_holds fuel dir config cmds w Hok Hempty Hdir Hcfg Hroom) as Hscript.
  rewrite Hrun in Hscript. destruct Hscript as (db0 & hist & [= <-] & Hho). intros m.
  assert (write_faults F W ∧ (readable (db_seqno db) m m (db', w') ∨ readable (db_seqno db) m (spec_cmd m c) (db', w')))
    as [Hf Hread].
  { destruct c; cbn [run_cmd room is_reopen] in *; [|..|done].
    - exact (write_failed _ _ _ (db, w1) _ _ _ _ _ Hho Hcroom Herr).
    - destruct (flush_failed _ _ _ (db, w1) _ _ _ _ Hcfg Hho Hcroom Herr). by split; [|left].
    - destruct (compact_failed _ _ _ _ (db, w1) _ _ _ _ Hcfg Hho Hcroom Herr). by split; [|left]. }
  split; [done|]. destruct Hread as [Hr|Hr]; apply readable_reads in Hr as [Hold Hnew]; (split; [exact Hold|]); auto.
Qed.

(** The sixth call that writes fails: the payload of the second batch. *)
Definition one_fault : faulty MemVfs := (mem_new, replicate 6 false ++ [true]).

Definition one_put (k v : Z) : cmd := CmdWrite {| ops := [Put [k] [v]] |}.

Lemma one_fault_ok : vfs_ok (F := MemFile) one_fault.
Proof. apply mem_new_ok. Qed.

Lemma engine_error_keeps_reads_witness :
  ∃ (db db' : Db MemFile) (w1 w' : faulty MemVfs) (e : Error),
    run_script 20 "/db" demo_config [one_put 97 1] one_fault = (Ok tt, (Some db, w1)) ∧
    run_cmd 20 (one_put 97 2) (db, w1) = (Err e, (db', w')) ∧
    reads_at db' w' (snapshot db) {[ [97] := [1] ]} ∧
    (reads_at db' w' (snapshot db') {[ [97] := [1] ]} ∨ reads_at db' w' (snapshot db') {[ [97] := [2] ]}).
Proof.
  assert (script_room (F := MemFile) 20 "/db" demo_config [one_put 97 1] one_fault = true) as Hroom
    by (vm_compute; reflexivity).
  assert (match run_script (F := MemFile) 20 "/db" demo_config [one_put 97 1] one_fault with
          | (Ok _, (Some db, w)) =>
              match run_cmd 20 (one_put 97 2) (db, w) with (Err _, _) => room 20 (one_put 97 2) (db, w) | _ => false end
          | _ => false end = true) as Hafter by (vm_compute; reflexivity).
  destruct (run_script 20 "/db" demo_config [one_put 97 1] one_fault) as [[[]|e| |] [[db|] w1]] eqn:E;
    try discriminate Hafter.
  destruct (run_cmd 20 (one_put 97 2) (db, w1)) as [[[]|e| |] [db' w']] eqn:Ec; try discriminate Hafter.
  destruct (engine_error_keeps_reads (F := MemFile) 20 "/db" demo_config one_fault one_fault_ok demo_names eq_refl
    demo_config_ok [one_put 97 1] (one_put 97 2) db db' w1 w' e Hroom E eq_refl Hafter Ec) as (_ & Hold & Hnew).
  exists db, db', w1, w', e. split; [reflexivity|]. split; [exact Ec|]. split; [exact Hold|exact Hnew].
Defined.

(** What a client sees who goes on after the error: each call's result. *)
Definition session_after_fault : list (outcome (option bytes)) :=
  match run_script (F := MemFile) 20 "/db" demo_config [one_put 97 1] one_fault with
  | (Ok _, (Some db, w)) =>
      let unit_result (r : outcome ()) := r ≫= λ _, Ok None in
      let '(r1, s) := run_cmd 20 (one_put 98 2) (db, w) in
      let '(r2, s) := run_cmd 20 (one_put 99 3) s in
      let '(r3, s) := get false [99] s in
      let '(r4, s) := run_cmd 20 CmdReopen s in
      let '(r5, s) := get false [97] s in
      let '(r6, s) := get false [99] s in
      [unit_result r1; unit_result r2; r3; unit_result r4; r5; r6]
  | _ => []
  end.

(** A write behind a failed one is acknowledged and read, and gone when the
    directory is opened again: its record lies behind half a record in the log. *)
Theorem failed_append_hides_later_writes :
  session_after_fault =
    [Err (Io IoOther); Ok None; Ok (Some [3]); Ok None; Ok (Some [1]); Ok None].
Proof. vm_compute. reflexivity. Qed.
