(* ===== verification/EngineLimits.v ===== *)
(** Limits of the engine ([crates/paddock-core/src/engine.rs]): the memory of
    its memtables, and what flush and compaction achieve.

    A commit adds the length of its record to the memtable's account and
    rotates at the threshold; the arena behind a memtable grows by at most 64
    bytes for every byte of the account.  On a disk that does not fail, a flush
    empties the queue and a compaction leaves at most one table. *)

From S2P Require Import Prelude Varint Checksum Vfs VfsLaws WalBatch WalFormat WalLayout WalWriter.
From S2P Require Import WalReader Bloom SstFormat Block Crypto SstWriter SstReader Frames FileNames.
From S2P Require Import InternalKey Arena SkipList Merger Versions History SstTable Compact RangeIter Engine.
From S2P Require Import EngineInv EngineDisk EngineReads EngineWrites EngineFlush EngineCompact EngineOpen EngineRun EngineSteps.

(** * The memory of an insertion *)

Lemma allocate_used size align a p a' :
  allocate size align a = Ok (p, a') → ar_bytes_used a' = ar_bytes_used a + granted size align.
Proof.
  assert (∀ a p a', bump size align a = Some (p, a') → ar_bytes_used a' = ar_bytes_used a + granted size align) as Hbump.
  { intros b q b' E. unfold bump in E. destruct (ar_slabs b); [done|]. destruct (_ <=? _); [|done]. by simplify_eq. }
  unfold allocate. cbn [allocate_loop]. destruct (negb _); [done|]. destruct (bump size align a) as [[q b]|] eqn:E.
  { intros [= <- <-]. by apply Hbump in E. }
  unfold grow. destruct (negb (layout_ok _ _)); [done|]. cbn [mbind outcome_bind].
  match goal with |- context [bump size align ?b] => destruct (bump size align b) as [[q b']|] eqn:E1 end.
  - intros [= <- <-]. by apply Hbump in E1.
  - by destruct (negb (layout_ok _ _)).
Qed.

Definition used (m : SkipList) : Z := skiplist_bytes_used m.

(** The steps of an insertion other than the allocation keep the arena. *)
Lemma wlp_store_forward p i v sl Q :
  (∀ sl', used sl' = used sl → Q tt sl') → wlp (store_forward p i v) Q sl.
Proof.
  intros HQ [] sl' E. unfold store_forward in E. destruct (sl_nodes sl !! p); [|done].
  destruct (_ <? _)%nat; [|done]. simplify_eq. by apply HQ.
Qed.

Lemma wlp_run_stores node prev following stores sl :
  wlp (run_stores node prev following stores) (λ _ sl', used sl' = used sl) sl.
Proof.
  revert sl. induction stores as [|store stores IH]; intros sl; cbn [run_stores]; [by apply wlp_ret|].
  apply wlp_bind, (wlp_mono _ (λ _ sl', used sl' = used sl)).
  - destruct store; cbn [run_store]; apply wlp_bind, wlp_lift; intros x _; by apply wlp_store_forward.
  - intros [] sl1 E1. eapply wlp_mono; [apply IH|]. intros ? sl2 E2. cbn in E2. congruence.
Qed.

Lemma wlp_link_levels node prev following levels sl :
  wlp (link_levels node prev following levels) (λ _ sl', used sl' = used sl) sl.
Proof. intros [] sl' E. rewrite link_levels_stores in E. by apply wlp_run_stores in E. Qed.

Lemma wlp_allocate_node key value seqno op h sl :
  (h ≤ MAX_HEIGHT)%nat →
  wlp (allocate_node key value seqno op h)
    (λ _ sl', used sl' ≤ used sl + 127 + len key + match op with NodePut => len value | NodeTombstone => 0 end) sl.
Proof.
  intros Hh p sl' E. unfold allocate_node in E.
  set (val := match op with NodePut => value | NodeTombstone => [] end) in *.
  assert (match op with NodePut => len value | NodeTombstone => 0 end = len val) as -> by (by destruct op).
  destruct (allocate _ 8 (sl_arena sl)) as [[raw a]| | |] eqn:Ea; try done.
  destruct (try_u32 (len key)), (try_u32 (len val)); try done. simplify_eq. unfold used, skiplist_bytes_used. cbn [sl_arena].
  rewrite (allocate_used _ _ _ _ _ Ea). unfold granted, MAX_HEIGHT in *.
  match goal with |- context [round_up ?n 8] => destruct (round_up_spec n 8) as [Hr _] end;
    unfold NODE_HEADER_SIZE, PTR_SIZE in *; lia.
Qed.

Lemma wlp_random_height sl : wlp random_height (λ h sl', (h ≤ MAX_HEIGHT)%nat ∧ used sl' = used sl) sl.
Proof.
  unfold wlp, random_height. pose proof (height_loop_range MAX_HEIGHT 1 (xorshift32 (sl_rng_state sl))) as Hh.
  revert Hh. generalize (height_loop MAX_HEIGHT 1 (xorshift32 (sl_rng_state sl))) as h. intros h Hh h' sl' [= <- <-].
  split; [|done]. apply Hh. unfold MAX_HEIGHT. lia.
Qed.

Lemma wlp_insert key value seqno op sl :
  wlp (skiplist_insert key value seqno op)
    (λ _ sl', used sl' ≤ used sl + 127 + len key + match op with NodePut => len value | NodeTombstone => 0 end) sl.
Proof.
  unfold skiplist_insert, insert_prepare. do 2 apply wlp_bind. eapply wlp_mono; [apply wlp_random_height|].
  intros h sl1 [Hh E1]. apply wlp_bind. eapply wlp_mono; [by apply wlp_allocate_node|].
  intros p sl2 Hused. cbn beta in Hused. rewrite E1 in Hused. apply wlp_bind, wlp_get, wlp_bind, wlp_lift. intros [ps fs] _.
  set (Q := λ (_ : Ptr * nat * list Ptr * list (option Ptr)) (sl' : SkipList), used sl' = used sl2).
  match goal with |- wlp ?m ?R sl2 => apply (wlp_mono m Q R sl2) end.
  - destruct (_ <? _)%nat; [apply wlp_bind, wlp_modify, wlp_ret|apply wlp_ret]; done.
  - intros [[[p' h'] ps'] fs'] sl3 E3. apply wlp_bind. eapply wlp_mono; [apply wlp_link_levels|]. intros [] sl4 E4.
    apply wlp_bind, wlp_modify, wlp_ret. change (used (count_insert sl4)) with (used sl4). unfold Q in E3. cbn in E4.
    rewrite E4, E3. exact Hused.
Qed.

(** A record in the log is never much shorter than its nodes. *)
Lemma wlp_apply_ops seqno ops sl :
  wlp (apply_ops seqno ops) (λ _ sl', used sl' ≤ used sl + 64 * len (concat (wire_op <$> ops))) sl.
Proof.
  revert sl. induction ops as [|[key value|key] ops IH]; intros sl; cbn [apply_ops]; [apply wlp_ret; cbn; lia|..];
    (apply wlp_bind; eapply wlp_mono; [apply wlp_insert|]; intros p sl1 H1; eapply wlp_mono; [apply IH|]; intros ? sl2 H2;
     rewrite fmap_cons; cbn [concat]; rewrite length_app; cbn in H1, H2).
  - enough (3 + len key + len value ≤ len (wire_op (Put key value))) by lia.
    cbn [wire_op]. unfold wire_string. pose proof (len_varint (len key)). pose proof (len_varint (len value)). len_lia.
  - enough (2 + len key ≤ len (wire_op (Delete key))) by lia.
    cbn [wire_op]. unfold wire_string. pose proof (len_varint (len key)). len_lia.
Qed.

(** * The account of a database *)

Lemma new_used m : skiplist_new = Ok m → used m = 120.
Proof.
  assert (match skiplist_new with Ok m => used m = 120 | _ => True end) as H by (vm_compute; reflexivity).
  intros E. by rewrite E in H.
Qed.

Section Budget.
Context `{Crc32c} `{Xxh3} `{AesGcm} `{Hkdf} {F W : Type} `{Vfs F W}.
Variables (config : DbConfig) (base biggest : Z).
Hypotheses (Hthreshold : 0 ≤ memtable_threshold_bytes config) (Hbase : 120 ≤ base) (Hbiggest : 0 ≤ biggest).

Definition memtable_limit : Z := base + 64 * (memtable_threshold_bytes config + biggest).

(** The active memtable is within its account, the account below the
    threshold, and a queued memtable within the threshold and one more batch. *)
Record budget (db : Db F) : Prop := {
  bu_config : db_config db = config;
  bu_bytes : 0 ≤ wc_active_memtable_bytes (db_ctx db);
  bu_threshold : wc_active_memtable_bytes (db_ctx db) = 0 ∨
    wc_active_memtable_bytes (db_ctx db) < memtable_threshold_bytes config;
  bu_active : used (active_memtable (db_state db)) ≤ base + 64 * wc_active_memtable_bytes (db_ctx db);
  bu_queue : Forall (λ im, used (im_memtable im) ≤ memtable_limit) (immutable_memtables (db_state db))
}.

Lemma wlp_fewer {A} (m : st (Db F * W) A) (s : Db F * W) :
  steps fewer_memtables m → budget s.1 → wlp m (λ _ s', budget s'.1) s.
Proof.
  intros Hm [Hc Hb Ht Hu Hq] a s' E. specialize (Hm s). rewrite E in Hm. destruct Hm as [Ec Ea Eb Hsub]. cbn [fst snd] in *.
  split; rewrite ?Ec, ?Ea, ?Eb; try done. rewrite Forall_forall in *. intros im Him. by apply Hq, Hsub.
Qed.

Lemma wlp_rotate (s : Db F * W) :
  db_config s.1 = config → used (active_memtable (db_state s.1)) ≤ memtable_limit →
  Forall (λ im, used (im_memtable im) ≤ memtable_limit) (immutable_memtables (db_state s.1)) →
  wlp rotate_memtable_locked (λ _ s', budget s'.1) s.
Proof.
  destruct s as [db w]. cbn [fst]. intros Hc Ha Hq. unfold rotate_memtable_locked. apply wlp_bind, wlp_get, wlp_bind, wlp_lift.
  intros new En%new_used. apply wlp_bind, wlp_on_fst, wlp_modify. unfold reserve_file_number.
  apply wlp_bind, wlp_bind, wlp_get, wlp_bind, wlp_lift. intros next _. apply wlp_bind, wlp_on_fst, wlp_modify, wlp_ret.
  apply wlp_bind, wlp_on_snd, wlp_any. intros f w1. apply wlp_bind, wlp_lift. intros first _.
  apply wlp_bind, wlp_on_snd, wlp_any. intros wal w2. apply wlp_on_fst, wlp_modify.
  split; cbn; [done|done|by left|lia|]. by constructor.
Qed.

Lemma wlp_on_wal {A} (m : st (SegmentWriter F * W) A) (Q : A → Db F * W → Prop) db w :
  (∀ a wal w', Q a (db_set_ctx (wc_set_wal wal (db_ctx db)) db, w')) → wlp (on_wal m) Q (db, w).
Proof. intros HQ a s' E. unfold on_wal in E. destruct (m _) as [r [wal w1]]. injection E as -> <-. apply HQ. Qed.

Lemma wlp_on_active {A} (m : st SkipList A) (Q : A → Db F * W → Prop) db w :
  wlp m (λ a mem, Q a (db_set_state (es_set_active mem (db_state db)) db, w)) (active_memtable (db_state db)) →
  wlp (on_active m) Q (db, w).
Proof. intros HQ a s' E. unfold on_active in E. destruct (m _) as [r mem] eqn:Em. injection E as -> <-. by apply HQ. Qed.

Lemma wlp_commit batch (s : Db F * W) :
  batch_fits batch → len (wire_batch batch) ≤ biggest → budget s.1 → wlp (write_batch batch) (λ _ s', budget s'.1) s.
Proof.
  intros Hfits Hlen [Hc Hb Ht Hu Hq]. destruct s as [db w]. cbn [fst] in *. unfold write_batch, commit_batch.
  apply wlp_bind, wlp_get, wlp_bind, wlp_on_fst, wlp_modify, wlp_bind, wlp_lift. intros seqno _.
  apply wlp_bind, wlp_lift. intros encoded Ee. unfold encode in Ee. rewrite encode_into_ok in Ee by done.
  injection Ee as <-. cbn [app] in *. set (n := len (wire_batch batch)) in *.
  apply wlp_bind, wlp_on_wal. intros off wal1 w1. apply wlp_bind, wlp_on_wal. intros [] wal2 w2.
  apply wlp_bind, wlp_on_active. eapply wlp_mono; [apply wlp_apply_ops|]. intros [] mem Hm. cbn in Hm.
  assert (len (concat (wire_op <$> ops batch)) ≤ n) as Hn by (unfold n, wire_batch; len_lia).
  apply wlp_bind, wlp_lift. intros total Etot. unfold checked_add in Etot.
  destruct (_ <? _) in Etot; [|done]. injection Etot as <-. apply wlp_bind, wlp_on_fst, wlp_modify. rewrite Hc. case_bool.
  - apply wlp_rotate; cbn; [done| |done]. unfold memtable_limit. lia.
  - apply wlp_ret. split; cbn; [done|lia|by right; lia|lia|done].
Qed.

Lemma wlp_flush (s : Db F * W) : budget s.1 → wlp flush (λ _ s', budget s'.1) s.
Proof.
  intros Hbu. unfold flush. apply wlp_bind, wlp_get. destruct s as [db w]. cbn [fst] in *.
  apply wlp_bind. match goal with |- wlp ?m ?R _ => apply (wlp_mono m (λ _ s', budget s'.1) R) end.
  - destruct (negb _); [|by apply wlp_ret]. destruct Hbu as [Hc Hb Ht Hu Hq]. apply wlp_rotate; [done| |done].
    unfold memtable_limit. cbn [fst]. lia.
  - intros [] s1 Hbu1. apply wlp_bind, wlp_get. destruct s1 as [db1 w1]. apply wlp_fewer; [apply shrinks_flush_loop|done].
Qed.

Definition small_cmd (c : cmd) : Prop :=
  match c with
  | CmdWrite batch => batch_fits batch ∧ len (wire_batch batch) ≤ biggest
  | CmdFlush | CmdCompact => True
  | CmdReopen => False
  end.

Lemma wlp_cmds fuel cmds (s : Db F * W) :
  Forall small_cmd cmds → budget s.1 → wlp (run_cmds fuel cmds) (λ _ s', budget s'.1) s.
Proof.
  intros Hs. revert s. induction Hs as [|c cmds Hc _ IH]; intros s Hbu; cbn [run_cmds]; [by apply wlp_ret|].
  apply wlp_bind, (wlp_mono _ (λ _ s', budget s'.1)); [|intros [] s' Hs'; by apply IH].
  destruct c; cbn [run_cmd small_cmd] in *; [destruct Hc; by apply wlp_commit|by apply wlp_flush| |done].
  apply wlp_fewer; [apply shrinks_compact|done].
Qed.
End Budget.

(** A database right after opening: nothing queued, nothing on the account, and
    a new memtable if there was no log to replay. *)
Lemma open_fresh `{Crc32c} `{Xxh3} `{AesGcm} `{Hkdf} {F W : Type} `{Vfs F W} dir config (w w' : W) (db : Db F) :
  open_with dir config w = (Ok db, w') →
  db_config db = config ∧ immutable_memtables (db_state db) = [] ∧ wc_active_memtable_bytes (db_ctx db) = 0 ∧
  ∀ names, names_in (F := F) dir w = Ok names → omap parse_wal_segment_name names = [] →
    used (active_memtable (db_state db)) = 120.
Proof.
  revert db w'. set (Q := λ (db : Db F) (_ : W), db_config db = config ∧
    immutable_memtables (db_state db) = [] ∧ wc_active_memtable_bytes (db_ctx db) = 0 ∧
    ∀ names, names_in (F := F) dir w = Ok names → omap parse_wal_segment_name names = [] →
      used (active_memtable (db_state db)) = 120). change (wlp (open_with dir config) Q w).
  unfold open_with. apply wlp_bind, wlp_get, wlp_bind, wlp_lift. intros names En. apply wlp_bind, wlp_lift. intros next _.
  apply wlp_bind, wlp_lift. intros n _. apply wlp_bind, wlp_lift. intros [ssts m] _. apply wlp_bind, wlp_lift. intros mem Em.
  apply wlp_bind, wlp_lift. intros [mem' m'] Er. apply wlp_bind, wlp_lift. intros n' _. apply wlp_bind, wlp_any.
  intros f w1. apply wlp_bind, wlp_lift. intros first _. apply wlp_bind, wlp_any. intros wal w2. apply wlp_ret.
  split_and!; [done..|]. cbn. intros names' En' Hno. rewrite En in En'. injection En' as <-.
  rewrite Hno in Er. cbn in Er. injection Er as <- _. by apply new_used.
Qed.

(** * Flush and compaction succeed *)

Section Settle.
Context `{Crc32cLaws} `{Xxh3} `{AesGcmLaws} `{HkdfLaws} {F W : Type} `{VfsLaws F W} `{!ReliableReads F W}.

Lemma settle_flush `{!ReliableWrites F W} db (w : W) hist ls tables :
  db_inv db w hist ls tables → config_ok (db_config db) → flush_room db = true →
  ∃ db' w' tables', flush (db, w) = (Ok tt, (db', w')) ∧ db_inv db' w' hist [[]] tables' ∧ same_db db db'.
Proof.
  intros Hinv Hcfg Hroom. pose proof (dc_mems _ _ _ _ (co_content _ _ _ _ (dv_core _ _ _ _ _ Hinv))) as Hm.
  unfold flush_room in Hroom. fold (db_memtables db) (db_next db) in Hroom.
  rewrite !andb_true_iff, !Z.ltb_lt, (Forall2_length _ _ _ Hm) in Hroom. destruct Hroom as [[Hn Hsq] Hk].
  pose proof (wp_flush db w hist ls tables Hinv Hn Hsq Hcfg ltac:(by eapply mem_room_fits)) as Hwp. unfold wp in Hwp.
  destruct (flush (db, w)) as [[[]|e| |] [db' w']]; try done.
  - destruct Hwp as (tables' & ? & ? & _). by exists db', w', tables'.
  - destruct Hwp as [Hf _]. by apply no_write_faults in Hf.
Qed.

Lemma settle_compact `{!ReliableWrites F W} fuel db (w : W) hist ls tables :
  db_inv db w hist ls tables → compact_fits db tables → config_ok (db_config db) → (length (concat tables) < fuel)%nat →
  ∃ db' w' tables', compact_all fuel (db, w) = (Ok tt, (db', w')) ∧ db_inv db' w' hist ls tables' ∧ same_db db db' ∧
    len tables' ≤ 1.
Proof.
  intros Hinv Hfits Hcfg Hfuel. pose proof (wp_compact_all fuel db w hist ls tables Hinv Hfits Hcfg Hfuel) as Hwp.
  unfold wp in Hwp. destruct (compact_all fuel (db, w)) as [[[]|e| |] [db' w']]; try done.
  - destruct Hwp as (tables' & Hinv' & Hsame & Ht). exists db', w', tables'. split_and!; [done..|].
    destruct Ht as [[Hl ->]|(_ & rs & _ & ->)]; cbn; lia.
  - destruct Hwp as [Hf _]. by apply no_write_faults in Hf.
Qed.

(** One empty memtable is all that a settled database holds in memory. *)
Lemma inv_settled db (w : W) hist tables :
  db_inv db w hist [[]] tables →
  immutable_memtables (db_state db) = [] ∧ skiplist_is_empty (active_memtable (db_state db)) = true.
Proof.
  intros [[[Hm _] _ _ _ _] _ _ _]. unfold db_memtables in Hm. apply Forall2_cons in Hm as [Ha Hq].
  split; [|by apply (mem_ok_is_empty _ _ Ha)]. apply Forall2_nil_inv_r in Hq. by destruct (immutable_memtables (db_state db)).
Qed.

End Settle.

(** * Properties *)

(** C7. Memtables stay within their account.  Open any directory and run writes
    of at most [biggest] bytes on the log each, flushes and compactions.  As long
    as they succeed, the bytes accounted to the active memtable stay below the
    threshold (or are none); its arena has used at most [base] bytes and 64 for
    each byte of the account; and the arena of every queued memtable at most
    [base] bytes and 64 for each byte of the threshold and one batch.  Here
    [base] is what the arena held right after opening: 120 bytes if the
    directory had no log segment, so that all limits are absolute then;
    otherwise also what the replay of the log put there, which is not accounted
    and which the threshold does not limit. *)
Theorem memtable_memory_bounded `{Crc32c} `{Xxh3} `{AesGcm} `{Hkdf} {F W : Type} `{Vfs F W}
    (fuel : nat) (dir : string) (config : DbConfig) (cmds : list cmd) (biggest : Z) (w w1 w2 : W) (db db' : Db F)
    (Hthreshold : 0 ≤ memtable_threshold_bytes config) (Hbiggest : 0 ≤ biggest)
    (Hopen : open_with dir config w = (Ok db, w1)) (Hsmall : Forall (small_cmd biggest) cmds)
    (Hrun : run_cmds fuel cmds (db, w1) = (Ok tt, (db', w2))) :
  let base := Z.max 120 (skiplist_bytes_used (active_memtable (db_state db))) in
  let bytes := wc_active_memtable_bytes (db_ctx db') in
  (bytes = 0 ∨ 0 < bytes < memtable_threshold_bytes config) ∧
  skiplist_bytes_used (active_memtable (db_state db')) ≤ base + 64 * bytes ∧
  Forall (λ im, skiplist_bytes_used (im_memtable im) ≤ base + 64 * (memtable_threshold_bytes config + biggest))
    (immutable_memtables (db_state db')) ∧
  ∀ names, names_in (F := F) dir w = Ok names → omap parse_wal_segment_name names = [] → base = 120.
Proof.
  intros base bytes. destruct (open_fresh _ _ _ _ _ Hopen) as (Ec & Eq & Eb & Hfresh).
  assert (budget config base biggest db') as [_ Hb Ht Hu Hq].
  - refine (wlp_cmds config base biggest Hthreshold _ Hbiggest fuel cmds (db, w1) Hsmall _ tt (db', w2) Hrun);
      [unfold base; lia|].
    split; cbn [fst]; rewrite ?Eq, ?Eb; [done|lia|by left|unfold base, used; lia|constructor].
  - split_and!; [unfold bytes; lia|done|done|]. intros names En Hno. unfold base.
    pose proof (Hfresh names En Hno) as E. unfold used in E. lia.
Qed.

(** C6. Flush and compaction get there.  After a script on a disk that does not
    fail, a flush succeeds and leaves an empty memtable and an empty queue, and
    a compaction behind it succeeds and leaves at most one table, whose scans
    return the map of the script. *)
Theorem engine_settles `{Crc32cLaws} `{Xxh3} `{AesGcmLaws} `{HkdfLaws} {F W : Type} `{VfsLaws F W}
    `{!ReliableReads F W} `{!ReliableWrites F W} (fuel : nat) (dir : string) (config : DbConfig) (w w1 : W)
    (cmds : list cmd) (db : Db F) (Hok : vfs_ok w)
    (Hempty : ∀ name, named (F := F) w (dir +:+ "/" +:+ name) = None) (Hdir : dir_ok F W dir) (Hcfg : config_ok config)
    (Hroom : script_room fuel dir config cmds w = true)
    (Hrun : run_script fuel dir config cmds w = (Ok tt, (Some db, w1)))
    (Hafter : cmds_room fuel [CmdFlush; CmdCompact] (db, w1) = true) :
  ∃ db1 w2 db2 w3, flush (db, w1) = (Ok tt, (db1, w2)) ∧ compact_all fuel (db1, w2) = (Ok tt, (db2, w3)) ∧
    immutable_memtables (db_state db1) = [] ∧ skiplist_is_empty (active_memtable (db_state db1)) = true ∧
    immutable_memtables (db_state db2) = [] ∧ sstable_count db2 ≤ 1 ∧
    reads_at db2 w3 (snapshot db2) (foldl spec_cmd ∅ cmds).
Proof.
  pose proof (script_holds fuel dir config cmds w Hok Hempty Hdir Hcfg Hroom) as Hscript.
  rewrite Hrun in Hscript. destruct Hscript as (db0 & hist & [= <-] & [(ls & tables & Hinv & _) Hd Hc Hs]).
  cbn [cmds_room room run_cmd fst snd] in *. apply andb_true_iff in Hafter as [Hfr Hrest].
  destruct (settle_flush db w1 hist ls tables Hinv ltac:(by rewrite Hc) Hfr) as (db1 & w2 & tables1 & E1 & Hinv1 & Hsame1).
  rewrite E1 in Hrest. apply andb_true_iff in Hrest as [Hrest _]. cbn [fst snd] in Hrest.
  apply (compact_room_fits _ _ _ [[]] tables1) in Hrest as [Hfits Hfuel]; [|apply Hinv1].
  assert (config_ok (db_config db1)) as Hcfg1 by (by rewrite (sd_config _ _ Hsame1), Hc).
  destruct (settle_compact fuel db1 w2 hist [[]] tables1 Hinv1 Hfits Hcfg1 Hfuel) as (db2 & w3 & tables2 & E2 & Hinv2 & Hsame2 & Hle).
  exists db1, w2, db2, w3. split; [done|]. split; [done|].
  destruct (inv_settled _ _ _ _ Hinv1) as [Hq1 He1], (inv_settled _ _ _ _ Hinv2) as [Hq2 _]. split_and!; try done.
  - by rewrite (inv_table_count _ _ _ _ _ Hinv2).
  - eapply shows_reads; [apply Hinv2..|]. cbn [snapshot snap_seqno].
    by rewrite (sd_seqno _ _ Hsame2), (sd_seqno _ _ Hsame1).
Qed.

Lemma memtable_memory_bounded_witness :
  ∃ (db db' : Db MemFile) (w1 w2 : MemVfs),
    open_with "/db" demo_config mem_new = (Ok db, w1) ∧
    run_cmds 20 (take 5 demo_script) (db, w1) = (Ok tt, (db', w2)) ∧
    Forall (λ im, skiplist_bytes_used (im_memtable im) ≤ 120 + 64 * (4096 + 16)) (immutable_memtables (db_state db')).
Proof.
  assert (match open_with (F := MemFile) "/db" demo_config mem_new with
          | (Ok db, w1) =>
              match run_cmds 20 (take 5 demo_script) (db, w1) with (Ok _, _) => true | _ => false end
          | _ => false
          end = true) as Hrun by (vm_compute; reflexivity).
  destruct (open_with "/db" demo_config mem_new) as [[db|e| |] w1] eqn:Eo; try discriminate Hrun.
  destruct (run_cmds 20 (take 5 demo_script) (db, w1)) as [[[]|e| |] [db' w2]] eqn:Er; try discriminate Hrun.
  exists db, db', w1, w2. split; [reflexivity|]. split; [exact Er|].
  destruct (memtable_memory_bounded 20 "/db" demo_config (take 5 demo_script) 16 mem_new w1 w2 db db') as (_ & _ & Hq & Hbase);
    [cbn; lia|lia|exact Eo| |exact Er|rewrite (Hbase [] eq_refl eq_refl) in Hq; exact Hq].
  repeat (constructor; [cbn -[wire_batch batch_fits]; first [exact I | split; [apply (bool_decide_unpack _); vm_compute; reflexivity|vm_compute; intros ?; discriminate]]|]).
  constructor.
Defined.

Lemma engine_settles_witness :
  ∃ (db : Db MemFile) (w1 : MemVfs) (db1 : Db MemFile) (w2 : MemVfs) (db2 : Db MemFile) (w3 : MemVfs),
    demo_run (take 3 demo_script) = (Ok tt, (Some db, w1)) ∧ sstable_count db = 1 ∧
    flush (db, w1) = (Ok tt, (db1, w2)) ∧ compact_all 20 (db1, w2) = (Ok tt, (db2, w3)) ∧
    sstable_count db2 ≤ 1 ∧ reads_at db2 w3 (snapshot db2) {[ [97] := [3] ]}.
Proof.
  assert (script_room (F := MemFile) 20 "/db" demo_config (take 3 demo_script) mem_new = true) as Hroom
    by (vm_compute; reflexivity).
  assert (match demo_run (take 3 demo_script) with
          | (Ok _, (Some db, w)) => cmds_room 20 [CmdFlush; CmdCompact] (db, w) && (sstable_count db =? 1)
          | _ => false
          end = true) as Hafter by (vm_compute; reflexivity).
  unfold demo_run in *.
  destruct (run_script 20 "/db" demo_config (take 3 demo_script) mem_new) as [[[]|e| |] [[db|] w1]] eqn:E;
    try discriminate Hafter.
  apply andb_true_iff in Hafter as [Hafter Hcount]. apply Z.eqb_eq in Hcount.
  destruct (engine_settles 20 "/db" demo_config mem_new w1 (take 3 demo_script) db mem_new_ok demo_names eq_refl
    demo_config_ok Hroom E Hafter) as (db1 & w2 & db2 & w3 & E1 & E2 & _ & _ & _ & Hle & Hreads).
  exists db, w1, db1, w2, db2, w3. split; [reflexivity|]. split; [exact Hcount|]. split; [exact E1|]. split; [exact E2|].
  split; [exact Hle|exact Hreads].
Defined.
