(* ===== verification/EngineRaces.v ===== *)
(** Behaviours of [crates/paddock-core/src/engine.rs] that depend on the order of
    steps: publication races between compaction, flush and writers, snapshots
    taken inside a commit, leftover log segments, and power loss.  Each is a
    concrete schedule, run on the definitions of [Engine]. *)

From S2P Require Import Prelude Varint Checksum Vfs VfsLaws WalBatch WalFormat WalLayout WalWriter.
From S2P Require Import WalReader Bloom SstFormat Block Crypto SstWriter SstReader Frames FileNames.
From S2P Require Import InternalKey Arena SkipList Merger Versions History SstTable Compact RangeIter Engine.
From S2P Require Import EngineInv EngineReads EngineRun.

(** * The steps of a publication *)

Section Steps.
Context {F W : Type}.

(** [self.state.load_full()]. *)
Definition load_state : st (Db F * W) (EngineState F) := '(db, _) ← st_get; mret (db_state db).

(** [self.state.store(..)] of what [compact_all] computed from the state it had
    loaded, which need not be the current one any more: no lock is held. *)
Definition compact_store (output_id : Z) (reader : SstReader F) (inputs : list (LiveSst F))
    (prev : EngineState F) : st (Db F * W) () :=
  on_fst (st_modify (λ db, db_set_state (compacted output_id reader inputs prev) db)).
End Steps.

(** With nothing in between, the steps are [compact_publish]. *)
Lemma compact_publish_steps {F W} id reader inputs (s : Db F * W) :
  len inputs ≤ len (sstables (db_state s.1)) →
  compact_publish id reader inputs s = (prev ← load_state; compact_store id reader inputs prev) s.
Proof.
  destruct s as [db w]. intros Hle. unfold compact_publish. rewrite run_get.
  unfold usize_sub, load_state. cbn [fst] in Hle. by decide_bool.
Qed.

(** * Schedules *)

Abbreviation session := (st (Db MemFile * MemVfs)).

Definition run_session {A} (m : session A) : outcome A :=
  match open_with "/db" demo_config mem_new with
  | (Ok db, w) => (m (db, w)).1
  | _ => Panic
  end.

(** What a scan of everything shows. *)
Definition scan_result (db : Db MemFile) (w : MemVfs) : outcome (list (bytes * bytes)) :=
  it ← scan_all db;
  out ← (collect_records 20 (20%nat, w) 20 it).1;
  Ok (map (λ r, (rr_key r, rr_value r)) out).

Definition scanned : session (list (bytes * bytes)) := '(db, w) ← st_get; st_lift (scan_result db w).

(** Two tables to compact, the first with the key [97]. *)
Definition two_tables : session () :=
  _ ← put [97] [1]; _ ← flush; _ ← put [98] [2]; flush.

(** A flush completes between the merge and the swap. *)
Definition flush_during_compaction : session (option bytes * list (bytes * bytes)) :=
  _ ← two_tables;
  '(db, _) ← st_get;
  let inputs := sstables (db_state db) in
  '(id, reader) ← compact_run 20 inputs;
  _ ← put [97] [3];
  _ ← flush;
  _ ← compact_publish id reader inputs;
  v ← get false [97];
  all ← scanned;
  mret (v, all).

(** Two compactions of the same three inputs. *)
Definition compaction_twice : session () :=
  _ ← two_tables; _ ← put [99] [3]; _ ← flush;
  '(db, _) ← st_get;
  let inputs := sstables (db_state db) in
  '(id1, reader1) ← compact_run 20 inputs;
  '(id2, reader2) ← compact_run 20 inputs;
  _ ← compact_publish id1 reader1 inputs;
  compact_publish id2 reader2 inputs.

(** A rotation and a write between the load and the store of the swap. *)
Definition write_during_swap : session (option bytes * list (bytes * bytes)) :=
  _ ← two_tables;
  _ ← put [99] [4];
  '(db, _) ← st_get;
  let inputs := sstables (db_state db) in
  '(id, reader) ← compact_run 20 inputs;
  prev ← load_state;
  _ ← flush;
  _ ← put [100] [5];
  _ ← compact_store id reader inputs prev;
  v ← get false [100];
  all ← scanned;
  mret (v, all).

(** A reader takes a snapshot after [fetch_add] of a commit and before the
    memtable has the batch, and reads the key twice. *)
Definition snapshot_in_commit : session (option bytes * option bytes) :=
  '(db, w) ← st_get;
  let snap := snapshot (db_set_seqno (u64 (db_seqno db + 1)) db) in
  first ← get_at false [97] snap;
  _ ← put [97] [1];
  second ← get_at false [97] snap;
  mret (first, second).

(** A key written before and after a reopening, flushed the second time only. *)
Definition leftover_log : session (option bytes * list (bytes * bytes)) :=
  _ ← put [97] [1]; _ ← reopen;
  _ ← put [97] [2]; _ ← flush; _ ← reopen;
  v ← get false [97];
  all ← scanned;
  mret (v, all).

(** The process stops after [flush_one] created its file. *)
Definition stopped_flush : session () :=
  _ ← put [97] [1];
  n ← reserve_file_number;
  _ ← on_snd (open_writable (sst_path "/db" n));
  reopen.

(** ** Power loss *)

(** A file system that remembers, for every file, the bytes it held when it was
    last synced. *)
Record SyncVfs := { sv_mem : MemVfs; sv_synced : gmap MemFile bytes }.

Definition on_mem {A} (m : st MemVfs A) : st SyncVfs A := λ w,
  let '(r, mem) := m (sv_mem w) in (r, {| sv_mem := mem; sv_synced := sv_synced w |}).

Definition sync_sync (f : MemFile) : st SyncVfs () := λ w,
  (Ok tt, {| sv_mem := sv_mem w; sv_synced := <[f := mem_contents f (sv_mem w)]> (sv_synced w) |}).

#[global] Instance sync_vfs_file : VfsFile MemFile SyncVfs := {|
  vf_append := λ f d, on_mem (mem_append f d); vf_write_at := λ f d off, on_mem (mem_write_at f d off);
  vf_sync := sync_sync; vf_read_at := λ f n off w, mem_read_at f n off (sv_mem w);
  vf_size := λ f w, mem_size f (sv_mem w) |}.

#[global] Instance sync_vfs : Vfs MemFile SyncVfs := {|
  open_writable := λ p, on_mem (mem_open_writable p); open_readonly := λ p w, mem_open_readonly p (sv_mem w);
  rename := λ p q, on_mem (mem_rename p q); remove := λ p, on_mem (mem_remove p);
  list_dir := λ d w, mem_list d (sv_mem w) |}.

(** Names survive, bytes only as far as they were synced. *)
Definition power_loss (w : SyncVfs) : SyncVfs :=
  {| sv_mem := {| mv_files := mv_files (sv_mem w); mv_inodes := sv_synced w; mv_next := mv_next (sv_mem w) |};
     sv_synced := sv_synced w |}.

(** A database that loses power after [m] and is opened again. *)
Definition after_power_loss (m : st (Db MemFile * SyncVfs) ()) : outcome (option bytes) :=
  match open_with "/db" demo_config {| sv_mem := mem_new; sv_synced := ∅ |} with
  | (Ok db, w) =>
      match m (db, w) with
      | (Ok _, (_, w)) =>
          match open_with "/db" demo_config (power_loss w) with
          | (Ok db, w) => (get false [97] (db, w)).1
          | (Err e, _) => Err e
          | _ => Panic
          end
      | _ => Panic
      end
  | _ => Panic
  end.

(** ** A refused open *)

(** A file system that refuses to open [fv_refused] for writing, once. *)
Record FaultVfs := { fv_mem : MemVfs; fv_refused : option string }.

Definition on_fault {A} (m : st MemVfs A) : st FaultVfs A := λ w,
  let '(r, mem) := m (fv_mem w) in (r, {| fv_mem := mem; fv_refused := fv_refused w |}).

Definition fault_open_writable (p : string) : st FaultVfs MemFile := λ w,
  if bool_decide (fv_refused w = Some p) then (Err (Io IoOther), {| fv_mem := fv_mem w; fv_refused := None |})
  else on_fault (mem_open_writable p) w.

#[global] Instance fault_vfs_file : VfsFile MemFile FaultVfs := {|
  vf_append := λ f d, on_fault (mem_append f d); vf_write_at := λ f d off, on_fault (mem_write_at f d off);
  vf_sync := λ f, on_fault (mem_sync f); vf_read_at := λ f n off w, mem_read_at f n off (fv_mem w);
  vf_size := λ f w, mem_size f (fv_mem w) |}.

#[global] Instance fault_vfs : Vfs MemFile FaultVfs := {|
  open_writable := fault_open_writable; open_readonly := λ p w, mem_open_readonly p (fv_mem w);
  rename := λ p q, on_fault (mem_rename p q); remove := λ p, on_fault (mem_remove p);
  list_dir := λ d w, mem_list d (fv_mem w) |}.

(** A flush whose rotation cannot open the next segment, another write, and a
    flush that succeeds. *)
Definition refused_rotation : st (Db MemFile * FaultVfs) (option bytes * option bytes) :=
  _ ← put [97] [1];
  _ ← (λ s, (Ok tt, (flush s).2));
  _ ← put [98] [2];
  _ ← flush;
  a ← get false [97];
  b ← get false [98];
  mret (a, b).

(** * Properties *)

(** A flush that publishes its table while a compaction is merging ends up
    behind the compaction's output, so [get] returns the older value, while the
    scan, which compares sequence numbers, shows the newer one. *)
Theorem compaction_buries_flush :
  run_session flush_during_compaction = Ok (Some [1], [([97], [3]); ([98], [2])]).
Proof. vm_compute. reflexivity. Qed.

(** Of two overlapping compactions the second panics in its capacity
    computation: the list has become shorter than its inputs. *)
Theorem second_compaction_panics : run_session compaction_twice = Panic.
Proof. vm_compute. reflexivity. Qed.

(** An acknowledged write is gone from every read when a compaction stores a
    state it had loaded before the memtable was rotated. *)
Theorem stale_swap_loses_write :
  run_session write_during_swap = Ok (None, [([97], [1]); ([98], [2]); ([99], [4])]).
Proof. vm_compute. reflexivity. Qed.

(** A snapshot taken inside a commit does not give repeatable reads. *)
Theorem snapshot_in_commit_changes : run_session snapshot_in_commit = Ok (None, Some [1]).
Proof. vm_compute. reflexivity. Qed.

(** Segments replayed at open are never unlinked, so an older value comes back:
    after the second reopening the memtable holds the first value again and
    hides the table with the second one from [get]. *)
Theorem leftover_log_revives_old_value : run_session leftover_log = Ok (Some [1], [([97], [2])]).
Proof. vm_compute. reflexivity. Qed.

(** A process that stopped right after creating a table file leaves a directory
    that does not open any more. *)
Theorem stopped_flush_blocks_open : ∃ e, run_session stopped_flush = Err e.
Proof. eexists. vm_compute. reflexivity. Qed.

(** A commit that returned survives a power loss, but only until it is flushed:
    [flush] unlinks the synced log for a table that was never synced, and the
    directory does not open any more. *)
Theorem flush_undoes_durability :
  after_power_loss (put [97] [1]) = Ok (Some [1]) ∧
  ∃ e, after_power_loss (_ ← put [97] [1]; flush) = Err e.
Proof. split; [|eexists]; vm_compute; reflexivity. Qed.

(** A rotation that fails to open its segment has already queued the memtable
    under the segment that stays in use.  The next memtable is queued under the
    same number, and flushing the first drops both: an acknowledged write is
    gone. *)
Theorem refused_rotation_loses_write :
  match open_with "/db" demo_config {| fv_mem := mem_new; fv_refused := Some (wal_segment_path "/db" 2) |} with
  | (Ok db, w) => (refused_rotation (db, w)).1
  | _ => Panic
  end = Ok (Some [1], None).
Proof. vm_compute. reflexivity. Qed.
