(* ===== verification/Server.v ===== *)
(** The HTTP front end: [crates/paddock-server/src/main.rs].

    The route handlers as functions from a request to a response and a new
    state, over the engine on any file system; the configuration from the
    environment.  Routing, percent-decoding of paths, JSON rendering, timeouts
    and the body-limit layer are [axum]'s and [tower]'s; the base64 codec is a
    parameter. *)

From S2P Require Import Prelude Varint Checksum Vfs VfsLaws WalBatch WalFormat WalLayout WalWriter.
From S2P Require Import WalReader Bloom SstFormat Block Crypto SstWriter SstReader Frames FileNames.
From S2P Require Import InternalKey Arena SkipList Merger Versions History SstTable Compact RangeIter Engine.
From S2P Require Import EngineInv EngineReads EngineWrites EngineFlush EngineOpen EngineRun.

(** * Configuration *)

(** A [&str] is its UTF-8 bytes.  A slice at [i] panics inside a character. *)
Definition is_char_boundary (s : bytes) (i : nat) : bool :=
  match s !! i with
  | Some b => negb ((128 <=? b) && (b <? 192))
  | None => bool_decide (i = length s)
  end.

Definition str_slice (s : bytes) (i j : nat) : outcome bytes :=
  if is_char_boundary s i && is_char_boundary s j then Ok (take (j - i) (drop i s)) else Panic.

(** [char::to_digit(16)]. *)
Definition hex_digit (c : Z) : option Z :=
  if (48 <=? c) && (c <=? 57) then Some (c - 48)
  else if (97 <=? c) && (c <=? 102) then Some (c - 87)
  else if (65 <=? c) && (c <=? 70) then Some (c - 55)
  else None.

Fixpoint hex_digits (acc : Z) (cs : bytes) : option Z :=
  match cs with
  | [] => Some acc
  | c :: cs =>
      d ← hex_digit c;
      if acc * 16 + d <? 256 then hex_digits (acc * 16 + d) cs else None
  end.

(** [u8::from_str_radix(.., 16).ok()]: one leading plus sign is accepted. *)
Definition u8_from_hex (s : bytes) : option Z :=
  match s with
  | [] => None
  | c :: cs =>
      if c =? 43 then match cs with [] => None | _ => hex_digits 0 cs end
      else hex_digits 0 s
  end.

(** The loop over [i], with [n] rounds to go. *)
Fixpoint decode_hex_loop (n : nat) (i : nat) (hex out : bytes) : outcome (option bytes) :=
  match n with
  | O => Ok (Some out)
  | S n =>
      pair ← str_slice hex (i * 2) (i * 2 + 2);
      match u8_from_hex pair with
      | Some b => decode_hex_loop n (S i) hex (out ++ [b])
      | None => Ok None
      end
  end.

Definition decode_hex_32 (hex : bytes) : outcome (option bytes) :=
  if negb (len hex =? 64) then Ok None else decode_hex_loop 32 0 hex [].

(** The value of [PADDOCK_MASTER_KEY], if it is set. *)
Definition build_config (var : option bytes) : outcome (DbConfig + string) :=
  match var with
  | None => Ok (inl db_config_default)
  | Some hex =>
      raw ← decode_hex_32 hex;
      match raw with
      | None => Ok (inr "PADDOCK_MASTER_KEY must be 64 hex chars (32 bytes)")
      | Some raw =>
          Ok (inl {| memtable_threshold_bytes := memtable_threshold_bytes db_config_default;
                     bloom_bits_per_key := bloom_bits_per_key db_config_default;
                     bloom_num_hashes := bloom_num_hashes db_config_default;
                     sstable_capacity_hint := sstable_capacity_hint db_config_default;
                     master_key := Some {| master_key_bytes := raw |} |})
      end
  end.

(** * Requests and responses *)

Class Base64 := { b64_encode : bytes → string; b64_decode : string → option bytes }.

Definition MAX_KEY_LEN : Z := 1024.
Definition MAX_VALUE_LEN : Z := 1024 * 1024.

Record ScanQuery := { q_start : option string; q_end : option string; q_limit : option Z }.

Record ScanRecord := { sc_key : string; sc_value : string; sc_seqno : Z }.

Inductive Body :=
  | BodyEmpty
  | BodyText (text : string)
  | BodyBytes (b : bytes)
  | BodyStats (sstable_count current_seqno : Z) (encrypted : bool)
  | BodyCount (sstable_count : Z)
  | BodyScan (records : list ScanRecord) (truncated : bool)
  | BodyEngineError (e : Error).

Record Response := { status : Z; body : Body }.

Definition response (s : Z) (b : Body) : Response := {| status := s; body := b |}.

(** [engine_err]. *)
Definition engine_err (e : Error) : Response := response 500 (BodyEngineError e).

Definition newline : string := String (Ascii.ascii_of_nat 10) EmptyString.

Inductive request :=
  | Health
  | Stats
  | GetKv (key : bytes)
  | PutKv (key value : bytes)
  | DeleteKv (key : bytes)
  | Scan (q : ScanQuery)
  | Flush
  | Compact.

(** * Handlers *)

Section Handlers.
Context `{Crc32c} `{Xxh3} `{AesGcm} `{Hkdf} `{Base64} {F W : Type} `{Vfs F W}.

(** An engine call: its result becomes a response, its error a 500. *)
Definition respond {A} (m : st (Db F * W) A) (ok : A → Db F → Response) : st (Db F * W) Response := λ s,
  match m s with
  | (Ok a, s) => (Ok (ok a s.1), s)
  | (Err e, s) => (Ok (engine_err e), s)
  | (Panic, s) => (Panic, s)
  | (OutOfFuel, s) => (OutOfFuel, s)
  end.

Definition health : Response := response 200 (BodyText ("ok" +:+ newline)).

Definition stats (encrypted : bool) : st (Db F * W) Response :=
  '(db, _) ← st_get;
  mret (response 200 (BodyStats (sstable_count db) (current_seqno db) encrypted)).

Definition get_kv (avx2 : bool) (key : bytes) : st (Db F * W) Response :=
  if MAX_KEY_LEN <? len key then mret (response 400 (BodyText "key too long"))
  else respond (get avx2 key) (λ v _,
    match v with
    | Some value => response 200 (BodyBytes value)
    | None => response 404 (BodyText ("not found" +:+ newline))
    end).

Definition put_kv (key value : bytes) : st (Db F * W) Response :=
  if MAX_KEY_LEN <? len key then mret (response 400 (BodyText "key too long"))
  else if MAX_VALUE_LEN <? len value then mret (response 413 (BodyText "value too large"))
  else respond (put key value) (λ _ _, response 204 BodyEmpty).

Definition delete_kv (key : bytes) : st (Db F * W) Response :=
  if MAX_KEY_LEN <? len key then mret (response 400 (BodyText "key too long"))
  else respond (delete key) (λ _ _, response 204 BodyEmpty).

(** [match q.start.as_deref()]: an absent bound, a decoded one, or an error. *)
Definition query_bound (b64 : option string) : option (option bytes) :=
  match b64 with
  | Some s => match b64_decode s with Some b => Some (Some b) | None => None end
  | None => Some None
  end.

Definition start_bound (b : option bytes) : Bound := match b with Some b => Included b | None => Unbounded end.
Definition end_bound (b : option bytes) : Bound := match b with Some b => Excluded b | None => Unbounded end.

Definition scan_limit (q : ScanQuery) : Z := Z.min (default 1000 (q_limit q)) 10000.

Definition scan_record (r : RangeRecord) : ScanRecord :=
  {| sc_key := b64_encode (rr_key r); sc_value := b64_encode (rr_value r); sc_seqno := rr_seqno r |}.

(** [for (i, rec) in iter.enumerate()]: the record past the limit is pulled,
    and only tells that there is more. *)
Fixpoint scan_loop (fuel : nat) (env : nat * W) (next_fuel : nat) (limit i : Z) :
    st (DbRangeIter F) (list ScanRecord * bool) := λ it,
  match fuel with
  | O => (OutOfFuel, it)
  | S fuel =>
      match range_next next_fuel env it with
      | (Ok None, it) => (Ok ([], false), it)
      | (Ok (Some rec), it) =>
          if limit <=? i then (Ok ([], true), it)
          else (rest ← scan_loop fuel env next_fuel limit (i + 1); mret (scan_record rec :: rest.1, rest.2)) it
      | (Err e, it) => if limit <=? i then (Ok ([], true), it) else (Err e, it)
      | (Panic, it) => (Panic, it)
      | (OutOfFuel, it) => (OutOfFuel, it)
      end
  end.

Definition scan (fuel : nat) (q : ScanQuery) : st (Db F * W) Response :=
  match query_bound (q_start q) with
  | None => mret (response 400 (BodyText "start: invalid base64"))
  | Some start =>
      match query_bound (q_end q) with
      | None => mret (response 400 (BodyText "end: invalid base64"))
      | Some end_ =>
          '(db, w) ← st_get;
          respond
            (it ← st_lift (range_bounds (start_bound start) (end_bound end_) (snapshot db) db);
             st_lift (scan_loop fuel (fuel, w) fuel (scan_limit q) 0 it).1)
            (λ page _, response 200 (BodyScan page.1 page.2))
      end
  end.

Definition flush_route : st (Db F * W) Response :=
  respond flush (λ _ db, response 200 (BodyCount (sstable_count db))).

Definition compact_route (fuel : nat) : st (Db F * W) Response :=
  respond (compact_all fuel) (λ _ db, response 200 (BodyCount (sstable_count db))).

(** The router. *)
Definition handle (fuel : nat) (avx2 encrypted : bool) (r : request) : st (Db F * W) Response :=
  match r with
  | Health => mret health
  | Stats => stats encrypted
  | GetKv key => get_kv avx2 key
  | PutKv key value => put_kv key value
  | DeleteKv key => delete_kv key
  | Scan q => scan fuel q
  | Flush => flush_route
  | Compact => compact_route fuel
  end.

Fixpoint serve (fuel : nat) (avx2 encrypted : bool) (rs : list request) : st (Db F * W) (list Response) :=
  match rs with
  | [] => mret []
  | r :: rs =>
      resp ← handle fuel avx2 encrypted r;
      rest ← serve fuel avx2 encrypted rs;
      mret (resp :: rest)
  end.
End Handlers.

(** * The specification *)

Definition key_fits (key : bytes) : bool := len key <=? MAX_KEY_LEN.

Definition spec_request (m : kv) (r : request) : kv :=
  match r with
  | PutKv key value => if key_fits key && (len value <=? MAX_VALUE_LEN) then <[key := value]> m else m
  | DeleteKv key => if key_fits key then base.delete key m else m
  | _ => m
  end.

(** The requests that write. *)
Definition accepted_write (r : request) : bool :=
  match r with
  | PutKv key value => key_fits key && (len value <=? MAX_VALUE_LEN)
  | DeleteKv key => key_fits key
  | _ => false
  end.

Definition accept (acc : list request) (r : request) : list request := if accepted_write r then acc ++ [r] else acc.

Definition writes (r : request) : Z := if accepted_write r then 1 else 0.

Definition found (v : option bytes) : Response :=
  match v with
  | Some value => response 200 (BodyBytes value)
  | None => response 404 (BodyText ("not found" +:+ newline))
  end.

Definition too_long : Response := response 400 (BodyText "key too long").

Section Spec.
Context `{Crc32c} `{Xxh3} `{AesGcm} `{Hkdf} `{Base64} {F W : Type} `{Vfs F W}.

(** The versions in the memtables and tables, in the order a lookup visits them. *)
Definition loaded_sources (fuel : nat) (s : Db F * W) : option (list (list version)) :=
  mems ← mapM (λ m, match skiplist_entries m with Ok l => Some (mem_records l) | _ => None end)
              (active_memtable (db_state s.1) :: (im_memtable <$> immutable_memtables (db_state s.1)));
  tables ← load_tables fuel s.2 s.1;
  Some (mems ++ tables).

(** Where a lookup is sure to see the newest version: no table holds a key
    twice, and the versions of the key are in order of age, which they always
    are on a directory that was not opened before ([fresh]). *)
Definition lookup_room (fuel : nat) (fresh : bool) (key : bytes) (s : Db F * W) : bool :=
  single_versions fuel s.1 s.2 &&
  (fresh || match loaded_sources fuel s with Some srcs => aged_forb key srcs | None => false end).

(** What a request is answered in the state [s] of a database that holds the
    map [m], after the accepted writes [acc], with the sequence number [seq]. *)
Definition answers (fuel : nat) (fresh encrypted : bool) (acc : list request) (m : kv) (seq : Z) (s : Db F * W)
    (r : request) (resp : Response) : Prop :=
  match r with
  | Health => resp = health
  | Stats => resp = response 200 (BodyStats (sstable_count s.1) seq encrypted)
  | GetKv key =>
      if key_fits key then
        ∃ v, resp = found v ∧ (∀ value, v = Some value → PutKv key value ∈ acc) ∧
          (lookup_room fuel fresh key s = true → v = m !! key)
      else resp = too_long
  | PutKv key value =>
      resp = (if negb (key_fits key) then too_long
              else if len value <=? MAX_VALUE_LEN then response 204 BodyEmpty
              else response 413 (BodyText "value too large"))
  | DeleteKv key => resp = (if key_fits key then response 204 BodyEmpty else too_long)
  | Scan q =>
      match query_bound (q_start q), query_bound (q_end q) with
      | Some start, Some end_ =>
          ∃ out, StronglySorted rr_lt out ∧
            (λ r, (rr_key r, rr_value r)) <$> out ≡ₚ
              filter (λ e, in_range (start_bound start) (end_bound end_) e.1 = true) (map_to_list m) ∧
            resp = response 200 (BodyScan (scan_record <$> take (Z.to_nat (scan_limit q)) out)
                                          (scan_limit q <? len out))
      | None, _ => resp = response 400 (BodyText "start: invalid base64")
      | Some _, None => resp = response 400 (BodyText "end: invalid base64")
      end
  | Flush => resp = response 200 (BodyCount (sstable_count s.1 + flush_count s.1))
  | Compact => resp = response 200 (BodyCount (if sstable_count s.1 <? 2 then sstable_count s.1 else 1))
  end.

(** The answers along a list of requests: the map, the accepted writes and the
    sequence number advance with each, and the state is the server's. *)
Fixpoint all_answered (fuel : nat) (avx2 fresh encrypted : bool) (acc : list request) (m : kv) (seq : Z)
    (s : Db F * W) (rs : list request) (resps : list Response) : Prop :=
  match rs, resps with
  | [], [] => True
  | r :: rs, resp :: resps =>
      answers fuel fresh encrypted acc m seq s r resp ∧
      all_answered fuel avx2 fresh encrypted (accept acc r) (spec_request m r) (seq + writes r)
        (handle fuel avx2 encrypted r s).2 rs resps
  | _, _ => False
  end.

(** Room for the versions a scan reads. *)
Definition mem_count (m : SkipList) : nat :=
  match skiplist_entries m with Ok l => length l | _ => 0%nat end.

Definition scan_room (fuel : nat) (db : Db F) (w : W) : bool :=
  let mems := active_memtable (db_state db) :: (im_memtable <$> immutable_memtables (db_state db)) in
  match load_tables fuel w db with
  | Some es => bool_decide (sum_list_with mem_count mems + length (concat es) < fuel)%nat
  | None => false
  end.

Definition request_room (fuel : nat) (r : request) (s : Db F * W) : bool :=
  match r with
  | PutKv key value => counter_room (batch_put batch_new key value) s.1
  | DeleteKv key => counter_room (batch_delete batch_new key) s.1
  | Scan q => (0 <=? scan_limit q) && scan_room fuel s.1 s.2
  | Flush => flush_room s.1
  | Compact => compact_room fuel s.1 s.2
  | Health | Stats | GetKv _ => true
  end.

Fixpoint requests_room (fuel : nat) (avx2 encrypted : bool) (rs : list request) (s : Db F * W) : bool :=
  match rs with
  | [] => true
  | r :: rs =>
      request_room fuel r s &&
      match handle fuel avx2 encrypted r s with
      | (Ok _, s) => requests_room fuel avx2 encrypted rs s
      | _ => true
      end
  end.
End Spec.

(** * Requests and the formats *)

(** What the handlers let through is within the limits of log and tables. *)
Lemma put_fits key value :
  key_fits key = true → (len value <=? MAX_VALUE_LEN) = true →
  batch_fits (batch_put batch_new key value) ∧ Forall op_small (ops (batch_put batch_new key value)).
Proof.
  unfold key_fits, MAX_KEY_LEN, MAX_VALUE_LEN. rewrite !Z.leb_le. intros Hk Hv.
  split; [split; [by vm_compute|]|]; (apply Forall_cons; split; [|by apply Forall_nil]).
  - cbn. unfold is_u32. lia.
  - unfold op_small, record_small, is_u64. cbn. lia.
Qed.

Lemma delete_fits key :
  key_fits key = true →
  batch_fits (batch_delete batch_new key) ∧ Forall op_small (ops (batch_delete batch_new key)).
Proof.
  unfold key_fits, MAX_KEY_LEN. rewrite Z.leb_le. intros Hk.
  split; [split; [by vm_compute|]|]; (apply Forall_cons; split; [|by apply Forall_nil]).
  - cbn. unfold is_u32. lia.
  - unfold op_small, record_small, is_u64. cbn. lia.
Qed.

Lemma key_fits_negb key : (MAX_KEY_LEN <? len key) = negb (key_fits key).
Proof. unfold key_fits. by rewrite Z.leb_antisym, negb_involutive. Qed.

Section Served.
Context `{Crc32cLaws} `{Xxh3} `{AesGcmLaws} `{HkdfLaws} `{Base64} {F W : Type} `{VfsLaws F W}
  `{!ReliableReads F W}.

Lemma accepted_count acc rs (n : Z) : foldl (λ n r, n + writes r) n rs = n + (len (foldl accept acc rs) - len acc).
Proof.
  revert acc n. induction rs as [|r rs IH]; intros acc n; cbn [foldl]; [lia|]. rewrite (IH (accept acc r)).
  unfold accept, writes. destruct (accepted_write r); [rewrite length_app; cbn [length]|]; lia.
Qed.

(** ** Lookups leave the database as it was *)

Lemma same_ssts_files (ssts ssts' : list (LiveSst F)) :
  same_ssts ssts ssts' → tr_file <$> (ls_reader <$> ssts') = tr_file <$> (ls_reader <$> ssts).
Proof.
  induction 1 as [|a b l l' [_ [E|E]] _ IH]; [done| |]; rewrite !fmap_cons, IH, E; done.
Qed.

Lemma inv_counted db (w : W) hist ls tables ssts :
  db_inv db w hist ls tables → same_ssts (sstables (db_state db)) ssts → db_inv (db_counted ssts db) w hist ls tables.
Proof.
  intros [[Hc [Hok Hdir Hn Hfree Hlive Hap] [Hnd Hlt Hwd Hwl] Hseq Hs] Hb Hr (log & tab & Hd & [Hw Hm Ht] & Hlo)] Hsame.
  pose proof (same_ssts_ids _ _ Hsame) as Eids. pose proof (same_ssts_files _ _ Hsame) as Efiles.
  assert (Forall (λ f, f ≠ file (db_wal db)) (tr_file <$> db_readers db)) as Hap' by (by apply Forall_fmap).
  split; [split|done|done|exists log, tab; split_and!]; try done.
  - by apply db_content_counted.
  - split; try done. apply (proj1 (Forall_fmap tr_file (λ f, f ≠ file (db_wal db)) _)).
    unfold db_readers. cbn. by rewrite Efiles.
  - split; try done; unfold db_counted; cbn; by rewrite Eids.
  - split; try done. unfold db_counted. cbn. by rewrite Eids.
Qed.

(** ** Pages *)

Lemma scan_loop_collect fuel env next_fuel limit i (it : DbRangeIter F) out :
  (collect_records fuel env next_fuel it).1 = Ok out → 0 ≤ i ≤ limit →
  (scan_loop fuel env next_fuel limit i it).1 =
    Ok (scan_record <$> take (Z.to_nat (limit - i)) out, limit - i <? len out).
Proof.
  revert i it out. induction fuel as [|fuel IH]; intros i it out; [done|]. cbn [collect_records scan_loop].
  unfold mbind, st_bind. destruct (range_next next_fuel env it) as [[[rec|]| | |] it']; try done.
  - destruct (collect_records fuel env next_fuel it') as [[rest| | |] it2] eqn:E; try done.
    intros [= <-] Hi. specialize (IH (i + 1) it' rest). rewrite E in IH. destruct (Z.leb_spec limit i).
    + assert (limit - i = 0) as -> by lia. done.
    + specialize (IH eq_refl ltac:(lia)).
      destruct (scan_loop fuel env next_fuel limit (i + 1) it') as [o it3]. cbn [fst] in *. subst o.
      replace (Z.to_nat (limit - i)) with (S (Z.to_nat (limit - (i + 1)))) by lia. cbn. do 2 f_equal.
      apply eq_bool_prop_intro. rewrite !Is_true_true, !Z.ltb_lt. lia.
  - intros [= <-] Hi. rewrite take_nil. cbn. do 2 f_equal. symmetry. apply Z.ltb_ge. lia.
Qed.

Lemma sum_mem_count ms ls : Forall2 mem_ok ms ls → sum_list_with mem_count ms = length (concat (mem_records <$> ls)).
Proof.
  induction 1 as [|m l ms ls [ps Hrep] _ IH]; [done|]. cbn [sum_list_with fmap list_fmap concat].
  rewrite IH, length_app, length_fmap. unfold mem_count.
  by rewrite (skiplist_entries_spec _ _ _ _ (sr_shape _ _ _ Hrep)).
Qed.

Lemma scan_room_fits fuel db (w : W) ls tables :
  db_content db w ls tables → scan_room fuel db w = true → (length (versions_of ls tables) < fuel)%nat.
Proof.
  intros Hc. pose proof Hc as [Hm _]. unfold scan_room. fold (db_memtables db).
  destruct (load_tables fuel w db) as [es|] eqn:E; [|done]. apply (load_tables_entries _ _ _ _ _ _ Hc) in E as ->.
  rewrite bool_decide_eq_true, (sum_mem_count _ _ Hm). unfold versions_of, sources_of.
  by rewrite concat_app, length_app.
Qed.

(** ** Lookups *)

Lemma loaded_mems ms ls mems :
  Forall2 mem_ok ms ls →
  mapM (λ m, match skiplist_entries m with Ok l => Some (mem_records l) | _ => None end) ms = Some mems →
  mems = mem_records <$> ls.
Proof.
  intros Hm. rewrite mapM_Some. revert mems. induction Hm as [|m l ms ls [ps Hrep] _ IH]; intros mems Hl.
  { by apply Forall2_nil_inv_l in Hl as ->. }
  apply Forall2_cons_inv_l in Hl as (x & mems' & Hx & Hl & ->). rewrite fmap_cons, (IH _ Hl).
  rewrite (skiplist_entries_spec _ _ _ _ (sr_shape _ _ _ Hrep)) in Hx. by injection Hx as <-.
Qed.

Lemma lookup_room_aged fuel fresh key (s : Db F * W) ls tables :
  db_content s.1 s.2 ls tables → (fresh = true → by_age (sources_of ls tables)) →
  lookup_room fuel fresh key s = true →
  aged_for key (sources_of ls tables) ∧ Forall (λ rs, NoDup (br_key <$> rs)) tables.
Proof.
  intros Hc Hage [Hsv Hex]%andb_true_iff. split; [|by eapply single_versions_NoDup].
  apply orb_true_iff in Hex as [Hf|Hex]; [by apply by_age_for, Hage|].
  destruct (loaded_sources fuel s) as [srcs|] eqn:E; [|done]. unfold loaded_sources in E.
  apply bind_Some in E as (mems & Em & E). apply bind_Some in E as (es & Et & E). injection E as <-.
  apply (loaded_mems _ ls) in Em as ->; [|apply Hc]. apply (load_tables_entries _ _ _ _ _ _ Hc) in Et as ->.
  by apply aged_forb_true.
Qed.

(** ** One request *)

(** The server's state: the database holds the map, and every value in its
    history was put by an accepted request. *)
Record serving (dir : string) (config : DbConfig) (aged : bool) (acc : list request) (m : kv) (seq : Z)
    (s : Db F * W) (hist : list version) : Prop := {
  sv_holds : holds dir config aged s hist m;
  sv_written v : v ∈ hist → hit_op v.2 = OpPut → PutKv v.1 (hit_value v.2) ∈ acc;
  sv_seqno : db_seqno s.1 = seq
}.

(** The request is answered as it should and the state advances, or the store
    failed and it is answered 500. *)
Definition served (dir : string) (config : DbConfig) (fuel : nat) (aged encrypted : bool) (acc : list request) (m : kv)
    (seq : Z) (s : Db F * W) (r : request) (out : outcome Response * (Db F * W)) : Prop :=
  ∃ resp, out.1 = Ok resp ∧
    ((∃ hist, serving dir config aged (accept acc r) (spec_request m r) (seq + writes r) out.2 hist ∧
        answers fuel aged encrypted acc m seq s r resp) ∨
     (write_faults F W ∧ status resp = 500)).

Lemma accept_incl acc r r' : r' ∈ acc → r' ∈ accept acc r.
Proof. unfold accept. case_match; [|done]. intros Hr. apply elem_of_app. by left. Qed.

Section Request.
Context (dir : string) (config : DbConfig) (fuel : nat) (aged encrypted : bool) (acc : list request) (m : kv) (seq : Z)
  (s : Db F * W) (hist : list version) (Hsv : serving dir config aged acc m seq s hist).

(** A request that reads. *)
Lemma read_served r resp db :
  accepted_write r = false → holds dir config aged (db, s.2) hist m → db_seqno db = db_seqno s.1 →
  answers fuel aged encrypted acc m seq s r resp →
  served dir config fuel aged encrypted acc m seq s r (Ok resp, (db, s.2)).
Proof.
  intros Hr Hho Hsq Hans. exists resp. split; [done|left]. exists hist. split; [|done].
  assert (spec_request m r = m) as -> by (destruct r; cbn in *; by rewrite ?Hr).
  unfold accept, writes. rewrite Hr, Z.add_0_r. destruct Hsv as [_ Hw Hs]. split; [done..|]. cbn. congruence.
Qed.

Lemma refused_served r resp :
  accepted_write r = false → answers fuel aged encrypted acc m seq s r resp →
  served dir config fuel aged encrypted acc m seq s r (Ok resp, s).
Proof.
  intros Hr Hans. pose proof (sv_holds _ _ _ _ _ _ _ _ Hsv) as Hho. pose proof (surjective_pairing s) as Es.
  rewrite Es in Hho. pose proof (read_served r resp s.1 Hr Hho eq_refl Hans) as Hsd. by rewrite <-Es in Hsd.
Qed.

(** An engine call that a script could make. *)
Lemma respond_served {A} (c : cmd) r (op : st (Db F * W) A) ok :
  is_reopen c = false → spec_request m r = spec_cmd m c →
  wp op (λ _ _, write_faults F W) (λ _, cmd_post dir config aged s hist m c) s →
  (∀ a new s', cmd_effect s c new s' →
     (∀ v, v ∈ new → hit_op v.2 = OpPut → PutKv v.1 (hit_value v.2) ∈ accept acc r) ∧
     db_seqno s'.1 = db_seqno s.1 + writes r ∧ answers fuel aged encrypted acc m seq s r (ok a s'.1)) →
  served dir config fuel aged encrypted acc m seq s r (respond op ok s).
Proof.
  intros Hc Hspec Hwp Heff. destruct Hsv as [Hho Hw Hs]. unfold wp in Hwp. unfold served, respond.
  destruct (op s) as [[a|e| |] s']; try done.
  - destruct Hwp as (new & Hho' & _ & He). rewrite Hc, andb_true_r in Hho'.
    destruct (Heff a new s' He) as (Hnew & Hsq & Hans). exists (ok a s'.1). split; [done|left].
    exists (new ++ hist). split; [|done]. split; [by rewrite Hspec| |cbn; congruence].
    intros v [Hv|Hv]%elem_of_app Hop; [by apply Hnew|]. by apply accept_incl, Hw.
  - exists (engine_err e). split; [done|by right].
Qed.

Lemma put_served key value :
  counter_room (batch_put batch_new key value) s.1 = true →
  served dir config fuel aged encrypted acc m seq s (PutKv key value) (put_kv key value s).
Proof.
  intros Hroom. unfold put_kv. rewrite key_fits_negb.
  destruct (key_fits key) eqn:Ek; cbn [negb]; [|apply refused_served; cbn; by rewrite Ek].
  destruct (Z.ltb_spec MAX_VALUE_LEN (len value)) as [Hv|Hv].
  { apply Z.leb_gt in Hv. apply refused_served; cbn; by rewrite Ek, Hv. }
  apply Z.leb_le in Hv. destruct (put_fits key value Ek Hv) as [Hf Hs].
  assert (accepted_write (PutKv key value) = true) as Hacc by (cbn; by rewrite Ek, Hv).
  apply (respond_served (CmdWrite (batch_put batch_new key value))); [done|cbn; by rewrite Ek, Hv| |].
  - apply wp_write_cmd; [apply Hsv|]. unfold write_room. by rewrite !bool_decide_eq_true_2.
  - intros a new s' [-> Hsq]. unfold writes, accept. rewrite Hacc. split_and!; [|done|cbn; by rewrite Ek, Hv].
    intros v Hin _. apply list_elem_of_singleton in Hin as ->. cbn. apply elem_of_app. right. left.
Qed.

Lemma delete_served key :
  counter_room (batch_delete batch_new key) s.1 = true →
  served dir config fuel aged encrypted acc m seq s (DeleteKv key) (delete_kv key s).
Proof.
  intros Hroom. unfold delete_kv. rewrite key_fits_negb.
  destruct (key_fits key) eqn:Ek; cbn [negb]; [|apply refused_served; cbn; by rewrite Ek].
  destruct (delete_fits key Ek) as [Hf Hs]. assert (accepted_write (DeleteKv key) = true) as Hacc by done.
  apply (respond_served (CmdWrite (batch_delete batch_new key))); [done|cbn; by rewrite Ek| |].
  - apply wp_write_cmd; [apply Hsv|]. unfold write_room. by rewrite !bool_decide_eq_true_2.
  - intros a new s' [-> Hsq]. unfold writes. rewrite Hacc. split_and!; [|done|cbn; by rewrite Ek].
    intros v Hin Hop. apply list_elem_of_singleton in Hin as ->. done.
Qed.

Lemma get_served avx2 key : served dir config fuel aged encrypted acc m seq s (GetKv key) (get_kv avx2 key s).
Proof.
  unfold get_kv. rewrite key_fits_negb.
  destruct (key_fits key) eqn:Ek; cbn [negb]; [|apply refused_served; cbn; by rewrite ?Ek].
  pose proof Hsv as [[(ls & tables & Hinv & Hage) Hd Hc Hs] Hw Hsq].
  assert (s = (s.1, s.2)) as Es by (by destruct s).
  destruct (lookup_sound avx2 key (snapshot s.1) s.1 s.2 ls tables) as (res & ssts & Hsame & E & Hres); [apply Hinv|].
  assert (get avx2 key s = (Ok res, (db_counted ssts s.1, s.2))) as Eg by (rewrite Es at 1; unfold get; by rewrite run_get).
  unfold respond. rewrite Eg. cbn [fst snd].
  replace (match res with Some _ => _ | None => _ end) with (found res) by done.
  apply read_served; [done| |done|].
  - split; [exists ls, tables; split; [by apply inv_counted|done]|done..].
  - cbn. rewrite Ek. exists res. split_and!; [done| |].
    + intros value Hv. destruct (Hres value Hv) as (h & Hin & _ & Hop & <-).
      apply (Hw (key, h)); [|done]. eapply represents_elem; [apply Hinv|exact Hin].
    + intros Hroom. destruct (lookup_room_aged _ _ _ _ _ _ (co_content _ _ _ _ (dv_core _ _ _ _ _ Hinv)) Hage Hroom) as [Ha Hnd].
      destruct (lookup_exact avx2 key (snapshot s.1) s.1 s.2 ls tables hist) as (db' & E' & _); [apply Hinv..|done|done|].
      rewrite E in E'. injection E' as -> _. apply Hs.
Qed.

Lemma scan_served q :
  request_room fuel (Scan q) s = true →
  served dir config fuel aged encrypted acc m seq s (Scan q) (scan fuel q s).
Proof.
  intros [Hq Hroom]%andb_true_iff. unfold scan.
  destruct (query_bound (q_start q)) as [start|] eqn:Es; [|apply refused_served; cbn; by rewrite ?Es].
  destruct (query_bound (q_end q)) as [end_|] eqn:Ee; [|apply refused_served; cbn; by rewrite ?Es, ?Ee].
  pose proof Hsv as [[(ls & tables & [[Hc _ _ _ _] _ Hr _] & _) _ _ Hs] _ _].
  assert (s = (s.1, s.2)) as Eq by (by destruct s).
  apply (scan_room_fits _ _ _ ls tables Hc) in Hroom. apply Z.leb_le in Hq.
  destruct (shows_scan s.1 s.2 ls tables hist (start_bound start) (end_bound end_) (snapshot s.1) fuel m Hc Hr Hs Hroom)
    as (it & out & E & Eo & Hsort & Hperm).
  rewrite run_get, Eq. unfold respond. rewrite (run_lift _ _ _ _ E). unfold st_lift.
  rewrite (scan_loop_collect _ _ _ _ 0 _ _ Eo) by lia. rewrite Z.sub_0_r, <-Eq.
  apply refused_served; [done|]. cbn. rewrite Es, Ee. by exists out.
Qed.

Lemma handle_served avx2 r :
  config_ok config → request_room fuel r s = true →
  served dir config fuel aged encrypted acc m seq s r (handle fuel avx2 encrypted r s).
Proof.
  intros Hcfg. pose proof (sv_holds _ _ _ _ _ _ _ _ Hsv) as Hho. pose proof (sv_seqno _ _ _ _ _ _ _ _ Hsv) as Hsq.
  destruct r; cbn [handle]; intros Hroom.
  - by apply refused_served.
  - assert (stats encrypted s = (Ok (response 200 (BodyStats (sstable_count s.1) seq encrypted)), s)) as ->
      by (unfold stats; rewrite run_get; rewrite <-Hsq; by destruct s).
    by apply refused_served.
  - apply get_served.
  - by apply put_served.
  - by apply delete_served.
  - by apply scan_served.
  - apply (respond_served CmdFlush); [done|done|by apply wp_flush_cmd|].
    intros a new s' (-> & -> & Hn). split_and!; [by intros v ?%not_elem_of_nil|unfold writes; cbn; lia|]. cbn. by rewrite Hn.
  - apply (respond_served CmdCompact); [done|done|by apply wp_compact_cmd|].
    intros a new s' (-> & -> & Hn). split_and!; [by intros v ?%not_elem_of_nil|unfold writes; cbn; lia|]. cbn. by rewrite Hn.
Qed.
End Request.

Lemma serve_holds `{!ReliableWrites F W} dir config aged fuel avx2 encrypted rs (s : Db F * W) hist acc m seq :
  config_ok config → serving dir config aged acc m seq s hist → requests_room fuel avx2 encrypted rs s = true →
  ∃ resps s' hist', serve fuel avx2 encrypted rs s = (Ok resps, s') ∧
    all_answered fuel avx2 aged encrypted acc m seq s rs resps ∧
    serving dir config aged (foldl accept acc rs) (foldl spec_request m rs) (foldl (λ n r, n + writes r) seq rs) s' hist'.
Proof.
  intros Hcfg. revert s hist acc m seq. induction rs as [|r rs IH]; intros s hist acc m seq Hsv Hroom.
  { exists [], s, hist. by destruct s. }
  cbn [requests_room] in Hroom. apply andb_true_iff in Hroom as [Hr Hrest].
  destruct (handle_served dir config fuel aged encrypted acc m seq s hist Hsv avx2 r Hcfg Hr) as (resp & E & Hout).
  destruct (handle fuel avx2 encrypted r s) as [o s1] eqn:Eh. cbn [fst snd] in *. subst o.
  destruct Hout as [(hist1 & Hsv1 & Ha)|[Hf _]]; [|by apply no_write_faults in Hf].
  destruct (IH s1 hist1 _ _ _ Hsv1 Hrest) as (resps & s2 & hist2 & E2 & Ha2 & Hsv2).
  exists (resp :: resps), s2, hist2. cbn [serve]. rewrite (run_bind _ _ _ _ _ Eh), (run_bind _ _ _ _ _ E2).
  split_and!; [done| |done]. cbn [all_answered]. by rewrite Eh.
Qed.
End Served.

(** * The hexadecimal key *)

Definition hex_char (upper : bool) (d : Z) : Z := if d <? 10 then 48 + d else if upper then 55 + d else 87 + d.

Definition hex_of (upper : bool) (b : bytes) : bytes :=
  concat ((λ x, [hex_char upper (x / 16); hex_char upper (x mod 16)]) <$> b).

Lemma hex_char_digit upper d : 0 ≤ d < 16 → hex_digit (hex_char upper d) = Some d.
Proof.
  intros Hd. unfold hex_digit, hex_char. destruct (Z.ltb_spec d 10) as [Hlt|Hge]; [decide_bool; f_equal; lia|].
  destruct upper; repeat case_bool; (f_equal; lia) || lia.
Qed.

Lemma hex_char_ascii upper d : 0 ≤ d < 16 → 44 ≤ hex_char upper d < 128.
Proof. intros Hd. unfold hex_char. destruct upper; repeat case_bool; lia. Qed.

(** ASCII text can be sliced anywhere. *)
Lemma str_slice_ascii s i j :
  Forall (λ c, 0 ≤ c < 128) s → (i ≤ j ≤ length s)%nat → str_slice s i j = Ok (take (j - i) (drop i s)).
Proof.
  intros Hs Hij. unfold str_slice.
  assert (∀ k, (k ≤ length s)%nat → is_char_boundary s k = true) as Hb.
  { intros k Hk. unfold is_char_boundary. destruct (s !! k) as [b|] eqn:E.
    - rewrite Forall_lookup in Hs. specialize (Hs k b E). cbn in Hs. apply negb_true_iff, andb_false_iff. lia.
    - apply lookup_ge_None in E. apply bool_decide_eq_true. lia. }
  rewrite !Hb by lia. done.
Qed.

Lemma length_hex_of upper b : length (hex_of upper b) = (2 * length b)%nat.
Proof. unfold hex_of. induction b as [|x b IH]; [done|]. cbn. rewrite IH. lia. Qed.

Lemma hex_of_ascii upper b : bytes_ok b → Forall (λ c, 44 ≤ c < 128) (hex_of upper b).
Proof.
  intros Hb. apply Forall_concat, Forall_fmap. eapply Forall_impl; [exact Hb|]. intros x Hx. unfold byte_ok in Hx.
  pose proof (Z.mod_pos_bound x 16). pose proof (Z.div_lt_upper_bound x 16 16). pose proof (Z.div_pos x 16).
  repeat constructor; apply hex_char_ascii; lia.
Qed.

Lemma decode_hex_loop_ok upper b done_ :
  bytes_ok (done_ ++ b) →
  decode_hex_loop (length b) (length done_) (hex_of upper (done_ ++ b)) done_ = Ok (Some (done_ ++ b)).
Proof.
  revert done_. induction b as [|x b IH]; intros done_ Hok; [by rewrite app_nil_r|]. cbn [decode_hex_loop length].
  pose proof (hex_of_ascii upper _ Hok) as Hascii. pose proof (length_hex_of upper (done_ ++ x :: b)) as Hlen.
  rewrite length_app in Hlen. cbn [length] in Hlen.
  rewrite str_slice_ascii; [|eapply Forall_impl; [exact Hascii|]; cbn; lia|lia]. cbn [mbind outcome_bind].
  replace (length done_ * 2 + 2 - length done_ * 2)%nat with 2%nat by lia.
  assert (drop (length done_ * 2) (hex_of upper (done_ ++ x :: b)) = hex_of upper (x :: b)) as Hdrop.
  { unfold hex_of. rewrite fmap_app, concat_app. rewrite drop_app_length'; [done|].
    pose proof (length_hex_of upper done_) as E. unfold hex_of in E. rewrite E. lia. }
  apply Forall_app in Hok as [Hd [Hx Hb]%Forall_cons]. unfold byte_ok in Hx.
  pose proof (Z.mod_pos_bound x 16). pose proof (Z.div_lt_upper_bound x 16 16). pose proof (Z.div_pos x 16).
  assert (0 ≤ x / 16 < 16) as Hq by lia. assert (0 ≤ x mod 16 < 16) as Hr by lia.
  rewrite Hdrop. cbn [hex_of fmap list_fmap concat app take u8_from_hex].
  pose proof (hex_char_ascii upper (x / 16) Hq) as Hc. rewrite (proj2 (Z.eqb_neq _ _)) by lia.
  cbn [hex_digits]. rewrite !hex_char_digit by done. cbn [mbind option_bind].
  rewrite (proj2 (Z.ltb_lt (0 * 16 + x / 16) 256)) by lia. cbn [mbind option_bind].
  replace ((0 * 16 + x / 16) * 16 + x mod 16) with x by (pose proof (Z.div_mod x 16); lia).
  rewrite (proj2 (Z.ltb_lt x 256)) by lia.
  specialize (IH (done_ ++ [x])). rewrite <-app_assoc, length_app, Nat.add_comm in IH. apply IH.
  apply Forall_app_2; [done|]. by constructor.
Qed.

(** * Properties *)

(** C9. The server is a map.  On a store that does not fail, a server started on
    an empty directory answers every request of a list: writes within the limits
    are carried out, others are refused with 400 or 413 and change nothing, and
    no request is answered 500.  A scan returns the first entries of the map in
    the range, in key order, with [truncated] set exactly when there are more.
    A GET is answered with the value in the map or, where there is none, 404, if
    no table holds a key twice at that moment ([lookup_room]); in any case a
    value it returns was put under that key by an accepted request.  Statistics
    count the accepted writes and the tables, a flush and a compaction report
    the number of tables they leave, and at the end the database holds the map
    the accepted requests build. *)
Theorem server_refines_map `{Crc32cLaws} `{Xxh3} `{AesGcmLaws} `{HkdfLaws} `{Base64} {F W : Type} `{VfsLaws F W}
    `{!ReliableReads F W} `{!ReliableWrites F W} (fuel : nat) (avx2 encrypted : bool) (dir : string)
    (config : DbConfig) (rs : list request) (w w1 : W) (db : Db F) (Hok : vfs_ok w)
    (Hempty : ∀ name, named (F := F) w (dir +:+ "/" +:+ name) = None) (Hdir : dir_ok F W dir)
    (Hcfg : config_ok config) (Hopen : open_with dir config w = (Ok db, w1))
    (Hroom : requests_room fuel avx2 encrypted rs (db, w1) = true) :
  ∃ resps db' w', serve fuel avx2 encrypted rs (db, w1) = (Ok resps, (db', w')) ∧
    all_answered fuel avx2 true encrypted [] ∅ (current_seqno db) (db, w1) rs resps ∧
    current_seqno db' = current_seqno db + len (foldl accept [] rs) ∧
    reads_at db' w' (snapshot db') (foldl spec_request ∅ rs).
Proof.
  pose proof (open_empty dir config w Hok Hempty Hdir) as Hho. unfold wp in Hho. rewrite Hopen in Hho.
  assert (serving dir config true [] ∅ (current_seqno db) (db, w1) []) as Hsv
    by (split; [done|by intros v ?%not_elem_of_nil|done]).
  destruct (serve_holds dir config true fuel avx2 encrypted rs (db, w1) [] [] ∅ (current_seqno db) Hcfg Hsv Hroom)
    as (resps & [db' w'] & hist & E & Ha & [[(ls & tables & Hinv & _) _ _ Hs] _ Hsq]).
  exists resps, db', w'. split_and!; [done..| |].
  - cbn [fst] in Hsq. unfold current_seqno in *. rewrite Hsq, (accepted_count [] rs). cbn [length]. lia.
  - eapply shows_reads; [apply Hinv..|done].
Qed.

(** C39. The master key from the environment: 32 bytes written in hexadecimal, in
    either case, give the configuration with exactly that key. *)
Theorem master_key_roundtrip (upper : bool) (b : bytes) (Hb : bytes_ok b) (Hlen : length b = 32%nat) :
  ∃ config, build_config (Some (hex_of upper b)) = Ok (inl config) ∧
    master_key config = Some {| master_key_bytes := b |}.
Proof.
  pose proof (length_hex_of upper b) as Hl. unfold build_config, decode_hex_32. rewrite Hl, Hlen. cbn [Z.eqb negb].
  pose proof (decode_hex_loop_ok upper b [] Hb) as E. rewrite Hlen in E. cbn [length app] in E. rewrite E. by eexists.
Qed.

(** Signs are accepted where the documentation asks for hexadecimal digits. *)
Theorem master_key_accepts_signs :
  decode_hex_32 (concat (replicate 32 [43; 102])) = Ok (Some (replicate 32 15)).
Proof. vm_compute. reflexivity. Qed.

(** A value of the right length with a two-byte character across a pair of
    positions panics instead of being refused. *)
Theorem master_key_panics : decode_hex_32 ([97; 195; 169] ++ replicate 61 97) = Panic.
Proof. vm_compute. reflexivity. Qed.

(** ** The properties on a concrete server *)

Definition demo_string (b : bytes) : string :=
  String.string_of_list_ascii ((λ x, Ascii.ascii_of_nat (Z.to_nat x)) <$> b).

#[global] Instance demo_base64 : Base64 := {| b64_encode := demo_string; b64_decode := λ s, Some (string_bytes s) |}.

Definition demo_requests : list request :=
  [PutKv [97] [1]; PutKv [98] [2]; Flush; PutKv (replicate 1025 97) []; DeleteKv [97]; PutKv [99] [3]; Compact;
   GetKv [97]; Scan {| q_start := Some "b"; q_end := None; q_limit := Some 1 |}; Stats].

Lemma server_refines_map_witness :
  ∃ (db : Db MemFile) (w1 : MemVfs) resps (db' : Db MemFile) (w' : MemVfs),
    open_with "/db" demo_config mem_new = (Ok db, w1) ∧
    serve 20 true false demo_requests (db, w1) = (Ok resps, (db', w')) ∧
    all_answered 20 true true false [] ∅ (current_seqno db) (db, w1) demo_requests resps ∧
    lookup_room 20 true [97] (db', w') = true ∧
    reads_at db' w' (snapshot db') {[ [98] := [2]; [99] := [3] ]}.
Proof.
  assert (match open_with "/db" demo_config mem_new with
          | (Ok db, w) => requests_room (F := MemFile) 20 true false demo_requests (db, w) &&
              lookup_room 20 true [97] (serve (F := MemFile) 20 true false demo_requests (db, w)).2
          | _ => false
          end = true) as Hroom by (vm_compute; reflexivity).
  destruct (open_with "/db" demo_config mem_new) as [[db|e| |] w1] eqn:E; try discriminate Hroom.
  apply andb_true_iff in Hroom as [Hroom Hlook].
  destruct (server_refines_map 20 true false "/db" demo_config demo_requests mem_new w1 db mem_new_ok demo_names
    eq_refl demo_config_ok E Hroom) as (resps & db' & w' & H1 & H2 & _ & H3).
  rewrite H1 in Hlook. exists db, w1, resps, db', w'. split; [reflexivity|]. split; [exact H1|]. split; [exact H2|].
  split; [exact Hlook|exact H3].
Defined.

Lemma master_key_roundtrip_witness :
  ∃ config, build_config (Some (hex_of true (replicate 32 171))) = Ok (inl config) ∧
    master_key config = Some {| master_key_bytes := replicate 32 171 |}.
Proof.
  apply (master_key_roundtrip true (replicate 32 171)); [|reflexivity].
  apply (bool_decide_unpack _). vm_compute. exact I.
Defined.
