(* ===== verification/Production.v ===== *)
(** The server as it is deployed: [main] and [build_vfs] of
    [crates/paddock-server/src/main.rs], which put the engine on a [LinuxVfs].

    The start-up sequence, with its panics, and the route handlers on top of
    the production file system.  The log subscriber, the TCP listener and the
    router are not modelled. *)

From S2P Require Import Prelude Varint Checksum Vfs VfsLaws LinuxFile LinuxVfs LinuxLaws WalBatch WalFormat.
From S2P Require Import WalLayout WalWriter WalReader Bloom SstFormat Block Crypto SstWriter SstReader Frames.
From S2P Require Import FileNames InternalKey Arena SkipList Merger Versions History SstTable Compact RangeIter.
From S2P Require Import Engine EngineInv EngineDisk EngineReads EngineWrites EngineFlush EngineOpen EngineRun Server.

(** * Start-up *)

(** [Result::expect]. *)
Definition expect_ok {S A} (m : st S A) : st S A := λ s,
  match m s with
  | (Err _, s) => (Panic, s)
  | r => r
  end.

Definition expect_config (o : outcome (DbConfig + string)) : outcome DbConfig :=
  match o with
  | Ok (inl config) => Ok config
  | Ok (inr _) => Panic
  | Err e => Err e
  | Panic => Panic
  | OutOfFuel => OutOfFuel
  end.

(** [PORT]: [str::parse::<u16>] or the default.  Digits that exceed a [u16] fail
    to parse, as those that exceed a [u64] do. *)
Definition listen_port (var : option string) : Z :=
  match v ← var; parse_u64 v with
  | Some n => if n <? 2 ^ 16 then n else 8080
  | None => 8080
  end.

Definition DEFAULT_DATA_DIR : path := of_string "./data".

Section Main.
Context `{Crc32c} `{Xxh3} `{AesGcm} `{Hkdf} {F W : Type} `{!Kernel F W} `{!PathCalls F W}.

(** [build_vfs] on Linux. *)
Definition build_vfs (data_dir : path) : st W LinuxVfs := create_at (F := F) data_dir.

(** [main] up to the application state: the values of [DATA_DIR] and
    [PADDOCK_MASTER_KEY] give the database and whether it is encrypted. *)
Definition start (data_dir : option path) (key : option bytes) : st W (Db (LinuxFile F) * bool) :=
  vfs ← expect_ok (build_vfs (default DEFAULT_DATA_DIR data_dir));
  config ← st_lift (expect_config (build_config key));
  let encrypted := match master_key config with Some _ => true | None => false end in
  db ← expect_ok (open_with (H3 := linux_vfs vfs) "." config);
  mret (db, encrypted).
End Main.

(** * Sessions *)

Section Sessions.
Context `{Crc32c} `{Xxh3} `{AesGcm} `{Hkdf} `{Base64} {F W : Type} `{!Kernel F W} `{!PathCalls F W}.
Variables (fuel : nat) (avx2 : bool) (root : path) (key : option bytes).

Definition root_vfs : LinuxVfs := {| lv_root := root |}.

#[local] Instance session_vfs : Vfs (LinuxFile F) W := linux_vfs root_vfs.

(** The server is started and answers some requests, is stopped, is started
    again, and so on. *)
Fixpoint run_sessions (sessions : list (list request)) : st W (list (list Response)) := λ w,
  match sessions with
  | [] => (Ok [], w)
  | rs :: sessions =>
      match start (F := F) (Some root) key w with
      | (Ok (db, encrypted), w) =>
          match serve fuel avx2 encrypted rs (db, w) with
          | (Ok resps, (_, w)) => (rest ← run_sessions sessions; mret (resps :: rest)) w
          | (Err e, (_, w)) => (Err e, w)
          | (Panic, (_, w)) => (Panic, w)
          | (OutOfFuel, (_, w)) => (OutOfFuel, w)
          end
      | (Err e, w) => (Err e, w)
      | (Panic, w) => (Panic, w)
      | (OutOfFuel, w) => (OutOfFuel, w)
      end
  end.

(** The sessions stay within the limits of the formats. *)
Fixpoint sessions_room (sessions : list (list request)) (w : W) : bool :=
  match sessions with
  | [] => true
  | rs :: sessions =>
      match start (F := F) (Some root) key w with
      | (Ok (db, encrypted), w) =>
          requests_room fuel avx2 encrypted rs (db, w) &&
          match serve fuel avx2 encrypted rs (db, w) with
          | (Ok _, (db, w)) => reopen_room db && sessions_room sessions w
          | _ => true
          end
      | _ => true
      end
  end.

(** Every session is answered from the map that the sessions before it left;
    [acc] are the writes accepted so far, and the sequence number of a session
    starts where the start-up puts it. *)
Fixpoint sessions_answered (acc : list request) (m : kv) (sessions : list (list request))
    (resps : list (list Response)) (w : W) : Prop :=
  match sessions, resps with
  | [], [] => True
  | rs :: sessions, r :: resps =>
      match start (F := F) (Some root) key w with
      | (Ok (db, encrypted), w) =>
          encrypted = bool_decide (is_Some key) ∧
          all_answered fuel avx2 false encrypted acc m (current_seqno db) (db, w) rs r ∧
          sessions_answered (foldl accept acc rs) (foldl spec_request m rs) sessions resps
            (serve fuel avx2 encrypted rs (db, w)).2.2
      | _ => False
      end
  | _, _ => False
  end.
End Sessions.

(** * The configuration is within the formats' limits *)

Lemma build_config_ok key config : expect_config (build_config key) = Ok config → config_ok config.
Proof.
  assert (∀ mk, config_ok {| memtable_threshold_bytes := memtable_threshold_bytes db_config_default;
    bloom_bits_per_key := bloom_bits_per_key db_config_default; bloom_num_hashes := bloom_num_hashes db_config_default;
    sstable_capacity_hint := sstable_capacity_hint db_config_default; master_key := mk |}) as Hok
    by (intros mk; unfold config_ok, is_u8; cbn; lia).
  unfold build_config. destruct key as [hex|]; [|intros [= <-]; apply (Hok None)].
  destruct (decode_hex_32 hex) as [[raw|]| | |]; cbn; try done. intros [= <-]. apply Hok.
Qed.

Lemma build_config_key key config :
  expect_config (build_config key) = Ok config →
  (match master_key config with Some _ => true | None => false end) = bool_decide (is_Some key).
Proof.
  unfold build_config. destruct key as [hex|]; [|by intros [= <-]].
  destruct (decode_hex_32 hex) as [[raw|]| | |]; cbn; try done. by intros [= <-].
Qed.

Lemma listen_port_u16 var : 0 ≤ listen_port var < 2 ^ 16.
Proof.
  unfold listen_port. destruct var as [v|]; [|done]. cbn. destruct (parse_u64 v) as [n|] eqn:E; [|done].
  apply parse_u64_bound in E. unfold is_u64 in E. case_bool; lia.
Qed.

(** * The production server *)

Section Started.
Context `{Crc32cLaws} `{Xxh3} `{AesGcmLaws} `{HkdfLaws} `{Base64} {F W : Type} (root : path)
  `{!Kernel F W} `{!KernelLaws F W} `{!PathCalls F W} `{!DirState F W} `{!DirLaws F W root}
  (Hroot : root ≠ []) (Hreads : ¬ k_read_faults F W).

#[local] Existing Instance linux_vfs_state.
#[local] Instance started_vfs : Vfs (LinuxFile F) W := linux_vfs (root_vfs root).
#[local] Instance started_laws : VfsLaws (LinuxFile F) W := linux_vfs_laws (root_vfs root) Hroot.
#[local] Instance started_reads : ReliableReads (LinuxFile F) W.
Proof using Hreads. split. exact Hreads. Qed.

(** Creating the root leaves the files there as they are. *)
Lemma create_root_named (w : W) p :
  named (F := LinuxFile F) (p_create_dir_all (F := F) root w).2 p = named w p.
Proof using DirLaws0.
  rewrite !named_entry. destruct (root_entry p); [|done]. by rewrite (sm_entry _ _ (create_root_dir w)).
Qed.

(** Start-up on a directory that holds a history. *)
Lemma start_holds key config (w : W) hist log tab (s : Z) m :
  expect_config (build_config key) = Ok config → d_ok w →
  disk_ok (F := LinuxFile F) "." config w hist log tab → dir_fits (F := LinuxFile F) "." w hist →
  bounded hist s → shows hist s m →
  match start (F := F) (Some root) key w with
  | (Ok (db, encrypted), w1) => holds "." config false (db, w1) hist m ∧ encrypted = bool_decide (is_Some key)
  | (Panic, _) => k_write_faults F W
  | _ => False
  end.
Proof using All.
  intros Hkey Hok Hd Hfits Hb Hm. unfold start, build_vfs, create_at, mbind, st_bind, expect_ok.
  change (default DEFAULT_DATA_DIR (Some root)) with root.
  pose proof (create_dir_all_returns (F := F) root w) as Hret. pose proof (create_root_dir (root := root) w) as Hs.
  pose proof (create_root_named w) as Hn. pose proof (λ g, create_root_contents (root := root) g w) as Hc.
  destruct (p_create_dir_all root w) as [[[]|e| |] w1] eqn:Ec; try done;
    cbn [fst snd mret st_ret] in *; [|by eapply create_root_Err].
  unfold st_lift. rewrite Hkey. change (linux_vfs {| lv_root := root |}) with started_vfs.
  assert (wp (open_with "." config) (λ _ _, write_faults (LinuxFile F) W)
    (λ db w', holds (F := LinuxFile F) "." config false (db, w') hist m) w1) as Hopen.
  { apply (wp_open_holds "." config w1 hist log tab s m); [by apply Hs| | |done..].
    - eapply disk_same; [exact Hn|intros f; apply Hc|done].
    - destruct Hfits as [Hdir Hfiles Hseq]. split; [done| |done]. intros n. unfold wal_named, sst_named.
      rewrite !Hn. apply Hfiles. }
  unfold wp in Hopen. destruct (open_with "." config w1) as [[db|e| |] w2]; try done; [|by destruct Hopen].
  split; [done|by apply build_config_key].
Qed.

(** What a database leaves behind is what the next start-up finds. *)
Lemma sessions_holds fuel avx2 key config sessions (w : W) hist log tab (s : Z) acc m :
  ¬ k_write_faults F W → expect_config (build_config key) = Ok config → d_ok w →
  disk_ok (F := LinuxFile F) "." config w hist log tab → dir_fits (F := LinuxFile F) "." w hist →
  bounded hist s → shows hist s m → (∀ v, v ∈ hist → hit_op v.2 = OpPut → PutKv v.1 (hit_value v.2) ∈ acc) →
  sessions_room (F := F) fuel avx2 root key sessions w = true →
  ∃ resps w', run_sessions (F := F) fuel avx2 root key sessions w = (Ok resps, w') ∧
    sessions_answered (F := F) fuel avx2 root key acc m sessions resps w.
Proof using All.
  intros Hwrites Hkey. assert (ReliableWrites (LinuxFile F) W) as Hrel by (split; by intros [?|?]).
  revert w hist log tab s acc m.
  induction sessions as [|rs sessions IH]; intros w hist log tab s acc m Hok Hd Hfits Hb Hm Hacc.
  { intros _. by exists [], w. }
  cbn [sessions_room run_sessions]. pose proof (start_holds key config w hist log tab s m Hkey Hok Hd Hfits Hb Hm) as Hst.
  destruct (start (Some root) key w) as [[[db encrypted]|e| |] w1] eqn:Est; try done. destruct Hst as [Hst Henc].
  intros [Hroom Hrest]%andb_true_iff. change (session_vfs root) with started_vfs in *.
  destruct (serve_holds (F := LinuxFile F) "." config false fuel avx2 encrypted rs (db, w1) hist acc m (current_seqno db)
    (build_config_ok _ _ Hkey) (Build_serving _ _ _ _ _ _ _ _ Hst Hacc eq_refl) Hroom)
    as (resps & [db' w'] & hist' & E & Ha & [Hho Hacc' _]).
  rewrite E in Hrest |- *. apply andb_true_iff in Hrest as [Hre Hrest].
  destruct Hho as [(ls & tables & Hinv & _) Ed Ec Hs]. cbn [fst snd] in *. unfold reopen_room in Hre.
  fold (db_next db') in Hre. rewrite andb_true_iff, !Z.ltb_lt in Hre. destruct Hre as [Hn Hsq].
  pose proof (inv_dir_fits _ _ _ _ _ Hinv Hn Hsq) as Hfits'. pose proof Hinv as [Hcore _ _ (log' & tab' & Hd' & _)].
  rewrite Ed, Ec in *.
  destruct (IH w' hist' log' tab' (db_seqno db') (foldl accept acc rs) (foldl spec_request m rs))
    as (rest & w2 & E2 & Ha2); [apply Hcore|done|done|by eapply inv_bounded|done|done|done|].
  exists (resps :: rest), w2. split; [by rewrite (run_bind _ _ _ _ _ E2)|].
  cbn [sessions_answered]. rewrite Est. change (session_vfs root) with started_vfs. by rewrite E.
Qed.
End Started.

(** * Properties *)

(** C8. The deployed server.  The server is started on an empty [DATA_DIR] of a
    POSIX file system without faults, answers requests, is stopped and started
    again with the same key, any number of times.  It never panics and never
    answers 500.  Writes, refusals, scans, statistics, flushes and compactions of
    every session are answered as one map says that all accepted requests before
    them built, those of earlier sessions included: a scan shows everything that
    was acknowledged before a restart.  A GET is answered from that map where
    the sources it visits hold the versions of its key in order of age and no
    table holds a key twice ([lookup_room]); a log segment that was replayed and
    left behind can break that order, and then the GET still answers 404 or a
    value that an accepted request put under its key. *)
Theorem production_sessions `{Crc32cLaws} `{Xxh3} `{AesGcmLaws} `{HkdfLaws} `{Base64} {F W : Type} (root : path)
    `{!Kernel F W} `{!KernelLaws F W} `{!PathCalls F W} `{!DirState F W} `{!DirLaws F W root}
    (fuel : nat) (avx2 : bool) (key : option bytes) (config : DbConfig) (sessions : list (list request)) (w : W)
    (Hroot : root ≠ []) (Hreads : ¬ k_read_faults F W) (Hwrites : ¬ k_write_faults F W)
    (Hkey : build_config key = Ok (inl config)) (Hok : d_ok w) (Hempty : ∀ name, d_entry w name = None)
    (Hroom : sessions_room (F := F) fuel avx2 root key sessions w = true) :
  ∃ resps w', run_sessions (F := F) fuel avx2 root key sessions w = (Ok resps, w') ∧
    sessions_answered (F := F) fuel avx2 root key [] ∅ sessions resps w.
Proof.
  assert (∀ name, named (VfsState := linux_vfs_state) (F := LinuxFile F) w ("." +:+ "/" +:+ name) = None) as Hnone.
  { intros name. rewrite named_entry. destruct (root_entry _); [|done]. by rewrite Hempty. }
  apply (sessions_holds root Hroot Hreads fuel avx2 key config sessions w [] (λ _, []) (λ _, []) 0 [] ∅); try done.
  - by rewrite Hkey.
  - by apply disk_empty.
  - by apply empty_dir_fits.
  - constructor.
  - by intros v ?%not_elem_of_nil.
Qed.

(** ** The property on a concrete disk *)

Definition demo_root : path := of_string "/data".

#[local] Instance demo_calls : PathCalls Z slow_disk := slow_calls demo_root.

Definition demo_sessions : list (list request) :=
  [[PutKv [97] [1]; PutKv [98] [2]; Flush; DeleteKv [97]];
   [PutKv [99] [3]; Compact; Scan {| q_start := None; q_end := None; q_limit := None |}];
   [GetKv [98]; Scan {| q_start := None; q_end := None; q_limit := None |}]].

(** The GET of the third session is one of those answered from the map. *)
Lemma demo_lookup_room :
  match run_sessions (F := Z) 50 true demo_root None (take 2 demo_sessions) slow_empty with
  | (Ok _, w) =>
      match start (F := Z) (Some demo_root) None w with
      | (Ok (db, _), w) => lookup_room (H4 := session_vfs demo_root) 50 false [98] (db, w)
      | _ => false
      end
  | _ => false
  end = true.
Proof. vm_compute. reflexivity. Qed.

Lemma production_sessions_witness :
  ∃ resps (w' : slow_disk), run_sessions (F := Z) 50 true demo_root None demo_sessions slow_empty = (Ok resps, w') ∧
    sessions_answered (F := Z) 50 true demo_root None [] ∅ demo_sessions resps slow_empty.
Proof.
  apply (production_sessions (F := Z) (W := slow_disk) demo_root 50 true None db_config_default demo_sessions slow_empty).
  - discriminate.
  - intros [].
  - intros [].
  - reflexivity.
  - split; [intros name f Hf|intros a b f Hf]; cbn in Hf; rewrite lookup_empty in Hf; discriminate Hf.
  - intros name. cbn. rewrite lookup_empty. by case_match.
  - vm_compute. reflexivity.
Defined.
